(* ===== verification/_CoqProject ===== *)
-Q . S2P
Prelude.v
Text.v
Json.v
Protocol.v
F64.v
Env.v
Config.v
RateLimit.v
Rounding.v
Quota.v
Rbac.v
Session.v
Notifications.v
LeafClient.v
Scenario.v
Registry.v
Health.v
Aggregator.v
Router.v
Server.v
SessionSpec.v
DnsDiscovery.v
CrdDiscovery.v
Status.v
Api.v
Reload.v
App.v
Nested.v
Main.v
SocketAddr.v
Actions.v
Threads.v
Awaits.v
SameCode.v
Guarantee.v
Writers.v
Startup.v
Serve.v
ListTools.v
System.v
Access.v
Calm.v
History.v
Chronicle.v
Delivery.v
Allowance.v
Relay.v
Admission.v
Work.v
Stdio.v
OneWriter.v
Settling.v
Breaker.v
