(* ===== verification/Prelude.v ===== *)
(** * mcp-federation: a verification library

    mcp-federation is a server of the Model Context Protocol (JSON-RPC 2.0) that stands
    in front of other such servers, its _leaves_.  It lists their tools, resources and
    prompts under qualified names ([alias__name]), routes calls to them, keeps track of
    their health, relays their notifications, and finds leaves in a configuration file,
    in DNS, in Kubernetes and through a REST API.  The library models the Rust sources
    under [src/src/] and proves what makes them correct.

    ** How the program is modelled

    Data are records and inductive types with the source's names.  A handler is a
    function in the state monad [M] below, on the part of the state it uses; an error is
    a value of [result].  What is shared and mutated in place in the source is shared
    here: the entries of the leaves live in a heap and are reached by reference, so are
    the channels of the broker.  Machine integers are [Z] or [N] with their wrap-around
    written out, the floating-point arithmetic of the rate limiter and of the backoff is
    that of binary64 (F64.v), texts are byte strings with UTF-8 where the source depends
    on it (Text.v).

    What is not in the sources is a class, an argument of the definitions that use it:
    [Os] (clock, files, environment, random identifiers), [Http] (the outcome of each
    request, of the TLS set-up), [Serde] (serde_json), [Yaml], [Jwt], [Base64], [Dig],
    [Kube] (the Kubernetes API), [Axum] (the web framework), [Unicode] (lower-casing),
    [HeaderValue], [Net] (binding, certificates) and [MapOrder] (the order in which a hash
    map is iterated: some permutation).  Laws are asked for where a theorem needs them and
    are documented behaviour: [SerdeLaws] and [JwtLaws] say that what was encoded is decoded
    again (an object with the last value of each key, in the order of the keys).  The
    witnesses run on concrete instances (Scenario.v and the modules [Example]).

    ** The files

    - Prelude.v, Text.v, Json.v, F64.v, Env.v: results and the state monad with its rules
      ([wp]); texts; JSON values; binary64; the surroundings.
    - Protocol.v ([error.rs], [mcp/protocol.rs]): errors, requests and responses.
    - Config.v ([config.rs]): the configuration, its defaults, the interpolation of
      environment variables, loading and validation.
    - RateLimit.v ([rate_limit.rs]): the token buckets; Rounding.v: the error of the
      arithmetic; Quota.v: what the limiter promises its clients in spite of it.
    - Rbac.v ([rbac.rs], the middleware of [main.rs]): identities and authentication.
    - Session.v ([session.rs]): sessions and their tokens; SessionSpec.v: what the manager
      promises its callers, call by call, without tokens and table.
    - Notifications.v ([notifications.rs]): the broker and its bounded channels.
    - LeafClient.v ([leaf_client.rs]): the HTTP client of a leaf and the two SSE parsers.
    - Registry.v ([registry.rs]): the leaves; the state [World] the components share; the
      predicate [acts] that bounds what an operation changes.
    - Health.v ([health.rs]): the monitors, the circuit breaker and the backoff.
    - Aggregator.v, Router.v ([aggregator.rs], [router.rs]): the lists, qualified names,
      routing, and the federation's own tools.
    - Server.v ([server.rs]): [FederationState], the [/mcp] endpoint, the methods, stdio.
    - DnsDiscovery.v, CrdDiscovery.v ([dns_discovery.rs], [crd_discovery.rs]): discovery;
      the second has a step relation of the controller with the cluster.
    - Status.v ([server.rs]), Api.v ([api.rs]): the status page; the REST API.
    - Reload.v, App.v, Main.v ([main.rs]): the reload on SIGHUP; the HTTP application; the
      command line, the start-up and the table of tools.
    - Nested.v: a federation as a leaf of another, the client of LeafClient.v on one side
      and the application of App.v on the other.
    - Actions.v: the background tasks, and everything that can happen to the running
      program, each as one function that runs to its end.
    - Threads.v: computations that yield ([Proc]), what it takes to reason about many of
      them on one state (rely and guarantee), and that they end.
    - Awaits.v, SameCode.v: the handlers, tasks and loops of the files above with their
      [await]s; that each is the same code as its counterpart.
    - Guarantee.v: what each part of each of them promises the others; Writers.v: threads
      that are the only one to write the status of a leaf.
    - SocketAddr.v: how the standard library reads a socket address, for Serve.v: the HTTP and
      HTTPS servers come up, or end the program.
    - Startup.v: the start-up with its parallel tasks; ListTools.v: [--list-tools], which
      gives up waiting for them after ten seconds; Stdio.v: the stdio mode and its shutdown.
    - System.v: the whole program as a step relation on threads, its invariant, who owns
      which alias, and its uninterrupted runs; Access.v: what a request may change; Work.v:
      it comes to rest; OneWriter.v: each status has one writer at a time; Settling.v: each
      leaf is decided; Breaker.v: the health monitors.
    - Calm.v, History.v, Chronicle.v: which parts of the threads touch the broker, the
      sessions and the rates, what each thread tells of what it did with them, and that every
      run has a history that all threads tell together.  From it come Delivery.v (a
      notification on its way from a leaf to a client), Relay.v (through two federations),
      Admission.v (the sessions as the handlers and the pruning task use them) and
      Allowance.v (the rate limits).
    - Scenario.v: a small deployment for the witnesses.

    A request goes through App.v (gate and route), Server.v (origin, session, rate,
    method), Aggregator.v or Router.v, Registry.v and LeafClient.v; a notification goes
    from LeafClient.v through Notifications.v to the streams of Server.v.  DNS, Kubernetes,
    REST and reload all add leaves by [install] of Registry.v, which leaves a task behind;
    System.v runs the tasks among everything else.

    ** What the theorems show

    - The whole program, in every interleaving: [program_invariant] (no dangling reference,
      a consistent table, and an entry's configuration never changes),
      [leaves_have_owners] (who may change which alias), [status_has_one_writer] and
      [breaker_is_sequential] (no failure of a leaf is lost or counted twice, although no
      lock spans a check), [work_ends] (termination), [leaves_get_decided] (what it comes
      to), [atomic_runs_are_schedules] (the uninterrupted code is one of the schedules).  Its
      start is [starts_as_configured] and [server_comes_up], and [main_starts] when the tasks
      run one after the other; [list_tools_tells] is about the other command.
    - What the threads share, in every interleaving: [notifications_delivered] (from the
      answer of a leaf to the stream of a client), [sessions_as_specified] (the sessions,
      opened, checked, used, ended and pruned by different threads, are those of a
      specification without table and tokens) and [rates_hold] (who is let through when), on
      top of [receiver_fifo], [manager_as_specified] and [limiter_promises] for the three
      components.
    - Two of them, one behind the other: [nested_calls], [nested_discovery] and, both running
      in every interleaving, [notifications_relayed].
    - Who may do what: [app_requires_token], [resolve_grants], [tools_respect_rbac],
      [handle_mcp_admission], and [requests_confined] in every interleaving.
    - Names and routing: [qualified_names], [aggregated_tools_lists],
      [aggregated_names_distinct], [listed_tools_route], [calls_reach_the_leaf],
      [dispatch_replies], [stdio_answers].
    - The sources of leaves: [reload_converges], [reconcile_converges] for DNS,
      [crd_leaves_have_objects] and [crd_cleanup_completes] for Kubernetes, the [register]
      theorems for REST.
    - Health: [circuit_breaker], [next_delay_bounded].
    - Limits: [limiter_promises] is about any instants, with the roundings; on whole seconds
      the floating-point bucket refines an integer one ([bucket_refines]).
    - Streams: [stream_reference] (the parser does not depend on how bytes arrive),
      [stream_roundtrip], [publish_delivers], [send_request_bounded].
    - Texts: [status_page_inert], [rfc3339_follows_calendar], [parse_correct]
      (loading the configuration).

    ** Bounds and fuel

    The recursions are structural but for three.  The interpolation of variables consumes
    at least three bytes in each round, and is given the length of the text as fuel; that
    this is enough is [interpolate_loop_fuel].  [trim_end_matches] is given the
    length of the text, and [trim_end_matches_spec] shows that nothing is left to trim.
    [unescape], which only specifies the escaping, is given the length too, which
    [html_escape_roundtrip] shows to be enough.

    ** Granularity

    The files up to Main.v describe each operation as it runs alone, from its start to its
    end; their theorems about single handlers are about that.  Awaits.v has the same code
    as threads that yield at every [await] that waits for a leaf, for the Kubernetes API
    or for a lock that is taken again later; the theorems of the files from Guarantee.v on
    are about all their interleavings.  What remains one part is listed in Awaits.v: a group
    of reads that makes up one reply is one.  A command ([dig]), a file and the
    Kubernetes API answer at the instant they are asked; a request to a leaf takes the
    time that [Http] says.

    [initialize_all] and [refresh_all_tools] start one task for each leaf and wait for all
    of them: threads in parallel in Awaits.v, of which Registry.v has the run that takes one
    leaf after the other.  A client that goes away takes its request with it at any
    [await].

    ** Not modelled

    Logs and their set-up, spans and metrics; the OpenAPI document; once they are up, the
    sockets of the HTTP servers, their TLS and their graceful shutdown, which are the
    libraries'; the work queue of the Kubernetes controller (a step may reconcile any object
    it has seen, at any time); when a time limit ends an HTTP request (it is an outcome of [Http]), and at which point
    the ten seconds of [--list-tools] are over (at any).  The test helpers and the tests. *)
From Stdlib Require Export Ascii.
From stdpp Require Export base gmap sets list strings pretty sorting.
From Stdlib Require Export ZArith Lia.

#[global] Arguments String.append : simpl nomatch.

(** ** Results

    Rust's [Result<A, E>].  The error monad of the handlers. *)
Inductive result (E A : Type) : Type :=
| Ok (a : A)
| Err (e : E).
Arguments Ok {E A} a.
Arguments Err {E A} e.

(** Unit errors and payloads need decidable equality for the witnesses. *)
#[export] Instance result_eq_dec {E A} `{EqDecision E, EqDecision A} :
  EqDecision (result E A).
Proof. solve_decision. Defined.

Definition is_ok {E A} (r : result E A) : bool :=
  match r with Ok _ => true | Err _ => false end.

(** [Result::map_err] *)
Definition map_err {E F A} (f : E → F) (r : result E A) : result F A :=
  match r with Ok a => Ok a | Err e => Err (f e) end.

(** [Option::ok_or_else] *)
Definition ok_or {E A} (e : E) (o : option A) : result E A :=
  match o with Some a => Ok a | None => Err e end.

(** [Result::ok] *)
Definition res_ok {E A} (r : result E A) : option A :=
  match r with Ok a => Some a | Err _ => None end.

#[export] Instance result_ret {E} : MRet (result E) := λ _ a, Ok a.
#[export] Instance result_bind {E} : MBind (result E) :=
  λ _ _ f r, match r with Ok a => f a | Err e => Err e end.
#[export] Instance result_fmap {E} : FMap (result E) :=
  λ _ _ f r, match r with Ok a => Ok (f a) | Err e => Err e end.

(** ** Stateful computations

    A handler that mutates a state [S] and returns an [A].  [lift_state] runs a
    computation on a component of a larger state, the way a handler reaches a
    component through a field of its own state. *)
Definition M (S A : Type) : Type := S → A * S.

#[export] Instance M_ret {S} : MRet (M S) := λ _ a s, (a, s).
#[export] Instance M_bind {S} : MBind (M S) :=
  λ _ _ f m s, let '(a, s') := m s in f a s'.

Definition m_get {S} : M S S := λ s, (s, s).
Definition m_gets {S A} (f : S → A) : M S A := λ s, (f s, s).
Definition m_modify {S} (f : S → S) : M S unit := λ s, (tt, f s).
Definition m_when {S} (b : bool) (m : M S unit) : M S unit :=
  if b then m else mret tt.

Definition lift_state {S T A} (get : S → T) (set : T → S → S) (m : M T A) : M S A :=
  λ s, let '(a, t) := m (get s) in (a, set t s).

Fixpoint m_iter {S A} (f : A → M S unit) (l : list A) : M S unit :=
  match l with
  | [] => mret tt
  | a :: l => _ ← f a; m_iter f l
  end.

Fixpoint m_map {S A B} (f : A → M S B) (l : list A) : M S (list B) :=
  match l with
  | [] => mret []
  | a :: l => b ← f a; bs ← m_map f l; mret (b :: bs)
  end.

(** A computation that may fail keeps the state it had when it failed: the
    [?] operator of the source inside an [async fn]. *)
Declare Scope fed_scope.
Delimit Scope fed_scope with fed.
Open Scope fed_scope.

(** Lemmas that close the common side conditions, and the equations that normalise
    texts and states. *)
Create HintDb fed discriminated.
Create Rewrite HintDb fed.

Definition m_bindr {S E A B} (f : A → M S (result E B)) (m : M S (result E A)) :
  M S (result E B) :=
  λ s, match m s with
       | (Ok a, s') => f a s'
       | (Err e, s') => (Err e, s')
       end.

Notation "x ←? m ; k" := (m_bindr (λ x, k) m)
  (at level 20, m at level 100, k at level 200) : fed_scope.
Notation "' x ←? m ; k" := (m_bindr (λ x, match x with x => k end) m)
  (at level 20, x pattern, m at level 100, k at level 200, only parsing) : fed_scope.

(** ** Lists *)
Lemma list_filter_ext_in {A} (P Q : A → Prop) `{!∀ x, Decision (P x), !∀ x, Decision (Q x)}
    (l : list A) :
  (∀ x, x ∈ l → P x ↔ Q x) → filter P l = filter Q l.
Proof.
  intros Hl. induction l as [|x l IH]; [done|].
  rewrite !filter_cons, IH by (intros; apply Hl; by right).
  pose proof (Hl x (list_elem_of_here _ _)). repeat case_decide; naive_solver.
Qed.

Lemma filter_all {A} (P : A → Prop) `{!∀ x, Decision (P x)} (l : list A) :
  (∀ x, x ∈ l → P x) → filter P l = l.
Proof.
  intros Hl. induction l as [|x l IH]; [done|].
  rewrite filter_cons_True by (apply Hl; left). f_equal. apply IH. intros. apply Hl. by right.
Qed.

(** Expose the next step of a stateful computation. *)
Ltac run_m :=
  cbv beta iota zeta delta
    [mbind M_bind m_gets m_get m_modify m_bindr mret M_ret m_when fst snd].

(** [wp m Q s]: what [m] returns from [s], and the state it leaves, satisfy [Q]. *)
Definition wp {S A} (m : M S A) (Q : A → S → Prop) (s : S) : Prop := Q (m s).1 (m s).2.

Lemma wp_ret {S A} (a : A) (Q : A → S → Prop) s : wp (mret a) Q s ↔ Q a s.
Proof. done. Qed.
Lemma wp_bind {S A B} (m : M S A) (f : A → M S B) Q s :
  wp (m ≫= f) Q s ↔ wp m (λ a, wp (f a) Q) s.
Proof. unfold wp. run_m. by destruct (m s). Qed.
Lemma wp_bindr {S E A B} (m : M S (result E A)) (f : A → M S (result E B)) Q s :
  wp (m_bindr f m) Q s ↔
  wp m (λ r, match r with Ok a => wp (f a) Q | Err e => Q (Err e) end) s.
Proof. unfold wp. run_m. by destruct (m s) as [[]]. Qed.
Lemma wp_gets {S A} (f : S → A) Q s : wp (m_gets f) Q s ↔ Q (f s) s.
Proof. done. Qed.
Lemma wp_mono {S A} (m : M S A) (P Q : A → S → Prop) s :
  (∀ a s', P a s' → Q a s') → wp m P s → wp m Q s.
Proof. unfold wp. eauto. Qed.
Lemma wp_and {S A} (m : M S A) (P Q : A → S → Prop) s :
  wp m P s → wp m Q s → wp m (λ a s', P a s' ∧ Q a s') s.
Proof. unfold wp. eauto. Qed.
(** A step that establishes [R], then the rest from there *)
Lemma wp_seq {S A B} (m : M S A) (f : A → M S B) (R : A → S → Prop) Q s :
  wp m R s → (∀ a s', R a s' → wp (f a) Q s') → wp (m ≫= f) Q s.
Proof. intros Hm Hf. apply wp_bind. eapply wp_mono; [exact Hf|exact Hm]. Qed.

Lemma m_iter_cons {S A} (f : A → M S unit) a l s :
  (m_iter f (a :: l) s).2 = (m_iter f l (f a s).2).2.
Proof. cbn [m_iter]. run_m. by destruct (f a s). Qed.

Lemma filter_none {A} (P : A → Prop) `{!∀ x, Decision (P x)} (l : list A) :
  (∀ x, x ∈ l → ¬ P x) → filter P l = [].
Proof.
  intros Hl. induction l as [|x l IH]; [done|].
  rewrite filter_cons_False by (apply Hl; left). apply IH. intros. apply Hl. by right.
Qed.
