(* ===== verification/Text.v ===== *)
(** * Text: the [str] and [char] operations of the program

    A Rust [str] is its UTF-8 bytes, here a [string] whose characters are the
    bytes.  Searching, splitting and stripping work on bytes in both; the
    operations on [char]s ([trim], [split_whitespace], [chars]) decode the
    bytes first. *)
From S2P Require Import Prelude.
Open Scope string_scope.
Open Scope list_scope.

(** ** Prefixes, substrings, splitting *)

(** [str::strip_prefix] *)
Fixpoint strip_prefix (p s : string) : option string :=
  match p, s with
  | EmptyString, _ => Some s
  | String a p', String b s' => if decide (a = b) then strip_prefix p' s' else None
  | String _ _, EmptyString => None
  end.

(** [str::starts_with] *)
Definition starts_with (p s : string) : bool := bool_decide (is_Some (strip_prefix p s)).

(** [str::split_once]: the text before and after the first occurrence of [d].
    [find] followed by slicing, as [interpolate_env_vars] does it, is the same
    operation. *)
Fixpoint split_once (d s : string) : option (string * string) :=
  match strip_prefix d s with
  | Some rest => Some ("", rest)
  | None =>
      match s with
      | EmptyString => None
      | String c s' =>
          match split_once d s' with
          | Some (a, b) => Some (String c a, b)
          | None => None
          end
      end
  end.

(** [str::contains] *)
Definition contains (d s : string) : bool := bool_decide (is_Some (split_once d s)).

Definition is_empty (s : string) : bool := bool_decide (s = "").

Fixpoint str_rev_app (s acc : string) : string :=
  match s with "" => acc | String c s' => str_rev_app s' (String c acc) end.
Definition str_rev (s : string) : string := str_rev_app s "".

(** [str::strip_suffix] *)
Definition strip_suffix (p s : string) : option string :=
  str_rev <$> strip_prefix (str_rev p) (str_rev s).

(** [str::trim_end_matches]: strip the pattern as often as it occurs at the end.
    Each strip removes at least one byte when the pattern is not empty, so the
    length of the text is enough fuel. *)
Fixpoint trim_end_matches_fuel (fuel : nat) (p s : string) : string :=
  match fuel with
  | O => s
  | S fuel => match strip_suffix p s with
              | Some s' => trim_end_matches_fuel fuel p s'
              | None => s
              end
  end.
Definition trim_end_matches (p s : string) : string :=
  trim_end_matches_fuel (String.length s) p s.

(** [str::split] on one byte *)
Fixpoint split_char (d : ascii) (s : string) : list string :=
  match s with
  | "" => [""]
  | String c s' =>
      if decide (c = d) then "" :: split_char d s'
      else match split_char d s' with
           | [] => [String c ""]
           | l :: ls => String c l :: ls
           end
  end.

(** [str::split_inclusive] on one byte *)
Fixpoint split_inclusive (d : ascii) (s : string) : list string :=
  match s with
  | "" => []
  | String c s' =>
      if decide (c = d) then String c "" :: split_inclusive d s'
      else match split_inclusive d s' with
           | [] => [String c ""]
           | l :: ls => String c l :: ls
           end
  end.

Definition LF : ascii := "010".
Definition CR : ascii := "013".
Definition nl : string := String LF "".

(** [str::lines]: a line ends at a line feed, and a carriage return is dropped
    only when the line feed follows it. *)
Definition lines (s : string) : list string :=
  (λ l, match strip_suffix nl l with
        | None => l
        | Some l' => default l' (strip_suffix (String CR "") l')
        end) <$> split_inclusive LF s.

(** [[String]::join] *)
Definition join (sep : string) (l : list string) : string := String.concat sep l.

(** [str::replace] of one byte by a text *)
Fixpoint replace_char (c : ascii) (by_ s : string) : string :=
  match s with
  | "" => ""
  | String d s' => (if decide (d = c) then by_ else String d "") +:+ replace_char c by_ s'
  end.

(** ** Characters *)

Definition byte_N (c : ascii) : N := N_of_ascii c.
Definition is_cont (c : ascii) : bool := (128 <=? byte_N c)%N && (byte_N c <? 192)%N.
Definition starts_cont (s : string) : bool :=
  match s with String c _ => is_cont c | "" => false end.

(** [str::chars]: each [char] as its UTF-8 bytes *)
Fixpoint chars (s : string) : list string :=
  match s with
  | "" => []
  | String c s' =>
      match chars s' with
      | [] => [String c ""]
      | ch :: rest => if starts_cont ch then String c ch :: rest
                      else String c "" :: ch :: rest
      end
  end.

Fixpoint of_bytes (l : list N) : string :=
  match l with [] => "" | b :: l => String (ascii_of_N b) (of_bytes l) end.

(** The code points of [White_Space], in UTF-8 *)
Definition white_space : list string :=
  of_bytes <$> ([[9]; [10]; [11]; [12]; [13]; [32];
    [0xC2; 0x85]; [0xC2; 0xA0]; [0xE1; 0x9A; 0x80];
    [0xE2; 0x80; 0x80]; [0xE2; 0x80; 0x81]; [0xE2; 0x80; 0x82]; [0xE2; 0x80; 0x83];
    [0xE2; 0x80; 0x84]; [0xE2; 0x80; 0x85]; [0xE2; 0x80; 0x86]; [0xE2; 0x80; 0x87];
    [0xE2; 0x80; 0x88]; [0xE2; 0x80; 0x89]; [0xE2; 0x80; 0x8A]; [0xE2; 0x80; 0xA8];
    [0xE2; 0x80; 0xA9]; [0xE2; 0x80; 0xAF]; [0xE2; 0x81; 0x9F]; [0xE3; 0x80; 0x80]])%N.

(** [char::is_whitespace] *)
Definition is_whitespace (ch : string) : bool := bool_decide (ch ∈ white_space).

Fixpoint drop_while {A} (f : A → bool) (l : list A) : list A :=
  match l with
  | [] => []
  | a :: l' => if f a then drop_while f l' else l
  end.

(** [str::trim] *)
Definition trim (s : string) : string :=
  join "" (reverse (drop_while is_whitespace (reverse (drop_while is_whitespace (chars s))))).

Fixpoint split_ws (cs : list string) : list string :=
  match cs with
  | [] => [""]
  | c :: cs =>
      if is_whitespace c then "" :: split_ws cs
      else match split_ws cs with [] => [c] | l :: ls => (c +:+ l) :: ls end
  end.

(** [str::split_whitespace] *)
Definition split_whitespace (s : string) : list string :=
  filter (λ w, w ≠ "") (split_ws (chars s)).

Definition ascii_lower (c : ascii) : ascii :=
  if (65 <=? byte_N c)%N && (byte_N c <=? 90)%N then ascii_of_N (byte_N c + 32) else c.

(** [str::to_ascii_lowercase] *)
Fixpoint to_ascii_lowercase (s : string) : string :=
  match s with "" => "" | String c s' => String (ascii_lower c) (to_ascii_lowercase s') end.

(** ** UTF-8 validation ([std::str::from_utf8])

    The automaton of the well-formed byte sequences of the Unicode standard:
    a state is what the next byte may be. *)
Inductive utf8_state : Type :=
| U_start | U_c1 | U_c2 | U_c3 | U_e0 | U_ed | U_f0 | U_f4.

Definition in_range (lo hi b : N) : bool := (lo <=? b)%N && (b <=? hi)%N.

Definition utf8_step (q : utf8_state) (b : N) : option utf8_state :=
  match q with
  | U_start =>
      if in_range 0 0x7F b then Some U_start
      else if in_range 0xC2 0xDF b then Some U_c1
      else if (b =? 0xE0)%N then Some U_e0
      else if in_range 0xE1 0xEC b || in_range 0xEE 0xEF b then Some U_c2
      else if (b =? 0xED)%N then Some U_ed
      else if (b =? 0xF0)%N then Some U_f0
      else if in_range 0xF1 0xF3 b then Some U_c3
      else if (b =? 0xF4)%N then Some U_f4
      else None
  | U_c1 => if in_range 0x80 0xBF b then Some U_start else None
  | U_c2 => if in_range 0x80 0xBF b then Some U_c1 else None
  | U_c3 => if in_range 0x80 0xBF b then Some U_c2 else None
  | U_e0 => if in_range 0xA0 0xBF b then Some U_c1 else None
  | U_ed => if in_range 0x80 0x9F b then Some U_c1 else None
  | U_f0 => if in_range 0x90 0xBF b then Some U_c2 else None
  | U_f4 => if in_range 0x80 0x8F b then Some U_c2 else None
  end.

Fixpoint utf8_run (q : utf8_state) (s : string) : bool :=
  match s with
  | "" => match q with U_start => true | _ => false end
  | String c s' => match utf8_step q (byte_N c) with
                   | Some q' => utf8_run q' s'
                   | None => false
                   end
  end.

Definition utf8_valid (s : string) : bool := utf8_run U_start s.

(** [std::str::from_utf8(bytes).unwrap_or("")] *)
Definition from_utf8_or_empty (s : string) : string := if utf8_valid s then s else "".

(** ** Numbers in text *)

Definition digit_val (c : ascii) : option N :=
  if in_range 48 57 (byte_N c) then Some (byte_N c - 48)%N else None.

Fixpoint parse_digits (acc : N) (s : string) : option N :=
  match s with
  | "" => Some acc
  | String c s' => d ← digit_val c; parse_digits (acc * 10 + d)%N s'
  end.

(** [str::parse::<u16>]: an optional [+], at least one digit, no overflow *)
Definition parse_u16 (s : string) : option N :=
  let digits := default s (strip_prefix "+" s) in
  if is_empty digits then None
  else n ← parse_digits 0 digits;
       if (n <? 2 ^ 16)%N then Some n else None.

(** [format!("{n}")] of an unsigned integer *)
Definition fmt_N (n : N) : string := pretty n.
Definition fmt_nat (n : nat) : string := pretty (N.of_nat n).

(** [format!("{:0w$}", n)] *)
Definition fmt_pad (w : nat) (n : N) : string :=
  let s := fmt_N n in
  String.concat "" (replicate (w - String.length s) "0") +:+ s.

(** ** Lemmas *)

Lemma str_app_assoc (a b c : string) : (a +:+ b) +:+ c = a +:+ (b +:+ c).
Proof. induction a as [|x a IH]; simpl; [done|]. by rewrite IH. Qed.
Lemma str_app_nil_r (a : string) : a +:+ "" = a.
Proof. induction a as [|x a IH]; simpl; [done|]. by rewrite IH. Qed.
Lemma str_app_cons (c : ascii) (a b : string) : String c a +:+ b = String c (a +:+ b).
Proof. done. Qed.
Lemma str_app_inv_l (p a b : string) : p +:+ a = p +:+ b → a = b.
Proof. induction p as [|x p IH]; simpl; [done|]. intros [= H]. auto. Qed.
Lemma str_length_app (a b : string) :
  String.length (a +:+ b) = String.length a + String.length b.
Proof. induction a as [|x a IH]; simpl; [done|]. by rewrite IH. Qed.
Lemma str_app_inj_length (a b a' b' : string) :
  String.length a = String.length a' → a +:+ b = a' +:+ b' → a = a' ∧ b = b'.
Proof.
  revert a'. induction a as [|c a IH]; intros [|c' a'] Hl Heq; try done. cbn in *.
  injection Hl as Hl. injection Heq as -> Heq. by destruct (IH a' Hl Heq) as [-> ->].
Qed.
Lemma str_app_inv_r (a b s : string) : a +:+ s = b +:+ s → a = b.
Proof.
  revert b; induction a as [|x a IH]; intros [|y b]; simpl; [done|..].
  - intros H. apply (f_equal String.length) in H. simpl in H. rewrite str_length_app in H. lia.
  - intros H. apply (f_equal String.length) in H. simpl in H. rewrite str_length_app in H. lia.
  - intros [= -> H]. f_equal. eauto.
Qed.

Lemma strip_prefix_Some p s r : strip_prefix p s = Some r ↔ s = p +:+ r.
Proof.
  revert s; induction p as [|a p IH]; intros s; simpl; [split; congruence|].
  destruct s as [|b s]; [done|].
  case_decide; subst; rewrite ?IH; split; congruence.
Qed.
Lemma strip_prefix_app p r : strip_prefix p (p +:+ r) = Some r.
Proof. by apply strip_prefix_Some. Qed.
Lemma starts_with_spec p s : starts_with p s = true ↔ ∃ r, s = p +:+ r.
Proof.
  unfold starts_with. rewrite bool_decide_eq_true. unfold is_Some.
  by setoid_rewrite strip_prefix_Some.
Qed.
Lemma starts_with_app p r : starts_with p (p +:+ r) = true.
Proof. apply starts_with_spec. eauto. Qed.

Lemma split_once_sound d s a b : split_once d s = Some (a, b) → s = a +:+ (d +:+ b).
Proof.
  revert a b; induction s as [|c s IH]; intros a b; cbn [split_once];
    destruct (strip_prefix d _) as [r|] eqn:Hp; intros H; simplify_eq.
  - by apply strip_prefix_Some in Hp.
  - by apply strip_prefix_Some in Hp.
  - destruct (split_once d s) as [[a' b']|]; simplify_eq.
    rewrite str_app_cons. f_equal. auto.
Qed.

Lemma split_once_None d s : split_once d s = None ↔ ∀ a b, s ≠ a +:+ (d +:+ b).
Proof.
  split.
  - revert s. induction s as [|c s IH]; cbn [split_once];
      destruct (strip_prefix d _) as [r|] eqn:Hp; intros H a b Heq; try done.
    + destruct a; simpl in Heq; [|done].
      rewrite (proj2 (strip_prefix_Some d "" b)) in Hp by done. done.
    + destruct a as [|x a]; simpl in Heq.
      * rewrite (proj2 (strip_prefix_Some d (String c s) b)) in Hp by done. done.
      * simplify_eq. destruct (split_once d _) as [[??]|]; [done|]. by eapply IH.
  - intros H. destruct (split_once d s) as [[a b]|] eqn:E; [|done].
    exfalso. by eapply H, split_once_sound.
Qed.

(** Where the text is split: at the first occurrence. *)
Definition occurs_not (d s : string) : Prop := ∀ a b, s ≠ a +:+ (d +:+ b).
Definition leftmost (d s a b : string) : Prop :=
  s = a +:+ (d +:+ b) ∧
  ∀ a' b', s = a' +:+ (d +:+ b') → (String.length a ≤ String.length a')%nat.

Lemma split_once_occurs_not d s : split_once d s = None ↔ occurs_not d s.
Proof. apply split_once_None. Qed.
Lemma split_once_leftmost d s a b : split_once d s = Some (a, b) → leftmost d s a b.
Proof.
  intros H. split; [by apply split_once_sound|]. revert a b H.
  induction s as [|c s IH]; intros a b H a' b' Heq; cbn [split_once] in H;
    destruct (strip_prefix d _) as [r|] eqn:Hp; simplify_eq; [cbn; lia..|].
  destruct (split_once d s) as [[a1 b1]|] eqn:Hs; simplify_eq.
  destruct a' as [|c' a']; [by rewrite (proj2 (strip_prefix_Some d _ b')) in Hp|].
  cbn in *. injection Heq as _ Heq. specialize (IH _ _ eq_refl a' b' Heq). lia.
Qed.
Lemma leftmost_split_once d s a b : leftmost d s a b → split_once d s = Some (a, b).
Proof.
  intros [Hs Hmin]. destruct (split_once d s) as [[a' b']|] eqn:E.
  - pose proof (split_once_leftmost _ _ _ _ E) as [Hs' Hmin'].
    assert (String.length a = String.length a') as Hlen
      by (specialize (Hmin _ _ Hs'); specialize (Hmin' _ _ Hs); lia).
    rewrite Hs in Hs'. apply str_app_inj_length in Hs' as [-> ->%str_app_inv_l]; done.
  - exfalso. by eapply split_once_None in E.
Qed.

Lemma contains_true d s : contains d s = true ↔ ∃ a b, s = a +:+ (d +:+ b).
Proof.
  unfold contains. rewrite bool_decide_eq_true. split.
  - intros [[a b] H]. eauto using split_once_sound.
  - intros (a & b & ->). destruct (split_once d _) eqn:E; [eauto|].
    exfalso. by eapply split_once_None in E.
Qed.
Lemma contains_false d s : contains d s = false ↔ ∀ a b, s ≠ a +:+ (d +:+ b).
Proof.
  rewrite <- not_true_iff_false, contains_true. firstorder.
Qed.
Lemma contains_split d s : contains d s = false ↔ split_once d s = None.
Proof. by rewrite contains_false, split_once_None. Qed.

(** The first occurrence of the two-byte separator: where it is found is decided
    by the text before it followed by the separator's first byte. *)
Lemma contains_cons_sep c s :
  contains "__" (String c s) =
  (bool_decide (c = "_"%char) && starts_with "_" s) || contains "__" s.
Proof.
  apply eq_true_iff_eq.
  rewrite orb_true_iff, andb_true_iff, bool_decide_eq_true, starts_with_spec, !contains_true.
  split.
  - intros (a & b & H). destruct a as [|x a]; simpl in H; simplify_eq; [left|right]; eauto.
  - intros [[-> [r ->]] | (a & b & ->)]; [exists "", r; done|].
    by exists (String c a), b.
Qed.

Lemma starts_underscore_app a s t :
  starts_with "_" (a +:+ String "_" s) = starts_with "_" (a +:+ String "_" t).
Proof.
  apply eq_true_iff_eq. rewrite !starts_with_spec.
  destruct a as [|x a]; simpl; split; intros [r Hr]; simplify_eq; eauto.
Qed.

Lemma split_once_sep_cons c s :
  bool_decide (c = "_"%char) && starts_with "_" s = false →
  split_once "__" (String c s) = prod_map (String c) id <$> split_once "__" s.
Proof.
  intros H. cbn [split_once].
  destruct (strip_prefix "__" (String c s)) as [r|] eqn:E.
  - apply strip_prefix_Some in E. by simplify_eq/=.
  - by destruct (split_once "__" s) as [[??]|].
Qed.

Lemma split_once_here d r : split_once d (d +:+ r) = Some ("", r).
Proof.
  pose proof (strip_prefix_app d r) as H.
  destruct (d +:+ r); cbn [split_once]; by rewrite H.
Qed.

Lemma split_once_sep_app a b :
  contains "__" (a +:+ "_") = false ↔ split_once "__" (a +:+ ("__" +:+ b)) = Some (a, b).
Proof.
  induction a as [|c a IH].
  { split; [intros _|done]. exact (split_once_here "__" b). }
  change (String c a +:+ "_") with (String c (a +:+ "_")).
  change (String c a +:+ ("__" +:+ b)) with (String c (a +:+ ("__" +:+ b))).
  rewrite contains_cons_sep, orb_false_iff, IH.
  rewrite (starts_underscore_app a "" ("_" +:+ b)).
  change (String "_" ("_" +:+ b)) with ("__" +:+ b).
  destruct (bool_decide _ && _) eqn:E.
  - split; [naive_solver|]. intros H.
    apply andb_true_iff in E as [->%bool_decide_eq_true [r Hr]%starts_with_spec].
    rewrite Hr in H. by rewrite (split_once_here "__" r : split_once _ (String "_" ("_" +:+ r)) = _) in H.
  - rewrite split_once_sep_cons by done.
    destruct (split_once "__" (a +:+ _)) as [[??]|]; simpl; naive_solver.
Qed.

Lemma split_once_sep_iff s a b :
  split_once "__" s = Some (a, b) ↔
  s = a +:+ ("__" +:+ b) ∧ contains "__" (a +:+ "_") = false.
Proof.
  split.
  - intros H. pose proof (split_once_sound _ _ _ _ H) as ->.
    split; [done|]. by eapply split_once_sep_app.
  - intros [-> H]. by apply split_once_sep_app.
Qed.

(** Reversal and suffixes *)
Lemma str_rev_app_spec s acc : str_rev_app s acc = str_rev s +:+ acc.
Proof.
  unfold str_rev. revert acc. induction s as [|c s IH]; intros acc; simpl; [done|].
  rewrite IH, (IH (String c "")), str_app_assoc. done.
Qed.
Lemma str_rev_cons c s : str_rev (String c s) = str_rev s +:+ String c "".
Proof. unfold str_rev at 1. simpl. apply str_rev_app_spec. Qed.
Lemma str_rev_app_distr a b : str_rev (a +:+ b) = str_rev b +:+ str_rev a.
Proof.
  induction a as [|c a IH]; simpl; [by rewrite str_app_nil_r|].
  by rewrite !str_rev_cons, IH, str_app_assoc.
Qed.
Lemma str_rev_involutive s : str_rev (str_rev s) = s.
Proof.
  induction s as [|c s IH]; [done|]. by rewrite str_rev_cons, str_rev_app_distr, IH.
Qed.

Lemma strip_suffix_Some p s r : strip_suffix p s = Some r ↔ s = r +:+ p.
Proof.
  unfold strip_suffix. rewrite fmap_Some. setoid_rewrite strip_prefix_Some. split.
  - intros (x & Hs & ->).
    by rewrite <- (str_rev_involutive s), Hs, str_rev_app_distr, str_rev_involutive.
  - intros ->. exists (str_rev r). by rewrite str_rev_app_distr, str_rev_involutive.
Qed.
Lemma strip_suffix_None p s : strip_suffix p s = None ↔ ∀ r, s ≠ r +:+ p.
Proof.
  destruct (strip_suffix p s) as [r|] eqn:E; split; try done.
  - apply strip_suffix_Some in E. naive_solver.
  - intros _ r Hr. apply strip_suffix_Some in Hr. congruence.
Qed.

(** A text followed by one underscore holds the separator exactly when the text
    holds it or ends with an underscore. *)
Lemma contains_sep_underscore a :
  contains "__" (a +:+ "_") = contains "__" a || bool_decide (is_Some (strip_suffix "_" a)).
Proof.
  induction a as [|c a IH]; [done|].
  rewrite str_app_cons, !contains_cons_sep, IH.
  destruct a as [|d a].
  - simpl. rewrite !andb_false_r. simpl.
    destruct (decide (c = "_"%char)) as [->|Hc]; [done|].
    rewrite bool_decide_eq_false_2 by done. simpl. symmetry. apply bool_decide_eq_false.
    intros [r Hr%strip_suffix_Some]. destruct r as [|? [|??]]; simpl in Hr; by simplify_eq.
  - assert (starts_with "_" (String d a +:+ "_") = starts_with "_" (String d a)) as ->.
    { apply eq_true_iff_eq. rewrite !starts_with_spec. simpl.
      split; intros [r Hr]; simplify_eq; eauto. }
    rewrite orb_assoc. f_equal. apply bool_decide_ext. unfold is_Some.
    setoid_rewrite strip_suffix_Some. split.
    + intros [r ->]. by exists (String c r).
    + intros [[|x r] Hr]; simpl in Hr; simplify_eq. eauto.
Qed.

Lemma drop_while_suffix {A} (f : A → bool) l : ∃ k, l = k ++ drop_while f l.
Proof.
  induction l as [|a l [k IH]]; simpl; [by exists []|].
  destruct (f a); [|by exists []]. exists (a :: k). simpl. by f_equal.
Qed.

Lemma join_nil_cons c l : join "" (c :: l) = c +:+ join "" l.
Proof. unfold join. destruct l; simpl; [by rewrite str_app_nil_r|done]. Qed.

(** [chars] loses no byte. *)
Lemma chars_join s : join "" (chars s) = s.
Proof.
  induction s as [|c s IH]; [done|]. simpl.
  destruct (chars s) as [|ch rest]; [by rewrite <- IH|].
  destruct (starts_cont ch); rewrite join_nil_cons in *; [|rewrite join_nil_cons]; simpl;
    by rewrite IH.
Qed.

Lemma trim_end_matches_fuel_spec p s n :
  p ≠ "" → (String.length s ≤ n)%nat → strip_suffix p (trim_end_matches_fuel n p s) = None.
Proof.
  intros Hp. revert s. induction n as [|n IH]; intros s Hn; simpl.
  - destruct s; [|simpl in Hn; lia]. apply strip_suffix_None. intros r Hr.
    destruct r, p; simpl in Hr; congruence.
  - destruct (strip_suffix p s) as [s'|] eqn:E; [|done].
    apply IH. apply strip_suffix_Some in E as ->. rewrite str_length_app in Hn.
    destruct p; [done|]. simpl in Hn. lia.
Qed.
Lemma trim_end_matches_spec p s : p ≠ "" → strip_suffix p (trim_end_matches p s) = None.
Proof. intros. by apply trim_end_matches_fuel_spec. Qed.

Lemma fmt_N_inj n m : fmt_N n = fmt_N m → n = m.
Proof. apply (inj pretty). Qed.

#[export] Hint Resolve starts_with_app strip_prefix_app : fed.
#[export] Hint Rewrite str_app_assoc str_app_nil_r : fed.

(** Lines: a byte [d] ends what comes before it. *)
Lemma split_char_nil d a : d ∉ String.list_ascii_of_string a → split_char d a = [a].
Proof.
  induction a as [|c a IH]; cbn; [done|]. rewrite not_elem_of_cons. intros [Hne Hin].
  by rewrite decide_False, IH by done.
Qed.
Lemma split_char_app d a s :
  d ∉ String.list_ascii_of_string a →
  split_char d (a +:+ String d s) = a :: split_char d s.
Proof.
  induction a as [|c a IH]; cbn; [by rewrite decide_True|].
  rewrite not_elem_of_cons. intros [Hne Hin]. by rewrite decide_False, IH by done.
Qed.
Lemma list_ascii_app a b :
  String.list_ascii_of_string (a +:+ b) =
  String.list_ascii_of_string a ++ String.list_ascii_of_string b.
Proof. induction a; simpl; [done|]. by f_equal. Qed.

Lemma strip_suffix_app p r : strip_suffix p (r +:+ p) = Some r.
Proof. by apply strip_suffix_Some. Qed.

Lemma is_empty_true s : is_empty s = true ↔ s = "".
Proof. apply bool_decide_eq_true. Qed.

Lemma utf8_run_app q s t : utf8_run q s = true → utf8_run q (s +:+ t) = utf8_run U_start t.
Proof.
  revert q. induction s as [|c s IH]; intros q; [by destruct q|]. simpl.
  destruct (utf8_step q (byte_N c)); [apply IH|done].
Qed.
Lemma utf8_valid_app s t : utf8_valid s = true → utf8_valid (s +:+ t) = utf8_valid t.
Proof. apply utf8_run_app. Qed.

Lemma split_inclusive_app d a s :
  d ∉ String.list_ascii_of_string a →
  split_inclusive d (a +:+ String d s) = (a +:+ String d "") :: split_inclusive d s.
Proof.
  induction a as [|c a IH]; cbn; [by rewrite decide_True|].
  rewrite not_elem_of_cons. intros [Hne Hin]. by rewrite decide_False, IH by done.
Qed.
