(* ===== verification/Json.v ===== *)
(** * Json: [serde_json::Value]

    Objects are association lists.  [serde_json]'s [Map] is a [BTreeMap] here
    (the [preserve_order] feature is off in [Cargo.lock]), so an object built by
    insertion keeps its keys in byte order; a [struct] is written in the order of
    its fields.  Reading an object takes the first binding of a key.

    [Serde] is the part of the library that is not modelled: the text of a value
    and the parser.  Nothing is assumed about them. *)
From S2P Require Import Prelude Text.
Open Scope string_scope.
Open Scope list_scope.

(** A number is an integer of the program's own, or one the parser read. *)
Inductive number : Type :=
| NInt (z : Z)
| NFloat (text : string).

Inductive Value : Type :=
| VNull
| VBool (b : bool)
| VNumber (n : number)
| VString (s : string)
| VArray (l : list Value)
| VObject (m : list (string * Value)).

Definition object := list (string * Value).

Fixpoint obj_get (k : string) (m : object) : option Value :=
  match m with
  | [] => None
  | (k', v) :: m' => if decide (k = k') then Some v else obj_get k m'
  end.

(** [Map::insert]: replace the binding, or put it before the first larger key. *)
Fixpoint obj_insert (k : string) (v : Value) (m : object) : object :=
  match m with
  | [] => [(k, v)]
  | (k', v') :: m' =>
      match String.compare k k' with
      | Eq => (k, v) :: m'
      | Lt => (k, v) :: (k', v') :: m'
      | Gt => (k', v') :: obj_insert k v m'
      end
  end.

(** [json!({ ... })] *)
Definition json_obj (l : object) : Value :=
  VObject (foldl (λ m '(k, v), obj_insert k v m) [] l).

(** [Value::get], [Value::as_str], [Value::as_array], [Value::as_object] *)
Definition get (k : string) (v : Value) : option Value :=
  match v with VObject m => obj_get k m | _ => None end.
Definition as_str (v : Value) : option string :=
  match v with VString s => Some s | _ => None end.
Definition as_array (v : Value) : option (list Value) :=
  match v with VArray l => Some l | _ => None end.
Definition as_object (v : Value) : option object :=
  match v with VObject m => Some m | _ => None end.
Definition is_object (v : Value) : bool :=
  match v with VObject _ => true | _ => false end.

(** [v.get(k).and_then(|x| x.as_str())] *)
Definition get_str (k : string) (v : Value) : option string := get k v ≫= as_str.

(** [&v[k]]: [Null] when there is no such key *)
Definition index (k : string) (v : Value) : Value := default VNull (get k v).

(** [v[k] = x].  On a value that is neither an object nor [Null] the assignment
    panics; [index_set_panics] says when. *)
Definition index_set (k : string) (x v : Value) : Value :=
  match v with
  | VObject m => VObject (obj_insert k x m)
  | VNull => VObject [(k, x)]
  | _ => v
  end.
Definition index_set_panics (v : Value) : bool :=
  match v with VObject _ | VNull => false | _ => true end.

Definition vnat (n : nat) : Value := VNumber (NInt (Z.of_nat n)).
Definition vint (z : Z) : Value := VNumber (NInt z).
Definition vopt (o : option Value) : Value := default VNull o.
Definition vstrs (l : list string) : Value := VArray (VString <$> l).

Class Serde : Type := {
  from_str : string → result string Value;  (** [serde_json::from_str] *)
  to_string : Value → string;               (** [serde_json::to_string] *)
  to_string_pretty : Value → string;        (** [serde_json::to_string_pretty] *)
  decode_error : Value → string;            (** text of a decoding error *)
}.

(** ** Induction, and values as countable data *)
Section Value_ind_nested.
Context (P : Value → Prop).
Context (HNull : P VNull) (HBool : ∀ b, P (VBool b)) (HNumber : ∀ n, P (VNumber n)).
Context (HString : ∀ s, P (VString s)).
Context (HArray : ∀ l, Forall P l → P (VArray l)).
Context (HObject : ∀ m, Forall (λ kv, P kv.2) m → P (VObject m)).

Fixpoint Value_nested (v : Value) : P v :=
  match v with
  | VNull => HNull
  | VBool b => HBool b
  | VNumber n => HNumber n
  | VString s => HString s
  | VArray l =>
      HArray l ((fix go l := match l return Forall P l with
                             | [] => List.Forall_nil _
                             | x :: l => List.Forall_cons _ _ _ (Value_nested x) (go l)
                             end) l)
  | VObject m =>
      HObject m ((fix go m := match m return Forall (λ kv, P kv.2) m with
                              | [] => List.Forall_nil _
                              | kv :: m => List.Forall_cons _ _ _ (Value_nested kv.2) (go m)
                              end) m)
  end.
End Value_ind_nested.

Definition leaf : Type := bool + Z + string + string.

Fixpoint value_tree (v : Value) : gen_tree leaf :=
  match v with
  | VNull => GenNode 0 []
  | VBool b => GenLeaf (inl (inl (inl b)))
  | VNumber (NInt z) => GenLeaf (inl (inl (inr z)))
  | VNumber (NFloat t) => GenLeaf (inl (inr t))
  | VString s => GenLeaf (inr s)
  | VArray l => GenNode 1 (map value_tree l)
  | VObject m => GenNode 2 (map (λ kv, GenNode 3 [GenLeaf (inr kv.1); value_tree kv.2]) m)
  end.

Fixpoint tree_value (t : gen_tree leaf) : Value :=
  match t with
  | GenLeaf (inl (inl (inl b))) => VBool b
  | GenLeaf (inl (inl (inr z))) => VNumber (NInt z)
  | GenLeaf (inl (inr t)) => VNumber (NFloat t)
  | GenLeaf (inr s) => VString s
  | GenNode 1 l => VArray (map tree_value l)
  | GenNode 2 l =>
      VObject (map (λ t, match t with
                         | GenNode _ [GenLeaf (inr k); u] => (k, tree_value u)
                         | _ => ("", VNull)
                         end) l)
  | GenNode _ _ => VNull
  end.

Lemma tree_value_tree v : tree_value (value_tree v) = v.
Proof.
  induction v as [|b|[z|t]|s|l IH|m IH] using Value_nested; simpl; try done; f_equal.
  - rewrite map_map. induction IH; simpl; by f_equal.
  - rewrite map_map. induction IH as [|[k v] m Hv _ IH]; simpl; [done|].
    simpl in Hv. by rewrite Hv, IH.
Qed.

#[export] Instance Value_eq_dec : EqDecision Value.
Proof. refine (inj_eq_dec value_tree (Inj0 := cancel_inj (H := tree_value_tree))). Defined.
#[export] Instance Value_countable : Countable Value.
Proof. exact (inj_countable' value_tree tree_value tree_value_tree). Defined.

(** ** Lemmas *)
Lemma str_compare_refl s : String.compare s s = Eq.
Proof.
  induction s as [|c s IH]; simpl; [done|]. unfold Ascii.compare. by rewrite N.compare_refl.
Qed.

Lemma obj_get_insert k k' v m :
  obj_get k (obj_insert k' v m) = if decide (k = k') then Some v else obj_get k m.
Proof.
  induction m as [|[k0 v0] m IH]; simpl; [done|].
  destruct (String.compare k' k0) eqn:E; simpl.
  - apply String.compare_eq_iff in E as ->. by repeat case_decide.
  - done.
  - rewrite IH. repeat case_decide; subst; try done.
    by rewrite str_compare_refl in E.
Qed.

Lemma get_index_set k k' x v :
  index_set_panics v = false →
  get k (index_set k' x v) = if decide (k = k') then Some x else get k v.
Proof. destruct v; simpl; try done; intros _. apply obj_get_insert. Qed.

Lemma index_set_object k x v : is_object v = true → is_object (index_set k x v) = true.
Proof. by destruct v. Qed.

Lemma get_is_object k v x : get k v = Some x → is_object v = true.
Proof. by destruct v. Qed.
Lemma is_object_no_panic v : is_object v = true → index_set_panics v = false.
Proof. by destruct v. Qed.
Lemma as_str_Some v s : as_str v = Some s ↔ v = VString s.
Proof. destruct v; naive_solver. Qed.
Lemma get_str_Some k v s : get_str k v = Some s ↔ get k v = Some (VString s).
Proof.
  unfold get_str. rewrite bind_Some. setoid_rewrite as_str_Some. naive_solver.
Qed.

#[export] Hint Resolve is_object_no_panic index_set_object get_is_object : fed.

(** ** Reading back what was written

    A [struct] is written in the order of its fields, and what is read is a [BTreeMap]:
    [canon v] is [v] with the keys of its objects in order. *)
Fixpoint canon (v : Value) : Value :=
  match v with
  | VArray l => VArray (canon <$> l)
  | VObject m => json_obj ((λ kv, (kv.1, canon kv.2)) <$> m)
  | _ => v
  end.

(** ** What the theorems ask of the parser and the printer

    Printing in the compact form yields a text of one line that reads back as the
    value, its keys in order.  [Example] has an instance, for the witnesses. *)
Class SerdeLaws `{!Serde} : Prop := {
  from_str_to_string v : from_str (to_string v) = Ok (canon v);
  to_string_not_empty v : to_string v ≠ "";
  to_string_one_line v :
    (LF ∉ String.list_ascii_of_string (to_string v)) ∧
    (CR ∉ String.list_ascii_of_string (to_string v));
  to_string_utf8 v : utf8_valid (to_string v) = true;
}.

Module Example.
Fixpoint bits (p : positive) : string :=
  match p with xH => "1" | xO p => String "0" (bits p) | xI p => String "1" (bits p) end.
Fixpoint unbits (s : string) : option positive :=
  match s with
  | "" => None
  | "1" => Some xH
  | String c s => p ← unbits s; Some (if decide (c = "1"%char) then xI p else xO p)
  end.
Lemma unbits_bits p : unbits (bits p) = Some p.
Proof.
  assert (∀ q, bits q ≠ "") as Hne by (by intros []).
  induction p as [p IH|p IH|]; [| |done].
  - cbn [bits unbits]. destruct (bits p) eqn:E; [by edestruct Hne|]. by rewrite IH.
  - cbn [bits unbits]. by rewrite IH.
Qed.

Definition serde : Serde :=
  {| from_str := λ s, ok_or "invalid" (p ← unbits s; canon <$> decode p);
     to_string := λ v, bits (encode v);
     to_string_pretty := λ v, bits (encode v);
     decode_error := λ _, "invalid type" |}.

Lemma bits_ascii p c : c ∈ String.list_ascii_of_string (bits p) → c = "0"%char ∨ c = "1"%char.
Proof. induction p; simpl; rewrite ?elem_of_cons, ?elem_of_nil; naive_solver. Qed.
Lemma bits_utf8 p : utf8_valid (bits p) = true.
Proof. unfold utf8_valid. induction p; simpl; done. Qed.

Lemma serde_laws : SerdeLaws (H := serde).
Proof.
  split; intros v; simpl.
  - by rewrite unbits_bits; simpl; rewrite decode_encode.
  - by destruct (encode v).
  - split; intros [|]%bits_ascii; done.
  - apply bits_utf8.
Qed.
End Example.
