(* ===== verification/Protocol.v ===== *)
(** * Protocol: JSON-RPC messages and the program's errors
    ([src/mcp/protocol.rs], [src/error.rs]) *)
From S2P Require Import Prelude Text Json.
Open Scope string_scope.
Open Scope list_scope.

(** ** Errors

    A [reqwest::Error] is the text it displays. *)
Inductive FederationError : Type :=
| Config (msg : string)
| LeafUnreachable (alias source : string)
| LeafError (alias message : string)
| UnknownLeaf (alias : string)
| ToolNotFound (name : string)
| InvalidToolName (msg : string)
| LeafUnhealthy (alias : string).

#[export] Instance FederationError_eq_dec : EqDecision FederationError.
Proof. solve_decision. Defined.

(** The [Display] text of each error *)
Definition error_text (e : FederationError) : string :=
  match e with
  | Config m => "config error: " +:+ m
  | LeafUnreachable a s => "leaf server '" +:+ a +:+ "' is unreachable: " +:+ s
  | LeafError a m => "leaf server '" +:+ a +:+ "' returned error: " +:+ m
  | UnknownLeaf a => "unknown leaf server: " +:+ a
  | ToolNotFound n => "tool not found: " +:+ n
  | InvalidToolName m => "invalid tool name format: " +:+ m
  | LeafUnhealthy a => "leaf server '" +:+ a +:+ "' is unhealthy"
  end.

(** ** JSON-RPC *)
Record JsonRpcRequest := {
  rq_jsonrpc : string;
  rq_id : option Value;
  rq_method : string;
  rq_params : Value;
}.

Record JsonRpcError := { err_code : Z; err_message : string }.

Record JsonRpcResponse := {
  rs_jsonrpc : string;
  rs_id : option Value;
  rs_result : option Value;
  rs_error : option JsonRpcError;
}.

Definition success_response (request : JsonRpcRequest) (result : Value) : JsonRpcResponse :=
  {| rs_jsonrpc := "2.0"; rs_id := rq_id request;
     rs_result := Some result; rs_error := None |}.

Definition error_response (request : JsonRpcRequest) (code : Z) (message : string)
  : JsonRpcResponse :=
  {| rs_jsonrpc := "2.0"; rs_id := rq_id request; rs_result := None;
     rs_error := Some {| err_code := code; err_message := message |} |}.

Definition method_not_found (request : JsonRpcRequest) : JsonRpcResponse :=
  error_response request (-32601) ("Method not found: " +:+ rq_method request).

Definition notification_response : JsonRpcResponse :=
  {| rs_jsonrpc := "2.0"; rs_id := None; rs_result := None; rs_error := None |}.

(** The derived [Deserialize]: [jsonrpc] and [method] are required texts, a
    missing or [null] id is [None], missing parameters are [Null], other keys are
    ignored; an array is read field by field. *)
Definition option_value (v : Value) : option Value :=
  match v with VNull => None | _ => Some v end.

Definition request_of_value (v : Value) : option JsonRpcRequest :=
  match v with
  | VObject m =>
      j ← obj_get "jsonrpc" m ≫= as_str;
      meth ← obj_get "method" m ≫= as_str;
      Some {| rq_jsonrpc := j; rq_id := obj_get "id" m ≫= option_value;
              rq_method := meth; rq_params := default VNull (obj_get "params" m) |}
  | VArray (VString j :: i :: VString meth :: rest) =>
      match rest with
      | [] => Some {| rq_jsonrpc := j; rq_id := option_value i; rq_method := meth;
                      rq_params := VNull |}
      | [p] => Some {| rq_jsonrpc := j; rq_id := option_value i; rq_method := meth;
                       rq_params := p |}
      | _ => None
      end
  | _ => None
  end.

(** The derived [Serialize] *)
Definition skip_none (k : string) (o : option Value) : object :=
  match o with Some v => [(k, v)] | None => [] end.

Definition error_to_value (e : JsonRpcError) : Value :=
  VObject [("code", vint (err_code e)); ("message", VString (err_message e))].

Definition response_to_value (r : JsonRpcResponse) : Value :=
  VObject (("jsonrpc", VString (rs_jsonrpc r))
           :: skip_none "id" (rs_id r)
           ++ skip_none "result" (rs_result r)
           ++ skip_none "error" (error_to_value <$> rs_error r)).

(** [serde_json::from_str::<JsonRpcRequest>] *)
Definition parse_request `{!Serde} (line : string) : result string JsonRpcRequest :=
  v ← from_str line; ok_or (decode_error v) (request_of_value v).

(** ** Properties *)

(** A response is well formed when exactly one of [result] and [error] is set. *)
Definition response_wf (r : JsonRpcResponse) : bool :=
  match rs_result r, rs_error r with
  | Some _, None | None, Some _ => true
  | _, _ => false
  end.

(** A reply echoes the id of its request. *)
Definition replies_to (request : JsonRpcRequest) (r : JsonRpcResponse) : Prop :=
  rs_jsonrpc r = "2.0" ∧ rs_id r = rq_id request ∧ response_wf r = true.

Lemma success_replies rq v : replies_to rq (success_response rq v).
Proof. done. Qed.
Lemma error_replies rq c m : replies_to rq (error_response rq c m).
Proof. done. Qed.
Lemma not_found_replies rq : replies_to rq (method_not_found rq).
Proof. done. Qed.
#[export] Hint Resolve success_replies error_replies not_found_replies : fed.

(** What a client reads from the JSON of a reply is the response that was
    written: the version, the id unless it was absent, and exactly one of [result]
    and [error], with the code and the message of the error. *)
Theorem response_fields r :
  let v := response_to_value r in
  get_str "jsonrpc" v = Some (rs_jsonrpc r) ∧
  get "id" v = rs_id r ∧ get "result" v = rs_result r ∧
  get "error" v = error_to_value <$> rs_error r ∧
  (∀ e, rs_error r = Some e →
     (get "error" v ≫= get "code") = Some (vint (err_code e)) ∧
     (get "error" v ≫= get_str "message") = Some (err_message e)).
Proof. by destruct r as [j [i|] [x|] [[c m]|]]; repeat split; intros; simplify_eq/=. Qed.
