(* ===== verification/F64.v ===== *)
(** * F64: the [f64] and [Duration] arithmetic of the program

    A finite [f64] is its exact rational value; every operation computes the
    exact result and rounds it to the nearest 53-bit number, ties to even, with
    gradual underflow and overflow to infinity, as IEEE 754 prescribes.  The sign
    of a zero is not kept: no operation of the program observes it. *)
From Stdlib Require Import QArith Qround Qreduction Qabs Qpower Lqa.
From S2P Require Import Prelude.
Open Scope Z_scope.

Inductive f64 : Type :=
| F_nan
| F_inf (negative : bool)
| F_fin (q : Q).

Definition pow2 (e : Z) : Q := Qpower (2 # 1) e.

(** The exponent of the leading bit: [2^lead q <= |q| < 2^(lead q + 1)] *)
Definition lead (q : Q) : Z :=
  let n := Z.abs (Qnum q) in
  let k := Z.log2 n - Z.log2 (QDen q) in
  if Qle_bool (pow2 k) (Qabs q) then k else k - 1.

(** The exponent of the last of the 53 bits *)
Definition ulp_exp (q : Q) : Z := Z.max (lead q - 52) (-1074).

Definition round_half_even (q : Q) : Z :=
  let f := Qfloor q in
  match Qcompare (q - inject_Z f) (1 # 2) with
  | Lt => f
  | Gt => f + 1
  | Eq => if Z.even f then f else f + 1
  end.

Definition rnd (q : Q) : f64 :=
  let e := ulp_exp q in
  let m := round_half_even (q * pow2 (- e)) in
  let v := (inject_Z m * pow2 e)%Q in
  if Qle_bool (pow2 1024) (Qabs v) then F_inf (Qle_bool v 0) else F_fin (Qred v).

Definition q_neg (q : Q) : bool := negb (Qle_bool 0 q).

Definition f_add (x y : f64) : f64 :=
  match x, y with
  | F_nan, _ | _, F_nan => F_nan
  | F_inf s, F_inf t => if Bool.eqb s t then F_inf s else F_nan
  | F_inf s, _ | _, F_inf s => F_inf s
  | F_fin p, F_fin q => rnd (p + q)
  end.

Definition f_neg (x : f64) : f64 :=
  match x with F_nan => F_nan | F_inf s => F_inf (negb s) | F_fin q => F_fin (- q) end.

Definition f_sub (x y : f64) : f64 := f_add x (f_neg y).

Definition f_mul (x y : f64) : f64 :=
  match x, y with
  | F_nan, _ | _, F_nan => F_nan
  | F_inf s, F_inf t => F_inf (xorb s t)
  | F_inf s, F_fin q | F_fin q, F_inf s =>
      if Qeq_bool q 0 then F_nan else F_inf (xorb s (q_neg q))
  | F_fin p, F_fin q => rnd (p * q)
  end.

(** Division; by a zero it is an infinity of the dividend's sign *)
Definition f_div (x y : f64) : f64 :=
  match x, y with
  | F_nan, _ | _, F_nan => F_nan
  | F_inf _, F_inf _ => F_nan
  | F_inf s, F_fin q => F_inf (xorb s (q_neg q))
  | F_fin _, F_inf _ => F_fin 0
  | F_fin p, F_fin q =>
      if Qeq_bool q 0 then (if Qeq_bool p 0 then F_nan else F_inf (q_neg p))
      else rnd (p / q)
  end.

(** [<=]; every comparison with a NaN is false *)
Definition f_le (x y : f64) : bool :=
  match x, y with
  | F_nan, _ | _, F_nan => false
  | F_inf true, _ | _, F_inf false => true
  | F_inf false, _ | _, F_inf true => false
  | F_fin p, F_fin q => Qle_bool p q
  end.
Definition f_ge (x y : f64) : bool := f_le y x.
Definition f_is_nan (x : f64) : bool := match x with F_nan => true | _ => false end.
Definition f_gt (x y : f64) : bool := negb (f_is_nan x || f_is_nan y || f_le x y).

(** [f64::min]: the other operand when one is NaN *)
Definition f_min (x y : f64) : f64 :=
  match x, y with
  | F_nan, _ => y
  | _, F_nan => x
  | _, _ => if f_le x y then x else y
  end.

(** An unsigned integer [as f64] *)
Definition f_of_Z (z : Z) : f64 := rnd (inject_Z z).

(** [f64::powi]: binary powering, as the compiler's runtime does it *)
Fixpoint powi_loop (a r : f64) (b : positive) : f64 :=
  match b with
  | xH => f_mul r a
  | xO b => powi_loop (f_mul a a) r b
  | xI b => powi_loop (f_mul a a) (f_mul r a) b
  end.
Definition f_powi (x : f64) (n : Z) : f64 :=
  match n with
  | Z0 => F_fin 1
  | Zpos p => powi_loop x (F_fin 1) p
  | Zneg p => f_div (F_fin 1) (powi_loop x (F_fin 1) p)
  end.

(** ** [std::time::Duration]: nanoseconds *)
Definition NANOS : Z := 1000000000.
Definition from_secs (s : Z) : Z := s * NANOS.
Definition as_secs (d : Z) : Z := d / NANOS.

(** [Duration::as_secs_f64] *)
Definition as_secs_f64 (d : Z) : f64 :=
  f_add (f_of_Z (d / NANOS)) (f_div (f_of_Z (d mod NANOS)) (f_of_Z NANOS)).

(** [Duration::from_secs_f64]; [None] where it panics *)
Definition from_secs_f64 (x : f64) : option Z :=
  match x with
  | F_fin q =>
      if Qle_bool 0 q && Qle_bool (q + 1) (pow2 64)
      then Some (round_half_even (q * inject_Z NANOS)) else None
  | _ => None
  end.

(** [Instant::elapsed] and [saturating_duration_since] *)
Definition since (now t : Z) : Z := Z.max 0 (now - t).

(** ** Rounding *)

Lemma pow2_Z k : 0 ≤ k → (pow2 k == inject_Z (2 ^ k))%Q.
Proof. intros. unfold pow2. by rewrite Zpower_Qpower. Qed.
Lemma pow2_pos k : (0 < pow2 k)%Q.
Proof. unfold pow2. by apply Qpower_0_lt. Qed.
Lemma pow2_add a b : (pow2 (a + b) == pow2 a * pow2 b)%Q.
Proof. unfold pow2. by apply Qpower_plus. Qed.
Lemma pow2_inv k : (pow2 (- k) * pow2 k == 1)%Q.
Proof. rewrite <- pow2_add, Z.add_opp_diag_l. done. Qed.

Lemma round_ge z q : (inject_Z z <= q)%Q → z ≤ round_half_even q.
Proof.
  intros H. assert (z ≤ Qfloor q).
  { rewrite <- (Qfloor_Z z). by apply Qfloor_resp_le. }
  unfold round_half_even. destruct (Qcompare _ _); [destruct (Z.even _)|..]; lia.
Qed.

Lemma round_le z q : (q <= inject_Z z)%Q → round_half_even q ≤ z.
Proof.
  intros H. assert (Hf : Qfloor q ≤ z).
  { rewrite <- (Qfloor_Z z). by apply Qfloor_resp_le. }
  destruct (decide (Qfloor q = z)) as [Hz|]; [|unfold round_half_even;
    destruct (Qcompare _ _); [destruct (Z.even _)|..]; lia].
  unfold round_half_even.
  assert (Hlt : (q - inject_Z (Qfloor q) < 1 # 2)%Q) by (rewrite Hz; lra).
  apply Qlt_alt in Hlt. unfold Qcompare in *. rewrite Hlt. lia.
Qed.

Lemma round_int z q : (q == inject_Z z)%Q → round_half_even q = z.
Proof.
  intros H. apply Z.le_antisymm; [apply round_le|apply round_ge]; rewrite H; apply Qle_refl.
Qed.

Lemma Qred_int z : Qred (z # 1) = z # 1.
Proof.
  unfold Qred. pose proof (Z.ggcd_gcd z 1) as Hg.
  pose proof (Z.ggcd_correct_divisors z 1) as Hd.
  destruct (Z.ggcd z 1) as [g [a b]]. simpl in Hg. rewrite Z.gcd_1_r in Hg. subst g.
  destruct Hd as [-> Hb]. rewrite Z.mul_1_l in *. by subst.
Qed.

Lemma lead_int z : z ≠ 0 → lead (z # 1) = Z.log2 (Z.abs z).
Proof.
  intros Hz. unfold lead. simpl Qnum. change (Z.log2 (QDen (z # 1))) with 0.
  rewrite Z.sub_0_r.
  assert (Qle_bool (pow2 (Z.log2 (Z.abs z))) (Qabs (z # 1)) = true) as ->; [|done].
  apply Qle_bool_iff. rewrite pow2_Z by apply Z.log2_nonneg.
  change (Qabs (z # 1)) with (inject_Z (Z.abs z)). rewrite <- Zle_Qle.
  apply Z.log2_spec. lia.
Qed.

(** Integers of at most 53 bits are exact. *)
Lemma rnd_int z : Z.abs z < 2 ^ 53 → rnd (z # 1) = F_fin (z # 1).
Proof.
  intros Hz. destruct (decide (z = 0)) as [->|Hnz]; [done|].
  unfold rnd, ulp_exp. rewrite lead_int by done.
  pose proof (Z.log2_nonneg (Z.abs z)).
  assert (Z.log2 (Z.abs z) < 53) by (apply Z.log2_lt_pow2; lia).
  rewrite Z.max_l by lia. set (e := Z.log2 (Z.abs z) - 52).
  assert (He : e ≤ 0) by lia.
  rewrite (round_int (z * 2 ^ (- e))).
  2: { rewrite pow2_Z by lia. by rewrite inject_Z_mult. }
  assert (Hv : (inject_Z (z * 2 ^ (- e)) * pow2 e == z # 1)%Q).
  { rewrite inject_Z_mult, <- pow2_Z, <- Qmult_assoc, pow2_inv by lia. apply Qmult_1_r. }
  assert (Qle_bool (pow2 1024) (Qabs (inject_Z (z * 2 ^ (- e)) * pow2 e)) = false) as ->.
  { apply not_true_iff_false. intros Hle%Qle_bool_iff. rewrite Hv in Hle.
    change (Qabs (z # 1)) with (inject_Z (Z.abs z)) in Hle.
    rewrite pow2_Z, <- Zle_Qle in Hle by done.
    assert (2 ^ 53 < 2 ^ 1024) by (apply Z.pow_lt_mono_r; lia). lia. }
  f_equal. rewrite (Qred_complete _ _ Hv). apply Qred_int.
Qed.

Lemma f_of_Z_exact z : Z.abs z < 2 ^ 53 → f_of_Z z = F_fin (z # 1).
Proof. apply rnd_int. Qed.

Lemma f_add_int a b :
  Z.abs (a + b) < 2 ^ 53 → f_add (F_fin (a # 1)) (F_fin (b # 1)) = F_fin ((a + b) # 1).
Proof.
  intros. cbn [f_add]. unfold Qplus. simpl Qnum. simpl Qden.
  change (a * QDen (b # 1) + b * QDen (a # 1)) with (a * 1 + b * 1).
  rewrite !Z.mul_1_r. by apply rnd_int.
Qed.
Lemma f_sub_int a b :
  Z.abs (a - b) < 2 ^ 53 → f_sub (F_fin (a # 1)) (F_fin (b # 1)) = F_fin ((a - b) # 1).
Proof. intros. apply (f_add_int a (- b)). done. Qed.
Lemma f_mul_int a b :
  Z.abs (a * b) < 2 ^ 53 → f_mul (F_fin (a # 1)) (F_fin (b # 1)) = F_fin ((a * b) # 1).
Proof. intros. by apply rnd_int. Qed.

Lemma Qle_bool_int a b : Qle_bool (a # 1) (b # 1) = (a <=? b).
Proof. unfold Qle_bool. simpl. by rewrite !Z.mul_1_r. Qed.

Lemma f_min_int a b : f_min (F_fin (a # 1)) (F_fin (b # 1)) = F_fin (Z.min a b # 1).
Proof.
  unfold f_min, f_le. rewrite Qle_bool_int.
  destruct (Z.leb_spec a b); [by rewrite Z.min_l|rewrite Z.min_r by lia; done].
Qed.

Lemma as_secs_f64_whole s : 0 ≤ s < 2 ^ 53 → as_secs_f64 (from_secs s) = F_fin (s # 1).
Proof.
  intros Hs. unfold as_secs_f64, from_secs, NANOS. rewrite Z.div_mul, Z.mod_mul by done.
  change (f_div (f_of_Z 0) (f_of_Z 1000000000)) with (F_fin (0 # 1)).
  rewrite f_of_Z_exact, f_add_int by lia. by rewrite Z.add_0_r.
Qed.

(** ** Ranges *)

(** Not a NaN and at least the rational [b] *)
Definition f_at_least (b : Q) (x : f64) : Prop :=
  match x with F_nan => False | F_inf s => s = false | F_fin q => (b <= q)%Q end.

Lemma Qnum_pos q : (0 < q)%Q → 0 < Qnum q.
Proof. unfold Qlt. simpl. lia. Qed.

Lemma lead_le q : (0 < q)%Q → (pow2 (lead q) <= q)%Q.
Proof.
  intros Hq. unfold lead. rewrite Qabs_pos by lra.
  destruct (Qle_bool _ q) eqn:E; [by apply Qle_bool_iff|]. clear E.
  pose proof (Qnum_pos _ Hq) as Hn. rewrite Z.abs_eq by lia.
  set (a := Z.log2 (Qnum q)). set (b := Z.log2 (QDen q)).
  assert (Ha : 2 ^ a ≤ Qnum q) by (apply Z.log2_spec; lia).
  assert (Hb : QDen q < 2 ^ (b + 1)).
  { rewrite Z.add_1_r. by apply Z.log2_spec. }
  assert (0 ≤ a) by apply Z.log2_nonneg. assert (0 ≤ b) by apply Z.log2_nonneg.
  assert (H1 : (pow2 (a - b - 1) * inject_Z (2 ^ (b + 1)) == inject_Z (2 ^ a))%Q).
  { rewrite <- !pow2_Z, <- pow2_add by lia. by replace (a - b - 1 + (b + 1)) with a by lia. }
  assert (H2 : (inject_Z (2 ^ a) <= inject_Z (Qnum q))%Q) by by rewrite <- Zle_Qle.
  assert (H3 : (inject_Z (QDen q) <= inject_Z (2 ^ (b + 1)))%Q) by (rewrite <- Zle_Qle; lia).
  assert (H4 : (q * inject_Z (QDen q) == inject_Z (Qnum q))%Q).
  { destruct q as [n d]. unfold Qeq, Qmult, inject_Z. simpl. lia. }
  assert (H5 : (0 < inject_Z (QDen q))%Q) by (rewrite <- (Zlt_Qlt 0); done).
  pose proof (pow2_pos (a - b - 1)). nra.
Qed.

Lemma pow2_ge_1 k : 0 ≤ k → (1 <= pow2 k)%Q.
Proof. intros. rewrite pow2_Z by done. rewrite <- (Zle_Qle 1). lia. Qed.

Lemma rnd_value_ge_1 q :
  (1 <= q)%Q → (1 <= inject_Z (round_half_even (q * pow2 (- ulp_exp q))) * pow2 (ulp_exp q))%Q.
Proof.
  intros Hq. set (e := ulp_exp q). set (m := round_half_even _).
  pose proof (pow2_inv e) as Hinv. pose proof (pow2_pos e). pose proof (pow2_pos (- e)).
  destruct (Z.le_gt_cases e 0) as [He|He].
  - assert (Hm : (pow2 (- e) <= inject_Z m)%Q).
    { rewrite pow2_Z by lia. rewrite <- Zle_Qle. apply round_ge. rewrite <- pow2_Z by lia. nra. }
    nra.
  - assert (Hl : lead q = e + 52) by (unfold e, ulp_exp in *; lia).
    pose proof (lead_le q ltac:(lra)) as Hle. rewrite Hl, pow2_add in Hle.
    pose proof (pow2_ge_1 52 ltac:(lia)). pose proof (pow2_ge_1 e ltac:(lia)).
    assert (Hm : (1 <= inject_Z m)%Q).
    { rewrite <- (Zle_Qle 1). apply round_ge. change (inject_Z 1) with 1%Q. nra. }
    nra.
Qed.

Lemma rnd_value_ge_0 q :
  (0 <= q)%Q → (0 <= inject_Z (round_half_even (q * pow2 (- ulp_exp q))) * pow2 (ulp_exp q))%Q.
Proof.
  intros Hq. pose proof (pow2_pos (ulp_exp q)). pose proof (pow2_pos (- ulp_exp q)).
  assert (0 <= inject_Z (round_half_even (q * pow2 (- ulp_exp q))))%Q; [|nra].
  rewrite <- (Zle_Qle 0). apply round_ge. change (inject_Z 0) with 0%Q. nra.
Qed.

Lemma rnd_at_least b q : b = 0%Q ∨ b = 1%Q → (b <= q)%Q → f_at_least b (rnd q).
Proof.
  intros Hb Hq. unfold rnd.
  set (v := (inject_Z (round_half_even (q * pow2 (- ulp_exp q))) * pow2 (ulp_exp q))%Q).
  assert (Hv : (b <= v)%Q).
  { destruct Hb as [-> | ->]; [by apply rnd_value_ge_0|by apply rnd_value_ge_1]. }
  destruct (Qle_bool (pow2 1024) _) eqn:Hinf; simpl; [|by rewrite Qred_correct].
  apply not_true_iff_false. intros Hle%Qle_bool_iff. apply Qle_bool_iff in Hinf.
  rewrite Qabs_pos in Hinf by (destruct Hb; subst; lra).
  pose proof (pow2_pos 1024). lra.
Qed.

Lemma f_mul_at_least_1 x y :
  f_at_least 1 x → f_at_least 1 y → f_at_least 1 (f_mul x y).
Proof.
  destruct x as [|[]|p], y as [|[]|q]; cbn [f_at_least f_mul]; intros Hp Hq; try done.
  - destruct (Qeq_bool q 0) eqn:E; [apply Qeq_bool_iff in E; lra|].
    simpl. unfold q_neg. by rewrite (proj2 (Qle_bool_iff 0 q)) by lra.
  - destruct (Qeq_bool p 0) eqn:E; [apply Qeq_bool_iff in E; lra|].
    simpl. unfold q_neg. by rewrite (proj2 (Qle_bool_iff 0 p)) by lra.
  - apply rnd_at_least; [by right|]. nra.
Qed.

Lemma powi_loop_at_least_1 a r b :
  f_at_least 1 a → f_at_least 1 r → f_at_least 1 (powi_loop a r b).
Proof.
  revert a r. induction b as [b IH|b IH|]; intros a r Ha Hr; simpl;
    auto using f_mul_at_least_1.
Qed.

(** A power of a number that is at least 1 is never a NaN nor negative, whatever
    the exponent; it is at least 1 when the exponent is not negative. *)
Lemma f_powi_nonneg x n : f_at_least 1 x → f_at_least 0 (f_powi x n).
Proof.
  intros Hx. destruct n as [|p|p]; cbn [f_powi]; [done|..];
    pose proof (powi_loop_at_least_1 x (F_fin 1) p Hx (Qle_refl 1)) as Hl.
  - destruct (powi_loop _ _ _) as [|[]|q]; simpl in *; try done. lra.
  - destruct (powi_loop _ _ _) as [|[]|q]; cbn [f_div f_at_least] in *; try done.
    destruct (Qeq_bool q 0) eqn:E; [apply Qeq_bool_iff in E; lra|].
    apply rnd_at_least; [by left|]. apply Qle_shift_div_l; lra.
Qed.
Lemma f_powi_at_least_1 x n : 0 ≤ n → f_at_least 1 x → f_at_least 1 (f_powi x n).
Proof.
  intros Hn Hx. destruct n as [|p|p]; cbn [f_powi]; [apply Qle_refl| |lia].
  apply powi_loop_at_least_1; [done|apply Qle_refl].
Qed.

(** A non-negative product capped by [f64::min] is a number between 0 and the cap:
    the NaN of [0 * inf] becomes the cap. *)
Lemma f_min_cap x y b :
  f_at_least 0 x → f_at_least 0 y → (0 <= b)%Q →
  ∃ q, f_min (f_mul x y) (F_fin b) = F_fin q ∧ (0 <= q)%Q ∧ (q <= b)%Q.
Proof.
  intros Hx Hy Hb.
  assert (f_is_nan (f_mul x y) = true ∨ f_at_least 0 (f_mul x y)) as [Hn|Hp].
  { destruct x as [|[]|p], y as [|[]|q]; cbn [f_at_least f_mul] in *; try done; [by right|..].
    - destruct (Qeq_bool q 0); [by left|right]. simpl. unfold q_neg.
      by rewrite (proj2 (Qle_bool_iff 0 q) Hy).
    - destruct (Qeq_bool p 0); [by left|right]. simpl. unfold q_neg.
      by rewrite (proj2 (Qle_bool_iff 0 p) Hx).
    - right. apply rnd_at_least; [by left|]. nra. }
  - destruct (f_mul x y); [|done..]. exists b. repeat split; [done|lra].
  - destruct (f_mul x y) as [|[]|q]; simpl in Hp; try done.
    + exists b. repeat split; [done|lra].
    + unfold f_min, f_le. destruct (Qle_bool q b) eqn:E.
      * exists q. apply Qle_bool_iff in E. done.
      * exists b. repeat split; [done|lra].
Qed.

Lemma f_add_nonneg x y : f_at_least 0 x → f_at_least 0 y → f_at_least 0 (f_add x y).
Proof.
  destruct x as [|[]|p], y as [|[]|q]; cbn [f_at_least f_add]; intros; try done.
  apply rnd_at_least; [by left|]. lra.
Qed.

Lemma f_of_Z_nonneg z : 0 ≤ z → f_at_least 0 (f_of_Z z).
Proof. intros Hz. apply rnd_at_least; [by left|]. rewrite <- (Zle_Qle 0). done. Qed.

Lemma as_secs_f64_nonneg d : 0 ≤ d → f_at_least 0 (as_secs_f64 d).
Proof.
  intros Hd. apply f_add_nonneg.
  - apply f_of_Z_nonneg. by apply Z.div_pos.
  - rewrite (f_of_Z_exact NANOS) by done.
    pose proof (f_of_Z_nonneg (d mod NANOS)) as Hr.
    specialize (Hr (proj1 (Z.mod_pos_bound d NANOS eq_refl))).
    destruct (f_of_Z (d mod NANOS)) as [|[]|q]; try done.
    apply rnd_at_least; [by left|]. apply Qle_shift_div_l; [done|]. simpl in Hr. lra.
Qed.

Lemma from_secs_f64_bounds q s :
  (0 <= q)%Q → (q <= inject_Z s)%Q → s < 2 ^ 63 →
  ∃ d, from_secs_f64 (F_fin q) = Some d ∧ 0 ≤ d ≤ from_secs s.
Proof.
  intros H0 Hs Hb. exists (round_half_even (q * inject_Z NANOS)).
  assert (inject_Z s <= inject_Z (2 ^ 64 - 1))%Q as Hs' by (rewrite <- Zle_Qle; lia).
  assert (inject_Z (2 ^ 64 - 1) + 1 == pow2 64)%Q as Hp by done.
  assert (0 < inject_Z NANOS)%Q by done.
  cbn [from_secs_f64].
  rewrite (proj2 (Qle_bool_iff 0 q)), (proj2 (Qle_bool_iff (q + 1) _)) by lra.
  split; [done|]. split; [apply round_ge|apply round_le].
  - change (inject_Z 0) with 0%Q. nra.
  - unfold from_secs. rewrite inject_Z_mult. nra.
Qed.

Lemma rnd_le_int q z :
  (0 <= q)%Q → (q <= inject_Z z)%Q → z < 2 ^ 53 →
  ∃ r, rnd q = F_fin r ∧ (0 <= r)%Q ∧ (r <= inject_Z z)%Q.
Proof.
  intros Hq Hz Hb. unfold rnd. set (e := ulp_exp q). set (m := round_half_even _).
  pose proof (rnd_value_ge_0 q Hq) as H0. fold e m in H0.
  pose proof (pow2_pos e) as Hpe. pose proof (pow2_pos (- e)) as Hpe'.
  pose proof (pow2_inv e) as Hinv.
  assert (Hv : (inject_Z m * pow2 e <= inject_Z z)%Q).
  { destruct (Z.le_gt_cases e 0) as [He|He].
    - assert (Hm : (inject_Z m <= inject_Z (z * 2 ^ (- e)))%Q).
      { rewrite <- Zle_Qle. apply round_le. rewrite inject_Z_mult, <- pow2_Z by lia. nra. }
      rewrite inject_Z_mult, <- pow2_Z in Hm by lia. nra.
    - exfalso. assert (Hl : lead q = e + 52) by (unfold e, ulp_exp in *; lia).
      assert (Hq' : (0 < q)%Q).
      { apply Qnot_le_lt. intros Hle. assert (Hq0 : (q == 0)%Q) by lra.
        destruct q as [n d]. unfold Qeq in Hq0. simpl in Hq0.
        assert (n = 0) by lia. subst n. unfold lead in Hl. simpl Qnum in Hl.
        simpl Z.abs in Hl. rewrite Z.log2_nonpos in Hl by lia.
        pose proof (Z.log2_nonneg (QDen (0 # d))).
        destruct (Qle_bool _ _); lia. }
      pose proof (lead_le q Hq') as Hle. rewrite Hl, pow2_Z in Hle by lia.
      assert (2 ^ 53 ≤ 2 ^ (e + 52)) by (apply Z.pow_le_mono_r; lia).
      assert (inject_Z (2 ^ 53) <= inject_Z (2 ^ (e + 52)))%Q by by rewrite <- Zle_Qle.
      assert (inject_Z z < inject_Z (2 ^ 53))%Q by by rewrite <- Zlt_Qlt.
      lra. }
  destruct (Qle_bool (pow2 1024) _) eqn:Hinf.
  - exfalso. apply Qle_bool_iff in Hinf. rewrite Qabs_pos in Hinf by done.
    assert (inject_Z z < inject_Z (2 ^ 53))%Q by by rewrite <- Zlt_Qlt.
    assert (inject_Z (2 ^ 53) <= pow2 1024)%Q.
    { rewrite pow2_Z by done. rewrite <- Zle_Qle. apply Z.pow_le_mono_r; lia. }
    lra.
  - exists (Qred (inject_Z m * pow2 e)). pose proof (Qred_correct (inject_Z m * pow2 e)).
    split; [done|]. split; lra.
Qed.

Lemma f_min_at_least x b :
  f_at_least 0 x → (0 <= b)%Q →
  ∃ q, f_min x (F_fin b) = F_fin q ∧ (0 <= q)%Q ∧ (q <= b)%Q.
Proof.
  intros Hx Hb. destruct x as [|[]|q]; simpl in Hx; try done.
  - exists b. repeat split; [done|lra].
  - unfold f_min, f_le. destruct (Qle_bool q b) eqn:E.
    + exists q. apply Qle_bool_iff in E. done.
    + exists b. repeat split; [done|lra].
Qed.

Lemma f_mul_finite_nonneg p q : (0 <= p)%Q → (0 <= q)%Q → f_at_least 0 (f_mul (F_fin p) (F_fin q)).
Proof. intros. apply rnd_at_least; [by left|]. nra. Qed.

#[global] Arguments f_add : simpl never.
#[global] Arguments f_sub : simpl never.
#[global] Arguments f_mul : simpl never.
#[global] Arguments f_div : simpl never.
#[global] Arguments f_min : simpl never.
#[global] Arguments f_of_Z : simpl never.
#[global] Arguments as_secs_f64 : simpl never.
