(* ===== verification/Env.v ===== *)
(** * Env: what the program is given by its surroundings

    Time, randomness, files, environment variables, the network and the iteration
    order of hash maps are not the program's to choose.  Each is a class whose
    fields are functions of the point in the run where the program asks, so a
    theorem that quantifies over an instance holds for every behaviour of the
    surroundings.  [Env] is the part of the state that moves when the program
    asks: the clock and the requests sent so far. *)
From S2P Require Import Prelude Text Json F64.
Open Scope string_scope.
Open Scope list_scope.

(** ** The operating system

    [read_file t p] is what [read_to_string] on [p] gives at instant [t]: the content,
    or the text of the error; [read_bytes] is the same for [read], which accepts any
    bytes.  [system_time t] is the wall clock (nanoseconds since the
    epoch) at the monotonic instant [t].  [uuid n] is the [n]-th generated UUID. *)
Class Os : Type := {
  env_var : string → option string;
  read_file : Z → string → result string string;
  read_bytes : Z → string → result string string;
  system_time : Z → Z;
  uuid : nat → string;
}.

(** ** HTTP

    A header value of a response is what [to_str().ok()] makes of it. *)
Inductive Method : Type := GET | POST.

Record HttpRequest := {
  hq_method : Method;
  hq_url : string;
  hq_headers : list (string * string);
  hq_body : option Value;
}.

Record HttpResponse := {
  hp_status : Z;
  hp_headers : list (string * option string);
  hp_chunks : list (result string string);  (** the body as it arrives *)
}.

(** What a [reqwest::Client] is built with; times in nanoseconds *)
Record HttpClient := {
  hc_timeout : Z;
  hc_connect_timeout : Z;
  hc_pool_max_idle : Z;
  hc_pool_idle_timeout : Z;
  hc_accept_invalid_certs : bool;
  hc_root_certificates : list string;
}.

(** [http c n rq]: the latency and the outcome of the [n]-th request of the run, made
    by the client [c], where an error is the text of the [reqwest::Error] (an URL or a
    header that is not valid is one too).  [status_text] is the [Display] of a
    [StatusCode], [status_error] the error of [error_for_status], [certificate] is
    [Certificate::from_pem]. *)
Class Http : Type := {
  http : HttpClient → nat → HttpRequest → Z * result string HttpResponse;
  status_text : Z → string;
  status_error : Z → string;
  certificate : string → result string string;
}.

(** ** Hash maps

    The order in which a [HashMap] or a [HashSet] is iterated is unspecified. *)
Class MapOrder : Type := {
  map_order : ∀ {A}, gmap string A → list (string * A);
  map_order_perm : ∀ A (m : gmap string A), map_order m ≡ₚ map_to_list m;
}.

(** ** The moving part *)
Record Env := {
  now : Z;                      (** the monotonic clock, in nanoseconds *)
  uuids : nat;                  (** UUIDs generated so far *)
  sent : list HttpRequest;      (** requests sent so far, oldest first *)
}.

Definition instant_now : M Env Z := m_gets now.

Definition fresh_uuid `{!Os} : M Env string :=
  λ e, (uuid (uuids e), {| now := now e; uuids := S (uuids e); sent := sent e |}).

(** [SystemTime::now().duration_since(UNIX_EPOCH)] in seconds, 0 before the epoch *)
Definition unix_now `{!Os} (t : Z) : Z :=
  if (0 <=? system_time t)%Z then (system_time t / NANOS)%Z else 0%Z.

(** Hand a request to the HTTP client: time passes while it is in flight. *)
Definition send `{!Http} (c : HttpClient) (rq : HttpRequest) : M Env (result string HttpResponse) :=
  λ e, let '(latency, r) := http c (List.length (sent e)) rq in
       (r, {| now := (now e + Z.max 0 latency)%Z; uuids := uuids e;
              sent := sent e ++ [rq] |}).

(** [HeaderMap::get(name)] and [to_str().ok()] *)
Fixpoint header_str (name : string) (hs : list (string * option string)) : option string :=
  match hs with
  | [] => None
  | (n, v) :: hs => if decide (n = name) then v else header_str name hs
  end.

(** [Response::bytes]: the whole body, or the first error while it arrives *)
Fixpoint body_bytes (chunks : list (result string string)) : result string string :=
  match chunks with
  | [] => Ok ""
  | Ok c :: cs => rest ← body_bytes cs; Ok (c +:+ rest)
  | Err e :: _ => Err e
  end.

(** [StatusCode::is_success] *)
Definition is_success (status : Z) : bool := (200 <=? status)%Z && (status <? 300)%Z.

(** The values, and the keys, of a hash map in iteration order *)
Definition map_values `{!MapOrder} {A} (m : gmap string A) : list A := (map_order m).*2.
Definition map_keys `{!MapOrder} {A} (m : gmap string A) : list string := (map_order m).*1.

(** ** Lemmas *)

(** The requests only grow and the clock never goes back. *)
Definition env_le (e e' : Env) : Prop :=
  (now e ≤ now e')%Z ∧ sent e `prefix_of` sent e' ∧ (uuids e ≤ uuids e')%nat.

#[export] Instance env_le_preorder : PreOrder env_le.
Proof.
  split.
  - intros e. repeat split; [lia|done|lia].
  - intros a b c (?&?&?) (?&?&?). repeat split; [lia|by etrans|lia].
Qed.

Lemma send_le `{!Http} c rq e : env_le e (send c rq e).2.
Proof.
  unfold send. destruct (http _ _ _) as [l r]; simpl. repeat split; simpl; [lia| |lia].
  by apply prefix_app_r.
Qed.
Lemma send_sent `{!Http} c rq e : sent (send c rq e).2 = sent e ++ [rq].
Proof. unfold send. by destruct (http _ _ _). Qed.

Lemma map_order_elem `{!MapOrder} {A} (m : gmap string A) k x :
  (k, x) ∈ map_order m ↔ m !! k = Some x.
Proof. by rewrite map_order_perm, elem_of_map_to_list. Qed.
Lemma map_values_elem `{!MapOrder} {A} (m : gmap string A) x :
  x ∈ map_values m ↔ ∃ k, m !! k = Some x.
Proof.
  unfold map_values. rewrite list_elem_of_fmap. setoid_rewrite <- map_order_elem.
  split; [intros ([k y] & -> & Hy); eauto|intros [k Hk]; by exists (k, x)].
Qed.
Lemma map_keys_elem `{!MapOrder} {A} (m : gmap string A) k :
  k ∈ map_keys m ↔ is_Some (m !! k).
Proof.
  unfold map_keys. rewrite list_elem_of_fmap. unfold is_Some.
  setoid_rewrite <- map_order_elem.
  split; [intros ([k0 y] & -> & Hy); eauto|intros [x Hx]; by exists (k, x)].
Qed.
Lemma map_keys_NoDup `{!MapOrder} {A} (m : gmap string A) : NoDup (map_keys m).
Proof. unfold map_keys. rewrite map_order_perm. apply NoDup_fst_map_to_list. Qed.
Lemma map_values_length `{!MapOrder} {A} (m : gmap string A) :
  List.length (map_values m) = size m.
Proof. unfold map_values. by rewrite length_fmap, map_order_perm, length_map_to_list. Qed.
Lemma map_order_filter_size `{!MapOrder} {A} (P : string * A → Prop)
    `{!∀ x, Decision (P x)} (m : gmap string A) :
  List.length (filter P (map_order m)) = size (filter P m).
Proof.
  rewrite map_order_perm, map_filter_alt, map_size_list_to_map; [done|].
  apply (sublist_NoDup _ _ (NoDup_fst_map_to_list m)). apply fmap_sublist, sublist_filter.
Qed.
