(* ===== verification/Config.v ===== *)
(** * Config: the configuration file ([src/config.rs])

    The structures with their defaults, the interpolation of environment
    variables, and the validation every loaded configuration has passed.

    [Yaml] is the parser of [serde_yaml].  It yields the [Raw] structures, in which
    a field with a [#[serde(default)]] attribute may be missing; filling them in is
    the program's choice of defaults, modelled by the [_of_raw] functions. *)
From S2P Require Import Prelude Text Protocol F64 Env.
From Stdlib Require Import QArith.
Open Scope string_scope.
Open Scope list_scope.

(** ** Structures *)
Inductive TransportType : Type := HttpPost | StreamableHttp.
#[export] Instance TransportType_eq_dec : EqDecision TransportType.
Proof. solve_decision. Defined.

(** The derived [Debug] *)
Definition transport_debug (t : TransportType) : string :=
  match t with HttpPost => "HttpPost" | StreamableHttp => "StreamableHttp" end.

Record HealthCheckConfig := {
  hc_enabled : bool;
  interval_seconds : Z;
  hc_timeout_seconds : Z;
  failure_threshold : Z;
  backoff_multiplier : f64;
}.

Record TlsConfig := { verify : bool; ca_cert_path : option string }.

Record ServerConfig := {
  alias : string;
  url : string;
  auth_token : option string;
  auth_token_file : option string;
  transport : TransportType;
  tags : list string;
  health_check : HealthCheckConfig;
  timeout_seconds : option Z;
  tls : TlsConfig;
}.

Record ConnectionPoolConfig := { max_idle_per_host : Z; idle_timeout_seconds : Z }.

Record RateLimitConfig := {
  rl_enabled : bool;
  requests_per_second : Z;
  burst_size : Z;
}.

Record ClientConfig := { token : string; allowed_servers : list string }.

Record DnsDiscoveryConfig := {
  dns_enabled : bool;
  srv_name : string;
  poll_interval_seconds : Z;
  dns_default_transport : TransportType;
  url_path : string;
  scheme : string;
}.

Record CrdDiscoveryConfig := { crd_enabled : bool; crd_namespace : string }.

Record FederationSettings := {
  listen : string;
  endpoint : string;
  fed_auth_token : option string;
  fed_auth_token_file : option string;
  connection_pool : ConnectionPoolConfig;
  tool_cache_ttl_seconds : Z;
  session_ttl_seconds : Z;
  allowed_origins : list string;
  clients : list ClientConfig;
  rate_limit : RateLimitConfig;
  dns_discovery : DnsDiscoveryConfig;
  crd_discovery : CrdDiscoveryConfig;
  session_secret : option string;
  shutdown_timeout_seconds : Z;
}.

Record FederationConfig := {
  federation : FederationSettings;
  servers : list ServerConfig;
}.

(** ** Defaults *)
Definition default_dns_poll_interval : Z := 60.
Definition default_dns_url_path : string := "/mcp".
Definition default_dns_scheme : string := "http".
Definition default_rps : Z := 10.
Definition default_burst : Z := 20.
Definition default_tls_verify : bool := true.
Definition default_listen : string := "0.0.0.0:8080".
Definition default_endpoint : string := "/mcp".
Definition default_transport : TransportType := HttpPost.
Definition default_health_enabled : bool := true.
Definition default_health_interval : Z := 30.
Definition default_health_timeout : Z := 5.
Definition default_failure_threshold : Z := 3.
Definition default_backoff_multiplier : f64 := F_fin 2.
Definition default_max_idle_per_host : Z := 10.
Definition default_idle_timeout_seconds : Z := 90.
Definition default_tool_cache_ttl_seconds : Z := 300.
Definition default_session_ttl_seconds : Z := 1800.
Definition default_shutdown_timeout_seconds : Z := 15.

Definition DnsDiscoveryConfig_default : DnsDiscoveryConfig :=
  {| dns_enabled := false; srv_name := "";
     poll_interval_seconds := default_dns_poll_interval;
     dns_default_transport := default_transport;
     url_path := default_dns_url_path; scheme := default_dns_scheme |}.
Definition CrdDiscoveryConfig_default : CrdDiscoveryConfig :=
  {| crd_enabled := false; crd_namespace := "" |}.
Definition RateLimitConfig_default : RateLimitConfig :=
  {| rl_enabled := false; requests_per_second := default_rps; burst_size := default_burst |}.
Definition ConnectionPoolConfig_default : ConnectionPoolConfig :=
  {| max_idle_per_host := default_max_idle_per_host;
     idle_timeout_seconds := default_idle_timeout_seconds |}.
Definition TlsConfig_default : TlsConfig :=
  {| verify := default_tls_verify; ca_cert_path := None |}.
Definition HealthCheckConfig_default : HealthCheckConfig :=
  {| hc_enabled := default_health_enabled; interval_seconds := default_health_interval;
     hc_timeout_seconds := default_health_timeout;
     failure_threshold := default_failure_threshold;
     backoff_multiplier := default_backoff_multiplier |}.

(** ** What the YAML parser yields *)
Record RawHealthCheck := {
  raw_hc_enabled : option bool; raw_interval : option Z; raw_hc_timeout : option Z;
  raw_threshold : option Z; raw_multiplier : option f64;
}.
Record RawTls := { raw_verify : option bool; raw_ca : option string }.
Record RawServer := {
  raw_alias : string; raw_url : string;
  raw_auth_token : option string; raw_auth_token_file : option string;
  raw_transport : option TransportType; raw_tags : option (list string);
  raw_health_check : option RawHealthCheck; raw_timeout : option Z;
  raw_tls : option RawTls;
}.
Record RawPool := { raw_max_idle : option Z; raw_idle_timeout : option Z }.
Record RawRateLimit := {
  raw_rl_enabled : option bool; raw_rps : option Z; raw_burst : option Z }.
Record RawClient := { raw_token : string; raw_allowed : option (list string) }.
Record RawDns := {
  raw_dns_enabled : option bool; raw_srv_name : option string; raw_poll : option Z;
  raw_dns_transport : option TransportType; raw_url_path : option string;
  raw_scheme : option string;
}.
Record RawCrd := { raw_crd_enabled : option bool; raw_namespace : option string }.
Record RawSettings := {
  raw_listen : option string; raw_endpoint : option string;
  raw_fed_token : option string; raw_fed_token_file : option string;
  raw_pool : option RawPool; raw_tool_ttl : option Z; raw_session_ttl : option Z;
  raw_origins : option (list string); raw_clients : option (list RawClient);
  raw_rate_limit : option RawRateLimit; raw_dns : option RawDns; raw_crd : option RawCrd;
  raw_secret : option string; raw_shutdown : option Z;
}.
Record RawConfig := { raw_federation : RawSettings; raw_servers : list RawServer }.

Definition health_of_raw (r : RawHealthCheck) : HealthCheckConfig :=
  {| hc_enabled := default default_health_enabled (raw_hc_enabled r);
     interval_seconds := default default_health_interval (raw_interval r);
     hc_timeout_seconds := default default_health_timeout (raw_hc_timeout r);
     failure_threshold := default default_failure_threshold (raw_threshold r);
     backoff_multiplier := default default_backoff_multiplier (raw_multiplier r) |}.
Definition tls_of_raw (r : RawTls) : TlsConfig :=
  {| verify := default default_tls_verify (raw_verify r); ca_cert_path := raw_ca r |}.
Definition server_of_raw (r : RawServer) : ServerConfig :=
  {| alias := raw_alias r; url := raw_url r; auth_token := raw_auth_token r;
     auth_token_file := raw_auth_token_file r;
     transport := default default_transport (raw_transport r);
     tags := default [] (raw_tags r);
     health_check := from_option health_of_raw HealthCheckConfig_default (raw_health_check r);
     timeout_seconds := raw_timeout r;
     tls := from_option tls_of_raw TlsConfig_default (raw_tls r) |}.
Definition pool_of_raw (r : RawPool) : ConnectionPoolConfig :=
  {| max_idle_per_host := default default_max_idle_per_host (raw_max_idle r);
     idle_timeout_seconds := default default_idle_timeout_seconds (raw_idle_timeout r) |}.
Definition rate_of_raw (r : RawRateLimit) : RateLimitConfig :=
  {| rl_enabled := default false (raw_rl_enabled r);
     requests_per_second := default default_rps (raw_rps r);
     burst_size := default default_burst (raw_burst r) |}.
Definition client_of_raw (r : RawClient) : ClientConfig :=
  {| token := raw_token r; allowed_servers := default [] (raw_allowed r) |}.
Definition dns_of_raw (r : RawDns) : DnsDiscoveryConfig :=
  {| dns_enabled := default false (raw_dns_enabled r);
     srv_name := default "" (raw_srv_name r);
     poll_interval_seconds := default default_dns_poll_interval (raw_poll r);
     dns_default_transport := default default_transport (raw_dns_transport r);
     url_path := default default_dns_url_path (raw_url_path r);
     scheme := default default_dns_scheme (raw_scheme r) |}.
Definition crd_of_raw (r : RawCrd) : CrdDiscoveryConfig :=
  {| crd_enabled := default false (raw_crd_enabled r);
     crd_namespace := default "" (raw_namespace r) |}.
Definition settings_of_raw (r : RawSettings) : FederationSettings :=
  {| listen := default default_listen (raw_listen r);
     endpoint := default default_endpoint (raw_endpoint r);
     fed_auth_token := raw_fed_token r;
     fed_auth_token_file := raw_fed_token_file r;
     connection_pool := from_option pool_of_raw ConnectionPoolConfig_default (raw_pool r);
     tool_cache_ttl_seconds := default default_tool_cache_ttl_seconds (raw_tool_ttl r);
     session_ttl_seconds := default default_session_ttl_seconds (raw_session_ttl r);
     allowed_origins := default [] (raw_origins r);
     clients := client_of_raw <$> default [] (raw_clients r);
     rate_limit := from_option rate_of_raw RateLimitConfig_default (raw_rate_limit r);
     dns_discovery := from_option dns_of_raw DnsDiscoveryConfig_default (raw_dns r);
     crd_discovery := from_option crd_of_raw CrdDiscoveryConfig_default (raw_crd r);
     session_secret := raw_secret r;
     shutdown_timeout_seconds := default default_shutdown_timeout_seconds (raw_shutdown r) |}.
Definition config_of_raw (r : RawConfig) : FederationConfig :=
  {| federation := settings_of_raw (raw_federation r);
     servers := server_of_raw <$> raw_servers r |}.

Class Yaml : Type := { yaml_parse : string → result string RawConfig }.

(** ** Environment variables

    [${NAME}] is replaced by the variable's value, the empty text when it is not
    set; an unclosed [${] keeps the rest of the text.  The loop consumes at least
    the three bytes of [${}] each time it continues, so the length of the text is
    enough fuel ([interpolate_unfold]). *)
Fixpoint interpolate_loop `{!Os} (fuel : nat) (result remainder : string) : string :=
  match fuel with
  | O => result +:+ remainder
  | S fuel =>
      match split_once "${" remainder with
      | Some (before, after_open) =>
          let result := result +:+ before in
          match split_once "}" after_open with
          | Some (var_name, rest) =>
              let value := default "" (env_var var_name) in
              interpolate_loop fuel (result +:+ value) rest
          | None => result +:+ ("${" +:+ after_open)
          end
      | None => result +:+ remainder
      end
  end.
Definition interpolate_env_vars `{!Os} (content : string) : string :=
  interpolate_loop (String.length content) "" content.

(** ** Validation *)
Fixpoint validate_servers (aliases : gset string) (l : list ServerConfig) :
  result FederationError unit :=
  match l with
  | [] => Ok tt
  | server :: l =>
      if is_empty (alias server) then Err (Config "server alias cannot be empty")
      else if contains "__" (alias server) then
        Err (Config ("server alias '" +:+ alias server +:+
                     "' cannot contain '__' (reserved as namespace separator)"))
      else if decide (alias server ∈ aliases) then
        Err (Config ("duplicate server alias: '" +:+ alias server +:+ "'"))
      else if is_empty (url server) then
        Err (Config ("server '" +:+ alias server +:+ "' has empty url"))
      else validate_servers ({[alias server]} ∪ aliases) l
  end.

Definition validate (c : FederationConfig) : result FederationError unit :=
  match servers c with
  | [] => Err (Config "at least one server must be configured")
  | _ => validate_servers ∅ (servers c)
  end.

Definition parse `{!Os, !Yaml} (content : string) : result FederationError FederationConfig :=
  let interpolated := interpolate_env_vars content in
  raw ← map_err Config (yaml_parse interpolated);
  let config := config_of_raw raw in
  _ ← validate config;
  Ok config.

(** [path.display()] is the path itself. *)
Definition from_file `{!Os, !Yaml} (t : Z) (path : string) :
  result FederationError FederationConfig :=
  content ← map_err (λ e, Config ("failed to read config file " +:+ path +:+ ": " +:+ e))
                    (read_file t path);
  parse content.

(** ** Properties of validation *)

(** What the rest of the program may assume of a configured server *)
Definition server_wf (s : ServerConfig) : Prop :=
  alias s ≠ "" ∧ contains "__" (alias s) = false ∧ url s ≠ "".

Definition config_wf (c : FederationConfig) : Prop :=
  servers c ≠ [] ∧ Forall server_wf (servers c) ∧ NoDup (alias <$> servers c).

Lemma is_empty_false s : is_empty s = false ↔ s ≠ "".
Proof. apply bool_decide_eq_false. Qed.

Lemma validate_servers_iff seen l :
  validate_servers seen l = Ok tt ↔
  Forall server_wf l ∧ NoDup (alias <$> l) ∧ (∀ s, s ∈ l → alias s ∉ seen).
Proof.
  revert seen. induction l as [|s l IH]; intros seen; simpl.
  { split; [|done]. intros _. repeat split; [constructor..|]. intros s Hs.
    by apply not_elem_of_nil in Hs. }
  rewrite Forall_cons, NoDup_cons. unfold server_wf at 1.
  setoid_rewrite elem_of_cons.
  destruct (is_empty (alias s)) eqn:E1; [apply is_empty_true in E1; naive_solver|].
  destruct (contains "__" (alias s)) eqn:E2; [naive_solver|].
  destruct (decide (alias s ∈ seen)); [naive_solver|].
  destruct (is_empty (url s)) eqn:E3; [apply is_empty_true in E3; naive_solver|].
  apply is_empty_false in E1, E3. rewrite IH, list_elem_of_fmap.
  split.
  - intros (Hwf & Hnd & Hnew). split_and!; try done.
    + intros (s' & Heq & Hs'). specialize (Hnew _ Hs'). set_solver.
    + intros s' [->|Hs']; [done|]. specialize (Hnew _ Hs'). set_solver.
  - intros ((_ & Hwf) & (Hn & Hnd) & Hnew). split_and!; try done.
    intros s' Hs'. rewrite elem_of_union, elem_of_singleton.
    intros [Heq|Hin]; [apply Hn; eauto|]. eapply Hnew; eauto.
Qed.

Lemma validate_config_wf c : validate c = Ok tt ↔ config_wf c.
Proof.
  unfold validate, config_wf. destruct (servers c) as [|s l] eqn:E; [naive_solver|].
  rewrite validate_servers_iff. set_solver.
Qed.

Lemma parse_wf `{!Os, !Yaml} content c : parse content = Ok c → config_wf c.
Proof.
  unfold parse. intros Hp. apply validate_config_wf.
  destruct (yaml_parse _) as [raw|]; simplify_eq/=.
  destruct (validate (config_of_raw raw)) as [[]|] eqn:E; simplify_eq/=. done.
Qed.

Lemma from_file_wf `{!Os, !Yaml} t path c : from_file t path = Ok c → config_wf c.
Proof.
  unfold from_file. intros Hp.
  destruct (read_file t path); simplify_eq/=; eauto using parse_wf.
Qed.
#[export] Hint Resolve parse_wf from_file_wf : fed.

(** ** Properties of interpolation *)
Section interpolation.
Context `{!Os}.

Lemma interpolate_loop_acc fuel a r s :
  interpolate_loop fuel (a +:+ r) s = a +:+ interpolate_loop fuel r s.
Proof.
  revert r s. induction fuel as [|n IH]; intros r s; simpl; [apply str_app_assoc|].
  destruct (split_once "${" s) as [[b after]|]; [|apply str_app_assoc].
  destruct (split_once "}" after) as [[v rest]|]; rewrite !str_app_assoc; auto.
Qed.

Lemma split_once_shorter d s a b :
  d ≠ "" → split_once d s = Some (a, b) → (String.length b < String.length s)%nat.
Proof.
  intros Hd ->%split_once_sound. rewrite !str_length_app. destruct d; [done|simpl; lia].
Qed.

Lemma interpolate_loop_fuel n m r s :
  (String.length s ≤ n)%nat → (String.length s ≤ m)%nat →
  interpolate_loop n r s = interpolate_loop m r s.
Proof.
  revert m r s. induction n as [|n IH]; intros m r s Hn Hm.
  { destruct s; simpl in Hn; [by destruct m|lia]. }
  destruct m as [|m]; [destruct s; simpl in Hm; [done|lia]|]. simpl.
  destruct (split_once "${" s) as [[b after]|] eqn:E1; [|done].
  destruct (split_once "}" after) as [[v rest]|] eqn:E2; [|done].
  apply split_once_shorter in E1, E2; [|done..]. apply IH; lia.
Qed.

(** The loop, without its fuel and its accumulator *)
Lemma interpolate_unfold content :
  interpolate_env_vars content =
  match split_once "${" content with
  | None => content
  | Some (before, after_open) =>
      match split_once "}" after_open with
      | None => content
      | Some (var_name, rest) =>
          before +:+ (default "" (env_var var_name) +:+ interpolate_env_vars rest)
      end
  end.
Proof.
  unfold interpolate_env_vars.
  rewrite (interpolate_loop_fuel _ (S (String.length content))) by lia. simpl.
  destruct (split_once "${" content) as [[b after]|] eqn:E1; [|done].
  destruct (split_once "}" after) as [[v rest]|] eqn:E2.
  - pose proof E1 as H1. pose proof E2 as H2.
    apply split_once_shorter in H1, H2; [|done..].
    rewrite (interpolate_loop_fuel _ (String.length rest)) by lia.
    rewrite <- (str_app_nil_r (b +:+ _)), interpolate_loop_acc. apply str_app_assoc.
  - by apply split_once_sound in E1.
Qed.

(** What interpolation means: from left to right, in one pass, each [${name}] is replaced
    by the value of the variable, and a [${] that is not closed stays as it is with all
    that follows. *)
Inductive expands : string → string → Prop :=
| expands_plain s : occurs_not "${" s → expands s s
| expands_unclosed s before after_open :
    leftmost "${" s before after_open → occurs_not "}" after_open → expands s s
| expands_variable s before after_open var_name rest text :
    leftmost "${" s before after_open → leftmost "}" after_open var_name rest →
    expands rest text → expands s (before +:+ (default "" (env_var var_name) +:+ text)).

Lemma interpolate_expands content : expands content (interpolate_env_vars content).
Proof.
  remember (String.length content) as n eqn:Hn. revert content Hn.
  induction (lt_wf n) as [n _ IH]. intros content ->. rewrite interpolate_unfold.
  destruct (split_once "${" content) as [[b after]|] eqn:E1.
  - pose proof (split_once_leftmost _ _ _ _ E1). destruct (split_once "}" after) as [[v rest]|] eqn:E2.
    + eapply expands_variable; [done|by apply split_once_leftmost|].
      apply split_once_shorter in E1, E2; [|done..]. eapply IH; [|done]. lia.
    + eapply expands_unclosed; [done|by apply split_once_occurs_not].
  - apply expands_plain. by apply split_once_occurs_not.
Qed.
Lemma expands_interpolates content text : expands content text → interpolate_env_vars content = text.
Proof.
  induction 1 as [s Hn|s b after Hl Hn|s b after v rest text Hl1 Hl2 _ IH]; rewrite interpolate_unfold.
  - by rewrite (proj2 (split_once_occurs_not _ _) Hn).
  - by rewrite (leftmost_split_once _ _ _ _ Hl), (proj2 (split_once_occurs_not _ _) Hn).
  - by rewrite (leftmost_split_once _ _ _ _ Hl1), (leftmost_split_once _ _ _ _ Hl2), IH.
Qed.

(** (C40) Loading a configuration: a text is accepted exactly when the text with its
    variables replaced, in one pass from left to right, is YAML of the configuration, and
    that has a server, and every server an alias of its own that is not empty and free of
    the separator, and a url.  Then the configuration is that, with the documented
    defaults. *)
Theorem parse_correct `{!Yaml} content c :
  parse content = Ok c ↔
  ∃ text raw, expands content text ∧ yaml_parse text = Ok raw ∧ c = config_of_raw raw ∧ config_wf c.
Proof.
  unfold parse. split.
  - intros Hp. exists (interpolate_env_vars content).
    destruct (yaml_parse (interpolate_env_vars content)) as [raw|] eqn:Hr; simplify_eq/=.
    destruct (validate (config_of_raw raw)) as [[]|] eqn:Hv; simplify_eq/=.
    exists raw. split_and!; [apply interpolate_expands|done|done|by apply validate_config_wf].
  - intros (text & raw & ->%expands_interpolates & -> & -> & Hv%validate_config_wf). cbn. by rewrite Hv.
Qed.
End interpolation.
