(* ===== verification/RateLimit.v ===== *)
(** * RateLimit: per-client token buckets ([src/rate_limit.rs])

    [TokenBucket] computes in [f64]; [RateLimiter] keeps one bucket per client
    label.  The mutex makes [check] atomic, so it is a function from the limiter to
    the answer and the limiter.  [check] reads the clock once before it takes the
    mutex ([now]) and a new bucket reads it again ([created]).

    [Spec] is the integer bucket the configuration describes; on whole seconds the
    [f64] bucket is exactly that bucket ([bucket_refines]). *)
From Stdlib Require Import QArith Lqa.
From S2P Require Import Prelude F64 Config.
Open Scope Z_scope.

Record TokenBucket := {
  tokens : f64;
  max_tokens : f64;
  refill_rate : f64;
  last_refill : Z;
}.

Definition TokenBucket_new (max_tokens refill_rate : f64) (now : Z) : TokenBucket :=
  {| tokens := max_tokens; max_tokens := max_tokens;
     refill_rate := refill_rate; last_refill := now |}.

Definition refill (now : Z) (b : TokenBucket) : TokenBucket :=
  let elapsed := as_secs_f64 (since now (last_refill b)) in
  if f_gt elapsed (F_fin 0) then
    {| tokens := f_min (f_add (tokens b) (f_mul elapsed (refill_rate b))) (max_tokens b);
       max_tokens := max_tokens b; refill_rate := refill_rate b; last_refill := now |}
  else b.

Definition try_acquire (now : Z) (b : TokenBucket) : bool * TokenBucket :=
  let b := refill now b in
  if f_ge (tokens b) (F_fin 1) then
    (true, {| tokens := f_sub (tokens b) (F_fin 1); max_tokens := max_tokens b;
              refill_rate := refill_rate b; last_refill := last_refill b |})
  else (false, b).

Record RateLimiter := {
  rate_config : RateLimitConfig;
  buckets : gmap string TokenBucket;
}.

Definition RateLimiter_new (config : RateLimitConfig) : RateLimiter :=
  {| rate_config := config; buckets := ∅ |}.

Definition enabled (rl : RateLimiter) : bool := rl_enabled (rate_config rl).

Definition check (now created : Z) (key : string) (rl : RateLimiter) : bool * RateLimiter :=
  if negb (rl_enabled (rate_config rl)) then (true, rl)
  else
    let max := f_of_Z (burst_size (rate_config rl)) in
    let rate := f_of_Z (requests_per_second (rate_config rl)) in
    let bucket := default (TokenBucket_new max rate created) (buckets rl !! key) in
    let '(ok, bucket) := try_acquire now bucket in
    (ok, {| rate_config := rate_config rl; buckets := <[key := bucket]> (buckets rl) |}).

(** ** The bucket stays within its bounds *)

(** A [u32] of the configuration *)
Definition is_u32 (z : Z) : Prop := 0 ≤ z < 2 ^ 32.

Definition bucket_wf (cap : Z) (b : TokenBucket) : Prop :=
  max_tokens b = F_fin (cap # 1) ∧
  (∃ t, tokens b = F_fin t ∧ (0 <= t)%Q ∧ (t <= inject_Z cap)%Q) ∧
  (∃ r, refill_rate b = F_fin (r # 1) ∧ 0 ≤ r).

Lemma new_bucket_wf cap rate now :
  is_u32 cap → is_u32 rate →
  bucket_wf cap (TokenBucket_new (f_of_Z cap) (f_of_Z rate) now).
Proof.
  unfold is_u32. intros Hc Hr. unfold bucket_wf. simpl.
  rewrite !f_of_Z_exact by lia. split; [done|]. split; [|exists rate; split; [done|lia]].
  exists (cap # 1). split; [done|]. split; [|apply Qle_refl].
  change (inject_Z 0 <= inject_Z cap)%Q. rewrite <- Zle_Qle. lia.
Qed.

Lemma since_nonneg a b : 0 ≤ since a b.
Proof. unfold since. lia. Qed.

Lemma refill_wf cap now b : 0 ≤ cap → bucket_wf cap b → bucket_wf cap (refill now b).
Proof.
  intros Hcap (Hm & (t & Ht & Ht0 & Htc) & (r & Hr & Hr0)). unfold refill.
  set (el := as_secs_f64 _). destruct (f_gt el (F_fin 0)) eqn:Hel; [|by split_and!; eauto].
  unfold bucket_wf. simpl. split; [done|]. split; [|eauto]. rewrite Hm, Ht, Hr.
  assert (Hcap' : (0 <= cap # 1)%Q) by (change (inject_Z 0 <= inject_Z cap)%Q; by rewrite <- Zle_Qle).
  assert (Hr' : (0 <= r # 1)%Q) by (change (inject_Z 0 <= inject_Z r)%Q; by rewrite <- Zle_Qle).
  assert (f_at_least 0 el) as Hn by apply as_secs_f64_nonneg, since_nonneg.
  assert (Hprod : f_is_nan (f_mul el (F_fin (r # 1))) = true ∨
                  f_at_least 0 (f_mul el (F_fin (r # 1)))).
  { destruct el as [|[]|q]; simpl in Hn; try done.
    - unfold f_mul. destruct (Qeq_bool (r # 1) 0); [by left|right]. simpl.
      unfold q_neg. by rewrite (proj2 (Qle_bool_iff 0 _) Hr').
    - right. by apply f_mul_finite_nonneg. }
  destruct Hprod as [Hnan|Hpos].
  - destruct (f_mul el (F_fin (r # 1))); try done. change (f_add _ F_nan) with F_nan. exists (cap # 1). repeat split; [done|apply Qle_refl].
  - apply f_min_at_least; [|done]. by apply f_add_nonneg.
Qed.

Lemma try_acquire_wf cap now b :
  0 ≤ cap < 2 ^ 53 → bucket_wf cap b → bucket_wf cap (try_acquire now b).2.
Proof.
  intros Hcap Hb. pose proof (refill_wf cap now b (proj1 Hcap) Hb) as Hr.
  unfold try_acquire. destruct (f_ge (tokens (refill now b)) (F_fin 1)) eqn:Hge; [|done].
  destruct Hr as (Hm & (t & Ht & Ht0 & Htc) & Hrate). simpl.
  unfold bucket_wf. simpl. split; [done|]. split; [|done].
  rewrite Ht in *. simpl in Hge. apply Qle_bool_iff in Hge.
  unfold f_sub, f_neg, f_add. apply rnd_le_int; [lra|lra|lia].
Qed.

(** Every bucket of a limiter is within its bounds. *)
Definition limiter_wf (rl : RateLimiter) : Prop :=
  is_u32 (burst_size (rate_config rl)) ∧ is_u32 (requests_per_second (rate_config rl)) ∧
  map_Forall (λ _, bucket_wf (burst_size (rate_config rl))) (buckets rl).

Lemma limiter_new_wf c :
  is_u32 (burst_size c) → is_u32 (requests_per_second c) → limiter_wf (RateLimiter_new c).
Proof. intros. by split_and!. Qed.

(** Whatever the order of the clock readings, every [check] keeps every
    bucket's tokens a number between 0 and [burst_size]: no rounding, overflow or
    clock anomaly lets a client accumulate more than its burst, or drives the
    count negative. *)
Theorem check_preserves_wf now created key rl :
  limiter_wf rl → limiter_wf (check now created key rl).2.
Proof.
  intros (Hb & Hr & Hall). unfold check.
  destruct (negb _); [by split_and!|].
  set (b := default _ _).
  assert (bucket_wf (burst_size (rate_config rl)) b) as Hwf.
  { unfold b. destruct (buckets rl !! key) eqn:E; [by eapply Hall|by apply new_bucket_wf]. }
  apply (try_acquire_wf _ now) in Hwf; [|unfold is_u32 in *; lia].
  destruct (try_acquire now b) as [ok b']. split_and!; simpl; try done.
  by apply map_Forall_insert_2.
Qed.

(** Clients do not affect each other: a [check] for one key leaves the bucket
    of every other key as it was, and the answer for a key depends only on that
    key's bucket.  A disabled limiter always answers [true] and changes nothing. *)
Theorem check_isolated now created key rl :
  (∀ k, k ≠ key → buckets (check now created key rl).2 !! k = buckets rl !! k) ∧
  (∀ rl', rate_config rl' = rate_config rl → buckets rl' !! key = buckets rl !! key →
     (check now created key rl').1 = (check now created key rl).1) ∧
  (rl_enabled (rate_config rl) = false → check now created key rl = (true, rl)).
Proof.
  unfold check. split_and!.
  - intros k Hk. destruct (negb _); [done|].
    destruct (try_acquire _ _). simpl. by rewrite lookup_insert_ne.
  - intros rl' -> ->. destruct (negb _); [done|]. by destruct (try_acquire _ _).
  - by intros ->.
Qed.

(** ** The integer bucket *)
Module Spec.
(** Whole tokens, refilled at [rate] per second up to [cap] *)
Record ibucket := { level : Z; last : Z }.

Definition full (cap now : Z) : ibucket := {| level := cap; last := now |}.

Definition irefill (cap rate now : Z) (b : ibucket) : ibucket :=
  if last b <? now then
    {| level := Z.min (level b + (now - last b) * rate) cap; last := now |}
  else b.

Definition iacquire (cap rate now : Z) (b : ibucket) : bool * ibucket :=
  let b := irefill cap rate now b in
  if 1 <=? level b then (true, {| level := level b - 1; last := last b |}) else (false, b).

Fixpoint run (cap rate : Z) (times : list Z) (b : ibucket) : list bool * ibucket :=
  match times with
  | [] => ([], b)
  | t :: ts => let '(ok, b) := iacquire cap rate t b in
               let '(oks, b) := run cap rate ts b in (ok :: oks, b)
  end.

Definition granted (oks : list bool) : Z := Z.of_nat (length (filter (λ b, b = true) oks)).

Lemma iacquire_level cap rate now b :
  0 ≤ rate → 0 ≤ level b ≤ cap →
  0 ≤ level (iacquire cap rate now b).2 ≤ cap ∧
  last (iacquire cap rate now b).2 = Z.max (last b) now ∧
  (if (iacquire cap rate now b).1 then 1 else 0) + level (iacquire cap rate now b).2
    ≤ level b + rate * (Z.max (last b) now - last b).
Proof.
  intros Hr Hl. unfold iacquire, irefill.
  destruct (Z.ltb_spec (last b) now); simpl;
    match goal with |- context [Z.leb 1 ?x] => destruct (Z.leb_spec 1 x) end; simpl; nia.
Qed.

Lemma run_bound cap rate times b :
  0 ≤ rate → 0 ≤ level b ≤ cap →
  granted (run cap rate times b).1 ≤ level b + rate * (foldr Z.max (last b) times - last b).
Proof.
  intros Hr. revert b. induction times as [|t ts IH]; intros b Hl; [simpl; unfold granted; simpl; lia|].
  pose proof (iacquire_level cap rate t b Hr Hl) as (Hl' & Hlast & Hsum). simpl.
  destruct (iacquire cap rate t b) as [ok b'] eqn:E. simpl in *.
  specialize (IH b' Hl'). destruct (run cap rate ts b') as [oks b'']. simpl in *.
  assert (Hg : granted (ok :: oks) = (if ok then 1 else 0) + granted oks).
  { unfold granted. rewrite filter_cons. destruct ok; simpl; lia. }
  rewrite Hg. rewrite Hlast in IH.
  assert (foldr Z.max (Z.max (last b) t) ts = Z.max t (foldr Z.max (last b) ts)) as Hm.
  { clear. induction ts; simpl; lia. }
  rewrite Hm in IH. nia.
Qed.
End Spec.

(** ** Refinement: on whole seconds the [f64] bucket is the integer bucket *)

Definition bucket_rel (cap rate : Z) (b : TokenBucket) (i : Spec.ibucket) : Prop :=
  tokens b = F_fin (Spec.level i # 1) ∧ max_tokens b = F_fin (cap # 1) ∧
  refill_rate b = F_fin (rate # 1) ∧ last_refill b = from_secs (Spec.last i) ∧
  0 ≤ Spec.level i ≤ cap.

Lemma since_whole now last :
  since (from_secs now) (from_secs last) = from_secs (Z.max 0 (now - last)).
Proof. unfold since, from_secs, NANOS. lia. Qed.

Lemma f_gt_zero_int z : f_gt (F_fin (z # 1)) (F_fin 0) = (0 <? z).
Proof.
  unfold f_gt. simpl f_is_nan. rewrite !orb_false_l. unfold f_le.
  rewrite (Qle_bool_int z 0). destruct (Z.leb_spec z 0), (Z.ltb_spec 0 z); simpl; lia.
Qed.

Lemma refill_refines cap rate now b i :
  is_u32 cap → is_u32 rate → now - Spec.last i < 2 ^ 20 →
  bucket_rel cap rate b i →
  bucket_rel cap rate (refill (from_secs now) b) (Spec.irefill cap rate now i).
Proof.
  unfold is_u32. intros Hc Hr Hn (Ht & Hm & Hrate & Hl & Hlev).
  unfold refill, Spec.irefill. rewrite Hl, since_whole.
  rewrite as_secs_f64_whole by lia. rewrite f_gt_zero_int.
  destruct (Z.ltb_spec (Spec.last i) now) as [Hlt|Hge].
  - rewrite Z.max_r by lia. destruct (Z.ltb_spec 0 (now - Spec.last i)); [|lia].
    unfold bucket_rel. simpl. rewrite Ht, Hm, Hrate.
    assert (0 ≤ (now - Spec.last i) * rate < 2 ^ 52) by nia.
    rewrite f_mul_int, f_add_int, f_min_int by lia. split_and!; try done; lia.
  - rewrite Z.max_l by lia. done.
Qed.

Lemma acquire_refines cap rate now b i :
  is_u32 cap → is_u32 rate → now - Spec.last i < 2 ^ 20 →
  bucket_rel cap rate b i →
  (try_acquire (from_secs now) b).1 = (Spec.iacquire cap rate now i).1 ∧
  bucket_rel cap rate (try_acquire (from_secs now) b).2 (Spec.iacquire cap rate now i).2.
Proof.
  intros Hc Hr Hn Hrel. apply (refill_refines _ _ now) in Hrel; [|done..].
  unfold try_acquire, Spec.iacquire.
  destruct Hrel as (Ht & Hm & Hrate & Hl & Hlev). rewrite Ht.
  unfold f_ge, f_le. rewrite Qle_bool_int.
  destruct (Z.leb_spec 1 (Spec.level (Spec.irefill cap rate now i))); [|by split_and!].
  split; [done|]. unfold is_u32 in Hc. unfold bucket_rel. simpl.
  rewrite f_sub_int by lia. split_and!; try done; lia.
Qed.

(** The answers of a bucket to acquisitions at the given instants *)
Fixpoint run_bucket (times : list Z) (b : TokenBucket) : list bool * TokenBucket :=
  match times with
  | [] => ([], b)
  | t :: ts => let '(ok, b) := try_acquire t b in
               let '(oks, b) := run_bucket ts b in (ok :: oks, b)
  end.

Lemma new_bucket_rel cap rate start :
  is_u32 cap → is_u32 rate →
  bucket_rel cap rate (TokenBucket_new (f_of_Z cap) (f_of_Z rate) (from_secs start))
    (Spec.full cap start).
Proof.
  unfold is_u32. intros. unfold bucket_rel. simpl. rewrite !f_of_Z_exact by lia.
  split_and!; done || lia.
Qed.

Lemma run_refines cap rate start times b i :
  is_u32 cap → is_u32 rate → Forall (λ t, start ≤ t < start + 2 ^ 20) times →
  start ≤ Spec.last i → bucket_rel cap rate b i →
  (run_bucket (from_secs <$> times) b).1 = (Spec.run cap rate times i).1.
Proof.
  intros Hc Hr Hts. revert b i.
  induction Hts as [|t ts Ht Hts IH]; intros b i Hlast Hrel; [done|].
  rewrite fmap_cons. cbn [run_bucket Spec.run].
  destruct (acquire_refines cap rate t b i) as [Hok Hrel']; [done..|lia|done|].
  pose proof (Spec.iacquire_level cap rate t i (proj1 Hr)
                (proj2 (proj2 (proj2 (proj2 Hrel))))) as (_ & Hl' & _).
  destruct (try_acquire (from_secs t) b) as [ok b'].
  destruct (Spec.iacquire cap rate t i) as [ok' i']. simpl in *. subst ok'.
  specialize (IH b' i' ltac:(lia) Hrel').
  destruct (run_bucket (from_secs <$> ts) b') as [oks ?], (Spec.run cap rate ts i') as [oks' ?].
  simpl in *. by subst.
Qed.

(** Refinement: from a fresh bucket of the limiter, acquisitions at any sequence
    of whole seconds (none more than [2^20] seconds, about twelve days, after the
    bucket was made) get exactly the answers of the integer token bucket of capacity
    [burst_size] and rate [requests_per_second]: the [f64] computation does not
    round. *)
Theorem bucket_refines cap rate start times :
  is_u32 cap → is_u32 rate → Forall (λ t, start ≤ t < start + 2 ^ 20) times →
  (run_bucket (from_secs <$> times)
     (TokenBucket_new (f_of_Z cap) (f_of_Z rate) (from_secs start))).1 =
  (Spec.run cap rate times (Spec.full cap start)).1.
Proof.
  intros Hc Hr Hts. eapply run_refines; [done..| |by apply new_bucket_rel]. simpl. lia.
Qed.

Lemma bucket_refines_witness :
  (run_bucket (from_secs <$> [7; 7; 7; 8; 8; 20])
     (TokenBucket_new (f_of_Z 2) (f_of_Z 1) (from_secs 7))).1 =
  [true; true; false; true; false; true].
Proof.
  rewrite (bucket_refines 2 1 7); [vm_compute; reflexivity|unfold is_u32; lia|unfold is_u32; lia|].
  repeat constructor; lia.
Defined.

(** The limit: over any such run of requests of one client, in whatever order
    the clock was read, the number of requests let through is at most
    [burst_size + requests_per_second * d] where [d] is the number of seconds from
    the creation of the bucket to the latest request. *)
Theorem granted_bound cap rate start times :
  is_u32 cap → is_u32 rate → Forall (λ t, start ≤ t < start + 2 ^ 20) times →
  Spec.granted (run_bucket (from_secs <$> times)
     (TokenBucket_new (f_of_Z cap) (f_of_Z rate) (from_secs start))).1
  ≤ cap + rate * (foldr Z.max start times - start).
Proof.
  intros Hc Hr Hts.
  rewrite (run_refines cap rate start times _ (Spec.full cap start)) by
    (done || (simpl; lia) || by apply new_bucket_rel).
  unfold is_u32 in *. apply (Spec.run_bound cap rate times (Spec.full cap start)); simpl; lia.
Qed.

Lemma granted_bound_witness :
  Spec.granted (run_bucket (from_secs <$> [7; 7; 7; 8; 9])
     (TokenBucket_new (f_of_Z 2) (f_of_Z 1) (from_secs 7))).1 ≤ 2 + 1 * 2.
Proof.
  apply (granted_bound 2 1 7 [7; 7; 7; 8; 9]); [unfold is_u32; lia|unfold is_u32; lia|].
  repeat constructor; lia.
Defined.

Lemma check_preserves_wf_witness :
  limiter_wf (check 5 6 "client-0"
    (RateLimiter_new {| rl_enabled := true; requests_per_second := 10; burst_size := 20 |})).2.
Proof.
  apply check_preserves_wf. apply limiter_new_wf; unfold is_u32; simpl; lia.
Defined.

Lemma check_isolated_witness :
  buckets (check 5 6 "client-0"
    (RateLimiter_new {| rl_enabled := true; requests_per_second := 10; burst_size := 20 |})).2
  !! "client-1"%string = None.
Proof.
  rewrite (proj1 (check_isolated 5 6 "client-0" _)) by done. reflexivity.
Defined.
