(* ===== verification/Rounding.v ===== *)
(** * Rounding: how far the [f64] arithmetic is from the exact one

    A rounded number is within half a unit of its last place of the exact one; the seconds
    of a [Duration] are within a few of these.  These are the bounds that limits on the
    computed values are derived from (Quota.v). *)
From Stdlib Require Import QArith Qround Qreduction Qabs Qpower Lqa.
From S2P Require Import Prelude F64.
Open Scope Z_scope.

(** Half the distance from 1 to the next number: [2 ^ -53] *)
Definition u : Q := 1 # 9007199254740992.

Lemma round_close q :
  (inject_Z (round_half_even q) - q <= 1 # 2)%Q ∧ (q - inject_Z (round_half_even q) <= 1 # 2)%Q.
Proof.
  unfold round_half_even. pose proof (Qfloor_le q) as Hl. pose proof (Qlt_floor q) as Hu.
  rewrite inject_Z_plus in Hu. change (inject_Z 1) with 1%Q in Hu.
  destruct (Qcompare _ _) eqn:E.
  - apply Qeq_alt in E. destruct (Z.even _); [|rewrite inject_Z_plus; change (inject_Z 1) with 1%Q]; lra.
  - apply Qlt_alt in E. lra.
  - apply Qgt_alt in E. rewrite inject_Z_plus. change (inject_Z 1) with 1%Q. lra.
Qed.

Lemma pow2_le a b : a ≤ b → (pow2 a <= pow2 b)%Q.
Proof.
  intros Hab. replace b with (a + (b - a)) by lia. rewrite pow2_add.
  pose proof (pow2_pos a). pose proof (pow2_ge_1 (b - a) ltac:(lia)). nra.
Qed.

(** The error is at most half of the last of the 53 bits. *)
Lemma rnd_error q :
  (0 <= q)%Q →
  let v := (inject_Z (round_half_even (q * pow2 (- ulp_exp q))) * pow2 (ulp_exp q))%Q in
  (v - q <= u * (q + u))%Q ∧ (q - v <= u * (q + u))%Q.
Proof.
  intros Hq. set (e := ulp_exp q). set (x := (q * pow2 (- e))%Q). cbv zeta.
  destruct (Qle_lt_or_eq _ _ Hq) as [Hp|Hz].
  2: { assert (x == inject_Z 0)%Q as Hx by (unfold x; rewrite <- Hz; ring).
       rewrite (round_int 0 x Hx). unfold u. change (inject_Z 0) with 0%Q. lra. }
  destruct (round_close x) as [Hlo Hhi]. set (m := inject_Z (round_half_even x)) in *.
  pose proof (pow2_pos e) as He.
  assert (x * pow2 e == q)%Q as Hx.
  { unfold x. rewrite <- Qmult_assoc, pow2_inv. apply Qmult_1_r. }
  enough ((1 # 2) * pow2 e <= u * (q + u))%Q as Hh by (split; nra). clear Hlo Hhi.
  assert (u == pow2 (-53))%Q as Hu by done.
  assert ((1 # 2) == pow2 (-1))%Q as Hhalf by done. rewrite Hhalf, <- pow2_add.
  destruct (Z.le_gt_cases e (-1074)) as [Hs|Hn].
  - pose proof (pow2_le (-1 + e) (-106) ltac:(lia)) as Hle.
    assert (pow2 (-106) == u * u)%Q as Huu by done.
    assert (0 <= u * q)%Q by (unfold u; lra). lra.
  - assert (e = lead q - 52) as Hl by (unfold e, ulp_exp in *; lia).
    pose proof (lead_le q Hp) as Hle. rewrite Hl.
    replace (-1 + (lead q - 52)) with (-53 + lead q) by lia. rewrite pow2_add, <- Hu.
    unfold u in *. lra.
Qed.

(** [v] is [q] up to [k] roundings *)
Definition near (k : Q) (q v : Q) : Prop :=
  (0 <= v)%Q ∧ (v <= q + k * u * (q + u))%Q ∧ (q - k * u * (q + u) <= v)%Q.

Lemma rnd_near q :
  (0 <= q)%Q → (q <= inject_Z (2 ^ 200))%Q → ∃ v, rnd q = F_fin v ∧ near 1 q v.
Proof.
  intros Hq Hb. destruct (rnd_error q Hq) as [Hhi Hlo]. pose proof (rnd_value_ge_0 q Hq) as H0.
  unfold rnd. set (v := (_ * pow2 (ulp_exp q))%Q) in *.
  destruct (Qle_bool (pow2 1024) _) eqn:Hinf.
  - exfalso. apply Qle_bool_iff in Hinf. rewrite Qabs_pos in Hinf by done.
    assert (inject_Z (2 ^ 201) <= pow2 1024)%Q as Hp.
    { rewrite pow2_Z by done. rewrite <- Zle_Qle. apply Z.pow_le_mono_r; lia. }
    change (2 ^ 201) with (2 * 2 ^ 200) in Hp. rewrite inject_Z_mult in Hp. change (inject_Z 2) with 2%Q in Hp.
    assert (1 <= inject_Z (2 ^ 200))%Q by done. unfold u in *. lra.
  - exists (Qred v). split; [done|]. unfold near. rewrite Qred_correct. split; [done|]. lra.
Qed.

(** Rounding does not cross an integer of 53 bits. *)
Lemma rnd_ge_int q k : 0 ≤ k < 2 ^ 53 → (inject_Z k <= q)%Q → f_at_least (inject_Z k) (rnd q).
Proof.
  intros Hk Hq.
  assert (0 <= inject_Z k)%Q as Hk0 by (rewrite <- (Zle_Qle 0); lia).
  assert (inject_Z k <= inject_Z (round_half_even (q * pow2 (- ulp_exp q))) * pow2 (ulp_exp q))%Q as Hv.
  { set (e := ulp_exp q). set (m := round_half_even _).
    pose proof (pow2_inv e) as Hinv. pose proof (pow2_pos e). pose proof (pow2_pos (- e)).
    destruct (Z.le_gt_cases e 0) as [He|He].
    - assert (inject_Z (k * 2 ^ (- e)) <= inject_Z m)%Q as Hm.
      { rewrite <- Zle_Qle. apply round_ge. rewrite inject_Z_mult, <- pow2_Z by lia. nra. }
      rewrite inject_Z_mult, <- pow2_Z in Hm by lia. nra.
    - destruct (decide (k = 0)) as [->|Hk1].
      { apply rnd_value_ge_0. lra. }
      assert (0 < q)%Q as Hq0.
      { assert (1 <= inject_Z k)%Q by (rewrite <- (Zle_Qle 1); lia). lra. }
      assert (lead q = e + 52) as Hl by (unfold e, ulp_exp in *; lia).
      pose proof (lead_le q Hq0) as Hle. rewrite Hl, pow2_add in Hle.
      assert (inject_Z (2 ^ 52) <= inject_Z m)%Q as Hm.
      { rewrite <- Zle_Qle. apply round_ge. rewrite <- pow2_Z by lia. 
        pose proof (pow2_pos 52). nra. }
      assert (pow2 1 <= pow2 e)%Q as H1 by (apply pow2_le; lia).
      assert (inject_Z k <= inject_Z (2 * 2 ^ 52))%Q as Hk2 by (rewrite <- Zle_Qle; lia).
      rewrite inject_Z_mult in Hk2. change (pow2 1) with 2%Q in H1. change (inject_Z 2) with 2%Q in Hk2.
      assert (0 <= inject_Z (2 ^ 52))%Q by done. nra. }
  unfold rnd. set (v := (_ * pow2 (ulp_exp q))%Q) in *.
  destruct (Qle_bool (pow2 1024) _) eqn:Hinf; simpl; [|by rewrite Qred_correct].
  apply not_true_iff_false. intros Hle%Qle_bool_iff. apply Qle_bool_iff in Hinf.
  rewrite Qabs_pos in Hinf by lra. pose proof (pow2_pos 1024). lra.
Qed.

(** ** Seconds *)

(** A [Duration] has at most [2 ^ 64] seconds. *)
Definition is_duration (d : Z) : Prop := 0 ≤ d < 2 ^ 64 * NANOS.
(** Its exact length in seconds *)
Definition seconds (d : Z) : Q := inject_Z d / inject_Z NANOS.

Lemma seconds_bounds d : is_duration d → (0 <= seconds d)%Q ∧ (seconds d <= inject_Z (2 ^ 64))%Q.
Proof.
  intros [H0 Hd]. unfold seconds. split; [apply Qle_shift_div_l|apply Qle_shift_div_r]; [done| |done|].
  - rewrite Qmult_0_l. by rewrite <- (Zle_Qle 0).
  - rewrite <- inject_Z_mult, <- Zle_Qle. lia.
Qed.

Lemma as_secs_f64_near d :
  is_duration d → ∃ s, as_secs_f64 d = F_fin s ∧ near 4 (seconds d) s.
Proof.
  intros Hd. pose proof (seconds_bounds d Hd) as [Hs0 Hsb]. destruct Hd as [H0 Hd].
  unfold as_secs_f64. set (a := d / NANOS). set (b := d mod NANOS).
  assert (0 ≤ a < 2 ^ 64) as Ha.
  { split; [by apply Z.div_pos|apply Z.div_lt_upper_bound; [done|lia]]. }
  assert (0 ≤ b < NANOS) as Hb by by apply Z.mod_pos_bound.
  assert (seconds d == inject_Z a + inject_Z b / inject_Z NANOS)%Q as Hsum.
  { unfold seconds. rewrite (Z.div_mod d NANOS) at 1 by done. fold a b.
    rewrite inject_Z_plus, inject_Z_mult. field. done. }
  assert (0 <= inject_Z a)%Q as Ha0 by (rewrite <- (Zle_Qle 0); lia).
  assert (inject_Z a <= inject_Z (2 ^ 64))%Q as Hab by (rewrite <- Zle_Qle; lia).
  assert (inject_Z (2 ^ 64) <= inject_Z (2 ^ 100))%Q as H64 by done.
  destruct (rnd_near (inject_Z a)) as (va & Hva & Hna); [done| |].
  { assert (inject_Z (2 ^ 64) <= inject_Z (2 ^ 200))%Q by done. lra. }
  unfold f_of_Z at 1. rewrite Hva, (f_of_Z_exact b), (f_of_Z_exact NANOS) by (unfold NANOS in *; lia).
  set (f := (inject_Z b / inject_Z NANOS)%Q) in *.
  change (f_div (F_fin (b # 1)) (F_fin (NANOS # 1))) with (rnd f).
  assert (0 <= f)%Q as Hf0.
  { apply Qle_shift_div_l; [done|]. rewrite Qmult_0_l, <- (Zle_Qle 0). lia. }
  assert (f <= 1)%Q as Hf1.
  { apply Qle_shift_div_r; [done|]. rewrite Qmult_1_l, <- Zle_Qle. lia. }
  assert (inject_Z (2 ^ 64) + 2 <= inject_Z (2 ^ 200))%Q as H200 by done.
  destruct (rnd_near f) as (vf & Hvf & Hnf); [done|lra|]. rewrite Hvf.
  unfold near, u in Hna, Hnf.
  assert (inject_Z (2 ^ 64) * 2 + 4 <= inject_Z (2 ^ 200))%Q by done.
  destruct (rnd_near (va + vf)) as (v & Hv & Hn); [lra|lra|].
  exists v. split; [exact Hv|]. unfold near, u in *. rewrite Hsum. lra.
Qed.
