(* ===== verification/Quota.v ===== *)
(** * Quota: what the rate limiter lets through ([src/rate_limit.rs])

    The requests of a client are charged to its own bucket, at any instants, with the clock
    read before the lock is taken, so in any order.  RateLimit.v compares the bucket with an
    integer one at whole seconds; here the instants are arbitrary and the roundings of the
    [f64] arithmetic (Rounding.v) are accounted for. *)
From Stdlib Require Import QArith Lqa.
From S2P Require Import Prelude F64 Config RateLimit Rounding.
Open Scope Z_scope.

(** ** One bucket *)

(** The tokens as a number *)
Definition count (b : TokenBucket) : Q := match tokens b with F_fin q => q | _ => 0%Q end.

Record sound (cap rate : Z) (b : TokenBucket) : Prop := {
  so_wf : bucket_wf cap b;
  so_rate : refill_rate b = F_fin (rate # 1);
}.

Lemma sound_count cap rate b :
  sound cap rate b → tokens b = F_fin (count b) ∧ (0 <= count b)%Q ∧ (count b <= inject_Z cap)%Q.
Proof. intros [(_ & (t & Ht & H0 & Hc) & _) _]. unfold count. by rewrite Ht. Qed.

Lemma sound_new cap rate now :
  is_u32 cap → is_u32 rate → sound cap rate (TokenBucket_new (f_of_Z cap) (f_of_Z rate) now).
Proof.
  intros Hc Hr. split; [by apply new_bucket_wf|]. simpl. apply f_of_Z_exact. unfold is_u32 in *. lia.
Qed.

Lemma elapsed_positive d s :
  is_duration d → near 4 (seconds d) s → 0 < d → f_gt (F_fin s) (F_fin 0) = true.
Proof.
  intros Hd Hn H0. unfold f_gt, f_le. simpl f_is_nan. rewrite !orb_false_l.
  destruct (Qle_bool s 0) eqn:E; [|done]. apply Qle_bool_iff in E. exfalso.
  assert (1 # 1000000000 <= seconds d)%Q as Hs.
  { unfold seconds. apply Qle_shift_div_l; [done|]. change ((1 # 1000000000) * inject_Z NANOS)%Q with (1000000000 # 1000000000)%Q.
    assert (1 <= inject_Z d)%Q by (rewrite <- (Zle_Qle 1); lia). lra. }
  unfold near, u in Hn. lra.
Qed.

(** A refill, where time has passed *)
Section refill.
Context (cap rate now : Z) (b : TokenBucket).
Hypotheses (Hcap : is_u32 cap) (Hrate : is_u32 rate) (Hb : sound cap rate b).
Hypothesis (Hd : is_duration (since now (last_refill b))).
Let d := since now (last_refill b).
Let y := (inject_Z rate * seconds d)%Q.

(** The computed number of tokens, before the cap *)
Lemma refill_value :
  0 < d → ∃ p v, count (refill now b) = (if Qle_bool v (inject_Z cap) then v else inject_Z cap) ∧
    (0 <= p)%Q ∧ rnd (count b + p) = F_fin v ∧ near 1 (count b + p) v ∧
    (p <= y + 6 * u * (y + u * inject_Z rate + u))%Q ∧
    (y - 6 * u * (y + u * inject_Z rate + u) <= p)%Q.
Proof.
  intros H0. destruct (sound_count _ _ _ Hb) as (Ht & Ht0 & Htc). destruct Hb as [(Hm & _) Hr].
  destruct (as_secs_f64_near d Hd) as (s & Hs & Hn).
  destruct (seconds_bounds d Hd) as [Hs0 Hs1]. unfold is_u32 in *.
  assert (0 <= inject_Z rate)%Q as HR0 by (rewrite <- (Zle_Qle 0); lia).
  assert (inject_Z rate <= inject_Z (2 ^ 32))%Q as HR1 by (rewrite <- Zle_Qle; lia).
  assert (inject_Z cap <= inject_Z (2 ^ 32))%Q as HC1 by (rewrite <- Zle_Qle; lia).
  assert (y <= inject_Z (2 ^ 96))%Q as Hy1.
  { unfold y. change (2 ^ 96) with (2 ^ 32 * 2 ^ 64). rewrite inject_Z_mult. nra. }
  assert (0 <= y)%Q as Hy0 by (unfold y; nra).
  pose proof Hn as (Hv0 & Hv1 & Hv2).
  assert (s * inject_Z rate <= y + 4 * u * (y + u * inject_Z rate))%Q as Hup.
  { unfold y. unfold u in *. nra. }
  assert (y - 4 * u * (y + u * inject_Z rate) <= s * inject_Z rate)%Q as Hlow.
  { unfold y. unfold u in *. nra. }
  assert (0 <= s * inject_Z rate)%Q as Hpos by nra.
  assert (inject_Z (2 ^ 96) * 4 <= inject_Z (2 ^ 200))%Q as Hbig by done.
  assert (inject_Z (2 ^ 32) <= inject_Z (2 ^ 96))%Q as Hsmall by done.
  assert (1000 <= inject_Z (2 ^ 96))%Q as Hbig' by done.
  destruct (rnd_near (s * inject_Z rate)) as (p & Hp & Hpn); [done|unfold u in *; lra|].
  unfold near in Hpn.
  destruct (rnd_near (count b + p)) as (v & Hv & Hvn); [lra|unfold u in *; lra|].
  exists p, v. split_and!; [|lra|done|done|unfold u in *; lra|unfold u in *; lra].
  unfold refill. fold d. rewrite Hs, (elapsed_positive d s Hd Hn H0).
  unfold count at 1. cbn [tokens]. rewrite Ht, Hr, Hm.
  change (f_mul (F_fin s) (F_fin (rate # 1))) with (rnd (s * inject_Z rate)). rewrite Hp.
  change (f_add (F_fin (count b)) (F_fin p)) with (rnd (count b + p)). rewrite Hv.
  change (f_min (F_fin v) (F_fin (cap # 1))) with
    (if Qle_bool v (inject_Z cap) then F_fin v else F_fin (inject_Z cap)).
  by destruct (Qle_bool v (inject_Z cap)).
Qed.

Lemma refill_sound : sound cap rate (refill now b).
Proof.
  split; [apply refill_wf; [unfold is_u32 in *; lia|by destruct Hb]|].
  unfold refill. case_match; by destruct Hb.
Qed.
Lemma refill_still : ¬ 0 < d → refill now b = b.
Proof.
  intros Hz. unfold refill. fold d. assert (d = 0) as Hd0 by (unfold d, since in *; lia).
  by rewrite Hd0.
Qed.
Lemma refill_last : last_refill (refill now b) = Z.max (last_refill b) now.
Proof.
  destruct (decide (0 < d)) as [Hp|Hz].
  - destruct (as_secs_f64_near d Hd) as (s & Hs & Hn).
    unfold refill. fold d. rewrite Hs, (elapsed_positive d s Hd Hn Hp). simpl. unfold d, since in Hp. lia.
  - rewrite refill_still by done. unfold d, since in Hz. lia.
Qed.

(** It gives at most the rate times the time, up to roundings. *)
Lemma refill_at_most : (count (refill now b) <= count b + y + 12 * u * inject_Z cap)%Q.
Proof.
  destruct (sound_count _ _ _ Hb) as (_ & Ht0 & Htc).
  destruct (seconds_bounds d Hd) as [Hs0 _]. unfold is_u32 in *.
  assert (0 <= inject_Z rate)%Q as HR0 by (rewrite <- (Zle_Qle 0); lia).
  assert (0 <= inject_Z cap)%Q as HC0 by (rewrite <- (Zle_Qle 0); lia).
  assert (0 <= y)%Q as Hy0 by (unfold y; nra).
  destruct (decide (0 < d)) as [Hp|Hz]; [|rewrite (refill_still Hz); unfold u; lra].
  destruct (refill_value Hp) as (p & v & -> & Hp0 & _ & Hv & Hpu & _).
  destruct (Qlt_le_dec (count b + y) (inject_Z cap)) as [Hroom|Hfull].
  2: { destruct (Qle_bool v _) eqn:E; [apply Qle_bool_iff in E|]; unfold u; lra. }
  assert (inject_Z 0 < inject_Z cap)%Q as Hc by (change (inject_Z 0) with 0%Q; lra).
  rewrite <- Zlt_Qlt in Hc.
  assert (1 <= inject_Z cap)%Q as Hc1 by (rewrite <- (Zle_Qle 1); lia).
  assert (inject_Z rate <= inject_Z (2 ^ 32))%Q as HR1 by (rewrite <- Zle_Qle; lia).
  change (inject_Z (2 ^ 32)) with (4294967296 # 1)%Q in HR1.
  unfold near, u in *. destruct (Qle_bool v _) eqn:E; [lra|].
  apply not_true_iff_false in E. rewrite Qle_bool_iff in E. lra.
Qed.

(** It takes no whole token away. *)
Lemma refill_keeps k :
  0 ≤ k ≤ cap → (inject_Z k <= count b)%Q → (inject_Z k <= count (refill now b))%Q.
Proof.
  intros Hk Hkb. destruct (decide (0 < d)) as [Hp|Hz]; [|by rewrite (refill_still Hz)].
  assert (inject_Z k <= inject_Z cap)%Q as Hkc by (rewrite <- Zle_Qle; lia).
  destruct (refill_value Hp) as (p & v & -> & Hp0 & Hv & _).
  pose proof (rnd_ge_int (count b + p) k) as Hr. rewrite Hv in Hr.
  unfold is_u32 in *. specialize (Hr ltac:(lia) ltac:(lra)). simpl in Hr.
  by destruct (Qle_bool v _).
Qed.

(** After more than the time of one token, there is one. *)
Lemma refill_waited : 1 ≤ cap → NANOS < d * rate → (1 <= count (refill now b))%Q.
Proof.
  intros Hc Hlong. destruct (sound_count _ _ _ Hb) as (_ & Ht0 & _). unfold is_u32 in *.
  assert (0 < d) as Hp by (unfold NANOS in *; nia).
  assert (1 + (1 # 1000000000) <= y)%Q as Hy.
  { unfold y, seconds. unfold Qdiv. rewrite Qmult_assoc. apply Qle_shift_div_l; [done|].
    rewrite <- inject_Z_mult.
    change ((1 + (1 # 1000000000)) * inject_Z NANOS)%Q with (1000000001000000000 # 1000000000)%Q.
    assert (inject_Z (NANOS + 1) <= inject_Z (rate * d))%Q as Hle by (rewrite <- Zle_Qle; lia).
    change (inject_Z (NANOS + 1)) with (1000000001 # 1)%Q in Hle. lra. }
  assert (inject_Z 1 <= inject_Z cap)%Q as Hc1 by by rewrite <- Zle_Qle.
  assert (0 <= inject_Z rate)%Q as HR0 by (rewrite <- (Zle_Qle 0); lia).
  assert (inject_Z rate <= inject_Z (2 ^ 32))%Q as HR1 by (rewrite <- Zle_Qle; lia).
  change (inject_Z (2 ^ 32)) with (4294967296 # 1)%Q in HR1.
  destruct (refill_value Hp) as (p & v & -> & Hp0 & Hv & _ & _ & Hlow).
  pose proof (rnd_ge_int (count b + p) 1 ltac:(done)) as Hr. rewrite Hv in Hr.
  change (inject_Z 1) with 1%Q in *. unfold u in Hlow.
  specialize (Hr ltac:(lra)). simpl in Hr. by destruct (Qle_bool v _).
Qed.
End refill.

(** ** A request *)

Section acquire.
Context (cap rate now : Z) (b : TokenBucket).
Hypotheses (Hcap : is_u32 cap) (Hrate : is_u32 rate) (Hb : sound cap rate b).
Hypothesis (Hd : is_duration (since now (last_refill b))).

(** What is left *)
Lemma acquired :
  let n := count (refill now b) in
  last_refill (try_acquire now b).2 = Z.max (last_refill b) now ∧
  sound cap rate (try_acquire now b).2 ∧
  if (try_acquire now b).1
  then (1 <= n)%Q ∧ ∃ v, rnd (n - 1) = F_fin v ∧ count (try_acquire now b).2 = v
  else (n < 1)%Q ∧ count (try_acquire now b).2 = n.
Proof.
  pose proof (refill_sound cap rate now b Hcap Hb) as Hs.
  destruct (sound_count _ _ _ Hs) as (Ht & _ & Hc). cbv zeta. split_and!.
  - rewrite <- (refill_last now b Hd). unfold try_acquire. by case_match.
  - split; [apply try_acquire_wf; [unfold is_u32 in *; lia|by destruct Hb]|].
    unfold try_acquire. case_match; by destruct Hs.
  - assert ((1 <= count (refill now b))%Q → ∃ v, rnd (count (refill now b) - 1) = F_fin v) as Hsub.
    { intros H1. destruct (rnd_le_int (count (refill now b) - 1) cap) as (v & Hv & _);
        [lra|lra|unfold is_u32 in *; lia|by exists v]. }
    unfold try_acquire. rewrite Ht. unfold f_ge, f_le.
    destruct (Qle_bool 1 _) eqn:E; cbn [fst snd].
    + apply Qle_bool_iff in E. destruct (Hsub E) as [v Hv]. split; [done|]. exists v.
      split; [done|]. unfold count at 1. cbn [tokens].
      change (f_sub (F_fin (count (refill now b))) (F_fin 1)) with (rnd (count (refill now b) - 1)).
      by rewrite Hv.
    + split; [|done]. apply Qnot_le_lt. intros Hle%Qle_bool_iff. by rewrite Hle in E.
Qed.

Lemma acquire_spends :
  ((if (try_acquire now b).1 then 1 else 0) + count (try_acquire now b).2 <=
   count b + inject_Z rate * seconds (since now (last_refill b)) + 16 * u * inject_Z cap)%Q.
Proof.
  pose proof (refill_at_most cap rate now b Hcap Hrate Hb Hd) as Hmost.
  pose proof (refill_sound cap rate now b Hcap Hb) as Hs.
  destruct (sound_count _ _ _ Hs) as (_ & H0 & Hc).
  destruct acquired as (_ & _ & Ha). destruct (try_acquire now b).1.
  - destruct Ha as (H1 & v & Hv & ->).
    assert (inject_Z cap <= inject_Z (2 ^ 200))%Q as Hbig.
    { rewrite <- Zle_Qle. unfold is_u32 in Hcap. lia. }
    destruct (rnd_near (count (refill now b) - 1)) as (v' & Hv' & Hn); [lra|lra|].
    rewrite Hv in Hv'. injection Hv' as <-. unfold near, u in *. lra.
  - destruct Ha as [_ ->]. unfold u in *. lra.
Qed.

Lemma acquire_keeps k :
  1 ≤ k ≤ cap → (inject_Z k <= count b)%Q →
  (try_acquire now b).1 = true ∧ (inject_Z (k - 1) <= count (try_acquire now b).2)%Q.
Proof.
  intros Hk Hkb. pose proof (refill_keeps cap rate now b Hcap Hrate Hb Hd k ltac:(lia) Hkb) as Hr.
  assert (inject_Z 1 <= inject_Z k)%Q as H1 by (rewrite <- Zle_Qle; lia).
  destruct acquired as (_ & _ & Ha). destruct (try_acquire now b).1.
  - destruct Ha as (_ & v & Hv & ->). split; [done|].
    pose proof (rnd_ge_int (count (refill now b) - 1) (k - 1)) as Hge. rewrite Hv in Hge.
    apply Hge; [unfold is_u32 in *; lia|].
    unfold Z.sub. rewrite inject_Z_plus. change (inject_Z (- (1))) with (- (1))%Q. lra.
  - change (inject_Z 1) with 1%Q in H1. lra.
Qed.

Lemma acquire_waited :
  1 ≤ cap → NANOS < since now (last_refill b) * rate → (try_acquire now b).1 = true.
Proof.
  intros Hc Hw. pose proof (refill_waited cap rate now b Hcap Hrate Hb Hd Hc Hw) as Hr.
  destruct acquired as (_ & _ & Ha). destruct (try_acquire now b).1; [done|]. lra.
Qed.
End acquire.

(** ** The requests of one client *)

(** What the clock reads *)
Definition instant (t : Z) : Prop := 0 ≤ t < 2 ^ 64 * NANOS.

Lemma since_duration a b : instant a → instant b → is_duration (since a b).
Proof. unfold instant, is_duration, since. lia. Qed.

Lemma seconds_add a b : (seconds a + seconds b == seconds (a + b))%Q.
Proof. unfold seconds. rewrite inject_Z_plus. field. done. Qed.

Lemma granted_cons ok oks : Spec.granted (ok :: oks) = (if ok then 1 else 0) + Spec.granted oks.
Proof. unfold Spec.granted. rewrite filter_cons. destruct ok; simpl; lia. Qed.

Definition latest (last : Z) (times : list Z) : Z := foldr Z.max last times.
Lemma latest_step last t times : latest (Z.max last t) times = Z.max t (latest last times).
Proof. induction times as [|x times IH]; simpl in *; lia. Qed.
Lemma latest_ge last times : last ≤ latest last times.
Proof. induction times; simpl; lia. Qed.
Lemma latest_app last t1 t2 : latest (latest last t1) t2 = latest last (t1 ++ t2).
Proof.
  induction t1 as [|x t1 IH]; simpl; [done|].
  unfold latest in *. rewrite Z.max_comm. fold (latest (Z.max (foldr Z.max last t1) x) t2).
  rewrite latest_step. unfold latest. by rewrite IH.
Qed.

Section run.
Context (cap rate : Z).
Hypotheses (Hcap : is_u32 cap) (Hrate : is_u32 rate).

Lemma run_bucket_app t1 t2 b :
  (run_bucket (t1 ++ t2) b).1 = (run_bucket t1 b).1 ++ (run_bucket t2 (run_bucket t1 b).2).1 .
Proof.
  revert b. induction t1 as [|t t1 IH]; intros b; [done|]. cbn [run_bucket app length].
  destruct (try_acquire t b) as [ok b']. specialize (IH b').
  destruct (run_bucket (t1 ++ t2) b'), (run_bucket t1 b') as [oks1 b1]. cbn in *. by rewrite IH.
Qed.
Lemma run_bucket_length times b : length (run_bucket times b).1 = length times.
Proof.
  revert b. induction times as [|t times IH]; intros b; [done|]. cbn [run_bucket app length].
  destruct (try_acquire t b) as [ok b']. specialize (IH b').
  destruct (run_bucket times b'). cbn in *. by rewrite IH.
Qed.

(** A run keeps the bucket sound and moves it to the latest instant. *)
Lemma run_sound times b :
  sound cap rate b → instant (last_refill b) → Forall instant times →
  sound cap rate (run_bucket times b).2 ∧
  last_refill (run_bucket times b).2 = latest (last_refill b) times ∧
  instant (last_refill (run_bucket times b).2).
Proof.
  intros Hb Hl Hts. revert b Hb Hl. induction Hts as [|t times Ht Hts IH]; intros b Hb Hl; [done|].
  cbn [run_bucket]. destruct (acquired cap rate t b Hcap Hb (since_duration _ _ Ht Hl)) as (Hlast & Hs & _).
  destruct (try_acquire t b) as [ok b'] eqn:Ha. cbn [snd] in *.
  specialize (IH b' Hs ltac:(rewrite Hlast; unfold instant in *; lia)).
  destruct (run_bucket times b') as [oks b'']. cbn [snd] in *.
  rewrite Hlast, latest_step in IH. exact IH.
Qed.

Lemma run_spends times b :
  sound cap rate b → instant (last_refill b) → Forall instant times →
  (inject_Z (Spec.granted (run_bucket times b).1) <=
   count b + inject_Z rate * seconds (latest (last_refill b) times - last_refill b)
   + inject_Z (Z.of_nat (length times)) * (16 * u * inject_Z cap))%Q.
Proof.
  intros Hb Hl Hts. revert b Hb Hl. induction Hts as [|t times Ht Hts IH]; intros b Hb Hl.
  - destruct (sound_count _ _ _ Hb) as (_ & H0 & _). simpl.
    change (inject_Z (Spec.granted [])) with 0%Q. change (inject_Z (Z.of_nat 0)) with 0%Q.
    rewrite Z.sub_diag. change (seconds 0) with (0 / inject_Z NANOS)%Q. unfold Qdiv. lra.
  - pose proof (since_duration _ _ Ht Hl) as Hd.
    destruct (acquired cap rate t b Hcap Hb Hd) as (Hlast & Hs & _).
    pose proof (acquire_spends cap rate t b Hcap Hrate Hb Hd) as Hsp.
    cbn [run_bucket]. destruct (try_acquire t b) as [ok b']. cbn [fst snd] in *.
    specialize (IH b' Hs ltac:(rewrite Hlast; unfold instant in *; lia)).
    destruct (run_bucket times b') as [oks b'']. cbn [fst snd] in *.
    rewrite granted_cons, inject_Z_plus. cbn [length].
    rewrite Nat2Z.inj_succ. unfold Z.succ. rewrite inject_Z_plus. change (inject_Z 1) with 1%Q.
    rewrite Hlast, latest_step in IH.
    change (latest (last_refill b) (t :: times)) with (Z.max t (latest (last_refill b) times)).
    pose proof (latest_ge (last_refill b) times) as Hge.
    assert (since t (last_refill b) + (Z.max t (latest (last_refill b) times) - Z.max (last_refill b) t)
      = Z.max t (latest (last_refill b) times) - last_refill b) as <- by (unfold since; lia).
    rewrite <- seconds_add. destruct ok; change (inject_Z 1) with 1%Q in *; change (inject_Z 0) with 0%Q in *; lra.
Qed.

(** The burst is there. *)
Lemma run_burst times b k :
  sound cap rate b → instant (last_refill b) → Forall instant times →
  Z.of_nat k ≤ cap → (inject_Z (Z.of_nat k) <= count b)%Q →
  Forall (λ ok, ok = true) (take k (run_bucket times b).1).
Proof.
  intros Hb Hl Hts. revert b k Hb Hl. induction Hts as [|t times Ht Hts IH]; intros b k Hb Hl Hk Hc;
    [by destruct k|].
  destruct k as [|k]; [constructor|]. pose proof (since_duration _ _ Ht Hl) as Hd.
  destruct (acquired cap rate t b Hcap Hb Hd) as (Hlast & Hs & _).
  destruct (acquire_keeps cap rate t b Hcap Hrate Hb Hd (Z.of_nat (S k)) ltac:(lia) Hc) as [Hok Hc'].
  cbn [run_bucket]. destruct (try_acquire t b) as [ok b']. cbn [fst snd] in *. subst ok.
  replace (Z.of_nat (S k) - 1) with (Z.of_nat k) in Hc' by lia.
  specialize (IH b' k Hs ltac:(rewrite Hlast; unfold instant in *; lia) ltac:(lia) Hc').
  destruct (run_bucket times b') as [oks b'']. simpl. by constructor.
Qed.

(** After a pause the next request is served. *)
Lemma run_waited t1 t t2 b :
  sound cap rate b → instant (last_refill b) → Forall instant (t1 ++ t :: t2) → 1 ≤ cap →
  NANOS < (t - latest (last_refill b) t1) * rate →
  (run_bucket (t1 ++ t :: t2) b).1 !! length t1 = Some true.
Proof.
  intros Hb Hl [Ht1 [Ht _]%Forall_cons]%Forall_app Hc Hlong.
  destruct (run_sound t1 b Hb Hl Ht1) as (Hs & Hlast & Hi).
  assert (0 < t - latest (last_refill b) t1) as Hpos.
  { apply Z.nle_gt. intros Hle. assert (0 < NANOS) by done. unfold is_u32 in *.
    pose proof (Z.mul_nonpos_nonneg _ rate Hle). lia. }
  pose proof (acquire_waited cap rate t _ Hcap Hrate Hs (since_duration _ _ Ht Hi) Hc) as Hw.
  rewrite Hlast in Hw. unfold since in Hw. rewrite Z.max_r in Hw by lia. specialize (Hw Hlong).
  rewrite run_bucket_app, lookup_app_r; rewrite run_bucket_length; [|done].
  rewrite Nat.sub_diag. cbn [run_bucket].
  destruct (try_acquire t _) as [ok b']. destruct (run_bucket t2 b'). cbn [fst] in *. by subst ok.
Qed.
End run.

(** ** The limiter *)

(** A call of [check]: the clock, read before the lock is taken; the clock, read again if
    the client has no bucket yet; the client *)
Record Ask := { a_now : Z; a_created : Z; a_key : string }.

(** The calls, one after the other, with their answers *)
Fixpoint checks (asks : list Ask) (rl : RateLimiter) : list (Ask * bool) :=
  match asks with
  | [] => []
  | a :: asks =>
      let answer := check (a_now a) (a_created a) (a_key a) rl in
      (a, answer.1) :: checks asks answer.2
  end.

Definition of_client (k : string) (h : list (Ask * bool)) : list (Ask * bool) :=
  filter (λ x, a_key x.1 = k) h.
Definition times_of (h : list (Ask * bool)) : list Z := (λ x, a_now x.1) <$> h.
(** When the client came first, and when last *)
Definition first_at (h : list (Ask * bool)) : Z := if h is x :: _ then a_created x.1 else 0.
Definition last_at (h : list (Ask * bool)) : Z := latest (first_at h) (times_of h).

(** A client's answers are those of its bucket alone. *)
Lemma checks_bucket k asks rl :
  rl_enabled (rate_config rl) = true →
  let mine := of_client k (checks asks rl) in
  let fresh := TokenBucket_new (f_of_Z (burst_size (rate_config rl)))
                 (f_of_Z (requests_per_second (rate_config rl))) (first_at mine) in
  mine.*2 = (run_bucket (times_of mine) (default fresh (buckets rl !! k))).1.
Proof.
  cbv zeta. revert rl. induction asks as [|a asks IH]; intros rl Hon; [done|].
  cbn [checks]. set (answer := check _ _ _ rl).
  assert (rate_config answer.2 = rate_config rl) as Hcfg.
  { unfold answer, check. rewrite Hon. cbn [negb]. cbv zeta. by destruct (try_acquire _ _). }
  specialize (IH answer.2). rewrite Hcfg in IH. specialize (IH Hon).
  unfold of_client in *. rewrite filter_cons. cbn [fst]. destruct (decide (a_key a = k)) as [<-|Hk].
  - cbn [times_of fmap list_fmap first_at fst snd run_bucket].
    set (b := default _ (buckets rl !! a_key a)).
    assert (answer.1 = (try_acquire (a_now a) b).1 ∧
            buckets answer.2 !! a_key a = Some (try_acquire (a_now a) b).2) as [Hok Hb].
    { unfold answer, check. rewrite Hon. cbn [negb]. cbv zeta.
      fold b. destruct (try_acquire (a_now a) b) as [ok b']. split; [done|apply lookup_insert_eq]. }
    rewrite Hb in IH. cbn [from_option id] in IH. destruct (try_acquire (a_now a) b) as [ok b'].
    cbn [fst snd] in *. fold (times_of (filter (λ x, a_key x.1 = a_key a) (checks asks answer.2))).
    destruct (run_bucket _ b') as [oks b'']. cbn [fst] in *.
    by f_equal.
  - rewrite IH. do 3 f_equal. unfold answer, check. rewrite Hon. cbn [negb]. cbv zeta.
    destruct (try_acquire _ _) as [ok b']. cbn [snd buckets]. by rewrite lookup_insert_ne.
Qed.

Lemma checks_asks asks rl : (checks asks rl).*1 = asks.
Proof. revert rl. induction asks as [|a asks IH]; intros rl; [done|]. cbn. by rewrite IH. Qed.

(** What a client gets: at most the burst and the rate; the burst, at any time; and one after
    each pause *)
Definition honoured (c : RateLimitConfig) (mine : list (Ask * bool)) : Prop :=
  (burst_size c * Z.of_nat (length mine) ≤ 2 ^ 49 →
     Spec.granted mine.*2 ≤
       burst_size c + requests_per_second c * (last_at mine - first_at mine) / NANOS + 1) ∧
  Forall (λ ok, ok = true) (take (Z.to_nat (burst_size c)) mine.*2) ∧
  (∀ before x after, mine = before ++ x :: after → 1 ≤ burst_size c → before ≠ [] →
     NANOS < (a_now x.1 - last_at before) * requests_per_second c → x.2 = true).

Section promises.
Context (c : RateLimitConfig) (asks : list Ask) (k : string).
Hypotheses (Hcap : is_u32 (burst_size c)) (Hrate : is_u32 (requests_per_second c)).
Hypothesis (Hon : rl_enabled c = true).
Hypothesis (Hclock : Forall (λ a, instant (a_now a) ∧ instant (a_created a)) asks).
Let mine := of_client k (checks asks (RateLimiter_new c)).
Let fresh := TokenBucket_new (f_of_Z (burst_size c)) (f_of_Z (requests_per_second c)) (first_at mine).

Lemma mine_run : mine.*2 = (run_bucket (times_of mine) fresh).1.
Proof. unfold mine. by rewrite (checks_bucket k asks (RateLimiter_new c) Hon). Qed.
Lemma mine_clock : Forall (λ x, instant (a_now x.1) ∧ instant (a_created x.1)) mine.
Proof.
  apply Forall_forall. intros x Hx. unfold mine, of_client in Hx.
  apply list_elem_of_filter in Hx as [_ Hx]. apply (list_elem_of_fmap_2 fst) in Hx.
  rewrite checks_asks in Hx. rewrite Forall_forall in Hclock. by apply Hclock.
Qed.
Lemma mine_times : Forall instant (times_of mine).
Proof. apply Forall_fmap. eapply Forall_impl; [apply mine_clock|]. by intros x []. Qed.
Lemma fresh_sound :
  sound (burst_size c) (requests_per_second c) fresh ∧ instant (last_refill fresh) ∧
  count fresh = inject_Z (burst_size c).
Proof.
  split_and!; [by apply sound_new| |].
  - change (last_refill fresh) with (first_at mine).
    pose proof mine_clock as Hm. destruct mine as [|x l]; [done|].
    by apply Forall_cons in Hm as [[_ ?] _].
  - unfold count, fresh. cbn [tokens TokenBucket_new].
    by rewrite f_of_Z_exact by (unfold is_u32 in *; lia).
Qed.

(** At most the burst and the rate *)
Lemma quota :
  burst_size c * Z.of_nat (length mine) ≤ 2 ^ 49 →
  Spec.granted mine.*2 ≤
    burst_size c + requests_per_second c * (last_at mine - first_at mine) / NANOS + 1.
Proof.
  intros Hn. destruct fresh_sound as (Hs & Hl & Hc).
  pose proof (run_spends _ _ Hcap Hrate _ _ Hs Hl mine_times) as Hspent.
  rewrite <- mine_run, Hc in Hspent. change (last_refill fresh) with (first_at mine) in Hspent.
  fold (last_at mine) in Hspent. unfold times_of in Hspent. rewrite length_fmap in Hspent.
  set (d := last_at mine - first_at mine) in *. set (G := Spec.granted mine.*2) in *.
  set (q := requests_per_second c * d) in *.
  assert (inject_Z (requests_per_second c) * seconds d < inject_Z (q / NANOS) + 1)%Q as Hfloor.
  { unfold seconds, Qdiv. rewrite Qmult_assoc, <- inject_Z_mult. fold q. apply Qlt_shift_div_r; [done|].
    change 1%Q with (inject_Z 1). rewrite <- inject_Z_plus, <- inject_Z_mult, <- Zlt_Qlt.
    pose proof (Z.mul_succ_div_gt q NANOS ltac:(done)). lia. }
  assert (inject_Z (Z.of_nat (length mine)) * (16 * u * inject_Z (burst_size c)) <= 1)%Q as Herr.
  { assert (inject_Z (burst_size c * Z.of_nat (length mine)) <= inject_Z (2 ^ 49))%Q as Hn'
      by by rewrite <- Zle_Qle.
    rewrite inject_Z_mult in Hn'. change (inject_Z (2 ^ 49)) with (562949953421312 # 1)%Q in Hn'.
    unfold u. lra. }
  enough (inject_Z G < inject_Z (burst_size c + q / NANOS + 2))%Q as Hlt.
  { rewrite <- Zlt_Qlt in Hlt. lia. }
  rewrite !inject_Z_plus. change (inject_Z 2) with 2%Q. lra.
Qed.

(** The burst, at any time *)
Lemma burst_granted : Forall (λ ok, ok = true) (take (Z.to_nat (burst_size c)) mine.*2).
Proof.
  destruct fresh_sound as (Hs & Hl & Hc). rewrite mine_run.
  apply (run_burst (burst_size c) (requests_per_second c)); try done; [apply mine_times|..].
  - unfold is_u32 in *. lia.
  - rewrite Hc, <- Zle_Qle. unfold is_u32 in *. lia.
Qed.

(** And one after each pause *)
Lemma pause_granted before x after :
  mine = before ++ x :: after → 1 ≤ burst_size c → before ≠ [] →
  NANOS < (a_now x.1 - last_at before) * requests_per_second c → x.2 = true.
Proof.
  intros Hm Hc Hne Hlong. destruct fresh_sound as (Hs & Hl & _).
  pose proof mine_run as Hrun. pose proof mine_times as Ht.
  assert (last_refill fresh = first_at before) as Hf.
  { change (last_refill fresh) with (first_at mine). rewrite Hm. by destruct before. }
  rewrite Hm in Hrun, Ht. unfold times_of in Hrun, Ht. rewrite !fmap_app, !fmap_cons in Hrun.
  rewrite fmap_app, fmap_cons in Ht.
  pose proof (run_waited _ _ Hcap Hrate _ _ _ _ Hs Hl Ht Hc) as Hw. rewrite Hf in Hw.
  specialize (Hw Hlong). rewrite <- Hrun, lookup_app_r in Hw; rewrite !length_fmap in *; [|done].
  rewrite Nat.sub_diag in Hw. by injection Hw.
Qed.
Lemma promises_kept : honoured c mine.
Proof. split_and!; [exact quota|exact burst_granted|exact pause_granted]. Qed.
End promises.

(** What the limiter promises, to the server and to its clients.  Calls for any clients
    come in any order, the clock is read in any order with them, at any nanosecond, and the
    arithmetic rounds.  Then of the requests of a client at most [burst_size] and
    [requests_per_second] for each second from its first to its latest one are granted, and
    one more for the roundings, as long as they are fewer than [2 ^ 49 / burst_size]; its
    first [burst_size] requests are granted, however fast they come; and so is each
    that comes more than the time of one token after those before it, whatever the other
    clients do. *)
Theorem limiter_promises c asks k :
  is_u32 (burst_size c) → is_u32 (requests_per_second c) → rl_enabled c = true →
  Forall (λ a, instant (a_now a) ∧ instant (a_created a)) asks →
  honoured c (of_client k (checks asks (RateLimiter_new c))).
Proof. intros Hc Hr Hon Hclock. by apply promises_kept. Qed.

(** Two clients: of the five requests of one, in the first two thirds of a second, the two
    of the burst are granted, and the one that comes a third of a second later. *)
Module Example.
Definition c : RateLimitConfig := {| rl_enabled := true; requests_per_second := 3; burst_size := 2 |}.
Definition ask (ns : Z) (k : string) : Ask := {| a_now := ns; a_created := ns + 5; a_key := k |}.
Definition asks : list Ask :=
  [ask 100 "a"; ask 333333333 "a"; ask 333333334 "b"; ask 333333335 "a"; ask 333333335 "a"; ask 666666666 "a"].
End Example.

Lemma limiter_promises_witness :
  (of_client "a" (checks Example.asks (RateLimiter_new Example.c))).*2 = [true; true; false; false; true] ∧
  Spec.granted (of_client "a" (checks Example.asks (RateLimiter_new Example.c))).*2 ≤ 2 + 1 + 1.
Proof.
  split; [vm_compute; reflexivity|].
  destruct (limiter_promises Example.c Example.asks "a") as [Hq _];
    [by vm_compute|by vm_compute|done|by repeat constructor|].
  etrans; [apply Hq; vm_compute; discriminate|vm_compute; discriminate].
Defined.
