(* ===== verification/Rbac.v ===== *)
(** * Rbac: who may do what ([src/rbac.rs] and the middleware of [src/main.rs])

    [resolve] turns a bearer token into a [RequestContext]; [auth_middleware] is the
    gate in front of every HTTP handler. *)
From S2P Require Import Prelude Text Env Config.
Open Scope string_scope.
Open Scope list_scope.

Record RequestContext := {
  client_id : option string;
  ctx_allowed : option (list string);   (** the field [allowed_servers] *)
}.

#[export] Instance RequestContext_eq_dec : EqDecision RequestContext.
Proof. solve_decision. Defined.

Definition anonymous : RequestContext := {| client_id := None; ctx_allowed := None |}.
Definition admin : RequestContext := {| client_id := Some "admin"; ctx_allowed := None |}.

Definition allows_alias (ctx : RequestContext) (a : string) : bool :=
  if decide (a = "federation") then true
  else match ctx_allowed ctx with
       | None => true
       | Some l => existsb (λ s, bool_decide (s = "*") || bool_decide (s = a)) l
       end.

Definition client_label (ctx : RequestContext) : string :=
  default "anonymous" (client_id ctx).

Definition client_context (idx : nat) (c : ClientConfig) : RequestContext :=
  {| client_id := Some ("client-" +:+ fmt_nat idx);
     ctx_allowed := if existsb (λ s, bool_decide (s = "*")) (allowed_servers c)
                    then None else Some (allowed_servers c) |}.

Fixpoint resolve_clients (presented : string) (idx : nat) (l : list ClientConfig)
  : option RequestContext :=
  match l with
  | [] => None
  | c :: l => if decide (token c = presented) then Some (client_context idx c)
              else resolve_clients presented (S idx) l
  end.

Definition resolve (presented admin_token : string) (clients : list ClientConfig)
  : option RequestContext :=
  if decide (presented = admin_token) then Some admin
  else resolve_clients presented 0 clients.

(** ** The middleware *)
Record AuthState := {
  as_token : option string;
  as_token_file : option string;
  as_clients : list ClientConfig;
}.

Definition resolve_token `{!Os} (t : Z) (auth : AuthState) : option string :=
  match as_token auth with
  | Some tok => Some tok
  | None =>
      match as_token_file auth with
      | Some path => match read_file t path with
                     | Ok contents => Some (trim contents)
                     | Err _ => None
                     end
      | None => None
      end
  end.

(** A request as the middleware sees it: its path and its [Authorization] header *)
Record HttpIn := { in_path : string; in_authorization : option string }.

(** The outcome: refuse with 401, or run the handler with the context attached *)
Inductive gate : Type :=
| Unauthorized
| Forward (ctx : option RequestContext).

Definition skip_auth (path : string) : bool :=
  bool_decide (path = "/healthz") || bool_decide (path = "/metrics") ||
  bool_decide (path = "/status") || starts_with "/swagger-ui" path ||
  bool_decide (path = "/openapi.json").

Definition auth_middleware `{!Os} (t : Z) (auth : AuthState) (rq : HttpIn) : gate :=
  let skip := skip_auth (in_path rq) in
  match resolve_token t auth with
  | None => Forward (if skip then None else Some anonymous)
  | Some admin_token =>
      if skip then Forward None
      else
        let presented := in_authorization rq ≫= strip_prefix "Bearer " in
        match presented ≫= (λ tok, resolve tok admin_token (as_clients auth)) with
        | Some c => Forward (Some c)
        | None => Unauthorized
        end
  end.

(** ** Properties *)

Lemma existsb_star (a : string) l :
  existsb (λ s, bool_decide (s = "*") || bool_decide (s = a)) l = true ↔ "*" ∈ l ∨ a ∈ l.
Proof.
  induction l as [|x l IH]; simpl; [set_solver|].
  rewrite !orb_true_iff, !bool_decide_eq_true, IH, !elem_of_cons. naive_solver.
Qed.
Lemma existsb_eq (a : string) l : existsb (λ s, bool_decide (s = a)) l = true ↔ a ∈ l.
Proof.
  induction l as [|x l IH]; simpl; [set_solver|].
  rewrite orb_true_iff, bool_decide_eq_true, IH, elem_of_cons. naive_solver.
Qed.

Lemma allows_alias_iff ctx a :
  allows_alias ctx a = true ↔
  a = "federation" ∨ ctx_allowed ctx = None ∨
  ∃ l, ctx_allowed ctx = Some l ∧ ("*" ∈ l ∨ a ∈ l).
Proof.
  unfold allows_alias. case_decide; [naive_solver|].
  destruct (ctx_allowed ctx) as [l|]; [rewrite existsb_star|]; naive_solver.
Qed.

Lemma resolve_clients_Some p n l ctx :
  resolve_clients p n l = Some ctx ↔
  ∃ i c, l !! i = Some c ∧ token c = p ∧ ctx = client_context (n + i) c ∧
    ∀ j c', (j < i)%nat → l !! j = Some c' → token c' ≠ p.
Proof.
  revert n. induction l as [|c l IH]; intros n; simpl; [naive_solver|].
  case_decide as Hc.
  - split.
    + intros [= <-]. exists 0%nat, c. rewrite Nat.add_0_r. repeat split; try done. lia.
    + intros ([|i] & c' & Hl & Ht & -> & Hmin); simpl in *.
      * by simplify_eq; rewrite Nat.add_0_r.
      * exfalso. by eapply (Hmin 0%nat c); [lia|done|].
  - rewrite IH. split.
    + intros (i & c' & Hl & Ht & -> & Hmin). exists (S i), c'. split_and!; try done.
      * by rewrite Nat.add_succ_r.
      * intros [|j] c'' Hj Hl'; simpl in *; [naive_solver|]. eapply Hmin; [|done]. lia.
    + intros ([|i] & c' & Hl & Ht & -> & Hmin); simpl in *; [naive_solver|].
      exists i, c'. split_and!; try done.
      * by rewrite Nat.add_succ_r.
      * intros j c'' Hj Hl'. by eapply (Hmin (S j)); [lia|].
Qed.

Lemma resolve_clients_None p n l :
  resolve_clients p n l = None ↔ Forall (λ c, token c ≠ p) l.
Proof.
  revert n. induction l as [|c l IH]; intros n; simpl; [split; auto|].
  rewrite Forall_cons, <- (IH (S n)). case_decide; naive_solver.
Qed.

(** What a bearer token grants: nothing when it is neither the admin token nor
    a client's; otherwise exactly the federation's own tools, plus every alias for
    the admin token, plus, for a client token, the aliases of the first entry with
    that token (all of them when that entry lists ["*"]). *)
Theorem resolve_grants presented admin_token clients a :
  match resolve presented admin_token clients with
  | None => presented ≠ admin_token ∧ Forall (λ c, token c ≠ presented) clients
  | Some ctx =>
      allows_alias ctx a = true ↔
      a = "federation" ∨ presented = admin_token ∨
      ∃ i c, clients !! i = Some c ∧ token c = presented ∧
        (∀ j c', (j < i)%nat → clients !! j = Some c' → token c' ≠ presented) ∧
        ("*" ∈ allowed_servers c ∨ a ∈ allowed_servers c)
  end.
Proof.
  unfold resolve. case_decide as Hadm; [subst; rewrite allows_alias_iff; naive_solver|].
  destruct (resolve_clients presented 0 clients) as [ctx|] eqn:E;
    [|split; [done|by eapply resolve_clients_None]].
  apply resolve_clients_Some in E as (i & c & Hl & Ht & -> & Hmin).
  rewrite allows_alias_iff. unfold client_context. simpl.
  destruct (existsb _ _) eqn:Estar.
  - apply existsb_eq in Estar. split; [|naive_solver].
    intros _. right. right. exists i, c. naive_solver.
  - split.
    + intros [?|[?|(l & [= <-] & Hin)]]; [naive_solver..|]. right. right. exists i, c. naive_solver.
    + intros [?|[?|(i' & c' & Hl' & Ht' & Hmin' & Hin)]]; [naive_solver..|].
      assert (i = i') as <-.
      { destruct (Nat.lt_trichotomy i i') as [Hlt|[->|Hlt]]; [|done|]; exfalso.
        - by eapply Hmin'.
        - by eapply Hmin. }
      naive_solver.
Qed.

Lemma client_label_context i c : client_label (client_context i c) = "client-" +:+ fmt_nat i.
Proof. done. Qed.

(** The rate limiter's keys tell identities apart: requests admitted under the
    admin token, under two different client entries, or without authentication never
    share a label, so never share a bucket. *)
Theorem labels_distinct :
  client_label admin ≠ client_label anonymous ∧
  (∀ i c, client_label (client_context i c) ≠ client_label admin ∧
          client_label (client_context i c) ≠ client_label anonymous) ∧
  (∀ i j c c', client_label (client_context i c) = client_label (client_context j c') → i = j).
Proof.
  split; [done|]. split; [done|]. intros i j c c'. rewrite !client_label_context.
  intros Heq%str_app_inv_l. unfold fmt_nat in Heq. apply (inj pretty) in Heq. lia.
Qed.

Section middleware.
Context `{O : !Os}.

(** When the server has a token, a request to a guarded path runs only if it
    presents [Bearer <t>] for a recognised [t], with exactly the context of [t];
    anything else is refused. *)
Theorem auth_enforced t auth rq admin_token :
  resolve_token t auth = Some admin_token → skip_auth (in_path rq) = false →
  match auth_middleware t auth rq with
  | Forward ctx =>
      ∃ tok c, in_authorization rq = Some ("Bearer " +:+ tok) ∧
        resolve tok admin_token (as_clients auth) = Some c ∧ ctx = Some c
  | Unauthorized =>
      ∀ tok, in_authorization rq = Some ("Bearer " +:+ tok) →
        tok ≠ admin_token ∧ Forall (λ c, token c ≠ tok) (as_clients auth)
  end.
Proof.
  intros Htok Hskip. unfold auth_middleware. rewrite Htok, Hskip.
  generalize "Bearer ". intros bearer.
  destruct (in_authorization rq) as [h|] eqn:Eh; simpl; [|done].
  destruct (strip_prefix bearer h) as [tok|] eqn:Ep; simpl.
  - apply strip_prefix_Some in Ep as ->.
    destruct (resolve tok admin_token (as_clients auth)) as [c|] eqn:Er; [eauto|].
    intros tok' [= <-%str_app_inv_l]. unfold resolve in Er. case_decide; [done|].
    split; [done|]. by eapply resolve_clients_None.
  - intros tok [= ->]. by rewrite strip_prefix_app in Ep.
Qed.

(** Without a token to enforce, the per-client entries count for nothing:
    every request runs as the anonymous caller, who may use every leaf.  This is
    the case also when the token file is configured but cannot be read. *)
Theorem auth_fails_open t auth rq a :
  as_token auth = None →
  (∀ path, as_token_file auth = Some path → is_ok (read_file t path) = false) →
  skip_auth (in_path rq) = false →
  auth_middleware t auth rq = Forward (Some anonymous) ∧ allows_alias anonymous a = true.
Proof.
  intros Htok Hfile Hskip. unfold auth_middleware, resolve_token. rewrite Htok, Hskip.
  split; [|by apply allows_alias_iff; right; left].
  destruct (as_token_file auth) as [path|]; [|done].
  specialize (Hfile path eq_refl). by destruct (read_file t path).
Qed.
End middleware.

(** ** Witnesses *)
Definition example_os : Os :=
  {| env_var := λ _, None; read_file := λ _ _, Err "No such file or directory";
     read_bytes := λ _ _, Err "No such file or directory";
     system_time := λ t, t; uuid := λ n, "uuid-" +:+ fmt_nat n |}.

#[local] Existing Instance example_os.

Definition example_clients : list ClientConfig :=
  [ {| token := "team-a"; allowed_servers := ["prod"] |};
    {| token := "ops"; allowed_servers := ["*"] |} ].

Lemma auth_enforced_witness :
  auth_middleware 0
    {| as_token := Some "root"; as_token_file := None; as_clients := example_clients |}
    {| in_path := "/mcp"; in_authorization := Some "Bearer nobody" |} = Unauthorized ∧
  "nobody" ≠ "root".
Proof.
  pose proof (auth_enforced 0
    {| as_token := Some "root"; as_token_file := None; as_clients := example_clients |}
    {| in_path := "/mcp"; in_authorization := Some "Bearer nobody" |} "root"
    eq_refl eq_refl) as H.
  vm_compute in H. split; [reflexivity|]. exact (proj1 (H "nobody" eq_refl)).
Defined.

Lemma auth_fails_open_witness :
  auth_middleware 0
    {| as_token := None; as_token_file := Some "/run/token"; as_clients := example_clients |}
    {| in_path := "/mcp"; in_authorization := None |} = Forward (Some anonymous).
Proof.
  apply (auth_fails_open 0 _ _ "prod"); [reflexivity| |reflexivity].
  intros path _. reflexivity.
Defined.
