(* ===== verification/Session.v ===== *)
(** * Session: Streamable HTTP sessions ([src/session.rs])

    A session id is a signed JWT; the manager keeps a table of live sessions keyed
    by the id.  The lock makes each operation atomic: an operation is a function of
    the manager and of the instants at which it reads the clocks ([t0] for the wall
    clock, [t] for the monotonic one).

    [Jwt] and [Base64] are the libraries the module calls.  [JwtLaws] is the part of
    [jsonwebtoken]'s documented behaviour the theorems use: a token decodes under the
    key that signed it when its issuer is accepted and it has not expired, and an
    expired one does not. *)
From S2P Require Import Prelude Text Json F64 Env.
Open Scope string_scope.
Open Scope Z_scope.

Definition JWT_ISSUER : string := "mcp-federation".

Record SessionState := {
  created_at : Z;
  last_active : Z;
  client_info : option Value;
  log_level : option string;
}.

Record SessionClaims := {
  sub : string;
  iss : string;
  iat : Z;
  exp : Z;
  claims_info : option Value;    (** the field [client_info] *)
}.

Class Base64 : Type := { b64_decode : string → result string string }.

Class Jwt : Type := {
  (** [encode] with HS256 and a key *)
  jwt_encode : string → SessionClaims → string;
  (** [decode] with a key, accepted issuers, leeway and current Unix time *)
  jwt_decode : string → list string → Z → Z → string → result string SessionClaims;
}.

Record SessionManager := {
  ttl : Z;
  sessions : gmap string SessionState;
  hmac_key : string;             (** [encoding_key] and [decoding_key] *)
}.

(** [random] is what [random_key] generates. *)
Definition SessionManager_new `{!Base64} (ttl_seconds : Z) (secret : option string)
    (random : string) : SessionManager :=
  let key_bytes :=
    match secret with
    | Some b64 => match b64_decode b64 with
                  | Ok bytes => if is_empty bytes then random else bytes
                  | Err _ => random
                  end
    | None => random
    end in
  {| ttl := from_secs ttl_seconds; sessions := ∅; hmac_key := key_bytes |}.

Definition with_sessions (f : gmap string SessionState → gmap string SessionState)
    (m : SessionManager) : SessionManager :=
  {| ttl := ttl m; sessions := f (sessions m); hmac_key := hmac_key m |}.

Section operations.
Context `{!Os, !Jwt}.

(** [sub] is a fresh UUID; the addition wraps at 64 bits. *)
Definition new_claims (t0 : Z) (sub : string) (info : option Value) (m : SessionManager)
  : SessionClaims :=
  let now_secs := unix_now t0 in
  {| sub := sub; iss := JWT_ISSUER; iat := now_secs;
     exp := (now_secs + as_secs (ttl m)) mod 2 ^ 64; claims_info := info |}.

Definition create_session (t0 t : Z) (sub : string) (info : option Value)
    (m : SessionManager) : string * SessionManager :=
  let jwt := jwt_encode (hmac_key m) (new_claims t0 sub info m) in
  let state := {| created_at := t; last_active := t; client_info := info;
                  log_level := None |} in
  (jwt, with_sessions <[jwt := state]> m).

Definition decode_claims (t0 : Z) (id : string) (m : SessionManager)
  : result string SessionClaims :=
  jwt_decode (hmac_key m) [JWT_ISSUER] 5 (unix_now t0) id.

Definition validate_session (t0 t : Z) (id : string) (m : SessionManager) : bool :=
  match decode_claims t0 id m with
  | Err _ => false
  | Ok _ => match sessions m !! id with
            | Some s => since t (last_active s) <? ttl m
            | None => false
            end
  end.
End operations.

Definition touch_session (t : Z) (id : string) (m : SessionManager) : SessionManager :=
  with_sessions (alter (λ s, {| created_at := created_at s; last_active := t;
                                client_info := client_info s; log_level := log_level s |}) id) m.

Definition terminate_session (id : string) (m : SessionManager) : bool * SessionManager :=
  (bool_decide (is_Some (sessions m !! id)), with_sessions (delete id) m).

Definition set_log_level (id level : string) (m : SessionManager) : bool * SessionManager :=
  match sessions m !! id with
  | Some s => (true, with_sessions <[id := {| created_at := created_at s;
                 last_active := last_active s; client_info := client_info s;
                 log_level := Some level |}]> m)
  | None => (false, m)
  end.

Definition get_log_level (id : string) (m : SessionManager) : option string :=
  sessions m !! id ≫= log_level.

(** [retain] *)
Definition prune_expired (t : Z) (m : SessionManager) : nat * SessionManager :=
  let kept := filter (λ ks, since t (last_active ks.2) < ttl m) (sessions m) in
  ((size (sessions m) - size kept)%nat, with_sessions (λ _, kept) m).

Definition active_count (m : SessionManager) : nat := size (sessions m).

(** One turn of the background task: it ends when the manager has been dropped. *)
Definition prune_tick (t : Z) (upgraded : option SessionManager) : option SessionManager :=
  m ← upgraded; Some (prune_expired t m).2.

(** ** Properties *)
Class JwtLaws `{!Jwt} : Prop := {
  jwt_accepts key issuers leeway now c :
    iss c ∈ issuers → now - leeway ≤ exp c →
    jwt_decode key issuers leeway now (jwt_encode key c) = Ok c;
  jwt_rejects_expired key issuers leeway now c :
    exp c < now - leeway →
    is_ok (jwt_decode key issuers leeway now (jwt_encode key c)) = false;
}.

Section properties.
Context `{!Os, !Jwt, !JwtLaws}.

Lemma session_valid_iff t0 t id m :
  validate_session t0 t id m = true ↔
  is_ok (decode_claims t0 id m) = true ∧
  ∃ s, sessions m !! id = Some s ∧ since t (last_active s) < ttl m.
Proof.
  unfold validate_session. destruct (decode_claims t0 id m); simpl; [|naive_solver].
  destruct (sessions m !! id) as [s|]; [rewrite Z.ltb_lt|]; naive_solver.
Qed.

Lemma created_session_valid t0 t t0' t' u info m :
  let '(id, m') := create_session t0 t u info m in
  since t' t < ttl m →
  unix_now t0' - 5 ≤ (unix_now t0 + as_secs (ttl m)) mod 2 ^ 64 →
  validate_session t0' t' id m' = true ∧ get_log_level id m' = None ∧
  decode_claims t0' id m' = Ok (new_claims t0 u info m).
Proof.
  simpl. intros Ht Hexp.
  assert (Hdec : decode_claims t0' (jwt_encode (hmac_key m) (new_claims t0 u info m))
            (create_session t0 t u info m).2 = Ok (new_claims t0 u info m)).
  { apply jwt_accepts; [by apply list_elem_of_singleton|done]. }
  split_and!; [|by unfold get_log_level; simpl; rewrite lookup_insert_eq|done].
  apply session_valid_iff. split; [by unfold create_session in Hdec; simpl in Hdec; rewrite Hdec|].
  eexists. simpl. by rewrite lookup_insert_eq.
Qed.

Lemma terminated_session_refused t0 t id m :
  validate_session t0 t id (terminate_session id m).2 = false.
Proof.
  apply not_true_iff_false. rewrite session_valid_iff. simpl. rewrite lookup_delete_eq. naive_solver.
Qed.

(** A session lives: the id returned by [create_session] is accepted as long as
    less than [ttl] has passed on the monotonic clock since it was created and the
    wall clock is not past the token's expiry by more than the leeway; its log level
    starts unset. *)
Theorem create_then_valid t0 t t0' t' u info m :
  let '(id, m') := create_session t0 t u info m in
  since t' t < ttl m →
  unix_now t0' - 5 ≤ (unix_now t0 + as_secs (ttl m)) mod 2 ^ 64 →
  validate_session t0' t' id m' = true ∧ get_log_level id m' = None ∧
  decode_claims t0' id m' = Ok (new_claims t0 u info m).
Proof. apply created_session_valid. Qed.

(** Terminating removes: the id is refused from then on, a second termination
    finds nothing, and no other session is affected. *)
Theorem terminate_removes t0 t id m :
  let '(found, m') := terminate_session id m in
  (found = true ↔ is_Some (sessions m !! id)) ∧
  validate_session t0 t id m' = false ∧
  (terminate_session id m').1 = false ∧
  (∀ id', id' ≠ id → validate_session t0 t id' m' = validate_session t0 t id' m).
Proof.
  simpl. split_and!.
  - apply bool_decide_eq_true.
  - apply terminated_session_refused.
  - rewrite lookup_delete_eq. by apply bool_decide_eq_false; intros [??].
  - intros id' Hne. unfold validate_session, decode_claims. simpl. by rewrite lookup_delete_ne.
Qed.

Lemma set_get_log_level id level m :
  (set_log_level id level m).1 = true →
  get_log_level id (set_log_level id level m).2 = Some level.
Proof.
  unfold set_log_level, get_log_level. destruct (sessions m !! id); [|done].
  simpl. by rewrite lookup_insert_eq.
Qed.
End properties.

(** ** A signing scheme that satisfies the laws, and witnesses

    The token is the pair of the key and the claims as data; decoding recovers the
    pair and applies the checks. *)
Module Example.
Import Json.Example.

Definition pack (key : string) (c : SessionClaims) :=
  (key, sub c, iss c, iat c, exp c, claims_info c).

Definition jwt : Jwt :=
  {| jwt_encode := λ key c, bits (encode (pack key c));
     jwt_decode := λ key issuers leeway now id,
       match (p ← unbits id; decode p) with
       | Some (key', s, i, a, e, o) =>
           let c := {| sub := s; iss := i; iat := a; exp := e; claims_info := o |} in
           if decide (key' = key ∧ i ∈ issuers ∧ now - leeway ≤ e) then Ok c
           else Err "InvalidToken"
       | None => Err "InvalidToken"
       end |}.

Lemma jwt_laws : JwtLaws (H := jwt).
Proof.
  split; intros key issuers leeway now [s i a e o]; simpl;
    rewrite unbits_bits; simpl; rewrite decode_encode; simpl; intros; case_decide; naive_solver lia.
Qed.

Definition os : Os :=
  {| env_var := λ _, None; read_file := λ _ _, Err "not found"; read_bytes := λ _ _, Err "not found";
     system_time := λ t, 1700000000 * NANOS + t; uuid := λ n, "uuid-" +:+ fmt_nat n |}.

(** A manager with a TTL of 60 seconds *)
Definition mgr : SessionManager :=
  {| ttl := from_secs 60; sessions := ∅; hmac_key := "k" |}.
End Example.

#[local] Existing Instances Example.jwt Example.os Example.jwt_laws.

Lemma create_then_valid_witness :
  let '(id, m) := create_session 0 0 "u" None Example.mgr in
  validate_session (from_secs 59) (from_secs 59) id m = true.
Proof.
  pose proof (create_then_valid 0 0 (from_secs 59) (from_secs 59) "u" None Example.mgr) as H.
  destruct (create_session 0 0 "u" None Example.mgr) as [id m].
  apply H; [reflexivity|]. vm_compute. discriminate.
Defined.

Lemma terminate_removes_witness :
  (terminate_session "x" (terminate_session "x" Example.mgr).2).1 = false.
Proof.
  exact (proj1 (proj2 (proj2 (terminate_removes 0 0 "x" Example.mgr)))).
Defined.
