(* ===== verification/Notifications.v ===== *)
(** * Notifications: the fan-out broker ([src/notifications.rs])

    A subscriber is a sender in the broker's table and a receiver held by an SSE
    stream; both ends refer to one bounded channel, here a cell of [channels] that
    the table names.  [recv] and [drop_receiver] are the receiver's side.  A
    [try_send] on a channel whose receiver is gone is [Closed] whether or not the
    buffer is full. *)
From S2P Require Import Prelude Text Json Env.
Open Scope list_scope.

Definition CHANNEL_BUFFER : nat := 64.

Record Channel := { queue : list Value; rx_alive : bool }.

Record NotificationBroker := {
  subscribers : gmap string nat;     (** id to the channel its sender feeds *)
  channels : gmap nat Channel;
}.

Definition broker_new : NotificationBroker := {| subscribers := ∅; channels := ∅ |}.

Inductive TrySend : Type := Sent (c : Channel) | Full | Closed.

Definition try_send (v : Value) (c : Channel) : TrySend :=
  if negb (rx_alive c) then Closed
  else if decide (CHANNEL_BUFFER ≤ length (queue c))%nat then Full
  else Sent {| queue := queue c ++ [v]; rx_alive := rx_alive c |}.

Section broker.
Context `{!MapOrder}.

(** [id] is a fresh UUID; the channel is a new cell. *)
Definition subscribe (id : string) (b : NotificationBroker) : nat * NotificationBroker :=
  let rx := fresh (dom (channels b)) in
  (rx, {| subscribers := <[id := rx]> (subscribers b);
          channels := <[rx := {| queue := []; rx_alive := true |}]> (channels b) |}).

Definition unsubscribe (id : string) (b : NotificationBroker) : bool * NotificationBroker :=
  (bool_decide (is_Some (subscribers b !! id)),
   {| subscribers := delete id (subscribers b); channels := channels b |}).

(** The loop over the table: the deliveries, the ids to remove, the channels *)
Fixpoint publish_loop (v : Value) (subs : list (string * nat))
    (delivered : nat) (to_remove : list string) (chans : gmap nat Channel)
  : nat * list string * gmap nat Channel :=
  match subs with
  | [] => (delivered, to_remove, chans)
  | (id, tx) :: subs =>
      match try_send v <$> chans !! tx with
      | Some (Sent c) => publish_loop v subs (S delivered) to_remove (<[tx := c]> chans)
      | Some Full => publish_loop v subs delivered to_remove chans
      | Some Closed | None => publish_loop v subs delivered (to_remove ++ [id]) chans
      end
  end.

Definition publish (v : Value) (b : NotificationBroker) : nat * NotificationBroker :=
  let '(delivered, to_remove, chans) :=
    publish_loop v (map_order (subscribers b)) 0 [] (channels b) in
  (delivered,
   {| subscribers := foldl (λ m id, delete id m) (subscribers b) to_remove;
      channels := chans |}).

Definition subscriber_count (b : NotificationBroker) : nat := size (subscribers b).
End broker.

(** The receiver's side: take the next message, go away *)
Definition recv (rx : nat) (b : NotificationBroker) : option Value * NotificationBroker :=
  match channels b !! rx with
  | Some {| queue := v :: q; rx_alive := a |} =>
      (Some v, {| subscribers := subscribers b;
                  channels := <[rx := {| queue := q; rx_alive := a |}]> (channels b) |})
  | _ => (None, b)
  end.
Definition drop_receiver (rx : nat) (b : NotificationBroker) : NotificationBroker :=
  {| subscribers := subscribers b;
     channels := alter (λ c, {| queue := queue c; rx_alive := false |}) rx (channels b) |}.

(** ** Properties *)

Definition accepts (c : Channel) : bool :=
  rx_alive c && bool_decide (length (queue c) < CHANNEL_BUFFER)%nat.

(** Every sender feeds an existing channel of its own, and no buffer is over its
    bound. *)
Definition broker_wf (b : NotificationBroker) : Prop :=
  (∀ id tx, subscribers b !! id = Some tx → is_Some (channels b !! tx)) ∧
  (∀ id id' tx, subscribers b !! id = Some tx → subscribers b !! id' = Some tx → id = id') ∧
  map_Forall (λ _ c, (length (queue c) ≤ CHANNEL_BUFFER)%nat) (channels b).

Lemma try_send_accepts v c :
  try_send v c =
  if accepts c then Sent {| queue := queue c ++ [v]; rx_alive := rx_alive c |}
  else if rx_alive c then Full else Closed.
Proof.
  unfold try_send, accepts. destruct (rx_alive c); simpl; [|done].
  case_decide; case_bool_decide; done || lia.
Qed.

(** What one publication does to a channel that is fed once *)
Definition deliver (v : Value) (c : Channel) : Channel :=
  if accepts c then {| queue := queue c ++ [v]; rx_alive := rx_alive c |} else c.

Definition feed (v : Value) (chans : gmap nat Channel) (subs : list (string * nat)) :=
  foldr (λ s m, alter (deliver v) s.2 m) chans subs.

Lemma deliver_bounded v c :
  (length (queue c) ≤ CHANNEL_BUFFER → length (queue (deliver v c)) ≤ CHANNEL_BUFFER)%nat.
Proof.
  unfold deliver, accepts. destruct (rx_alive c); [|done]. simpl.
  case_bool_decide; [|done]. simpl. rewrite length_app. simpl. lia.
Qed.

Lemma feed_lookup v chans subs tx :
  NoDup subs.*2 →
  feed v chans subs !! tx =
  if decide (tx ∈ subs.*2) then deliver v <$> chans !! tx else chans !! tx.
Proof.
  induction subs as [|[id tx'] subs IH].
  { intros _. by rewrite decide_False by apply not_elem_of_nil. }
  rewrite fmap_cons. cbn [snd]. intros [Htx Hnd]%NoDup_cons.
  change (feed v chans ((id, tx') :: subs)) with (alter (deliver v) tx' (feed v chans subs)).
  rewrite lookup_alter. destruct (decide (tx' = tx)) as [->|Hne]; rewrite IH by done.
  - rewrite (decide_False (P := tx ∈ subs.*2)) by done.
    by rewrite decide_True by left.
  - destruct (decide (tx ∈ subs.*2)).
    + by rewrite decide_True by (by right).
    + rewrite decide_False; [done|]. rewrite elem_of_cons. naive_solver.
Qed.

Lemma feed_insert v chans tx c subs :
  tx ∉ subs.*2 → feed v (<[tx := c]> chans) subs = <[tx := c]> (feed v chans subs).
Proof.
  induction subs as [|[id' tx'] subs IH]; [done|].
  rewrite fmap_cons, not_elem_of_cons. cbn [snd]. intros [Hne Hin]. change (alter (deliver v) tx' (feed v (<[tx := c]> chans) subs) =
    <[tx := c]> (alter (deliver v) tx' (feed v chans subs))).
  rewrite IH by done. by rewrite alter_insert_ne.
Qed.

Lemma publish_loop_spec v subs n rm chans :
  NoDup subs.*2 → Forall (λ s, is_Some (chans !! s.2)) subs →
  publish_loop v subs n rm chans =
  ((n + length (filter (λ s, (accepts <$> chans !! s.2) = Some true) subs))%nat,
   rm ++ (filter (λ s, (rx_alive <$> chans !! s.2) = Some false) subs).*1,
   feed v chans subs).
Proof.
  revert n rm chans. induction subs as [|[id tx] subs IH]; intros n rm chans Hnd Hall;
    [by rewrite Nat.add_0_r, app_nil_r|].
  rewrite fmap_cons in Hnd. apply NoDup_cons in Hnd as [Htx Hnd].
  cbn [snd] in Htx. apply Forall_cons in Hall as [[c Hc] Hall].
  cbn [snd] in Hc. cbn [publish_loop]. rewrite Hc. simpl.
  rewrite !filter_cons. simpl. rewrite Hc. simpl. rewrite try_send_accepts.
  destruct (accepts c) eqn:Ea.
  - assert (rx_alive c = true) as Hal by (unfold accepts in Ea; by destruct (rx_alive c)).
    rewrite Hal. simpl.
    set (c' := {| queue := _; rx_alive := _ |}).
    assert (∀ s, s ∈ subs → <[tx := c']> chans !! s.2 = chans !! s.2) as Hother.
    { intros s Hs. apply lookup_insert_ne. intros ->. apply Htx.
      apply list_elem_of_fmap. eauto. }
    rewrite IH; [|done|].
    2:{ apply Forall_forall. intros s Hs. rewrite Hother by done.
        exact (proj1 (Forall_forall _ _) Hall s Hs). }
    f_equal; [f_equal|].
    + rewrite Nat.add_succ_r. simpl. do 3 f_equal.
      apply list_filter_ext_in. intros s Hs. by rewrite Hother.
    + do 2 f_equal. apply list_filter_ext_in. intros s Hs. by rewrite Hother.
    + rewrite feed_insert by done. apply map_eq. intros k.
      rewrite lookup_alter, lookup_insert. case_decide; [|done]. subst k.
      rewrite feed_lookup, decide_False, Hc by done. simpl.
      unfold deliver. by rewrite Ea, Hal.
  - assert (alter (deliver v) tx (feed v chans subs) = feed v chans subs) as ->.
    { apply map_eq. intros k. rewrite lookup_alter. case_decide; [|done]. subst k.
      rewrite feed_lookup, decide_False, Hc by done. simpl. unfold deliver. by rewrite Ea. }
    destruct (rx_alive c); simpl; rewrite IH by done; [done|].
    by rewrite <- (assoc_L (++)).
Qed.

Lemma foldl_delete_lookup {A} (ids : list string) (m : gmap string A) k :
  foldl (λ m id, delete id m) m ids !! k = if decide (k ∈ ids) then None else m !! k.
Proof.
  revert m. induction ids as [|id ids IH]; intros m.
  { by rewrite decide_False by apply not_elem_of_nil. }
  cbn [foldl].
  rewrite IH. destruct (decide (k ∈ ids)).
  - by rewrite decide_True by (by right).
  - destruct (decide (id = k)) as [->|].
    + by rewrite lookup_delete_eq, decide_True by left.
    + rewrite lookup_delete_ne by done. rewrite decide_False; [done|].
      rewrite elem_of_cons. naive_solver.
Qed.

Section properties.
Context `{!MapOrder}.

Lemma map_order_NoDup_snd (m : gmap string nat) :
  (∀ id id' tx, m !! id = Some tx → m !! id' = Some tx → id = id') →
  NoDup (map_order m).*2.
Proof.
  intros Hinj. rewrite map_order_perm. apply NoDup_fmap_2_strong; [|apply NoDup_map_to_list].
  intros [a x] [b y] Ha Hb. simpl. intros ->.
  apply elem_of_map_to_list in Ha, Hb. f_equal. eauto.
Qed.

(** [publish] as a whole *)
Lemma publish_spec v b :
  broker_wf b →
  let '(n, b') := publish v b in
  n = size (filter (λ s, (accepts <$> channels b !! s.2) = Some true) (subscribers b)) ∧
  (∀ id tx, subscribers b' !! id = Some tx ↔
     subscribers b !! id = Some tx ∧ (rx_alive <$> channels b !! tx) = Some true) ∧
  (∀ id tx, subscribers b !! id = Some tx →
     channels b' !! tx = deliver v <$> channels b !! tx) ∧
  (∀ tx, (∀ id, subscribers b !! id ≠ Some tx) → channels b' !! tx = channels b !! tx) ∧
  broker_wf b'.
Proof.
  intros (Hex & Hinj & Hlen). unfold publish.
  pose proof (map_order_NoDup_snd _ Hinj) as Hnd.
  assert (∀ tx, tx ∈ (map_order (subscribers b)).*2 ↔ ∃ id, subscribers b !! id = Some tx)
    as Hin by (intros tx; apply map_values_elem).
  rewrite publish_loop_spec; [|done|].
  2:{ apply Forall_forall. intros [id tx] Hs%map_order_elem. eauto. }
  cbn [app Nat.add]. set (b' := {| subscribers := _ |}).
  assert (∀ id tx, subscribers b' !! id = Some tx ↔
     subscribers b !! id = Some tx ∧ (rx_alive <$> channels b !! tx) = Some true) as Hsubs.
  { intros id tx. simpl. rewrite foldl_delete_lookup. case_decide as Hd.
    - split; [done|]. intros [Hid Hal]. apply list_elem_of_fmap in Hd as ([id' tx'] & -> & Hd).
      apply list_elem_of_filter in Hd as [Hdead Hd%map_order_elem]. simpl in *. congruence.
    - split; [|by intros [? _]]. intros Hid. split; [done|].
      destruct (Hex _ _ Hid) as [c Hc]. rewrite Hc. simpl. destruct (rx_alive c) eqn:Ec; [done|].
      contradict Hd. apply list_elem_of_fmap. exists (id, tx). split; [done|].
      apply list_elem_of_filter. simpl. rewrite Hc. simpl. rewrite Ec.
      by rewrite map_order_elem. }
  assert (∀ tx, channels b' !! tx = if decide (tx ∈ (map_order (subscribers b)).*2)
    then deliver v <$> channels b !! tx else channels b !! tx) as Hch
    by (intros; by apply feed_lookup).
  split_and!; [|exact Hsubs| | |].
  - by rewrite map_order_filter_size.
  - intros id tx Hid. rewrite Hch, decide_True; [done|]. apply Hin. eauto.
  - intros tx Hid. rewrite Hch, decide_False; [done|]. rewrite Hin. naive_solver.
  - split_and!.
    + intros id tx [Hid _]%Hsubs. rewrite Hch. case_decide; [|eauto].
      apply fmap_is_Some. eauto.
    + intros id id' tx [H1 _]%Hsubs [H2 _]%Hsubs. eauto.
    + intros tx c. rewrite Hch. case_decide; [|apply Hlen].
      rewrite fmap_Some. intros (c0 & Hc0 & ->). apply deliver_bounded, (Hlen _ _ Hc0).
Qed.

Lemma subscribe_wf id b : broker_wf b → broker_wf (subscribe id b).2.
Proof.
  intros (Hex & Hinj & Hlen). unfold subscribe. simpl. set (rx := fresh _).
  assert (channels b !! rx = None) as Hrx by (apply not_elem_of_dom, is_fresh).
  assert (∀ id' tx, subscribers b !! id' = Some tx → tx ≠ rx) as Hne.
  { intros id' tx Hid ->. destruct (Hex _ _ Hid). congruence. }
  split_and!; simpl.
  - intros id' tx [[<- <-]|[_ Hid]]%lookup_insert_Some; [by rewrite lookup_insert_eq|].
    rewrite lookup_insert_ne by (symmetry; eauto). eauto.
  - intros i j tx [[? ?]|[? ?]]%lookup_insert_Some [[? ?]|[? ?]]%lookup_insert_Some;
      subst; eauto; exfalso; eapply Hne; eauto.
  - apply map_Forall_insert_2; [simpl; lia|done].
Qed.

Lemma unsubscribe_wf id b : broker_wf b → broker_wf (unsubscribe id b).2.
Proof.
  intros (Hex & Hinj & Hlen). split_and!; simpl; [| |done].
  - intros id' tx [_ Hid]%lookup_delete_Some. eauto.
  - intros i j tx [_ ?]%lookup_delete_Some [_ ?]%lookup_delete_Some. eauto.
Qed.

Lemma drop_receiver_wf rx b : broker_wf b → broker_wf (drop_receiver rx b).
Proof.
  intros (Hex & Hinj & Hlen). split_and!; simpl; [|done|].
  - intros id tx Hid. apply lookup_alter_is_Some. eauto.
  - intros tx c [[<- (c0 & Hc0 & ->)]|[_ Hc]]%lookup_alter_Some; [|eauto].
    apply (Hlen _ _ Hc0).
Qed.

Lemma recv_wf rx b : broker_wf b → broker_wf (recv rx b).2.
Proof.
  intros (Hex & Hinj & Hlen). unfold recv.
  destruct (channels b !! rx) as [[[|v q] a]|] eqn:Hc; try done.
  split_and!; simpl; [|done|].
  - intros id tx Hid. apply lookup_insert_is_Some'. eauto.
  - apply map_Forall_insert_2; [|done]. specialize (Hlen _ _ Hc). simpl in *. lia.
Qed.

(** Runs of operations, with what the receiver [rx] takes *)
Inductive op : Type :=
| OSubscribe (id : string) | OUnsubscribe (id : string) | OPublish (v : Value)
| ORecv (rx : nat) | ODrop (rx : nat).

Definition apply_op (o : op) (b : NotificationBroker) : NotificationBroker :=
  match o with
  | OSubscribe id => (subscribe id b).2
  | OUnsubscribe id => (unsubscribe id b).2
  | OPublish v => (publish v b).2
  | ORecv rx => (recv rx b).2
  | ODrop rx => drop_receiver rx b
  end.
Definition taken (rx : nat) (o : op) (b : NotificationBroker) : list Value :=
  match o with
  | ORecv rx' => if decide (rx' = rx) then option_list (recv rx b).1 else []
  | _ => []
  end.
Definition published (o : op) : list Value :=
  match o with OPublish v => [v] | _ => [] end.

Fixpoint run (rx : nat) (os : list op) (b : NotificationBroker)
  : list Value * NotificationBroker :=
  match os with
  | [] => ([], b)
  | o :: os => let '(out, b') := run rx os (apply_op o b) in (taken rx o b ++ out, b')
  end.

Lemma apply_op_wf o b : broker_wf b → broker_wf (apply_op o b).
Proof.
  intros Hwf. destruct o as [id|id|v|rx|rx]; cbn [apply_op];
    auto using subscribe_wf, unsubscribe_wf, recv_wf, drop_receiver_wf.
   pose proof (publish_spec v b Hwf) as Hp. destruct (publish v b). apply Hp.
Qed.

Lemma apply_op_queue o b rx c :
  broker_wf b → channels b !! rx = Some c →
  ∃ c', channels (apply_op o b) !! rx = Some c' ∧
    taken rx o b ++ queue c' `sublist_of` queue c ++ published o.
Proof.
  intros Hwf Hc. assert (∀ q : list Value, q `sublist_of` q ++ []) as Hrefl
    by (intros; by rewrite app_nil_r).
  destruct o as [id|id|v|rx'|rx']; simpl.
  - exists c. rewrite lookup_insert_ne; [by split|]. intros <-.
    apply (is_fresh (dom (channels b))), elem_of_dom. eauto.
  - exists c. by split.
  - pose proof (publish_spec v b Hwf) as Hp. destruct (publish v b) as [n b'].
    destruct Hp as (_ & _ & Hin & Hout & _). simpl.
    destruct (decide (rx ∈ map_values (subscribers b))) as [[id Hid]%map_values_elem|Hno].
    + rewrite (Hin _ _ Hid), Hc. eexists. split; [done|]. unfold deliver.
      destruct (accepts c); simpl; [done|]. by apply sublist_inserts_r.
    + rewrite Hout; [|intros id Hid; apply Hno, map_values_elem; eauto].
      exists c. split; [done|]. by apply sublist_inserts_r.
  - unfold recv. destruct (decide (rx' = rx)) as [->|Hne].
    + rewrite Hc. destruct c as [[|v q] a]; simpl; [by exists {| queue := []; rx_alive := a |}|].
      rewrite lookup_insert_eq. eexists. split; [done|]. simpl. by rewrite app_nil_r.
    + exists c. split; [|done]. destruct (channels b !! rx') as [[[|v q] a]|]; simpl; [done| |done].
      by rewrite lookup_insert_ne.
  - rewrite lookup_alter. destruct (decide (rx' = rx)) as [->|]; rewrite Hc; simpl; [|eauto].
    eexists. split; [done|]. simpl. done.
Qed.

(** The same of a receiver that is not there yet *)
Definition queue_of (rx : nat) (b : NotificationBroker) : list Value :=
  default [] (queue <$> channels b !! rx).
Lemma apply_op_fifo o b rx :
  broker_wf b →
  taken rx o b ++ queue_of rx (apply_op o b) `sublist_of` queue_of rx b ++ published o.
Proof.
  intros Hwf. unfold queue_of. destruct (channels b !! rx) as [c|] eqn:Hc.
  { destruct (apply_op_queue o b rx c Hwf Hc) as (c' & -> & Hs). exact Hs. }
  assert (taken rx o b = [] ∧ default [] (queue <$> channels (apply_op o b) !! rx) = []) as [-> ->];
    [|apply sublist_nil_l].
  destruct o as [id|id|v|rx'|rx']; simpl.
  - split; [done|]. rewrite lookup_insert. case_decide; [done|]. by rewrite Hc.
  - by rewrite Hc.
  - pose proof (publish_spec v b Hwf) as Hp. destruct (publish v b) as [n b']. split; [done|].
    destruct Hp as (_ & _ & _ & Hout & _). simpl. rewrite Hout; [by rewrite Hc|].
    intros id Hid. destruct Hwf as (Hex & _). destruct (Hex _ _ Hid). congruence.
  - unfold recv. destruct (decide (rx' = rx)) as [->|Hne]; [rewrite Hc; simpl; by rewrite Hc|].
    split; [done|]. destruct (channels b !! rx') as [[[|v q] a]|]; simpl; [by rewrite Hc| |by rewrite Hc].
    rewrite lookup_insert_ne by done. by rewrite Hc.
  - split; [done|]. rewrite lookup_alter. case_decide; subst; by rewrite Hc.
Qed.
Lemma run_fifo os b rx :
  broker_wf b →
  broker_wf (run rx os b).2 ∧
  (run rx os b).1 ++ queue_of rx (run rx os b).2 `sublist_of` queue_of rx b ++ (os ≫= published).
Proof.
  revert b. induction os as [|o os IH]; intros b Hwf; [split; [done|]; cbn; by rewrite app_nil_r|].
  pose proof (apply_op_fifo o b rx Hwf) as Hs. specialize (IH _ (apply_op_wf o b Hwf)).
  cbn [run]. destruct (run rx os (apply_op o b)) as [out b']. destruct IH as [Hwf' Hs'].
  split; [done|]. cbn [fst snd] in *. rewrite bind_cons, <- !(assoc_L (++)).
  transitivity (taken rx o b ++ queue_of rx (apply_op o b) ++ (os ≫= published));
    [by apply sublist_app|]. rewrite !(assoc_L (++)). by apply sublist_app.
Qed.
Lemma run_state rx os b : (run rx os b).2 = foldl (λ b o, apply_op o b) b os.
Proof.
  revert b. induction os as [|o os IH]; intros b; [done|]. cbn. rewrite <- IH.
  by destruct (run rx os (apply_op o b)).
Qed.

(** (C26) A publication reaches every subscriber that can take it.  From a well-formed
    table: the number returned is the number of subscribers whose receiver lives and
    whose buffer is below its bound; exactly to their channels the payload is
    appended; a full channel keeps its queue and stays subscribed, a closed one is
    removed from the table; channels without a subscriber are untouched; and the
    table is well-formed again, no buffer over the bound, whatever the iteration
    order was. *)
Theorem publish_delivers v b :
  broker_wf b →
  let '(n, b') := publish v b in
  n = size (filter (λ s, (accepts <$> channels b !! s.2) = Some true) (subscribers b)) ∧
  (∀ id tx, subscribers b' !! id = Some tx ↔
     subscribers b !! id = Some tx ∧ (rx_alive <$> channels b !! tx) = Some true) ∧
  (∀ id tx, subscribers b !! id = Some tx →
     channels b' !! tx = deliver v <$> channels b !! tx) ∧
  (∀ tx, (∀ id, subscribers b !! id ≠ Some tx) → channels b' !! tx = channels b !! tx) ∧
  broker_wf b'.
Proof. apply publish_spec. Qed.

(** A subscriber never sees a payload twice, out of order, or that was not
    published: in any interleaving of subscriptions, publications, receptions and
    disconnections from a well-formed table, what a receiver took followed by what is
    still in its queue is a subsequence of its queue at the start followed by the
    payloads published; and the table stays well-formed. *)
Theorem receiver_fifo os b rx c :
  broker_wf b → channels b !! rx = Some c →
  let '(out, b') := run rx os b in
  broker_wf b' ∧
  ∃ c', channels b' !! rx = Some c' ∧
    out ++ queue c' `sublist_of` queue c ++ (os ≫= published).
Proof.
  intros Hwf Hc. destruct (run_fifo os b rx Hwf) as [Hwf' Hs].
  assert (is_Some (channels (run rx os b).2 !! rx)) as [c' Hc'].
  { rewrite run_state. clear Hs Hwf'. revert b c Hwf Hc. induction os as [|o os IH]; intros b c Hwf Hc; [by exists c|].
    destruct (apply_op_queue o b rx c Hwf Hc) as (c1 & Hc1 & _). by eapply IH; [apply apply_op_wf|]. }
  unfold queue_of in Hs. rewrite Hc, Hc' in Hs. destruct (run rx os b) as [out b']. eauto.
Qed.

End properties.

(** ** Witnesses *)
Module Example.
Definition mo : MapOrder := {| map_order := λ A m, map_to_list m; map_order_perm := λ A m, reflexivity _ |}.
(** One subscriber with a full buffer, one that has gone, one that listens *)
Definition b : NotificationBroker :=
  {| subscribers := {[ "full" := 0%nat; "gone" := 1%nat; "live" := 2%nat ]};
     channels := {[ 0%nat := {| queue := replicate 64 VNull; rx_alive := true |};
                    1%nat := {| queue := []; rx_alive := false |};
                    2%nat := {| queue := [VBool true]; rx_alive := true |} ]} |}.
Lemma b_wf : broker_wf b.
Proof.
  split_and!; [| |by apply (bool_decide_unpack _); vm_compute].
  - apply (map_Forall_to_list (λ _ tx, is_Some (channels b !! tx))).
    vm_compute. repeat constructor; eauto.
  - intros i j tx Hi Hj.
    assert (Forall (λ s, Forall (λ s', s.2 = s'.2 → s.1 = s'.1) (map_to_list (subscribers b)))
              (map_to_list (subscribers b))) as Hall
      by (vm_compute; repeat constructor; done).
    apply elem_of_map_to_list in Hi, Hj.
    rewrite Forall_forall in Hall. specialize (Hall _ Hi). rewrite Forall_forall in Hall.
    by specialize (Hall _ Hj eq_refl).
Qed.
End Example.

Lemma publish_delivers_witness :
  let '(n, b') := publish (H := Example.mo) (VBool false) Example.b in
  n = 1%nat ∧ broker_wf b'.
Proof.
  pose proof (publish_delivers (H := Example.mo) (VBool false) Example.b Example.b_wf) as Hp.
  destruct (publish _ _) as [n b']. destruct Hp as (Hn & _ & _ & _ & Hwf). split; [|exact Hwf].
  rewrite Hn. vm_compute. reflexivity.
Defined.

Lemma receiver_fifo_witness :
  let '(out, b') := run (H := Example.mo) 2 [OPublish VNull; ORecv 2; ORecv 2] Example.b in
  out = [VBool true; VNull] ∧ broker_wf b'.
Proof.
  pose proof (receiver_fifo (H := Example.mo) [OPublish VNull; ORecv 2; ORecv 2]
                Example.b 2 {| queue := [VBool true]; rx_alive := true |}
                Example.b_wf eq_refl) as Hp.
  assert ((run (H := Example.mo) 2 [OPublish VNull; ORecv 2; ORecv 2] Example.b).1 =
          [VBool true; VNull]) as Ho by (vm_compute; reflexivity).
  destruct (run _ _ _) as [out b']. split; [exact Ho|exact (proj1 Hp)].
Defined.
