(* ===== verification/LeafClient.v ===== *)
(** * LeafClient: the connection to one leaf ([src/leaf_client.rs])

    An operation runs on the client and on the surroundings ([LeafClient * Env]):
    it reads the credentials when it needs them, sends requests one after the other
    and keeps the session id of the transport.  Each operation runs to its end here;
    operations of one client that interleave are in Awaits.v. *)
From S2P Require Import Prelude Text Json Protocol Env Config Notifications.
Open Scope string_scope.
Open Scope list_scope.

Record LeafClient := {
  lc_alias : string;
  lc_url : string;
  lc_transport : TransportType;
  lc_http : HttpClient;
  lc_auth_token : option string;
  lc_auth_token_file : option string;
  session_id : option string;
  next_id : Z;                       (** a 64-bit counter *)
}.

Definition with_session (o : option string) (c : LeafClient) : LeafClient :=
  {| lc_alias := lc_alias c; lc_url := lc_url c; lc_transport := lc_transport c;
     lc_http := lc_http c; lc_auth_token := lc_auth_token c;
     lc_auth_token_file := lc_auth_token_file c; session_id := o; next_id := next_id c |}.
Definition with_next_id (n : Z) (c : LeafClient) : LeafClient :=
  {| lc_alias := lc_alias c; lc_url := lc_url c; lc_transport := lc_transport c;
     lc_http := lc_http c; lc_auth_token := lc_auth_token c;
     lc_auth_token_file := lc_auth_token_file c; session_id := session_id c; next_id := n |}.

Definition PKG_VERSION : string := "0.1.0".

Section client.
Context `{!Os, !Http, !Serde, !MapOrder}.

(** The HTTP client of [new]: an unreadable or malformed CA certificate is skipped. *)
Definition http_client_of (t : Z) (config : ServerConfig) (pool : ConnectionPoolConfig)
  : HttpClient :=
  {| hc_timeout := F64.from_secs (default 30%Z (Config.timeout_seconds config));
     hc_connect_timeout := F64.from_secs (hc_timeout_seconds (health_check config));
     hc_pool_max_idle := max_idle_per_host pool;
     hc_pool_idle_timeout := F64.from_secs (idle_timeout_seconds pool);
     hc_accept_invalid_certs := negb (verify (tls config));
     hc_root_certificates :=
       match ca_cert_path (tls config) with
       | Some ca_path => match read_bytes t ca_path with
                         | Ok bytes => option_list (res_ok (certificate bytes))
                         | Err _ => []
                         end
       | None => []
       end |}.

Definition LeafClient_new (t : Z) (config : ServerConfig) (pool : ConnectionPoolConfig)
  : LeafClient :=
  {| lc_alias := Config.alias config; lc_url := Config.url config;
     lc_transport := Config.transport config;
     lc_http := http_client_of t config pool;
     lc_auth_token := Config.auth_token config;
     lc_auth_token_file := Config.auth_token_file config;
     session_id := None; next_id := 1 |}.

Definition resolve_auth_token (t : Z) (c : LeafClient) : option string :=
  match lc_auth_token c with
  | Some token => Some token
  | None =>
      match lc_auth_token_file c with
      | Some path => match read_file t path with
                     | Ok contents => Some (trim contents)
                     | Err _ => None
                     end
      | None => None
      end
  end.

Notation S := (LeafClient * Env)%type.
Definition streamable (c : LeafClient) : bool :=
  bool_decide (lc_transport c = StreamableHttp).

(** [fetch_add(1)] *)
Definition next_request_id : M S Z :=
  λ '(c, e), (next_id c, (with_next_id ((next_id c + 1) mod 2 ^ 64) c, e)).

Definition set_session (o : option string) : M S unit :=
  λ '(c, e), (tt, (with_session o c, e)).

Definition auth_header (t : Z) (c : LeafClient) : list (string * string) :=
  match resolve_auth_token t c with
  | Some token => [("authorization", "Bearer " +:+ token)]
  | None => []
  end.
Definition session_header (c : LeafClient) : list (string * string) :=
  match session_id c with Some id => [("mcp-session-id", id)] | None => [] end.

(** The request [send_once] builds *)
Definition post_request (t : Z) (c : LeafClient) (body : Value) : HttpRequest :=
  {| hq_method := POST; hq_url := lc_url c;
     hq_headers :=
       ("content-type", "application/json") :: auth_header t c ++
       (if streamable c
        then ("accept", "application/json, text/event-stream") :: session_header c
        else []);
     hq_body := Some body |}.

Definition strip_space (payload : string) : string :=
  default payload (strip_prefix " " payload).

(** Append a [data:] payload to the text gathered so far *)
Definition push_data (data payload : string) : string :=
  (if is_empty data then "" else data +:+ nl) +:+ strip_space payload.

(** One line of [parse_sse_body] *)
Definition sse_body_line (data raw : string) : string :=
  let line := default raw (strip_suffix (String CR "") raw) in
  if is_empty line || starts_with ":" line then data
  else match strip_prefix "data:" line with
       | Some rest => push_data data rest
       | None => data
       end.

Definition parse_sse_body (body : string) : option Value :=
  let data := foldl sse_body_line "" (lines body) in
  if is_empty data then None else res_ok (from_str data).

(** [serde_json::from_slice] refuses bytes that are not UTF-8. *)
Definition from_slice (bytes : string) : result string Value :=
  if utf8_valid bytes then from_str bytes else Err "invalid unicode code point".

Definition body_value (content_type bytes : string) : Value :=
  if starts_with "text/event-stream" content_type
  then default VNull (parse_sse_body (from_utf8_or_empty bytes))
  else default VNull (res_ok (from_slice bytes)).

Definition send_once (body : Value) : M S (result FederationError (Z * Value)) :=
  λ '(c, e),
    let '(r, e) := send (lc_http c) (post_request (now e) c body) e in
    match r with
    | Err err => (Err (LeafUnreachable (lc_alias c) err), (c, e))
    | Ok response =>
        let c := if streamable c then
                   match header_str "mcp-session-id" (hp_headers response) with
                   | Some id => with_session (Some id) c
                   | None => c
                   end
                 else c in
        let content_type := default "" (header_str "content-type" (hp_headers response)) in
        match body_bytes (hp_chunks response) with
        | Err err => (Err (LeafUnreachable (lc_alias c) err), (c, e))
        | Ok bytes => (Ok (hp_status response, body_value content_type bytes), (c, e))
        end
    end.

Definition leaf_error {A} (message : string) : M S (result FederationError A) :=
  λ '(c, e), (Err (LeafError (lc_alias c) message), (c, e)).

Definition rpc_request (id : Z) (meth : string) (params : Value) : Value :=
  json_obj [("jsonrpc", VString "2.0"); ("id", vint id); ("method", VString meth);
            ("params", params)].

Definition initialize_params : Value :=
  json_obj [("protocolVersion", VString "2025-11-25"); ("capabilities", json_obj []);
            ("clientInfo", json_obj [("name", VString "mcp-federation");
                                     ("version", VString PKG_VERSION)])].

Definition initialized_notification : Value :=
  json_obj [("jsonrpc", VString "2.0"); ("method", VString "notifications/initialized");
            ("params", json_obj [])].

Definition initialize : M S (result FederationError Value) :=
  c ← m_gets fst;
  _ ← m_when (streamable c) (set_session None);
  id ← next_request_id;
  sr ←? send_once (rpc_request id "initialize" initialize_params);
  let '(status, response) := sr in
  if is_success status then
    _ ← send_once initialized_notification;
    match get "result" response with
    | Some result => mret (Ok result)
    | None => leaf_error "initialize response missing 'result'"
    end
  else leaf_error ("initialize returned HTTP " +:+ status_text status).

(** The branch of [send_request] that starts the session again *)
Definition reinit_and_retry (body : Value) : M S (result FederationError Value) :=
  _ ←? initialize;
  sr ←? send_once body;
  let '(retry_status, retry_value) := sr in
  if is_success retry_status then mret (Ok retry_value)
  else leaf_error ("leaf returned HTTP " +:+ status_text retry_status +:+
                   " after session re-init").

Definition send_request (body : Value) : M S (result FederationError Value) :=
  sr ←? send_once body;
  let '(status, value) := sr in
  c ← m_gets fst;
  if streamable c &&
     ((status =? 404)%Z || ((status =? 400)%Z && bool_decide (session_id c = None)))
  then reinit_and_retry body
  else if is_success status then mret (Ok value)
  else leaf_error ("leaf returned HTTP " +:+ status_text status).

(** The common shape of the listing and of the calling operations *)
Definition list_of (key : string) (response : Value) : list Value :=
  default [] (r ← get "result" response; t ← get key r; as_array t).

Definition list_op (meth key : string) : M S (result FederationError (list Value)) :=
  id ← next_request_id;
  response ←? send_request (rpc_request id meth (json_obj []));
  mret (Ok (list_of key response)).

Definition call_op (meth missing : string) (params : Value)
  : M S (result FederationError Value) :=
  id ← next_request_id;
  response ←? send_request (rpc_request id meth params);
  match get "error" response with
  | Some error => leaf_error (default "unknown error" (get_str "message" error))
  | None => match get "result" response with
            | Some result => mret (Ok result)
            | None => leaf_error (missing +:+ " response missing 'result'")
            end
  end.

Definition list_tools := list_op "tools/list" "tools".
Definition list_resources := list_op "resources/list" "resources".
Definition list_prompts := list_op "prompts/list" "prompts".

Definition call_tool (tool_name : string) (arguments : Value) :=
  call_op "tools/call" "tool call"
    (json_obj [("name", VString tool_name); ("arguments", arguments)]).
Definition get_prompt (name : string) (arguments : Value) :=
  call_op "prompts/get" "prompts/get"
    (json_obj [("name", VString name); ("arguments", arguments)]).
Definition read_resource (uri : string) :=
  call_op "resources/read" "resources/read" (json_obj [("uri", VString uri)]).

Definition health_url (url : string) : string :=
  trim_end_matches "/" (trim_end_matches "/mcp" url) +:+ "/healthz".

(** [error_for_status] refuses the statuses from 400 to 599. *)
Definition is_error_status (status : Z) : bool := (400 <=? status)%Z && (status <? 600)%Z.

Definition health_check_leaf : M S (result FederationError unit) :=
  λ '(c, e),
    let '(r, e) := send (lc_http c) {| hq_method := GET; hq_url := health_url (lc_url c);
                                       hq_headers := []; hq_body := None |} e in
    (match r with
     | Err err => Err (LeafUnreachable (lc_alias c) err)
     | Ok response =>
         if is_error_status (hp_status response)
         then Err (LeafUnreachable (lc_alias c) (status_error (hp_status response)))
         else Ok tt
     end, (c, e)).

(** ** Notifications *)

(** The payload with [_leaf] in its parameters, as [dispatch_event] edits it *)
Definition annotate (leaf : string) (value : Value) : Value :=
  match value with
  | VObject obj =>
      let params := default (VObject []) (obj_get "params" obj) in
      let params := match params with VObject m => m | _ => [] end in
      VObject (obj_insert "params" (VObject (obj_insert "_leaf" (VString leaf) params)) obj)
  | _ => value
  end.

Definition dispatch_event (leaf payload : string) (b : NotificationBroker)
  : NotificationBroker :=
  match from_str payload with
  | Ok value => (publish (annotate leaf value) b).2
  | Err _ => b
  end.

(** The parser's two buffers, and the broker it feeds *)
Record SseState := { line_buf : string; data_buf : string; sse_broker : NotificationBroker }.

Definition handle_sse_line (leaf line : string) (s : SseState) : SseState :=
  if is_empty line then
    if is_empty (data_buf s) then s
    else {| line_buf := line_buf s; data_buf := "";
            sse_broker := dispatch_event leaf (data_buf s) (sse_broker s) |}
  else if starts_with ":" line then s
  else match strip_prefix "data:" line with
       | Some payload =>
           {| line_buf := line_buf s; data_buf := push_data (data_buf s) payload;
              sse_broker := sse_broker s |}
       | None => s
       end.

Definition set_line (l : string) (s : SseState) : SseState :=
  {| line_buf := l; data_buf := data_buf s; sse_broker := sse_broker s |}.

Definition sse_byte (leaf : string) (s : SseState) (b : ascii) : SseState :=
  if decide (b = LF) then
    let line := default (line_buf s) (strip_suffix (String CR "") (line_buf s)) in
    set_line "" (handle_sse_line leaf (from_utf8_or_empty line) s)
  else set_line (line_buf s +:+ String b "") s.

(** The loop over the chunks stops at the first error. *)
Fixpoint sse_chunks (leaf : string) (chunks : list (result string string)) (s : SseState)
  : result string unit * SseState :=
  match chunks with
  | [] => (Ok tt, s)
  | Err e :: _ => (Err e, s)
  | Ok bytes :: chunks =>
      sse_chunks leaf chunks (foldl (sse_byte leaf) s (String.list_ascii_of_string bytes))
  end.

(** The flush at the end of the stream *)
Definition sse_end (leaf : string) (s : SseState) : NotificationBroker :=
  let s := if is_empty (line_buf s) then s
           else handle_sse_line leaf (from_utf8_or_empty (line_buf s)) s in
  if is_empty (data_buf s) then sse_broker s
  else dispatch_event leaf (data_buf s) (sse_broker s).

Definition sse_stream (leaf : string) (chunks : list (result string string))
    (b : NotificationBroker) : result string unit * NotificationBroker :=
  match sse_chunks leaf chunks {| line_buf := ""; data_buf := ""; sse_broker := b |} with
  | (Ok _, s) => (Ok tt, sse_end leaf s)
  | (Err e, s) => (Err e, sse_broker s)
  end.

Definition stream_request (t : Z) (c : LeafClient) : HttpRequest :=
  {| hq_method := GET; hq_url := lc_url c;
     hq_headers := ("accept", "text/event-stream") :: auth_header t c ++ session_header c;
     hq_body := None |}.

Definition run_notification_stream (b : NotificationBroker)
  : M S (result FederationError unit * NotificationBroker) :=
  λ '(c, e),
    let '(r, e) := send (lc_http c) (stream_request (now e) c) e in
    let unreachable err := LeafUnreachable (lc_alias c) err in
    (match r with
     | Err err => (Err (unreachable err), b)
     | Ok response =>
         if is_success (hp_status response) then
           let '(r, b) := sse_stream (lc_alias c) (hp_chunks response) b in
           (map_err unreachable r, b)
         else (Err (LeafError (lc_alias c)
                 ("SSE GET returned HTTP " +:+ status_text (hp_status response))), b)
     end, (c, e)).

(** [listen_notifications] spawns [run_notification_stream] when it is [Ok]. *)
Definition listen_notifications (c : LeafClient) : result FederationError unit :=
  if streamable c then Ok tt
  else Err (LeafError (lc_alias c)
              "listen_notifications requires streamable-http transport").

(** ** The notification stream: an independent reading of the bytes

    The stream as a whole: its lines, the carriage return of a terminated line
    dropped, a trailing line taken when it is not empty; then the events, each the
    joined [data:] payloads up to an empty line. *)
Fixpoint sse_lines (ls : list string) : list string :=
  match ls with
  | [] => []
  | [l] => if is_empty l then [] else [l]
  | l :: ls => default l (strip_suffix (String CR "") l) :: sse_lines ls
  end.

Fixpoint sse_events (data : string) (ls : list string) : list string :=
  let flush := if is_empty data then [] else [data] in
  match ls with
  | [] => flush
  | l :: ls =>
      let l := from_utf8_or_empty l in
      if is_empty l then flush ++ sse_events "" ls
      else if starts_with ":" l then sse_events data ls
      else match strip_prefix "data:" l with
           | Some p => sse_events (push_data data p) ls
           | None => sse_events data ls
           end
  end.

Definition dispatch_all (leaf : string) : NotificationBroker → list string → NotificationBroker :=
  foldl (λ b p, dispatch_event leaf p b).

Definition sse_bytes (leaf body : string) (s : SseState) : SseState :=
  foldl (sse_byte leaf) s (String.list_ascii_of_string body).

Lemma sse_bytes_app leaf a b s : sse_bytes leaf (a +:+ b) s = sse_bytes leaf b (sse_bytes leaf a s).
Proof. unfold sse_bytes. by rewrite list_ascii_app, foldl_app. Qed.

Lemma sse_chunks_ok leaf cs s :
  sse_chunks leaf (Ok <$> cs) s = (Ok tt, sse_bytes leaf (join "" cs) s).
Proof.
  revert s. induction cs as [|c cs IH]; intros s; [done|].
  rewrite join_nil_cons, sse_bytes_app. cbn. by rewrite IH.
Qed.

(** One line against the rest of the events *)
Lemma handle_sse_line_events leaf line s ls :
  let s' := handle_sse_line leaf (from_utf8_or_empty line) s in
  dispatch_all leaf (sse_broker s) (sse_events (data_buf s) (line :: ls)) =
  dispatch_all leaf (sse_broker s') (sse_events (data_buf s') ls).
Proof.
  cbn [sse_events]. unfold handle_sse_line.
  destruct (is_empty (from_utf8_or_empty line)).
  - destruct (is_empty (data_buf s)) eqn:E; [|done]. cbn.
    apply is_empty_true in E. by rewrite E.
  - destruct (starts_with ":" _); [done|]. by destruct (strip_prefix "data:" _).
Qed.

Lemma sse_lines_cons l ls : ls ≠ [] →
  sse_lines (l :: ls) = default l (strip_suffix (String CR "") l) :: sse_lines ls.
Proof. by destruct ls. Qed.
Lemma split_char_not_nil d s : split_char d s ≠ [].
Proof. destruct s as [|c s]; cbn; [done|]. case_decide; [done|]. by destruct (split_char d s). Qed.

Lemma sse_end_bytes leaf body s :
  LF ∉ String.list_ascii_of_string (line_buf s) →
  sse_end leaf (sse_bytes leaf body s) =
  dispatch_all leaf (sse_broker s)
    (sse_events (data_buf s) (sse_lines (split_char LF (line_buf s +:+ body)))).
Proof.
  revert s. induction body as [|c body IH]; intros s Hs.
  - rewrite str_app_nil_r, split_char_nil by done. cbn [sse_lines]. unfold sse_end, sse_bytes.
    cbn [String.list_ascii_of_string foldl].
    destruct (is_empty (line_buf s)); [|rewrite handle_sse_line_events];
      cbn [sse_events]; by case_match.
  - change (sse_bytes leaf (String c body) s) with (sse_bytes leaf body (sse_byte leaf s c)).
    unfold sse_byte. destruct (decide (c = LF)) as [->|Hc].
    + rewrite IH by (cbn; apply not_elem_of_nil).
      rewrite split_char_app, sse_lines_cons, handle_sse_line_events by
        (done || apply split_char_not_nil). done.
    + rewrite IH; [cbn; by rewrite str_app_assoc|].
      cbn. rewrite list_ascii_app, not_elem_of_app. split; [done|].
      cbn. apply not_elem_of_cons. split; [congruence|apply not_elem_of_nil].
Qed.

Lemma sse_stream_spec leaf cs b :
  sse_stream leaf (Ok <$> cs) b =
  (Ok tt, dispatch_all leaf b (sse_events "" (sse_lines (split_char LF (join "" cs))))).
Proof.
  unfold sse_stream. rewrite sse_chunks_ok. cbn.
  rewrite sse_end_bytes by (cbn; apply not_elem_of_nil). done.
Qed.

(** (C21) The notification stream is independent of how the network cuts it into
    chunks: what reaches the broker is one dispatch for each event of the bytes as a
    whole, in order, the last event included when the stream ends without the blank
    line that closes it. *)
Theorem stream_reference leaf cs b :
  sse_stream leaf (Ok <$> cs) b =
  (Ok tt, dispatch_all leaf b (sse_events "" (sse_lines (split_char LF (join "" cs))))).
Proof. apply sse_stream_spec. Qed.

(** The frame in which an SSE server sends a value *)
Definition frame (v : Value) : string := "data: " +:+ to_string v +:+ nl +:+ nl.

Section frames.
Context `{!SerdeLaws}.

Lemma no_trailing_cr l :
  CR ∉ String.list_ascii_of_string l → strip_suffix (String CR "") l = None.
Proof.
  intros Hl. apply strip_suffix_None. intros r ->. apply Hl.
  rewrite list_ascii_app. apply elem_of_app. right. left.
Qed.

Lemma data_line_clean v d :
  d = LF ∨ d = CR → d ∉ String.list_ascii_of_string ("data: " +:+ to_string v).
Proof.
  intros Hd. rewrite list_ascii_app. apply not_elem_of_app. split.
  - destruct Hd as [-> | ->]; by apply (bool_decide_unpack _).
  - destruct (to_string_one_line v). naive_solver.
Qed.

Lemma data_line_utf8 v :
  from_utf8_or_empty ("data: " +:+ to_string v) = "data: " +:+ to_string v.
Proof.
  unfold from_utf8_or_empty. rewrite utf8_valid_app by done. by rewrite to_string_utf8.
Qed.

Lemma frame_lines v rest :
  sse_lines (split_char LF (frame v +:+ rest)) =
  ("data: " +:+ to_string v) :: "" :: sse_lines (split_char LF rest).
Proof.
  assert (frame v +:+ rest = ("data: " +:+ to_string v) +:+ String LF ("" +:+ String LF rest))
    as -> by (unfold frame; by rewrite !str_app_assoc).
  rewrite split_char_app by (apply data_line_clean; by left).
  rewrite split_char_app by (cbn; apply not_elem_of_nil).
  rewrite sse_lines_cons by done.
  rewrite no_trailing_cr by (apply data_line_clean; by right). cbn [default].
  by rewrite sse_lines_cons by apply split_char_not_nil.
Qed.

Lemma frame_events v ls :
  sse_events "" (("data: " +:+ to_string v) :: "" :: ls) = to_string v :: sse_events "" ls.
Proof.
  cbn [sse_events]. rewrite data_line_utf8.
  change (starts_with ":" ("data: " +:+ to_string v)) with false.
  change (strip_prefix "data:" ("data: " +:+ to_string v)) with (Some (" " +:+ to_string v)).
  change (push_data "" (" " +:+ to_string v)) with (to_string v).
  change (is_empty ("data: " +:+ to_string v)) with false. cbn match.
  change (is_empty (from_utf8_or_empty "")) with true. cbn match.
  unfold is_empty. by rewrite bool_decide_eq_false_2 by apply to_string_not_empty.
Qed.

Lemma frames_events vs :
  sse_events "" (sse_lines (split_char LF (join "" (frame <$> vs)))) = to_string <$> vs.
Proof.
  induction vs as [|v vs IH]; [done|].
  rewrite fmap_cons, join_nil_cons, frame_lines, frame_events, IH. done.
Qed.

(** What one server streams another reads: the frames of any values, cut into
    chunks in any way, are published on the reader's broker one by one, in order,
    each as its text reads back and with the name of the leaf in its parameters, and
    nothing else is. *)
Theorem stream_roundtrip leaf vs cs b :
  join "" cs = join "" (frame <$> vs) →
  sse_stream leaf (Ok <$> cs) b =
  (Ok tt, foldl (λ b v, (publish (annotate leaf (canon v)) b).2) b vs).
Proof.
  intros Hcs. rewrite sse_stream_spec, Hcs, frames_events. f_equal. clear Hcs cs.
  revert b. induction vs as [|v vs IH]; intros b; [done|].
  change (dispatch_all leaf (dispatch_event leaf (to_string v) b) (to_string <$> vs) =
    foldl (λ b v, (publish (annotate leaf (canon v)) b).2) (publish (annotate leaf (canon v)) b).2 vs).
  rewrite IH. unfold dispatch_event. by rewrite from_str_to_string.
Qed.

(** A reply sent as a single event is read back by [send_once]'s parser: the
    value of its frame is the value that was framed, as it reads back. *)
Theorem parse_sse_body_frame v : parse_sse_body (frame v) = Some (canon v).
Proof.
  assert (lines (frame v) = ["data: " +:+ to_string v; ""]) as Hl.
  { assert (frame v = ("data: " +:+ to_string v) +:+ String LF ("" +:+ String LF "")) as ->
      by (unfold frame; by rewrite str_app_assoc).
    unfold lines. rewrite split_inclusive_app by (apply data_line_clean; by left).
    rewrite split_inclusive_app by (cbn; apply not_elem_of_nil).
    cbn [fmap list_fmap split_inclusive]. rewrite !strip_suffix_app.
    cbn [default]. by rewrite no_trailing_cr by (apply data_line_clean; by right). }
  assert (sse_body_line "" ("data: " +:+ to_string v) = to_string v) as Hd.
  { unfold sse_body_line. by rewrite no_trailing_cr by (apply data_line_clean; by right). }
  unfold parse_sse_body. rewrite Hl. cbn [foldl]. rewrite Hd.
  change (sse_body_line (to_string v) "") with (to_string v).
  unfold is_empty. rewrite bool_decide_eq_false_2 by apply to_string_not_empty.
  by rewrite from_str_to_string.
Qed.
End frames.

(** A forwarded notification names its leaf and keeps the rest: an object stays
    an object with [_leaf] set in its [params] to the leaf's alias, every other field
    is as it was, and so is every other parameter when there were parameters; a
    payload that is not an object is forwarded as it is. *)
Theorem annotate_names_leaf leaf v :
  match v with
  | VObject _ =>
      (get "params" (annotate leaf v) ≫= get_str "_leaf") = Some leaf ∧
      (∀ k, k ≠ "params" → get k (annotate leaf v) = get k v) ∧
      (∀ k, k ≠ "_leaf" →
         (get "params" (annotate leaf v) ≫= get k) = (get "params" v ≫= get k))
  | _ => annotate leaf v = v
  end.
Proof.
  destruct v as [| | | | |m]; try done. cbn [annotate get].
  rewrite obj_get_insert, decide_True by done. split_and!.
  - cbn. unfold get_str. cbn. by rewrite obj_get_insert.
  - intros k Hk. by rewrite obj_get_insert, decide_False.
  - intros k Hk. cbn. rewrite obj_get_insert, decide_False by done.
    by destruct (obj_get "params" m) as [[]|].
Qed.

(** ** The requests an operation makes *)

(** Everything but the session id and the counter is fixed. *)
Definition same_leaf (c c' : LeafClient) : Prop :=
  c' = with_session (session_id c') (with_next_id (next_id c') c).

#[export] Instance same_leaf_preorder : PreOrder same_leaf.
Proof.
  split; [by intros []|]. intros a b c Hab Hbc. unfold same_leaf in *. rewrite Hbc, Hab.
  by destruct a.
Qed.

(** [e'] is [e] after the requests [bodies], posted by [c] *)
Definition posts (c : LeafClient) (bodies : list Value) (e e' : Env) : Prop :=
  env_le e e' ∧
  ∃ rqs, sent e' = sent e ++ rqs ∧
    Forall2 (λ rq b, ∃ t o, rq = post_request t (with_session o c) b) rqs bodies.

(** The status of the answer to the last request *)
Definition last_status (c : LeafClient) (e : Env) : option Z :=
  rq ← last (sent e);
  resp ← res_ok (http (lc_http c) (List.length (sent e) - 1) rq).2;
  Some (hp_status resp).

Lemma posts_app c b1 b2 e1 e2 e3 :
  posts c b1 e1 e2 → posts c b2 e2 e3 → posts c (b1 ++ b2) e1 e3.
Proof.
  intros (Hle & rqs & Hs & Hf) (Hle' & rqs' & Hs' & Hf'). split; [by etrans|].
  exists (rqs ++ rqs'). rewrite Hs', Hs, <- (assoc_L (++)). split; [done|].
  by apply Forall2_app.
Qed.
Lemma posts_nil c e : posts c [] e e.
Proof. split; [done|]. exists []. by rewrite app_nil_r. Qed.

Lemma post_request_ext t c c' b :
  same_leaf c c' → post_request t c' b = post_request t (with_session (session_id c') c) b.
Proof. intros Hc. rewrite Hc. by destruct c. Qed.
Lemma posts_ext c c' bs e e' : same_leaf c c' → posts c' bs e e' → posts c bs e e'.
Proof.
  intros Hc (Hle & rqs & Hs & Hf). split; [done|]. exists rqs. split; [done|].
  eapply Forall2_impl; [exact Hf|]. intros rq b (t & o & ->). exists t, o.
  rewrite Hc. by destruct c.
Qed.

Lemma send_once_spec body c e :
  let '(r, (c', e')) := send_once body (c, e) in
  same_leaf c c' ∧ next_id c' = next_id c ∧ posts c [body] e e' ∧
  sent e' = sent e ++ [post_request (now e) c body] ∧
  (∀ st v, r = Ok (st, v) → last_status c e' = Some st).
Proof.
  unfold send_once. set (rq := post_request (now e) c body).
  pose proof (send_le (lc_http c) rq e) as Hle.
  pose proof (send_sent (lc_http c) rq e) as Hs.
  assert ((send (lc_http c) rq e).1 = (http (lc_http c) (List.length (sent e)) rq).2) as Hr
    by (unfold send; by destruct (http _ _ _)).
  destruct (send (lc_http c) rq e) as [r e']. cbn in Hle, Hs, Hr.
  assert (posts c [body] e e') as Hp.
  { split; [done|]. exists [rq]. split; [done|]. repeat constructor.
    exists (now e), (session_id c). by destruct c. }
  assert (last (sent e') = Some rq) as Hl by (by rewrite Hs, last_snoc).
  assert (∀ resp, r = Ok resp → last_status c e' = Some (hp_status resp)) as Hst.
  { intros resp ->. unfold last_status. rewrite Hl, Hs, length_app. cbn.
    replace (length (sent e) + 1 - 1)%nat with (length (sent e)) by lia. by rewrite <- Hr. }
  assert (∀ o, same_leaf c (with_session o c)) as Hsl by (intros; by destruct c).
  destruct r as [resp|err]; [|done].
  specialize (Hst resp eq_refl).
  set (c' := if streamable c then _ else c).
  assert (same_leaf c c' ∧ next_id c' = next_id c) as [Hc' Hn]
    by (unfold c'; destruct (streamable c), (header_str "mcp-session-id" (hp_headers resp)); done).
  by destruct (body_bytes (hp_chunks resp)); split_and!; try done; intros ?? [= <- <-].
Qed.

Definition init_request (id : Z) : Value := rpc_request id "initialize" initialize_params.

Lemma initialize_spec c e :
  let '(r, (c', e')) := initialize (c, e) in
  same_leaf c c' ∧
  sent e' !! length (sent e) =
    Some (post_request (now e) (with_session None c) (init_request (next_id c))) ∧
  (posts c [init_request (next_id c)] e e' ∧ is_ok r = false ∨
   posts c [init_request (next_id c); initialized_notification] e e').
Proof.
  unfold initialize. set (c1 := if streamable c then with_session None c else c).
  assert ((if streamable c then set_session None else λ s : S, (tt, s)) (c, e) =
          (tt, (c1, e))) as Hw
    by (unfold c1; by destruct (streamable c)).
  run_m. rewrite Hw. unfold next_request_id.
  assert (next_id c1 = next_id c) as -> by (unfold c1; by destruct (streamable c)).
  set (c2 := with_next_id _ c1).
  assert (same_leaf c c2) as Hc2 by (unfold c2, c1; destruct (streamable c); by destruct c).
  assert (∀ t b, post_request t c2 b = post_request t (with_session None c) b) as Hrq.
  { intros. unfold c2, c1. destruct (streamable c) eqn:E; [done|].
    unfold post_request. cbn. unfold streamable in *. cbn. by rewrite E. }
  fold (init_request (next_id c)).
  pose proof (send_once_spec (init_request (next_id c)) c2 e) as Ho1.
  destruct (send_once _ (c2, e)) as [r1 [c3 e1]].
  destruct Ho1 as (Hc3 & _ & Hp1 & Hs1 & _). apply (posts_ext c) in Hp1; [|done].
  assert (same_leaf c c3) as Hcc3 by by etrans.
  rewrite Hrq in Hs1.
  assert (sent e1 !! length (sent e) = Some (post_request (now e) (with_session None c)
            (init_request (next_id c)))) as Hfirst by (rewrite Hs1; by apply list_lookup_middle).
  destruct r1 as [[status response]|err]; [|split_and!; [done..|by left]].
  destruct (is_success status); [|split_and!; [done..|by left]].
  pose proof (send_once_spec initialized_notification c3 e1) as Ho2.
  destruct (send_once _ (c3, e1)) as [r2 [c4 e2]].
  destruct Ho2 as (Hc4 & _ & Hp2 & Hs2 & _). apply (posts_ext c) in Hp2; [|done].
  assert (sent e2 !! length (sent e) = sent e1 !! length (sent e)) as Hsame
    by (rewrite Hs2; apply lookup_app_l; rewrite Hs1, length_app; cbn; lia).
  destruct (get "result" response); cbn;
    (split_and!; [by etrans|by rewrite Hsame|right; by eapply (posts_app c [_] [_])]).
Qed.

Lemma no_session_header t c b :
  "mcp-session-id" ∉ (hq_headers (post_request t (with_session None c) b)).*1.
Proof.
  unfold post_request, auth_header, session_header. cbn.
  destruct (resolve_auth_token _ _), (streamable _); cbn;
    by apply (bool_decide_unpack _).
Qed.

Lemma last_status_ext c c' e : same_leaf c c' → last_status c' e = last_status c e.
Proof. intros ->. by destruct c. Qed.

(** The request at position [n], if there is one, is outside any session. *)
Definition sessionless (n : nat) (rqs : list HttpRequest) : Prop :=
  ∀ rq, rqs !! n = Some rq → "mcp-session-id" ∉ (hq_headers rq).*1.

Definition retry_bodies (body : Value) (id : Z) : list (list Value) :=
  [[init_request id]; [init_request id; initialized_notification];
   [init_request id; initialized_notification; body]].

Lemma reinit_and_retry_spec body c e :
  let '(r, (c', e')) := reinit_and_retry body (c, e) in
  same_leaf c c' ∧ sessionless (length (sent e)) (sent e') ∧
  ∃ bodies, bodies ∈ retry_bodies body (next_id c) ∧ posts c bodies e e' ∧
    (is_ok r = true → last bodies = Some body ∧
       ∃ st, last_status c e' = Some st ∧ is_success st = true).
Proof.
  unfold reinit_and_retry. run_m. pose proof (initialize_spec c e) as Hi.
  destruct (initialize (c, e)) as [r2 [c2 e2]]. destruct Hi as (Hc2 & Hf2 & Hp2).
  assert (∀ e3, sent e2 `prefix_of` sent e3 → sessionless (length (sent e)) (sent e3)) as Hhead.
  { intros e3 Hpre rq Hrq. eapply prefix_lookup_Some in Hf2; [|exact Hpre].
    rewrite Hf2 in Hrq. injection Hrq as <-. apply no_session_header. }
  destruct Hp2 as [[Hp2 Hr2]|Hp2].
  { destruct r2; [done|]. split_and!; [done|by apply Hhead|].
    exists [init_request (next_id c)]. split_and!; [by left|done|done]. }
  destruct r2 as [v|err].
  2:{ split_and!; [done|by apply Hhead|].
      exists [init_request (next_id c); initialized_notification].
      split_and!; [by right; left|done|done]. }
  pose proof (send_once_spec body c2 e2) as Ho3.
  destruct (send_once body (c2, e2)) as [r3 [c3 e3]].
  destruct Ho3 as (Hc3 & _ & Hp3 & Hs3 & Hst3). apply (posts_ext c) in Hp3; [|done].
  pose proof (posts_app _ _ _ _ _ _ Hp2 Hp3) as Hp.
  assert (same_leaf c c3) as Hcc3 by by etrans.
  assert (sessionless (length (sent e)) (sent e3)) as Hh3
    by (apply Hhead; rewrite Hs3; by apply prefix_app_r).
  destruct r3 as [[st v3]|err]; [destruct (is_success st) eqn:Est|];
    (split_and!; [done|done|]);
    exists [init_request (next_id c); initialized_notification; body];
    (split_and!; [by right; right; left|done|try done]).
  intros _. split; [done|]. exists st. split; [|done].
  rewrite <- (last_status_ext c c2) by done. by eapply Hst3.
Qed.

Lemma send_request_spec body c e :
  let '(r, (c', e')) := send_request body (c, e) in
  same_leaf c c' ∧
  ∃ bodies, bodies ∈ [] :: retry_bodies body (next_id c) ∧
    posts c (body :: bodies) e e' ∧
    (streamable c = false → bodies = []) ∧
    sessionless (Datatypes.S (length (sent e))) (sent e') ∧
    (is_ok r = true → last (body :: bodies) = Some body ∧
       ∃ st, last_status c e' = Some st ∧ is_success st = true).
Proof.
  unfold send_request. run_m. pose proof (send_once_spec body c e) as Ho1.
  destruct (send_once body (c, e)) as [r1 [c1 e1]].
  destruct Ho1 as (Hc1 & Hn1 & Hp1 & Hs1 & Hst1).
  assert (length (sent e1) = Datatypes.S (length (sent e))) as Hl1
    by (rewrite Hs1, length_app; cbn; lia).
  assert (sessionless (Datatypes.S (length (sent e))) (sent e1)) as Hend
    by (intros rq; by rewrite lookup_ge_None_2 by lia).
  destruct r1 as [[status value]|err].
  2:{ split; [done|]. exists []. split_and!; try done. by left. }
  specialize (Hst1 _ _ eq_refl).
  assert (streamable c1 = streamable c) as -> by (rewrite Hc1; by destruct c).
  destruct (streamable c && _) eqn:Eretry.
  2:{ destruct (is_success status) eqn:Est; (split; [done|]); exists [];
        split_and!; try done; try (by left). eauto. }
  apply andb_true_iff in Eretry as [Estr _].
  pose proof (reinit_and_retry_spec body c1 e1) as Hi.
  destruct (reinit_and_retry body (c1, e1)) as [r2 [c2 e2]].
  rewrite Hn1, Hl1 in Hi. destruct Hi as (Hc2 & Hh & bodies & Hin & Hp2 & Hok).
  apply (posts_ext c) in Hp2; [|done].
  split; [by etrans|]. exists bodies. split_and!; [by right| |congruence|done|].
  - by eapply (posts_app c [body]).
  - intros Hr. destruct (Hok Hr) as [Hl Hst]. rewrite (last_status_ext c c1) in Hst by done.
    split; [|done]. destruct bodies; [done|]. exact Hl.
Qed.


(** What the operations built on it send: the named method with the parameters *)
Definition requested (meth : string) (params : Value) (c : LeafClient) (e e' : Env) : Prop :=
  ∃ bodies, posts c (rpc_request (next_id c) meth params :: bodies) e e'.

Lemma posts_next_id n c bs e e' : posts (with_next_id n c) bs e e' ↔ posts c bs e e'.
Proof. split; apply posts_ext; by destruct c. Qed.

Lemma send_request_posts body c e :
  let '(r, (c', e')) := send_request body (c, e) in
  same_leaf c c' ∧ ∃ bodies, posts c (body :: bodies) e e'.
Proof.
  pose proof (send_request_spec body c e) as Hs. destruct (send_request _ _) as [r [c' e']].
  naive_solver.
Qed.

Lemma call_op_spec meth missing params c e :
  let '(r, (c', e')) := call_op meth missing params (c, e) in
  same_leaf c c' ∧ requested meth params c e e'.
Proof.
  unfold call_op, requested. run_m. cbn [next_request_id].
  set (c1 := with_next_id _ c). assert (same_leaf c c1) as Hc1 by by destruct c.
  pose proof (send_request_posts (rpc_request (next_id c) meth params) c1 e) as Hs.
  destruct (send_request _ (c1, e)) as [r [c' e']]. destruct Hs as (Hc' & bs & Hp).
  assert (same_leaf c c') by by etrans.
  unfold c1 in Hp. rewrite posts_next_id in Hp.
  destruct r as [v|]; [|eauto].
  destruct (get "error" v); [|destruct (get "result" v)]; cbn; eauto.
Qed.

Lemma list_op_spec meth key c e :
  let '(r, (c', e')) := list_op meth key (c, e) in
  same_leaf c c' ∧ requested meth (json_obj []) c e e'.
Proof.
  unfold list_op, requested. run_m. cbn [next_request_id].
  set (c1 := with_next_id _ c). assert (same_leaf c c1) as Hc1 by by destruct c.
  pose proof (send_request_posts (rpc_request (next_id c) meth (json_obj [])) c1 e) as Hs.
  destruct (send_request _ (c1, e)) as [r [c' e']]. destruct Hs as (Hc' & bs & Hp).
  assert (same_leaf c c') by by etrans.
  unfold c1 in Hp. rewrite posts_next_id in Hp.
  destruct r as [v|]; eauto.
Qed.
End client.

(** ** Witnesses *)
Module Example.
(** The frame of one value in two chunks, for an empty broker *)
Definition v : Value := json_obj [("method", VString "notifications/tools/list_changed")].
Definition text : string := frame (H1 := Json.Example.serde) v.
End Example.

Lemma stream_roundtrip_witness :
  sse_stream (H1 := Json.Example.serde) (H2 := Notifications.Example.mo) "leaf"
    (Ok <$> ["data"; String.substring 4 (String.length Example.text) Example.text]) Notifications.Example.b =
  (Ok tt, (publish (H := Notifications.Example.mo) (annotate "leaf" (canon Example.v))
             Notifications.Example.b).2).
Proof.
  apply (stream_roundtrip (H1 := Json.Example.serde) (H2 := Notifications.Example.mo)
           (H3 := Json.Example.serde_laws) "leaf" [Example.v]).
  vm_compute. reflexivity.
Defined.

Lemma parse_sse_body_frame_witness :
  parse_sse_body (H1 := Json.Example.serde) Example.text = Some (canon Example.v).
Proof. exact (parse_sse_body_frame (H1 := Json.Example.serde) (H3 := Json.Example.serde_laws) Example.v). Defined.
