(* ===== verification/Scenario.v ===== *)
(** * Scenario: a small deployment, for the witnesses

    Two leaves: [alpha] answers every request, [beta] refuses connections.  The
    instances are concrete, so the definitions of the other files evaluate on it. *)
From S2P Require Import Prelude Text Json Env F64 Config LeafClient.
From Stdlib Require Import QArith.
Open Scope string_scope.
Open Scope list_scope.

Definition os : Os :=
  {| env_var := λ _, None; read_file := λ _ _, Err "not found";
     read_bytes := λ _ _, Err "not found";
     system_time := λ t, (1700000000 * NANOS + t)%Z; uuid := λ n, "uuid-" +:+ fmt_nat n |}.

Definition serde : Serde := Json.Example.serde.

Definition mo : MapOrder :=
  {| map_order := λ A m, map_to_list m; map_order_perm := λ A m, reflexivity _ |}.

Definition tool (name description : string) : Value :=
  json_obj [("name", VString name); ("description", VString description)].
Definition alpha_tools : list Value := [tool "get" "Get a thing"; tool "put" "Put a thing"].

(** The answer of [alpha] to a JSON-RPC request *)
Definition alpha_result (meth : string) : Value :=
  if decide (meth = "initialize") then
    json_obj [("serverInfo", json_obj [("name", VString "mcp-federation")])]
  else if decide (meth = "tools/list") then json_obj [("tools", VArray alpha_tools)]
  else if decide (meth = "tools/call") then json_obj [("content", VString "done")]
  else json_obj [].

Definition ok_response (body : string) : HttpResponse :=
  {| hp_status := 200; hp_headers := [("content-type", Some "application/json")];
     hp_chunks := [Ok body] |}.

Definition http_alpha (rq : HttpRequest) : result string HttpResponse :=
  if starts_with "http://alpha" (hq_url rq) then
    Ok (ok_response
          match hq_body rq with
          | Some body =>
              Json.Example.bits (encode
                (json_obj [("result", alpha_result (default "" (get_str "method" body)))]))
          | None => "ok"
          end)
  else Err "connection refused".

Definition http : Http :=
  {| Env.http := λ _ _ rq, (NANOS, http_alpha rq);
     status_text := λ s, fmt_N (Z.to_N s);
     status_error := λ s, fmt_N (Z.to_N s);
     certificate := λ _, Err "no certificate" |}.

Definition server (name : string) : ServerConfig :=
  {| Config.alias := name; Config.url := "http://" +:+ name +:+ "/mcp";
     Config.auth_token := None; Config.auth_token_file := None;
     Config.transport := HttpPost; Config.tags := [];
     Config.health_check := HealthCheckConfig_default; Config.timeout_seconds := None;
     Config.tls := TlsConfig_default |}.

Definition env : Env := {| now := 0; uuids := 0; sent := [] |}.
