(* ===== verification/Registry.v ===== *)
(** * Registry: the leaves and their shared state ([src/registry.rs])

    A leaf is shared ([Arc<LeafEntry>]) by the registry's table, the health monitors,
    the background tasks and the requests in flight, and it is mutated in place.  So
    the entries live in a heap, a reference is a location, and a component that holds
    a location sees what the others do to it, also after the table has dropped or
    replaced the alias.

    [World] is the state the operations run on: the surroundings, the heap, the
    registry, the broker, what was sent to the Kubernetes API, and the tasks that were
    spawned and are not awaited, which the program may run at any later point
    (Actions.v).  An operation runs to its end here; Awaits.v has its yields. *)
From S2P Require Import Prelude Text Json Protocol Env Config Notifications LeafClient.
From S2P Require Import Scenario.
Open Scope string_scope.
Open Scope list_scope.

Inductive LeafHealth : Type := Unknown | Healthy | Unhealthy.
#[export] Instance LeafHealth_eq_dec : EqDecision LeafHealth.
Proof. solve_decision. Defined.

Record LeafEntry := {
  le_config : ServerConfig;
  le_client : LeafClient;
  cached_tools : list Value;
  cached_resources : list Value;
  cached_prompts : list Value;
  le_health : LeafHealth;
  last_health_check : option Z;
  last_tool_refresh : option Z;
  consecutive_failures : Z;            (** 32 bits *)
  server_info : option Value;
}.

Definition le_alias (e : LeafEntry) : string := Config.alias (le_config e).

(** Writing one field *)
Definition set_client (x : LeafClient) (e : LeafEntry) : LeafEntry :=
  {| le_config := le_config e; le_client := x; cached_tools := cached_tools e;
     cached_resources := cached_resources e; cached_prompts := cached_prompts e;
     le_health := le_health e; last_health_check := last_health_check e;
     last_tool_refresh := last_tool_refresh e;
     consecutive_failures := consecutive_failures e; server_info := server_info e |}.
Definition set_lists (t r p : list Value) (e : LeafEntry) : LeafEntry :=
  {| le_config := le_config e; le_client := le_client e; cached_tools := t;
     cached_resources := r; cached_prompts := p;
     le_health := le_health e; last_health_check := last_health_check e;
     last_tool_refresh := last_tool_refresh e;
     consecutive_failures := consecutive_failures e; server_info := server_info e |}.
Definition set_tools (x : list Value) (e : LeafEntry) : LeafEntry :=
  set_lists x (cached_resources e) (cached_prompts e) e.
Definition set_resources (x : list Value) (e : LeafEntry) : LeafEntry :=
  set_lists (cached_tools e) x (cached_prompts e) e.
Definition set_prompts (x : list Value) (e : LeafEntry) : LeafEntry :=
  set_lists (cached_tools e) (cached_resources e) x e.
Definition set_status (h : LeafHealth) (c : option Z) (f : Z) (e : LeafEntry) : LeafEntry :=
  {| le_config := le_config e; le_client := le_client e; cached_tools := cached_tools e;
     cached_resources := cached_resources e; cached_prompts := cached_prompts e;
     le_health := h; last_health_check := c; last_tool_refresh := last_tool_refresh e;
     consecutive_failures := f; server_info := server_info e |}.
Definition set_refreshed (x : option Z) (e : LeafEntry) : LeafEntry :=
  {| le_config := le_config e; le_client := le_client e; cached_tools := cached_tools e;
     cached_resources := cached_resources e; cached_prompts := cached_prompts e;
     le_health := le_health e; last_health_check := last_health_check e;
     last_tool_refresh := x;
     consecutive_failures := consecutive_failures e; server_info := server_info e |}.
Definition set_server_info (x : option Value) (e : LeafEntry) : LeafEntry :=
  {| le_config := le_config e; le_client := le_client e; cached_tools := cached_tools e;
     cached_resources := cached_resources e; cached_prompts := cached_prompts e;
     le_health := le_health e; last_health_check := last_health_check e;
     last_tool_refresh := last_tool_refresh e;
     consecutive_failures := consecutive_failures e; server_info := x |}.

(** ** Operations of an entry, at the instant [t] of their clock reads *)

Definition mark_healthy (t : Z) (e : LeafEntry) : LeafEntry :=
  set_status Healthy (Some t) 0 e.

(** The counter wraps at 32 bits. *)
Definition succ_u32 (n : Z) : Z := ((n + 1) mod 2 ^ 32)%Z.

Definition mark_unhealthy (t : Z) (e : LeafEntry) : LeafEntry :=
  set_status Unhealthy (Some t) (succ_u32 (consecutive_failures e)) e.

Definition record_failure (t : Z) (e : LeafEntry) : Z * LeafEntry :=
  let failures := succ_u32 (consecutive_failures e) in
  (failures, set_status (le_health e) (Some t) failures e).

Definition is_healthy (e : LeafEntry) : bool := bool_decide (le_health e ≠ Unhealthy).

Definition mark_tools_refreshed (t : Z) (e : LeafEntry) : LeafEntry := set_refreshed (Some t) e.

Definition tools_stale (t ttl : Z) (e : LeafEntry) : bool :=
  match last_tool_refresh e with
  | None => true
  | Some last => (ttl <=? F64.since t last)%Z
  end.

Definition is_federation (e : LeafEntry) : bool :=
  bool_decide ((server_info e ≫= get_str "name") = Some "mcp-federation").

(** ** The world *)

(** What the program spawns and does not wait for: a refresh of a leaf's tools, the
    initialisation of a leaf that was added at run time, which may keep the leaf's
    [serverInfo] and report to a Kubernetes object (namespace and name), and a
    notification listener. *)
Inductive Task : Type :=
| TRefresh (l : nat)
| TInit (l : nat) (keep_info : bool) (report : option (string * string))
| TListen (l : nat).
#[export] Instance Task_eq_dec : EqDecision Task.
Proof. solve_decision. Defined.

Definition task_leaf (t : Task) : nat :=
  match t with TRefresh l | TInit l _ _ | TListen l => l end.

(** A patch sent to the Kubernetes API *)
Record KubePatch := {
  kp_namespace : string;
  kp_name : string;
  kp_status : bool;                    (** of the status subresource *)
  kp_body : Value;
}.

Record World := {
  w_env : Env;
  w_heap : gmap nat LeafEntry;
  w_leaves : gmap string nat;          (** [Registry::leaves] *)
  w_pool : ConnectionPoolConfig;       (** [Registry::pool_config] *)
  w_broker : NotificationBroker;
  w_patches : list KubePatch;
  w_tasks : list Task;
}.

Definition set_env (x : Env) (w : World) : World :=
  {| w_env := x; w_heap := w_heap w; w_leaves := w_leaves w; w_pool := w_pool w;
     w_broker := w_broker w; w_patches := w_patches w; w_tasks := w_tasks w |}.
Definition set_heap (x : gmap nat LeafEntry) (w : World) : World :=
  {| w_env := w_env w; w_heap := x; w_leaves := w_leaves w; w_pool := w_pool w;
     w_broker := w_broker w; w_patches := w_patches w; w_tasks := w_tasks w |}.
Definition set_leaves (x : gmap string nat) (w : World) : World :=
  {| w_env := w_env w; w_heap := w_heap w; w_leaves := x; w_pool := w_pool w;
     w_broker := w_broker w; w_patches := w_patches w; w_tasks := w_tasks w |}.
Definition set_broker (x : NotificationBroker) (w : World) : World :=
  {| w_env := w_env w; w_heap := w_heap w; w_leaves := w_leaves w; w_pool := w_pool w;
     w_broker := x; w_patches := w_patches w; w_tasks := w_tasks w |}.
Definition set_patches (x : list KubePatch) (w : World) : World :=
  {| w_env := w_env w; w_heap := w_heap w; w_leaves := w_leaves w; w_pool := w_pool w;
     w_broker := w_broker w; w_patches := x; w_tasks := w_tasks w |}.
Definition set_tasks (x : list Task) (w : World) : World :=
  {| w_env := w_env w; w_heap := w_heap w; w_leaves := w_leaves w; w_pool := w_pool w;
     w_broker := w_broker w; w_patches := w_patches w; w_tasks := x |}.

Definition wnow (w : World) : Z := now (w_env w).

(** Reading through a reference, which is never dangling ([world_wf] below) *)
#[export] Instance LeafClient_inhabited : Inhabited LeafClient.
Proof. repeat constructor. Qed.
#[export] Instance LeafEntry_inhabited : Inhabited LeafEntry.
Proof. repeat constructor. Qed.
Definition entry (l : nat) (w : World) : LeafEntry := w_heap w !!! l.

Definition update (l : nat) (f : LeafEntry → LeafEntry) : M World unit :=
  λ w, (tt, set_heap (alter f l (w_heap w)) w).
(** An operation that reads the clock *)
Definition update_now (l : nat) (f : Z → LeafEntry → LeafEntry) : M World unit :=
  λ w, update l (f (wnow w)) w.
Definition spawn (t : Task) : M World unit := λ w, (tt, set_tasks (w_tasks w ++ [t]) w).
Definition alloc (e : LeafEntry) : M World nat :=
  λ w, let l := fresh (dom (w_heap w)) in (l, set_heap (<[l := e]> (w_heap w)) w).

(** An operation of the client of the leaf at [l] *)
Definition on_client {A} (l : nat) (m : M (LeafClient * Env) A) : M World A :=
  λ w, let '(a, (c, e)) := m (le_client (entry l w), w_env w) in
       (a, set_env e (set_heap (alter (set_client c) l (w_heap w)) w)).

(** ** Operations of the registry *)
Section registry.
Context `{!Os, !Http, !Serde, !MapOrder}.

Definition LeafEntry_new_with_pool (t : Z) (config : ServerConfig)
    (pool : ConnectionPoolConfig) : LeafEntry :=
  {| le_config := config; le_client := LeafClient_new t config pool;
     cached_tools := []; cached_resources := []; cached_prompts := [];
     le_health := Unknown; last_health_check := None; last_tool_refresh := None;
     consecutive_failures := 0; server_info := None |}.

Definition LeafEntry_new (t : Z) (config : ServerConfig) : LeafEntry :=
  LeafEntry_new_with_pool t config ConnectionPoolConfig_default.

Definition with_pool (pool : ConnectionPoolConfig) (e : Env) : World :=
  {| w_env := e; w_heap := ∅; w_leaves := ∅; w_pool := pool; w_broker := broker_new;
     w_patches := []; w_tasks := [] |}.

Definition get_leaf (alias : string) : M World (option nat) :=
  m_gets (λ w, w_leaves w !! alias).
Definition all_leaves : M World (list nat) := m_gets (λ w, map_values (w_leaves w)).
Definition healthy_leaves : M World (list nat) :=
  m_gets (λ w, filter (λ l, is_healthy (entry l w) = true) (map_values (w_leaves w))).
Definition aliases : M World (list string) := m_gets (λ w, map_keys (w_leaves w)).

Definition add_leaf (alias : string) (l : nat) : M World (option nat) :=
  λ w, (w_leaves w !! alias, set_leaves (<[alias := l]> (w_leaves w)) w).
Definition remove_leaf (alias : string) : M World (option nat) :=
  λ w, (w_leaves w !! alias, set_leaves (delete alias (w_leaves w)) w).

(** [Arc::new(LeafEntry::new_with_pool(config, pool))] *)
Definition new_leaf (config : ServerConfig) : M World nat :=
  λ w, alloc (LeafEntry_new_with_pool (wnow w) config (w_pool w)) w.

Definition from_configs_with_pool (configs : list ServerConfig)
    (pool : ConnectionPoolConfig) (e : Env) : World :=
  (m_iter (λ config, l ← new_leaf config; _ ← add_leaf (Config.alias config) l; mret tt)
          configs (with_pool pool e)).2.

(** Keep the tools a leaf listed *)
Definition store_tools (l : nat) (tools : list Value) : M World unit :=
  _ ← update l (set_tools tools);
  update_now l mark_tools_refreshed.

(** List the tools of a leaf and keep them; the previous ones stay when it fails. *)
Definition refresh_leaf (l : nat) : M World (result FederationError nat) :=
  tools ←? on_client l list_tools;
  _ ← store_tools l tools;
  mret (Ok (length tools)).

Definition refresh_tools (alias : string) : M World (result string nat) :=
  leaf ← get_leaf alias;
  match leaf with
  | None => mret (Err ("unknown leaf: " +:+ alias))
  | Some l => r ← refresh_leaf l; mret (map_err error_text r)
  end.

Definition refresh_all_tools : M World (list (string * result string nat)) :=
  leaves ← all_leaves;
  m_map (λ l, a ← m_gets (λ w, le_alias (entry l w));
              r ← refresh_leaf l;
              mret (a, map_err error_text r)) leaves.

(** [mark_healthy] and the [serverInfo] of an initialisation that succeeded *)
Definition note_initialized (l : nat) (keep_info : bool) (init_result : Value)
  : M World unit :=
  _ ← update_now l mark_healthy;
  match (if keep_info then get "serverInfo" init_result else None) with
  | Some info => update l (set_server_info (Some info))
  | None => mret tt
  end.

(** The task of [initialize_all] for one leaf *)
Definition initialize_leaf (l : nat) : M World unit :=
  r ← on_client l initialize;
  match r with
  | Err _ => update_now l mark_unhealthy
  | Ok init_result =>
      _ ← note_initialized l true init_result;
      _ ← refresh_leaf l;
      resources ← on_client l list_resources;
      _ ← (match resources with Ok x => update l (set_resources x) | Err _ => mret tt end);
      prompts ← on_client l list_prompts;
      match prompts with Ok x => update l (set_prompts x) | Err _ => mret tt end
  end.

Definition initialize_all : M World unit :=
  leaves ← all_leaves;
  m_iter initialize_leaf leaves.

(** The task spawned for a leaf that is added while the program runs; the result says
    whether the handshake succeeded. *)
Definition init_leaf (l : nat) (keep_info : bool) : M World bool :=
  r ← on_client l initialize;
  match r with
  | Err _ => _ ← update_now l mark_unhealthy; mret false
  | Ok init_result =>
      _ ← note_initialized l keep_info init_result;
      _ ← refresh_leaf l;
      mret true
  end.
End registry.

(** A leaf added while the program runs: a new entry under the alias, replacing what was
    there, and the task that initialises it *)
Definition install `{!Os, !Http} (alias : string) (config : ServerConfig) (task : nat → Task)
  : M World nat :=
  l ← new_leaf config;
  _ ← add_leaf alias l;
  _ ← spawn (task l);
  mret l.

(** ** What an operation may change

    A [Change] says how an entry may change, for each location.  [acts_on C w w']: from
    [w] to [w'] time passed and requests were made, the entries changed as [C] allows,
    none appeared or went; table, broker, patches and tasks are as they were.  Whatever
    happens to an entry, it evolves: its configuration and the identity of its client stay,
    and once its health is known it stays known. *)
Definition evolved (e e' : LeafEntry) : Prop :=
  le_config e' = le_config e ∧ same_leaf (le_client e) (le_client e') ∧
  (le_health e ≠ Unknown → le_health e' ≠ Unknown).

#[export] Instance evolved_preorder : PreOrder evolved.
Proof.
  split; [by intros e|]. intros a b c (H1 & H2 & H3) (H4 & H5 & H6).
  split_and!; [congruence|by etrans|auto].
Qed.

Record Change := {
  change :> nat → LeafEntry → LeafEntry → Prop;
  change_preorder l : PreOrder (change l);
}.
#[export] Existing Instance change_preorder.

(** An entry keeps its configuration and the identity of its client; only those at the
    locations of [P] change. *)
Program Definition only (P : nat → Prop) : Change :=
  {| change := λ l e e', evolved e e' ∧ (¬ P l → e' = e) |}.
Next Obligation.
  intros P l. split; [done|]. intros a b c [H1 H2] [H3 H4].
  split; [by etrans|]. intros Hl. by rewrite H4, H2.
Qed.

(** A property of entries that is not lost *)
Program Definition keeping (Q : LeafEntry → Prop) : Change :=
  {| change := λ l e e', evolved e e' ∧ (Q e → Q e') |}.
Next Obligation.
  intros Q l. split; [done|]. intros a b c [H1 H2] [H3 H4].
  split; [by etrans|]. auto.
Qed.

Record acts_on (C : Change) (w w' : World) : Prop := {
  acts_leaves : w_leaves w' = w_leaves w;
  acts_pool : w_pool w' = w_pool w;
  acts_broker : w_broker w' = w_broker w;
  acts_patches : w_patches w' = w_patches w;
  acts_tasks : w_tasks w' = w_tasks w;
  acts_env : env_le (w_env w) (w_env w');
  acts_heap : ∀ l, option_Forall2 (C l) (w_heap w !! l) (w_heap w' !! l);
}.

#[export] Instance acts_on_preorder C : PreOrder (acts_on C).
Proof.
  split; [by split|].
  intros w1 w2 w3 [] []. split; try congruence; [by etrans|].
  intros l. by transitivity (w_heap w2 !! l).
Qed.

Definition acts {A} (C : Change) (m : M World A) : Prop := ∀ w, acts_on C w (m w).2.

Lemma acts_mono {A} (C D : Change) (m : M World A) :
  (∀ l e e', C l e e' → D l e e') → acts C m → acts D m.
Proof.
  intros HCD Hm w. destruct (Hm w). split; try done. intros l.
  destruct (acts_heap0 l); constructor. auto.
Qed.
Lemma acts_ret {A} C (a : A) : acts C (mret a).
Proof. intros w. reflexivity. Qed.
Lemma acts_gets {A} C (f : World → A) : acts C (m_gets f).
Proof. intros w. reflexivity. Qed.
Lemma acts_bind {A B} C (m : M World A) (f : A → M World B) :
  acts C m → (∀ a, acts C (f a)) → acts C (m ≫= f).
Proof.
  intros Hm Hf w. specialize (Hm w). run_m. destruct (m w) as [a w1]. etrans; [exact Hm|apply Hf].
Qed.
Lemma acts_bindr {E A B} C (m : M World (result E A)) (f : A → M World (result E B)) :
  acts C m → (∀ a, acts C (f a)) → acts C (m_bindr f m).
Proof.
  intros Hm Hf w. specialize (Hm w). run_m. destruct (m w) as [[a|e] w1]; [|exact Hm].
  etrans; [exact Hm|apply Hf].
Qed.
Lemma acts_iter {A} C (f : A → M World unit) (l : list A) :
  (∀ a, a ∈ l → acts C (f a)) → acts C (m_iter f l).
Proof.
  induction l as [|a l IH]; intros Hf; [apply acts_ret|]. cbn [m_iter].
  apply acts_bind; [apply Hf; left|]. intros _. apply IH. intros. apply Hf. by right.
Qed.
Lemma acts_map {A B} C (f : A → M World B) (l : list A) :
  (∀ a, a ∈ l → acts C (f a)) → acts C (m_map f l).
Proof.
  induction l as [|a l IH]; intros Hf; [apply acts_ret|]. cbn [m_map].
  apply acts_bind; [apply Hf; left|]. intros b. apply acts_bind; [|intros; apply acts_ret].
  apply IH. intros. apply Hf. by right.
Qed.

Lemma heap_alter (C : Change) l (f : LeafEntry → LeafEntry) (h : gmap nat LeafEntry) l' :
  (∀ e, h !! l = Some e → C l e (f e)) → option_Forall2 (C l') (h !! l') (alter f l h !! l').
Proof.
  intros Hf. destruct (decide (l = l')) as [<-|Hne].
  - rewrite lookup_alter_eq. destruct (h !! l) as [e|]; constructor. by apply Hf.
  - by rewrite lookup_alter_ne.
Qed.

Lemma acts_update (C : Change) l (f : LeafEntry → LeafEntry) :
  (∀ e, C l e (f e)) → acts C (update l f).
Proof. intros Hf w. split; try done. intros l'. apply heap_alter. auto. Qed.
Lemma acts_update_now (C : Change) l f :
  (∀ t e, C l e (f t e)) → acts C (update_now l f).
Proof. intros Hf w. by apply acts_update. Qed.

(** Operations of a client *)
Definition client_op {A} (m : M (LeafClient * Env) A) : Prop :=
  ∀ c e, let '(_, (c', e')) := m (c, e) in same_leaf c c' ∧ env_le e e'.

Lemma acts_on_client {A} (C : Change) l (m : M (LeafClient * Env) A) :
  client_op m →
  (∀ e c, same_leaf (le_client e) c → C l e (set_client c e)) → acts C (on_client l m).
Proof.
  intros Hm HC w. unfold on_client. specialize (Hm (le_client (entry l w)) (w_env w)).
  destruct (m _) as [a [c e]]. destruct Hm as [Hc He]. split; try done. intros l'. cbn.
  apply heap_alter. intros x Hx. apply HC. unfold entry in Hc.
  by rewrite lookup_total_alt, Hx in Hc.
Qed.

Create HintDb acts discriminated.
#[export] Hint Resolve acts_ret acts_gets acts_bind acts_bindr acts_iter acts_map
  acts_update acts_update_now acts_on_client : acts.
#[export] Hint Extern 1 (change (only _) _ _ _) => by repeat split : acts.
#[export] Hint Extern 3 (acts _ (match ?x with _ => _ end)) => destruct x : acts.

(** Reading what was written *)
Lemma update_lookup l f w e :
  w_heap w !! l = Some e → w_heap (update l f w).2 !! l = Some (f e).
Proof. intros Hl. cbn. by rewrite lookup_alter_eq, Hl. Qed.
Lemma entry_lookup l w e : w_heap w !! l = Some e → entry l w = e.
Proof. apply lookup_total_correct. Qed.
Lemma acts_on_lookup (C : Change) w w' l e :
  acts_on C w w' → w_heap w !! l = Some e → ∃ e', w_heap w' !! l = Some e' ∧ C l e e'.
Proof.
  intros [] Hl. specialize (acts_heap0 l). rewrite Hl in acts_heap0.
  inversion acts_heap0. eauto.
Qed.

Section acts_registry.
Context `{!Os, !Http, !Serde, !MapOrder}.

Lemma posts_le c bs e e' : posts c bs e e' → env_le e e'.
Proof. by intros [? _]. Qed.

Lemma call_op_client meth missing params : client_op (call_op meth missing params).
Proof.
  intros c e. pose proof (call_op_spec meth missing params c e) as Hs.
  destruct (call_op _ _ _ _) as [r [c' e']]. destruct Hs as [? [bs ?]]. eauto using posts_le.
Qed.
Lemma list_op_client meth key : client_op (list_op meth key).
Proof.
  intros c e. pose proof (list_op_spec meth key c e) as Hs.
  destruct (list_op _ _ _) as [r [c' e']]. destruct Hs as [? [bs ?]]. eauto using posts_le.
Qed.
Lemma initialize_client : client_op initialize.
Proof.
  intros c e. pose proof (initialize_spec c e) as Hs.
  destruct (initialize _) as [r [c' e']]. destruct Hs as (? & _ & [[? _]|?]); eauto using posts_le.
Qed.
Lemma health_check_client : client_op health_check_leaf.
Proof.
  intros c e. unfold health_check_leaf.
  match goal with |- context [send ?h ?rq e] => pose proof (send_le h rq e) as Hle;
    destruct (send h rq e) as [r e'] end.
  by split.
Qed.
Hint Resolve call_op_client list_op_client initialize_client health_check_client : acts.
Hint Extern 2 (client_op _) => apply list_op_client : acts.
Hint Extern 2 (client_op _) => apply call_op_client : acts.

(** Refreshing and initialising write their own leaf, and a property of entries that
    the writes of the caches do not touch survives a refresh. *)
Lemma refresh_leaf_acts (C : Change) l :
  (∀ e c, same_leaf (le_client e) c → C l e (set_client c e)) →
  (∀ e x, C l e (set_tools x e)) → (∀ e x, C l e (set_refreshed x e)) →
  acts C (refresh_leaf l).
Proof.
  intros Hc Ht Hr. apply acts_bindr; [auto with acts|]. intros tools.
  unfold store_tools, mark_tools_refreshed. auto 6 with acts.
Qed.
Lemma refresh_leaf_only l : acts (only (eq l)) (refresh_leaf l).
Proof. apply refresh_leaf_acts; auto with acts. Qed.

Lemma note_initialized_only l keep v : acts (only (eq l)) (note_initialized l keep v).
Proof. unfold note_initialized. auto 6 with acts. Qed.
Hint Resolve refresh_leaf_only note_initialized_only : acts.

Lemma initialize_leaf_only l : acts (only (eq l)) (initialize_leaf l).
Proof.
  apply acts_bind; [auto with acts|]. intros [v|]; [|auto with acts].
  auto 20 with acts.
Qed.
Lemma init_leaf_only l keep : acts (only (eq l)) (init_leaf l keep).
Proof.
  apply acts_bind; [auto with acts|]. intros [v|]; auto 20 with acts.
Qed.

(** ** Properties *)

(** Every reference in use points to an entry, and the table's keys are the aliases of
    the entries they lead to. *)
Definition world_wf (w : World) : Prop :=
  (∀ a l, w_leaves w !! a = Some l → ∃ e, w_heap w !! l = Some e ∧ le_alias e = a) ∧
  (∀ t, t ∈ w_tasks w → is_Some (w_heap w !! task_leaf t)).

Lemma acts_on_wf (C : Change) w w' :
  (∀ l e e', C l e e' → evolved e e') → acts_on C w w' → world_wf w → world_wf w'.
Proof.
  intros HC Hacts [Hl Ht]. pose proof Hacts as []. split.
  - intros a l. rewrite acts_leaves0. intros Ha. destruct (Hl _ _ Ha) as (e & He & Hal).
    destruct (acts_on_lookup _ _ _ _ _ Hacts He) as (e' & He' & Hc). exists e'.
    split; [done|]. apply HC in Hc as [Hcfg _]. unfold le_alias in *. by rewrite Hcfg.
  - intros t. rewrite acts_tasks0. intros Hin. destruct (Ht _ Hin) as [e He].
    destruct (acts_on_lookup _ _ _ _ _ Hacts He) as (e' & He' & _). eauto.
Qed.

(** The state a leaf is in once an initialisation has ended *)
Definition settled (e : LeafEntry) : Prop :=
  le_health e = Healthy ∧ consecutive_failures e = 0%Z ∨ le_health e = Unhealthy.

Hint Extern 1 (change (keeping _) _ _ _) => by repeat split; try (by left); try (by right) : acts.

Lemma refresh_leaf_keeps_status (Q : LeafEntry → Prop) l :
  (∀ e e', le_health e' = le_health e → consecutive_failures e' = consecutive_failures e →
     Q e → Q e') →
  acts (keeping Q) (refresh_leaf l).
Proof.
  intros HQ. apply refresh_leaf_acts; intros; (split; [done|]); by apply HQ.
Qed.
Lemma settled_status e e' :
  le_health e' = le_health e → consecutive_failures e' = consecutive_failures e →
  settled e → settled e'.
Proof. unfold settled. by intros -> ->. Qed.

Lemma rest_of_init_settled l keep v :
  acts (keeping settled) (note_initialized l keep v) ∧ acts (keeping settled) (refresh_leaf l).
Proof.
  split; [|apply refresh_leaf_keeps_status, settled_status].
  unfold note_initialized, mark_healthy. auto 8 with acts.
Qed.

Lemma initialize_leaf_settled l : acts (keeping settled) (initialize_leaf l).
Proof.
  apply acts_bind; [auto with acts|]. intros [v|]; [|unfold mark_unhealthy; auto with acts].
  apply acts_bind; [apply rest_of_init_settled|]. intros _.
  apply acts_bind; [by apply (rest_of_init_settled l true v)|]. intros _.
  auto 20 with acts.
Qed.

(** The entry at [l] satisfies [Q]. *)
Definition entry_sat (l : nat) (Q : LeafEntry → Prop) (w : World) : Prop :=
  ∃ e, w_heap w !! l = Some e ∧ Q e.

Lemma wp_keeping {A} (Q : LeafEntry → Prop) (m : M World A) l w :
  acts (keeping Q) m → entry_sat l Q w → wp m (λ _, entry_sat l Q) w.
Proof.
  intros Hm (e & He & HQ). destruct (acts_on_lookup _ _ _ _ _ (Hm w) He) as (e' & He' & HC).
  exists e'. split; [done|]. by apply HC.
Qed.
Lemma wp_update l f (P Q : LeafEntry → Prop) w :
  entry_sat l P w → (∀ e, P e → Q (f e)) → wp (update l f) (λ _, entry_sat l Q) w.
Proof. intros (e & He & HP) HQ. exists (f e). split; [by apply update_lookup|auto]. Qed.
Lemma wp_on_client {A} l (m : M (LeafClient * Env) A) w :
  client_op m → is_Some (w_heap w !! l) →
  wp (on_client l m) (λ _, entry_sat l (λ _, True)) w.
Proof. intros Hm [e He]. apply wp_keeping; [auto with acts|by exists e]. Qed.

Lemma initialize_leaf_settles l w :
  is_Some (w_heap w !! l) → wp (initialize_leaf l) (λ _, entry_sat l settled) w.
Proof.
  intros Hl. eapply wp_seq; [apply wp_on_client; auto with acts|].
  intros [v|err] w1 Hw1; [|eapply wp_update; [exact Hw1|by right]].
  apply wp_bind, (wp_seq _ _ (λ _, entry_sat l settled)).
  { eapply wp_update; [exact Hw1|by left]. }
  intros _ w2 Hw2. apply (wp_mono _ (λ _, entry_sat l settled)).
  2:{ apply wp_keeping; [auto 8 with acts|exact Hw2]. }
  intros _ w3 Hw3. apply wp_keeping; [|exact Hw3].
  apply acts_bind; [by apply (rest_of_init_settled l true v)|]. auto 20 with acts.
Qed.

Lemma iter_settles ls l w :
  (∀ l, l ∈ ls → is_Some (w_heap w !! l)) → (l ∈ ls ∨ entry_sat l settled w) →
  wp (m_iter initialize_leaf ls) (λ _, entry_sat l settled) w.
Proof.
  revert w. induction ls as [|l0 ls IH]; intros w Hls Hl; cbn [m_iter].
  { apply wp_ret. destruct Hl as [Hl|Hl]; [by apply not_elem_of_nil in Hl|done]. }
  assert (is_Some (w_heap w !! l0)) as Hl0 by (apply Hls; left).
  pose proof (initialize_leaf_settled l0 w) as Hk.
  apply (wp_seq _ _ (λ _ w', acts_on (keeping settled) w w' ∧ entry_sat l0 settled w')).
  { split; [exact Hk|]. by apply initialize_leaf_settles. }
  intros _ w' [Hw' Hl0']. apply IH.
  - intros l1 Hl1. destruct (Hls l1) as [e He]; [by right|].
    destruct (acts_on_lookup _ _ _ _ _ Hw' He) as (e' & He' & _). eauto.
  - destruct Hl as [Hl|(e & He & Hs)].
    + apply elem_of_cons in Hl as [->|Hl]; [by right|by left].
    + right. destruct (acts_on_lookup _ _ _ _ _ Hw' He) as (e' & He' & HC).
      exists e'. split; [done|]. by apply HC.
Qed.

Lemma initialize_all_acts : acts (keeping settled) initialize_all.
Proof.
  intros w. unfold initialize_all, all_leaves. run_m.
  apply (acts_iter (keeping settled)). intros. apply initialize_leaf_settled.
Qed.

Lemma initialize_all_leaf a l w :
  world_wf w → w_leaves w !! a = Some l → wp initialize_all (λ _, entry_sat l settled) w.
Proof.
  intros Hwf Ha. apply wp_bind, iter_settles.
  - intros l1 [a1 Ha1]%map_values_elem. destruct (proj1 Hwf _ _ Ha1) as (e & He & _). eauto.
  - left. apply map_values_elem. eauto.
Qed.

(** A forced refresh names an unknown alias without touching anything; for a known
    one it changes that leaf only: when the listing fails the cached tools stay and the
    error is reported, and when it succeeds the count is the number of tools now
    cached, which are not stale at that instant. *)
Theorem refresh_tools_effect alias w :
  world_wf w →
  let '(r, w') := refresh_tools alias w in
  match w_leaves w !! alias with
  | None => r = Err ("unknown leaf: " +:+ alias) ∧ w' = w
  | Some l =>
      acts_on (only (eq l)) w w' ∧
      match r with
      | Err _ => cached_tools (entry l w') = cached_tools (entry l w) ∧
                 last_tool_refresh (entry l w') = last_tool_refresh (entry l w)
      | Ok n => n = length (cached_tools (entry l w')) ∧
                ∀ ttl, (0 < ttl)%Z → tools_stale (wnow w') ttl (entry l w') = false
      end
  end.
Proof.
  intros [Hwf _]. unfold refresh_tools, get_leaf. run_m.
  destruct (w_leaves w !! alias) as [l|] eqn:Ha; [|done].
  destruct (Hwf _ _ Ha) as (e & He & _).
  pose proof (refresh_leaf_only l w) as Hacts. unfold refresh_leaf in *. revert Hacts. run_m.
  unfold on_client. rewrite (entry_lookup _ _ _ He).
  destruct (list_tools _) as [[tools|err] [c e1]].
  - intros Hacts. split; [exact Hacts|]. cbn. unfold entry, wnow. cbn.
    rewrite !lookup_total_alt, !lookup_alter_eq, He. cbn. split; [done|].
    intros ttl Httl. unfold tools_stale. cbn. apply Z.leb_gt. unfold F64.since. lia.
  - intros Hacts. split; [exact Hacts|]. cbn. unfold entry. cbn.
    by rewrite !lookup_total_alt, !lookup_alter_eq, He.
Qed.
End acts_registry.

#[export] Hint Resolve call_op_client list_op_client initialize_client health_check_client
  refresh_leaf_only note_initialized_only initialize_leaf_only init_leaf_only : acts.
#[export] Hint Extern 2 (client_op _) => apply list_op_client : acts.
#[export] Hint Extern 2 (client_op _) => apply call_op_client : acts.
#[export] Hint Extern 1 (change (keeping _) _ _ _) =>
  by repeat split; try (by left); try (by right) : acts.

(** ** Installing and removing leaves *)
Section installing.
Context `{!Os, !Http}.

Lemma install_spec alias config task w :
  let l := fresh (dom (w_heap w)) in
  install alias config task w =
  (l, {| w_env := w_env w;
         w_heap := <[l := LeafEntry_new_with_pool (wnow w) config (w_pool w)]> (w_heap w);
         w_leaves := <[alias := l]> (w_leaves w); w_pool := w_pool w; w_broker := w_broker w;
         w_patches := w_patches w; w_tasks := w_tasks w ++ [task l] |}).
Proof. done. Qed.

Lemma fresh_heap w : w_heap w !! fresh (dom (w_heap w)) = None.
Proof. apply not_elem_of_dom, is_fresh. Qed.

(** The heap only grows: entries keep what they had. *)
Definition heap_grows (w w' : World) : Prop := w_heap w ⊆ w_heap w'.

Lemma install_grows alias config task w : heap_grows w (install alias config task w).2.
Proof. rewrite install_spec. apply insert_subseteq, fresh_heap. Qed.

Lemma install_wf alias config task w :
  Config.alias config = alias → (∀ l, task_leaf (task l) = l) →
  world_wf w → world_wf (install alias config task w).2.
Proof.
  intros Ha Ht [Hl Hts]. rewrite install_spec. cbn. set (l := fresh _).
  assert (w_heap w !! l = None) as Hf by apply fresh_heap. split; cbn.
  - intros a l'. rewrite lookup_insert_Some. intros [[<- <-]|[Hne Hl']].
    + rewrite lookup_insert_eq. by eexists.
    + destruct (Hl _ _ Hl') as (e & He & Hea). exists e. split; [|done].
      rewrite lookup_insert_ne; [done|]. intros <-. congruence.
  - intros t. rewrite elem_of_app, list_elem_of_singleton. intros [Hin| ->].
    + apply lookup_insert_is_Some'. right. by apply Hts.
    + rewrite Ht, lookup_insert_eq. by eexists.
Qed.

(** Entries and tasks are added, the rest but the table is as it was. *)
Record extends (w w' : World) : Prop := {
  ext_env : w_env w' = w_env w;
  ext_pool : w_pool w' = w_pool w;
  ext_broker : w_broker w' = w_broker w;
  ext_heap : heap_grows w w';
  ext_tasks : w_tasks w `prefix_of` w_tasks w';
}.
#[export] Instance extends_preorder : PreOrder extends.
Proof.
  split; [intros w; split; try done; unfold heap_grows; reflexivity|].
  intros a b c [] []. split; try congruence.
  - unfold heap_grows in *. by transitivity (w_heap b).
  - by transitivity (w_tasks b).
Qed.

Lemma install_extends alias config task w : extends w (install alias config task w).2.
Proof.
  rewrite install_spec. split; try done; cbn; [apply insert_subseteq, fresh_heap|].
  by apply prefix_app_r.
Qed.
Lemma remove_all_extends (gone : list string) w w' :
  w' = set_leaves (w_leaves w') w → extends w w'.
Proof. intros ->. split; try done; unfold heap_grows; reflexivity. Qed.

Lemma remove_wf alias w : world_wf w → world_wf (remove_leaf alias w).2.
Proof.
  intros [Hl Ht]. split; [|done]. cbn. intros a l [_ Ha]%lookup_delete_Some. by apply Hl.
Qed.

Definition remove_all (aliases : list string) : M World unit :=
  m_iter (λ a, _ ← remove_leaf a; mret tt) aliases.

Lemma remove_all_spec gone w :
  let w' := (remove_all gone w).2 in
  w' = set_leaves (w_leaves w') w ∧
  (∀ a, w_leaves w' !! a = if decide (a ∈ gone) then None else w_leaves w !! a).
Proof.
  revert w. induction gone as [|g gone IH]; intros w; cbv zeta.
  { split; [by destruct w|]. intros a. by rewrite decide_False by apply not_elem_of_nil. }
  change ((remove_all (g :: gone) w).2) with ((remove_all gone (remove_leaf g w).2).2).
  destruct (IH (remove_leaf g w).2) as [Hw Hl]. split; [rewrite Hw; by destruct w|].
  intros a. rewrite Hl. cbn. destruct (decide (a ∈ gone)) as [Hin|Hin].
  - by rewrite decide_True by (by right).
  - destruct (decide (g = a)) as [->|Hne].
    + by rewrite lookup_delete_eq, decide_True by left.
    + rewrite lookup_delete_ne, decide_False; [done| |done]. rewrite elem_of_cons. naive_solver.
Qed.

Lemma remove_all_wf gone w : world_wf w → world_wf (remove_all gone w).2.
Proof.
  intros [Hl Ht]. destruct (remove_all_spec gone w) as [Hw Hs]. rewrite Hw. split; [|done].
  cbn. intros a l. rewrite Hs. case_decide; [done|]. apply Hl.
Qed.
End installing.

(** ** Witnesses *)
Module Example.
Definition w0 : World :=
  from_configs_with_pool (H := Scenario.os) (H0 := Scenario.http)
    [Scenario.server "alpha"; Scenario.server "beta"]
    ConnectionPoolConfig_default Scenario.env.

(** After the start-up: [alpha] is healthy with its tools, [beta] is not. *)
Definition w1 : World :=
  (initialize_all (H := Scenario.os) (H0 := Scenario.http) (H1 := Scenario.serde)
     (H2 := Scenario.mo) w0).2.

(** Well-formedness is decided by going through the two finite parts. *)
Definition world_wfb (w : World) : bool :=
  forallb (λ al, match w_heap w !! al.2 with
                 | Some e => bool_decide (le_alias e = al.1)
                 | None => false
                 end) (map_to_list (w_leaves w)) &&
  forallb (λ t, bool_decide (is_Some (w_heap w !! task_leaf t))) (w_tasks w).
End Example.

Lemma world_wfb_sound w : Example.world_wfb w = true → world_wf w.
Proof.
  unfold Example.world_wfb. rewrite andb_true_iff, !forallb_forall. intros [Hl Ht]. split.
  - intros a l Ha. specialize (Hl (a, l)). rewrite <- list_elem_of_In, elem_of_map_to_list in Hl.
    specialize (Hl Ha). cbn in Hl. destruct (w_heap w !! l) as [e|]; [|done].
    exists e. split; [done|]. by apply bool_decide_eq_true in Hl.
  - intros t Hin. specialize (Ht t). rewrite <- list_elem_of_In in Ht.
    by apply (bool_decide_eq_true _), Ht.
Qed.

(** A decidable property of the registered leaves, checked one by one *)
Lemma leaves_forallb (f : string → nat → bool) w :
  forallb (λ al, f al.1 al.2) (map_to_list (w_leaves w)) = true →
  ∀ a l, w_leaves w !! a = Some l → f a l = true.
Proof.
  rewrite forallb_forall. intros Hf a l Ha. apply (Hf (a, l)).
  by rewrite <- list_elem_of_In, elem_of_map_to_list.
Qed.

Lemma refresh_tools_effect_witness :
  let '(r, w') := refresh_tools (H := Scenario.os) (H0 := Scenario.http)
    (H1 := Scenario.serde) "alpha" Example.w0 in
  r = Ok 2 ∧ length (cached_tools (entry 0 w')) = 2.
Proof.
  assert (world_wf Example.w0) as Hwf by (apply world_wfb_sound; vm_compute; reflexivity).
  pose proof (refresh_tools_effect (H := Scenario.os) (H0 := Scenario.http)
    (H1 := Scenario.serde) "alpha" Example.w0 Hwf) as He.
  assert ((refresh_tools (H := Scenario.os) (H0 := Scenario.http)
    (H1 := Scenario.serde) "alpha" Example.w0).1 = Ok 2) as Hr by (vm_compute; reflexivity).
  destruct (refresh_tools _ _) as [r w']. cbn in Hr. subst r.
  assert (w_leaves Example.w0 !! "alpha" = Some 0) as Ha by (vm_compute; reflexivity).
  rewrite Ha in He. destruct He as (_ & <- & _). split; reflexivity.
Defined.
