(* ===== verification/Health.v ===== *)
(** * Health: the health monitor and its circuit breaker ([src/health.rs])

    One monitor per leaf, for the leaves registered when the monitors start.  A turn of
    its loop checks the leaf, moves the breaker and computes how long to sleep; the
    loop itself is the repetition of turns, each at whatever time it happens. *)
From S2P Require Import Prelude Text Json Protocol F64 Env Config LeafClient Scenario Registry.
From Stdlib Require Import QArith.
Open Scope string_scope.
Open Scope Z_scope.

Definition MAX_BACKOFF : Z := from_secs 300.

(** [as i32] *)
Definition as_i32 (n : Z) : Z := (n + 2 ^ 31) mod 2 ^ 32 - 2 ^ 31.

(** [None] is the panic of [Duration::from_secs_f64]. *)
Definition next_delay (base : Z) (multiplier : f64) (threshold failures : Z) : option Z :=
  if (failures <? threshold) || f_le multiplier (F_fin 1) then Some (Z.min base MAX_BACKOFF)
  else
    let exponent := as_i32 (failures - threshold) in
    let factor := f_powi multiplier exponent in
    let secs := f_min (f_mul (as_secs_f64 base) factor) (as_secs_f64 MAX_BACKOFF) in
    from_secs_f64 secs.

(** The parameters a monitor reads from its leaf's configuration *)
Definition base_interval (c : HealthCheckConfig) : Z := from_secs (interval_seconds c).
Definition threshold (c : HealthCheckConfig) : Z := Z.max (failure_threshold c) 1.
Definition multiplier (c : HealthCheckConfig) : f64 :=
  if f_ge (backoff_multiplier c) (F_fin 1) then backoff_multiplier c else F_fin 1.

(** The breaker after a failed check, at the instant [t] *)
Definition check_failed (thr t : Z) (e : LeafEntry) : LeafEntry :=
  let '(failures, e) := record_failure t e in
  if thr <=? failures
  then set_status Unhealthy (last_health_check e) (consecutive_failures e) e
  else e.

Section monitor.
Context `{!Os, !Http, !Serde, !MapOrder}.

(** One turn of the loop of [monitor_leaf]; the result is the time to sleep. *)
Definition monitor_turn (l : nat) : M World (option Z) :=
  config ← m_gets (λ w, health_check (le_config (entry l w)));
  r ← on_client l health_check_leaf;
  _ ← match r with
      | Ok _ =>
          was_unhealthy ← m_gets (λ w, negb (is_healthy (entry l w)));
          _ ← update_now l mark_healthy;
          if was_unhealthy : bool then _ ← refresh_leaf l; mret tt else mret tt
      | Err _ => update_now l (check_failed (threshold config))
      end;
  m_gets (λ w, next_delay (base_interval config) (multiplier config) (threshold config)
                 (consecutive_failures (entry l w))).

(** The leaves [start_health_monitor] gives a monitor *)
Definition start_health_monitor : M World (list nat) :=
  leaves ← all_leaves;
  m_gets (λ w, filter (λ l, hc_enabled (health_check (le_config (entry l w))) = true) leaves).
End monitor.

(** ** The delay *)

Lemma multiplier_at_least_1 c : f_at_least 1 (multiplier c).
Proof.
  unfold multiplier. destruct (f_ge _ _) eqn:E; [|apply Qle_refl].
  unfold f_ge, f_le in E. destruct (backoff_multiplier c) as [|[]|q]; try done.
  by apply Qle_bool_iff.
Qed.

(** (C25) The sleep between two checks is always defined and at most five minutes, for
    every configuration and every failure count; below the failure threshold it is the
    configured interval, capped. *)
Theorem next_delay_bounded c failures :
  0 ≤ interval_seconds c →
  ∃ d, next_delay (base_interval c) (multiplier c) (threshold c) failures = Some d ∧
       0 ≤ d ≤ MAX_BACKOFF ∧
       (failures < threshold c → d = Z.min (base_interval c) MAX_BACKOFF).
Proof.
  intros Hi. unfold next_delay. destruct (failures <? threshold c) eqn:Hf; simpl.
  { eexists. split; [done|]. unfold MAX_BACKOFF, base_interval, from_secs, NANOS in *. lia. }
  apply Z.ltb_ge in Hf. destruct (f_le (multiplier c) _) eqn:Hm.
  { eexists. split; [done|]. unfold MAX_BACKOFF, base_interval, from_secs, NANOS in *. lia. }
  pose proof (f_powi_nonneg _ (as_i32 (failures - threshold c)) (multiplier_at_least_1 c)) as Hp.
  assert (f_at_least 0 (as_secs_f64 (base_interval c))) as Hb
    by (apply as_secs_f64_nonneg; unfold base_interval, from_secs, NANOS; lia).
  assert (as_secs_f64 MAX_BACKOFF = F_fin (300 # 1)) as -> by (by apply as_secs_f64_whole).
  destruct (f_min_cap _ _ (300 # 1) Hb Hp) as (q & -> & Hq0 & Hq1); [done|].
  destruct (from_secs_f64_bounds q 300 Hq0 Hq1) as (d & Hd & Hd'); [done|].
  exists d. rewrite Hd. split_and!; [done|lia|apply Hd'|lia].
Qed.

(** ** The breaker *)

(** The checks of a leaf, oldest first, each with its instant *)
Definition run_checks (thr : Z) (outcomes : list (Z * bool)) (e : LeafEntry) : LeafEntry :=
  foldl (λ e '(t, ok), if ok : bool then mark_healthy t e else check_failed thr t e) e outcomes.

(** The failures since the last success *)
Definition trailing (outcomes : list (Z * bool)) : Z :=
  foldl (λ n '(_, ok), if ok : bool then 0 else n + 1) 0 outcomes.

Lemma trailing_bounds outcomes : 0 ≤ trailing outcomes ≤ Z.of_nat (length outcomes).
Proof.
  unfold trailing. induction outcomes as [|[t ok] os IH] using rev_ind; [done|].
  rewrite foldl_app, length_app. cbn. destruct ok; lia.
Qed.

Lemma succ_u32_small n : 0 ≤ n → n + 1 < 2 ^ 32 → succ_u32 n = n + 1.
Proof. intros. unfold succ_u32. rewrite Z.mod_small; lia. Qed.


Definition status (e : LeafEntry) : LeafHealth * Z := (le_health e, consecutive_failures e).

Section turn.
Context `{!Os, !Http, !Serde, !MapOrder}.

Lemma check_failed_evolved thr t e : evolved e (check_failed thr t e).
Proof. unfold check_failed. cbn. by destruct (_ <=? _). Qed.

Lemma monitor_turn_only l : acts (only (eq l)) (monitor_turn l).
Proof.
  apply acts_bind; [auto with acts|]. intros c. apply acts_bind; [auto with acts|].
  intros [u|err]; (apply acts_bind; [|auto with acts]).
  - auto 20 with acts.
  - apply acts_update_now. intros t e. split; [apply check_failed_evolved|done].
Qed.

Lemma set_same_client e : set_client (le_client e) e = e.
Proof. by destruct e. Qed.

Lemma refresh_keeps_status l st : acts (keeping (λ e, status e = st)) (refresh_leaf l).
Proof.
  apply refresh_leaf_keeps_status. unfold status. by intros e e' -> ->.
Qed.

(** One turn of the monitor is one check: it asks the leaf's health endpoint, moves
    the leaf's status as the breaker does on that outcome, leaves every other leaf
    alone, and sleeps for the delay of the new failure count.  Only a leaf that comes
    back makes it list the tools again; otherwise the caches and the requests are the
    check's own. *)
Theorem monitor_turn_checks l w e :
  w_heap w !! l = Some e →
  let '(d, w') := monitor_turn l w in
  let config := health_check (le_config e) in
  let ok := is_ok (health_check_leaf (le_client e, w_env w)).1 in
  acts_on (only (eq l)) w w' ∧
  status (entry l w') = status (run_checks (threshold config) [(wnow w, ok)] e) ∧
  d = next_delay (base_interval config) (multiplier config) (threshold config)
        (consecutive_failures (entry l w')) ∧
  ((ok && negb (is_healthy e)) = false →
     cached_tools (entry l w') = cached_tools e ∧
     ∃ rq, sent (w_env w') = (sent (w_env w) ++ [rq])%list ∧
       hq_method rq = GET ∧ hq_url rq = health_url (lc_url (le_client e))).
Proof.
  intros He. pose proof (monitor_turn_only l w) as Hacts. revert Hacts.
  unfold monitor_turn. run_m. unfold on_client. rewrite (entry_lookup _ _ _ He).
  unfold health_check_leaf.
  set (rq := {| hq_method := GET; hq_url := _; hq_headers := _; hq_body := _ |}).
  pose proof (send_sent (lc_http (le_client e)) rq (w_env w)) as Hs.
  destruct (send _ rq (w_env w)) as [r e1]. cbn [snd] in Hs.
  set (res := match r with Ok _ => _ | Err _ => _ end).
  set (w1 := set_env e1 _).
  assert (w_heap w1 !! l = Some e) as He1
    by (cbn; by rewrite lookup_alter_eq, He; cbn; rewrite set_same_client).
  destruct res as [u|err]; [rewrite (entry_lookup _ _ _ He1)|]; intros Hacts.
  - set (w2 := (update_now l mark_healthy w1).2).
    change (update_now l mark_healthy w1) with (tt, w2) in Hacts.
    change (update_now l mark_healthy w1) with (tt, w2).
    assert (w_heap w2 !! l = Some (mark_healthy (wnow w1) e)) as He2
      by (by apply (update_lookup l (mark_healthy (wnow w1)))).
    destruct (is_healthy e); cbn [negb] in *; cbv iota in *.
    + rewrite (entry_lookup _ _ _ He2). split_and!; try done. intros _. split; [done|]. by exists rq.
    + destruct (acts_on_lookup _ _ _ _ _ (refresh_keeps_status l (Healthy, 0) w2) He2)
        as (e3 & He3 & _ & Hst).
      destruct (refresh_leaf l w2) as [r3 w3]. cbn in He3.
      rewrite (entry_lookup _ _ _ He3). split_and!; try done. by apply Hst.
  - set (thr := threshold (health_check (le_config e))) in *.
    set (w2 := (update_now l (check_failed thr) w1).2).
    change (update_now l (check_failed thr) w1) with (tt, w2) in Hacts.
    change (update_now l (check_failed thr) w1) with (tt, w2).
    assert (w_heap w2 !! l = Some (check_failed thr (wnow w1) e)) as He2
      by (by apply (update_lookup l (check_failed thr (wnow w1)))).
    cbv beta iota in *. rewrite (entry_lookup _ _ _ He2). unfold check_failed. cbn.
    by destruct (thr <=? _); split_and!; try done; intros _; (split; [done|]); exists rq.
Qed.
End turn.

(** ** Witnesses *)
Module Example.
Definition e : LeafEntry :=
  set_status Healthy None 0
    (LeafEntry_new_with_pool (H := Scenario.os) (H0 := Scenario.http) 0 (Scenario.server "beta")
       ConnectionPoolConfig_default).
End Example.

Lemma next_delay_bounded_witness :
  ∃ d, next_delay (base_interval HealthCheckConfig_default) (multiplier HealthCheckConfig_default)
         (threshold HealthCheckConfig_default) 5 = Some d ∧ 0 ≤ d ≤ MAX_BACKOFF.
Proof.
  destruct (next_delay_bounded HealthCheckConfig_default 5) as (d & Hd & Hb & _);
    [discriminate|]. exists d. split; [exact Hd|exact Hb].
Defined.


Lemma monitor_turn_checks_witness :
  let w := Registry.Example.w0 in
  let '(d, w') := monitor_turn (H := Scenario.os) (H0 := Scenario.http) (H1 := Scenario.serde)
                    1 w in
  d = Some (from_secs 30) ∧ acts_on (only (eq 1%nat)) w w'.
Proof.
  intros w. destruct (w_heap w !! 1%nat) as [e|] eqn:He; [|vm_compute in He; discriminate He].
  pose proof (monitor_turn_checks (H := Scenario.os) (H0 := Scenario.http)
                (H1 := Scenario.serde) 1 w e He) as Ht.
  assert ((monitor_turn (H := Scenario.os) (H0 := Scenario.http) (H1 := Scenario.serde) 1 w).1
          = Some (from_secs 30)) as Hd by (vm_compute; reflexivity).
  destruct (monitor_turn 1 w) as [d w']. cbn in Hd. split; [exact Hd|exact (proj1 Ht)].
Defined.
