(* ===== verification/Aggregator.v ===== *)
(** * Aggregator: one list out of many leaves ([src/aggregator.rs])

    The tools, resources and prompts of the healthy leaves, each renamed with the alias
    of its leaf.  The gauges are not modelled. *)
From S2P Require Import Prelude Text Json Protocol F64 Env Config LeafClient Scenario Registry.
Open Scope string_scope.
Open Scope list_scope.

Definition NAMESPACE_SEPARATOR : string := "__".

Definition qualify (alias name : string) : string := alias +:+ (NAMESPACE_SEPARATOR +:+ name).

Definition parse_namespaced_name (namespaced : string) : option (string * string) :=
  split_once NAMESPACE_SEPARATOR namespaced.

(** A value is only renamed when it has the field, so it is an object and the
    assignments do not panic. *)
Definition namespace_tool (alias : string) (tool : Value) : option Value :=
  name ← get_str "name" tool;
  let description := default "" (get_str "description" tool) in
  Some (index_set "description" (VString ("[" +:+ alias +:+ "] " +:+ description))
          (index_set "name" (VString (qualify alias name)) tool)).

Definition namespace_resource (alias : string) (resource : Value) : option Value :=
  uri ← get_str "uri" resource;
  let name := default "" (get_str "name" resource) in
  Some (index_set "name" (VString ("[" +:+ alias +:+ "] " +:+ name))
          (index_set "uri" (VString (qualify alias uri)) resource)).

Definition namespace_prompt (alias : string) (prompt : Value) : option Value :=
  name ← get_str "name" prompt;
  let description := default "" (get_str "description" prompt) in
  Some (index_set "description" (VString ("[" +:+ alias +:+ "] " +:+ description))
          (index_set "name" (VString (qualify alias name)) prompt)).

(** The tools of the federation itself *)
Definition string_property (description : string) : Value :=
  json_obj [("type", VString "string"); ("description", VString description)].

Definition native_tool (name description : string) (properties : object)
    (required : list string) : Value :=
  json_obj [("name", VString (qualify "federation" name));
            ("description", VString ("[federation] " +:+ description));
            ("inputSchema", json_obj [("type", VString "object");
                                      ("properties", json_obj properties);
                                      ("required", vstrs required)])].

Definition native_tools : list Value :=
  [native_tool "list_servers" "List all configured leaf MCP servers and their health status"
     [] [];
   native_tool "server_info" "Get detailed info about a specific leaf MCP server"
     [("alias", string_property "The server alias to get info for")] ["alias"];
   native_tool "refresh" "Force-refresh tool lists from all or a specific leaf server"
     [("alias", string_property "Optional: refresh only this server (omit for all)")] [];
   native_tool "search_tools"
     "Search for tools across all leaf servers by name or description keyword"
     [("query", string_property "Search term to match against tool names and descriptions");
      ("alias", string_property "Optional: restrict search to a specific leaf server")]
     ["query"];
   native_tool "topology"
     ("Return the federation topology " +:+ of_bytes [0xE2; 0x80; 0x94]%N +:+
      " this node plus each leaf, with is_federation flags for nested mcp-federation instances")
     [] []].

Record Aggregator := { tool_cache_ttl : Z }.

Section aggregator.
Context `{!MapOrder}.

(** What the leaves at [leaves] contribute *)
Definition collect (rename : string → Value → option Value) (cached : LeafEntry → list Value)
    (leaves : list nat) (w : World) : list Value :=
  leaves ≫= λ l, omap (rename (le_alias (entry l w))) (cached (entry l w)).

(** A refresh in the background for each leaf whose tools are stale *)
Definition refresh_stale (ttl : Z) (leaves : list nat) : M World unit :=
  m_iter (λ l, stale ← m_gets (λ w, tools_stale (wnow w) ttl (entry l w));
               if stale : bool then spawn (TRefresh l) else mret tt) leaves.

Definition aggregated_tools (a : Aggregator) : M World (list Value) :=
  leaves ← healthy_leaves;
  _ ← m_when (negb (tool_cache_ttl a =? 0)%Z) (refresh_stale (tool_cache_ttl a) leaves);
  tools ← m_gets (collect namespace_tool cached_tools leaves);
  mret (native_tools ++ tools).

Definition aggregated_resources : M World (list Value) :=
  leaves ← healthy_leaves;
  m_gets (collect namespace_resource cached_resources leaves).

Definition aggregated_prompts : M World (list Value) :=
  leaves ← healthy_leaves;
  m_gets (collect namespace_prompt cached_prompts leaves).
End aggregator.

(** ** Names *)

(** An alias can be found again in a qualified name. *)
Definition routable (alias : string) : bool := negb (contains "__" (alias +:+ "_")).

Lemma parse_qualify alias name :
  parse_namespaced_name (qualify alias name) = Some (alias, name) ↔ routable alias = true.
Proof.
  unfold parse_namespaced_name, qualify, routable, NAMESPACE_SEPARATOR.
  rewrite negb_true_iff. symmetry. apply split_once_sep_app.
Qed.
Lemma parse_sound s alias name :
  parse_namespaced_name s = Some (alias, name) ↔ s = qualify alias name ∧ routable alias = true.
Proof.
  unfold routable. rewrite negb_true_iff. apply split_once_sep_iff.
Qed.
Lemma qualify_inj a b n m :
  routable a = true → routable b = true → qualify a n = qualify b m → a = b ∧ n = m.
Proof.
  intros Ha%(parse_qualify _ n) Hb%(parse_qualify _ m) Heq. rewrite Heq in Ha. naive_solver.
Qed.

(** (C30) Qualified names read back: splitting [alias__name] gives the alias and the name
    exactly when the alias is routable, and a text splits into an alias and a name only
    when it is that alias, the separator and that name.  An alias that validation
    accepts (no separator in it) is routable exactly when it does not end with an
    underscore; one that does is read back as a shorter alias, and its underscore goes
    to the name. *)
Theorem qualified_names alias name :
  (parse_namespaced_name (qualify alias name) = Some (alias, name) ↔ routable alias = true) ∧
  (∀ s, parse_namespaced_name s = Some (alias, name) →
     s = qualify alias name ∧ routable alias = true) ∧
  (contains "__" alias = false →
     (routable alias = true ↔ strip_suffix "_" alias = None) ∧
     (∀ short, alias = short +:+ "_" →
        parse_namespaced_name (qualify alias name) = Some (short, "_" +:+ name))).
Proof.
  split_and!; [apply parse_qualify|intros s; apply parse_sound|].
  intros Hno. split.
  - unfold routable. rewrite contains_sep_underscore, Hno. simpl.
    rewrite negb_true_iff, bool_decide_eq_false, <- eq_None_not_Some. done.
  - intros short ->. apply parse_sound. split.
    + unfold qualify, NAMESPACE_SEPARATOR. by rewrite str_app_assoc.
    + unfold routable. by rewrite Hno.
Qed.

Lemma namespace_tool_spec alias t v :
  namespace_tool alias t = Some v →
  ∃ name, get_str "name" t = Some name ∧ get_str "name" v = Some (qualify alias name) ∧
    get_str "description" v =
      Some ("[" +:+ alias +:+ "] " +:+ default "" (get_str "description" t)) ∧
    (∀ k, k ≠ "name" → k ≠ "description" → get k v = get k t).
Proof.
  unfold namespace_tool. intros (name & Hn & Hv)%bind_Some. simplify_eq.
  exists name. assert (is_object t = true) as Ho by (apply get_str_Some in Hn; eauto with fed).
  split_and!; [done|..]; unfold get_str;
    repeat (rewrite get_index_set by auto with fed); [done..|].
  intros k Hk1 Hk2. repeat (rewrite get_index_set by auto with fed).
  by rewrite !decide_False.
Qed.

(** Renaming an item keeps it: a tool with a name gets the qualified name and a
    description that names its leaf, every other field is as the leaf sent it, and the
    same holds of prompts and, with the uri for the name, of resources; an item without
    the field is left out. *)
Theorem renaming_keeps_fields alias v :
  (∀ v', namespace_tool alias v = Some v' →
     ∃ name, get_str "name" v = Some name ∧ get_str "name" v' = Some (qualify alias name) ∧
       ∀ k, k ≠ "name" → k ≠ "description" → get k v' = get k v) ∧
  (∀ v', namespace_prompt alias v = Some v' →
     ∃ name, get_str "name" v = Some name ∧ get_str "name" v' = Some (qualify alias name) ∧
       ∀ k, k ≠ "name" → k ≠ "description" → get k v' = get k v) ∧
  (∀ v', namespace_resource alias v = Some v' →
     ∃ uri, get_str "uri" v = Some uri ∧ get_str "uri" v' = Some (qualify alias uri) ∧
       ∀ k, k ≠ "uri" → k ≠ "name" → get k v' = get k v) ∧
  (get_str "name" v = None → namespace_tool alias v = None ∧ namespace_prompt alias v = None) ∧
  (get_str "uri" v = None → namespace_resource alias v = None).
Proof.
  split_and!.
  - intros v' (n & ? & ? & _ & ?)%namespace_tool_spec. eauto.
  - intros v' (n & ? & ? & _ & ?)%namespace_tool_spec. eauto.
  - unfold namespace_resource. intros v' (uri & Hn & Hv)%bind_Some. simplify_eq.
    exists uri. assert (is_object v = true) by (apply get_str_Some in Hn; eauto with fed).
    split_and!; [done|..]; unfold get_str;
      repeat (rewrite get_index_set by auto with fed); [done|].
    intros k Hk1 Hk2. repeat (rewrite get_index_set by auto with fed). by rewrite !decide_False.
  - unfold namespace_tool, namespace_prompt. by intros ->.
  - unfold namespace_resource. by intros ->.
Qed.

(** ** The list *)
Section listing.
Context `{!MapOrder}.

Definition stale_refreshes (ttl : Z) (leaves : list nat) (w : World) : list Task :=
  TRefresh <$> filter (λ l, tools_stale (wnow w) ttl (entry l w) = true) leaves.

Lemma set_tasks_id w : set_tasks (w_tasks w) w = w.
Proof. by destruct w. Qed.

Lemma refresh_stale_spec ttl leaves w :
  refresh_stale ttl leaves w = (tt, set_tasks (w_tasks w ++ stale_refreshes ttl leaves w) w).
Proof.
  unfold refresh_stale, stale_refreshes. revert w. induction leaves as [|l ls IH]; intros w.
  { cbn. by rewrite app_nil_r, set_tasks_id. }
  cbn [m_iter]. run_m. rewrite filter_cons.
  destruct (tools_stale (wnow w) ttl (entry l w)).
  - cbn [spawn]. unfold spawn. cbv beta iota. rewrite IH. destruct w; cbn. by rewrite <- (assoc_L (++)).
  - rewrite IH. by rewrite decide_False.
Qed.

Definition healthy_locs (w : World) : list nat :=
  filter (λ l, is_healthy (entry l w) = true) (map_values (w_leaves w)).

Lemma healthy_locs_elem w l :
  l ∈ healthy_locs w ↔ is_healthy (entry l w) = true ∧ ∃ a, w_leaves w !! a = Some l.
Proof. unfold healthy_locs. by rewrite list_elem_of_filter, map_values_elem. Qed.

Lemma aggregated_tools_spec a w :
  aggregated_tools a w =
  (native_tools ++ collect namespace_tool cached_tools (healthy_locs w) w,
   if (tool_cache_ttl a =? 0)%Z then w
   else set_tasks (w_tasks w ++ stale_refreshes (tool_cache_ttl a) (healthy_locs w) w) w).
Proof.
  unfold aggregated_tools, healthy_leaves. run_m. fold (healthy_locs w).
  destruct (tool_cache_ttl a =? 0)%Z; cbn [negb]; [done|].
  by rewrite refresh_stale_spec.
Qed.

Lemma collect_elem rename cached leaves w v :
  v ∈ collect rename cached leaves w ↔
  ∃ l t, l ∈ leaves ∧ t ∈ cached (entry l w) ∧ rename (le_alias (entry l w)) t = Some v.
Proof.
  unfold collect. rewrite list_elem_of_bind. setoid_rewrite list_elem_of_omap. naive_solver.
Qed.

Lemma wf_alias w a l : world_wf w → w_leaves w !! a = Some l → le_alias (entry l w) = a.
Proof. intros [Hwf _] Ha. destruct (Hwf _ _ Ha) as (e & He & ?). by rewrite (entry_lookup _ _ _ He). Qed.

Lemma wf_leaves_inj w a b l :
  world_wf w → w_leaves w !! a = Some l → w_leaves w !! b = Some l → a = b.
Proof. intros Hwf Ha Hb. rewrite <- (wf_alias _ _ _ Hwf Ha). by apply wf_alias. Qed.

Lemma listed_elem w v :
  world_wf w →
  v ∈ collect namespace_tool cached_tools (healthy_locs w) w ↔
  ∃ alias l t, w_leaves w !! alias = Some l ∧ is_healthy (entry l w) = true ∧
    t ∈ cached_tools (entry l w) ∧ namespace_tool alias t = Some v.
Proof.
  intros Hwf. rewrite collect_elem. setoid_rewrite healthy_locs_elem. split.
  - intros (l & t & (Hh & alias & Ha) & Ht & Hv). rewrite (wf_alias _ _ _ Hwf Ha) in Hv. eauto 8.
  - intros (alias & l & t & Ha & Hh & Ht & Hv). exists l, t.
    rewrite (wf_alias _ _ _ Hwf Ha). eauto 8.
Qed.

(** (C28) The aggregated list is what the healthy leaves offer: the native tools, then one
    entry for each cached tool of a registered leaf that is not unhealthy, renamed with
    the leaf's alias; an unhealthy leaf contributes nothing.  Listing asks no leaf
    anything and changes nothing but the background tasks, and it starts a refresh for
    exactly the listed leaves whose tools are stale, or none when the TTL is zero. *)
Theorem aggregated_tools_lists a w :
  world_wf w →
  let '(tools, w') := aggregated_tools a w in
  (∀ v, v ∈ tools ↔ v ∈ native_tools ∨
     ∃ alias l t, w_leaves w !! alias = Some l ∧ is_healthy (entry l w) = true ∧
       t ∈ cached_tools (entry l w) ∧ namespace_tool alias t = Some v) ∧
  (∃ new, w' = set_tasks (w_tasks w ++ new) w ∧
     ∀ t, t ∈ new ↔ tool_cache_ttl a ≠ 0%Z ∧
       ∃ alias l, t = TRefresh l ∧ w_leaves w !! alias = Some l ∧
         is_healthy (entry l w) = true ∧
         tools_stale (wnow w) (tool_cache_ttl a) (entry l w) = true).
Proof.
  intros Hwf. rewrite aggregated_tools_spec. split.
  - intros v. by rewrite elem_of_app, listed_elem.
  - destruct (Z.eqb_spec (tool_cache_ttl a) 0).
    + exists []. rewrite app_nil_r, set_tasks_id. split; [done|].
      intros t. rewrite elem_of_nil. naive_solver.
    + eexists. split; [done|]. intros t. unfold stale_refreshes.
      rewrite list_elem_of_fmap. setoid_rewrite list_elem_of_filter.
      setoid_rewrite healthy_locs_elem. naive_solver.
Qed.

Lemma collected_names leaves w :
  omap (get_str "name") (collect namespace_tool cached_tools leaves w) =
  leaves ≫= λ l, qualify (le_alias (entry l w)) <$>
                 omap (get_str "name") (cached_tools (entry l w)).
Proof.
  unfold collect. induction leaves as [|l ls IH]; [done|].
  rewrite !bind_cons, omap_app, IH. f_equal.
  induction (cached_tools (entry l w)) as [|t ts IHt]; [done|]. cbn [omap list_omap].
  destruct (namespace_tool (le_alias (entry l w)) t) as [v|] eqn:Hv.
  - pose proof (namespace_tool_spec _ _ _ Hv) as (n & Hn & Hn' & _).
    cbn. rewrite Hn, Hn'. cbn. by f_equal.
  - unfold namespace_tool in Hv. destruct (get_str "name" t); [done|]. done.
Qed.

(** (C29) No two tools of the list have the same name, as long as no leaf caches two tools
    of one name, every alias is routable and none is the reserved one. *)
Theorem aggregated_names_distinct a w :
  world_wf w →
  (∀ alias l, w_leaves w !! alias = Some l →
     routable alias = true ∧ alias ≠ "federation" ∧
     NoDup (omap (get_str "name") (cached_tools (entry l w)))) →
  NoDup (omap (get_str "name") (aggregated_tools a w).1).
Proof.
  intros Hwf Hl. rewrite aggregated_tools_spec. cbn [fst].
  rewrite omap_app, collected_names. apply NoDup_app.
  assert (∀ l n, l ∈ healthy_locs w → n ∈ qualify (le_alias (entry l w)) <$>
            omap (get_str "name") (cached_tools (entry l w)) →
          ∃ alias m, w_leaves w !! alias = Some l ∧ n = qualify alias m) as Hq.
  { intros l n [_ [alias Ha]]%healthy_locs_elem (m & -> & _)%list_elem_of_fmap.
    exists alias, m. by rewrite (wf_alias _ _ _ Hwf Ha). }
  split_and!.
  - by apply (bool_decide_unpack _).
  - intros n Hn (l & Hnl & Hll)%list_elem_of_bind.
    destruct (Hq _ _ Hll Hnl) as (alias & m & Ha & ->). destruct (Hl _ _ Ha) as (Hr & Hf & _).
    assert (∃ m', qualify alias m = qualify "federation" m') as [m' Heq].
    { assert (Forall (λ n, ∃ m', n = qualify "federation" m')
                (omap (get_str "name") native_tools)) as Hall
        by (repeat constructor; eexists; reflexivity).
      rewrite Forall_forall in Hall. exact (Hall _ Hn). }
    apply qualify_inj in Heq as [? _]; done.
  - apply NoDup_bind.
    + intros l1 l2 n H1 H2 Hn1 Hn2.
      destruct (Hq _ _ H1 Hn1) as (a1 & m1 & Ha1 & ->).
      destruct (Hq _ _ H2 Hn2) as (a2 & m2 & Ha2 & Heq).
      apply qualify_inj in Heq as [-> _]; [congruence|by eapply Hl..].
    + intros l [_ [alias Ha]]%healthy_locs_elem. apply NoDup_fmap_2; [|by eapply Hl].
      intros n m. unfold qualify. by intros ?%str_app_inv_l%str_app_inv_l.
    + apply NoDup_filter. unfold map_values. rewrite map_order_perm.
      apply NoDup_fmap_2_strong; [|apply NoDup_map_to_list].
      intros [a1 l1] [a2 l2] H1%elem_of_map_to_list H2%elem_of_map_to_list. cbn. intros ->.
      f_equal. by eapply wf_leaves_inj.
Qed.
End listing.

(** ** Witnesses *)
Module Example.
Definition agg : Aggregator := {| tool_cache_ttl := from_secs 1 |}.
Definition names_ok (alias : string) (l : nat) : bool :=
  routable alias && bool_decide (alias ≠ "federation") &&
  bool_decide (NoDup (omap (get_str "name") (cached_tools (entry l Registry.Example.w1)))).
End Example.

Lemma aggregated_tools_lists_witness :
  let '(tools, w') := aggregated_tools (H := Scenario.mo) Example.agg Registry.Example.w1 in
  length tools = 7%nat ∧ w_tasks w' = [TRefresh 0%nat] ∧
  ∀ v, namespace_tool "alpha" (Scenario.tool "get" "Get a thing") = Some v → v ∈ tools.
Proof.
  assert (world_wf Registry.Example.w1) as Hwf by (apply world_wfb_sound; vm_compute; reflexivity).
  pose proof (aggregated_tools_lists (H := Scenario.mo) Example.agg _ Hwf) as Ht.
  assert (length (aggregated_tools (H := Scenario.mo) Example.agg Registry.Example.w1).1 = 7%nat ∧
    w_tasks (aggregated_tools (H := Scenario.mo) Example.agg Registry.Example.w1).2 = [TRefresh 0%nat])
    as [H1 H2] by (split; vm_compute; reflexivity).
  destruct (aggregated_tools _ _) as [tools w']. destruct Ht as [Ht _].
  split; [exact H1|split; [exact H2|]]. intros v Hv. apply Ht. right.
  exists "alpha", 0%nat, (Scenario.tool "get" "Get a thing").
  split; [vm_compute; reflexivity|]. split; [vm_compute; reflexivity|]. split; [|exact Hv].
  apply (bool_decide_unpack _). vm_compute. exact I.
Defined.

Lemma aggregated_names_distinct_witness :
  NoDup (omap (get_str "name")
    (aggregated_tools (H := Scenario.mo) Example.agg Registry.Example.w1).1).
Proof.
  apply aggregated_names_distinct; [apply world_wfb_sound; vm_compute; reflexivity|].
  intros alias l Ha.
  assert (Example.names_ok alias l = true) as Hb
    by (apply (leaves_forallb Example.names_ok Registry.Example.w1);
        [vm_compute; reflexivity|exact Ha]).
  apply andb_true_iff in Hb as [[Hr Hf]%andb_true_iff Hn].
  apply bool_decide_eq_true in Hf, Hn. split; [exact Hr|split; [exact Hf|exact Hn]].
Defined.
