(* ===== verification/Router.v ===== *)
(** * Router: calls to the leaf a name belongs to ([src/router.rs])

    A qualified name is split, the federation's own tools are answered here, and any
    other call goes to the client of the leaf.  [Unicode] is the case mapping of the
    standard library's [str::to_lowercase], whose tables are not reproduced. *)
From S2P Require Import Prelude Text Json Protocol F64 Env Config LeafClient Scenario Registry.
From S2P Require Import Aggregator.
Open Scope string_scope.
Open Scope list_scope.

Class Unicode : Type := { to_lowercase : string → string }.

Definition health_str (h : LeafHealth) : string :=
  match h with Unknown => "unknown" | Healthy => "healthy" | Unhealthy => "unhealthy" end.
(** The derived [Debug] *)
Definition health_debug (h : LeafHealth) : string :=
  match h with Unknown => "Unknown" | Healthy => "Healthy" | Unhealthy => "Unhealthy" end.

Section router.
Context `{!Os, !Http, !Serde, !MapOrder, !Unicode}.

Definition text_content (text : string) : Value :=
  json_obj [("content", VArray [json_obj [("type", VString "text"); ("text", VString text)]])].

Definition pretty_content (v : Value) : Value := text_content (to_string_pretty v).

Definition fed_error {A} (e : FederationError) : M World (result FederationError A) :=
  mret (Err e).

(** What [list_servers] and [topology] say of a leaf *)
Definition server_entry (e : LeafEntry) : object :=
  [("alias", VString (le_alias e));
   ("url", VString (Config.url (le_config e)));
   ("transport", VString (transport_debug (Config.transport (le_config e))));
   ("tags", vstrs (Config.tags (le_config e)));
   ("health", VString (health_str (le_health e)));
   ("tool_count", vnat (length (cached_tools e)));
   ("is_federation", VBool (is_federation e))].

Definition native_list_servers : M World (result FederationError Value) :=
  leaves ← all_leaves;
  servers ← m_gets (λ w, (λ l, json_obj (server_entry (entry l w))) <$> leaves);
  mret (Ok (pretty_content (VArray servers))).

Definition native_topology : M World (result FederationError Value) :=
  leaves ← all_leaves;
  leaf_entries ← m_gets (λ w,
    (λ l, json_obj (server_entry (entry l w) ++
                    [("server_info", vopt (server_info (entry l w)))])) <$> leaves);
  mret (Ok (pretty_content (json_obj
    [("node", json_obj [("name", VString "mcp-federation"); ("version", VString PKG_VERSION);
                        ("leaf_count", vnat (length leaves))]);
     ("leaves", VArray leaf_entries)]))).

Definition missing_argument (name : string) : FederationError :=
  LeafError "federation" ("missing required argument: " +:+ name).

Definition tool_names (tools : list Value) : list string := omap (get_str "name") tools.

Definition native_server_info (arguments : Value) : M World (result FederationError Value) :=
  match get_str "alias" arguments with
  | None => fed_error (missing_argument "alias")
  | Some alias =>
      leaf ← get_leaf alias;
      match leaf with
      | None => fed_error (UnknownLeaf alias)
      | Some l =>
          e ← m_gets (entry l);
          mret (Ok (pretty_content (json_obj
            [("alias", VString (le_alias e));
             ("url", VString (Config.url (le_config e)));
             ("transport", VString (transport_debug (Config.transport (le_config e))));
             ("tags", vstrs (Config.tags (le_config e)));
             ("health", VString (health_debug (le_health e)));
             ("consecutive_failures", vint (consecutive_failures e));
             ("tool_count", vnat (length (tool_names (cached_tools e))));
             ("tools", vstrs (tool_names (cached_tools e)))])))
      end
  end.

Definition refresh_line (p : string * result string nat) : string :=
  match p.2 with
  | Ok count => p.1 +:+ ": refreshed (" +:+ fmt_nat count +:+ " tools)"
  | Err e => p.1 +:+ ": error (" +:+ e +:+ ")"
  end.

Definition native_refresh (arguments : Value) : M World (result FederationError Value) :=
  results ← match get_str "alias" arguments with
            | Some alias => result ← refresh_tools alias; mret [(alias, result)]
            | None => refresh_all_tools
            end;
  mret (Ok (text_content (join nl (refresh_line <$> results)))).

(** One tool of a leaf against the query *)
Definition tool_match (query_lower alias : string) (tool : Value) : option Value :=
  let name := default "" (get_str "name" tool) in
  let description := default "" (get_str "description" tool) in
  if contains query_lower (to_lowercase name) || contains query_lower (to_lowercase description)
  then Some (json_obj [("alias", VString alias); ("name", VString (qualify alias name));
                       ("tool_name", VString name); ("description", VString description)])
  else None.

Definition search_matches (query_lower : string) (leaves : list nat) (w : World) : list Value :=
  leaves ≫= λ l, omap (tool_match query_lower (le_alias (entry l w))) (cached_tools (entry l w)).

Definition native_search_tools (arguments : Value) : M World (result FederationError Value) :=
  match get_str "query" arguments with
  | None => fed_error (missing_argument "query")
  | Some query =>
      leaves ←? match get_str "alias" arguments with
                | Some alias =>
                    leaf ← get_leaf alias;
                    mret (ls ← ok_or (UnknownLeaf alias) leaf; Ok [ls])
                | None => ls ← all_leaves; mret (Ok ls)
                end;
      matches ← m_gets (search_matches (to_lowercase query) leaves);
      mret (Ok (pretty_content (VArray matches)))
  end.

Definition handle_native_tool (tool_name : string) (arguments : Value)
  : M World (result FederationError Value) :=
  if decide (tool_name = "list_servers") then native_list_servers
  else if decide (tool_name = "topology") then native_topology
  else if decide (tool_name = "server_info") then native_server_info arguments
  else if decide (tool_name = "refresh") then native_refresh arguments
  else if decide (tool_name = "search_tools") then native_search_tools arguments
  else fed_error (ToolNotFound ("federation__" +:+ tool_name)).

(** The leaf of an alias, if it may be called, and the call *)
Definition route_to_leaf (alias : string)
    (op : M (LeafClient * Env) (result FederationError Value))
  : M World (result FederationError Value) :=
  leaf ← get_leaf alias;
  match leaf with
  | None => fed_error (UnknownLeaf alias)
  | Some l =>
      healthy ← m_gets (λ w, is_healthy (entry l w));
      if healthy : bool then on_client l op else fed_error (LeafUnhealthy alias)
  end.

Definition route_tool_call (namespaced_tool : string) (arguments : Value)
  : M World (result FederationError Value) :=
  match parse_namespaced_name namespaced_tool with
  | None => fed_error (InvalidToolName
      ("tool name must be in format 'alias__tool_name', got: " +:+ namespaced_tool))
  | Some (alias, tool_name) =>
      if decide (alias = "federation") then handle_native_tool tool_name arguments
      else route_to_leaf alias (call_tool tool_name arguments)
  end.

Definition route_resource_read (namespaced_uri : string)
  : M World (result FederationError Value) :=
  match parse_namespaced_name namespaced_uri with
  | None => fed_error (InvalidToolName
      ("resource URI must be prefixed with alias, got: " +:+ namespaced_uri))
  | Some (alias, uri) => route_to_leaf alias (read_resource uri)
  end.

Definition route_prompt_get (namespaced_name : string) (arguments : Value)
  : M World (result FederationError Value) :=
  match parse_namespaced_name namespaced_name with
  | None => fed_error (InvalidToolName
      ("prompt name must be prefixed with alias, got: " +:+ namespaced_name))
  | Some (alias, prompt_name) => route_to_leaf alias (get_prompt prompt_name arguments)
  end.
End router.

(** ** Properties *)
Section properties.
Context `{!Os, !Http, !Serde, !MapOrder, !Unicode}.

(** The entry a call for [alias] may go to *)
Definition callable (w : World) (alias : string) (l : nat) : Prop :=
  w_leaves w !! alias = Some l ∧ is_healthy (entry l w) = true.

Lemma route_to_leaf_callable alias l op w :
  callable w alias l → route_to_leaf alias op w = on_client l op w.
Proof.
  intros [Ha Hh]. unfold route_to_leaf, get_leaf. run_m. by rewrite Ha, Hh.
Qed.

Lemma route_to_leaf_not_callable alias op w :
  (∀ l, ¬ callable w alias l) →
  route_to_leaf alias op w =
  (Err (match w_leaves w !! alias with None => UnknownLeaf alias | Some _ => LeafUnhealthy alias end),
   w).
Proof.
  intros Hno. unfold route_to_leaf, get_leaf, fed_error. run_m.
  destruct (w_leaves w !! alias) as [l|] eqn:Ha; [|done].
  destruct (is_healthy (entry l w)) eqn:Hh; [|done]. exfalso. by apply (Hno l).
Qed.

(** A call that cannot be routed is refused on the spot: a name without the
    separator, an unknown alias and an unhealthy leaf each give their own error, for
    tools, resources and prompts alike; no request is made and nothing changes. *)
Theorem unroutable_calls_send_nothing name args w :
  match parse_namespaced_name name with
  | None =>
      (∃ m, route_tool_call name args w = (Err (InvalidToolName m), w)) ∧
      (∃ m, route_resource_read name w = (Err (InvalidToolName m), w)) ∧
      (∃ m, route_prompt_get name args w = (Err (InvalidToolName m), w))
  | Some (alias, item) =>
      (∀ l, ¬ callable w alias l) →
      let e := match w_leaves w !! alias with
               | None => UnknownLeaf alias | Some _ => LeafUnhealthy alias end in
      (alias ≠ "federation" → route_tool_call name args w = (Err e, w)) ∧
      route_resource_read name w = (Err e, w) ∧
      route_prompt_get name args w = (Err e, w)
  end.
Proof.
  unfold route_tool_call, route_resource_read, route_prompt_get.
  destruct (parse_namespaced_name name) as [[alias item]|]; [|by split_and!; eexists].
  intros Hno. split_and!; [intros Hf; rewrite decide_False by done|..];
    by apply route_to_leaf_not_callable.
Qed.

Lemma on_client_call meth missing params l e w :
  w_heap w !! l = Some e →
  let '(r, w') := on_client l (call_op meth missing params) w in
  r = (call_op meth missing params (le_client e, w_env w)).1 ∧
  acts_on (only (eq l)) w w' ∧
  requested meth params (le_client e) (w_env w) (w_env w').
Proof.
  intros He. pose proof (acts_on_client (only (eq l)) l _ (call_op_client meth missing params)) as Ha.
  assert (acts (only (eq l)) (on_client l (call_op meth missing params))) as Hacts
    by (apply Ha; intros; by repeat split).
  specialize (Hacts w). clear Ha. unfold on_client in *. rewrite (entry_lookup _ _ _ He) in *.
  pose proof (call_op_spec meth missing params (le_client e) (w_env w)) as Hs.
  destruct (call_op _ _ _ _) as [r [c' e']]. destruct Hs as [_ Hs]. by split_and!.
Qed.

(** A call reaches its leaf under its own name: for a routable alias whose leaf may
    be called, the answer is the leaf's client's, the request that goes out names the
    tool, resource or prompt as the leaf knows it and carries the caller's arguments,
    it goes to that leaf's endpoint, and no other leaf changes. *)
Theorem calls_reach_the_leaf alias item args w l :
  world_wf w → routable alias = true → callable w alias l →
  let c := le_client (entry l w) in
  let reaches r w' meth missing params :=
    r = (call_op meth missing params (c, w_env w)).1 ∧
    acts_on (only (eq l)) w w' ∧ requested meth params c (w_env w) (w_env w') in
  let name := qualify alias item in
  (alias ≠ "federation" →
     let '(r, w') := route_tool_call name args w in
     reaches r w' "tools/call" "tool call"
       (json_obj [("name", VString item); ("arguments", args)])) ∧
  (let '(r, w') := route_resource_read name w in
   reaches r w' "resources/read" "resources/read" (json_obj [("uri", VString item)])) ∧
  (let '(r, w') := route_prompt_get name args w in
   reaches r w' "prompts/get" "prompts/get"
     (json_obj [("name", VString item); ("arguments", args)])).
Proof.
  intros [Hwf _] Hr Hc c reaches name.
  destruct (Hwf _ _ (proj1 Hc)) as (e & He & _).
  assert (c = le_client e) as Hce by (unfold c; by rewrite (entry_lookup _ _ _ He)).
  assert (parse_namespaced_name name = Some (alias, item)) as Hp by by apply parse_qualify.
  unfold route_tool_call, route_resource_read, route_prompt_get, reaches.
  rewrite Hp, Hce. clear c reaches Hce.
  split_and!; [intros Hf; rewrite decide_False by done|..];
    rewrite (route_to_leaf_callable _ l) by done; by apply on_client_call.
Qed.


(** The search finds what matches and nothing else: with a query and no alias, the
    result is the list of the cached tools, of healthy and unhealthy leaves alike, whose
    name or description contains the query in lower case, each under its qualified
    name; nothing is requested and nothing changes. *)
Theorem search_finds_matches query arguments w :
  world_wf w → get_str "query" arguments = Some query → get_str "alias" arguments = None →
  ∃ matches,
    handle_native_tool "search_tools" arguments w =
      (Ok (pretty_content (VArray matches)), w) ∧
    ∀ m, m ∈ matches ↔
      ∃ alias l t,
        w_leaves w !! alias = Some l ∧ t ∈ cached_tools (entry l w) ∧
        let name := default "" (get_str "name" t) in
        let description := default "" (get_str "description" t) in
        (contains (to_lowercase query) (to_lowercase name) = true ∨
         contains (to_lowercase query) (to_lowercase description) = true) ∧
        m = json_obj [("alias", VString alias); ("name", VString (qualify alias name));
                      ("tool_name", VString name); ("description", VString description)].
Proof.
  intros Hwf Hq Ha. exists (search_matches (to_lowercase query) (map_values (w_leaves w)) w).
  split.
  - change (native_search_tools arguments w =
      (Ok (pretty_content (VArray (search_matches (to_lowercase query)
         (map_values (w_leaves w)) w))), w)).
    unfold native_search_tools. rewrite Hq, Ha. reflexivity.
  - intros m. unfold search_matches. rewrite list_elem_of_bind.
    setoid_rewrite list_elem_of_omap. setoid_rewrite map_values_elem. split.
    + intros (l & (t & Ht & Hm) & alias & Hal). exists alias, l, t.
      rewrite (wf_alias _ _ _ Hwf Hal) in Hm. unfold tool_match in Hm.
      destruct (_ || _) eqn:E; simplify_eq. apply orb_true_iff in E. by split_and!.
    + intros (alias & l & t & Hal & Ht & Hor & ->). exists l.
      split; [|eauto]. exists t. split; [done|].
      rewrite (wf_alias _ _ _ Hwf Hal). unfold tool_match.
      by rewrite (proj2 (orb_true_iff _ _) Hor).
Qed.
End properties.

(** ** Witnesses *)
Module Example.
Definition unicode : Unicode := {| to_lowercase := to_ascii_lowercase |}.
Definition args : Value := json_obj [("query", VString "PUT")].
Definition listed : Value :=
  default VNull (namespace_tool "alpha" (Scenario.tool "get" "Get a thing")).
End Example.

Lemma calls_reach_the_leaf_witness :
  let w := Registry.Example.w1 in
  let '(r, w') := route_tool_call (H := Scenario.os) (H0 := Scenario.http) (H1 := Scenario.serde)
    (H2 := Scenario.mo) (H3 := Example.unicode) (qualify "alpha" "get") Example.args w in
  r = Ok (json_obj [("content", VString "done")]) ∧ acts_on (only (eq 0%nat)) w w'.
Proof.
  intros w. assert (world_wf w) as Hwf by (apply world_wfb_sound; vm_compute; reflexivity).
  assert (callable w "alpha" 0) as Hc by (split; vm_compute; reflexivity).
  pose proof (calls_reach_the_leaf (H := Scenario.os) (H0 := Scenario.http)
    (H1 := Scenario.serde) (H2 := Scenario.mo) (H3 := Example.unicode)
    "alpha" "get" Example.args w 0 Hwf eq_refl Hc) as [Ht _].
  specialize (Ht ltac:(discriminate)).
  assert ((route_tool_call (H := Scenario.os) (H0 := Scenario.http) (H1 := Scenario.serde)
    (H2 := Scenario.mo) (H3 := Example.unicode) (qualify "alpha" "get") Example.args w).1 =
    Ok (json_obj [("content", VString "done")])) as Hr by (vm_compute; reflexivity).
  destruct (route_tool_call _ _ _) as [r w']. cbn in Hr. split; [exact Hr|apply Ht].
Defined.


Lemma search_finds_matches_witness :
  ∃ matches,
    (handle_native_tool (H := Scenario.os) (H0 := Scenario.http) (H1 := Scenario.serde)
       (H2 := Scenario.mo) (H3 := Example.unicode) "search_tools" Example.args
       Registry.Example.w1).1 = Ok (pretty_content (H1 := Scenario.serde) (VArray matches)).
Proof.
  destruct (search_finds_matches (H := Scenario.os) (H0 := Scenario.http)
    (H1 := Scenario.serde) (H2 := Scenario.mo) (H3 := Example.unicode) "PUT" Example.args
    Registry.Example.w1) as (matches & Hm & _).
  - apply world_wfb_sound. vm_compute. reflexivity.
  - vm_compute. reflexivity.
  - vm_compute. reflexivity.
  - exists matches. rewrite Hm. reflexivity.
Defined.
