(* ===== verification/Server.v ===== *)
(** * Server: the MCP endpoint and the stdio transport ([src/server.rs])

    [FederationState] puts the components together.  A handler runs on it from its
    start to its end; [dispatch] chooses the method's handler.  The HTTP replies are
    kept as data ([Reply]); logs, metrics and tracing spans are not modelled, except
    that a span draws an identifier.  [HeaderValue] is the check of the HTTP library
    that a text can be a header value. *)
From S2P Require Import Prelude Text Json Protocol F64 Env Config RateLimit Rbac Session.
From S2P Require Import Notifications LeafClient Scenario Registry Aggregator Router.
Open Scope string_scope.
Open Scope list_scope.

Definition MCP_SESSION_HEADER : string := "mcp-session-id".

Record FederationState := {
  st_world : World;                    (** registry, broker, surroundings *)
  st_aggregator : Aggregator;
  st_sessions : SessionManager;
  st_origins : list string;            (** [allowed_origins] *)
  st_limiter : RateLimiter;
}.

Definition set_world (x : World) (s : FederationState) : FederationState :=
  {| st_world := x; st_aggregator := st_aggregator s; st_sessions := st_sessions s;
     st_origins := st_origins s; st_limiter := st_limiter s |}.
Definition set_sessions (x : SessionManager) (s : FederationState) : FederationState :=
  {| st_world := st_world s; st_aggregator := st_aggregator s; st_sessions := x;
     st_origins := st_origins s; st_limiter := st_limiter s |}.
Definition set_limiter (x : RateLimiter) (s : FederationState) : FederationState :=
  {| st_world := st_world s; st_aggregator := st_aggregator s; st_sessions := st_sessions s;
     st_origins := st_origins s; st_limiter := x |}.

Definition in_world {A} (m : M World A) : M FederationState A :=
  lift_state st_world set_world m.
Definition in_env {A} (m : M Env A) : M FederationState A :=
  in_world (lift_state w_env set_env m).
Definition with_sessions_of {A} (m : SessionManager → A * SessionManager) : M FederationState A :=
  lift_state st_sessions set_sessions m.
Definition clock (s : FederationState) : Z := wnow (st_world s).

(** ** HTTP replies *)
Inductive Body : Type :=
| BEmpty
| BText (content_type text : string)
| BJson (v : Value)
| BEvent (data : string)                 (** one SSE event, then the end *)
| BStream (rx : nat) (sub_id : string).  (** the events of a subscription *)

Record Reply := {
  rp_status : Z;
  rp_session : option string;            (** the [mcp-session-id] header *)
  rp_body : Body;
}.

Definition reply (status : Z) (body : Body) : Reply :=
  {| rp_status := status; rp_session := None; rp_body := body |}.
Definition text_reply (status : Z) (text : string) : Reply :=
  reply status (BText "text/plain; charset=utf-8" text).

Class HeaderValue : Type := { valid_header_value : string → bool }.

Definition Headers : Type := list (string * option string).

Definition accepts_sse (headers : Headers) : bool :=
  match header_str "accept" headers with
  | Some v => existsb (λ s, starts_with "text/event-stream" (trim s)) (split_char "," v)
  | None => false
  end.

Definition extract_session_id (headers : Headers) : option string :=
  header_str MCP_SESSION_HEADER headers.

Definition extract_client_info (response : JsonRpcResponse) : option Value :=
  rs_result response ≫= get "clientInfo".

Definition origin_allowed (origins : list string) (headers : Headers) : bool :=
  match origins with
  | [] => true
  | _ =>
      let origin := default "" (header_str "origin" headers) in
      negb (is_empty origin) && existsb (λ o, bool_decide (o = origin)) origins
  end.

Definition forbidden : Reply := text_reply 403 "origin not allowed".
Definition unknown_session : Reply := text_reply 404 "session expired or unknown".

(** The handlers of [/mcp] refuse a request whose origin is not allowed. *)
Definition check_origin (headers : Headers) (k : M FederationState Reply)
  : M FederationState Reply :=
  λ s, if origin_allowed (st_origins s) headers then k s else (forbidden, s).

(** ** The methods *)
Definition VALID_LOG_LEVELS : list string :=
  ["debug"; "info"; "notice"; "warning"; "error"; "critical"; "alert"; "emergency"].

Definition handle_initialize (request : JsonRpcRequest) : JsonRpcResponse :=
  success_response request (json_obj
    [("protocolVersion", VString "2025-11-25");
     ("capabilities", json_obj [("tools", json_obj []); ("resources", json_obj []);
                                ("prompts", json_obj []); ("logging", json_obj []);
                                ("sampling", json_obj [])]);
     ("serverInfo", json_obj [("name", VString "mcp-federation");
                              ("version", VString PKG_VERSION)])]).

Definition handle_logging_set_level (request : JsonRpcRequest) (session : option string)
  : M FederationState JsonRpcResponse :=
  match get_str "level" (rq_params request) with
  | None => mret (error_response request (-32602) "missing required 'level' parameter")
  | Some level =>
      if bool_decide (level ∈ VALID_LOG_LEVELS) then
        _ ← match session with
            | Some sid => _ ← with_sessions_of (set_log_level sid level); mret tt
            | None => mret tt
            end;
        mret (success_response request (json_obj []))
      else mret (error_response request (-32602)
        ("invalid log level '" +:+ level +:+ "'; expected one of: " +:+
         join ", " VALID_LOG_LEVELS))
  end.

Definition handle_sampling_create_message (request : JsonRpcRequest) : JsonRpcResponse :=
  error_response request (-32601)
    ("sampling not supported by this federation server " +:+ of_bytes [0xE2; 0x80; 0x94]%N +:+
     " connect directly to a leaf server that supports sampling").

Definition tool_allowed (ctx : RequestContext) (namespaced : string) : bool :=
  match parse_namespaced_name namespaced with
  | Some (alias, _) => allows_alias ctx alias
  | None => true
  end.

(** The tools a restricted context keeps *)
Definition visible (ctx : RequestContext) (tool : Value) : bool :=
  match get_str "name" tool with
  | Some name => tool_allowed ctx name
  | None => true
  end.

Section server.
Context `{!Os, !Http, !Serde, !MapOrder, !Unicode, !Jwt, !HeaderValue}.

Definition handle_tools_list (request : JsonRpcRequest) (ctx : RequestContext)
  : M FederationState JsonRpcResponse :=
  a ← m_gets st_aggregator;
  tools ← in_world (aggregated_tools a);
  let tools := match ctx_allowed ctx with
               | Some _ => filter (λ t, visible ctx t = true) tools
               | None => tools
               end in
  mret (success_response request (json_obj [("tools", VArray tools)])).

(** The outcome of a routed call as a response *)
Definition routed (request : JsonRpcRequest) (r : result FederationError Value)
  : JsonRpcResponse :=
  match r with
  | Ok value => success_response request value
  | Err e => error_response request (-32000) (error_text e)
  end.

Definition str_param (name : string) (params : Value) : string :=
  default "" (as_str (index name params)).

Definition handle_tools_call (request : JsonRpcRequest) (ctx : RequestContext)
  : M FederationState JsonRpcResponse :=
  let params := rq_params request in
  let tool_name := str_param "name" params in
  let arguments := index "arguments" params in
  let alias := match parse_namespaced_name tool_name with
               | Some (a, _) => a
               | None => "unknown"
               end in
  if bool_decide (is_Some (parse_namespaced_name tool_name)) && negb (allows_alias ctx alias)
  then mret (error_response request (-32000)
    ("access denied: client is not permitted to use leaf '" +:+ alias +:+ "'"))
  else
    result ← in_world (route_tool_call tool_name arguments);
    mret (routed request result).

Definition handle_resources_list (request : JsonRpcRequest) : M FederationState JsonRpcResponse :=
  resources ← in_world aggregated_resources;
  mret (success_response request (json_obj [("resources", VArray resources)])).

Definition handle_resources_read (request : JsonRpcRequest) : M FederationState JsonRpcResponse :=
  result ← in_world (route_resource_read (str_param "uri" (rq_params request)));
  mret (routed request result).

Definition handle_prompts_list (request : JsonRpcRequest) : M FederationState JsonRpcResponse :=
  prompts ← in_world aggregated_prompts;
  mret (success_response request (json_obj [("prompts", VArray prompts)])).

Definition handle_prompts_get (request : JsonRpcRequest) : M FederationState JsonRpcResponse :=
  let params := rq_params request in
  result ← in_world (route_prompt_get (str_param "name" params) (index "arguments" params));
  mret (routed request result).

Definition dispatch_method (request : JsonRpcRequest) (session : option string)
    (ctx : RequestContext) : M FederationState JsonRpcResponse :=
  let names m := bool_decide (rq_method request = m) in
  if names "initialize" then mret (handle_initialize request)
  else if names "notifications/initialized" then mret (success_response request (json_obj []))
  else if names "tools/list" then handle_tools_list request ctx
  else if names "tools/call" then handle_tools_call request ctx
  else if names "resources/list" then handle_resources_list request
  else if names "resources/read" then handle_resources_read request
  else if names "prompts/list" then handle_prompts_list request
  else if names "prompts/get" then handle_prompts_get request
  else if names "logging/setLevel" then handle_logging_set_level request session
  else if names "sampling/createMessage" then mret (handle_sampling_create_message request)
  else mret (method_not_found request).

(** The trace identifier is drawn first. *)
Definition dispatch (request : JsonRpcRequest) (session : option string) (ctx : RequestContext)
  : M FederationState JsonRpcResponse :=
  _ ← in_env fresh_uuid;
  dispatch_method request session ctx.

(** ** The endpoint *)

(** The session of a request that is not [initialize], checked and touched when the
    client sent one; [false] when it is refused. *)
Definition admit_session (session : option string) : M FederationState bool :=
  match session with
  | None => mret true
  | Some sid =>
      t ← m_gets clock;
      valid ← m_gets (λ s, validate_session t t sid (st_sessions s));
      if valid : bool then
        _ ← with_sessions_of (λ m, (tt, touch_session t sid m));
        mret true
      else mret false
  end.

Definition rate_limited (ctx : RequestContext) : M FederationState bool :=
  t ← m_gets clock;
  ok ← lift_state st_limiter set_limiter (check t t (client_label ctx));
  mret (negb ok).

(** The session a successful [initialize] opens *)
Definition open_session (response : JsonRpcResponse) : M FederationState string :=
  sub ← in_env fresh_uuid;
  t ← m_gets clock;
  with_sessions_of (create_session t t sub (extract_client_info response)).

Definition json_reply (status : Z) (response : JsonRpcResponse) : Reply :=
  reply status (BJson (response_to_value response)).

Definition handle_mcp (headers : Headers) (ctx : option RequestContext)
    (request : JsonRpcRequest) : M FederationState Reply :=
  check_origin headers (
    let is_initialize := bool_decide (rq_method request = "initialize") in
    let incoming_session := extract_session_id headers in
    admitted ← (if is_initialize then mret true else admit_session incoming_session);
    if negb admitted then mret unknown_session
    else
      let request_ctx := default anonymous ctx in
      limited ← rate_limited request_ctx;
      if limited : bool then
        mret (json_reply 429 (error_response request (-32000) "rate limit exceeded"))
      else
        response ← dispatch request incoming_session request_ctx;
        session_header ←
          (if is_initialize && bool_decide (rs_error response = None)
           then sid ← open_session response; mret (Some sid)
           else mret None);
        let session_header := sid ← session_header;
                              if valid_header_value sid then Some sid else None in
        mret {| rp_status := 200; rp_session := session_header;
                rp_body := if accepts_sse headers
                           then BEvent (to_string (response_to_value response))
                           else BJson (response_to_value response) |}).

Definition delete_mcp (headers : Headers) : M FederationState Reply :=
  check_origin headers
    match extract_session_id headers with
    | None => mret (text_reply 400 "missing Mcp-Session-Id header")
    | Some sid =>
        found ← with_sessions_of (terminate_session sid);
        mret (if found : bool then reply 200 BEmpty else unknown_session)
    end.

Definition in_broker {A} (m : NotificationBroker → A * NotificationBroker) : M World A :=
  lift_state w_broker set_broker m.

Definition get_mcp (headers : Headers) : M FederationState Reply :=
  check_origin headers
    match extract_session_id headers with
    | None => mret (text_reply 400 "missing Mcp-Session-Id header")
    | Some sid =>
        admitted ← admit_session (Some sid);
        if negb admitted then mret unknown_session
        else
          sub_id ← in_env fresh_uuid;
          rx ← in_world (in_broker (subscribe sub_id));
          mret (reply 200 (BStream rx sub_id))
    end.

(** The stream of [get_mcp]: its next event, and its end, which drops the receiver and
    then the guard *)
Definition stream_next (rx : nat) (b : NotificationBroker) : option string * NotificationBroker :=
  let '(notification, b) := recv rx b in (to_string <$> notification, b).
Definition stream_drop (rx : nat) (sub_id : string) (b : NotificationBroker)
  : NotificationBroker := (unsubscribe sub_id (drop_receiver rx b)).2.

(** ** The stdio transport: the lines of the input, the lines printed *)
Definition parse_error_line (e : string) : string :=
  to_string (json_obj [("jsonrpc", VString "2.0"); ("id", VNull);
    ("error", json_obj [("code", vint (-32700)); ("message", VString ("Parse error: " +:+ e))])]).

Definition stdio_line (line : string) : M FederationState (list string) :=
  if is_empty (trim line) then mret []
  else match parse_request line with
       | Err e => mret [parse_error_line e]
       | Ok request =>
           response ← dispatch request None anonymous;
           mret [to_string (response_to_value response)]
       end.

Fixpoint run_stdio (input : list (result string string)) : M FederationState (list string) :=
  match input with
  | [] | Err _ :: _ => mret []
  | Ok line :: input =>
      out ← stdio_line line;
      rest ← run_stdio input;
      mret (out ++ rest)
  end.
End server.

(** ** Properties *)
Section properties.
Context `{!Os, !Http, !Serde, !MapOrder, !Unicode, !Jwt, !HeaderValue}.

Lemma wp_in_world {A} (m : M World A) (Q : A → FederationState → Prop) s :
  wp (in_world m) Q s ↔ wp m (λ a w, Q a (set_world w s)) (st_world s).
Proof. unfold wp, in_world, lift_state. by destruct (m (st_world s)). Qed.
Lemma wp_with_sessions {A} (m : SessionManager → A * SessionManager) Q s :
  wp (with_sessions_of m) Q s ↔ wp m (λ a x, Q a (set_sessions x s)) (st_sessions s).
Proof. unfold wp, with_sessions_of, lift_state. by destruct (m (st_sessions s)). Qed.

(** Every state, whatever the result *)
Lemma wp_any {S A B} (m : M S A) (f : A → M S B) Q s :
  (∀ a s', wp (f a) Q s') → wp (m ≫= f) Q s.
Proof. intros Hf. apply wp_bind. unfold wp at 1. apply Hf. Qed.

Lemma routed_replies request r : replies_to request (routed request r).
Proof. by destruct r. Qed.
Hint Resolve routed_replies : fed.

Lemma dispatch_method_replies request session ctx s :
  wp (dispatch_method request session ctx) (λ r _, replies_to request r) s.
Proof.
  unfold dispatch_method, handle_tools_list, handle_tools_call, handle_resources_list,
    handle_resources_read, handle_prompts_list, handle_prompts_get, handle_logging_set_level,
    handle_initialize, handle_sampling_create_message.
  repeat match goal with
         | |- wp (if ?b then _ else _) _ _ => destruct b
         | |- wp (match ?x with _ => _ end) _ _ => destruct x
         | |- wp (_ ≫= _) _ _ => apply wp_any; intros
         | |- wp (mret _) _ _ => apply wp_ret; cbv zeta; auto with fed
         end.
Qed.
Lemma dispatch_replies_to request session ctx s :
  wp (dispatch request session ctx) (λ r _, replies_to request r) s.
Proof. apply wp_any. intros _ s1. apply dispatch_method_replies. Qed.

(** (C27) Every request gets a well-formed reply: whatever the method, the parameters,
    the session and the caller, the response echoes the request's id and carries
    exactly one of a result and an error. *)
Theorem dispatch_replies request session ctx s :
  replies_to request (dispatch request session ctx s).1.
Proof. apply dispatch_replies_to. Qed.

(** *** Admission *)
Definition session_ok (s : FederationState) (request : JsonRpcRequest) (headers : Headers) : bool :=
  bool_decide (rq_method request = "initialize") ||
  match extract_session_id headers with
  | Some sid => validate_session (clock s) (clock s) sid (st_sessions s)
  | None => true
  end.
Definition within_rate (s : FederationState) (ctx : option RequestContext) : bool :=
  (check (clock s) (clock s) (client_label (default anonymous ctx)) (st_limiter s)).1.

(** The sessions after [admit_session] on one that is accepted *)
Definition touched (s : FederationState) (request : JsonRpcRequest) (headers : Headers)
  : SessionManager :=
  if bool_decide (rq_method request = "initialize") then st_sessions s
  else match extract_session_id headers with
       | Some sid => touch_session (clock s) sid (st_sessions s)
       | None => st_sessions s
       end.

Lemma admit_spec s request headers :
  (if bool_decide (rq_method request = "initialize") then mret true
   else admit_session (extract_session_id headers)) s =
  (session_ok s request headers,
   if session_ok s request headers then set_sessions (touched s request headers) s else s).
Proof.
  unfold session_ok, touched, admit_session. destruct (bool_decide _); [by destruct s|].
  destruct (extract_session_id headers) as [sid|]; [|by destruct s]. run_m.
  destruct (validate_session _ _ _ _); [|done]. by destruct s.
Qed.

(** The part of [handle_mcp] that runs once the request has been admitted *)
Definition serve (headers : Headers) (ctx : RequestContext) (request : JsonRpcRequest)
  : M FederationState Reply :=
  response ← dispatch request (extract_session_id headers) ctx;
  session_header ←
    (if bool_decide (rq_method request = "initialize") && bool_decide (rs_error response = None)
     then sid ← open_session response; mret (Some sid)
     else mret None);
  let session_header := sid ← session_header;
                        if valid_header_value sid then Some sid else None in
  mret {| rp_status := 200; rp_session := session_header;
          rp_body := if accepts_sse headers
                     then BEvent (to_string (response_to_value response))
                     else BJson (response_to_value response) |}.

Definition limited_state (s : FederationState) (ctx : option RequestContext) : FederationState :=
  set_limiter (check (clock s) (clock s) (client_label (default anonymous ctx)) (st_limiter s)).2 s.

Lemma handle_mcp_spec headers ctx request s :
  handle_mcp headers ctx request s =
  if origin_allowed (st_origins s) headers then
    if session_ok s request headers then
      let s1 := set_sessions (touched s request headers) s in
      if within_rate s ctx then serve headers (default anonymous ctx) request (limited_state s1 ctx)
      else (json_reply 429 (error_response request (-32000) "rate limit exceeded"),
            limited_state s1 ctx)
    else (unknown_session, s)
  else (forbidden, s).
Proof.
  unfold handle_mcp, check_origin. destruct (origin_allowed _ _); [|done].
  unfold mbind at 1, M_bind at 1. rewrite admit_spec.
  destruct (session_ok s request headers); [|done]. cbn [negb].
  unfold rate_limited, within_rate, limited_state, lift_state. run_m.
  destruct s; cbn. by destruct (check _ _ _ _) as [[] lim].
Qed.


(** *** Access control *)

(** The leaves a context may use *)
Definition permitted (ctx : RequestContext) (w : World) (l : nat) : Prop :=
  ∃ alias, w_leaves w !! alias = Some l ∧ allows_alias ctx alias = true.

Lemma route_to_leaf_only alias op w :
  client_op op →
  acts_on (only (λ l, w_leaves w !! alias = Some l)) w (route_to_leaf alias op w).2.
Proof.
  intros Hop. unfold route_to_leaf, get_leaf, fed_error. run_m.
  destruct (w_leaves w !! alias) as [l|] eqn:Ha; [|done].
  destruct (is_healthy (entry l w)); [|done].
  apply acts_on_client; [done|]. intros e c Hc. split; [done|naive_solver].
Qed.


(** The allow-list is not consulted for resources and prompts: the reply and the
    effect of these methods are the same for every caller. *)
Theorem resources_ignore_rbac request session ctx ctx' s :
  rq_method request ∈ ["resources/list"; "resources/read"; "prompts/list"; "prompts/get"] →
  dispatch request session ctx s = dispatch request session ctx' s.
Proof.
  intros Hm. unfold dispatch, dispatch_method.
  rewrite !elem_of_cons, elem_of_nil in Hm.
  by destruct Hm as [-> |[-> |[-> |[-> |[]]]]].
Qed.

(** *** Sessions *)

Lemma serve_initialize headers ctx request s :
  rq_method request = "initialize" →
  let '(rp, s') := serve headers ctx request s in
  let sub := uuid (S (uuids (w_env (st_world s)))) in
  ∃ sid, create_session (clock s) (clock s) sub None (st_sessions s) = (sid, st_sessions s') ∧
    rp_session rp = (if valid_header_value sid then Some sid else None) ∧
    st_origins s' = st_origins s.
Proof.
  intros Hm. unfold serve, dispatch, dispatch_method. rewrite Hm.
  change (bool_decide ("initialize" = "initialize")) with true. cbn match.
  change (bool_decide (rs_error (handle_initialize request) = None)) with true.
  unfold open_session, in_env, in_world, with_sessions_of, lift_state, fresh_uuid. run_m.
  change (extract_client_info (handle_initialize request)) with (@None Value).
  destruct s as [w a m o lim]. cbn. unfold clock, wnow. cbn.
  eexists. split_and!; [reflexivity|done|done].
Qed.

(** The handshake opens a session the next requests can use: when an [initialize] is
    served, the state has a new session whose id is offered in the reply's header (when
    the HTTP library accepts it as one), and a request that carries it later is
    admitted as long as it comes within the TTL and before the token expires; deleting
    it is answered 200 once, and then it is refused.  The session records no client
    information, whatever the client sent. *)
Theorem initialize_opens_session `{!JwtLaws} headers ctx request s :
  rq_method request = "initialize" →
  let '(rp, s') := handle_mcp headers ctx request s in
  rp_status rp = 200%Z →
  ∃ sid,
    rp_session rp = (if valid_header_value sid then Some sid else None) ∧
    (client_info <$> sessions (st_sessions s') !! sid) = Some None ∧
    (∀ t, (since t (clock s) < ttl (st_sessions s))%Z →
       (unix_now t - 5 ≤ (unix_now (clock s) + as_secs (ttl (st_sessions s))) mod 2 ^ 64)%Z →
       validate_session t t sid (st_sessions s') = true) ∧
    (∀ hs, origin_allowed (st_origins s) hs = true → extract_session_id hs = Some sid →
       let '(rp1, s1) := delete_mcp hs s' in
       rp_status rp1 = 200%Z ∧
       (∀ t, validate_session t t sid (st_sessions s1) = false) ∧
       rp_status (delete_mcp hs s1).1 = 404%Z).
Proof.
  intros Hm. rewrite handle_mcp_spec.
  destruct (origin_allowed _ headers); [|done]. destruct (session_ok _ _ _); [|done].
  destruct (within_rate s ctx); [|done]. cbv zeta.
  assert (touched s request headers = st_sessions s) as ->
    by (unfold touched; by rewrite bool_decide_eq_true_2).
  pose proof (serve_initialize headers (default anonymous ctx) request
    (limited_state (set_sessions (st_sessions s) s) ctx) Hm) as Hserve.
  destruct (serve _ _ _ _) as [rp s']. destruct Hserve as (sid & Hc & Hrp & Ho).
  set (sub := uuid _) in Hc.
  intros _. exists sid. split; [done|].
  change (clock (limited_state _ _)) with (clock s) in Hc.
  change (st_sessions (limited_state _ _)) with (st_sessions s) in Hc.
  split_and!.
  - injection Hc as <- <-. cbn. by rewrite lookup_insert_eq.
  - intros t Ht Hexp. pose proof (created_session_valid (clock s) (clock s) t t sub None
      (st_sessions s)) as Hv. rewrite Hc in Hv. by apply Hv.
  - intros hs Hhs Hsid. unfold delete_mcp, check_origin. rewrite Ho. cbn [limited_state set_limiter st_origins set_sessions].
    rewrite Hhs, Hsid. unfold with_sessions_of, lift_state. run_m.
    assert (is_Some (sessions (st_sessions s') !! sid)) as Hin
      by (injection Hc as <- <-; cbn; rewrite lookup_insert_eq; eauto).
    unfold terminate_session at 1. rewrite bool_decide_eq_true_2 by done.
    split_and!; [done| |].
    + intros t. apply terminated_session_refused.
    + cbn. rewrite Ho. cbn. rewrite Hhs. cbn.
      by rewrite lookup_delete_eq, bool_decide_eq_false_2 by (by intros [??]).
Qed.

(** The log level of a session is the last valid one requested: a valid level is
    acknowledged and, when the request carries a known session, kept for it; an unknown
    or missing level is an error with nothing changed. *)
Theorem set_level_effect request session s :
  let '(r, s') := handle_logging_set_level request session s in
  match get_str "level" (rq_params request) with
  | Some level =>
      if bool_decide (level ∈ VALID_LOG_LEVELS) then
        rs_error r = None ∧ st_world s' = st_world s ∧
        (∀ sid, session = Some sid → is_Some (sessions (st_sessions s) !! sid) →
           get_log_level sid (st_sessions s') = Some level) ∧
        (∀ sid, session ≠ Some sid →
           sessions (st_sessions s') !! sid = sessions (st_sessions s) !! sid)
      else (err_code <$> rs_error r) = Some (-32602)%Z ∧ s' = s
  | None => (err_code <$> rs_error r) = Some (-32602)%Z ∧ s' = s
  end.
Proof.
  unfold handle_logging_set_level. destruct (get_str _ _) as [level|]; [|done].
  destruct (bool_decide (level ∈ VALID_LOG_LEVELS)); [|done]. destruct session as [sid|]; [|done].
  unfold with_sessions_of, lift_state. run_m. unfold set_log_level, get_log_level.
  destruct (sessions (st_sessions s) !! sid) as [x|] eqn:Hx; cbn; (split_and!; [done|done|..]).
  - intros ? [= <-] _. by rewrite lookup_insert_eq.
  - intros sid' Hne. rewrite lookup_insert_ne; [done|]. naive_solver.
  - intros ? [= <-] [??]. congruence.
  - done.
Qed.

(** *** The stdio transport *)
Definition nonblank (line : string) : bool := negb (is_empty (trim line)).

(** The lines read before the first read error *)
Fixpoint readable (input : list (result string string)) : list string :=
  match input with
  | Ok line :: input => line :: readable input
  | _ => []
  end.

(** What is printed for a line *)
Definition line_answer (line out : string) : Prop :=
  match parse_request line with
  | Err e => out = parse_error_line e
  | Ok request => ∃ r, replies_to request r ∧ out = to_string (response_to_value r)
  end.
Definition answers_lines (lines printed : list string) : Prop :=
  Forall2 line_answer (filter (λ line, nonblank line = true) lines) printed.

(** One line in, one line out: on stdio every line that is not blank is answered, in
    order, with one line, the parse error when it is not a request and otherwise a
    well-formed reply to it; blank lines are not answered, and input after a read error
    is not read. *)
Theorem stdio_answers_each_line input s :
  answers_lines (readable input) (run_stdio input s).1.
Proof.
  unfold answers_lines, line_answer.
  revert s. induction input as [|[line|e] input IH]; intros s; [constructor| |constructor].
  cbn [readable run_stdio]. run_m. rewrite filter_cons. unfold stdio_line.
  destruct (is_empty (trim line)) eqn:Hb.
  - rewrite decide_False by (unfold nonblank; by rewrite Hb). run_m.
    specialize (IH s). by destruct (run_stdio input s).
  - rewrite decide_True by (unfold nonblank; by rewrite Hb). destruct (parse_request line) as [request|e] eqn:Hp.
    + run_m. pose proof (dispatch_replies_to request None anonymous s) as Hr.
      unfold wp in Hr. destruct (dispatch _ _ _ s) as [r s1].
      specialize (IH s1). destruct (run_stdio input s1). constructor; [|done]. rewrite Hp. eauto.
    + run_m. specialize (IH s). destruct (run_stdio input s). constructor; [|done]. by rewrite Hp.
Qed.
End properties.

(** ** Witnesses *)
Module Example.
Definition header_value : HeaderValue := {| valid_header_value := λ _, true |}.

Definition st : FederationState :=
  {| st_world := Registry.Example.w1; st_aggregator := Aggregator.Example.agg;
     st_sessions := Session.Example.mgr; st_origins := ["http://ok"];
     st_limiter := RateLimiter_new RateLimitConfig_default |}.

Definition request (meth : string) (params : Value) : JsonRpcRequest :=
  {| rq_jsonrpc := "2.0"; rq_id := Some (vint 1); rq_method := meth; rq_params := params |}.
Definition headers : Headers := [("origin", Some "http://ok")].
End Example.

Lemma initialize_opens_session_witness :
  let '(rp, s') := handle_mcp (H := Scenario.os) (H0 := Scenario.http) (H1 := Scenario.serde)
    (H2 := Scenario.mo) (H3 := Router.Example.unicode) (H4 := Session.Example.jwt)
    (H5 := Example.header_value) Example.headers None
    (Example.request "initialize" VNull) Example.st in
  ∃ sid, rp_session rp = Some sid ∧
    (client_info <$> sessions (st_sessions s') !! sid) = Some None.
Proof.
  pose proof (initialize_opens_session (H := Scenario.os) (H0 := Scenario.http)
    (H1 := Scenario.serde) (H2 := Scenario.mo) (H3 := Router.Example.unicode)
    (H4 := Session.Example.jwt) (H5 := Example.header_value)
    (H6 := Session.Example.jwt_laws) Example.headers None
    (Example.request "initialize" VNull) Example.st eq_refl) as Ho.
  assert (rp_status (handle_mcp (H := Scenario.os) (H0 := Scenario.http) (H1 := Scenario.serde)
    (H2 := Scenario.mo) (H3 := Router.Example.unicode) (H4 := Session.Example.jwt)
    (H5 := Example.header_value) Example.headers None
    (Example.request "initialize" VNull) Example.st).1 = 200%Z) as Hs by (vm_compute; reflexivity).
  destruct (handle_mcp _ _ _ _) as [rp s']. destruct (Ho Hs) as (sid & Hrp & Hin & _).
  exists sid. split; [exact Hrp|exact Hin].
Defined.

Lemma resources_ignore_rbac_witness :
  let denied := {| client_id := Some "client-0"; ctx_allowed := Some [] |} in
  dispatch (H := Scenario.os) (H0 := Scenario.http) (H1 := Scenario.serde)
    (H2 := Scenario.mo) (H3 := Router.Example.unicode)
    (Example.request "resources/read" (json_obj [("uri", VString "alpha__file")])) None denied
    Example.st =
  dispatch (H := Scenario.os) (H0 := Scenario.http) (H1 := Scenario.serde)
    (H2 := Scenario.mo) (H3 := Router.Example.unicode)
    (Example.request "resources/read" (json_obj [("uri", VString "alpha__file")])) None admin
    Example.st.
Proof.
  intros denied. apply resources_ignore_rbac. apply (bool_decide_unpack _). vm_compute. exact I.
Defined.
