(* ===== verification/SessionSpec.v ===== *)
(** * SessionSpec: what the session manager promises, without its table

    The specification of a session is a life: until when its token holds, when it was last
    used and which log level it chose.  A life is not pruned, and nothing is signed or
    decoded.  Each call takes the manager's lock once; a handler that checks a session and
    then marks it as used makes two calls, between which anything may happen.  The theorem
    says that the manager of Session.v, called any number of times while time goes by,
    answers as the specification does; Admission.v says who makes which calls. *)
From S2P Require Import Prelude Text Json F64 Env Session.
Open Scope string_scope.
Open Scope list_scope.
Open Scope Z_scope.

(** ** The specification *)
Record Life := {
  ends : Z;                  (** Unix time *)
  last_use : Z;
  level : option string;
}.
Definition used (t : Z) (x : Life) : Life := {| ends := ends x; last_use := t; level := level x |}.
Definition leveled (lv : string) (x : Life) : Life :=
  {| ends := ends x; last_use := last_use x; level := Some lv |}.

Inductive Call : Type :=
| COpen (sub : string) (info : option Value)
| CCheck (id : string)
| CTouch (id : string)
| CTerminate (id : string)
| CSetLevel (id lv : string)
| CPrune.
Inductive Answer : Type :=
| Opened (id : string)
| Said (b : bool)
| Silent.

Section specification.
Context `{!Os} (limit : Z).

(** Used less than the limit ago *)
Definition fresh (t : Z) (x : Life) : Prop := since t (last_use x) < limit.
(** And its token has not expired, with the leeway *)
Definition live (t : Z) (x : Life) : Prop := fresh t x ∧ unix_now t - 5 ≤ ends x.

(** When the token of a session that is opened at [t] expires; the addition wraps. *)
Definition expiry (t : Z) : Z := (unix_now t + as_secs limit) mod 2 ^ 64.

(** A call at [t].  Of a life that is no longer fresh, but was not terminated either, it is
    left open whether it is still found. *)
Inductive promises (t : Z) : Call → Answer → gmap string Life → gmap string Life → Prop :=
| promises_open sub info id lives :
    promises t (COpen sub info) (Opened id) lives
      (<[id := {| ends := expiry t; last_use := t; level := None |}]> lives)
| promises_check id (b : bool) lives :
    (b = true ↔ ∃ x, lives !! id = Some x ∧ live t x) →
    promises t (CCheck id) (Said b) lives lives
| promises_touch id (found : bool) lives :
    (∀ x, lives !! id = Some x → fresh t x → found = true) →
    promises t (CTouch id) Silent lives (if found then alter (used t) id lives else lives)
| promises_terminate id (found : bool) lives :
    (∀ x, lives !! id = Some x → fresh t x → found = true) →
    (found = true → is_Some (lives !! id)) →
    promises t (CTerminate id) (Said found) lives (delete id lives)
| promises_level id lv (found : bool) lives :
    (∀ x, lives !! id = Some x → fresh t x → found = true) →
    (found = true → is_Some (lives !! id)) →
    promises t (CSetLevel id lv) (Said found) lives
      (if found then alter (leveled lv) id lives else lives)
| promises_prune lives : promises t CPrune Silent lives lives.

Inductive specified : gmap string Life → list (Z * Call * Answer) → gmap string Life → Prop :=
| specified_nil lives : specified lives [] lives
| specified_cons t c a lives lives' lives'' trace :
    promises t c a lives lives' → specified lives' trace lives'' →
    specified lives ((t, c, a) :: trace) lives''.

(** No life that was not opened *)
Lemma specified_opened lives trace lives' id x :
  specified lives trace lives' → lives' !! id = Some x →
  (∃ y, lives !! id = Some y ∧ ends y = ends x) ∨
  ∃ t sub info, (t, COpen sub info, Opened id) ∈ trace ∧ ends x = expiry t.
Proof.
  intros Hs Hx. induction Hs as [lives|t c a lives lives1 lives' trace Hp _ IH]; [left; eauto|].
  destruct (IH Hx) as [(y & Hy & He)|(t' & sub & info & Hin & He)];
    [|right; exists t', sub, info; split; [by right|done]].
  assert (∀ f, (∀ z, ends (f z) = ends z) → alter f id lives !! id = Some y →
    ∃ y, lives !! id = Some y ∧ ends y = ends x) as Halter.
  { intros f Hf. rewrite lookup_alter_eq, fmap_Some. intros (z & Hz & ->). exists z. by rewrite <- He, Hf. }
  assert (∀ id' f, (∀ z, ends (f z) = ends z) → alter f id' lives !! id = Some y →
    ∃ y, lives !! id = Some y ∧ ends y = ends x) as Halter'.
  { intros id' f Hf. destruct (decide (id' = id)) as [->|Hne]; [by apply Halter|].
    rewrite lookup_alter_ne by done. eauto. }
  destruct Hp as [sub info id' lives|id' b lives|id' found lives|id' found lives|id' lv found lives|lives].
  - apply lookup_insert_Some in Hy as [[-> <-]|[_ Hy]]; [|left; eauto].
    right. exists t, sub, info. split; [left|done].
  - left. eauto.
  - left. destruct found; [|eauto]. by eapply Halter'; [|exact Hy].
  - left. apply lookup_delete_Some in Hy as [_ Hy]. eauto.
  - left. destruct found; [|eauto]. by eapply Halter'; [|exact Hy].
  - left. eauto.
Qed.
Lemma specified_app lives tr1 tr2 lives' :
  specified lives (tr1 ++ tr2) lives' →
  ∃ lives1, specified lives tr1 lives1 ∧ specified lives1 tr2 lives'.
Proof.
  revert lives. induction tr1 as [|[[t c] a] tr1 IH]; intros lives; cbn; [intros Hs; exists lives; split; [constructor|done]|].
  inversion 1 as [|???? l1 ?? Hp Hs]; subst. destruct (IH _ Hs) as (l2 & H1 & H2).
  exists l2. split; [by econstructor|done].
Qed.
(** A session that is accepted was opened, and not so long ago that its token has expired. *)
Lemma accepted_opened tr1 t id tr2 lives' :
  specified ∅ (tr1 ++ (t, CCheck id, Said true) :: tr2) lives' →
  ∃ t0 sub info, (t0, COpen sub info, Opened id) ∈ tr1 ∧ unix_now t - 5 ≤ expiry t0.
Proof.
  intros (lives & H1 & H2)%specified_app.
  inversion H2 as [|???? l1 ?? Hp _]; subst. inversion Hp as [|??? Hb| | | |]; subst.
  destruct (proj1 Hb eq_refl) as (x & Hx & _ & He).
  destruct (specified_opened _ _ _ _ _ H1 Hx) as [(y & Hy & _)|(t0 & sub & info & Hin & Hends)]; [done|].
  exists t0, sub, info. split; [done|]. by rewrite <- Hends.
Qed.
End specification.

(** ** The code *)
Section code.
Context `{!Os, !Jwt}.

(** A call that gets the lock at [t] *)
Definition perform (t : Z) (c : Call) (m : SessionManager) : Answer * SessionManager :=
  match c with
  | COpen sub info => let '(id, m) := create_session t t sub info m in (Opened id, m)
  | CCheck id => (Said (validate_session t t id m), m)
  | CTouch id => (Silent, touch_session t id m)
  | CTerminate id => let '(b, m) := terminate_session id m in (Said b, m)
  | CSetLevel id lv => let '(b, m) := set_log_level id lv m in (Said b, m)
  | CPrune => (Silent, (prune_expired t m).2)
  end.

(** From [t] to [t'] *)
Inductive performed : Z → SessionManager → list (Z * Call * Answer) → Z → SessionManager → Prop :=
| performed_nil t t' m : t ≤ t' → performed t m [] t' m
| performed_cons t t1 c m trace t' m' :
    t ≤ t1 → performed t1 (perform t1 c m).2 trace t' m' →
    performed t m ((t1, c, (perform t1 c m).1) :: trace) t' m'.

Lemma performed_earlier t t1 m trace t' m' :
  t ≤ t1 → performed t1 m trace t' m' → performed t m trace t' m'.
Proof. intros Ht. destruct 1; constructor; lia || done. Qed.

(** ** The refinement *)
Context `{!JwtLaws} (limit : Z) (key : string).

(** An id is a token of this manager, and so decodes until its life ends. *)
Definition token_of (id : string) (x : Life) : Prop :=
  ∃ c, id = jwt_encode key c ∧ iss c = JWT_ISSUER ∧ exp c = ends x.

(** At [t] the table holds at least the fresh lives, and nothing else than lives. *)
Record represents (t : Z) (m : SessionManager) (lives : gmap string Life) : Prop := {
  rp_ttl : ttl m = limit;
  rp_key : hmac_key m = key;
  rp_held id st : sessions m !! id = Some st →
    ∃ x, lives !! id = Some x ∧ last_use x = last_active st ∧ level x = log_level st;
  rp_fresh id x : lives !! id = Some x → fresh limit t x → is_Some (sessions m !! id);
  rp_token id x : lives !! id = Some x → token_of id x;
}.

Lemma fresh_before t t' x : t ≤ t' → fresh limit t' x → fresh limit t x.
Proof. unfold fresh, since. lia. Qed.
Lemma represents_later t t' m lives : t ≤ t' → represents t m lives → represents t' m lives.
Proof. intros Ht []. split; eauto using fresh_before. Qed.

Lemma decodes t m lives id x :
  represents t m lives → lives !! id = Some x →
  is_ok (decode_claims t id m) = bool_decide (unix_now t - 5 ≤ ends x).
Proof.
  intros [_ Hk _ _ Ht] Hx. destruct (Ht id x Hx) as (c & -> & Hi & He).
  unfold decode_claims. rewrite Hk, <- He. case_bool_decide as Hb.
  - rewrite jwt_accepts; [done|rewrite Hi; by apply list_elem_of_singleton|done].
  - apply jwt_rejects_expired. lia.
Qed.

(** A session is valid exactly when its life is live. *)
Lemma valid_live t m lives id :
  represents t m lives →
  validate_session t t id m = true ↔ ∃ x, lives !! id = Some x ∧ live limit t x.
Proof.
  intros Hr. rewrite session_valid_iff. destruct (Hr) as [Htt _ Hh Hf _]. rewrite Htt.
  unfold live, fresh. split.
  - intros (Hd & st & Hst & Hlt). destruct (Hh id st Hst) as (x & Hx & Hu & _).
    exists x. rewrite (decodes _ _ _ _ _ Hr Hx), bool_decide_eq_true in Hd. by rewrite Hu.
  - intros (x & Hx & Hlt & He). rewrite (decodes _ _ _ _ _ Hr Hx), bool_decide_eq_true.
    split; [done|]. destruct (Hf id x Hx Hlt) as [st Hst]. exists st. split; [done|].
    destruct (Hh id st Hst) as (x' & Hx' & Hu & _). simplify_eq. by rewrite <- Hu.
Qed.
Lemma refused_live t m lives id :
  represents t m lives → validate_session t t id m = false →
  ∀ x, lives !! id = Some x → ¬ live limit t x.
Proof.
  intros Hr Hv x Hx Hl. apply not_true_iff_false in Hv. apply Hv, (valid_live t m lives id Hr). eauto.
Qed.
(** What is found *)
Lemma found_fresh t m lives id :
  represents t m lives →
  (∀ x, lives !! id = Some x → fresh limit t x → bool_decide (is_Some (sessions m !! id)) = true) ∧
  (bool_decide (is_Some (sessions m !! id)) = true → is_Some (lives !! id)).
Proof.
  intros [_ _ Hh Hf _]. split; [intros x Hx Hl; by apply bool_decide_eq_true, (Hf id x)|].
  rewrite bool_decide_eq_true. intros [st Hst]. destruct (Hh id st Hst) as (x & Hx & _). eauto.
Qed.

(** *** One lemma per operation *)
Lemma create_represents t sub info m lives :
  represents t m lives →
  let '(id, m') := create_session t t sub info m in
  represents t m' (<[id := {| ends := (unix_now t + as_secs limit) mod 2 ^ 64; last_use := t;
                              level := None |}]> lives).
Proof.
  intros [Ht Hk Hh Hf Hto]. split; [done..| | |]; cbn [create_session sessions with_sessions].
  - intros id' st. rewrite lookup_insert_Some. intros [[<- <-]|[Hne Hst]].
    + rewrite lookup_insert_eq. by eexists.
    + rewrite lookup_insert_ne by done. eauto.
  - intros id' x. rewrite lookup_insert_Some. intros [[<- <-]|[Hne Hx]] Hfr.
    + by rewrite lookup_insert_eq.
    + rewrite lookup_insert_ne by done. eauto.
  - intros id' x. rewrite lookup_insert_Some. intros [[<- <-]|[Hne Hx]]; [|eauto].
    eexists. rewrite <- Hk, <- Ht. split_and!; [reflexivity|done..].
Qed.
(** A session and its life change together. *)
Lemma alter_represents t m m' lives id f g :
  represents t m lives → m' = with_sessions (alter f id) m →
  (∀ st x, last_use x = last_active st ∧ level x = log_level st →
     last_use (g x) = last_active (f st) ∧ level (g x) = log_level (f st)) →
  (∀ x, ends (g x) = ends x) →
  (∀ x, lives !! id = Some x → fresh limit t (g x) → is_Some (sessions m !! id)) →
  represents t m' (alter g id lives).
Proof.
  intros [Ht Hk Hh Hf Hto] -> Hfg He Hg. split; [done..| | |]; cbn [sessions with_sessions].
  - intros id' st. rewrite lookup_alter_Some. intros [(<- & st0 & Hst & ->)|[Hne Hst]].
    + destruct (Hh _ _ Hst) as (x & Hx & Hs). rewrite lookup_alter_eq, Hx. eexists. eauto.
    + rewrite lookup_alter_ne by done. eauto.
  - intros id' y. rewrite lookup_alter_Some, lookup_alter_is_Some.
    intros [(<- & x & Hx & ->)|[Hne Hy]] Hfr; eauto.
  - intros id' y. rewrite lookup_alter_Some. intros [(<- & x & Hx & ->)|[Hne Hy]]; [|eauto].
    destruct (Hto id x Hx) as (c & ? & ? & ?). exists c. by rewrite He.
Qed.
Lemma touch_represents t m lives id :
  represents t m lives →
  represents t (touch_session t id m)
    (if bool_decide (is_Some (sessions m !! id)) then alter (used t) id lives else lives).
Proof.
  intros Hr. case_bool_decide as Hs.
  - eapply alter_represents; [exact Hr|done| |done|done]. by intros st y [_ ?].
  - apply eq_None_not_Some in Hs. destruct Hr as [Ht Hk Hh Hf Hto].
    assert (touch_session t id m = m) as ->; [|done]. unfold touch_session, with_sessions.
    destruct m as [tt ss k]. cbn in *. f_equal. apply map_eq. intros id'.
    rewrite lookup_alter. case_decide; [|done]. subst. by rewrite Hs.
Qed.
Lemma level_represents t m lives id lv :
  represents t m lives →
  let '(found, m') := set_log_level id lv m in
  found = bool_decide (is_Some (sessions m !! id)) ∧
  represents t m' (if found then alter (leveled lv) id lives else lives).
Proof.
  intros Hr. unfold set_log_level. destruct (sessions m !! id) as [st|] eqn:Hst; [|done].
  split; [done|]. eapply alter_represents; [exact Hr| | |done|by rewrite Hst].
  - unfold with_sessions. f_equal. apply map_eq. intros id'.
    destruct (decide (id' = id)) as [->|Hne].
    + rewrite lookup_insert_eq, lookup_alter_eq, Hst.
      instantiate (1 := λ s, {| created_at := created_at s; last_active := last_active s;
                                client_info := client_info s; log_level := Some lv |}). done.
    + by rewrite lookup_insert_ne, lookup_alter_ne.
  - by intros st' x [? _].
Qed.
Lemma delete_represents t m lives id :
  represents t m lives → represents t (terminate_session id m).2 (delete id lives).
Proof.
  intros [Ht Hk Hh Hf Hto]. split; [done..| | |]; cbn [terminate_session snd sessions with_sessions];
    intros id' y; rewrite lookup_delete_Some; intros [Hne Hy].
  - rewrite lookup_delete_ne by done. eauto.
  - intros Hfr. rewrite lookup_delete_ne by done. eauto.
  - eauto.
Qed.
Lemma prune_represents t m lives : represents t m lives → represents t (prune_expired t m).2 lives.
Proof.
  intros [Ht Hk Hh Hf Hto]. split; [done..| | |done]; cbn [prune_expired snd sessions with_sessions].
  - intros id st [Hst _]%map_lookup_filter_Some. eauto.
  - intros id x Hx Hfr. destruct (Hf id x Hx Hfr) as [st Hst]. exists st.
    apply map_lookup_filter_Some. split; [done|]. cbn [snd]. destruct (Hh id st Hst) as (y & Hy & Hu & _).
    rewrite Ht, <- Hu. by simplify_eq.
Qed.

(** *** One call, and any number *)
Lemma perform_promises t c m lives :
  represents t m lives →
  ∃ lives', promises limit t c (perform t c m).1 lives lives' ∧
    represents t (perform t c m).2 lives'.
Proof.
  intros Hr. destruct c as [sub info|id|id|id|id lv|]; cbn [perform].
  - eexists. split; [apply promises_open|]. exact (create_represents t _ info _ _ Hr).
  - exists lives. split; [|done]. apply promises_check. by apply valid_live.
  - destruct (found_fresh _ _ _ id Hr) as [Hfr _]. eexists.
    split; [by apply promises_touch|]. by apply touch_represents.
  - destruct (found_fresh _ _ _ id Hr) as [Hfr Hfo].
    eexists. split; [by apply promises_terminate|]. by apply delete_represents.
  - destruct (found_fresh _ _ _ id Hr) as [Hfr Hfo].
    pose proof (level_represents _ _ _ id lv Hr) as Hl.
    destruct (set_log_level _ _ _) as [found m']. destruct Hl as [-> Hl].
    eexists. split; [by apply promises_level|]. done.
  - exists lives. split; [apply promises_prune|]. by apply prune_represents.
Qed.

Lemma performed_specified t m trace t' m' lives :
  performed t m trace t' m' → represents t m lives →
  ∃ lives', specified limit lives trace lives' ∧ represents t' m' lives'.
Proof.
  intros Hs. revert lives. induction Hs as [t t' m Ht|t t1 c m trace t' m' Ht _ IH]; intros lives Hr.
  - exists lives. split; [constructor|]. by eapply represents_later.
  - destruct (perform_promises t1 c m lives) as (l1 & Hp & Hr1); [by eapply represents_later|].
    destruct (IH l1 Hr1) as (l2 & Hl2 & Hr2). exists l2. split; [|done]. by econstructor.
Qed.

(** What is seen of the manager *)
Lemma represents_seen t m lives id :
  represents t m lives →
  (validate_session t t id m = true ↔ ∃ x, lives !! id = Some x ∧ live limit t x) ∧
  (∀ x, lives !! id = Some x → live limit t x → get_log_level id m = level x).
Proof.
  intros Hr. split; [by eapply valid_live|].
  intros x Hx [Hfr _]. destruct (rp_fresh _ _ _ Hr id x Hx Hfr) as [st Hst].
  unfold get_log_level. rewrite Hst. cbn.
  destruct (rp_held _ _ _ Hr id st Hst) as (y & Hy & _ & Hlv). by simplify_eq.
Qed.
End code.

(** The manager is what the specification says.  However opening, checks, use, termination,
    log levels and pruning follow each other in time, every answer is one the specification
    allows: an id is accepted exactly when it was opened and not terminated, was used less
    than the time limit ago, and its token, which no use prolongs, has not expired; pruning
    is not seen.  At the end, too, exactly the live sessions are valid, each with the log
    level it chose last. *)
Theorem manager_as_specified `{!Os, !Jwt, !JwtLaws, !Base64} ttl_seconds secret random t trace t' m' :
  performed t (SessionManager_new ttl_seconds secret random) trace t' m' →
  ∃ lives, specified (from_secs ttl_seconds) ∅ trace lives ∧
    ∀ id,
      (validate_session t' t' id m' = true ↔
         ∃ x, lives !! id = Some x ∧ live (from_secs ttl_seconds) t' x) ∧
      (∀ x, lives !! id = Some x → live (from_secs ttl_seconds) t' x →
         get_log_level id m' = level x).
Proof.
  intros Hs. destruct (performed_specified (from_secs ttl_seconds)
      (hmac_key (SessionManager_new ttl_seconds secret random)) _ _ _ _ _ ∅ Hs) as (lives & Hl & Hr).
  { by split; [done..| | |]; intros id x Hx. }
  exists lives. split; [done|]. intros id. by eapply represents_seen.
Qed.

(** ** Witness *)
Module Example.
#[local] Existing Instances Session.Example.jwt Session.Example.os Session.Example.jwt_laws.
Definition b64 : Base64 := {| b64_decode := λ s, Ok s |}.
#[local] Existing Instance b64.

Definition m : SessionManager := SessionManager_new 60 (Some "k") "random".
Definition id : string := match (perform 0 (COpen "s" None) m).1 with Opened id => id | _ => "" end.
(** Opened, used after 40 seconds, kept by a pruning at 80 seconds, and refused at 81: it was
    used 41 seconds ago, but its token has expired. *)
Definition calls : list (Z * Call) :=
  [(0, COpen "s" None); (40, CCheck id); (40, CTouch id); (80, CPrune); (81, CCheck id);
   (81, CTerminate id)].
Fixpoint run (cs : list (Z * Call)) (m : SessionManager) : list (Z * Call * Answer) * SessionManager :=
  match cs with
  | [] => ([], m)
  | (d, c) :: cs =>
      let am := perform (from_secs d) c m in
      let rest := run cs am.2 in ((from_secs d, c, am.1) :: rest.1, rest.2)
  end.
End Example.

#[local] Existing Instances Session.Example.jwt Session.Example.os Session.Example.jwt_laws Example.b64.

Lemma manager_as_specified_witness :
  (snd <$> (Example.run Example.calls Example.m).1) =
    [Opened Example.id; Said true; Silent; Silent; Said false; Said true] ∧
  ∃ lives, specified (from_secs 60) ∅ (Example.run Example.calls Example.m).1 lives.
Proof.
  split; [vm_compute; reflexivity|].
  destruct (manager_as_specified 60 (Some "k") "random" 0 (Example.run Example.calls Example.m).1
    (from_secs 81) (Example.run Example.calls Example.m).2) as (lives & Hl & _).
  - repeat (apply performed_cons; [vm_compute; discriminate|]). by apply performed_nil.
  - exists lives. exact Hl.
Defined.
