(* ===== verification/DnsDiscovery.v ===== *)
(** * DnsDiscovery: leaves from SRV records ([src/dns_discovery.rs])

    [Dig] is the external command: what it prints, or why it failed.  A poll parses the
    records and reconciles the registry with them. *)
From S2P Require Import Prelude Text Json Protocol F64 Env Config LeafClient Scenario Registry.
From S2P Require Import Aggregator.
Open Scope string_scope.
Open Scope list_scope.

Definition DNS_ALIAS_PREFIX : string := "dns-".

Record SrvRecord := { port : N; target : string }.
#[export] Instance SrvRecord_eq_dec : EqDecision SrvRecord.
Proof. solve_decision. Defined.

(** The output of a run of [dig], decoded; [None] when it could not be started *)
Record DigOutput := { dig_success : bool; dig_status : string; dig_stdout : string;
                      dig_stderr : string }.
Class Dig : Type := { dig : Z → string → result string DigOutput }.

Definition parse_srv_line (line : string) : option SrvRecord :=
  match split_whitespace line with
  | _priority :: _weight :: port :: target :: _ =>
      port ← parse_u16 port;
      let target := trim_end_matches "." target in
      if is_empty target then None else Some {| port := port; target := target |}
  | _ => None
  end.

Definition parse_srv_output (stdout : string) : list SrvRecord :=
  omap parse_srv_line (lines stdout).

Definition query_srv `{!Dig} (t : Z) (name : string) : result string (list SrvRecord) :=
  output ← map_err (λ e, "failed to run dig: " +:+ e) (dig t name);
  if dig_success output then Ok (parse_srv_output (dig_stdout output))
  else Err ("dig exited " +:+ dig_status output +:+ ": " +:+ trim (dig_stderr output)).

(** One character of an alias, after lower-casing *)
Definition sanitize_char (ch : string) : string :=
  match ch with
  | String c "" =>
      let b := byte_N c in
      if in_range 97 122 b || in_range 48 57 b || (b =? 45)%N then ch else "-"
  | _ => "-"
  end.

Definition sanitize_alias (target : string) : string :=
  DNS_ALIAS_PREFIX +:+
  join "" (sanitize_char <$> chars (to_ascii_lowercase (trim_end_matches "." target))).

Definition record_url (config : DnsDiscoveryConfig) (r : SrvRecord) : string :=
  scheme config +:+ "://" +:+ target r +:+ ":" +:+ fmt_N (port r) +:+ url_path config.

Definition record_config (config : DnsDiscoveryConfig) (alias : string) (r : SrvRecord)
  : ServerConfig :=
  {| Config.alias := alias; Config.url := record_url config r;
     Config.auth_token := None; Config.auth_token_file := None;
     Config.transport := dns_default_transport config; Config.tags := ["dns-discovered"];
     Config.health_check := HealthCheckConfig_default; Config.timeout_seconds := None;
     Config.tls := TlsConfig_default |}.

(** The records by alias; of two records with one alias the later counts. *)
Definition desired (records : list SrvRecord) : gmap string SrvRecord :=
  foldl (λ m r, <[sanitize_alias (target r) := r]> m) ∅ records.

Definition dns_owned (a : string) : bool := starts_with DNS_ALIAS_PREFIX a.

Section discovery.
Context `{!Os, !Http, !Serde, !MapOrder, !Dig}.

Definition add_record (config : DnsDiscoveryConfig) (existing : list string)
    (ar : string * SrvRecord) : M World unit :=
  if bool_decide (ar.1 ∈ existing) then mret tt
  else _ ← install ar.1 (record_config config ar.1 ar.2) (λ l, TInit l true None); mret tt.

Definition reconcile (config : DnsDiscoveryConfig) (records : list SrvRecord) : M World unit :=
  all ← aliases;
  let existing := filter (λ a, dns_owned a = true) all in
  _ ← m_iter (add_record config existing) (map_order (desired records));
  remove_all (filter (λ a, desired records !! a = None) existing).

Definition poll_once (config : DnsDiscoveryConfig) : M World (result string unit) :=
  t ← m_gets wnow;
  match query_srv t (srv_name config) with
  | Ok records => _ ← reconcile config records; mret (Ok tt)
  | Err e => mret (Err e)
  end.
End discovery.

(** [spawn_dns_discovery]: the interval of the polls, if they are started *)
Definition dns_interval (config : DnsDiscoveryConfig) : option Z :=
  if negb (dns_enabled config) || is_empty (trim (srv_name config)) then None
  else Some (from_secs (Z.max (poll_interval_seconds config) 1)).

(** ** Aliases *)
Definition alias_char (c : ascii) : bool :=
  in_range 97 122 (byte_N c) || in_range 48 57 (byte_N c) || (byte_N c =? 45)%N.

Lemma sanitize_char_safe ch :
  ∃ c, sanitize_char ch = String c "" ∧ alias_char c = true.
Proof.
  unfold sanitize_char. destruct ch as [|c [|d s]]; [by eexists| |by eexists].
  fold (alias_char c). destruct (alias_char c) eqn:E; [by exists c|by eexists].
Qed.

Lemma join_chars_safe l c :
  c ∈ String.list_ascii_of_string (join "" (sanitize_char <$> l)) → alias_char c = true.
Proof.
  induction l as [|ch l IH]; [by intros ?%not_elem_of_nil|].
  rewrite fmap_cons, join_nil_cons, list_ascii_app, elem_of_app. intros [Hc|Hc]; [|by apply IH].
  destruct (sanitize_char_safe ch) as (d & Hd & Hs). rewrite Hd in Hc.
  apply list_elem_of_singleton in Hc as ->. done.
Qed.

Lemma no_underscore_routable a : "_"%char ∉ String.list_ascii_of_string a → routable a = true.
Proof.
  intros Hno. unfold routable. rewrite contains_sep_underscore. apply negb_true_iff, orb_false_iff.
  split.
  - apply contains_false. intros p q ->. apply Hno. rewrite list_ascii_app. apply elem_of_app.
    right. left.
  - apply bool_decide_eq_false. intros [r ->%strip_suffix_Some]. apply Hno.
    rewrite list_ascii_app. apply elem_of_app. right. left.
Qed.

Lemma sanitize_owned t : dns_owned (sanitize_alias t) = true.
Proof. apply starts_with_app. Qed.

Lemma sanitize_chars t c :
  c ∈ String.list_ascii_of_string (sanitize_alias t) → alias_char c = true.
Proof.
  unfold sanitize_alias. rewrite list_ascii_app, elem_of_app. intros [Hc|Hc].
  - revert c Hc. apply Forall_forall. repeat constructor.
  - by eapply join_chars_safe.
Qed.

(** Whatever a DNS server answers, the alias made of a target is one the rest of the
    program can use: it carries the prefix that marks it as discovered, consists of lower
    case letters, digits and dashes, is routable, and is not the reserved one. *)
Theorem sanitized_aliases_usable t :
  dns_owned (sanitize_alias t) = true ∧
  (∀ c, c ∈ String.list_ascii_of_string (sanitize_alias t) → alias_char c = true) ∧
  routable (sanitize_alias t) = true ∧ sanitize_alias t ≠ "federation".
Proof.
  split_and!; [apply sanitize_owned|apply sanitize_chars| |].
  - apply no_underscore_routable. by intros ?%sanitize_chars.
  - unfold sanitize_alias. by destruct (join "" _).
Qed.

Lemma desired_owned records a : is_Some (desired records !! a) → dns_owned a = true.
Proof.
  unfold desired. induction records as [|r rs IH] using rev_ind; [by intros [??]|].
  rewrite foldl_app. cbn [foldl]. intros [<-|Ha]%lookup_insert_is_Some'; [apply sanitize_owned|auto].
Qed.

(** ** Reconciliation *)
Section reconciliation.
Context `{!Os, !Http, !Serde, !MapOrder, !Dig}.

(** A leaf that was not there: fresh, unknown, with its initialisation under way *)
Definition newly_added (config : DnsDiscoveryConfig) (a : string) (r : SrvRecord)
    (w w' : World) : Prop :=
  ∃ l, w_leaves w' !! a = Some l ∧ w_heap w !! l = None ∧
    w_heap w' !! l =
      Some (LeafEntry_new_with_pool (wnow w) (record_config config a r) (w_pool w)) ∧
    TInit l true None ∈ w_tasks w'.

Lemma add_record_spec config existing a r w :
  let w' := (add_record config existing (a, r) w).2 in
  extends w w' ∧ (world_wf w → world_wf w') ∧
  (∀ b, b ≠ a → w_leaves w' !! b = w_leaves w !! b) ∧
  (a ∈ existing → w' = w) ∧ (a ∉ existing → newly_added config a r w w').
Proof.
  unfold add_record. cbn [fst snd]. destruct (decide (a ∈ existing)) as [Hin|Hin].
  { rewrite bool_decide_eq_true_2 by done. cbn. by split_and!. }
  rewrite bool_decide_eq_false_2 by done. unfold mbind, M_bind. rewrite install_spec. cbn.
  set (l := fresh _). split_and!; try done.
  - apply (install_extends a (record_config config a r) (λ l, TInit l true None) w).
  - intros Hwf. pose proof (install_wf a (record_config config a r) (λ l, TInit l true None) w) as Hw.
    rewrite install_spec in Hw. by apply Hw.
  - intros b Hb. cbn. by rewrite lookup_insert_ne.
  - intros _. exists l. cbn. rewrite !lookup_insert_eq.
    split_and!; [done|apply fresh_heap|done|]. apply elem_of_app. right. left.
Qed.

Lemma add_all_spec config existing ars w :
  NoDup ars.*1 →
  let w' := (m_iter (add_record config existing) ars w).2 in
  extends w w' ∧ (world_wf w → world_wf w') ∧
  (∀ a, a ∈ existing ∨ a ∉ ars.*1 → w_leaves w' !! a = w_leaves w !! a) ∧
  (∀ a r, (a, r) ∈ ars → a ∉ existing → newly_added config a r w w').
Proof.
  revert w. induction ars as [|[a r] ars IH]; intros w Hnd; cbv zeta.
  { cbn. split_and!; try done. by intros a r ?%not_elem_of_nil. }
  apply NoDup_cons in Hnd as [Ha Hnd]. cbn [fst] in Ha.
  rewrite m_iter_cons.
  destruct (add_record_spec config existing a r w) as (He & Hwf & Hoth & Hex & Hnew).
  set (w1 := (add_record _ _ (a, r) w).2) in *.
  destruct (IH w1 Hnd) as (He' & Hwf' & Hoth' & Hnew'). set (w2 := (m_iter _ ars w1).2) in *.
  split_and!; [by etrans|auto|..].
  - intros b Hb. destruct (decide (b = a)) as [->|Hne].
    + rewrite Hoth' by (by right). destruct Hb as [Hb|Hb]; [by rewrite Hex|].
      destruct Hb. left.
    + rewrite Hoth', Hoth; [done|done|]. destruct Hb as [Hb|Hb]; [by left|right].
      rewrite fmap_cons, elem_of_cons in Hb. naive_solver.
  - intros b q [[= -> ->]|Hin]%elem_of_cons Hb.
    + destruct (Hnew Hb) as (l & Hl & Hf & He1 & Ht). exists l.
      split_and!; [by rewrite Hoth' by (by right)|done| |].
      * eapply lookup_weaken; [exact He1|apply He'].
      * destruct (ext_tasks _ _ He') as [ts ->]. apply elem_of_app. by left.
    + destruct (Hnew' b q Hin Hb) as (l & Hl & Hf & He1 & Ht). exists l.
      unfold wnow in He1. rewrite (ext_env _ _ He), (ext_pool _ _ He) in He1.
      split_and!; try done. eapply lookup_weaken_None; [exact Hf|apply He].
Qed.

Definition existing_of (w : World) : list string :=
  filter (λ a, dns_owned a = true) (map_keys (w_leaves w)).

Lemma existing_elem w a :
  a ∈ existing_of w ↔ dns_owned a = true ∧ is_Some (w_leaves w !! a).
Proof. unfold existing_of. by rewrite list_elem_of_filter, map_keys_elem. Qed.

Lemma reconcile_unfold config records w :
  (reconcile config records w).2 =
  (remove_all (filter (λ a, desired records !! a = None) (existing_of w))
     (m_iter (add_record config (existing_of w)) (map_order (desired records)) w).2).2.
Proof. unfold reconcile, aliases. run_m. fold (existing_of w). by destruct (m_iter _ _ w). Qed.

Lemma desired_order_elem records a r :
  (a, r) ∈ map_order (desired records) ↔ desired records !! a = Some r.
Proof. apply map_order_elem. Qed.
Lemma desired_order_fst records a :
  a ∈ (map_order (desired records)).*1 ↔ is_Some (desired records !! a).
Proof. apply map_keys_elem. Qed.

Lemma map_order_NoDup_fst {A} (m : gmap string A) : NoDup (map_order m).*1.
Proof. apply map_keys_NoDup. Qed.

Lemma reconcile_spec config records w :
  let w' := (reconcile config records w).2 in
  extends w w' ∧ (world_wf w → world_wf w') ∧
  (∀ a, dns_owned a = false → w_leaves w' !! a = w_leaves w !! a) ∧
  (∀ a, dns_owned a = true → desired records !! a = None → w_leaves w' !! a = None) ∧
  (∀ a r l, desired records !! a = Some r → w_leaves w !! a = Some l →
     w_leaves w' !! a = Some l) ∧
  (∀ a r, desired records !! a = Some r → w_leaves w !! a = None →
     newly_added config a r w w').
Proof.
  cbv zeta. rewrite reconcile_unfold.
  destruct (add_all_spec config (existing_of w) _ w (map_order_NoDup_fst (desired records)))
    as (He & Hwf & Hoth & Hnew).
  set (w1 := (m_iter _ _ w).2) in *. set (gone := filter _ _).
  destruct (remove_all_spec gone w1) as [Hw2 Hl2]. set (w2 := (remove_all gone w1).2) in *.
  assert (∀ a, a ∈ gone ↔ desired records !! a = None ∧ dns_owned a = true ∧
            is_Some (w_leaves w !! a)) as Hgone
    by (intros a; unfold gone; by rewrite list_elem_of_filter, existing_elem).
  assert (w_env w2 = w_env w1 ∧ w_heap w2 = w_heap w1 ∧ w_pool w2 = w_pool w1 ∧
          w_tasks w2 = w_tasks w1) as (Hen & Hhe & Hpo & Hta) by (by rewrite Hw2).
  split_and!.
  - etrans; [exact He|]. by apply (remove_all_extends gone).
  - intros Hwf0. apply remove_all_wf. auto.
  - intros a Ha. rewrite Hl2, decide_False by (rewrite Hgone; naive_solver congruence).
    apply Hoth. right. rewrite desired_order_fst. intros Hd%desired_owned. congruence.
  - intros a Ha Hd. rewrite Hl2. case_decide as Hg; [done|].
    rewrite Hoth by (right; rewrite desired_order_fst, Hd; by intros [??]).
    destruct (w_leaves w !! a) eqn:El; [|done]. contradict Hg. apply Hgone.
    rewrite El. eauto.
  - intros a r l Hd Hl. rewrite Hl2, decide_False by (rewrite Hgone; naive_solver congruence).
    rewrite Hoth; [done|]. left. apply existing_elem. split; [|eauto].
    apply (desired_owned records). eauto.
  - intros a r Hd Hl.
    destruct (Hnew a r) as (l & Hl1 & Hf & He1 & Ht).
    + by apply desired_order_elem.
    + rewrite existing_elem, Hl. intros [_ [??]]. congruence.
    + exists l. rewrite Hhe, Hta. split_and!; try done.
      rewrite Hl2, decide_False by (rewrite Hgone; naive_solver congruence). done.
Qed.

Lemma reconcile_fixpoint config records w :
  (∀ a, dns_owned a = true → is_Some (w_leaves w !! a) ↔ is_Some (desired records !! a)) →
  (reconcile config records w).2 = w.
Proof.
  intros Hd. rewrite reconcile_unfold.
  assert (∀ ars, (∀ ar, ar ∈ ars → ar.1 ∈ existing_of w) →
    (m_iter (add_record config (existing_of w)) ars w).2 = w) as Hadd.
  { induction ars as [|ar ars IH]; intros Hin; [done|]. rewrite m_iter_cons.
    unfold add_record at 2. rewrite bool_decide_eq_true_2 by (apply Hin; left).
    apply IH. intros. apply Hin. by right. }
  rewrite Hadd.
  - assert (filter (λ a, desired records !! a = None) (existing_of w) = []) as ->; [|done].
    apply filter_none. intros a [Ho Ha]%existing_elem. apply (Hd a Ho) in Ha as [r Hr].
    congruence.
  - intros [a r] Har%desired_order_elem. cbn. apply existing_elem.
    assert (dns_owned a = true) as Ho by (eapply desired_owned; eauto). split; [done|].
    apply Hd; eauto.
Qed.

(** (C20) Reconciling makes the discovered leaves those the records name and touches no
    other: a discovered alias that is no longer advertised goes, one that was there
    stays the very same leaf, and a new one is registered at the record's address with
    its initialisation started; aliases without the prefix keep their leaves, the registry
    stays well formed, and doing it again with the same records changes nothing. *)
Theorem reconcile_converges config records w :
  let w' := (reconcile config records w).2 in
  (∀ a, dns_owned a = false → w_leaves w' !! a = w_leaves w !! a) ∧
  (∀ a, dns_owned a = true →
     match desired records !! a, w_leaves w !! a with
     | None, _ => w_leaves w' !! a = None
     | Some _, Some l => w_leaves w' !! a = Some l
     | Some r, None => newly_added config a r w w'
     end) ∧
  (world_wf w → world_wf w') ∧ extends w w' ∧
  (reconcile config records w').2 = w'.
Proof.
  cbv zeta. destruct (reconcile_spec config records w) as (He & Hwf & Hoth & Hgone & Hkeep & Hnew).
  set (w' := (reconcile config records w).2) in *. split_and!; try done.
  - intros a Ha. destruct (desired records !! a) as [r|] eqn:Hd; [|auto].
    destruct (w_leaves w !! a) as [l|] eqn:Hl; eauto.
  - apply reconcile_fixpoint. intros a Ha.
    destruct (desired records !! a) as [r|] eqn:Hd.
    + split; [eauto|]. intros _. destruct (w_leaves w !! a) as [l|] eqn:Hl; [eauto|].
      destruct (Hnew a r Hd Hl) as (l & Hl' & _). eauto.
    + rewrite Hgone by done. split; intros [??]; done.
Qed.
End reconciliation.

(** A line of the answer is read as a record exactly when it has four fields, the
    third a 16-bit number and the fourth more than dots; the target loses its final
    dots. *)
Theorem parse_srv_line_spec line r :
  parse_srv_line line = Some r ↔
  ∃ priority weight port_text tgt rest,
    split_whitespace line = priority :: weight :: port_text :: tgt :: rest ∧
    parse_u16 port_text = Some (port r) ∧
    target r = trim_end_matches "." tgt ∧ target r ≠ "".
Proof.
  unfold parse_srv_line. destruct r as [p t]. cbn. split.
  - destruct (split_whitespace line) as [|a [|b [|c [|d rest]]]]; try done.
    intros (q & Hq & Hr)%bind_Some. destruct (is_empty _) eqn:E; simplify_eq.
    exists a, b, c, d, rest. split_and!; try done. by apply bool_decide_eq_false in E.
  - intros (a & b & c & d & rest & -> & -> & -> & Hne). cbn.
    unfold is_empty. by rewrite bool_decide_eq_false_2.
Qed.
