(* ===== verification/CrdDiscovery.v ===== *)
(** * CrdDiscovery: leaves from Kubernetes objects ([src/crd_discovery.rs])

    The controller of the feature [crd]: [reconcile] is called with an [MCPServer]
    object whenever it changes or its requeue delay is over.  [Kube] is the Kubernetes
    API: the outcome of the [n]-th patch of the run.  The controller holds a copy of the
    registry's pool configuration, here the registry's own.  The queue that calls
    [reconcile], and the generated schema, are not modelled. *)
From S2P Require Import Prelude Text Json Protocol F64 Env Config LeafClient Scenario Registry.
From S2P Require Import Aggregator.
Open Scope string_scope.
Open Scope list_scope.

Definition CRD_ALIAS_PREFIX : string := "crd-".
Definition FIELD_MANAGER : string := "mcp-federation".
Definition FINALIZER : string := "federation.mcp.io/cleanup".

Record MCPServerSpec := {
  sp_alias : string;
  sp_url : string;
  sp_transport : string;
  sp_tags : list string;
  sp_auth_token : option string;
  sp_auth_token_file : option string;
  sp_timeout_seconds : option Z;
}.

Definition default_crd_transport : string := "http-post".

Record MCPServerStatus := {
  ms_health : option string;
  ms_tool_count : option Z;
  ms_last_synced : option string;
}.

(** The object; the name is what [name_any] gives. *)
Record MCPServer := {
  o_namespace : option string;
  o_name : string;
  o_deletion_timestamp : option string;
  o_finalizers : list string;
  o_spec : MCPServerSpec;
}.

Definition crd_alias (namespace name : string) : string :=
  CRD_ALIAS_PREFIX +:+ namespace +:+ "-" +:+ name.

Inductive ReconcileError : Type := InvalidTransport (s : string) | KubeError (e : string).
Inductive Action : Type := AwaitChange | Requeue (seconds : Z).

Definition parse_transport (s : string) : result ReconcileError TransportType :=
  if decide (s = "http-post") then Ok HttpPost
  else if decide (s = "streamable-http") then Ok StreamableHttp
  else Err (InvalidTransport s).

Definition error_policy (e : ReconcileError) : Action := Requeue 30.

(** ** Timestamps *)

(** The civil date of a day count from 1970-01-01, on 64-bit integers (no operation
    leaves their range) *)
Definition civil_from_days (days : Z) : Z * Z * Z :=
  (let z := days + 719468 in
   let era := Z.quot (if z >=? 0 then z else z - 146096) 146097 in
   let doe := z - era * 146097 in
   let yoe := (doe - doe / 1460 + doe / 36524 - doe / 146096) / 365 in
   let y := yoe + era * 400 in
   let doy := doe - (365 * yoe + yoe / 4 - yoe / 100) in
   let mp := (5 * doy + 2) / 153 in
   let day := doy - (153 * mp + 2) / 5 + 1 in
   let month := if mp <? 10 then mp + 3 else mp - 9 in
   let year := if month <=? 2 then y + 1 else y in
   (year, month, day))%Z.

Definition time_of_day (secs : Z) : Z * Z * Z :=
  (let sod := secs mod 86400 in (sod / 3600, sod mod 3600 / 60, sod mod 60))%Z.

Definition pad (w : nat) (z : Z) : string := fmt_pad w (Z.to_N z).

(** The format string *)
Definition stamp (date time : Z * Z * Z) : string :=
  let '(year, month, day) := date in let '(hour, minute, second) := time in
  pad 4 year +:+ "-" +:+ pad 2 month +:+ "-" +:+ pad 2 day +:+ "T" +:+
  pad 2 hour +:+ ":" +:+ pad 2 minute +:+ ":" +:+ pad 2 second +:+ "Z".

Definition rfc3339_from_unix (secs : Z) : string :=
  stamp (civil_from_days (secs / 86400)) (time_of_day secs).

Class Kube : Type := { kube_patch : nat → KubePatch → result string unit }.

(** [as i32] of a count *)
Definition count_i32 (n : nat) : Z := ((Z.of_nat n + 2 ^ 31) mod 2 ^ 32 - 2 ^ 31)%Z.

Definition status_value (s : MCPServerStatus) : Value :=
  json_obj [("health", vopt (VString <$> ms_health s));
            ("toolCount", vopt (vint <$> ms_tool_count s));
            ("lastSynced", vopt (VString <$> ms_last_synced s))].

Definition finalizers_patch (l : list string) : Value :=
  json_obj [("metadata", json_obj [("finalizers", vstrs l)])].

Section controller.
Context `{!Os, !Http, !Serde, !MapOrder, !Kube}.

Definition rfc3339_now (t : Z) : string := rfc3339_from_unix (unix_now t).

Definition patch (p : KubePatch) : M World (result string unit) :=
  λ w, (kube_patch (length (w_patches w)) p, set_patches (w_patches w ++ [p]) w).

Definition object_namespace (obj : MCPServer) : string := default "" (o_namespace obj).
Definition object_alias (obj : MCPServer) : string :=
  crd_alias (object_namespace obj) (o_name obj).

(** Write the finalizers of the object *)
Definition patch_finalizers (obj : MCPServer) (l : list string)
  : M World (result ReconcileError unit) :=
  r ← patch {| kp_namespace := object_namespace obj; kp_name := o_name obj;
               kp_status := false; kp_body := finalizers_patch l |};
  mret (map_err KubeError r).

Definition object_config (obj : MCPServer) (transport : TransportType) : ServerConfig :=
  {| Config.alias := object_alias obj; Config.url := sp_url (o_spec obj);
     Config.auth_token := sp_auth_token (o_spec obj);
     Config.auth_token_file := sp_auth_token_file (o_spec obj);
     Config.transport := transport; Config.tags := sp_tags (o_spec obj) ++ ["crd-discovered"];
     Config.health_check := HealthCheckConfig_default;
     Config.timeout_seconds := sp_timeout_seconds (o_spec obj); Config.tls := TlsConfig_default |}.

Definition reconcile (obj : MCPServer) : M World (result ReconcileError Action) :=
  let alias := object_alias obj in
  let ours := bool_decide (FINALIZER ∈ o_finalizers obj) in
  match o_deletion_timestamp obj with
  | Some _ =>
      if ours then
        _ ← remove_leaf alias;
        _ ←? patch_finalizers obj (filter (λ f, f ≠ FINALIZER) (o_finalizers obj));
        mret (Ok AwaitChange)
      else mret (Ok AwaitChange)
  | None =>
      if ours then
        transport ←? mret (parse_transport (sp_transport (o_spec obj)));
        _ ← install alias (object_config obj transport)
              (λ l, TInit l true (Some (object_namespace obj, o_name obj)));
        mret (Ok (Requeue 300))
      else
        _ ←? patch_finalizers obj (o_finalizers obj ++ [FINALIZER]);
        mret (Ok (Requeue 1))
  end.

(** The end of the task that [reconcile] spawns: the status of the object *)
Definition report_status (l : nat) (object : string * string) (init_ok : bool) : M World unit :=
  e ← m_gets (entry l);
  t ← m_gets wnow;
  let status :=
    {| ms_health := Some (if init_ok && is_healthy e then "Healthy" else "Unhealthy");
       ms_tool_count := Some (count_i32 (length (cached_tools e)));
       ms_last_synced := Some (rfc3339_now t) |} in
  _ ← patch {| kp_namespace := object.1; kp_name := object.2; kp_status := true;
               kp_body := json_obj [("status", status_value status)] |};
  mret tt.
End controller.

(** [start_crd_watcher] and the checks of [run]: the namespace watched ([None] for all),
    when a client could be made and the first listing worked *)
Definition start_crd_watcher (feature : bool) (config : CrdDiscoveryConfig)
    (client list_ok : bool) : option (option string) :=
  if negb feature || negb (crd_enabled config) || negb client || negb list_ok then None
  else Some (if is_empty (trim (crd_namespace config)) then None else Some (crd_namespace config)).

(** ** The calendar *)
Section calendar.
#[local] Open Scope Z_scope.

Ltac euclid := Z.to_euclidean_division_equations; lia.

(** The Gregorian calendar: the day after a date *)
Definition leap (y : Z) : bool :=
  (y mod 4 =? 0) && (negb (y mod 100 =? 0) || (y mod 400 =? 0)).
Definition days_in_month (y m : Z) : Z :=
  if m =? 2 then (if leap y then 29 else 28)
  else if (m =? 4) || (m =? 6) || (m =? 9) || (m =? 11) then 30 else 31.
Definition next_day (date : Z * Z * Z) : Z * Z * Z :=
  let '(y, m, d) := date in
  if d <? days_in_month y m then (y, m, d + 1)
  else if m <? 12 then (y, m + 1, 1) else (y + 1, 1, 1).

Definition shift_years (k : Z) (date : Z * Z * Z) : Z * Z * Z :=
  let '(y, m, d) := date in (y + k * 400, m, d).

(** The 400-year era: its day [doe] lies in a year that begins on 1 March; the day of
    that year gives the month, the day and whether the civil year is the next one. *)
Definition year_of_era (doe : Z) : Z :=
  (doe - doe / 1460 + doe / 36524 - doe / 146096) / 365.
Definition year_start (y : Z) : Z := 365 * y + y / 4 - y / 100.
Definition month_day (doy : Z) : Z * Z * Z :=
  let mp := (5 * doy + 2) / 153 in
  let month := if mp <? 10 then mp + 3 else mp - 9 in
  (if month <=? 2 then 1 else 0, month, doy - (153 * mp + 2) / 5 + 1).
Definition in_year (y : Z) (date : Z * Z * Z) : Z * Z * Z :=
  let '(c, m, d) := date in (y + c, m, d).
Definition era_date (doe : Z) : Z * Z * Z :=
  let y := year_of_era doe in in_year y (month_day (doe - year_start y)).

Lemma civil_era days :
  0 <= days →
  civil_from_days days =
  shift_years ((days + 719468) / 146097) (era_date ((days + 719468) mod 146097)).
Proof.
  intros Hd. unfold civil_from_days, era_date, in_year, month_day, year_start, shift_years.
  rewrite (Z.geb_leb _ 0), (proj2 (Z.leb_le 0 _)) by lia.
  rewrite Z.quot_div_nonneg by lia.
  replace (days + 719468 - (days + 719468) / 146097 * 146097)
    with ((days + 719468) mod 146097) by (rewrite Z.mod_eq; lia).
  set (doe := _ mod _). set (era := _ / 146097). cbv zeta.
  change ((doe - doe / 1460 + doe / 36524 - doe / 146096) / 365) with (year_of_era doe).
  set (y := year_of_era doe). set (mp := (5 * _ + 2) / 153).
  by destruct ((if mp <? 10 then mp + 3 else mp - 9) <=? 2); do 2 f_equal; lia.
Qed.

Lemma leap_shift y k : leap (y + k * 400) = leap y.
Proof.
  unfold leap. replace (y + k * 400) with (y + (k * 100) * 4) at 1 by lia.
  rewrite Z.mod_add by done.
  replace (y + k * 400) with (y + (k * 4) * 100) at 1 by lia. rewrite Z.mod_add by done.
  by rewrite Z.mod_add.
Qed.
Lemma next_day_shift k date : next_day (shift_years k date) = shift_years k (next_day date).
Proof.
  destruct date as [[y m] d]. cbn. unfold days_in_month. rewrite leap_shift.
  repeat (case_match; simpl); do 2 f_equal; lia.
Qed.

(** A check of consecutive integers *)
Fixpoint check_from (test : Z → bool) (n : nat) (z : Z) : bool :=
  match n with Datatypes.O => true | Datatypes.S n => test z && check_from test n (z + 1) end.
Lemma check_from_spec test n z :
  check_from test n z = true → ∀ x, z <= x < z + Z.of_nat n → test x = true.
Proof.
  revert z. induction n as [|n IH]; intros z; [lia|].
  cbn [check_from]. rewrite andb_true_iff. intros [Hz Hn] x Hx.
  destruct (decide (x = z)) as [->|]; [done|]. apply (IH _ Hn). lia.
Qed.

Definition date_eqb (a b : Z * Z * Z) : bool :=
  let '(y, m, d) := a in let '(y', m', d') := b in (y =? y') && (m =? m') && (d =? d').
Lemma date_eqb_eq a b : date_eqb a b = true → a = b.
Proof.
  destruct a as [[y m] d], b as [[y' m'] d']. cbn. rewrite !andb_true_iff, !Z.eqb_eq. intros [[-> ->] ->]. done.
Qed.

(** The year has 365 days, or 366 when it contains a 29 February. *)
Definition year_length (y : Z) : Z := if leap (y + 1) then 366 else 365.

Lemma years_check :
  check_from (λ y, (year_start (y + 1) + (y + 1) / 400 =? year_start y + year_length y) &&
                   (year_of_era (year_start y) =? y) &&
                   (year_of_era (year_start y + year_length y - 1) =? y)) 400 0 = true.
Proof. vm_compute. reflexivity. Qed.
Lemma year_facts y :
  0 <= y < 400 →
  year_start (y + 1) + (y + 1) / 400 = year_start y + year_length y ∧
  year_of_era (year_start y) = y ∧ year_of_era (year_start y + year_length y - 1) = y.
Proof.
  intros Hy. pose proof (check_from_spec _ _ _ years_check y ltac:(lia)) as Hc.
  cbv beta in Hc. rewrite !andb_true_iff, !Z.eqb_eq in Hc. tauto.
Qed.

Lemma year_of_era_mono d d' : 0 <= d <= d' → d' <= 146096 → year_of_era d <= year_of_era d'.
Proof.
  intros Hd Hd'. destruct (decide (d = d')) as [->|]; [done|].
  apply Z.div_le_mono; [lia|].
  assert (d / 36524 <= d' / 36524) by (apply Z.div_le_mono; lia).
  assert (d' / 1460 <= d / 1460 + (d' - d)) by euclid.
  destruct (decide (d' = 146096)) as [->|]; [|rewrite !(Z.div_small _ 146096) by lia; lia].
  rewrite (Z.div_small d 146096) by lia. change (146096 / 146096) with 1.
  change (146096 / 1460) with 100 in *. change (146096 / 36524) with 4.
  assert (d / 36524 <= 3) by euclid. lia.
Qed.

Lemma year_of_era_spec y doy :
  0 <= y < 400 → 0 <= doy < year_length y → year_of_era (year_start y + doy) = y.
Proof.
  intros Hy Hd. destruct (year_facts y Hy) as (Hnext & Hfirst & Hlast).
  assert (0 <= year_start y) by (unfold year_start; euclid).
  assert (year_start (y + 1) + (y + 1) / 400 <= 146097) by (unfold year_start; euclid).
  pose proof (year_of_era_mono (year_start y) (year_start y + doy)).
  pose proof (year_of_era_mono (year_start y + doy) (year_start y + year_length y - 1)). lia.
Qed.

(** Each day of the era is a day of one of its years. *)
Lemma era_split d :
  0 <= d < 146097 →
  ∃ y doy, 0 <= y < 400 ∧ 0 <= doy < year_length y ∧ d = year_start y + doy.
Proof.
  intros Hd.
  assert (∀ n : nat, (n <= 400)%nat → d < year_start (Z.of_nat n) + Z.of_nat n / 400 →
    ∃ y doy, 0 <= y < 400 ∧ 0 <= doy < year_length y ∧ d = year_start y + doy) as H.
  { induction n as [|n IH]; intros Hn Hlt; [unfold year_start in Hlt; euclid|].
    destruct (year_facts (Z.of_nat n) ltac:(lia)) as (Hnext & _).
    replace (Z.of_nat (Datatypes.S n)) with (Z.of_nat n + 1) in Hlt by lia.
    destruct (decide (d < year_start (Z.of_nat n))) as [Hd'|Hd'].
    - apply IH; euclid.
    - exists (Z.of_nat n), (d - year_start (Z.of_nat n)). lia. }
  apply (H 400%nat); [lia|]. change (d < 146097). lia.
Qed.

(** The days of a year that ends in a February of 28 or 29 days, one after the other *)
Definition next_in_year (lp : bool) (date : Z * Z * Z) : Z * Z * Z :=
  let '(c, m, d) := date in
  let len := if m =? 2 then (if lp then 29 else 28) else days_in_month 1 m in
  if d <? len then (c, m, d + 1) else if m <? 12 then (c, m + 1, 1) else (c + 1, 1, 1).

Lemma days_check lp :
  check_from (λ doy, let '(c, m, d) := month_day doy in
      implb (m =? 2) (c =? 1) &&
      date_eqb (next_in_year lp (c, m, d))
        (if doy + 1 <? (if lp then 366 else 365) then month_day (doy + 1) else (1, 3, 1)))
    (if lp then 366 else 365)%nat 0 = true.
Proof. destruct lp; vm_compute; reflexivity. Qed.

Lemma next_day_in_year y doy :
  0 <= doy < year_length y →
  next_day (in_year y (month_day doy)) =
  in_year y (if doy + 1 <? year_length y then month_day (doy + 1) else (1, 3, 1)).
Proof.
  unfold year_length. intros Hd.
  pose proof (check_from_spec _ _ _ (days_check (leap (y + 1))) doy
    ltac:(destruct (leap (y + 1)); lia)) as Hc. cbv beta in Hc.
  destruct (month_day doy) as [[c m] d]. apply andb_true_iff in Hc as [Hm Hn].
  apply date_eqb_eq in Hn. rewrite <- Hn. unfold next_day, in_year, next_in_year.
  assert (days_in_month (y + c) m =
    if m =? 2 then (if leap (y + 1) then 29 else 28) else days_in_month 1 m) as ->.
  { unfold days_in_month. destruct (m =? 2); [|done]. cbn in Hm. apply Z.eqb_eq in Hm.
    by subst. }
  repeat case_match; try congruence; do 2 f_equal; lia.
Qed.

Lemma era_date_eq y doy :
  0 <= y < 400 → 0 <= doy < year_length y →
  era_date (year_start y + doy) = in_year y (month_day doy).
Proof.
  intros Hy Hd. unfold era_date. rewrite year_of_era_spec by done.
  by replace (year_start y + doy - year_start y) with doy by lia.
Qed.

Lemma era_next d :
  0 <= d < 146097 →
  next_day (era_date d) =
  if d =? 146096 then shift_years 1 (era_date 0) else era_date (d + 1).
Proof.
  intros Hd. destruct (era_split d Hd) as (y & doy & Hy & Hdoy & ->).
  rewrite era_date_eq, next_day_in_year by done.
  destruct (year_facts y Hy) as (Hnext & _).
  destruct (Z.ltb_spec (doy + 1) (year_length y)) as [Hlt|Hge].
  - rewrite (proj2 (Z.eqb_neq _ _)).
    + rewrite <- Z.add_assoc. by rewrite era_date_eq by lia.
    + unfold year_start in *. euclid.
  - destruct (decide (y = 399)) as [->|Hy'].
    + rewrite (proj2 (Z.eqb_eq _ _)); [reflexivity|]. unfold year_start in *. euclid.
    + replace (year_start y + doy + 1) with (year_start (y + 1) + 0)
        by (unfold year_start in *; euclid).
      rewrite (proj2 (Z.eqb_neq _ _)) by (unfold year_start in *; euclid).
      rewrite era_date_eq by (try lia; unfold year_length; case_match; lia).
      change (month_day 0) with (0, 3, 1). cbn. do 2 f_equal. lia.
Qed.

Lemma civil_next d : 0 <= d → civil_from_days (d + 1) = next_day (civil_from_days d).
Proof.
  intros Hd. rewrite !civil_era, next_day_shift by euclid.
  set (n := d + 719468). replace (d + 1 + 719468) with (n + 1) by euclid.
  pose proof (Z.mod_pos_bound n 146097 ltac:(lia)). rewrite era_next by done.
  destruct (Z.eqb_spec (n mod 146097) 146096) as [Heq|Hne].
  - replace ((n + 1) mod 146097) with 0 by euclid.
    replace ((n + 1) / 146097) with (n / 146097 + 1) by euclid.
    destruct (era_date 0) as [[y m] dd]. cbn. do 2 f_equal. lia.
  - by replace ((n + 1) mod 146097) with (n mod 146097 + 1) by euclid;
      replace ((n + 1) / 146097) with (n / 146097) by euclid.
Qed.

Definition calendar (n : nat) : Z * Z * Z := Nat.iter n next_day (1970, 1, 1).

Lemma civil_calendar (n : nat) : civil_from_days (Z.of_nat n) = calendar n.
Proof.
  induction n as [|n IH]; [reflexivity|].
  replace (Z.of_nat (Datatypes.S n)) with (Z.of_nat n + 1) by lia.
  rewrite civil_next by lia. by rewrite IH.
Qed.

(** (C32) The time stamp of a status is right for every day from 1970 on: the branch-free
    day count arithmetic gives the date that counting the days one by one in the
    Gregorian calendar gives, with its leap years, and the time of that day. *)
Theorem rfc3339_follows_calendar (n : nat) (h m s : Z) :
  0 <= h < 24 → 0 <= m < 60 → 0 <= s < 60 →
  rfc3339_from_unix (86400 * Z.of_nat n + 3600 * h + 60 * m + s) =
  stamp (calendar n) (h, m, s).
Proof.
  intros Hh Hm Hs. unfold rfc3339_from_unix, time_of_day. set (t := 86400 * _ + _ + _ + _).
  replace (t / 86400) with (Z.of_nat n) by euclid. rewrite civil_calendar. f_equal.
  replace (t mod 86400) with (3600 * h + 60 * m + s) by euclid.
  repeat f_equal; euclid.
Qed.
End calendar.

Lemma rfc3339_follows_calendar_witness :
  rfc3339_from_unix (86400 * Z.of_nat 789 + 3600 * 1 + 60 * 2 + 3) = "1972-02-29T01:02:03Z".
Proof. rewrite (rfc3339_follows_calendar 789 1 2 3) by lia. vm_compute. reflexivity. Defined.

Notation Objects := (gmap (string * string) MCPServer).

(** ** Reconciliation *)
Section reconciliation.
Context `{!Os, !Http, !Serde, !MapOrder, !Kube}.

Definition own_object (obj : MCPServer) : Prop := FINALIZER ∈ o_finalizers obj.
#[export] Instance own_object_dec obj : Decision (own_object obj).
Proof. unfold own_object. apply _. Defined.

Definition finalizers_request (obj : MCPServer) (l : list string) : KubePatch :=
  {| kp_namespace := object_namespace obj; kp_name := o_name obj; kp_status := false;
     kp_body := finalizers_patch l |}.

(** The answer to a patch, then what the controller goes on with *)
Definition answered (w : World) (p : KubePatch) (a : Action) : result ReconcileError Action :=
  match kube_patch (length (w_patches w)) p with Ok _ => Ok a | Err e => Err (KubeError e) end.

Lemma reconcile_cases obj w :
  let '(r, w') := reconcile obj w in
  if decide (own_object obj) then
    match o_deletion_timestamp obj with
    | Some _ =>
        let p := finalizers_request obj (filter (λ f, f ≠ FINALIZER) (o_finalizers obj)) in
        r = answered w p AwaitChange ∧
        w' = set_patches (w_patches w ++ [p])
               (set_leaves (delete (object_alias obj) (w_leaves w)) w)
    | None =>
        match parse_transport (sp_transport (o_spec obj)) with
        | Err e => r = Err e ∧ w' = w
        | Ok t => r = Ok (Requeue 300) ∧
                  w' = (install (object_alias obj) (object_config obj t)
                    (λ l, TInit l true (Some (object_namespace obj, o_name obj))) w).2
        end
    end
  else
    match o_deletion_timestamp obj with
    | Some _ => r = Ok AwaitChange ∧ w' = w
    | None => let p := finalizers_request obj (o_finalizers obj ++ [FINALIZER]) in
              r = answered w p (Requeue 1) ∧ w' = set_patches (w_patches w ++ [p]) w
    end.
Proof.
  unfold reconcile, own_object, answered. repeat case_decide; repeat case_bool_decide; try done;
    destruct (o_deletion_timestamp obj); try done.
  - unfold patch_finalizers, patch. run_m. cbn [w_patches set_leaves remove_leaf].
    unfold remove_leaf. cbn. by destruct (kube_patch _ _).
  - unfold mret, M_ret. run_m. by destruct (parse_transport _).
  - unfold patch_finalizers, patch. run_m. by destruct (kube_patch _ _).
Qed.

Lemma reconcile_wf obj w : world_wf w → world_wf (reconcile obj w).2.
Proof.
  intros Hwf. pose proof (reconcile_cases obj w) as Hc. destruct (reconcile obj w) as [r w'].
  cbn. repeat case_match; destruct Hc as [_ ->]; try done; [|by apply install_wf].
  by apply (remove_wf (object_alias obj)) in Hwf.
Qed.

(** Reconciling a live object of ours registers its leaf again each time: whatever
    was under the alias is replaced by an entry that is not yet known to be healthy and
    has no tools, configured from the object, with its initialisation started and a
    status to be reported; the replaced entry lives on for those who hold it.  An
    unknown transport is an error that leaves everything as it was. *)
Theorem reconcile_registers obj w :
  o_deletion_timestamp obj = None → own_object obj →
  let '(r, w') := reconcile obj w in
  match parse_transport (sp_transport (o_spec obj)) with
  | Err e => e = InvalidTransport (sp_transport (o_spec obj)) ∧ r = Err e ∧ w' = w
  | Ok t =>
      ∃ l e, r = Ok (Requeue 300) ∧ w_leaves w' = <[object_alias obj := l]> (w_leaves w) ∧
        w_heap w !! l = None ∧ w_heap w' = <[l := e]> (w_heap w) ∧
        le_config e = object_config obj t ∧ le_health e = Unknown ∧ cached_tools e = [] ∧
        w_tasks w' = w_tasks w ++ [TInit l true (Some (object_namespace obj, o_name obj))] ∧
        w_patches w' = w_patches w
  end.
Proof.
  intros Hts Hown. pose proof (reconcile_cases obj w) as Hc.
  destruct (reconcile obj w) as [r w']. rewrite decide_True, Hts in Hc by done.
  unfold parse_transport in *. repeat case_decide; destruct Hc as [-> ->]; try done;
    rewrite install_spec; cbn; eexists _, _; split_and!; try done; apply fresh_heap.
Qed.

(** *** The controller and the cluster

    The API server holds the objects; the controller works on a copy that lags behind.
    Users create objects, edit them and ask for their deletion; an object with a
    finalizer is only marked, and goes when its last finalizer does.  The step relation
    is about one controller; what else the program does to the registry is one step,
    which registers nothing under the controller's prefix. *)
Definition key_of (obj : MCPServer) : string * string := (object_namespace obj, o_name obj).

Record Cluster := {
  c_objects : Objects;
  c_seen : Objects;
  c_world : World;
}.

Definition with_finalizers (l : list string) (obj : MCPServer) : MCPServer :=
  {| o_namespace := o_namespace obj; o_name := o_name obj;
     o_deletion_timestamp := o_deletion_timestamp obj; o_finalizers := l;
     o_spec := o_spec obj |}.
Definition marked_deleted (t : string) (obj : MCPServer) : MCPServer :=
  {| o_namespace := o_namespace obj; o_name := o_name obj;
     o_deletion_timestamp := Some (default t (o_deletion_timestamp obj));
     o_finalizers := o_finalizers obj; o_spec := o_spec obj |}.

(** An object that is marked as deleted and has no finalizer is collected. *)
Definition collect_object (obj : MCPServer) : option MCPServer :=
  if o_deletion_timestamp obj is Some _ then
    if decide (o_finalizers obj = []) then None else Some obj
  else Some obj.

(** What a merge patch says about the finalizers *)
Definition body_finalizers (body : Value) : option (list string) :=
  metadata ← get "metadata" body;
  l ← get "finalizers" metadata ≫= as_array;
  mapM as_str l.

Definition apply_patch (p : KubePatch) (objects : Objects)
  : Objects :=
  match body_finalizers (kp_body p) with
  | Some l =>
      if kp_status p then objects
      else partial_alter (λ o, o ≫= λ obj, collect_object (with_finalizers l obj))
             (kp_namespace p, kp_name p) objects
  | None => objects
  end.

(** The patches of a reconciliation that the API server accepted, in order *)
Fixpoint serve (n : nat) (ps : list KubePatch) (objects : Objects)
  : Objects :=
  match ps with
  | [] => objects
  | p :: ps =>
      serve (Datatypes.S n) ps (if is_ok (kube_patch n p) then apply_patch p objects else objects)
  end.
Definition served (w w' : World) : Objects → Objects :=
  serve (length (w_patches w)) (drop (length (w_patches w)) (w_patches w')).

Inductive cluster_step : Cluster → Cluster → Prop :=
| user_creates objs seen w obj :
    objs !! key_of obj = None → o_deletion_timestamp obj = None →
    cluster_step {| c_objects := objs; c_seen := seen; c_world := w |}
      {| c_objects := <[key_of obj := obj]> objs; c_seen := seen; c_world := w |}
| user_edits objs seen w old obj :
    objs !! key_of obj = Some old → (own_object old → own_object obj) →
    o_deletion_timestamp obj = o_deletion_timestamp old →
    cluster_step {| c_objects := objs; c_seen := seen; c_world := w |}
      {| c_objects := <[key_of obj := obj]> objs; c_seen := seen; c_world := w |}
| user_deletes objs seen w k t :
    cluster_step {| c_objects := objs; c_seen := seen; c_world := w |}
      {| c_objects := partial_alter (λ o, o ≫= λ obj, collect_object (marked_deleted t obj)) k objs;
         c_seen := seen; c_world := w |}
| controller_sees objs seen w k :
    cluster_step {| c_objects := objs; c_seen := seen; c_world := w |}
      {| c_objects := objs; c_seen := partial_alter (λ _, objs !! k) k seen; c_world := w |}
| controller_reconciles objs seen w k obj :
    seen !! k = Some obj →
    cluster_step {| c_objects := objs; c_seen := seen; c_world := w |}
      {| c_objects := served w (reconcile obj w).2 objs; c_seen := seen;
         c_world := (reconcile obj w).2 |}
| others_act objs seen w w' :
    (∀ a, starts_with CRD_ALIAS_PREFIX a = true → is_Some (w_leaves w' !! a) →
       is_Some (w_leaves w !! a)) →
    cluster_step {| c_objects := objs; c_seen := seen; c_world := w |}
      {| c_objects := objs; c_seen := seen; c_world := w' |}.

(** The start: the controller has seen nothing and owns no leaf; objects may be there. *)
Definition cluster_init (c : Cluster) : Prop :=
  (∀ k obj, c_objects c !! k = Some obj → key_of obj = k) ∧ c_seen c = ∅ ∧
  (∀ a, starts_with CRD_ALIAS_PREFIX a = true → w_leaves (c_world c) !! a = None).

Lemma body_finalizers_patch l : body_finalizers (finalizers_patch l) = Some l.
Proof.
  change (body_finalizers (finalizers_patch l)) with (mapM as_str (VString <$> l)).
  apply mapM_Some_2. induction l; by constructor.
Qed.

(** The object [k] exists and has our finalizer. *)
Definition held (objs : Objects) (k : string * string) : Prop :=
  ∃ obj, objs !! k = Some obj ∧ own_object obj.

Record cluster_inv (c : Cluster) : Prop := {
  inv_objects : ∀ k obj, c_objects c !! k = Some obj → key_of obj = k;
  inv_seen : ∀ k obj, c_seen c !! k = Some obj → key_of obj = k;
  inv_live : ∀ k obj, c_seen c !! k = Some obj → o_deletion_timestamp obj = None →
    own_object obj → held (c_objects c) k;
  inv_leaves : ∀ a, starts_with CRD_ALIAS_PREFIX a = true →
    is_Some (w_leaves (c_world c) !! a) →
    ∃ k, held (c_objects c) k ∧ a = crd_alias k.1 k.2;
}.

Lemma own_nonempty obj : own_object obj → o_finalizers obj ≠ [].
Proof. unfold own_object. intros Ho Hn. rewrite Hn in Ho. by apply not_elem_of_nil in Ho. Qed.
Lemma collect_own obj : own_object obj → collect_object obj = Some obj.
Proof.
  intros Ho. unfold collect_object. repeat case_match; try done.
  by apply own_nonempty in Ho.
Qed.
Lemma collect_Some obj obj' : collect_object obj = Some obj' → obj' = obj.
Proof. unfold collect_object. repeat case_match; congruence. Qed.

(** A change of one object keeps the ones that are held if it keeps this one held. *)
Lemma alter_held (f : option MCPServer → option MCPServer) (objs : Objects) k k' :
  (k = k' → ∀ obj, objs !! k = Some obj → own_object obj →
     ∃ obj', f (Some obj) = Some obj' ∧ own_object obj') →
  held objs k' → held (partial_alter f k objs) k'.
Proof.
  intros Hf (obj & Hobj & Hown). destruct (decide (k = k')) as [->|Hne].
  - destruct (Hf eq_refl obj Hobj Hown) as (obj' & Hf' & Hown'). exists obj'.
    by rewrite lookup_partial_alter_eq, Hobj.
  - exists obj. by rewrite lookup_partial_alter_ne.
Qed.
Lemma alter_keys (f : option MCPServer → option MCPServer) (objs : Objects) k :
  (∀ obj obj', f (Some obj) = Some obj' → key_of obj' = key_of obj) → f None = None →
  (∀ k obj, objs !! k = Some obj → key_of obj = k) →
  ∀ k' obj, partial_alter f k objs !! k' = Some obj → key_of obj = k'.
Proof.
  intros Hf Hn Hk k' obj. destruct (decide (k = k')) as [->|Hne].
  - rewrite lookup_partial_alter_eq. destruct (objs !! k') as [o|] eqn:Ho; [|congruence].
    intros He%Hf. rewrite He. by apply Hk.
  - rewrite lookup_partial_alter_ne by done. apply Hk.
Qed.

(** The effect of a reconciliation on the objects: at most one request, which sets the
    finalizers of the object. *)
Lemma served_none w w' objs : w_patches w' = w_patches w → served w w' objs = objs.
Proof. unfold served. intros ->. by rewrite drop_all. Qed.
Lemma served_finalizers w w' obj l objs :
  w_patches w' = w_patches w ++ [finalizers_request obj l] →
  served w w' objs = objs ∨
  served w w' objs =
    partial_alter (λ o, o ≫= λ obj, collect_object (with_finalizers l obj)) (key_of obj) objs.
Proof.
  unfold served. intros ->. rewrite drop_app_length. cbn [serve].
  destruct (is_ok _); [right|by left]. unfold apply_patch. cbn [kp_body finalizers_request].
  by rewrite body_finalizers_patch.
Qed.
Lemma finalizers_keys (l : list string) (objs : Objects) k :
  (∀ k obj, objs !! k = Some obj → key_of obj = k) →
  ∀ k' obj, partial_alter (λ o, o ≫= λ obj, collect_object (with_finalizers l obj)) k objs !! k'
    = Some obj → key_of obj = k'.
Proof. apply alter_keys; [|done]. by intros obj obj' ->%collect_Some. Qed.

Lemma object_alias_prefix obj : starts_with CRD_ALIAS_PREFIX (object_alias obj) = true.
Proof. apply starts_with_app. Qed.

Lemma held_edit (objs : Objects) obj k :
  (∀ old, objs !! key_of obj = Some old → own_object old → own_object obj) →
  held objs k → held (<[key_of obj := obj]> objs) k.
Proof.
  intros He (o & Ho & Hown). destruct (decide (key_of obj = k)) as [<-|Hne].
  - exists obj. rewrite lookup_insert_eq. split; [done|]. by eapply He.
  - exists o. by rewrite lookup_insert_ne.
Qed.

(** Objects change and stay held, the rest as it is. *)
Lemma inv_objects_change objs objs' seen w :
  (∀ k obj, objs' !! k = Some obj → key_of obj = k) → (∀ k, held objs k → held objs' k) →
  cluster_inv {| c_objects := objs; c_seen := seen; c_world := w |} →
  cluster_inv {| c_objects := objs'; c_seen := seen; c_world := w |}.
Proof.
  intros Hk Hh []; split; cbn in *; try done; [by eauto|].
  intros a Ha Hs. destruct (inv_leaves0 a Ha Hs) as (k & Hk' & ->). eauto.
Qed.

Lemma inv_insert objs seen w obj :
  (∀ old, objs !! key_of obj = Some old → own_object old → own_object obj) →
  cluster_inv {| c_objects := objs; c_seen := seen; c_world := w |} →
  cluster_inv {| c_objects := <[key_of obj := obj]> objs; c_seen := seen; c_world := w |}.
Proof.
  intros He Hinv. eapply inv_objects_change; [| |exact Hinv].
  - intros k o [[<- <-]|[_ Ho]]%lookup_insert_Some; [done|]. by apply (inv_objects _ Hinv).
  - intros k. by apply held_edit.
Qed.

Lemma inv_world objs seen w w' :
  (∀ a, starts_with CRD_ALIAS_PREFIX a = true → is_Some (w_leaves w' !! a) →
     is_Some (w_leaves w !! a)) →
  cluster_inv {| c_objects := objs; c_seen := seen; c_world := w |} →
  cluster_inv {| c_objects := objs; c_seen := seen; c_world := w' |}.
Proof. intros Hl []. split; cbn in *; eauto. Qed.

Lemma inv_add_finalizer (objs seen : Objects) w w' obj (l : list string) :
  w_patches w' = w_patches w ++ [finalizers_request obj l] → FINALIZER ∈ l →
  cluster_inv {| c_objects := objs; c_seen := seen; c_world := w' |} →
  cluster_inv {| c_objects := served w w' objs; c_seen := seen; c_world := w' |}.
Proof.
  intros Hp Hl Hinv. destruct (served_finalizers w w' obj l objs Hp) as [->| ->]; [done|].
  eapply inv_objects_change; [| |exact Hinv].
  - apply finalizers_keys, Hinv.
  - intros k. apply alter_held. intros _ o _ _. exists (with_finalizers l o).
    split; [by apply collect_own|done].
Qed.

(** The leaf goes before the finalizer does. *)
Lemma inv_cleanup (objs seen : Objects) w w' obj (l : list string) :
  w_patches w' = w_patches w ++ [finalizers_request obj l] →
  w_leaves w' = delete (object_alias obj) (w_leaves w) →
  seen !! key_of obj = Some obj → is_Some (o_deletion_timestamp obj) →
  cluster_inv {| c_objects := objs; c_seen := seen; c_world := w |} →
  cluster_inv {| c_objects := served w w' objs; c_seen := seen; c_world := w' |}.
Proof.
  intros Hp Hl Hseen [ts Hts] Hinv. pose proof Hinv as []. cbn in *.
  assert (∀ k, k ≠ key_of obj → held objs k → held (served w w' objs) k) as Hheld.
  { intros k Hk. destruct (served_finalizers w w' obj l objs Hp) as [->| ->]; [done|].
    by apply alter_held. }
  split; cbn; [| done | |].
  - destruct (served_finalizers w w' obj l objs Hp) as [->| ->]; [done|].
    by apply finalizers_keys.
  - intros k o Ho Hlive Hown. apply Hheld; [|by eapply inv_live0]. congruence.
  - intros a Ha. rewrite Hl. intros [x [Hne Hx]%lookup_delete_Some].
    destruct (inv_leaves0 a Ha ltac:(eauto)) as (k & Hk & ->). exists k. split; [|done].
    apply Hheld; [|done]. intros ->. by apply Hne.
Qed.

Lemma inv_reconcile (objs seen : Objects) w k obj :
  seen !! k = Some obj →
  cluster_inv {| c_objects := objs; c_seen := seen; c_world := w |} →
  cluster_inv {| c_objects := served w (reconcile obj w).2 objs; c_seen := seen;
                 c_world := (reconcile obj w).2 |}.
Proof.
  intros Hseen Hinv. pose proof (inv_seen _ Hinv _ _ Hseen) as Hk. cbn in Hk. subst k.
  pose proof (reconcile_cases obj w) as Hc. destruct (reconcile obj w) as [r w']. cbn [snd].
  case_decide as Hown; destruct (o_deletion_timestamp obj) as [ts|] eqn:Hts.
  - destruct Hc as [_ ->]. by eapply inv_cleanup; try done; rewrite Hts.
  - destruct (parse_transport _) as [t|e]; destruct Hc as [_ ->]; [|by rewrite served_none].
    rewrite served_none by (by rewrite install_spec). rewrite install_spec. cbn [snd].
    pose proof Hinv as []. split; cbn in *; try done.
    intros a Ha [<-|Hs]%lookup_insert_is_Some'; [|by apply inv_leaves0].
    exists (key_of obj). split; [|done]. by eapply inv_live0.
  - destruct Hc as [_ ->]. by rewrite served_none.
  - destruct Hc as [_ ->]. eapply inv_add_finalizer; [done| |eapply inv_world; [|exact Hinv]; done].
    apply elem_of_app. right. left.
Qed.

Lemma cluster_step_inv c c' : cluster_step c c' → cluster_inv c → cluster_inv c'.
Proof.
  intros [objs seen w obj Hno Hts|objs seen w old obj Ho Hkeep Hts|objs seen w k t|
          objs seen w k|objs seen w k obj Hseen|objs seen w w' Hw] Hinv.
  - apply inv_insert; [|done]. intros old. by rewrite Hno.
  - apply inv_insert; [|done]. intros old'. rewrite Ho. by intros [= <-].
  - eapply inv_objects_change; [| |exact Hinv].
    + apply alter_keys; [|done|apply Hinv]. by intros o o' ->%collect_Some.
    + intros k'. apply alter_held. intros _ o _ Hown. exists (marked_deleted t o).
      split; [by apply collect_own|done].
  - pose proof Hinv as []. cbn in *. split; cbn; try done.
    + intros k' o. destruct (decide (k = k')) as [<-|].
      * rewrite lookup_partial_alter_eq. apply inv_objects0.
      * rewrite lookup_partial_alter_ne by done. apply inv_seen0.
    + intros k' o. destruct (decide (k = k')) as [<-|].
      * rewrite lookup_partial_alter_eq. by exists o.
      * rewrite lookup_partial_alter_ne by done. apply inv_live0.
  - by eapply inv_reconcile.
  - by eapply inv_world.
Qed.

Lemma cluster_steps_inv c c' : rtc cluster_step c c' → cluster_inv c → cluster_inv c'.
Proof. induction 1; eauto using cluster_step_inv. Qed.


Lemma cleanup_objects (objs : Objects) w obj :
  is_Some (o_deletion_timestamp obj) → own_object obj →
  (∀ n p, is_ok (kube_patch n p) = true) →
  served w (reconcile obj w).2 objs =
    partial_alter (λ o, o ≫= λ obj', collect_object
      (with_finalizers (filter (λ f, f ≠ FINALIZER) (o_finalizers obj)) obj')) (key_of obj) objs ∧
  w_leaves (reconcile obj w).2 = delete (object_alias obj) (w_leaves w).
Proof.
  intros [ts Hts] Hown Hok. pose proof (reconcile_cases obj w) as Hc.
  destruct (reconcile obj w) as [r w']. rewrite decide_True, Hts in Hc by done.
  destruct Hc as [_ ->]. split; [|done]. unfold served. cbn [w_patches set_patches snd].
  rewrite drop_app_length. cbn [serve]. rewrite Hok. unfold apply_patch.
  cbn [kp_body finalizers_request]. by rewrite body_finalizers_patch.
Qed.

End reconciliation.

(** Two objects may ask for the same alias. *)
Lemma crd_alias_collision : crd_alias "a-b" "c" = crd_alias "a" "b-c".
Proof. reflexivity. Qed.

(** ** Witnesses *)
Module Example.
Definition kube : Kube := {| kube_patch := λ _ _, Ok tt |}.

Definition object (transport : string) (finalizers : list string) : MCPServer :=
  {| o_namespace := Some "mcp"; o_name := "alpha"; o_deletion_timestamp := None;
     o_finalizers := finalizers;
     o_spec := {| sp_alias := "alpha"; sp_url := "http://alpha/mcp"; sp_transport := transport;
                  sp_tags := []; sp_auth_token := None; sp_auth_token_file := None;
                  sp_timeout_seconds := None |} |}.
Definition live : MCPServer := object "http-post" [FINALIZER].

Definition start : Cluster :=
  {| c_objects := {[ ("mcp", "alpha") := live ]}; c_seen := ∅; c_world := Registry.Example.w1 |}.
End Example.

Lemma reconcile_registers_witness :
  ∃ l, w_leaves (reconcile (H := Scenario.os) (H0 := Scenario.http) (H3 := Example.kube)
         Example.live Registry.Example.w1).2 !! "crd-mcp-alpha" = Some l.
Proof.
  pose proof (reconcile_registers (H := Scenario.os) (H0 := Scenario.http) (H3 := Example.kube)
    Example.live Registry.Example.w1 eq_refl ltac:(left)) as Hr.
  destruct (reconcile _ _) as [r w']. destruct Hr as (l & e & _ & Hl & _). exists l.
  cbn [snd]. rewrite Hl. apply lookup_insert_eq.
Defined.


