(* ===== verification/Status.v ===== *)
(** * Status: the HTML status page ([status_handler] of [src/server.rs])

    The page shows texts that leaves' owners chose (aliases, URLs, tags).  [html_escape]
    and [render_status_html], and what makes them safe to show: the escaping is undone by
    reading the entities back, and no leaf can change the structure of the page. *)
From S2P Require Import Prelude Text Json F64 Env Config LeafClient Scenario Registry Router.
From S2P Require Import Server.
Open Scope string_scope.
Open Scope list_scope.

(** The double quote, and a text written with backquotes in its place *)
Definition DQ : ascii := "034".
Definition quoted (s : string) : string := replace_char "`" (String DQ "") s.

Definition html_escape (s : string) : string :=
  replace_char "'" "&#39;"
    (replace_char DQ "&quot;"
       (replace_char ">" "&gt;"
          (replace_char "<" "&lt;"
             (replace_char "&" "&amp;" s)))).

Definition health_cell (h : LeafHealth) : string * string :=
  match h with
  | Healthy => ("healthy", "#2e7d32")
  | Unhealthy => ("unhealthy", "#c62828")
  | Unknown => ("unknown", "#757575")
  end.

(** The format string of a row *)
Definition row_html (alias url color label tools tags last_check : string) : string :=
  "<tr><td>" +:+ alias +:+ "</td><td><code>" +:+ url +:+ quoted "</code></td><td style=`color:" +:+
  color +:+ quoted ";font-weight:bold`>" +:+ label +:+ "</td><td>" +:+ tools +:+ "</td><td>" +:+
  tags +:+ "</td><td>" +:+ last_check +:+ "</td></tr>".

Definition status_row (t : Z) (e : LeafEntry) : string :=
  let '(label, color) := health_cell (le_health e) in
  let tags := match Config.tags (le_config e) with
              | [] => "-"
              | tags => html_escape (join ", " tags)
              end in
  let last_check := match last_health_check e with
                    | Some instant => fmt_N (Z.to_N (as_secs (F64.since t instant))) +:+ "s ago"
                    | None => "never"
                    end in
  row_html (html_escape (le_alias e)) (html_escape (Config.url (le_config e))) color label
    (fmt_nat (length (cached_tools e))) tags last_check.

Definition page_head : string := quoted "<!DOCTYPE html>
<html lang=`en`><head>
<meta charset=`utf-8`>
<title>mcp-federation status</title>
<style>
body { font-family: -apple-system, system-ui, sans-serif; margin: 2rem; color: #212121; }
h1 { margin-bottom: 0.25rem; }
.meta { color: #666; margin-bottom: 1.5rem; }
table { border-collapse: collapse; width: 100%; }
th, td { padding: 0.5rem 0.75rem; border-bottom: 1px solid #ddd; text-align: left; }
th { background: #f5f5f5; }
code { font-family: SFMono-Regular, Menlo, monospace; font-size: 0.9em; }
</style>
</head><body>
<h1>mcp-federation</h1>
<div class=`meta`>version ".
Definition page_middle : string := " leaf server(s)</div>
<table>
<thead><tr>
<th>Alias</th><th>URL</th><th>Health</th><th>Tools</th><th>Tags</th><th>Last check</th>
</tr></thead>
<tbody>
".
Definition page_tail : string := "
</tbody>
</table>
</body></html>".

Definition page_html (leaf_count : nat) (rows : string) : string :=
  page_head +:+ PKG_VERSION +:+ " &middot; " +:+ fmt_nat leaf_count +:+ page_middle +:+ rows +:+
  page_tail.

Definition render_status_html `{!MapOrder} : M World string :=
  leaves ← all_leaves;
  m_gets (λ w, page_html (length leaves)
    (join "" ((λ l, status_row (wnow w) (entry l w)) <$> leaves))).

Definition status_handler `{!MapOrder} : M FederationState Reply :=
  html ← in_world render_status_html;
  mret (reply 200 (BText "text/html; charset=utf-8" html)).

Definition healthz : Reply := text_reply 200 "ok".

(** ** Escaping *)

(** The entity of a byte, and the text with every byte replaced at once *)
Definition entity (c : ascii) : string :=
  if decide (c = "&"%char) then "&amp;" else if decide (c = "<"%char) then "&lt;"
  else if decide (c = ">"%char) then "&gt;" else if decide (c = DQ) then "&quot;"
  else if decide (c = "'"%char) then "&#39;" else String c "".
Fixpoint escape_all (s : string) : string :=
  match s with "" => "" | String c s => entity c +:+ escape_all s end.

Lemma replace_char_app c b s t :
  replace_char c b (s +:+ t) = replace_char c b s +:+ replace_char c b t.
Proof. induction s as [|d s IH]; [done|]. rewrite str_app_cons. simpl. by rewrite IH, str_app_assoc. Qed.
Lemma html_escape_app s t : html_escape (s +:+ t) = html_escape s +:+ html_escape t.
Proof. unfold html_escape. by rewrite !replace_char_app. Qed.
Lemma html_escape_all s : html_escape s = escape_all s.
Proof.
  induction s as [|c s IH]; [done|]. change (String c s) with (String c "" +:+ s).
  rewrite html_escape_app, IH. simpl. f_equal.
  destruct c as [[] [] [] [] [] [] [] []]; reflexivity.
Qed.

(** Reading an escaped text back *)
Definition decode_entity (s : string) : option (ascii * string) :=
  match strip_prefix "&amp;" s, strip_prefix "&lt;" s, strip_prefix "&gt;" s,
        strip_prefix "&quot;" s, strip_prefix "&#39;" s with
  | Some r, _, _, _, _ => Some ("&"%char, r)
  | _, Some r, _, _, _ => Some ("<"%char, r)
  | _, _, Some r, _, _ => Some (">"%char, r)
  | _, _, _, Some r, _ => Some (DQ, r)
  | _, _, _, _, Some r => Some ("'"%char, r)
  | _, _, _, _, _ => None
  end.
Fixpoint unescape (fuel : nat) (s : string) : string :=
  match fuel, s with
  | Datatypes.S fuel, String c s' =>
      match decode_entity s with
      | Some (d, r) => String d (unescape fuel r)
      | None => String c (unescape fuel s')
      end
  | _, _ => s
  end.

Lemma decode_entity_escape c r :
  decode_entity (entity c +:+ r) = (if decide (c ∈ ["&"; "<"; ">"; DQ; "'"]%char) then Some (c, r) else None).
Proof. destruct c as [[] [] [] [] [] [] [] []]; reflexivity. Qed.
Lemma entity_plain c : c ∉ ["&"; "<"; ">"; DQ; "'"]%char → entity c = String c "".
Proof.
  rewrite !not_elem_of_cons. intros (? & ? & ? & ? & ? & _). unfold entity.
  by repeat (rewrite decide_False by done).
Qed.

Lemma unescape_escape s fuel :
  (String.length (escape_all s) ≤ fuel)%nat → unescape fuel (escape_all s) = s.
Proof.
  revert fuel. induction s as [|c s IH]; intros fuel Hf; [by destruct fuel|].
  cbn [escape_all] in *. rewrite str_length_app in Hf.
  assert (∃ d x, entity c = String d x) as (d & x & Hd)
    by (unfold entity; repeat case_decide; by eexists _, _).
  destruct fuel as [|fuel]; [rewrite Hd in Hf; cbn in Hf; lia|].
  pose proof (decode_entity_escape c (escape_all s)) as Hdec.
  rewrite Hd in *. cbn [String.length] in Hf. change (String d x +:+ escape_all s) with
    (String d (x +:+ escape_all s)) in *. cbn [unescape]. rewrite Hdec.
  case_decide as Hc; [by rewrite IH by lia|].
  apply entity_plain in Hc. rewrite Hc in Hd. injection Hd as <- <-. simpl. by rewrite IH by lia.
Qed.

(** Escaping is one pass that replaces each of the five special bytes by its entity:
    nothing is escaped twice, and reading the entities back gives the text, so that two
    texts are never shown alike. *)
Theorem html_escape_roundtrip s :
  html_escape s = escape_all s ∧
  unescape (String.length (html_escape s)) (html_escape s) = s.
Proof. rewrite html_escape_all. split; [done|]. by apply unescape_escape. Qed.

(** ** The structure of the page

    The bytes that delimit tags and attribute values, in order *)
Definition markup (s : string) : list ascii :=
  filter (λ c, c ∈ ["<"; ">"; DQ; "'"]%char) (String.list_ascii_of_string s).

Lemma markup_app s t : markup (s +:+ t) = markup s ++ markup t.
Proof. unfold markup. by rewrite list_ascii_app, filter_app. Qed.
Lemma markup_escape s : markup (html_escape s) = [].
Proof.
  rewrite html_escape_all. induction s as [|c s IH]; [done|]. cbn [escape_all].
  rewrite markup_app, IH, app_nil_r. by destruct c as [[] [] [] [] [] [] [] []].
Qed.

Lemma markup_digit c s : markup (String (pretty_N_char c) s) = markup s.
Proof. unfold pretty_N_char. by repeat case_match. Qed.
Lemma markup_pretty_go n s : markup (pretty_N_go n s) = markup s.
Proof.
  revert s. induction (N.lt_wf_0 n) as [n _ IH]; intros s.
  destruct (decide (n = 0)%N) as [->|]; [by rewrite pretty_N_go_0|].
  rewrite pretty_N_go_step, IH, markup_digit by (done || lia || apply N.div_lt; lia). done.
Qed.
Lemma markup_fmt_N n : markup (fmt_N n) = [].
Proof. unfold fmt_N, pretty, pretty_N. case_decide; [done|]. apply markup_pretty_go. Qed.
Lemma markup_fmt_nat n : markup (fmt_nat n) = [].
Proof. apply markup_fmt_N. Qed.
Create Rewrite HintDb markup.
#[local] Hint Rewrite markup_app markup_escape markup_fmt_N markup_fmt_nat app_nil_l : markup.

(** The markup of a row without contents *)
Definition row_markup : list ascii := markup (row_html "" "" "" "" "" "" "").

Lemma markup_row_html a u c l n t k :
  markup a = [] → markup u = [] → markup c = [] → markup l = [] → markup n = [] →
  markup t = [] → markup k = [] → markup (row_html a u c l n t k) = row_markup.
Proof.
  intros Ha Hu Hc Hl Hn Ht Hk. unfold row_markup, row_html. rewrite !markup_app.
  by rewrite Ha, Hu, Hc, Hl, Hn, Ht, Hk.
Qed.
Lemma markup_row t e : markup (status_row t e) = row_markup.
Proof.
  unfold status_row. destruct (health_cell (le_health e)) as [label color] eqn:Hh.
  apply markup_row_html; try (by autorewrite with markup).
  - by destruct (le_health e); injection Hh as <- <-.
  - by destruct (le_health e); injection Hh as <- <-.
  - destruct (Config.tags _); [done|]. apply markup_escape.
  - destruct (last_health_check e); [|done]. by autorewrite with markup.
Qed.
Lemma markup_rows t (es : list LeafEntry) :
  markup (join "" (status_row t <$> es)) = concat (replicate (length es) row_markup).
Proof.
  induction es as [|e es IH]; [done|]. rewrite fmap_cons, join_nil_cons, markup_app, markup_row.
  cbn [length replicate concat]. by f_equal.
Qed.

(** (C33) No leaf can change the structure of the status page: whatever aliases, URLs and
    tags the leaves have, the page has the tags and quotes of the empty page, with those
    of one empty row for each leaf; and rendering it changes nothing. *)
Theorem status_page_inert `{!MapOrder} w :
  let '(html, w') := render_status_html w in
  w' = w ∧
  markup html =
    markup page_head ++ markup page_middle ++
    concat (replicate (size (w_leaves w)) row_markup) ++ markup page_tail.
Proof.
  unfold render_status_html, all_leaves. run_m. split; [done|].
  change (λ l, status_row (wnow w) (entry l w)) with (status_row (wnow w) ∘ (λ l, entry l w)).
  rewrite list_fmap_compose. unfold page_html. rewrite !markup_app, markup_rows.
  rewrite length_fmap, map_values_length. by autorewrite with markup.
Qed.
