(* ===== verification/Api.v ===== *)
(** * Api: registration of leaves over REST ([src/api.rs])

    The handlers of [/api/v1/servers].  Deserialising the body is the framework's;
    [register_request] gives the fields that may be missing their defaults.
    [register_server] is in three parts, because other requests run between them: the
    checks, the insertion, and the reply, which looks the leaf up again ([None] is the
    panic of its [expect]). *)
From S2P Require Import Prelude Text Json F64 Env Config LeafClient Scenario Registry Router.
From S2P Require Import Server.
Open Scope string_scope.
Open Scope list_scope.

Record RegisterRequest := {
  rg_alias : string;
  rg_url : string;
  rg_transport : TransportType;
  rg_tags : list string;
  rg_auth_token : option string;
  rg_timeout_seconds : option Z;
}.

Definition default_transport : TransportType := HttpPost.

Definition register_request (alias url : string) (transport : option TransportType)
    (tags : option (list string)) (auth_token : option string) (timeout : option Z)
  : RegisterRequest :=
  {| rg_alias := alias; rg_url := url; rg_transport := default default_transport transport;
     rg_tags := default [] tags; rg_auth_token := auth_token; rg_timeout_seconds := timeout |}.

Definition to_server_info (e : LeafEntry) : Value :=
  json_obj [("alias", VString (le_alias e));
            ("url", VString (Config.url (le_config e)));
            ("transport", VString (transport_debug (Config.transport (le_config e))));
            ("tags", vstrs (Config.tags (le_config e)));
            ("health", VString (health_str (le_health e)));
            ("tool_count", vnat (length (cached_tools e)))].

Definition error_reply (status : Z) (error : string) : Reply :=
  reply status (BJson (json_obj [("error", VString error)])).
Definition info_reply (status : Z) (e : LeafEntry) : Reply := reply status (BJson (to_server_info e)).
Definition not_found (alias : string) : Reply :=
  error_reply 404 ("server '" +:+ alias +:+ "' not found").

(** What is wrong with a request, whatever is registered *)
Definition invalid_request (rq : RegisterRequest) : option string :=
  if is_empty (rg_alias rq) then Some "alias must not be empty"
  else if contains "__" (rg_alias rq) then
    Some ("alias '" +:+ rg_alias rq +:+ "' cannot contain '__' (reserved as namespace separator)")
  else if is_empty (rg_url rq) then Some "url must not be empty"
  else None.

Definition request_config (rq : RegisterRequest) : ServerConfig :=
  {| Config.alias := rg_alias rq; Config.url := rg_url rq;
     Config.auth_token := rg_auth_token rq; Config.auth_token_file := None;
     Config.transport := rg_transport rq; Config.tags := rg_tags rq;
     Config.health_check := HealthCheckConfig_default;
     Config.timeout_seconds := rg_timeout_seconds rq; Config.tls := TlsConfig_default |}.

Section api.
Context `{!Os, !Http, !MapOrder}.

(** The checks: the reply of a refused request *)
Definition register_checks (rq : RegisterRequest) : M World (option Reply) :=
  match invalid_request rq with
  | Some error => mret (Some (error_reply 400 error))
  | None =>
      leaf ← get_leaf (rg_alias rq);
      mret (if leaf is Some _
            then Some (error_reply 409 ("server '" +:+ rg_alias rq +:+ "' already registered"))
            else None)
  end.

Definition register_insert (rq : RegisterRequest) : M World nat :=
  install (rg_alias rq) (request_config rq) (λ l, TInit l true None).

Definition register_reply (rq : RegisterRequest) : M World (option Reply) :=
  leaf ← get_leaf (rg_alias rq);
  m_gets (λ w, (λ l, info_reply 201 (entry l w)) <$> leaf).

Definition register_server (rq : RegisterRequest) : M World (option Reply) :=
  refused ← register_checks rq;
  match refused with
  | Some r => mret (Some r)
  | None => _ ← register_insert rq; register_reply rq
  end.

Definition deregister_server (alias : string) : M World Reply :=
  leaf ← remove_leaf alias;
  match leaf with
  | Some l => m_gets (λ w, info_reply 200 (entry l w))
  | None => mret (not_found alias)
  end.

Definition list_servers : M World Reply :=
  leaves ← all_leaves;
  m_gets (λ w, reply 200 (BJson (VArray ((λ l, to_server_info (entry l w)) <$> leaves)))).

Definition get_server (alias : string) : M World Reply :=
  leaf ← get_leaf alias;
  match leaf with
  | Some l => m_gets (λ w, info_reply 200 (entry l w))
  | None => mret (not_found alias)
  end.

(** ** Properties *)

(** A request that may be registered *)
Record valid_request (rq : RegisterRequest) : Prop := {
  vr_alias : rg_alias rq ≠ "";
  vr_separator : contains "__" (rg_alias rq) = false;
  vr_url : rg_url rq ≠ "";
}.

Lemma invalid_request_None rq : invalid_request rq = None ↔ valid_request rq.
Proof.
  unfold invalid_request, is_empty. split.
  - intros Hi. repeat case_bool_decide; repeat case_match; try done; by split.
  - intros []. by rewrite !bool_decide_eq_false_2, vr_separator0 by done.
Qed.

(** The entry of a new registration *)
Definition registered_entry (rq : RegisterRequest) (w : World) : LeafEntry :=
  LeafEntry_new_with_pool (wnow w) (request_config rq) (w_pool w).
Definition registration (rq : RegisterRequest) (w : World) : World :=
  (register_insert rq w).2.

Lemma register_insert_leaf rq w :
  w_leaves (registration rq w) !! rg_alias rq = Some (fresh (dom (w_heap w))) ∧
  entry (fresh (dom (w_heap w))) (registration rq w) = registered_entry rq w.
Proof.
  unfold registration, register_insert. rewrite install_spec. cbn. rewrite lookup_insert_eq.
  split; [done|]. apply entry_lookup, lookup_insert_eq.
Qed.

Lemma register_server_new rq w :
  valid_request rq → w_leaves w !! rg_alias rq = None →
  register_server rq w = (Some (info_reply 201 (registered_entry rq w)), registration rq w).
Proof.
  intros Hv Hn. apply invalid_request_None in Hv.
  destruct (register_insert_leaf rq w) as [Hl He].
  unfold register_server, register_checks, register_reply, get_leaf, registration in *. rewrite Hv.
  run_m. rewrite Hn. destruct (register_insert rq w) as [l w']. cbn in *. by rewrite Hl; cbn; rewrite He.
Qed.

(** (C34) A registration run without interruption always gets a reply, and the reply tells
    what happened: 400 for an empty alias, a reserved separator or an empty URL, 409 for
    an alias in use, and in these cases nothing changed; otherwise 201 with the
    information on a new leaf under the alias, which has the configuration of the request
    and whose initialisation is started.  The registry stays well formed. *)
Theorem register_server_outcomes rq w :
  world_wf w →
  let '(r, w') := register_server rq w in
  (∃ rp, r = Some rp) ∧ world_wf w' ∧
  match invalid_request rq, w_leaves w !! rg_alias rq with
  | Some error, _ => ¬ valid_request rq ∧ r = Some (error_reply 400 error) ∧ w' = w
  | None, Some _ => rp_status <$> r = Some 409%Z ∧ w' = w
  | None, None =>
      ∃ l e, r = Some (info_reply 201 e) ∧
        w_heap w !! l = None ∧ w_heap w' = <[l := e]> (w_heap w) ∧
        w_leaves w' = <[rg_alias rq := l]> (w_leaves w) ∧
        le_config e = request_config rq ∧ le_health e = Unknown ∧ cached_tools e = [] ∧
        w_tasks w' = w_tasks w ++ [TInit l true None]
  end.
Proof.
  intros Hwf. pose proof (invalid_request_None rq) as Hv.
  destruct (invalid_request rq) as [error|] eqn:Hi.
  - unfold register_server, register_checks. rewrite Hi. run_m.
    split_and!; eauto. intros Hval. by apply Hv in Hval.
  - destruct (w_leaves w !! rg_alias rq) as [l|] eqn:Hl.
    + unfold register_server, register_checks, get_leaf. rewrite Hi. run_m. rewrite Hl.
      split_and!; eauto.
    + rewrite register_server_new by (try apply Hv; done).
      split_and!; [eauto|by apply install_wf|].
      unfold registration, register_insert. rewrite install_spec. cbn.
      eexists _, _. split_and!; try done. apply fresh_heap.
Qed.

(** What was registered can be read and taken back: after a 201 the same
    information is what [GET] and [DELETE] answer with 200; after the [DELETE] both
    answer 404 and the table is what it was before the registration. *)
Theorem register_deregister_roundtrip rq w :
  valid_request rq → w_leaves w !! rg_alias rq = None →
  let e := registered_entry rq w in
  let '(r, w1) := register_server rq w in
  let '(d, w2) := deregister_server (rg_alias rq) w1 in
  r = Some (info_reply 201 e) ∧ (get_server (rg_alias rq) w1) = (info_reply 200 e, w1) ∧
  d = info_reply 200 e ∧ w_leaves w2 = w_leaves w ∧
  get_server (rg_alias rq) w2 = (not_found (rg_alias rq), w2) ∧
  deregister_server (rg_alias rq) w2 = (not_found (rg_alias rq), w2).
Proof.
  intros Hv Hn e. rewrite register_server_new by done. fold e.
  destruct (register_insert_leaf rq w) as [Hl He]. fold e in He.
  assert (delete (rg_alias rq) (w_leaves (registration rq w)) = w_leaves w) as Hd.
  { unfold registration, register_insert. rewrite install_spec. cbn. by apply delete_insert_id. }
  unfold deregister_server, remove_leaf. run_m. rewrite Hl. cbn.
  unfold get_server, get_leaf. run_m. cbn. rewrite Hl, Hd, Hn.
  split_and!; try done; try (by rewrite <- He).
  unfold set_leaves. cbn. by rewrite delete_id.
Qed.

(** (C35) The three parts of a registration are not one step.  Two requests for the same
    alias that both passed the checks are both answered 201, and the second leaf replaces
    the first; and a [DELETE] that comes between the insertion and the reply makes the
    handler panic. *)
Theorem register_interleavings rq rq' w :
  valid_request rq → valid_request rq' → rg_alias rq = rg_alias rq' →
  w_leaves w !! rg_alias rq = None →
  (let '(c, w1) := register_checks rq w in let '(c', w2) := register_checks rq' w1 in
   let '(l, w3) := register_insert rq w2 in let '(l', w4) := register_insert rq' w3 in
   let '(r, w5) := register_reply rq w4 in let '(r', w6) := register_reply rq' w5 in
   c = None ∧ c' = None ∧ rp_status <$> r = Some 201%Z ∧ rp_status <$> r' = Some 201%Z ∧
   l ≠ l' ∧ (∀ a, w_leaves w6 !! a ≠ Some l ∨ w_leaves w !! a = Some l)) ∧
  (let '(c, w1) := register_checks rq w in let '(_, w2) := register_insert rq w1 in
   let '(d, w3) := deregister_server (rg_alias rq) w2 in
   c = None ∧ rp_status d = 200%Z ∧ (register_reply rq w3).1 = None).
Proof.
  intros Hv%invalid_request_None Hv'%invalid_request_None Ha Hn.
  unfold register_checks, register_reply, register_insert, deregister_server, get_leaf, remove_leaf.
  rewrite Hv, Hv'. run_m. rewrite <- Ha, Hn. rewrite !install_spec. cbn.
  rewrite !lookup_insert_eq. cbn. rewrite lookup_delete_eq.
  set (l := fresh (dom (w_heap w))).
  set (l' := fresh (dom (<[l := _]> (w_heap w)))).
  assert (l ≠ l') as Hne.
  { intros Heq. assert (l' ∉ dom (<[l := LeafEntry_new_with_pool (wnow w) (request_config rq)
      (w_pool w)]> (w_heap w))) as Hf by apply is_fresh. apply Hf. set_solver. }
  split; [|done]. split_and!; try done.
  intros a. destruct (decide (a = rg_alias rq)) as [->|Hne'].
  - left. rewrite lookup_insert_eq. congruence.
  - rewrite !lookup_insert_ne by done. destruct (decide (w_leaves w !! a = Some l)); auto.
Qed.
End api.

(** ** Witnesses *)
Module Example.
Definition gamma : RegisterRequest :=
  register_request "gamma" "http://alpha/mcp" None None None None.
End Example.

Lemma register_server_outcomes_witness :
  rp_status <$> (register_server (H := Scenario.os) (H0 := Scenario.http) Example.gamma
    Registry.Example.w1).1 = Some 201%Z.
Proof.
  pose proof (register_server_outcomes (H := Scenario.os) (H0 := Scenario.http) Example.gamma
    Registry.Example.w1 ltac:(apply world_wfb_sound; vm_compute; reflexivity)) as Hr.
  assert (w_leaves Registry.Example.w1 !! rg_alias Example.gamma = None) as Hn
    by (vm_compute; reflexivity).
  assert (invalid_request Example.gamma = None) as Hi by reflexivity.
  rewrite Hn, Hi in Hr. destruct (register_server _ _) as [r w'].
  destruct Hr as (_ & _ & l & e & -> & _). reflexivity.
Defined.

Lemma register_deregister_roundtrip_witness :
  rp_status (deregister_server "gamma" (register_server (H := Scenario.os) (H0 := Scenario.http)
    Example.gamma Registry.Example.w1).2).1 = 200%Z.
Proof.
  pose proof (register_deregister_roundtrip (H := Scenario.os) (H0 := Scenario.http) Example.gamma
    Registry.Example.w1 ltac:(by apply invalid_request_None) ltac:(vm_compute; reflexivity)) as Hr.
  cbv zeta in Hr. destruct (register_server _ _) as [r w1]. cbn [snd].
  change (rg_alias Example.gamma) with "gamma" in Hr.
  destruct (deregister_server "gamma" w1) as [d w2]. destruct Hr as (_ & _ & -> & _). reflexivity.
Defined.

Lemma register_interleavings_witness :
  (register_reply Example.gamma
     (deregister_server "gamma" (register_insert (H := Scenario.os) (H0 := Scenario.http)
        Example.gamma Registry.Example.w1).2).2).1 = None.
Proof.
  pose proof (register_interleavings (H := Scenario.os) (H0 := Scenario.http) Example.gamma
    Example.gamma Registry.Example.w1 ltac:(by apply invalid_request_None)
    ltac:(by apply invalid_request_None) eq_refl ltac:(vm_compute; reflexivity)) as [_ Hr].
  assert (register_checks Example.gamma Registry.Example.w1 = (None, Registry.Example.w1)) as Hc
    by (vm_compute; reflexivity).
  rewrite Hc in Hr. destruct (register_insert _ _) as [l w2]. cbn [snd].
  change (rg_alias Example.gamma) with "gamma" in Hr.
  destruct (deregister_server "gamma" w2) as [d w3]. apply Hr.
Defined.
