(* ===== verification/Reload.v ===== *)
(** * Reload: the configuration reload on SIGHUP ([spawn_config_reloader] of
    [src/main.rs])

    Each signal reads the configuration file again and brings the registry in line with
    it.  A configuration that cannot be read, parsed or validated changes nothing. *)
From S2P Require Import Prelude Text Json F64 Env Config LeafClient Scenario Registry.
Open Scope string_scope.
Open Scope list_scope.

(** The fields that make a leaf be replaced *)
Definition same_server (current server : ServerConfig) : bool :=
  bool_decide (Config.url current = Config.url server) &&
  bool_decide (Config.auth_token current = Config.auth_token server) &&
  bool_decide (Config.auth_token_file current = Config.auth_token_file server) &&
  bool_decide (Config.transport current = Config.transport server) &&
  bool_decide (Config.timeout_seconds current = Config.timeout_seconds server).

Section reload.
Context `{!Os, !Http, !Yaml, !MapOrder}.

(** One server of the new configuration *)
Definition reload_server (server : ServerConfig) : M World unit :=
  leaf ← get_leaf (Config.alias server);
  keep ← m_gets (λ w, if leaf is Some l then same_server (le_config (entry l w)) server
                      else false);
  if keep : bool then mret tt
  else _ ← install (Config.alias server) server (λ l, TInit l false None); mret tt.

Definition reload_config (cfg : FederationConfig) : M World unit :=
  existing ← aliases;
  let incoming := Config.alias <$> servers cfg in
  _ ← m_iter reload_server (servers cfg);
  remove_all (filter (λ a, a ∉ incoming) existing).

(** One signal; the result says whether the configuration was applied. *)
Definition on_sighup (path : string) : M World bool :=
  t ← m_gets wnow;
  match from_file t path with
  | Err _ => mret false
  | Ok cfg => _ ← reload_config cfg; mret true
  end.

(** ** Properties *)

(** What the leaf of a server is after a reload: the one it was when it has the five
    fields already, otherwise a new one with the new configuration *)
Definition kept (w : World) (s : ServerConfig) (l : nat) : Prop :=
  w_leaves w !! Config.alias s = Some l ∧ same_server (le_config (entry l w)) s = true.
Definition reinstalled (w w' : World) (s : ServerConfig) : Prop :=
  ∃ l, w_leaves w' !! Config.alias s = Some l ∧ w_heap w !! l = None ∧
    w_heap w' !! l = Some (LeafEntry_new_with_pool (wnow w) s (w_pool w)) ∧
    TInit l false None ∈ w_tasks w'.
Definition reloaded (w w' : World) (s : ServerConfig) : Prop :=
  (∃ l, kept w s l ∧ w_leaves w' !! Config.alias s = Some l) ∨
  (¬ (∃ l, kept w s l) ∧ reinstalled w w' s).

Lemma reload_server_spec s w :
  let w' := (reload_server s w).2 in
  extends w w' ∧ (world_wf w → world_wf w') ∧
  (∀ a, a ≠ Config.alias s → w_leaves w' !! a = w_leaves w !! a) ∧ reloaded w w' s ∧
  ((∃ l, kept w s l) → w' = w).
Proof.
  unfold reload_server, get_leaf, reloaded, kept. run_m.
  destruct (w_leaves w !! Config.alias s) as [l|] eqn:Hl;
    [destruct (same_server (le_config (entry l w)) s) eqn:Hs|].
  { split_and!; try done; eauto. }
  all: rewrite install_spec; set (w' := {| w_env := _ |}); cbn [snd].
  all: assert (extends w w') as He by apply (install_extends (Config.alias s) s (λ l, TInit l false None)).
  all: split_and!; [done|by apply (install_wf (Config.alias s) s (λ l, TInit l false None))| |..];
    [by intros a Ha; cbn; rewrite lookup_insert_ne|right; split|]; try naive_solver congruence.
  all: eexists; cbn; rewrite !lookup_insert_eq; split_and!; [done|apply fresh_heap|done|].
  all: apply elem_of_app; right; left.
Qed.

Lemma reloaded_later w w1 w' s :
  extends w1 w' → w_leaves w' !! Config.alias s = w_leaves w1 !! Config.alias s →
  reloaded w w1 s → reloaded w w' s.
Proof.
  intros He Ha [(l & Hk & Hl)|(Hk & l & Hl & Hf & Hh & Ht)]; [left|right].
  - exists l. by rewrite Ha.
  - split; [done|]. exists l. rewrite Ha. split_and!; try done.
    + eapply lookup_weaken; [exact Hh|apply He].
    + destruct (ext_tasks _ _ He) as [ts ->]. apply elem_of_app. by left.
Qed.

Lemma kept_before w w1 s l :
  world_wf w → extends w w1 → w_leaves w1 !! Config.alias s = w_leaves w !! Config.alias s →
  kept w1 s l ↔ kept w s l.
Proof.
  intros [Hwf _] He Ha. unfold kept. rewrite Ha. split; intros [Hl Hs]; (split; [done|]).
  all: destruct (Hwf _ _ Hl) as (e & Hh & _).
  all: assert (w_heap w1 !! l = Some e) as Hh1 by (eapply lookup_weaken; [exact Hh|apply He]).
  all: by rewrite (entry_lookup _ _ _ Hh) in *; rewrite (entry_lookup _ _ _ Hh1) in *.
Qed.

Lemma reloaded_before w w1 w' s :
  world_wf w → extends w w1 → w_leaves w1 !! Config.alias s = w_leaves w !! Config.alias s →
  reloaded w1 w' s → reloaded w w' s.
Proof.
  intros Hwf He Ha. unfold reloaded. setoid_rewrite (kept_before w w1 s) ; [|done..].
  intros [Hk|(Hk & l & Hl & Hf & Hh & Ht)]; [by left|right]. split; [done|].
  exists l. unfold wnow in Hh. rewrite (ext_env _ _ He), (ext_pool _ _ He) in Hh.
  split_and!; try done. eapply lookup_weaken_None; [exact Hf|apply He].
Qed.

Lemma reload_servers_spec ss w :
  world_wf w → NoDup (Config.alias <$> ss) →
  let w' := (m_iter reload_server ss w).2 in
  extends w w' ∧ world_wf w' ∧
  (∀ a, a ∉ (Config.alias <$> ss) → w_leaves w' !! a = w_leaves w !! a) ∧
  (∀ s, s ∈ ss → reloaded w w' s).
Proof.
  revert w. induction ss as [|s ss IH]; intros w Hwf Hnd; cbv zeta.
  { cbn. split_and!; try done. by intros s ?%not_elem_of_nil. }
  rewrite fmap_cons in Hnd. apply NoDup_cons in Hnd as [Hs Hnd]. rewrite m_iter_cons.
  destruct (reload_server_spec s w) as (He & Hwf1 & Hoth & Hre & _).
  set (w1 := (reload_server s w).2) in *.
  destruct (IH w1 (Hwf1 Hwf) Hnd) as (He' & Hwf' & Hoth' & Hre').
  set (w' := (m_iter _ ss w1).2) in *. split_and!; [by etrans|done|..].
  - intros a. rewrite fmap_cons, not_elem_of_cons. intros [Hne Ha]. by rewrite Hoth', Hoth.
  - intros s' [->|Hin]%elem_of_cons; [by apply (reloaded_later w w1); auto|].
    apply (reloaded_before w w1); auto. apply Hoth. intros Heq. apply Hs. rewrite <- Heq.
    by apply list_elem_of_fmap_2.
Qed.

Lemma reload_config_spec cfg w :
  config_wf cfg → world_wf w →
  let w' := (reload_config cfg w).2 in
  extends w w' ∧ world_wf w' ∧
  (∀ a, is_Some (w_leaves w' !! a) ↔ a ∈ (Config.alias <$> servers cfg)) ∧
  (∀ s, s ∈ servers cfg → reloaded w w' s).
Proof.
  intros Hcfg Hwf. assert (NoDup (Config.alias <$> servers cfg)) as Hnd by apply Hcfg.
  unfold reload_config, aliases. run_m.
  destruct (reload_servers_spec (servers cfg) w Hwf Hnd) as (He & Hwf1 & Hoth & Hre).
  destruct (m_iter reload_server _ w) as [u w1]. cbn [snd] in *. clear u.
  set (gone := filter _ _). pose proof (remove_all_wf gone w1 Hwf1) as Hwf2.
  destruct (remove_all_spec gone w1) as [Hw2 Hl2].
  change (let '(a, s') := (tt, w1) in remove_all gone s') with (remove_all gone w1).
  set (w2 := (remove_all gone w1).2) in *.
  assert (∀ a, a ∈ gone ↔ (a ∉ (Config.alias <$> servers cfg)) ∧ is_Some (w_leaves w !! a)) as Hgone
    by (intros a; unfold gone; by rewrite list_elem_of_filter, map_keys_elem).
  pose proof (remove_all_extends gone w1 w2 Hw2) as He2.
  split_and!; [by etrans|done| |].
  - intros a. rewrite Hl2. destruct (decide (a ∈ (Config.alias <$> servers cfg))) as [Hin|Hin].
    + rewrite decide_False by (rewrite Hgone; tauto). split; [done|]. intros _.
      apply list_elem_of_fmap in Hin as (s & -> & Hs).
      destruct (Hre s Hs) as [(l & _ & Hl)|(_ & l & Hl & _)]; by rewrite Hl.
    + split; [|done]. intros [l Hl]. exfalso. case_decide as Hg; [done|].
      apply Hg, Hgone. split; [done|]. rewrite <- Hoth by done. by rewrite Hl.
  - intros s Hs. apply (reloaded_later w w1); [done| |by apply Hre].
    rewrite Hl2, decide_False; [done|]. rewrite Hgone. intros [Hn _]. apply Hn.
    by apply list_elem_of_fmap_2.
Qed.

Lemma same_server_refl s : same_server s s = true.
Proof. unfold same_server. by rewrite !bool_decide_eq_true_2. Qed.

Lemma reloaded_kept w w' s :
  world_wf w → extends w w' → reloaded w w' s → ∃ l, kept w' s l.
Proof.
  intros [Hwf _] He [(l & [Hl Hs] & Hl')|(_ & l & Hl & _ & Hh & _)]; exists l; (split; [done|]).
  - destruct (Hwf _ _ Hl) as (e & Hh & _). rewrite (entry_lookup _ _ _ Hh) in Hs.
    by rewrite (entry_lookup _ w' e) by (eapply lookup_weaken; [exact Hh|apply He]).
  - rewrite (entry_lookup _ _ _ Hh). apply same_server_refl.
Qed.

Lemma reload_config_fixpoint cfg w :
  (∀ s, s ∈ servers cfg → ∃ l, kept w s l) →
  (∀ a, is_Some (w_leaves w !! a) → a ∈ (Config.alias <$> servers cfg)) →
  (reload_config cfg w).2 = w.
Proof.
  intros Hk Ha. unfold reload_config, aliases. run_m.
  assert (∀ ss, (∀ s, s ∈ ss → ∃ l, kept w s l) → (m_iter reload_server ss w).2 = w) as Hid.
  { induction ss as [|s ss IH]; intros Hss; [done|]. rewrite m_iter_cons.
    destruct (reload_server_spec s w) as (_ & _ & _ & _ & Hw). rewrite Hw by (apply Hss; left).
    apply IH. intros. apply Hss. by right. }
  specialize (Hid _ Hk). destruct (m_iter _ _ w) as [u w1]. cbn in Hid. subst w1.
  rewrite filter_none; [done|]. intros a [l Hl]%map_keys_elem Hn. apply Hn, Ha. by eexists.
Qed.

End reload.

(** ** Witness: one of the two leaves is replaced, the other goes. *)
Module Example.
Definition raw_server : RawServer :=
  {| raw_alias := "alpha"; raw_url := "http://alpha/v2"; raw_auth_token := None;
     raw_auth_token_file := None; raw_transport := None; raw_tags := None;
     raw_health_check := None; raw_timeout := None; raw_tls := None |}.
Definition raw : RawConfig :=
  {| raw_federation :=
       {| raw_listen := None; raw_endpoint := None; raw_fed_token := None;
          raw_fed_token_file := None; raw_pool := None; raw_tool_ttl := None;
          raw_session_ttl := None; raw_origins := None; raw_clients := None;
          raw_rate_limit := None; raw_dns := None; raw_crd := None; raw_secret := None;
          raw_shutdown := None |};
     raw_servers := [raw_server] |}.
Definition yaml : Yaml := {| yaml_parse := λ _, Ok raw |}.
Definition os : Os :=
  {| env_var := λ _, None; read_file := λ _ _, Ok "servers";
     read_bytes := λ _ _, Err "not found"; system_time := λ t, t; uuid := λ n, fmt_nat n |}.
End Example.

