(* ===== verification/App.v ===== *)
(** * App: the HTTP application ([build_router] of [src/main.rs])

    The routes, behind the authentication of Rbac.v and the CORS layer, which answers
    every [OPTIONS] request itself.  [Axum] is the framework: it reads the bodies and the
    path, and gives every reply that is not a handler's (rejections, unknown paths and
    methods, the Swagger pages, the metrics). *)
From S2P Require Import Prelude Text Json Protocol F64 Env Config RateLimit Rbac Session.
From S2P Require Import Notifications LeafClient Scenario Registry Aggregator Router Server.
From S2P Require Import Status Api.
Open Scope string_scope.
Open Scope list_scope.

Record HttpRequestIn := {
  in_method : string;
  in_uri_path : string;
  in_headers : Headers;
  in_body : string;
}.

Class Axum : Type := {
  json_rpc_body : HttpRequestIn → result Reply JsonRpcRequest;
  register_body : HttpRequestIn → result Reply RegisterRequest;
  path_parameter : string → result Reply string;
  framework_reply : HttpRequestIn → Reply;
}.

(** A route for [GET] takes [HEAD] too. *)
Definition is_get (m : string) : bool := bool_decide (m = "GET") || bool_decide (m = "HEAD").

(** Run a handler on what an extractor yields. *)
Definition extracted {S A} (r : result Reply A) (k : A → M S (option Reply)) : M S (option Reply) :=
  match r with Ok a => k a | Err rejection => mret (Some rejection) end.

Definition answer {S} (m : M S Reply) : M S (option Reply) := r ← m; mret (Some r).

Section app.
Context `{!Os, !Http, !Serde, !MapOrder, !Unicode, !Jwt, !HeaderValue, !Axum}.

Definition unrouted (rq : HttpRequestIn) : M FederationState (option Reply) :=
  mret (Some (framework_reply rq)).

Definition mcp_route (ctx : option RequestContext) (rq : HttpRequestIn)
  : M FederationState (option Reply) :=
  if decide (in_method rq = "POST") then
    extracted (json_rpc_body rq) (λ request, answer (handle_mcp (in_headers rq) ctx request))
  else if is_get (in_method rq) then answer (get_mcp (in_headers rq))
  else if decide (in_method rq = "DELETE") then answer (delete_mcp (in_headers rq))
  else unrouted rq.

Definition servers_route (rq : HttpRequestIn) : M FederationState (option Reply) :=
  if decide (in_method rq = "POST") then
    extracted (register_body rq) (λ request, in_world (register_server request))
  else if is_get (in_method rq) then answer (in_world list_servers)
  else unrouted rq.

Definition server_route (segment : string) (rq : HttpRequestIn)
  : M FederationState (option Reply) :=
  if is_get (in_method rq) then
    extracted (path_parameter segment) (λ alias, answer (in_world (get_server alias)))
  else if decide (in_method rq = "DELETE") then
    extracted (path_parameter segment) (λ alias, answer (in_world (deregister_server alias)))
  else unrouted rq.

(** The alias of [/api/v1/servers/{alias}]: one segment, not empty *)
Definition server_segment (path : string) : option string :=
  segment ← strip_prefix "/api/v1/servers/" path;
  if is_empty segment || contains "/" segment then None else Some segment.

Definition route (ctx : option RequestContext) (rq : HttpRequestIn)
  : M FederationState (option Reply) :=
  let path := in_uri_path rq in
  if decide (path = "/mcp") then mcp_route ctx rq
  else if decide (path = "/api/v1/servers") then servers_route rq
  else match server_segment path with
       | Some segment => server_route segment rq
       | None =>
           if bool_decide (path = "/healthz") && is_get (in_method rq) then mret (Some healthz)
           else if bool_decide (path = "/status") && is_get (in_method rq) then answer status_handler
           else unrouted rq
       end.

(** The application; [None] is a handler's panic. *)
Definition app (auth : AuthState) (rq : HttpRequestIn) : M FederationState (option Reply) :=
  if decide (in_method rq = "OPTIONS") then unrouted rq
  else
    t ← m_gets clock;
    match auth_middleware t auth {| in_path := in_uri_path rq;
                                    in_authorization := header_str "authorization" (in_headers rq) |}
    with
    | Unauthorized => mret (Some (reply 401 BEmpty))
    | Forward ctx => route ctx rq
    end.

(** ** Properties *)

Lemma starts_with_false p s r : starts_with p s = false → s ≠ p +:+ r.
Proof. intros Hs ->. by rewrite starts_with_app in Hs. Qed.

(** The paths that need no token lead to handlers that change nothing. *)
Lemma public_paths_inert ctx rq s :
  skip_auth (in_uri_path rq) = true → (route ctx rq s).2 = s.
Proof.
  intros Hskip. unfold route.
  assert (∀ p, starts_with "/swagger-ui" p = true → skip_auth p = true → p ≠ "/mcp" ∧
    p ≠ "/api/v1/servers" ∧ server_segment p = None) as Hsw.
  { intros p [r ->]%starts_with_spec _. by split_and!. }
  assert (in_uri_path rq ≠ "/mcp" ∧ in_uri_path rq ≠ "/api/v1/servers" ∧
    server_segment (in_uri_path rq) = None) as (H1' & H2' & ->).
  { destruct (starts_with "/swagger-ui" (in_uri_path rq)) eqn:Hs; [by apply Hsw|].
    unfold skip_auth in Hskip. rewrite Hs in Hskip. rewrite orb_false_r in Hskip.
    repeat (apply orb_true_iff in Hskip as [Hskip|Hskip]);
      apply bool_decide_eq_true in Hskip; by rewrite Hskip. }
  rewrite !decide_False by done.
  repeat case_match; try done. unfold answer, status_handler, in_world, lift_state. run_m.
  unfold render_status_html, all_leaves. run_m. by destruct s.
Qed.

End app.

(** ** Witness: the wrong token opens no route *)
Module Example.
Definition axum : Axum :=
  {| json_rpc_body := λ _, Err (reply 400 BEmpty);
     register_body := λ _, Ok Api.Example.gamma;
     path_parameter := λ s, Ok s;
     framework_reply := λ _, reply 404 BEmpty |}.
Definition auth : AuthState :=
  {| as_token := Some "root"; as_token_file := None; as_clients := [] |}.
Definition registration (token : string) : HttpRequestIn :=
  {| in_method := "POST"; in_uri_path := "/api/v1/servers";
     in_headers := [("authorization", Some ("Bearer " +:+ token))]; in_body := "" |}.
End Example.

