(* ===== verification/Nested.v ===== *)
(** * Nested: a federation behind a federation

    A federation speaks the protocol it expects of its leaves, so one can be a leaf of
    another ([docs/src/features/multi-level.md]).  Here the client of LeafClient.v talks to the
    application of App.v: [federation_at] says that the requests to a leaf's endpoint are
    answered by an inner federation, which may be in any state when each of them arrives.
    What lies between the two, the HTTP libraries and the framework, is described by
    [delivers] and [answers].  The theorems follow a call, a list of tools and a handshake
    from the outer federation to the inner one and back, the call also when the inner
    federation no longer knows the session of the outer one ([recovers]). *)
From S2P Require Import Prelude Text Json Protocol F64 Env Config RateLimit Rbac Session.
From S2P Require Import Notifications LeafClient Scenario Registry Aggregator Router Server.
From S2P Require Import Status Api App.
Open Scope string_scope.
Open Scope list_scope.

(** ** Between the two *)

(** The headers that the inner federation looks at *)
Definition read_headers : list string := ["authorization"; "accept"; MCP_SESSION_HEADER; "origin"].
Definition sent_headers (rq : HttpRequest) : Headers := (λ kv, (kv.1, Some kv.2)) <$> hq_headers rq.

(** A POST as it is received: the framework parses the body as it was printed. *)
Record delivers `{!Serde, !Axum} (rq : HttpRequest) (rin : HttpRequestIn) : Prop := {
  dl_method : in_method rin = "POST";
  dl_path : in_uri_path rin = "/mcp";
  dl_headers k : k ∈ read_headers →
    header_str k (in_headers rin) = header_str k (sent_headers rq);
  dl_body body request : hq_body rq = Some body → parse_request (to_string body) = Ok request →
    json_rpc_body rin = Ok request;
}.

(** A body as it is sent, with its content type *)
Definition carries `{!Serde} (b : Body) (content_type : option string) (bytes : string) : Prop :=
  match b with
  | BEmpty => content_type = None ∧ bytes = ""
  | BText t text => content_type = Some t ∧ bytes = text
  | BJson v => content_type = Some "application/json" ∧ bytes = to_string v
  | BEvent data =>
      content_type = Some "text/event-stream" ∧ bytes = "data: " +:+ data +:+ nl +:+ nl
  | BStream _ _ => content_type = Some "text/event-stream"
  end.

(** A reply as it is received; a handler that panics closes the connection. *)
Definition answers `{!Serde} (o : option Reply) (r : result string HttpResponse) : Prop :=
  match o with
  | None => ∃ e, r = Err e
  | Some rp =>
      ∃ h bytes, r = Ok h ∧ hp_status h = rp_status rp ∧
        header_str MCP_SESSION_HEADER (hp_headers h) = rp_session rp ∧
        body_bytes (hp_chunks h) = Ok bytes ∧
        carries (rp_body rp) (header_str "content-type" (hp_headers h)) bytes
  end.

Section nested.
Context `{!Serde, !SerdeLaws, !MapOrder, !Unicode, !Jwt, !HeaderValue, !Axum}.
(** The surroundings of the outer and of the inner federation *)
Context (oo oi : Os) (ho hi : Http).

(** The [n]-th request of the outer federation, if it is a POST to this endpoint, is
    answered by an inner federation in the state [inner n]. *)
Definition federation_at (url : string) (client : HttpClient) (auth : AuthState)
    (inner : nat → FederationState) : Prop :=
  ∀ n rq, hq_url rq = url → hq_method rq = POST →
    ∃ rin, delivers rq rin ∧
      answers (app (H := oi) (H0 := hi) auth rin (inner n)).1 (@Env.http ho client n rq).2.

(** The inner federation serves the requests of this client: no origins are configured, for
    the client sends none; the gate lets its credentials through, as [ctx]; its session, if
    it has one, is valid; and it is within its rate. *)
Record welcome (auth : AuthState) (c : LeafClient) (t : Z) (ctx : RequestContext)
    (s : FederationState) : Prop := {
  wl_origins : st_origins s = [];
  wl_gate : auth_middleware (H := oi) (clock s) auth
    {| in_path := "/mcp";
       in_authorization := (λ tok, "Bearer " +:+ tok) <$> resolve_auth_token (H := oo) t c |} =
    Forward (Some ctx);
  wl_session sid : streamable c = true → session_id c = Some sid →
    validate_session (H := oi) (clock s) (clock s) sid (st_sessions s) = true;
  wl_rate : within_rate s (Some ctx) = true;
}.

(** The inner registry when the request reaches its method *)
Definition inner_world (s : FederationState) : World :=
  (lift_state w_env set_env (fresh_uuid (H := oi)) (st_world s)).2.

(** ** One request *)
Lemma sent_headers_spec t c body :
  let headers := sent_headers (post_request (H := oo) t c body) in
  header_str "authorization" headers =
    ((λ tok, "Bearer " +:+ tok) <$> resolve_auth_token (H := oo) t c) ∧
  header_str "origin" headers = None ∧
  header_str "accept" headers =
    (if streamable c then Some "application/json, text/event-stream" else None) ∧
  header_str MCP_SESSION_HEADER headers = (if streamable c then session_id c else None).
Proof.
  unfold post_request, sent_headers, auth_header, session_header. cbn [hq_headers].
  destruct (resolve_auth_token _ _), (streamable c), (session_id c); by split_and!.
Qed.

Lemma parse_rpc_request id meth params :
  parse_request (to_string (rpc_request id meth params)) =
  Ok {| rq_jsonrpc := "2.0"; rq_id := Some (vint id); rq_method := meth; rq_params := canon params |}.
Proof. unfold parse_request. by rewrite from_str_to_string. Qed.

Lemma parse_notification :
  parse_request (to_string initialized_notification) =
  Ok {| rq_jsonrpc := "2.0"; rq_id := None; rq_method := "notifications/initialized";
        rq_params := json_obj [] |}.
Proof. unfold parse_request. by rewrite from_str_to_string. Qed.

(** What the inner federation answers, as JSON *)
Definition answer_of (request : JsonRpcRequest) (session : option string) (ctx : RequestContext)
    (s : FederationState) : Value :=
  response_to_value (dispatch (H := oi) (H0 := hi) request session ctx s).1.

(** The state in which the inner federation runs the method: admitting the request touched
    its session and took its token. *)
Definition admitted (s s1 : FederationState) : Prop :=
  st_world s1 = st_world s ∧ st_aggregator s1 = st_aggregator s.

(** A POST that is delivered passes the gate and runs the endpoint. *)
Lemma app_post auth c t body request s rin :
  delivers (post_request (H := oo) t c body) rin → parse_request (to_string body) = Ok request →
  (app (H := oi) (H0 := hi) auth rin s).1 =
  match auth_middleware (H := oi) (clock s) auth
    {| in_path := "/mcp";
       in_authorization := (λ tok, "Bearer " +:+ tok) <$> resolve_auth_token (H := oo) t c |}
  with
  | Unauthorized => Some (reply 401 BEmpty)
  | Forward ctx => Some (handle_mcp (H := oi) (H0 := hi) (in_headers rin) ctx request s).1
  end.
Proof.
  intros [Hm Hp Hh Hb] Hparse. destruct (sent_headers_spec t c body) as (Hauth & _).
  rewrite <- Hh in Hauth by (by apply (bool_decide_unpack _)).
  unfold app. rewrite Hm, Hauth, Hp, decide_False by done. run_m.
  destruct (auth_middleware _ _ _) as [|ctx]; [done|]. unfold route, mcp_route.
  rewrite Hm, Hp, !decide_True, (Hb body request) by done. unfold extracted, answer. run_m.
  by destruct (handle_mcp _ _ _ _).
Qed.
Lemma delivered_headers t c body rin :
  delivers (post_request (H := oo) t c body) rin →
  accepts_sse (in_headers rin) = streamable c ∧
  extract_session_id (in_headers rin) = (if streamable c then session_id c else None).
Proof.
  intros [_ _ Hh _]. destruct (sent_headers_spec t c body) as (_ & _ & Haccept & Hsid).
  rewrite <- Hh in Haccept, Hsid by (by apply (bool_decide_unpack _)).
  split; [unfold accepts_sse; rewrite Haccept|exact Hsid]; by destruct (streamable c).
Qed.

Lemma app_serves auth c t id meth params ctx s rin :
  delivers (post_request (H := oo) t c (rpc_request id meth params)) rin →
  welcome auth c t ctx s →
  ∃ s1 session sid, admitted s s1 ∧
    let v := answer_of {| rq_jsonrpc := "2.0"; rq_id := Some (vint id); rq_method := meth;
                          rq_params := canon params |} session ctx s1 in
    (app (H := oi) (H0 := hi) auth rin s).1 =
    Some {| rp_status := 200; rp_session := sid;
            rp_body := if streamable c then BEvent (to_string v) else BJson v |}.
Proof.
  intros Hd [Ho Hg Hs Hr]. set (request := {| rq_jsonrpc := "2.0" |}).
  destruct (delivered_headers _ _ _ _ Hd) as [Hacc Hsid].
  assert (session_ok (H := oi) s request (in_headers rin) = true) as Hok.
  { unfold session_ok. rewrite Hsid.
    destruct (streamable c); [|by rewrite orb_true_r].
    destruct (session_id c) as [sid|]; [|by rewrite orb_true_r].
    by rewrite Hs, orb_true_r. }
  rewrite (app_post auth c t _ request s rin Hd) by apply parse_rpc_request. rewrite Hg.
  rewrite handle_mcp_spec, Ho, Hok, Hr. cbv zeta.
  cbn [origin_allowed]. set (s1 := limited_state _ _).
  unfold serve. rewrite Hacc. run_m. unfold answer_of.
  exists s1, (extract_session_id (in_headers rin)).
  destruct (dispatch _ _ _ _) as [r s2].
  destruct (_ && _); [destruct (open_session r s2)|]; by eexists.
Qed.

Lemma frame_utf8 v : from_utf8_or_empty (frame v) = frame v.
Proof.
  unfold from_utf8_or_empty, frame. rewrite utf8_valid_app by done.
  by rewrite utf8_valid_app by apply to_string_utf8.
Qed.
Lemma carried_value c v ct bytes :
  carries (if streamable c then BEvent (to_string v) else BJson v) ct bytes →
  body_value (default "" ct) bytes = canon v.
Proof.
  unfold carries, body_value. destruct (streamable c); intros [-> ->]; cbn [default].
  - change (starts_with "text/event-stream" "text/event-stream") with true. cbn match.
    change ("data: " +:+ to_string v +:+ nl +:+ nl) with (frame v).
    by rewrite frame_utf8, parse_sse_body_frame.
  - change (starts_with "text/event-stream" "application/json") with false. cbn match.
    unfold from_slice. by rewrite to_string_utf8, from_str_to_string.
Qed.

(** The session header of a reply, as the client keeps it *)
Definition captured (sid : option string) (c : LeafClient) : LeafClient :=
  if streamable c then match sid with Some id => with_session (Some id) c | None => c end else c.

(** One request goes there and its reply comes back. *)
Lemma sent_reply auth c e inner body :
  federation_at (lc_url c) (lc_http c) auth inner →
  ∃ rin, delivers (post_request (H := oo) (now e) c body) rin ∧
    let '(r, (c', e')) := send_once (H := oo) (H0 := ho) body (c, e) in
    length (sent e') = S (length (sent e)) ∧
    match (app (H := oi) (H0 := hi) auth rin (inner (length (sent e)))).1 with
    | None => c' = c
    | Some rp =>
        c' = captured (rp_session rp) c ∧
        ∃ v, r = Ok (rp_status rp, v) ∧
          ∀ x, rp_body rp = (if streamable c then BEvent (to_string x) else BJson x) → v = canon x
    end.
Proof.
  intros Hfed. set (rq := post_request (H := oo) (now e) c body).
  destruct (Hfed (length (sent e)) rq eq_refl eq_refl) as (rin & Hd & Ha). exists rin. split; [done|].
  unfold send_once, send. fold rq. destruct (Env.http _ _ _) as [latency r]. cbn in Ha.
  destruct (app _ _ _).1 as [rp|]; cbn [answers] in Ha.
  - destruct Ha as (h & bytes & -> & Hst & Hsid & Hbytes & Hc).
    unfold MCP_SESSION_HEADER in Hsid. rewrite Hbytes, Hst, Hsid. cbn [sent]. rewrite length_app, Nat.add_comm. split; [done|].
    split; [done|]. eexists. split; [reflexivity|]. intros x Hx. rewrite Hx in Hc.
    by eapply carried_value.
  - destruct Ha as [err ->]. cbn [sent]. by rewrite length_app, Nat.add_comm.
Qed.

(** The request goes there and the answer comes back. *)
Lemma exchange auth c e inner id meth params ctx :
  federation_at (lc_url c) (lc_http c) auth inner →
  welcome auth c (now e) ctx (inner (length (sent e))) →
  ∃ s1 session, admitted (inner (length (sent e))) s1 ∧
    (send_once (H := oo) (H0 := ho) (rpc_request id meth params) (c, e)).1 =
    Ok (200%Z, canon (answer_of {| rq_jsonrpc := "2.0"; rq_id := Some (vint id); rq_method := meth;
                                   rq_params := canon params |} session ctx s1)).
Proof.
  intros Hfed Hwel. destruct (sent_reply auth c e inner (rpc_request id meth params) Hfed)
    as (rin & Hd & Hsent).
  destruct (app_serves auth c (now e) id meth params ctx _ rin Hd Hwel)
    as (s1 & session & sid & Hs1 & Happ).
  exists s1, session. split; [done|]. rewrite Happ in Hsent.
  destruct (send_once _ _) as [r [c' e']]. destruct Hsent as (_ & _ & v & -> & Hv). cbn [rp_status fst].
  by rewrite (Hv _ eq_refl).
Qed.

Lemma send_request_ok body c e v :
  (send_once (H := oo) (H0 := ho) body (c, e)).1 = Ok (200%Z, v) →
  (send_request (H := oo) (H0 := ho) body (c, e)).1 = Ok v.
Proof.
  intros Hv. unfold send_request. run_m. destruct (send_once _ _) as [r [c1 e1]]. cbn in Hv. subst r.
  by destruct (streamable c1).
Qed.

Lemma welcome_next_id auth c t ctx s n : welcome auth c t ctx s → welcome auth (with_next_id n c) t ctx s.
Proof. intros []. by split. Qed.

(** *** A session that was lost *)

(** The inner federation no longer knows the session: it has expired, was terminated, or the
    inner federation was started again. *)
Record lost (auth : AuthState) (c : LeafClient) (t : Z) (s : FederationState) : Prop := {
  lo_origins : st_origins s = [];
  lo_gate : ∃ ctx, auth_middleware (H := oi) (clock s) auth
    {| in_path := "/mcp";
       in_authorization := (λ tok, "Bearer " +:+ tok) <$> resolve_auth_token (H := oo) t c |} =
    Forward ctx;
  lo_streamable : streamable c = true;
  lo_session : ∃ sid, session_id c = Some sid ∧
    validate_session (H := oi) (clock s) (clock s) sid (st_sessions s) = false;
}.
(** A session that the federation offers in its reply to a handshake *)
Definition granted (auth : AuthState) (s : FederationState) (sid : string) : Prop :=
  ∃ t c id rin rp,
    delivers (post_request (H := oo) t c (rpc_request id "initialize" initialize_params)) rin ∧
    (app (H := oi) (H0 := hi) auth rin s).1 = Some rp ∧ rp_session rp = Some sid.
(** The first request meets a federation that lost the session, the second one that serves a
    new handshake, the fourth one that knows the session of that handshake. *)
Record recovers (auth : AuthState) (c : LeafClient) (e : Env) (inner : nat → FederationState)
    (ctx : RequestContext) : Prop := {
  rc_lost : lost auth c (now e) (inner (length (sent e)));
  rc_again : ∃ ctx1, ∀ t, welcome auth (with_session None c) t ctx1 (inner (S (length (sent e))));
  rc_back t session :
    (∀ sid, session = Some sid → granted auth (inner (S (length (sent e)))) sid) →
    welcome auth (with_session session c) t ctx (inner (S (S (S (length (sent e))))));
}.
(** The state of the inner federation in which a request of the client is served *)
Inductive reaches auth c e inner ctx : FederationState → Prop :=
| reaches_at_once :
    welcome auth c (now e) ctx (inner (length (sent e))) →
    reaches auth c e inner ctx (inner (length (sent e)))
| reaches_again :
    recovers auth c e inner ctx →
    reaches auth c e inner ctx (inner (S (S (S (length (sent e)))))).

Lemma reaches_next_id auth c e inner ctx s n :
  reaches auth c e inner ctx s → reaches auth (with_next_id n c) e inner ctx s.
Proof.
  intros [Hwel|[[] [ctx1 Hagain] Hback]]; constructor; [by apply welcome_next_id|]. split; [by split| |].
  - exists ctx1. intros t. by apply (welcome_next_id _ (with_session None c)).
  - intros t session Hs. by apply (welcome_next_id _ (with_session session c)), Hback.
Qed.

Lemma app_refuses auth c t id meth params s rin :
  delivers (post_request (H := oo) t c (rpc_request id meth params)) rin →
  lost auth c t s → meth ≠ "initialize" →
  (app (H := oi) (H0 := hi) auth rin s).1 = Some unknown_session.
Proof.
  intros Hd [Ho [ctx Hg] Hs (sid & Hsid & Hv)] Hm. set (request :=
    {| rq_jsonrpc := "2.0"; rq_id := Some (vint id); rq_method := meth; rq_params := canon params |}).
  destruct (delivered_headers _ _ _ _ Hd) as [_ Hid]. rewrite Hs, Hsid in Hid.
  rewrite (app_post auth c t _ request s rin Hd) by apply parse_rpc_request.
  rewrite Hg, handle_mcp_spec, Ho. cbn [origin_allowed]. unfold session_ok. rewrite Hid, Hv.
  by rewrite bool_decide_eq_false_2.
Qed.
(** Only a handshake opens a session. *)
Lemma app_no_session auth c t body request s rin rp :
  delivers (post_request (H := oo) t c body) rin → parse_request (to_string body) = Ok request →
  rq_method request ≠ "initialize" →
  (app (H := oi) (H0 := hi) auth rin s).1 = Some rp → rp_session rp = None.
Proof.
  intros Hd Hp Hm. rewrite (app_post auth c t body request s rin Hd Hp).
  destruct (auth_middleware _ _ _) as [|ctx]; [by intros [= <-]|]. rewrite handle_mcp_spec.
  destruct (origin_allowed _ _); [|by intros [= <-]].
  destruct (session_ok _ _ _); [|by intros [= <-]]. cbv zeta.
  destruct (within_rate _ _); [|by intros [= <-]]. unfold serve. run_m.
  rewrite bool_decide_eq_false_2 by done. destruct (dispatch _ _ _ _) as [r s2]. by intros [= <-].
Qed.

Lemma reinit auth c e inner ctx :
  federation_at (lc_url c) (lc_http c) auth inner → streamable c = true →
  (∀ t, welcome auth (with_session None c) t ctx (inner (length (sent e)))) →
  let '(r, (c', e')) := initialize (H := oo) (H0 := ho) (c, e) in
  (∃ v, r = Ok v) ∧ length (sent e') = S (S (length (sent e))) ∧
  ∃ k session, c' = with_next_id k (with_session session c) ∧
    ∀ sid, session = Some sid → granted auth (inner (length (sent e))) sid.
Proof.
  intros Hfed Hs Hwel. set (k := ((next_id c + 1) mod 2 ^ 64)%Z).
  set (c2 := with_next_id k (with_session None c)).
  destruct (sent_reply auth c2 e inner (rpc_request (next_id c) "initialize" initialize_params) Hfed)
    as (rin & Hd & Hsent).
  destruct (app_serves auth c2 (now e) (next_id c) "initialize" initialize_params ctx
              (inner (length (sent e))) rin Hd)
    as (s1 & session & sid & _ & Happ); [apply welcome_next_id, Hwel|].
  rewrite Happ in Hsent. unfold initialize. run_m. rewrite Hs. unfold m_when.
  cbn [set_session next_request_id]. change (next_id (with_session None c)) with (next_id c). fold k c2.
  destruct (send_once _ (c2, e)) as [r [c3 e3]]. destruct Hsent as (Hn & -> & v & -> & Hv).
  specialize (Hv _ eq_refl). subst v. cbn [rp_status rp_session].
  change (is_success 200) with true. cbn match.
  set (c3 := captured sid c2).
  assert (c3 = with_next_id k (with_session sid c)) as Hc3.
  { unfold c3, captured. change (streamable c2) with (streamable c). rewrite Hs. by destruct sid, c. }
  assert (federation_at (lc_url c3) (lc_http c3) auth inner) as Hfed3 by (by rewrite Hc3).
  destruct (sent_reply auth c3 e3 inner initialized_notification Hfed3) as (rin2 & Hd2 & Hsent2).
  destruct (send_once _ (c3, e3)) as [r2 [c4 e4]]. destruct Hsent2 as [Hn2 Hc4].
  assert (c4 = c3) as ->.
  { destruct (app (H := oi) (H0 := hi) auth rin2 (inner (length (sent e3)))).1 as [rp|] eqn:Hrp;
      [|done]. destruct Hc4 as [-> _].
    rewrite (app_no_session auth c3 (now e3) initialized_notification _ _ rin2 rp Hd2
      parse_notification) by done. unfold captured. by destruct (streamable c3). }
  split; [|split; [by rewrite Hn2, Hn|]].
  - eexists. reflexivity.
  - exists k, sid. split; [done|]. intros id ->. eexists _, c2, _, rin, _. split_and!; [exact Hd|exact Happ|done].
Qed.

(** A request gets through, at once or with a new session. *)
Lemma request_served auth c e inner ctx s id meth params :
  federation_at (lc_url c) (lc_http c) auth inner → reaches auth c e inner ctx s →
  meth ≠ "initialize" →
  ∃ s1 session, admitted s s1 ∧
    (send_request (H := oo) (H0 := ho) (rpc_request id meth params) (c, e)).1 =
    Ok (canon (answer_of {| rq_jsonrpc := "2.0"; rq_id := Some (vint id); rq_method := meth;
                            rq_params := canon params |} session ctx s1)).
Proof.
  intros Hfed [Hwel|[Hlost [ctx1 Hagain] Hback]] Hm.
  { destruct (exchange auth c e inner id meth params ctx Hfed Hwel) as (s1 & session & Hs1 & Hex).
    exists s1, session. split; [done|]. by apply send_request_ok. }
  destruct (sent_reply auth c e inner (rpc_request id meth params) Hfed) as (rin & Hd & Hsent).
  rewrite (app_refuses _ _ _ _ _ _ _ _ Hd Hlost Hm) in Hsent.
  unfold send_request. run_m. destruct (send_once _ (c, e)) as [r [c1 e1]].
  destruct Hsent as (Hn & -> & v & -> & _).
  change (rp_session unknown_session) with (@None string). change (rp_status unknown_session) with 404%Z.
  assert (captured None c = c) as -> by (unfold captured; by destruct (streamable c)).
  rewrite (lo_streamable _ _ _ _ Hlost). cbn [andb orb]. rewrite Z.eqb_refl. cbn [orb andb].
  unfold reinit_and_retry. run_m.
  pose proof (reinit auth c e1 inner ctx1 Hfed (lo_streamable _ _ _ _ Hlost)) as Hre.
  rewrite Hn in Hre. specialize (Hre Hagain).
  destruct (initialize (c, e1)) as [r2 [c2 e2]]. destruct Hre as ([v2 ->] & Hn2 & k & session & -> & Hg).
  set (c2 := with_next_id k (with_session session c)).
  destruct (exchange auth c2 e2 inner id meth params ctx) as (s1 & session1 & Hs1 & Hex); [done| |].
  { rewrite Hn2. by apply welcome_next_id, Hback. }
  exists s1, session1. rewrite Hn2 in Hs1. split; [done|].
  destruct (send_once _ (c2, e2)) as [r3 [c3 e3]]. cbn [fst] in Hex. by subst r3.
Qed.

(** *** Operations *)
Notation request_of id meth params :=
  {| rq_jsonrpc := "2.0"; rq_id := Some (vint id); rq_method := meth; rq_params := canon params |}.

(** What the client makes of the inner federation's response *)
Definition relayed (c : LeafClient) (r : JsonRpcResponse) : result FederationError Value :=
  match rs_error r with
  | Some err => Err (LeafError (lc_alias c) (err_message err))
  | None => Ok (canon (vopt (rs_result r)))
  end.

Lemma read_response r :
  get "error" (canon (response_to_value r)) = canon ∘ error_to_value <$> rs_error r ∧
  get "result" (canon (response_to_value r)) = canon <$> rs_result r.
Proof. by destruct r as [j [i|] [x|] [[code m]|]]. Qed.
Lemma read_message err : get_str "message" (canon (error_to_value err)) = Some (err_message err).
Proof. by destruct err. Qed.

Lemma call_relayed auth c e inner ctx s meth missing params :
  federation_at (lc_url c) (lc_http c) auth inner → reaches auth c e inner ctx s →
  meth ≠ "initialize" →
  ∃ s1 session id, admitted s s1 ∧
    (call_op (H := oo) (H0 := ho) meth missing params (c, e)).1 =
    relayed c (dispatch (H := oi) (H0 := hi) (request_of id meth params) session ctx s1).1.
Proof.
  intros Hfed Hre Hm. set (n := ((next_id c + 1) mod 2 ^ 64)%Z).
  destruct (request_served auth (with_next_id n c) e inner ctx s (next_id c) meth params Hfed)
    as (s1 & session & Hs1 & Hex); [by apply reaches_next_id|done|].
  exists s1, session, (next_id c). split; [done|]. unfold answer_of in Hex.
  pose proof (dispatch_replies_to (H := oi) (H0 := hi) (request_of (next_id c) meth params)
    session ctx s1) as (_ & _ & Hwf).
  revert Hex Hwf. generalize (dispatch (H := oi) (H0 := hi) (request_of (next_id c) meth params)
    session ctx s1).1. intros resp Hex Hwf.
  unfold call_op. run_m. cbn [next_request_id]. fold n.
  destruct (send_request _ _) as [r [c1 e1]] eqn:Hsr. cbn [fst] in Hex. subst r.
  assert (lc_alias c1 = lc_alias c) as Ha.
  { pose proof (send_request_spec (H := oo) (H0 := ho)
      (rpc_request (next_id c) meth params) (with_next_id n c) e) as Hs.
    rewrite Hsr in Hs. destruct Hs as [-> _]. by destruct c. }
  destruct (read_response resp) as [-> ->]. unfold response_wf, relayed in *.
  destruct (rs_result resp) as [v|], (rs_error resp) as [err|]; try discriminate Hwf; [done|].
  cbn [fmap option_fmap option_map]. unfold compose. rewrite read_message. unfold leaf_error.
  by rewrite <- Ha.
Qed.

(** The inner federation's methods *)
Lemma dispatch_world request session ctx s s1 {A} (m : M World A) (f : A → JsonRpcResponse) :
  admitted s s1 →
  (∀ s, (dispatch_method (H := oi) (H0 := hi) request session ctx s).1 = f (m (st_world s)).1) →
  (dispatch (H := oi) (H0 := hi) request session ctx s1).1 = f (m (inner_world s)).1.
Proof.
  intros [Hw _] Hm. change ((dispatch (H := oi) (H0 := hi) request session ctx s1).1) with
    (dispatch_method (H := oi) (H0 := hi) request session ctx (in_env (fresh_uuid (H := oi)) s1).2).1.
  rewrite Hm. unfold inner_world. by rewrite <- Hw.
Qed.
(** What the inner federation makes of a call, for the caller [ctx] *)
Definition inner_tool_call (ctx : RequestContext) (alias item : string) (args : Value) (w : World)
  : result string Value :=
  if allows_alias ctx alias
  then map_err error_text (route_tool_call (H := oi) (H0 := hi) (qualify alias item) args w).1
  else Err ("access denied: client is not permitted to use leaf '" +:+ alias +:+ "'").

(** A result or the text of an error, as the outer federation gets it from its leaf *)
Definition back (c : LeafClient) (r : result string Value) : result FederationError Value :=
  match r with Ok v => Ok (canon v) | Err text => Err (LeafError (lc_alias c) text) end.

Lemma relayed_routed c request r : relayed c (routed request r) = back c (map_err error_text r).
Proof. by destruct r. Qed.

Lemma routed_in_world request m u :
  ((result ← in_world m; mret (routed request result)) u).1 = routed request (m (st_world u)).1.
Proof. unfold in_world, lift_state. run_m. by destruct (m _). Qed.

Lemma inner_call session ctx id s s1 b item args c :
  admitted s s1 → routable b = true →
  relayed c (dispatch (H := oi) (H0 := hi) (request_of id "tools/call"
    (json_obj [("name", VString (qualify b item)); ("arguments", args)])) session ctx s1).1 =
  back c (inner_tool_call ctx b item (canon args) (inner_world s)).
Proof.
  intros Hs1 Hb. set (request := request_of _ _ _).
  assert (parse_namespaced_name (qualify b item) = Some (b, item)) as Hp by by apply parse_qualify.
  rewrite (dispatch_world request session ctx s s1
    (route_tool_call (H := oi) (H0 := hi) (qualify b item) (canon args))
    (λ r, if allows_alias ctx b then routed request r
          else error_response request (-32000)
            ("access denied: client is not permitted to use leaf '" +:+ b +:+ "'"))); [|done|].
  - unfold inner_tool_call. destruct (allows_alias ctx b); [by apply relayed_routed|done].
  - intros u. change (dispatch_method request session ctx u) with
      (handle_tools_call (H := oi) (H0 := hi) request ctx u).
    unfold handle_tools_call. change (str_param "name" (rq_params request)) with (qualify b item).
    change (index "arguments" (rq_params request)) with (canon args). rewrite Hp.
    destruct (allows_alias ctx b); [|done]. cbn [negb]. rewrite andb_false_r.
    apply routed_in_world.
Qed.
Lemma inner_routed c request session ctx s s1 m :
  admitted s s1 →
  (∀ u, (dispatch_method (H := oi) (H0 := hi) request session ctx u).1 =
        ((result ← in_world m; mret (routed request result)) u).1) →
  relayed c (dispatch (H := oi) (H0 := hi) request session ctx s1).1 =
  back c (map_err error_text (m (inner_world s)).1).
Proof.
  intros Hs1 Hm. rewrite <- (relayed_routed c request). f_equal.
  apply dispatch_world; [done|]. intros u. rewrite Hm. apply routed_in_world.
Qed.


(** The tools the inner federation shows to [ctx] *)
Definition shown (ctx : RequestContext) (agg : Aggregator) (w : World) : list Value :=
  let tools := (aggregated_tools agg w).1 in
  match ctx_allowed ctx with
  | Some _ => filter (λ t, visible ctx t = true) tools
  | None => tools
  end.

Lemma inner_list session ctx id s s1 :
  admitted s s1 →
  (dispatch (H := oi) (H0 := hi) (request_of id "tools/list" (json_obj [])) session ctx s1).1 =
  success_response (request_of id "tools/list" (json_obj []))
    (json_obj [("tools", VArray (shown ctx (st_aggregator s) (inner_world s)))]).
Proof.
  intros [Hw Ha]. set (request := request_of _ _ _).
  set (u := (in_env (fresh_uuid (H := oi)) s1).2).
  change ((dispatch (H := oi) (H0 := hi) request session ctx s1).1) with
    (handle_tools_list request ctx u).1.
  assert (st_aggregator u = st_aggregator s) as Hu by exact Ha.
  assert (st_world u = inner_world s) as Hu' by (unfold inner_world; by rewrite <- Hw).
  unfold handle_tools_list, in_world, lift_state, shown. run_m. rewrite Hu, Hu'.
  destruct (aggregated_tools _ _) as [tools w]. by destruct (ctx_allowed ctx).
Qed.

Lemma listed_back id tools :
  list_of "tools" (canon (response_to_value (success_response (request_of id "tools/list" (json_obj []))
    (json_obj [("tools", VArray tools)])))) = canon <$> tools.
Proof. reflexivity. Qed.

Lemma list_relayed auth c e inner ctx :
  let s := inner (length (sent e)) in
  federation_at (lc_url c) (lc_http c) auth inner → welcome auth c (now e) ctx s →
  (list_tools (H := oo) (H0 := ho) (c, e)).1 =
  Ok (canon <$> shown ctx (st_aggregator s) (inner_world s)).
Proof.
  intros s Hfed Hwel. set (n := ((next_id c + 1) mod 2 ^ 64)%Z).
  destruct (exchange auth (with_next_id n c) e inner (next_id c) "tools/list" (json_obj []) ctx Hfed)
    as (s1 & session & Hs1 & Hex); [by apply welcome_next_id|].
  apply send_request_ok in Hex. unfold answer_of in Hex. rewrite (inner_list _ _ _ s) in Hex by done.
  unfold list_tools, list_op. run_m. cbn [next_request_id]. fold n.
  destruct (send_request _ _) as [r [c1 e1]]. cbn [fst] in Hex. subst r. by rewrite listed_back.
Qed.

Lemma handshake_relayed auth c e inner ctx :
  federation_at (lc_url c) (lc_http c) auth inner →
  welcome auth (with_session None c) (now e) ctx (inner (length (sent e))) →
  (initialize (H := oo) (H0 := ho) (c, e)).1 =
  Ok (canon (vopt (rs_result (handle_initialize (request_of 0 "initialize" initialize_params))))).
Proof.
  intros Hfed Hwel. set (c1 := if streamable c then with_session None c else c).
  set (c2 := with_next_id ((next_id c1 + 1) mod 2 ^ 64) c1).
  assert (lc_url c2 = lc_url c ∧ lc_http c2 = lc_http c) as [Hu Hc]
    by (unfold c2, c1; by destruct (streamable c)).
  destruct (exchange auth c2 e inner (next_id c1) "initialize" initialize_params ctx)
    as (s1 & session & _ & Hex); [by rewrite Hu, Hc| |].
  { apply welcome_next_id. unfold c1. destruct (streamable c) eqn:Hs; [done|].
    destruct Hwel as [Ho Hg _ Hr]. split; try done. intros sid. by rewrite Hs. }
  unfold answer_of in Hex. change ((dispatch _ session ctx s1).1) with
    (handle_initialize (request_of (next_id c1) "initialize" initialize_params)) in Hex.
  unfold initialize. run_m.
  assert ((if streamable c then set_session None else λ s : LeafClient * Env, (tt, s)) (c, e) =
          (tt, (c1, e))) as -> by (unfold c1; by destruct (streamable c)).
  cbn [next_request_id]. fold c2. destruct (send_once _ _) as [r [c3 e3]]. cbn [fst] in Hex. subst r.
  change (is_success 200) with true. cbn match. 
  cbv beta. by destruct (send_once (H := oo) (H0 := ho) initialized_notification (c3, e3)).
Qed.

Lemma refreshed l w e tools :
  w_heap w !! l = Some e →
  (list_tools (H := oo) (H0 := ho) (le_client e, w_env w)).1 = Ok tools →
  let '(r, w') := refresh_leaf (H := oo) (H0 := ho) l w in
  r = Ok (length tools) ∧ w_leaves w' = w_leaves w ∧ cached_tools (entry l w') = tools ∧
  le_health (entry l w') = le_health e ∧ le_config (entry l w') = le_config e.
Proof.
  intros He Hl. unfold refresh_leaf, on_client, store_tools, update_now, update. run_m.
  rewrite (entry_lookup _ _ _ He). destruct (list_tools _) as [r [c' e']]. cbn in Hl. subst r.
  split_and!; [done|done|..]; unfold entry; cbn;
    rewrite !lookup_total_alt, !lookup_alter_eq, He; done.
Qed.


End nested.

(** ** Witnesses: the deployment of Scenario.v behind an outer federation *)
Module Example.
#[export] Existing Instances Scenario.serde Json.Example.serde_laws Scenario.mo
  Router.Example.unicode Session.Example.jwt Server.Example.header_value.
#[export] Instance axum : Axum :=
  {| json_rpc_body := λ rin, match parse_request (in_body rin) with
                             | Ok request => Ok request | Err _ => Err (reply 400 BEmpty) end;
     register_body := λ _, Err (reply 400 BEmpty); path_parameter := λ s, Ok s;
     framework_reply := λ _, reply 404 BEmpty |}.
Definition auth : AuthState := {| as_token := None; as_token_file := None; as_clients := [] |}.
Definition inner (n : nat) : FederationState :=
  {| st_world := Registry.Example.w1; st_aggregator := Aggregator.Example.agg;
     st_sessions := Session.Example.mgr; st_origins := [];
     st_limiter := RateLimiter_new RateLimitConfig_default |}.

Definition receive (rq : HttpRequest) : HttpRequestIn :=
  {| in_method := match hq_method rq with POST => "POST" | GET => "GET" end; in_uri_path := "/mcp";
     in_headers := sent_headers rq;
     in_body := match hq_body rq with Some body => to_string body | None => "" end |}.
Definition bytes_of (b : Body) : option string * string :=
  match b with
  | BEmpty => (None, "")
  | BText t text => (Some t, text)
  | BJson v => (Some "application/json", to_string v)
  | BEvent data => (Some "text/event-stream", "data: " +:+ data +:+ nl +:+ nl)
  | BStream _ _ => (Some "text/event-stream", "")
  end.
Definition respond (o : option Reply) : result string HttpResponse :=
  match o with
  | None => Err "connection closed"
  | Some rp =>
      Ok {| hp_status := rp_status rp;
            hp_headers := ("content-type", (bytes_of (rp_body rp)).1) ::
                          [(MCP_SESSION_HEADER, rp_session rp)];
            hp_chunks := [Ok (bytes_of (rp_body rp)).2] |}
  end.
Definition network (inner : nat → FederationState) : Http :=
  {| Env.http := λ _ n rq, (0%Z, respond (app (H := Scenario.os) (H0 := Scenario.http) auth
                                          (receive rq) (inner n)).1);
     status_text := λ s, fmt_N (Z.to_N s); status_error := λ s, fmt_N (Z.to_N s);
     certificate := λ _, Err "no certificate" |}.

Lemma respond_answers o : answers o (respond o).
Proof.
  destruct o as [[st sid b]|]; [|by eexists]. eexists _, ((bytes_of b).2 +:+ "").
  split_and!; [done..|]. destruct b; cbn; by rewrite ?str_app_nil_r.
Qed.
Lemma network_federation inner url client :
  federation_at Scenario.os (network inner) Scenario.http url client auth inner.
Proof.
  intros n rq _ Hm. exists (receive rq). split; [|apply respond_answers].
  split; [cbn; by rewrite Hm|done|done|]. intros body request Hb Hp.
  unfold json_rpc_body, axum, receive. cbn [in_body]. by rewrite Hb, Hp.
Qed.
Lemma anyone_welcome c t ctx n :
  streamable c = false → ctx = anonymous → resolve_auth_token (H := Scenario.os) t c = None →
  welcome Scenario.os Scenario.os auth c t ctx (inner n).
Proof.
  intros Hs -> Ht. split; [done|by rewrite Ht| |reflexivity]. intros sid. by rewrite Hs.
Qed.
Definition w : World := Registry.Example.w1.

(** The leaf speaks the streamable transport, and the inner federation forgot its session;
    it has the one of the new handshake when the call comes again. *)
Definition streaming (c : LeafClient) : LeafClient :=
  {| lc_alias := lc_alias c; lc_url := lc_url c; lc_transport := StreamableHttp; lc_http := lc_http c;
     lc_auth_token := lc_auth_token c; lc_auth_token_file := lc_auth_token_file c;
     session_id := Some "forgotten"; next_id := next_id c |}.
Definition w_lost : World :=
  set_heap (alter (λ e, set_client (streaming (le_client e)) e) 0%nat (w_heap w)) w.
Definition c_lost : LeafClient := le_client (entry 0 w_lost).
Definition asked : nat := length (sent (w_env w_lost)).
Definition handshake : JsonRpcRequest :=
  {| rq_jsonrpc := "2.0"; rq_id := Some (vint 1); rq_method := "initialize";
     rq_params := initialize_params |}.
Definition renewed : FederationState :=
  (handle_mcp (H := Scenario.os) (H0 := Scenario.http) [] None handshake (inner 0)).2.
Definition forgetful (n : nat) : FederationState :=
  if decide (n = S (S (S asked))) then renewed else inner n.

Lemma forgetful_forgets n : (n < S (S (S asked)))%nat → forgetful n = inner 0.
Proof. intros Hn. unfold forgetful. rewrite decide_False by lia. reflexivity. Qed.
Notation gate_at t c := (auth_middleware (H := Scenario.os) t auth
  {| in_path := "/mcp";
     in_authorization := (λ tok, "Bearer " +:+ tok) <$> resolve_auth_token (H := Scenario.os) t c |}).
Lemma granted_valid sid :
  granted Scenario.os Scenario.os Scenario.http auth (inner 0) sid →
  validate_session (H := Scenario.os) (clock renewed) (clock renewed) sid (st_sessions renewed) = true.
Proof.
  intros (t & c & id & rin & rp & Hd & Happ & Hsid). set (request :=
    {| rq_jsonrpc := "2.0"; rq_id := Some (vint id); rq_method := "initialize";
       rq_params := canon initialize_params |}).
  rewrite (app_post _ _ _ auth c t _ request _ rin Hd) in Happ by apply parse_rpc_request.
  change (auth_middleware _ _ _) with (Forward (Some anonymous)) in Happ. cbn match in Happ.
  rewrite handle_mcp_spec in Happ. change (origin_allowed _ _) with true in Happ.
  change (session_ok _ _ _) with true in Happ. cbv zeta in Happ. cbn match in Happ.
  assert (within_rate (inner 0) (Some anonymous) = true) as Hr by (vm_compute; reflexivity).
  rewrite Hr in Happ. cbn match in Happ.
  match type of Happ with context [serve ?h ?x ?r ?s] =>
    pose proof (serve_initialize (H := Scenario.os) (H0 := Scenario.http) h x r s eq_refl) as Hserve end.
  destruct (serve _ _ _ _) as [rp1 s1]. destruct Hserve as (sid1 & Hc & Hrp & _).
  injection Happ as <-. rewrite Hsid in Hrp. injection Hrp as <-.
  apply (f_equal fst) in Hc. cbn [fst] in Hc. rewrite <- Hc. vm_compute. reflexivity.
Qed.
Lemma forgetful_recovers :
  recovers Scenario.os Scenario.os Scenario.http auth c_lost (w_env w_lost) forgetful anonymous.
Proof.
  split; fold asked.
  - rewrite forgetful_forgets by lia. split; [reflexivity|by eexists|reflexivity|].
    exists "forgotten". split; vm_compute; reflexivity.
  - exists anonymous. intros t. rewrite forgetful_forgets by lia. split; try reflexivity. done.
  - intros t session Hs. rewrite forgetful_forgets in Hs by lia.
    unfold forgetful. rewrite decide_True by done. split; [reflexivity|reflexivity| |vm_compute; reflexivity].
    intros sid _ Hsid. apply granted_valid, Hs, Hsid.
Qed.
End Example.
Import Example.

