(* ===== verification/Main.v ===== *)
(** * Main: start-up and the command line ([src/main.rs])

    [main] reads the command line and the configuration, builds the registry,
    initialises the leaves and puts the state together.  What it ends in is data: an exit,
    the table of [--list-tools], or a running server ([Running], with what was started in
    the background).  How the server then comes up is in Serve.v, the log set-up is not modelled; the ten
    seconds that [--list-tools] waits at most are enough here, and end in ListTools.v. *)
From S2P Require Import Prelude Text Json Protocol F64 Env Config RateLimit Rbac Session.
From S2P Require Import Notifications LeafClient Scenario Registry Health Aggregator Router.
From S2P Require Import Server DnsDiscovery CrdDiscovery.
Open Scope string_scope.
Open Scope list_scope.

(** [Cli] *)
Record Cli := {
  cli_config : string;
  cli_http : bool;
  cli_listen : option string;
  cli_auth_token : option string;
  cli_auth_token_file : option string;
  cli_tls_cert : option string;
  cli_tls_key : option string;
  cli_list_tools : bool;
  cli_validate : bool;
}.

Inductive Serving : Type :=
| OnHttp (listen : string) (auth : AuthState)
| OnHttps (listen cert key : string) (auth : AuthState) (shutdown_timeout : Z)
| OnStdio.

Record Running := {
  r_state : FederationState;
  r_serving : Serving;
  r_monitors : list nat;                     (** the leaves that have a health monitor *)
  r_dns : option Z;                          (** the interval of the DNS polls *)
  r_crd : option (option string);            (** the namespace the controller watches *)
  r_reloads : bool;                          (** whether SIGHUP is handled *)
}.

Inductive Outcome : Type :=
| Exits (code : Z) (message : string)
| Lists (table : list string) (warning : option string)
| Runs (r : Running).

(** ** The table of [--list-tools] *)

(** [sort_by], which is stable, of rows compared by leaf and then by tool *)
Definition str_compare : string → string → comparison := String.compare.
Definition row_le (a b : string * string * string) : bool :=
  match str_compare a.1.1 b.1.1 with
  | Lt => true
  | Gt => false
  | Eq => match str_compare a.1.2 b.1.2 with Gt => false | _ => true end
  end.
Fixpoint insert_row (r : string * string * string) (rows : list (string * string * string)) :=
  match rows with
  | [] => [r]
  | x :: rows => if row_le r x then r :: x :: rows else x :: insert_row r rows
  end.
Definition sort_rows := foldr insert_row [].

Definition tool_row (tool : Value) : string * string * string :=
  let namespaced := default "" (get_str "name" tool) in
  let description := default "" (get_str "description" tool) in
  match split_once "__" namespaced with
  | Some (a, n) => (a, n, description)
  | None => ("", namespaced, description)
  end.

(** [{:<w$}] counts characters, the widths are in bytes. *)
Definition pad_right (w : nat) (s : string) : string :=
  s +:+ String.concat "" (replicate (w - length (chars s)) " ").
Definition table_line (alias_w name_w : nat) (a n d : string) : string :=
  pad_right alias_w a +:+ "  " +:+ pad_right name_w n +:+ "  " +:+ d.
Definition width (title : string) (cells : list string) : nat :=
  foldr Nat.max (String.length title) (String.length <$> cells).

Definition table_rows (tools : list Value) := sort_rows (tool_row <$> tools).
Definition tools_table (tools : list Value) : list string :=
  let rows := table_rows tools in
  let alias_w := width "Leaf" ((λ r, r.1.1) <$> rows) in
  let name_w := width "Tool" ((λ r, r.1.2) <$> rows) in
  let dashes w := String.concat "" (replicate w "-") in
  table_line alias_w name_w "Leaf" "Tool" "Description" ::
  table_line alias_w name_w (dashes alias_w) (dashes name_w) "-----------" ::
  ((λ r, table_line alias_w name_w r.1.1 r.1.2 r.2) <$> rows).

Definition omitted (unreachable : list string) : option string :=
  if unreachable is [] then None
  else Some ("warning: unreachable leaves omitted: " +:+ join ", " unreachable).

Section main.
Context `{!Os, !Http, !Serde, !MapOrder, !Yaml, !Base64}.

Definition print_tools_table (aggregator : Aggregator)
  : M World (list string * option string) :=
  tools ← aggregated_tools aggregator;
  leaves ← all_leaves;
  unreachable ← m_gets (λ w, (λ l, le_alias (entry l w)) <$>
    filter (λ l, le_health (entry l w) = Unhealthy) leaves);
  mret (tools_table tools, omitted unreachable).

(** A listener for every leaf with the streamable transport *)
Definition spawn_listener (l : nat) : M World unit :=
  transport ← m_gets (λ w, Config.transport (le_config (entry l w)));
  if decide (transport = StreamableHttp) then
    r ← m_gets (λ w, listen_notifications (le_client (entry l w)));
    match r with Ok _ => spawn (TListen l) | Err _ => mret tt end
  else mret tt.
Definition spawn_leaf_notification_listeners : M World unit :=
  leaves ← all_leaves;
  m_iter spawn_listener leaves.

Definition or_else {A} (a b : option A) : option A := if a is Some x then Some x else b.

(** How the server is reached; [None] when only one of the TLS options is given *)
Definition serving_of (cli : Cli) (f : FederationSettings) : option Serving :=
  let listen := default (Config.listen f) (cli_listen cli) in
  let auth := {| as_token := or_else (cli_auth_token cli) (fed_auth_token f);
                 as_token_file := or_else (cli_auth_token_file cli) (fed_auth_token_file f);
                 as_clients := clients f |} in
  if cli_http cli then
    match cli_tls_cert cli, cli_tls_key cli with
    | Some cert, Some key => Some (OnHttps listen cert key auth (shutdown_timeout_seconds f))
    | None, None => Some (OnHttp listen auth)
    | _, _ => None
    end
  else Some OnStdio.

(** The server on a registry whose leaves are initialised, with what is started in the
    background.  [random] is the key of the sessions when none is configured; [crd_up]
    whether the feature [crd] is built in, a Kubernetes client could be made, and its first
    listing worked. *)
Definition aggregator_of (f : FederationSettings) : Aggregator :=
  {| tool_cache_ttl := from_secs (tool_cache_ttl_seconds f) |}.
Definition assembled (cli : Cli) (random : string) (crd_up : bool * bool * bool)
    (f : FederationSettings) (w : World) : option Running :=
  serving ← serving_of cli f;
  Some {| r_state :=
            {| st_world := w; st_aggregator := aggregator_of f;
               st_sessions := SessionManager_new (session_ttl_seconds f) (session_secret f) random;
               st_origins := allowed_origins f;
               st_limiter := RateLimiter_new (rate_limit f) |};
          r_serving := serving;
          r_monitors := (start_health_monitor w).1;
          r_dns := dns_interval (dns_discovery f);
          r_crd := start_crd_watcher crd_up.1.1 (crd_discovery f) crd_up.1.2 crd_up.2;
          r_reloads := cli_http cli |}.
(** The listeners are spawned last. *)
Definition listening (r : Running) : Running :=
  {| r_state := (in_world spawn_leaf_notification_listeners (r_state r)).2;
     r_serving := r_serving r; r_monitors := r_monitors r; r_dns := r_dns r; r_crd := r_crd r;
     r_reloads := r_reloads r |}.

Definition main (cli : Cli) (random : string) (crd_up : bool * bool * bool) (e : Env) : Outcome :=
  let loaded := from_file (now e) (cli_config cli) in
  if cli_validate cli then
    match loaded with
    | Ok cfg => Exits 0 ("Config OK: " +:+ fmt_nat (length (servers cfg)) +:+ " servers configured")
    | Err err => Exits 1 ("Config error: " +:+ error_text err)
    end
  else
    match loaded with
    | Err err => Exits 1 ("Failed to load config: " +:+ error_text err)
    | Ok cfg =>
        let f := federation cfg in
        let w0 := from_configs_with_pool (servers cfg) (connection_pool f) e in
        let w1 := (initialize_all w0).2 in
        if cli_list_tools cli then
          let '((table, warning), _) := print_tools_table (aggregator_of f) w1 in
          Lists table warning
        else
          match assembled cli random crd_up f w1 with
          | None => Exits 1 "Error: --tls-cert and --tls-key must both be provided for TLS"
          | Some r => Runs (listening r)
          end
    end.
End main.

(** ** The table *)
Lemma row_le_total a b : row_le a b = false → row_le b a = true.
Proof.
  unfold row_le, str_compare. rewrite (String.compare_antisym b.1.1 a.1.1),
    (String.compare_antisym b.1.2 a.1.2).
  destruct (String.compare a.1.1 b.1.1), (String.compare a.1.2 b.1.2); done.
Qed.

Lemma insert_row_perm r rows : insert_row r rows ≡ₚ r :: rows.
Proof.
  induction rows as [|x rows IH]; [done|]. cbn. case_match; [done|].
  rewrite IH. apply Permutation_swap.
Qed.
Lemma insert_row_sorted r rows :
  Sorted (λ a b, row_le a b = true) rows → Sorted (λ a b, row_le a b = true) (insert_row r rows).
Proof.
  induction 1 as [|x rows Hs IH Hx]; [by repeat constructor|]. cbn.
  destruct (row_le r x) eqn:Hr; [by repeat constructor|].
  apply row_le_total in Hr. constructor; [done|].
  destruct rows as [|y rows]; cbn; [by constructor|]. case_match; constructor; [done|].
  by inversion Hx.
Qed.

(** The table of [--list-tools] shows every tool once, in the order of the leaves and
    then of the names, under a header of two lines. *)
Theorem tools_table_complete tools :
  table_rows tools ≡ₚ tool_row <$> tools ∧
  Sorted (λ a b, row_le a b = true) (table_rows tools) ∧
  length (tools_table tools) = (2 + length tools)%nat.
Proof.
  assert (∀ rows, sort_rows rows ≡ₚ rows) as Hp.
  { induction rows as [|r rows IH]; [done|]. cbn. by rewrite insert_row_perm, IH. }
  split_and!; [apply Hp| |].
  - unfold table_rows. induction (tool_row <$> tools); [constructor|]. by apply insert_row_sorted.
  - unfold tools_table. cbn [length]. rewrite length_fmap. unfold table_rows.
    by rewrite (Permutation_length (Hp _)), length_fmap.
Qed.

(** ** Start-up *)
Section startup.
Context `{!Os, !Http, !Serde, !MapOrder, !Yaml, !Base64}.

Definition register_config (config : ServerConfig) : M World unit :=
  l ← new_leaf config; _ ← add_leaf (Config.alias config) l; mret tt.

(** The leaf of a configuration: registered, with that configuration, its transport and
    its name *)
Definition serves_config (c : ServerConfig) (e : LeafEntry) : Prop :=
  le_config e = c ∧ lc_transport (le_client e) = Config.transport c ∧
  lc_alias (le_client e) = Config.alias c.
Definition brand_new (w : World) (c : ServerConfig) : Prop :=
  ∃ l, w_leaves w !! Config.alias c = Some l ∧ entry_sat l (serves_config c) w.

Lemma register_config_spec c w :
  (register_config c w).2 =
  set_leaves (<[Config.alias c := fresh (dom (w_heap w))]> (w_leaves w))
    (set_heap (<[fresh (dom (w_heap w)) := LeafEntry_new_with_pool (wnow w) c (w_pool w)]>
      (w_heap w)) w).
Proof. done. Qed.

Lemma register_config_wf c w : world_wf w → world_wf (register_config c w).2.
Proof.
  intros [Hl Ht]. rewrite register_config_spec. set (l := fresh _).
  assert (w_heap w !! l = None) as Hf by apply fresh_heap. split; cbn.
  - intros a l' [[<- <-]|[Hne Hl']]%lookup_insert_Some.
    + rewrite lookup_insert_eq. by eexists.
    + destruct (Hl _ _ Hl') as (e & He & Hea). exists e. split; [|done].
      rewrite lookup_insert_ne; [done|congruence].
  - intros t Hin. apply lookup_insert_is_Some'. right. by apply Ht.
Qed.

Lemma from_configs_spec configs w :
  world_wf w → NoDup (Config.alias <$> configs) →
  let w' := (m_iter register_config configs w).2 in
  world_wf w' ∧ w_tasks w' = w_tasks w ∧ w_heap w ⊆ w_heap w' ∧
  (∀ a, a ∉ (Config.alias <$> configs) → w_leaves w' !! a = w_leaves w !! a) ∧
  (∀ c, c ∈ configs → brand_new w' c).
Proof.
  revert w. induction configs as [|c configs IH]; intros w Hwf Hnd; cbv zeta.
  { split_and!; try done. by intros c ?%not_elem_of_nil. }
  rewrite fmap_cons in Hnd. apply NoDup_cons in Hnd as [Hc Hnd]. rewrite m_iter_cons.
  pose proof (register_config_wf c w Hwf) as Hwf1. rewrite register_config_spec in *.
  set (l := fresh _) in *. set (w1 := set_leaves _ _) in *.
  destruct (IH w1 Hwf1 Hnd) as (Hwf' & Ht & Hh & Hoth & Hnew). set (w' := (m_iter _ _ w1).2) in *.
  assert (w_heap w ⊆ w_heap w1) as Hh1 by apply insert_subseteq, fresh_heap.
  split_and!; [done|done|by etrans| |].
  - intros a. rewrite fmap_cons, not_elem_of_cons. intros [Hne Ha]. rewrite Hoth by done.
    by apply lookup_insert_ne.
  - intros c' [->|Hin]%elem_of_cons; [|by apply Hnew]. exists l. split.
    + rewrite Hoth by done. apply lookup_insert_eq.
    + eexists. split; [eapply lookup_weaken; [apply lookup_insert_eq|exact Hh]|done].
Qed.

(** Every entry is in the table. *)
Definition all_listed (w : World) : Prop :=
  ∀ l, is_Some (w_heap w !! l) → ∃ a, w_leaves w !! a = Some l.
Lemma from_configs_listed configs w :
  NoDup (Config.alias <$> configs) → (∀ a, a ∈ (Config.alias <$> configs) → w_leaves w !! a = None) →
  all_listed w → all_listed (m_iter register_config configs w).2.
Proof.
  revert w. induction configs as [|c configs IH]; intros w Hnd Hnew Hw; [done|].
  rewrite fmap_cons in Hnd, Hnew. apply NoDup_cons in Hnd as [Hc Hnd].
  rewrite m_iter_cons, register_config_spec. set (l := fresh _). apply IH; [done|..].
  - intros a Ha. cbn. rewrite lookup_insert_ne by (by intros <-). apply Hnew. by right.
  - intros l' Hl'. cbn in *. apply lookup_insert_is_Some' in Hl' as [->|Hl'].
    + exists (Config.alias c). apply lookup_insert_eq.
    + destruct (Hw l' Hl') as [a Ha]. exists a. rewrite lookup_insert_ne; [done|].
      intros <-. rewrite Hnew in Ha; [done|left].
Qed.

Lemma with_pool_wf pool e : world_wf (with_pool pool e).
Proof. split; [by intros a l|]. by intros t ?%not_elem_of_nil. Qed.

Lemma evolved_serves c e e' : evolved e e' → serves_config c e → serves_config c e'.
Proof. intros (Hc & Hs & _) (? & ? & ?). split_and!; [congruence|by rewrite Hs..]. Qed.

Lemma from_configs_broker configs pool e :
  w_broker (from_configs_with_pool configs pool e) = broker_new.
Proof.
  change (w_broker (from_configs_with_pool configs pool e)) with
    (w_broker (m_iter register_config configs (with_pool pool e)).2).
  assert (w_broker (with_pool pool e) = broker_new) as Hb by done. revert Hb.
  generalize (with_pool pool e) as w. induction configs as [|c configs IH]; intros w Hb; [done|].
  rewrite m_iter_cons. by apply IH.
Qed.

(** The registry once the leaves are initialised *)
Record initialized (configs : list ServerConfig) (w : World) : Prop := {
  in_wf : world_wf w;
  in_tasks : w_tasks w = [];
  in_broker_new : w_broker w = broker_new;
  in_listed : all_listed w;
  in_aliases : ∀ a, is_Some (w_leaves w !! a) ↔ a ∈ (Config.alias <$> configs);
  in_settled : ∀ c, c ∈ configs → ∃ l, w_leaves w !! Config.alias c = Some l ∧
     entry_sat l (λ e, serves_config c e ∧ settled e) w;
}.

Lemma from_configs_aliases configs pool e a :
  NoDup (Config.alias <$> configs) →
  is_Some (w_leaves (from_configs_with_pool configs pool e) !! a) ↔ a ∈ (Config.alias <$> configs).
Proof.
  intros Hnd.
  destruct (from_configs_spec configs (with_pool pool e) (with_pool_wf pool e) Hnd)
    as (_ & _ & _ & Hoth & Hnew). fold register_config in *.
  change ((m_iter _ _ _).2) with (from_configs_with_pool configs pool e) in *. split.
  - destruct (decide (a ∈ (Config.alias <$> configs))); [done|].
    rewrite Hoth by done. by intros [? ?].
  - intros (c & -> & Hc)%list_elem_of_fmap. destruct (Hnew c Hc) as (l & Hal & _). eauto.
Qed.

(** Whatever way the leaves were initialised: it left the rest alone, the entries evolved
    and are settled. *)
Lemma initialized_from configs pool e w :
  NoDup (Config.alias <$> configs) →
  let w0 := from_configs_with_pool configs pool e in
  world_wf w → w_leaves w = w_leaves w0 → w_tasks w = w_tasks w0 → w_broker w = w_broker w0 →
  (∀ l, is_Some (w_heap w !! l) → is_Some (w_heap w0 !! l)) →
  (∀ l x, w_heap w0 !! l = Some x → ∃ y, w_heap w !! l = Some y ∧ evolved x y) →
  (∀ a l, w_leaves w0 !! a = Some l → entry_sat l settled w) →
  initialized configs w.
Proof.
  intros Hnd w0 Hwf Hl Ht Hb Hd Hh Hs.
  destruct (from_configs_spec configs (with_pool pool e) (with_pool_wf pool e) Hnd)
    as (_ & Ht0 & _ & Hoth & Hnew). fold register_config in *. change ((m_iter _ _ _).2) with w0 in *.
  split; [done|by rewrite Ht, Ht0|by rewrite Hb; apply from_configs_broker| | |].
  - intros l Hl'%Hd. rewrite Hl. revert l Hl'.
    apply (from_configs_listed configs (with_pool pool e)); [done|done|by intros l [? ?]].
  - intros a. rewrite Hl. by apply from_configs_aliases.
  - intros c Hc. destruct (Hnew c Hc) as (l & Hal & x & Hx & Hsx). exists l. rewrite Hl.
    split; [done|]. destruct (Hh l x Hx) as (y & Hy & Hev). exists y. split; [done|].
    split; [by eapply evolved_serves|]. destruct (Hs _ _ Hal) as (y' & Hy' & ?). congruence.
Qed.
Lemma initialized_spec configs pool e :
  NoDup (Config.alias <$> configs) →
  initialized configs (initialize_all (from_configs_with_pool configs pool e)).2.
Proof.
  intros Hnd. set (w0 := from_configs_with_pool configs pool e).
  assert (world_wf w0) as Hwf
    by apply (from_configs_spec configs (with_pool pool e) (with_pool_wf pool e) Hnd).
  pose proof (initialize_all_acts w0) as Hacts.
  apply (initialized_from configs pool e); [done| |apply Hacts..| | |].
  - eapply acts_on_wf; [|exact Hacts|exact Hwf]. by intros l x y [Hev _].
  - intros l [x Hx]. pose proof (acts_heap _ _ _ Hacts l) as Hl. rewrite Hx in Hl.
    inversion Hl. by eexists.
  - intros l x Hx. destruct (acts_on_lookup _ _ _ _ _ Hacts Hx) as (y & Hy & Hev & _). eauto.
  - intros a l. by apply initialize_all_leaf.
Qed.

(** Listeners are spawned for the streamable leaves; nothing else changes. *)
Definition listens (w : World) (l : nat) : Prop :=
  Config.transport (le_config (entry l w)) = StreamableHttp ∧
  lc_transport (le_client (entry l w)) = StreamableHttp.
#[export] Instance listens_dec w l : Decision (listens w l).
Proof. unfold listens. apply _. Defined.

Lemma set_tasks_nil w : set_tasks (w_tasks w ++ []) w = w.
Proof. rewrite app_nil_r. by destruct w. Qed.
Lemma spawn_listener_spec l w :
  (spawn_listener l w).2 =
  if decide (listens w l) then set_tasks (w_tasks w ++ [TListen l]) w else w.
Proof.
  unfold spawn_listener, listen_notifications, streamable, listens. run_m.
  destruct (decide (_ ∧ _)) as [[H1' H2']|Hn].
  - by rewrite decide_True, bool_decide_eq_true_2 by done.
  - destruct (decide (_ = StreamableHttp)) as [H1'|]; [|done].
    rewrite bool_decide_eq_false_2; [done|]. intros H2'. by apply Hn.
Qed.
Lemma listeners_spec w :
  (spawn_leaf_notification_listeners w).2 =
  set_tasks (w_tasks w ++ (TListen <$> filter (listens w) (map_values (w_leaves w)))) w.
Proof.
  change ((spawn_leaf_notification_listeners w).2) with
    ((m_iter spawn_listener (map_values (w_leaves w)) w).2).
  generalize (map_values (w_leaves w)) as ls. intros ls. revert w.
  induction ls as [|l ls IH]; intros w; [by rewrite set_tasks_nil|].
  rewrite m_iter_cons, spawn_listener_spec, IH, filter_cons. case_decide; [|done].
  rewrite (list_filter_ext_in (listens (set_tasks _ w)) (listens w)) by done.
  unfold set_tasks. cbn. by rewrite <- app_assoc.
Qed.

(** The server on an initialised registry *)
Lemma assembled_spec cli random crd_up cfg w r :
  assembled cli random crd_up (federation cfg) w = Some r → initialized (servers cfg) w →
  let s := r_state r in
  st_world s = w ∧
  (∀ c l, c ∈ servers cfg → w_leaves w !! Config.alias c = Some l →
     l ∈ r_monitors r ↔ hc_enabled (health_check c) = true) ∧
  (∀ l, l ∈ r_monitors r → l ∈ map_values (w_leaves w)) ∧
  sessions (st_sessions s) = ∅ ∧ buckets (st_limiter s) = ∅ ∧
  serving_of cli (federation cfg) = Some (r_serving r).
Proof.
  unfold assembled. destruct (serving_of cli (federation cfg)) as [serving|]; [|done].
  intros [= <-] []. cbn. split_and!; try done.
  - intros c l Hc Hal. destruct (in_settled0 c Hc) as (l' & Hl' & x & Hx & [Hcx _] & _).
    assert (l' = l) as -> by congruence.
    unfold start_health_monitor, all_leaves. run_m. rewrite list_elem_of_filter.
    rewrite (entry_lookup _ _ _ Hx), Hcx. split; [tauto|]. intros ?. split; [done|].
    apply map_values_elem. eauto.
  - unfold start_health_monitor, all_leaves. run_m. by intros l [_ Hl']%list_elem_of_filter.
Qed.

Lemma listening_world r :
  let w := st_world (r_state r) in
  st_world (r_state (listening r)) =
  set_tasks (w_tasks w ++ (TListen <$> filter (listens w) (map_values (w_leaves w)))) w.
Proof.
  cbn. unfold in_world, lift_state. rewrite <- listeners_spec.
  by destruct (spawn_leaf_notification_listeners _).
Qed.
Lemma listening_rest r :
  st_sessions (r_state (listening r)) = st_sessions (r_state r) ∧
  st_limiter (r_state (listening r)) = st_limiter (r_state r).
Proof. cbn. unfold in_world, lift_state. by destruct (spawn_leaf_notification_listeners _). Qed.

Lemma main_runs cli random crd_up e r :
  main cli random crd_up e = Runs r →
  ∃ cfg r0, from_file (now e) (cli_config cli) = Ok cfg ∧ config_wf cfg ∧
    let w := (initialize_all (from_configs_with_pool (servers cfg)
                (connection_pool (federation cfg)) e)).2 in
    cli_validate cli = false ∧ cli_list_tools cli = false ∧
    initialized (servers cfg) w ∧ assembled cli random crd_up (federation cfg) w = Some r0 ∧
    r = listening r0.
Proof.
  unfold main. destruct (cli_validate cli); [by destruct (from_file _ _)|].
  destruct (from_file (now e) (cli_config cli)) as [cfg|err] eqn:Hf; [|done].
  destruct (cli_list_tools cli); [by destruct (print_tools_table _ _) as [[] ?]|].
  pose proof (from_file_wf _ _ _ Hf) as Hcfg.
  destruct (assembled _ _ _ _ _) as [r0|] eqn:Ha; [|done]. intros [= <-].
  exists cfg, r0. split_and!; try done. apply initialized_spec, Hcfg.
Qed.

(** A server that runs was started from a valid configuration, and is in the state it
    says: the leaves are those of the file, each initialised and settled, with a health
    monitor exactly when its checks are enabled and a listener exactly when its transport
    is streamable; no session is open, no client has used its rate; and the address, the
    tokens and the certificate are those of the command line where it gives them, of the
    file otherwise. *)
Theorem main_starts cli random crd_up e r :
  main cli random crd_up e = Runs r →
  ∃ cfg, from_file (now e) (cli_config cli) = Ok cfg ∧ config_wf cfg ∧
    let s := r_state r in let w := st_world s in
    world_wf w ∧ (∀ a, is_Some (w_leaves w !! a) ↔ a ∈ (Config.alias <$> servers cfg)) ∧
    (∀ c, c ∈ servers cfg → ∃ l, w_leaves w !! Config.alias c = Some l ∧
       le_config (entry l w) = c ∧ settled (entry l w) ∧
       (l ∈ r_monitors r ↔ hc_enabled (health_check c) = true) ∧
       (TListen l ∈ w_tasks w ↔ Config.transport c = StreamableHttp)) ∧
    sessions (st_sessions s) = ∅ ∧ buckets (st_limiter s) = ∅ ∧
    serving_of cli (federation cfg) = Some (r_serving r).
Proof.
  intros (cfg & r0 & Hf & Hcfg & _ & _ & Hin & Ha & ->)%main_runs. exists cfg.
  destruct (assembled_spec _ _ _ _ _ _ Ha Hin) as (Hw & Hm & _ & Hs & Hb & Hserve).
  destruct Hin as [Hwf Ht _ _ Hal Hset]. set (w1 := (initialize_all _).2) in *.
  split_and!; [done..|]. cbn [r_monitors r_serving].
  rewrite (listening_world r0), Hw, Ht by done.
  destruct (listening_rest r0) as [-> ->].
  split_and!; try done.
  - split; [apply Hwf|]. cbn. intros t (l & -> & [_ Hin]%list_elem_of_filter)%list_elem_of_fmap.
    apply map_values_elem in Hin as [a Hal']. destruct (proj1 Hwf _ _ Hal') as (x & Hx & _). eauto.
  - intros c Hc. destruct (Hset c Hc) as (l & Hal' & x & Hx & (Hcx & Htx & _) & Hsx). exists l.
    change (entry l (set_tasks _ w1)) with (entry l w1). rewrite (entry_lookup _ _ _ Hx).
    split_and!; try done; [by apply Hm|]. cbn. split.
    + intros (l' & [= <-] & [[Hst _] _]%list_elem_of_filter)%list_elem_of_fmap.
      by rewrite (entry_lookup _ _ _ Hx), Hcx in Hst.
    + intros Hst. apply list_elem_of_fmap_2, list_elem_of_filter. split.
      * unfold listens. rewrite (entry_lookup _ _ _ Hx), Hcx. by rewrite Htx.
      * apply map_values_elem. eauto.
Qed.
End startup.

(** ** Witness *)
Module Example.
Definition raw_server (name : string) : RawServer :=
  {| raw_alias := name; raw_url := "http://" +:+ name +:+ "/mcp"; raw_auth_token := None;
     raw_auth_token_file := None; raw_transport := Some StreamableHttp; raw_tags := None;
     raw_health_check := None; raw_timeout := None; raw_tls := None |}.
Definition raw : RawConfig :=
  {| raw_federation :=
       {| raw_listen := None; raw_endpoint := None; raw_fed_token := None;
          raw_fed_token_file := None; raw_pool := None; raw_tool_ttl := None;
          raw_session_ttl := None; raw_origins := None; raw_clients := None;
          raw_rate_limit := None; raw_dns := None; raw_crd := None; raw_secret := None;
          raw_shutdown := None |};
     raw_servers := [raw_server "alpha"; raw_server "beta"] |}.
Definition yaml : Yaml := {| yaml_parse := λ _, Ok raw |}.
Definition os : Os :=
  {| env_var := λ _, None; read_file := λ _ _, Ok "servers";
     read_bytes := λ _ _, Err "not found"; system_time := λ t, t; uuid := λ n, fmt_nat n |}.
Definition base64 : Base64 := {| b64_decode := λ s, Ok s |}.
Definition cli : Cli :=
  {| cli_config := "federation.yaml"; cli_http := true; cli_listen := Some "0.0.0.0:80";
     cli_auth_token := Some "root"; cli_auth_token_file := None; cli_tls_cert := None;
     cli_tls_key := None; cli_list_tools := false; cli_validate := false |}.
Definition outcome : Outcome :=
  main (H := os) (H0 := Scenario.http) (H1 := Scenario.serde) (H2 := Scenario.mo) (H3 := yaml)
    (H4 := base64) cli "key" (true, true, true) Scenario.env.
Definition running (o : Outcome) : option Running :=
  match o with Runs r => Some r | _ => None end.
End Example.

Lemma outcome_runs : ∃ r, Example.outcome = Runs r.
Proof.
  assert (is_Some (Example.running Example.outcome)) as [r Hr]
    by (apply (bool_decide_unpack _); vm_compute; exact I).
  exists r. destruct Example.outcome; inversion Hr. reflexivity.
Qed.

Lemma main_starts_witness :
  ∃ r a l, Example.outcome = Runs r ∧ w_leaves (st_world (r_state r)) !! a = Some l ∧
    TListen l ∈ w_tasks (st_world (r_state r)) ∧ settled (entry l (st_world (r_state r))).
Proof.
  destruct outcome_runs as [r Hr].
  destruct (main_starts (H := Example.os) (H0 := Scenario.http) (H1 := Scenario.serde)
    (H2 := Scenario.mo) (H3 := Example.yaml) (H4 := Example.base64) _ _ _ _ _ Hr)
    as (cfg & Hf & _ & _ & _ & Hl & _).
  assert (from_file (H := Example.os) (H0 := Example.yaml) (now Scenario.env) "federation.yaml" =
    Ok (config_of_raw Example.raw)) as Hf' by reflexivity.
  change (cli_config Example.cli) with "federation.yaml" in Hf. rewrite Hf' in Hf.
  injection Hf as <-.
  destruct (Hl (server_of_raw (Example.raw_server "alpha")) ltac:(left))
    as (l & Ha & _ & Hs & _ & Ht).
  exists r, "alpha", l. split_and!; [exact Hr|exact Ha|apply Ht; reflexivity|exact Hs].
Defined.
