(* ===== verification/SocketAddr.v ===== *)
(** * SocketAddr: [str::parse] of a [std::net::SocketAddr]

    The HTTPS server parses the address it listens on ([run_https] of [src/main.rs]).  The
    standard library reads it from left to right: four decimal numbers with dots, or an IPv6
    address in brackets, and a port; each reader gives back what it has not consumed. *)
From S2P Require Import Prelude Text.
Open Scope string_scope.
Open Scope list_scope.
Open Scope Z_scope.

Inductive SocketAddr : Type :=
| V4 (octets : list Z) (port : Z)
| V6 (segments : list Z) (scope_id port : Z).
#[export] Instance SocketAddr_eq_dec : EqDecision SocketAddr.
Proof. solve_decision. Defined.

(** ** The readers *)

Definition read_given_char (c : ascii) (s : string) : option string :=
  match s with
  | String c' s => if decide (c' = c) then Some s else None
  | EmptyString => None
  end.

(** [char::to_digit] *)
Definition to_digit (radix : Z) (c : ascii) : option Z :=
  let n := Z.of_N (N_of_ascii c) in
  let d := if (48 <=? n) && (n <=? 57) then n - 48
           else if (97 <=? n) && (n <=? 122) then n - 87
           else if (65 <=? n) && (n <=? 90) then n - 55
           else radix in
  if d <? radix then Some d else None.

(** The digits up to the first other character *)
Fixpoint digits (radix : Z) (s : string) : list Z * string :=
  match s with
  | String c s' =>
      match to_digit radix c with
      | Some d => let '(ds, rest) := digits radix s' in (d :: ds, rest)
      | None => ([], s)
      end
  | EmptyString => ([], s)
  end.
Definition number (radix : Z) (ds : list Z) : Z := foldl (λ n d, n * radix + d) 0 ds.

(** A number of at most [max_digits] digits that is below [bound] *)
Definition read_number (radix : Z) (max_digits : option nat) (allow_zero_prefix : bool)
    (bound : Z) (s : string) : option (Z * string) :=
  let '(ds, rest) := digits radix s in
  if bool_decide (ds = []) then None
  else if (if max_digits is Some m then bool_decide (m < length ds)%nat else false) then None
  else if negb allow_zero_prefix && bool_decide (head ds = Some 0) && bool_decide (1 < length ds)%nat
  then None
  else if number radix ds <? bound then Some (number radix ds, rest) else None.

(** [read_separator]: nothing before the first *)
Definition read_separator (c : ascii) (first : bool) (s : string) : option string :=
  if first then Some s else read_given_char c s.

(** [n] octets; a leading zero is refused. *)
Fixpoint read_octets (n : nat) (first : bool) (s : string) : option (list Z * string) :=
  match n with
  | O => Some ([], s)
  | S n =>
      s1 ← read_separator "." first s;
      '(octet, s2) ← read_number 10 (Some 3%nat) false 256 s1;
      '(octets, s3) ← read_octets n false s2;
      Some (octet :: octets, s3)
  end.
Definition read_ipv4_addr (s : string) : option (list Z * string) := read_octets 4 true s.

(** At most [n] groups, and whether the last two are an embedded IPv4 address *)
Definition read_embedded (n : nat) (first : bool) (s : string) : option (list Z * string) :=
  if n is O then None
  else s1 ← read_separator ":" first s;
       '(octets, s2) ← read_ipv4_addr s1;
       if octets is [a; b; c; d] then Some ([a * 256 + b; c * 256 + d], s2) else None.
Fixpoint read_groups (n : nat) (first : bool) (s : string) : list Z * bool * string :=
  match n with
  | O => ([], false, s)
  | S n =>
      match read_embedded n first s with
      | Some (groups, s1) => (groups, true, s1)
      | None =>
          match (s1 ← read_separator ":" first s; read_number 16 (Some 4%nat) true 65536 s1) with
          | Some (group, s2) =>
              let '(groups, ipv4, s3) := read_groups n false s2 in (group :: groups, ipv4, s3)
          | None => ([], false, s)
          end
      end
  end.
(** [::] stands for at least one group of zeros. *)
Definition read_ipv6_addr (s : string) : option (list Z * string) :=
  let '(front, ipv4, s1) := read_groups 8 true s in
  if bool_decide (length front = 8%nat) then Some (front, s1)
  else if (ipv4 : bool) then None
  else
    s2 ← read_given_char ":" s1;
    s3 ← read_given_char ":" s2;
    let '(back, _, s4) := read_groups (7 - length front) true s3 in
    Some (front ++ replicate (8 - length front - length back) 0 ++ back, s4).

Definition read_port (s : string) : option (Z * string) :=
  s1 ← read_given_char ":" s; read_number 10 None true 65536 s1.
Definition read_scope_id (s : string) : option (Z * string) :=
  s1 ← read_given_char "%" s; read_number 10 None true (2 ^ 32) s1.
Definition read_socket_addr_v4 (s : string) : option (SocketAddr * string) :=
  '(octets, s1) ← read_ipv4_addr s;
  '(port, s2) ← read_port s1;
  Some (V4 octets port, s2).
Definition read_socket_addr_v6 (s : string) : option (SocketAddr * string) :=
  s1 ← read_given_char "[" s;
  '(segments, s2) ← read_ipv6_addr s1;
  let '(scope_id, s3) := default (0, s2) (read_scope_id s2) in
  s4 ← read_given_char "]" s3;
  '(port, s5) ← read_port s4;
  Some (V6 segments scope_id port, s5).
(** Nothing may be left. *)
Definition parse_socket_addr (s : string) : option SocketAddr :=
  '(addr, rest) ← (match read_socket_addr_v4 s with Some x => Some x | None => read_socket_addr_v6 s end);
  if is_empty rest then Some addr else None.

Example parses :
  parse_socket_addr "127.0.0.1:080" = Some (V4 [127; 0; 0; 1] 80) ∧
  parse_socket_addr "[::1]:8443" = Some (V6 [0; 0; 0; 0; 0; 0; 0; 1] 0 8443) ∧
  parse_socket_addr "[fe80::1%4]:1" = Some (V6 [65152; 0; 0; 0; 0; 0; 0; 1] 4 1) ∧
  parse_socket_addr "[::ffff:10.0.0.1]:1" = Some (V6 [0; 0; 0; 0; 0; 65535; 2560; 1] 0 1) ∧
  parse_socket_addr "127.0.0.01:80" = None ∧ parse_socket_addr "localhost:80" = None ∧
  parse_socket_addr "1.2.3.4:65536" = None ∧ parse_socket_addr "::1:80" = None.
Proof. vm_compute. repeat split. Qed.

(** ** What they accept *)

(** No digit follows. *)
Definition stops (radix : Z) (rest : string) : Prop :=
  match rest with String c _ => to_digit radix c = None | EmptyString => True end.
(** The text of a number, as [read_number] wants it *)
Definition numeral (radix : Z) (max_digits : option nat) (zero : bool) (bound : Z)
    (t : string) (v : Z) : Prop :=
  ∃ ds, digits radix t = (ds, "") ∧ ds ≠ [] ∧ (∀ m, max_digits = Some m → (length ds ≤ m)%nat) ∧
    (zero = false → head ds = Some 0 → (length ds ≤ 1)%nat) ∧ number radix ds = v ∧ v < bound.

Lemma digits_split radix s ds rest :
  digits radix s = (ds, rest) ↔ ∃ t, s = t +:+ rest ∧ digits radix t = (ds, "") ∧ stops radix rest.
Proof.
  revert ds rest. induction s as [|c s IH]; intros ds rest; cbn [digits].
  - split.
    + intros [= <- <-]. by exists "".
    + intros (t & Ht & Hd & _). destruct t as [|]; [|discriminate]. cbn in Ht. subst rest.
      by injection Hd as <-.
  - destruct (to_digit radix c) as [d|] eqn:Hc.
    + destruct (digits radix s) as [ds0 rest0] eqn:Hs. split.
      * intros [= <- <-]. destruct (IH ds0 rest0) as [(t & -> & Ht & Hst) _]; [done|].
        exists (String c t). cbn [digits]. by rewrite Hc, Ht.
      * intros ([|c' t] & Ht & Hd & Hst).
        { cbn in Ht. subst rest. cbn in Hst. by rewrite Hc in Hst. }
        cbn in Ht. injection Ht as <- ->. cbn [digits] in Hd. rewrite Hc in Hd.
        destruct (digits radix t) as [ds1 rest1] eqn:Ht. injection Hd as <- ->.
        destruct (IH ds1 rest) as [_ Hback].
        assert ((ds0, rest0) = (ds1, rest)) as [= -> ->] by (apply Hback; by exists t). done.
    + split.
      * intros [= <- <-]. exists "". by repeat split.
      * intros ([|c' t] & Ht & Hd & Hst).
        { cbn in Ht. subst rest. by injection Hd as <-. }
        cbn in Ht. injection Ht as <- ->. cbn [digits] in Hd. by rewrite Hc in Hd.
Qed.

Lemma read_number_iff radix m zero bound s v rest :
  read_number radix m zero bound s = Some (v, rest) ↔
  ∃ t, s = t +:+ rest ∧ stops radix rest ∧ numeral radix m zero bound t v.
Proof.
  unfold read_number. destruct (digits radix s) as [ds rest0] eqn:Hs. split.
  - apply digits_split in Hs as (t & -> & Ht & Hst). intros Hr.
    case_bool_decide as Hne; [done|]. destruct (match m with Some _ => _ | None => _ end) eqn:Hm; [done|].
    destruct (negb zero && _ && _) eqn:Hz; [done|]. destruct (_ <? _) eqn:Hb; [|done].
    injection Hr as <- <-. exists t. split; [done|]. split; [done|]. exists ds. split_and!; [done..| | |done|lia].
    + intros k ->. apply bool_decide_eq_false in Hm. lia.
    + intros -> Hh. rewrite Hh, (bool_decide_eq_true_2 _ eq_refl) in Hz. cbn in Hz.
      apply bool_decide_eq_false in Hz. lia.
  - intros (t & -> & Hst & ds1 & Hd & Hne & Hm & Hz & Hv & Hb).
    assert (digits radix (t +:+ rest) = (ds1, rest)) as Hs' by (apply digits_split; by exists t).
    rewrite Hs in Hs'. injection Hs' as -> ->. rewrite bool_decide_eq_false_2 by done.
    assert ((match m with Some k => bool_decide (k < length ds1)%nat | None => false end) = false) as ->.
    { destruct m as [k|]; [|done]. apply bool_decide_eq_false. specialize (Hm k eq_refl). lia. }
    assert (negb zero && bool_decide (head ds1 = Some 0) && bool_decide (1 < length ds1)%nat = false) as ->.
    { destruct zero; [done|]. cbn. case_bool_decide as Hh; [|done]. cbn.
      apply bool_decide_eq_false. specialize (Hz eq_refl Hh). lia. }
    subst v. by rewrite (proj2 (Z.ltb_lt _ _) Hb).
Qed.

Lemma read_separator_iff c first s rest :
  read_separator c first s = Some rest ↔ s = (if first then "" else String c "") +:+ rest.
Proof.
  destruct first; cbn.
  - split; [by intros [= ->]|by intros ->].
  - destruct s as [|c' s]; cbn; [done|]. case_decide; split; try done.
    + intros [= ->]. by subst.
    + intros [= -> ->]. done.
    + intros [= -> ->]. done.
Qed.

(** *** Four numbers *)
Definition octet (t : string) (v : Z) : Prop := numeral 10 (Some 3%nat) false 256 t v.

Fixpoint octets_text (first : bool) (os : list Z) (t : string) : Prop :=
  match os with
  | [] => t = ""
  | o :: os =>
      ∃ a b, t = (if first then "" else ".") +:+ (a +:+ b) ∧ octet a o ∧ octets_text false os b
  end.
Lemma read_octets_iff n first s os rest :
  read_octets n first s = Some (os, rest) ↔
  length os = n ∧ ∃ t, s = t +:+ rest ∧ octets_text first os t ∧ (n ≠ 0%nat → stops 10 rest).
Proof.
  revert first s os. induction n as [|n IH]; intros first s os; cbn [read_octets].
  { split.
    - intros [= <- <-]. split; [done|]. exists "". by repeat split.
    - intros (Hos & t & -> & Ht & _). destruct os; [|done]. cbn in Ht. by subst. }
  split.
  - destruct (read_separator _ _ s) as [s1|] eqn:H1; [|done]. apply read_separator_iff in H1.
    cbn [mbind option_bind]. destruct (read_number _ _ _ _ s1) as [[o s2]|] eqn:H2; [|done].
    apply read_number_iff in H2 as (a & -> & Hst & Ho). cbn [mbind option_bind].
    destruct (read_octets n false s2) as [[os' s3]|] eqn:H3; [|done]. cbn. intros [= <- <-].
    apply IH in H3 as (Hlen & b & -> & Hb & Hst'). split; [cbn; lia|].
    exists ((if first then "" else ".") +:+ (a +:+ b)). split_and!.
    + rewrite H1. by rewrite !str_app_assoc.
    + by exists a, b.
    + intros _. destruct n; [|by apply Hst']. destruct os'; [|done]. cbn in Hb. subst b. exact Hst.
  - intros (Hlen & t & -> & Ht & Hst). destruct os as [|o os]; [done|]. cbn in Ht.
    destruct Ht as (a & b & -> & Ho & Hb). injection Hlen as Hlen.
    rewrite (proj2 (read_separator_iff _ _ _ (a +:+ (b +:+ rest))));
      [|by rewrite !str_app_assoc]. cbn [mbind option_bind].
    rewrite (proj2 (read_number_iff _ _ _ _ _ o (b +:+ rest))).
    2: { exists a. split_and!; [done| |done]. destruct os as [|o' os].
         - cbn in Hb. subst b. by apply Hst.
         - cbn in Hb. by destruct Hb as (a' & b' & -> & _). }
    cbn [mbind option_bind]. rewrite (proj2 (IH false (b +:+ rest) os)); [done|]. split; [done|].
    exists b. split_and!; [done..|]. intros _. by apply Hst.
Qed.

(** An octet is written as numbers are printed. *)
Fixpoint text_of (ds : list Z) : string :=
  match ds with
  | [] => ""
  | d :: ds => String (ascii_of_N (Z.to_N (48 + d))) (text_of ds)
  end.
Lemma to_digit_decimal c d :
  to_digit 10 c = Some d → 0 ≤ d < 10 ∧ c = ascii_of_N (Z.to_N (48 + d)).
Proof.
  unfold to_digit. cbv zeta. intros Hd.
  assert (48 <= Z.of_N (N_of_ascii c) <= 57 ∧ d = Z.of_N (N_of_ascii c) - 48) as [Hc ->].
  { revert Hd. repeat case_match; rewrite ?andb_true_iff, ?andb_false_iff, ?Z.leb_le, ?Z.leb_gt, ?Z.ltb_lt in *;
      intros [= <-]; lia. }
  split; [lia|]. rewrite <- (ascii_N_embedding c) at 1. f_equal. lia.
Qed.
Lemma digits_text t ds : digits 10 t = (ds, "") → t = text_of ds ∧ Forall (λ d, 0 ≤ d < 10) ds.
Proof.
  revert ds. induction t as [|c t IH]; intros ds; cbn [digits]; [by intros [= <-]|].
  destruct (to_digit 10 c) as [d|] eqn:Hc; [|done]. apply to_digit_decimal in Hc as [Hd ->].
  destruct (digits 10 t) as [ds' rest]. intros [= <- ->]. destruct (IH ds') as [-> Hds]; [done|].
  split; [done|by constructor].
Qed.
Definition decimals : list Z := [0; 1; 2; 3; 4; 5; 6; 7; 8; 9].
(** The digits of an octet, and their text *)
Definition octet_digits : list (list Z) :=
  ((λ d, [d]) <$> decimals) ++
  (a ← [1; 2; 3; 4; 5; 6; 7; 8; 9]; b ← decimals; [[a; b]]) ++
  (a ← [1; 2; 3; 4; 5; 6; 7; 8; 9]; b ← decimals; c ← decimals; [[a; b; c]]).
Lemma octet_digits_printed :
  forallb (λ ds, bool_decide (text_of ds = fmt_N (Z.to_N (number 10 ds)))) octet_digits = true.
Proof. vm_compute. reflexivity. Qed.
Lemma decimals_elem d : 0 ≤ d < 10 → d ∈ decimals.
Proof. intros Hd. unfold decimals. rewrite !elem_of_cons. lia. Qed.
Lemma octet_printed t v : octet t v ↔ 0 ≤ v < 256 ∧ t = fmt_N (Z.to_N v).
Proof.
  split.
  - intros (ds & Hd & Hne & Hlen & Hz & <- & Hb). specialize (Hlen _ eq_refl). specialize (Hz eq_refl).
    apply digits_text in Hd as [-> Hds].
    assert (ds ∈ octet_digits) as Hin.
    { unfold octet_digits. rewrite !elem_of_app, list_elem_of_fmap, !list_elem_of_bind.
      assert (∀ d, d ≠ 0 → 0 ≤ d < 10 → d ∈ [1; 2; 3; 4; 5; 6; 7; 8; 9]) as H9
        by (intros d ??; rewrite !elem_of_cons; lia).
      destruct ds as [|a [|b [|c [|]]]]; cbn in Hlen; try lia; [done|..];
        rewrite !Forall_cons in Hds.
      + left. exists a. split; [done|]. apply decimals_elem. tauto.
      + right. left. exists a. split; [|apply H9; [intros ->; by specialize (Hz eq_refl); cbn in Hz; lia|tauto]].
        apply list_elem_of_bind. exists b. split; [by left|]. apply decimals_elem. tauto.
      + right. right. exists a. split; [|apply H9; [intros ->; by specialize (Hz eq_refl); cbn in Hz; lia|tauto]].
        apply list_elem_of_bind. exists b. split; [|apply decimals_elem; tauto].
        apply list_elem_of_bind. exists c. split; [by left|]. apply decimals_elem. tauto. }
    pose proof (proj1 (forallb_forall _ _) octet_digits_printed ds (proj1 (list_elem_of_In _ _) Hin)) as Hp.
    apply bool_decide_eq_true in Hp. split; [|done].
    split; [|done]. clear -Hds. unfold number. 
    assert (∀ n, 0 ≤ n → 0 ≤ foldl (λ n d, n * 10 + d) n ds) as Hpos; [|by apply Hpos].
    induction Hds; intros n Hn; [done|]. cbn. apply IHHds. lia.
  - intros [Hv ->].
    assert (forallb (λ n, let v := Z.of_nat n in
      match digits 10 (fmt_N (Z.to_N v)) with
      | (ds, rest) => bool_decide (rest = "") && bool_decide (ds ≠ []) && bool_decide (length ds ≤ 3)%nat &&
          (negb (bool_decide (head ds = Some 0)) || bool_decide (length ds ≤ 1)%nat) &&
          bool_decide (number 10 ds = v)
      end) (seq 0 256) = true) as Hall by (vm_compute; reflexivity).
    apply forallb_forall with (x := Z.to_nat v) in Hall; [|apply in_seq; lia].
    cbv zeta in Hall. rewrite Z2Nat.id in Hall by lia. destruct (digits 10 _) as [ds rest] eqn:Hd.
    rewrite !andb_true_iff, orb_true_iff, negb_true_iff, !bool_decide_eq_true, bool_decide_eq_false in Hall.
    destruct Hall as ((((-> & Hne) & Hlen) & Hz) & Hn). exists ds. split_and!; [done..| | |done|lia].
    + by intros m [= <-].
    + intros _ Hh. by destruct Hz.
Qed.

(** *** A port *)
Definition port_text (t : string) (p : Z) : Prop := numeral 10 None true 65536 t p.
Lemma read_port_iff s p rest :
  read_port s = Some (p, rest) ↔ ∃ t, s = ":" +:+ (t +:+ rest) ∧ stops 10 rest ∧ port_text t p.
Proof.
  unfold read_port. split.
  - destruct (read_given_char ":" s) as [s1|] eqn:H1; [|done]. cbn [mbind option_bind].
    apply (read_separator_iff ":" false) in H1. intros (t & -> & Hst & Ht)%read_number_iff. eauto.
  - intros (t & -> & Hst & Ht). change (read_given_char ":" (":" +:+ (t +:+ rest))) with (Some (t +:+ rest)).
    cbn [mbind option_bind]. apply read_number_iff. eauto.
Qed.

(** Without brackets: four numbers below 256, as they are printed, with dots, and a port *)
Definition dotted (os : list Z) : string := join "." ((λ o, fmt_N (Z.to_N o)) <$> os).
Lemma octets_text_dotted os t :
  length os = 4%nat → octets_text true os t ↔ Forall (λ o, 0 ≤ o < 256) os ∧ t = dotted os.
Proof.
  intros Hlen. destruct os as [|a [|b [|c [|d [|]]]]]; try discriminate Hlen.
  rewrite !Forall_cons. unfold dotted, join. cbn [fmap list_fmap String.concat octets_text]. split.
  - intros (ta & ? & -> & [Ha ->]%octet_printed & tb & ? & -> & [Hb ->]%octet_printed & tc & ? & -> &
      [Hc ->]%octet_printed & td & ? & -> & [Hd ->]%octet_printed & ->).
    split; [by auto 10|]. by rewrite str_app_nil_r.
  - intros [(Ha & Hb & Hc & Hd & _) ->].
    eexists _, _. split; [reflexivity|]. split; [by apply octet_printed|].
    eexists _, _. split; [reflexivity|]. split; [by apply octet_printed|].
    eexists _, _. split; [reflexivity|]. split; [by apply octet_printed|].
    eexists _, "". rewrite str_app_nil_r. split; [reflexivity|]. split; [by apply octet_printed|done].
Qed.
Lemma read_socket_addr_v4_iff s addr rest :
  read_socket_addr_v4 s = Some (addr, rest) ↔
  ∃ os p t, addr = V4 os p ∧ length os = 4%nat ∧ Forall (λ o, 0 ≤ o < 256) os ∧ port_text t p ∧
    stops 10 rest ∧ s = dotted os +:+ (":" +:+ (t +:+ rest)).
Proof.
  unfold read_socket_addr_v4, read_ipv4_addr. split.
  - destruct (read_octets 4 true s) as [[os s1]|] eqn:H1; [|done]. cbn [mbind option_bind].
    apply read_octets_iff in H1 as (Hlen & t & -> & Ht & _).
    apply octets_text_dotted in Ht as [Hos ->]; [|done].
    destruct (read_port s1) as [[p s2]|] eqn:H2; [|done]. cbn. intros [= <- <-].
    apply read_port_iff in H2 as (tp & -> & Hst & Hp). by exists os, p, tp.
  - intros (os & p & t & -> & Hlen & Hos & Hp & Hst & ->).
    rewrite (proj2 (read_octets_iff 4 true _ os (":" +:+ (t +:+ rest)))).
    + cbn [mbind option_bind]. rewrite (proj2 (read_port_iff _ p rest)); [done|]. by exists t.
    + split; [done|]. exists (dotted os). split_and!; [done|by apply octets_text_dotted|done].
Qed.
Lemma dotted_digit os s :
  length os = 4%nat → Forall (λ o, 0 ≤ o < 256) os → read_given_char "[" (dotted os +:+ s) = None.
Proof.
  intros Hlen Hos. destruct os as [|a os]; [done|]. apply Forall_cons in Hos as [Ha _].
  assert (octet (fmt_N (Z.to_N a)) a) as (ds & Hd & Hne & _) by by apply octet_printed.
  unfold dotted, join. destruct os as [|b os]; [done|]. cbn [fmap list_fmap String.concat].
  destruct (fmt_N (Z.to_N a)) as [|c t]; [cbn in Hd; by injection Hd as <-|].
  cbn. case_decide as Hc; [|done]. subst c. cbn in Hd. by injection Hd as <-.
Qed.
Theorem parse_v4 s os p :
  parse_socket_addr s = Some (V4 os p) ↔
  length os = 4%nat ∧ Forall (λ o, 0 ≤ o < 256) os ∧
  ∃ t, port_text t p ∧ s = dotted os +:+ (":" +:+ t).
Proof.
  unfold parse_socket_addr. split.
  - destruct (read_socket_addr_v4 s) as [[addr rest]|] eqn:H4.
    + cbn [mbind option_bind]. destruct (is_empty rest) eqn:He; [|done].
      apply is_empty_true in He. subst rest. intros [= ->].
      apply read_socket_addr_v4_iff in H4 as (? & ? & t & [= <- <-] & Hlen & Hos & Hp & _ & ->).
      rewrite str_app_nil_r. eauto 10.
    + unfold read_socket_addr_v6. repeat (case_match || cbn [mbind option_bind]); try done.
      all: unfold mbind, option_bind; repeat case_match; try done; intros [=]; simplify_eq.
  - intros (Hlen & Hos & t & Hp & ->).
    rewrite (proj2 (read_socket_addr_v4_iff _ (V4 os p) "")); [done|].
    exists os, p, t. rewrite str_app_nil_r. by split_and!.
Qed.
(** What starts with anything but a digit or a bracket is refused. *)
Lemma parse_bracket s segments scope p :
  parse_socket_addr s = Some (V6 segments scope p) → ∃ s', s = String "[" s'.
Proof.
  unfold parse_socket_addr. destruct (read_socket_addr_v4 s) as [[addr rest]|] eqn:H4.
  - cbn [mbind option_bind]. destruct (is_empty rest); [|done]. intros [= ->].
    by apply read_socket_addr_v4_iff in H4 as (? & ? & ? & ? & _).
  - unfold read_socket_addr_v6. destruct (read_given_char "[" s) as [s1|] eqn:H1; [|done].
    apply (read_separator_iff "[" false) in H1. intros _. eauto.
Qed.

(** *** IPv6 addresses, written group by group *)
Definition group_text (t : string) (g : Z) : Prop := numeral 16 (Some 4%nat) true 65536 t g.
Fixpoint groups_text (first : bool) (ts : list string) : string :=
  match ts with
  | [] => ""
  | t :: ts => (if first then "" else ":") +:+ (t +:+ groups_text false ts)
  end.
Definition dotless (s : string) : Prop := ("."%char : ascii) ∉ String.list_ascii_of_string s.

Lemma dotless_app s t : dotless (s +:+ t) ↔ dotless s ∧ dotless t.
Proof. unfold dotless. by rewrite list_ascii_app, not_elem_of_app. Qed.
Lemma digits_dotless radix t ds : to_digit radix "." = None → digits radix t = (ds, "") → dotless t.
Proof.
  intros Hdot. revert ds. induction t as [|c t IH]; intros ds; cbn [digits]; [by intros _ ?%not_elem_of_nil|].
  destruct (to_digit radix c) as [d|] eqn:Hc; [|done]. destruct (digits radix t) as [ds' rest].
  intros [= <- ->]. unfold dotless. cbn. apply not_elem_of_cons. split; [|by eapply IH].
  intros <-. by rewrite Hdot in Hc.
Qed.
Lemma group_dotless t g : group_text t g → dotless t.
Proof. intros (ds & Hd & _). by apply (digits_dotless 16 t ds). Qed.
Lemma groups_dotless first ts gs : Forall2 group_text ts gs → dotless (groups_text first ts).
Proof.
  intros Hg. revert first. induction Hg as [|t g ts gs Ht _ IH]; intros first; [by intros ?%not_elem_of_nil|].
  cbn. rewrite !dotless_app. split_and!; [|by eapply group_dotless|done].
  destruct first; unfold dotless; cbn; set_solver.
Qed.
Lemma read_embedded_dotless n first s : dotless s → read_embedded n first s = None.
Proof.
  intros Hs. unfold read_embedded. destruct n; [done|].
  destruct (read_separator ":" first s) as [s1|] eqn:H1; [|done]. apply read_separator_iff in H1. subst s.
  apply dotless_app in Hs as [_ Hs]. cbn [mbind option_bind]. unfold read_ipv4_addr.
  destruct (read_octets 4 true s1) as [[os s2]|] eqn:H2; [|done].
  apply read_octets_iff in H2 as (Hlen & t & -> & Ht & _). exfalso.
  apply dotless_app in Hs as [Hs _]. destruct os as [|a [|b os]]; try discriminate Hlen.
  cbn in Ht. destruct Ht as (ta & ? & -> & _ & tb & tc & -> & _).
  apply dotless_app in Hs as [_ Hs]. unfold dotless in Hs. cbn in Hs. set_solver.
Qed.
Lemma read_groups_full first ts gs rest :
  Forall2 group_text ts gs → stops 16 rest → dotless rest →
  read_groups (length gs) first (groups_text first ts +:+ rest) = (gs, false, rest).
Proof.
  intros Hg Hst Hdot. revert first. induction Hg as [|t g ts gs Ht Hts IH]; intros first; [done|].
  cbn [length read_groups]. rewrite read_embedded_dotless.
  2: { apply dotless_app. split; [|done]. eapply (groups_dotless first). by constructor. }
  rewrite (proj2 (read_separator_iff _ _ _ (t +:+ (groups_text false ts +:+ rest)))).
  2: { cbn [groups_text]. by rewrite !str_app_assoc. }
  cbn [mbind option_bind]. rewrite (proj2 (read_number_iff _ _ _ _ _ g (groups_text false ts +:+ rest))).
  - by rewrite IH.
  - exists t. split_and!; [done| |done]. destruct Hts; [exact Hst|reflexivity].
Qed.
Lemma bracket_no_octets s os rest : read_octets 4 true ("[" +:+ s) ≠ Some (os, rest).
Proof.
  intros (Hlen & t & Ht & Hos & _)%read_octets_iff.
  apply octets_text_dotted in Hos as [Hos ->]; [|done].
  pose proof (dotted_digit os rest Hlen Hos) as Hd. by rewrite <- Ht in Hd.
Qed.
Theorem parse_v6_full ts gs t p :
  length gs = 8%nat → Forall2 group_text ts gs → port_text t p →
  parse_socket_addr ("[" +:+ (join ":" ts +:+ ("]:" +:+ t))) = Some (V6 gs 0 p).
Proof.
  intros Hlen Hg Hp.
  assert (join ":" ts = groups_text true ts) as ->.
  { assert (length ts = 8%nat) as Hts by (by rewrite (Forall2_length _ _ _ Hg)).
    destruct ts as [|t0 [|t1 [|t2 [|t3 [|t4 [|t5 [|t6 [|t7 [|]]]]]]]]]; try discriminate Hts.
    unfold join. cbn [String.concat groups_text]. by rewrite str_app_nil_r. }
  unfold parse_socket_addr.
  destruct (read_socket_addr_v4 _) as [[addr rest]|] eqn:H4.
  { exfalso. unfold read_socket_addr_v4, read_ipv4_addr in H4.
    destruct (read_octets 4 true _) as [[os s]|] eqn:H1; [|done].
    by apply bracket_no_octets in H1. }
  unfold read_socket_addr_v6.
  set (tail := "]:" +:+ t).
  change (read_given_char "[" ("[" +:+ (groups_text true ts +:+ tail))) with
    (Some (groups_text true ts +:+ tail)).
  cbn [mbind option_bind]. unfold read_ipv6_addr.
  assert (dotless tail) as Hdot.
  { unfold tail. apply dotless_app. split; [unfold dotless; cbn; set_solver|].
    destruct Hp as (ds & Hd & _). by apply (digits_dotless 10 t ds). }
  rewrite <- Hlen at 1. rewrite read_groups_full by done.
  rewrite bool_decide_eq_true_2 by done. cbn [mbind option_bind].
  change (read_scope_id tail) with (@None (Z * string)). cbn [default from_option id].
  change (read_given_char "]" tail) with (Some (":" +:+ t)). cbn [mbind option_bind].
  rewrite (proj2 (read_port_iff _ p "")); [done|]. exists t. by rewrite str_app_nil_r.
Qed.
