(* ===== verification/Actions.v ===== *)
(** * Actions: what can happen to the running program

    The background tasks, and everything else that acts on the state: the requests of
    clients, the lines of the stdio transport, the turns of the health monitors, DNS polls,
    Kubernetes reconciliations, reloads, the readers of the notification streams, the
    pruning of sessions, and the passing of time.  [act] runs an action to its end; the
    same actions with the points where they yield are in Awaits.v. *)
From S2P Require Import Prelude Text Json Protocol F64 Env Config RateLimit Rbac Session.
From S2P Require Import Notifications LeafClient Scenario Registry Health Aggregator Router.
From S2P Require Import Server DnsDiscovery CrdDiscovery Status Api Reload App Main.
Open Scope string_scope.
Open Scope list_scope.

(** ** Background tasks *)
Section tasks.
Context `{!Os, !Http, !Serde, !MapOrder, !Kube}.

(** The stream of a leaf, from its request to its end *)
Definition run_listener (l : nat) : M World unit :=
  λ w, let '((_, b), (c, e)) :=
         run_notification_stream (w_broker w) (le_client (entry l w), w_env w) in
       (tt, set_broker b (set_env e (set_heap (alter (set_client c) l (w_heap w)) w))).

Definition run_task (t : Task) : M World unit :=
  match t with
  | TRefresh l => _ ← refresh_leaf l; mret tt
  | TInit l keep_info report =>
      ok ← init_leaf l keep_info;
      match report with
      | Some object => report_status l object ok
      | None => mret tt
      end
  | TListen l => run_listener l
  end.
End tasks.

(** A leaf that is there; the leaves of the table are there. *)
Definition has (l : nat) (w : World) : Prop := is_Some (w_heap w !! l).
#[export] Instance has_dec l w : Decision (has l w).
Proof. unfold has. apply _. Defined.
Definition tabled (w : World) : Prop := ∀ a l, w_leaves w !! a = Some l → has l w.

(** Time passes; a reader of a stream takes an event or goes. *)
Definition advance (d : Z) (w : World) : World :=
  set_env {| now := now (w_env w) + d; uuids := uuids (w_env w); sent := sent (w_env w) |} w.

(** How the program was configured *)
Record Settings := {
  g_auth : AuthState;
  g_dns : DnsDiscoveryConfig;
  g_path : string;
}.

Section system.
Context `{!Os, !Http, !Serde, !MapOrder, !Unicode, !Jwt, !HeaderValue, !Axum, !Kube, !Dig, !Yaml}.

(** What one step does to the state.  [AStart] is what is left of the start-up when monitors
    and discovery run already. *)
Inductive SystemAction : Type :=
| AStart
| ARequest (rq : HttpRequestIn)
| ALine (line : string)
| ATask (before : list Task) (t : Task) (after : list Task)
| AMonitor (l : nat)
| APoll
| AReconcile (obj : MCPServer)
| AReload
| AStreamNext (rx : nat)
| AStreamDrop (rx : nat) (sub_id : string)
| APrune
| APass (d : Z).

Definition act (g : Settings) (a : SystemAction) : M FederationState unit :=
  match a with
  | AStart => in_world spawn_leaf_notification_listeners
  | ARequest rq => _ ← app (g_auth g) rq; mret tt
  | ALine line => _ ← stdio_line line; mret tt
  | ATask before t after =>
      in_world (_ ← m_modify (set_tasks (before ++ after)); run_task t)
  | AMonitor l => in_world (_ ← monitor_turn l; mret tt)
  | APoll => in_world (_ ← poll_once (g_dns g); mret tt)
  | AReconcile obj => in_world (_ ← CrdDiscovery.reconcile obj; mret tt)
  | AReload => in_world (_ ← on_sighup (g_path g); mret tt)
  | AStreamNext rx => in_world (in_broker (λ b, (tt, (stream_next rx b).2)))
  | AStreamDrop rx sub_id => in_world (in_broker (λ b, (tt, stream_drop rx sub_id b)))
  | APrune => t ← m_gets clock; with_sessions_of (λ m, (tt, (prune_expired t m).2))
  | APass d => in_world (m_modify (advance d))
  end.

(** A task that is run was spawned, a monitor was started, time does not run back; the
    start-up does not happen again. *)
Definition enabled_in (monitors : list nat) (s : FederationState) (a : SystemAction) : Prop :=
  match a with
  | AStart => False
  | ATask before t after => w_tasks (st_world s) = before ++ t :: after
  | AMonitor l => l ∈ monitors
  | APass d => (0 ≤ d)%Z
  | _ => True
  end.

Definition is_task (a : SystemAction) : bool := match a with ATask _ _ _ => true | _ => false end.

(** The program if nothing ever waited *)
Inductive atomic_step (g : Settings) (monitors : list nat)
  : FederationState → FederationState → Prop :=
| atomic_act s a : enabled_in monitors s a → atomic_step g monitors s (act g a s).2.
End system.
