(* ===== verification/Threads.v ===== *)
(** * Threads: computations that yield, and their interleavings

    [M] of Prelude.v is a computation that runs to its end.  A [Proc] is the same with the
    points where it yields: a sequence of atomic parts, each of which chooses the rest by
    its result, and of choices of the scheduler, by which a thread may start several others
    and wait for all of them ([p_par]).  Many threads share one state and take turns.  What
    is proved here holds for any state: a thread that runs alone, its own threads one after
    the other ([run]), is one of the schedules ([pool_runs]); what a thread guarantees to
    the others as long as it can rely on them ([rg]) is kept by every interleaving
    ([pool_rg], [rg_par]); and every interleaving of finitely many threads ends
    ([pool_next_sn]). *)
From S2P Require Import Prelude.

Inductive Proc (S A : Type) : Type :=
| Done (a : A)
| Atomic {B : Type} (m : M S B) (k : B → Proc S A)
| Choose (k : bool → Proc S A).
Arguments Done {S A} a.
Arguments Atomic {S A B} m k.
Arguments Choose {S A} k.

#[export] Instance Proc_ret {S} : MRet (Proc S) := λ _ a, Done a.
#[export] Instance Proc_bind {S} : MBind (Proc S) :=
  λ A C f, fix bind p := match p with
                         | Done a => f a
                         | Atomic m k => Atomic m (λ b, bind (k b))
                         | Choose k => Choose (λ c, bind (k c))
                         end.

(** One part: a computation that no other thread interrupts *)
Definition atom {S A} (m : M S A) : Proc S A := Atomic m Done.

(** The [?] operator *)
Definition p_bindr {S E A B} (f : A → Proc S (result E B)) (p : Proc S (result E A))
  : Proc S (result E B) :=
  p ≫= λ r, match r with Ok a => f a | Err e => Done (Err e) end.
Notation "x ←! m ; k" := (p_bindr (λ x, k) m)
  (at level 20, m at level 100, k at level 200) : fed_scope.

Fixpoint p_iter {S A} (f : A → Proc S unit) (l : list A) : Proc S unit :=
  match l with
  | [] => Done tt
  | a :: l => _ ← f a; p_iter f l
  end.
Fixpoint p_map {S A B} (f : A → Proc S B) (l : list A) : Proc S (list B) :=
  match l with
  | [] => Done []
  | a :: l => b ← f a; bs ← p_map f l; Done (b :: bs)
  end.

(** Two threads until both are done; the scheduler chooses which one goes on. *)
Fixpoint p_both {S A B} (p : Proc S A) : Proc S B → Proc S (A * B) :=
  match p with
  | Done a => λ q, b ← q; Done (a, b)
  | Choose k => λ q, Choose (λ c, p_both (k c) q)
  | Atomic m k =>
      fix go q :=
        match q with
        | Done b => a ← Atomic m k; Done (a, b)
        | Choose k' => Choose (λ c, go (k' c))
        | Atomic m' k' =>
            Choose (λ c, if c : bool then Atomic m (λ x, p_both (k x) (Atomic m' k'))
                         else Atomic m' (λ y, go (k' y)))
        end
  end.
(** Many of them *)
Fixpoint p_par {S A B} (f : A → Proc S B) (l : list A) : Proc S (list B) :=
  match l with
  | [] => Done []
  | a :: l => bs ← p_both (f a) (p_par f l); Done (bs.1 :: bs.2)
  end.

(** A thread on a component of a larger state *)
Fixpoint focus {S T A} (lift : ∀ B, M S B → M T B) (p : Proc S A) : Proc T A :=
  match p with
  | Done a => Done a
  | Atomic m k => Atomic (lift _ m) (λ b, focus lift (k b))
  | Choose k => Choose (λ c, focus lift (k c))
  end.

(** Without interruption; the first of two threads is chosen until it is done. *)
Fixpoint run {S A} (p : Proc S A) : M S A :=
  match p with
  | Done a => mret a
  | Atomic m k => b ← m; run (k b)
  | Choose k => run (k true)
  end.

(** One part of a thread that is not finished, or one choice *)
Definition resume {S A} (c : bool) (p : Proc S A) (s : S) : option (Proc S A * S) :=
  match p with
  | Done _ => None
  | Atomic m k => let '(b, s') := m s in Some (k b, s')
  | Choose k => Some (k c, s)
  end.

Definition finished {S A} (p : Proc S A) : Prop := ∃ a, p = Done a.

(** What a thread ends with, whatever the states its parts find *)
Fixpoint always {S A} (Q : A → Prop) (p : Proc S A) : Prop :=
  match p with
  | Done a => Q a
  | Atomic m k => ∀ s, always Q (k (m s).1)
  | Choose k => ∀ c, always Q (k c)
  end.
Lemma always_bind {S A B} P Q (p : Proc S A) (f : A → Proc S B) :
  always P p → (∀ a, P a → always Q (f a)) → always Q (p ≫= f).
Proof. intros Hp Hf. induction p as [a|C m k IH|k IH]; cbn in *; eauto. Qed.
Lemma always_true {S A} (p : Proc S A) : always (λ _, True) p.
Proof. induction p; cbn; auto. Qed.
Lemma always_then {S A B} Q (p : Proc S A) (f : A → Proc S B) :
  (∀ a, always Q (f a)) → always Q (p ≫= f).
Proof. intros Hf. eapply always_bind; [apply always_true|auto]. Qed.
Lemma always_resume {S A} Q c (p : Proc S A) s p' s' :
  always Q p → resume c p s = Some (p', s') → always Q p'.
Proof.
  destruct p as [a|B m k|k]; cbn; [done| |intros Hp [= <- _]; apply Hp].
  intros Hp. specialize (Hp s). destruct (m s). by intros [= <- _].
Qed.

(** ** Running alone *)
Section run.
Context {S : Type}.

Lemma run_bind {A B} (p : Proc S A) (f : A → Proc S B) s :
  run (p ≫= f) s = (run p ≫= λ a, run (f a)) s.
Proof.
  revert s. induction p as [a|C m k IH|k IH]; intros s; [done| |apply IH]. cbn. run_m.
  destruct (m s) as [b s']. apply IH.
Qed.
Lemma run_atom {A} (m : M S A) s : run (atom m) s = m s.
Proof. cbn. run_m. by destruct (m s). Qed.
Lemma run_bindr {E A B} (p : Proc S (result E A)) (f : A → Proc S (result E B)) s :
  run (p_bindr f p) s = m_bindr (λ a, run (f a)) (run p) s.
Proof.
  unfold p_bindr. rewrite run_bind. run_m. by destruct (run p s) as [[a|e] s'].
Qed.
Lemma run_next {A B} (p : Proc S A) (f : A → Proc S B) s a s' :
  run p s = (a, s') → run (p ≫= f) s = run (f a) s'.
Proof. intros Hp. rewrite run_bind. run_m. by rewrite Hp. Qed.
Lemma bind_cong {A B} (m m' : M S A) (f g : A → M S B) s :
  m s = m' s → (∀ a s', f a s' = g a s') → (m ≫= f) s = (m' ≫= g) s.
Proof. intros Hm Hf. run_m. rewrite Hm. by destruct (m' s). Qed.
Lemma bindr_cong {E A B} (m m' : M S (result E A)) (f g : A → M S (result E B)) s :
  m s = m' s → (∀ a s', f a s' = g a s') → m_bindr f m s = m_bindr g m' s.
Proof. intros Hm Hf. run_m. rewrite Hm. by destruct (m' s) as [[a|e] s']. Qed.
Lemma run_iter {A} (f : A → Proc S unit) l s : run (p_iter f l) s = m_iter (λ a, run (f a)) l s.
Proof.
  revert s. induction l as [|a l IH]; intros s; [done|]. cbn [p_iter m_iter].
  rewrite run_bind. by apply bind_cong.
Qed.
Lemma run_map {A B} (f : A → Proc S B) l s : run (p_map f l) s = m_map (λ a, run (f a)) l s.
Proof.
  revert s. induction l as [|a l IH]; intros s; [done|]. cbn [p_map m_map].
  rewrite run_bind. apply bind_cong; [done|]. intros b s'. rewrite run_bind. by apply bind_cong.
Qed.

(** Two threads that are run alone are run one after the other. *)
Lemma run_both {A B} (p : Proc S A) (q : Proc S B) s :
  run (p_both p q) s = (a ← run p; b ← run q; mret (a, b)) s.
Proof.
  revert q s. induction p as [a|C m k IH|k IH]; intros q s; cbn [p_both].
  - by rewrite run_bind.
  - assert (∀ s, run (p_both (Atomic m k) q) s =
      (a ← run (Atomic m k); b ← run q; mret (a, b)) s) as H; [|apply H].
    clear s. induction q as [b|C' m' k' IH'|k' IH']; intros s.
    + cbn [p_both]. by rewrite run_bind.
    + cbn. run_m. destruct (m s) as [x s1]. apply IH.
    + apply IH'.
  - apply IH.
Qed.
Lemma run_par {A B} (f : A → Proc S B) l s : run (p_par f l) s = m_map (λ a, run (f a)) l s.
Proof.
  revert s. induction l as [|a l IH]; intros s; [done|]. cbn [p_par m_map].
  rewrite run_bind. run_m. rewrite run_both. run_m. destruct (run (f a) s) as [b s1].
  rewrite IH. by destruct (m_map _ l s1).
Qed.
End run.

(** A thread and the computation it is the code of, part by part; [same] holds the parts
    that were compared before. *)
Create HintDb same discriminated.
#[export] Hint Resolve run_atom : same.
Lemma run_iter_cong {S A} (f : A → Proc S unit) g l s :
  (∀ a s, run (f a) s = g a s) → run (p_iter f l) s = m_iter g l s.
Proof.
  intros Hfg. rewrite run_iter. revert s. induction l as [|a l IH]; intros s; [done|].
  cbn [m_iter]. apply bind_cong; [apply Hfg|]. intros _ s'. apply IH.
Qed.
Ltac same_code :=
  repeat first
    [ progress intros
    | reflexivity
    | solve [auto with same nocore]
    | match goal with
      | |- run (_ ≫= _) _ = _ => rewrite run_bind; apply bind_cong
      | |- run (p_bindr _ _) _ = _ => rewrite run_bindr; apply bindr_cong
      | |- run (p_iter _ _) _ = _ => apply run_iter_cong
      | |- run (match ?x with _ => _ end) _ = _ => destruct x
      end ].

(** Where the two agree only on some states: from a state in [P], the thread alone does what
    [m] does, and ends in [Q]. *)
Definition same {S A} (P : S → Prop) (p : Proc S A) (m : M S A) (Q : A → S → Prop) : Prop :=
  ∀ s, P s → run p s = m s ∧ Q (m s).1 (m s).2.

Section same.
Context {S : Type}.
Implicit Type P : S → Prop.

Lemma same_code_everywhere {A} P (p : Proc S A) m (Q : A → S → Prop) :
  (∀ s, run p s = m s) → (∀ s, P s → Q (m s).1 (m s).2) → same P p m Q.
Proof. intros Hr HQ s Hs. auto. Qed.
Lemma same_ret {A} P (a : A) (Q : A → S → Prop) : (∀ s, P s → Q a s) → same P (Done a) (mret a) Q.
Proof. intros HQ s Hs. auto. Qed.
Lemma same_atom {A} P (m : M S A) (Q : A → S → Prop) :
  (∀ s, P s → Q (m s).1 (m s).2) → same P (atom m) m Q.
Proof. intros HQ. apply same_code_everywhere; [apply run_atom|done]. Qed.
Lemma same_bind {A B} P (R : A → S → Prop) (p : Proc S A) (f : A → Proc S B) m g Q :
  same P p m R → (∀ a, same (R a) (f a) (g a) Q) → same P (p ≫= f) (m ≫= g) Q.
Proof.
  intros Hp Hf s Hs. destruct (Hp s Hs) as [Hr HR]. rewrite run_bind. run_m. rewrite Hr.
  destruct (m s) as [a s1]. by apply Hf.
Qed.
Lemma same_bindr {E A B} P (R : A → S → Prop) (p : Proc S (result E A))
    (f : A → Proc S (result E B)) m g Q :
  same P p m (λ r s, match r with Ok a => R a s | Err e => Q (Err e) s end) →
  (∀ a, same (R a) (f a) (g a) Q) → same P (p_bindr f p) (m_bindr g m) Q.
Proof.
  intros Hp Hf s Hs. destruct (Hp s Hs) as [Hr HR]. rewrite run_bindr. run_m. rewrite Hr.
  destruct (m s) as [[a|e] s1]; [|done]. by apply Hf.
Qed.
Lemma same_mono {A} P P' (p : Proc S A) m (Q Q' : A → S → Prop) :
  same P p m Q → (∀ s, P' s → P s) → (∀ a s, Q a s → Q' a s) → same P' p m Q'.
Proof. intros Hp HP HQ s Hs. destruct (Hp s (HP s Hs)). auto. Qed.
Lemma same_iter {A} P (f : A → Proc S unit) g l :
  (∀ a, a ∈ l → same P (f a) (g a) (λ _, P)) → same P (p_iter f l) (m_iter g l) (λ _, P).
Proof.
  induction l as [|a l IH]; intros Hf; cbn [p_iter m_iter]; [by apply same_ret|].
  apply (same_bind P (λ _, P)); [apply Hf; left|]. intros _. apply IH. intros b Hb. apply Hf. by right.
Qed.
Lemma same_map {A B} P (f : A → Proc S B) g l :
  (∀ a, a ∈ l → same P (f a) (g a) (λ _, P)) → same P (p_map f l) (m_map g l) (λ _, P).
Proof.
  induction l as [|a l IH]; intros Hf; cbn [p_map m_map]; [by apply same_ret|].
  apply (same_bind P (λ _, P)); [apply Hf; left|]. intros b.
  apply (same_bind P (λ _, P)); [apply IH; intros c Hc; apply Hf; by right|].
  intros bs. by apply same_ret.
Qed.
Lemma same_par {A B} P (f : A → Proc S B) g l :
  (∀ a, a ∈ l → same P (f a) (g a) (λ _, P)) → same P (p_par f l) (m_map g l) (λ _, P).
Proof.
  intros Hf s Hs. destruct (same_map P f g l Hf s Hs) as [Hr HP]. split; [|done].
  by rewrite run_par, <- run_map.
Qed.
End same.

(** ** Rely and guarantee

    [rg I R G p Q s]: from [s] on, each part of [p] keeps the invariant [I] and changes the
    state only as [G] allows, as long as the other threads keep [I] and change the state
    only as [R] allows between its parts; its result, whenever it is looked at,
    satisfies [Q]. *)
Fixpoint rg {S A} (I : S → Prop) (R G : relation S) (p : Proc S A) (Q : A → S → Prop) (s : S)
  : Prop :=
  match p with
  | Done a => ∀ s', I s' → R s s' → Q a s'
  | Atomic m k => ∀ s', I s' → R s s' →
      I (m s').2 ∧ G s' (m s').2 ∧ rg I R G (k (m s').1) Q (m s').2
  | Choose k => ∀ c s', I s' → R s s' → rg I R G (k c) Q s'
  end.

Section rg.
Context {S : Type} (I : S → Prop) (R G : relation S) `{!PreOrder R}.
Notation rg := (rg I R G).

Lemma rg_interfere {A} (p : Proc S A) Q s s' : R s s' → rg p Q s → rg p Q s'.
Proof.
  intros HR. destruct p as [a|B m k|k]; cbn; intros Hp.
  - intros u Hu HRu. apply Hp; [done|by etrans].
  - intros u Hu HRu. apply Hp; [done|by etrans].
  - intros c u Hu HRu. apply Hp; [done|by etrans].
Qed.
Lemma rg_mono {A} (p : Proc S A) (P Q : A → S → Prop) s :
  (∀ a s', I s' → P a s' → Q a s') → rg p P s → rg p Q s.
Proof.
  intros HPQ. revert s. induction p as [a|B m k IH|k IH]; intros s Hp; cbn in *; [auto| |auto].
  intros s' HI HR. destruct (Hp s' HI HR) as (HI' & HR' & Hk). auto.
Qed.
Lemma rg_weaken {A} (R' G' : relation S) (p : Proc S A) Q s :
  (∀ s s', R' s s' → R s s') → (∀ s s', G s s' → G' s s') → rg p Q s → Threads.rg I R' G' p Q s.
Proof.
  intros HR HG. revert s. induction p as [a|B m k IH|k IH]; intros s Hp; cbn in *; [auto| |auto].
  intros s' HI HR'. destruct (Hp s' HI (HR _ _ HR')) as (? & ? & ?). auto.
Qed.
Lemma rg_ret {A} (a : A) (Q : A → S → Prop) s :
  (∀ s', I s' → R s s' → Q a s') → rg (Done a) Q s.
Proof. done. Qed.
Lemma rg_bind {A B} (p : Proc S A) (f : A → Proc S B) Q s :
  I s → rg p (λ a, rg (f a) Q) s → rg (p ≫= f) Q s.
Proof.
  revert s. induction p as [a|C m k IH|k IH]; intros s HI Hp; cbn in *; [by apply Hp| |auto].
  intros s' HI' HR. destruct (Hp s' HI' HR) as (HI2 & HG & Hk). split_and!; [done..|]. by apply IH.
Qed.
Lemma rg_atom {A} (m : M S A) (Q : A → S → Prop) s :
  (∀ s', I s' → R s s' →
     I (m s').2 ∧ G s' (m s').2 ∧ ∀ u, I u → R (m s').2 u → Q (m s').1 u) →
  rg (atom m) Q s.
Proof. intros Hm s' HI HR. by apply Hm. Qed.

(** What holds of a thread among others holds of it alone. *)
Lemma rg_run `{!PreOrder G} {A} (p : Proc S A) Q s :
  I s → rg p Q s → I (run p s).2 ∧ G s (run p s).2 ∧ Q (run p s).1 (run p s).2.
Proof.
  revert s. induction p as [a|B m k IH|k IH]; intros s HI Hp; [| |by apply IH, Hp].
  - split_and!; [done|reflexivity|]. by apply Hp.
  - destruct (Hp s HI ltac:(reflexivity)) as (HI' & HG & Hk). cbn. run_m.
    destruct (m s) as [b s1]. destruct (IH b s1 HI' Hk) as (? & ? & ?).
    split_and!; [done| |done]. by etrans.
Qed.
Lemma rg_resume `{!Reflexive G} {A} c (p : Proc S A) Q s p' s' :
  I s → rg p Q s → resume c p s = Some (p', s') → I s' ∧ G s s' ∧ rg p' Q s'.
Proof.
  destruct p as [a|B m k|k]; [done| |].
  2: { intros HI Hp [= <- <-]. split_and!; [done|reflexivity|]. by apply Hp. }
  intros HI Hp. destruct (Hp s HI ltac:(reflexivity)) as (HI' & HG & Hk).
  cbn. destruct (m s) as [b s1]. by intros [= <- <-].
Qed.

(** A property that neither the others nor the thread itself can lose *)
Lemma rg_stable {A} (R' G' : relation S) (φ : S → Prop) (p : Proc S A) Q s :
  (∀ s s', R' s s' → R s s' ∧ (φ s → φ s')) →
  (∀ s s', G s s' → φ s → G' s s' ∧ φ s') →
  φ s → rg p Q s → Threads.rg I R' G' p (λ a s, Q a s ∧ φ s) s.
Proof.
  intros HR HG. revert s. induction p as [a|B m k IH|k IH]; intros s Hs Hp; cbn in *.
  - intros s' HI HR'. destruct (HR s s' HR'). auto.
  - intros s' HI HR'. destruct (HR s s' HR') as [HR1 Hs']. specialize (Hs' Hs).
    destruct (Hp s' HI HR1) as (HI' & HG1 & Hk). destruct (HG _ _ HG1 Hs') as [? Hs2].
    split_and!; [done..|]. by apply IH.
  - intros c s' HI HR'. destruct (HR s s' HR'). apply IH; auto.
Qed.

(** *** Threads that are safe from any state *)
Definition obeys {A} (m : M S A) : Prop := ∀ s, I s → I (m s).2 ∧ G s (m s).2.
Definition safely {A} (p : Proc S A) : Prop := ∀ s, I s → rg p (λ _ _, True) s.

Lemma safely_done {A} (a : A) : safely (Done a).
Proof. by intros s HI. Qed.
Lemma safely_atom {A} (m : M S A) : obeys m → safely (atom m).
Proof. intros Hm s HI. apply rg_atom. intros s' HI' _. destruct (Hm s' HI'). auto. Qed.
Lemma safely_bind {A B} (p : Proc S A) (f : A → Proc S B) :
  safely p → (∀ a, safely (f a)) → safely (p ≫= f).
Proof.
  intros Hp Hf s HI. apply rg_bind; [done|]. eapply rg_mono; [|by apply Hp].
  intros a s' HI' _. by apply Hf.
Qed.
Lemma safely_bindr {E A B} (p : Proc S (result E A)) (f : A → Proc S (result E B)) :
  safely p → (∀ a, safely (f a)) → safely (p_bindr f p).
Proof. intros Hp Hf. apply safely_bind; [done|]. intros [a|e]; [apply Hf|apply safely_done]. Qed.
Lemma safely_iter_in {A} (f : A → Proc S unit) l :
  (∀ a, a ∈ l → safely (f a)) → safely (p_iter f l).
Proof.
  induction l as [|a l IH]; intros Hf; [apply safely_done|]. apply safely_bind; [apply Hf; left|].
  intros _. apply IH. intros b Hb. apply Hf. by right.
Qed.
Lemma safely_iter {A} (f : A → Proc S unit) l : (∀ a, safely (f a)) → safely (p_iter f l).
Proof. intros Hf. by apply safely_iter_in. Qed.
Lemma safely_map {A B} (f : A → Proc S B) l : (∀ a, safely (f a)) → safely (p_map f l).
Proof.
  intros Hf. induction l; [apply safely_done|]. apply safely_bind; [done|]. intros b.
  apply safely_bind; [done|]. intros bs. apply safely_done.
Qed.

Context `{!PreOrder G}.
Lemma obeys_ret {A} (a : A) : obeys (mret a).
Proof. by intros s HI. Qed.
Lemma obeys_gets {A} (f : S → A) : obeys (m_gets f).
Proof. by intros s HI. Qed.
Lemma obeys_bind {A B} (m : M S A) (f : A → M S B) :
  obeys m → (∀ a, obeys (f a)) → obeys (m ≫= f).
Proof.
  intros Hm Hf s HI. specialize (Hm s HI). run_m. destruct (m s) as [a s1]. cbn in Hm.
  destruct Hm as [HI1 HG1]. destruct (Hf a s1 HI1) as [HI2 HG2]. split; [done|by etrans].
Qed.
Lemma obeys_bindr {E A B} (m : M S (result E A)) (f : A → M S (result E B)) :
  obeys m → (∀ a, obeys (f a)) → obeys (m_bindr f m).
Proof.
  intros Hm Hf s HI. specialize (Hm s HI). run_m. destruct (m s) as [[a|e] s1]; [|done].
  destruct Hm as [HI1 HG1]. destruct (Hf a s1 HI1) as [HI2 HG2]. split; [done|by etrans].
Qed.
Lemma obeys_iter {A} (f : A → M S unit) l : (∀ a, obeys (f a)) → obeys (m_iter f l).
Proof. intros Hf. induction l; [apply obeys_ret|]. by apply obeys_bind. Qed.
Lemma obeys_map {A B} (f : A → M S B) l : (∀ a, obeys (f a)) → obeys (m_map f l).
Proof.
  intros Hf. induction l; [apply obeys_ret|]. apply obeys_bind; [done|]. intros b.
  apply obeys_bind; [done|]. intros bs. apply obeys_ret.
Qed.
End rg.

(** ** What the parts of a thread keep to

    As [rg], for a guarantee [G] that is not needed to show that [I] stays true. *)
Fixpoint keeps_to {S A} (I : S → Prop) (R G : relation S) (p : Proc S A) (s : S) : Prop :=
  match p with
  | Done _ => True
  | Atomic m k => ∀ s', I s' → R s s' → G s' (m s').2 ∧ keeps_to I R G (k (m s').1) (m s').2
  | Choose k => ∀ c s', I s' → R s s' → keeps_to I R G (k c) s'
  end.

Section keeps_to.
Context {S : Type} (I : S → Prop) (R G : relation S).
Definition everywhere {A} (p : Proc S A) : Prop := ∀ s, keeps_to I R G p s.

Lemma everywhere_done {A} (a : A) : everywhere (Done a).
Proof. by intros s. Qed.
Lemma everywhere_atom {A} (m : M S A) : (∀ s, I s → G s (m s).2) → everywhere (atom m).
Proof. intros Hm s s' HI _. split; [by apply Hm|done]. Qed.
Lemma everywhere_bind {A B} (p : Proc S A) (f : A → Proc S B) :
  everywhere p → (∀ a, everywhere (f a)) → everywhere (p ≫= f).
Proof.
  intros Hp Hf s. specialize (Hp s). revert s Hp.
  induction p as [a|C m k IH|k IH]; intros s Hp; [by apply Hf| |].
  - intros s' HI HR. destruct (Hp s' HI HR). split; [done|]. by apply IH.
  - intros c s' HI HR. apply IH, Hp; done.
Qed.
Lemma everywhere_iter {A} (f : A → Proc S unit) l : (∀ a, everywhere (f a)) → everywhere (p_iter f l).
Proof. intros Hf. induction l; [apply everywhere_done|]. by apply everywhere_bind. Qed.

Lemma keeps_to_interfere `{!PreOrder R} {A} (p : Proc S A) s s' :
  R s s' → keeps_to I R G p s → keeps_to I R G p s'.
Proof.
  intros HR. destruct p; cbn; intros Hp; [done|..]; intros; apply Hp; try done; by etrans.
Qed.
Lemma keeps_to_resume `{!Reflexive R, !Reflexive G} {A} c (p : Proc S A) s p' s' :
  I s → keeps_to I R G p s → resume c p s = Some (p', s') → G s s' ∧ keeps_to I R G p' s'.
Proof.
  intros HI. destruct p as [a|B m k|k]; cbn; [done| |].
  - intros Hp. destruct (Hp s HI) as [HG Hk]; [done|]. destruct (m s). by intros [= <- <-].
  - intros Hp [= <- <-]. split; [done|]. by apply Hp.
Qed.
Lemma keeps_to_and (G' : relation S) {A} (p : Proc S A) s :
  keeps_to I R G p s → keeps_to I R G' p s → keeps_to I R (λ s s', G s s' ∧ G' s s') p s.
Proof.
  revert s. induction p as [a|B m k IH|k IH]; cbn; intros s Hp Hp'; [done|..].
  - intros s' HI HR. destruct (Hp s' HI HR), (Hp' s' HI HR). auto.
  - intros c s' HI HR. auto.
Qed.
Lemma keeps_to_any {A} (p : Proc S A) s : (∀ s s', G s s') → keeps_to I R G p s.
Proof. intros HG. revert s. induction p; cbn; auto. Qed.
Lemma keeps_to_if (P : Prop) {A} (p : Proc S A) s :
  (P → keeps_to I R G p s) → keeps_to I R (λ s s', P → G s s') p s.
Proof.
  revert s. induction p as [a|B m k IH|k IH]; cbn; intros s Hp; [done|..].
  - intros s' HI HR. split; [intros HP|apply IH; intros HP]; by apply (Hp HP).
  - intros c s' HI HR. apply IH. auto.
Qed.
End keeps_to.
Lemma keeps_to_focus {S T A} (get : T → S) (lift : ∀ B, M S B → M T B) I R G (p : Proc S A) t :
  (∀ B (m : M S B) t, (lift B m t).1 = (m (get t)).1 ∧ get (lift B m t).2 = (m (get t)).2) →
  keeps_to I R G p (get t) →
  keeps_to (λ t, I (get t)) (λ t t', R (get t) (get t')) (λ t t', G (get t) (get t'))
    (focus lift p) t.
Proof.
  intros Hlift. revert t. induction p as [a|B m k IH|k IH]; intros t Hp; cbn; [done| |auto].
  intros t' HI HR. destruct (Hp _ HI HR) as [HG Hk]. destruct (Hlift B m t') as [H1 H2].
  rewrite H2. split; [done|]. apply IH. by rewrite H1, H2.
Qed.

(** What is safe keeps to its guarantee. *)
Lemma rg_keeps_to {S A} (I : S → Prop) (R G : relation S) (p : Proc S A) Q s :
  rg I R G p Q s → keeps_to I R G p s.
Proof.
  revert s. induction p as [a|B m k IH|k IH]; intros s Hp; [done|..].
  - intros s' HI HR. destruct (Hp s' HI HR) as (_ & HG & Hk). auto.
  - intros c s' HI HR. by apply IH, Hp.
Qed.
Lemma safely_everywhere {S A} (I : S → Prop) (R G : relation S) `{!Reflexive R} (p : Proc S A) :
  safely I R G p → everywhere I R G p.
Proof.
  intros Hp s. destruct p as [a|B m k|k]; [done|..].
  - intros s' HI _. by apply (rg_keeps_to _ _ _ _ _ _ (Hp s' HI)).
  - intros c s' HI _. by apply (rg_keeps_to _ _ _ _ _ _ (Hp s' HI)).
Qed.
Lemma everywhere_mono {S A} (I I' : S → Prop) (R R' G G' : relation S) (p : Proc S A) :
  (∀ s, I' s → I s) → (∀ s s', R' s s' → R s s') → (∀ s s', I' s → G s s' → G' s s') →
  everywhere I R G p → everywhere I' R' G' p.
Proof.
  intros HI HR HG Hp s. specialize (Hp s). revert s Hp.
  induction p as [a|B m k IH|k IH]; intros s Hp; [done|..].
  - intros s' Hs' Hr. destruct (Hp s' (HI _ Hs') (HR _ _ Hr)). auto.
  - intros c s' Hs' Hr. auto.
Qed.
Lemma everywhere_and {S A} (I : S → Prop) (R G G' : relation S) (p : Proc S A) :
  everywhere I R G p → everywhere I R G' p → everywhere I R (λ s s', G s s' ∧ G' s s') p.
Proof. intros Hp Hp' s. by apply keeps_to_and. Qed.

(** ** What a thread tells of itself

    [ev s s' es]: a part that goes from [s] to [s'] does [es].  What the thread has done so
    far satisfies [Q], wherever it is, as long as the others keep to [R]. *)
Fixpoint narrates {S A E} (I : S → Prop) (R : relation S) (ev : S → S → list E → Prop)
    (p : Proc S A) (Q : list E → S → Prop) (s : S) : Prop :=
  Q [] s ∧
  match p with
  | Done _ => True
  | Atomic m k => ∀ s', I s' → R s s' → ∃ es,
      ev s' (m s').2 es ∧ narrates I R ev (k (m s').1) (λ more, Q (es ++ more)) (m s').2
  | Choose k => ∀ c s', I s' → R s s' → narrates I R ev (k c) Q s'
  end.

Section narrates.
Context {S E : Type} (I : S → Prop) (R : relation S) `{!PreOrder R} (ev : S → S → list E → Prop).
Notation narrates p Q s := (narrates I R ev p Q s).
(** What is true of the deeds of a thread is not undone by the others. *)
Definition lasting (Q : list E → S → Prop) : Prop :=
  ∀ es s s', Q es s → I s → I s' → R s s' → Q es s'.

Lemma lasting_app (Q : list E → S → Prop) es : lasting Q → lasting (λ more, Q (es ++ more)).
Proof. intros HQ es'. apply HQ. Qed.
Lemma narrates_now {A} (p : Proc S A) Q s : narrates p Q s → Q [] s.
Proof. destruct p; by intros []. Qed.
Lemma narrates_mono {A} (p : Proc S A) (P Q : list E → S → Prop) s :
  (∀ es s, P es s → Q es s) → narrates p P s → narrates p Q s.
Proof.
  revert s P Q. induction p as [a|B m k IH|k IH]; intros s P Q HPQ [Hs Hp]; (split; [auto|]); [done|..].
  - intros s' HI HR. destruct (Hp s' HI HR) as (es & He & Hk). exists es. split; [done|].
    eapply IH; [|exact Hk]. auto.
  - intros c s' HI HR. eapply IH; [|by apply Hp]. auto.
Qed.
Lemma narrates_interfere {A} (p : Proc S A) Q s s' :
  lasting Q → I s → I s' → R s s' → narrates p Q s → narrates p Q s'.
Proof.
  intros HQ HI HI' HR. destruct p; cbn; intros [Hs Hp]; (split; [by eapply HQ|]); [done|..];
    intros; apply Hp; try done; by etrans.
Qed.
Lemma narrates_resume {A} c (p : Proc S A) Q s p' s' :
  (∀ s, ev s s []) → I s → narrates p Q s → resume c p s = Some (p', s') →
  ∃ es, ev s s' es ∧ narrates p' (λ more, Q (es ++ more)) s'.
Proof.
  intros Hev HI. destruct p as [a|B m k|k]; cbn; [done| |].
  - intros [_ Hp]. destruct (Hp s HI) as (es & He & Hk); [done|]. destruct (m s).
    intros [= <- <-]. eauto.
  - intros [_ Hp] [= <- <-]. exists []. split; [done|]. by apply Hp.
Qed.

(** Nothing is told by a thread that does nothing of the kind, *)
Lemma narrates_silent {A} (p : Proc S A) (Q : list E → S → Prop) :
  (∀ s, Q [] s) → everywhere I R (λ s s', ev s s' []) p → ∀ s, narrates p Q s.
Proof.
  intros HQ Hp s. specialize (Hp s). revert s Hp. induction p as [a|B m k IH|k IH]; intros s Hp;
    (split; [done|]); [done|..].
  - intros s' HI HR. destruct (Hp s' HI HR) as [He Hk]. exists []. auto.
  - intros c s' HI HR. auto.
Qed.
(** or at its beginning, where it may come to know [J]. *)
Lemma narrates_after {A B} (J : S → Prop) (P : A → Prop) (p : Proc S A) (f : A → Proc S B)
    (Q : list E → S → Prop) :
  (∀ s s', J s → I s' → R s s' → J s') → (∀ s, J s → Q [] s) → always P p →
  everywhere I R (λ s s', ev s s' [] ∧ (J s → J s')) p →
  (∀ a s, P a → J s → narrates (f a) Q s) → ∀ s, J s → narrates (p ≫= f) Q s.
Proof.
  intros HJ HQ HP Hp Hf s. specialize (Hp s). revert s HP Hp.
  induction p as [a|C m k IH|k IH]; intros s HP Hp Hs; cbn; [by apply Hf|split; [by apply HQ|]..].
  - intros s' HI HR. destruct (Hp s' HI HR) as [[He Hj] Hk]. exists []. split; [done|].
    apply IH; [apply HP|done|]. eauto.
  - intros c s' HI HR. apply IH; [apply HP|by apply Hp|eauto].
Qed.
Lemma narrates_then {A B} (p : Proc S A) (f : A → Proc S B) (Q : list E → S → Prop) :
  (∀ s, Q [] s) → everywhere I R (λ s s', ev s s' []) p → (∀ a s, narrates (f a) Q s) →
  ∀ s, narrates (p ≫= f) Q s.
Proof.
  intros HQ Hp Hf s. apply (narrates_after (λ _, True) (λ _, True)); try done; [apply always_true|].
  by eapply everywhere_mono; [..|exact Hp].
Qed.
(** A part, after which [J] is still known *)
Lemma narrates_part {A B} (J : S → Prop) (m : M S B) (k : B → Proc S A) (Q : list E → S → Prop) :
  (∀ s s', J s → I s' → R s s' → J s') → (∀ s, J s → Q [] s) →
  (∀ s, I s → J s → ∃ es, ev s (m s).2 es ∧ narrates (k (m s).1) (λ more, Q (es ++ more)) (m s).2) →
  ∀ s, J s → narrates (Atomic m k) Q s.
Proof. intros HJ HQ Hm s Hs. split; [auto|]. intros s' HI HR. apply Hm; eauto. Qed.
(** What comes back is not told. *)
Lemma narrates_map {A B} (p : Proc S A) (g : A → B) Q s :
  narrates (p ≫= λ a, Done (g a)) Q s ↔ narrates p Q s.
Proof.
  revert s Q. induction p as [a|C m k IH|k IH]; intros s Q; [done|..]; cbn; apply and_iff_compat_l.
  - split; intros Hp s' HI HR; destruct (Hp s' HI HR) as (es & He & Hk); exists es;
      (split; [done|]); by apply IH.
  - split; intros Hp c s' HI HR; by apply IH, Hp.
Qed.
End narrates.
Lemma narrates_focus {S T A E} (get : T → S) (lift : ∀ B, M S B → M T B) I R
    (ev : S → S → list E → Prop) (ev' : T → T → list E → Prop) (p : Proc S A) Q t :
  (∀ B (m : M S B) t, (lift B m t).1 = (m (get t)).1 ∧ get (lift B m t).2 = (m (get t)).2 ∧
     ∀ es, ev (get t) (m (get t)).2 es → ev' t (lift B m t).2 es) →
  narrates I R ev p Q (get t) →
  narrates (λ t, I (get t)) (λ t t', R (get t) (get t')) ev' (focus lift p) (λ es t, Q es (get t)) t.
Proof.
  intros Hlift. revert t Q. induction p as [a|B m k IH|k IH]; intros t Q [HQ Hp]; (split; [done|]);
    [done|..].
  - intros t' HI HR. destruct (Hlift B m t') as (H1 & H2 & Hev). destruct (Hp _ HI HR) as (es & He & Hk).
    exists es. split; [by apply Hev|]. rewrite H1. apply (IH _ _ (λ more, Q (es ++ more))). by rewrite H2.
  - intros c t' HI HR. by apply IH, Hp.
Qed.

(** ** A thread that runs to its end, with nobody else *)
Definition goes_on {S A} (x y : Proc S A * S) : Prop := ∃ c, resume c x.1 x.2 = Some y.
Definition ends {S A} (p : Proc S A) (s : S) (a : A) (s' : S) : Prop :=
  rtc goes_on (p, s) (Done a, s').

(** A thread without choices has one way to run. *)
Fixpoint straight {S A} (p : Proc S A) : Prop :=
  match p with
  | Done _ => True
  | Atomic m k => ∀ s, straight (k (m s).1)
  | Choose _ => False
  end.
Lemma straight_bind {S A B} (p : Proc S A) (f : A → Proc S B) :
  straight p → (∀ a, straight (f a)) → straight (p ≫= f).
Proof. intros Hp Hf. induction p; cbn in *; auto. Qed.
Lemma straight_iter {S A} (f : A → Proc S unit) l : (∀ a, straight (f a)) → straight (p_iter f l).
Proof. intros Hf. induction l; [done|]. by apply straight_bind. Qed.
Lemma straight_map {S A B} (f : A → Proc S B) l : (∀ a, straight (f a)) → straight (p_map f l).
Proof. intros Hf. induction l; [done|]. apply straight_bind; [done|]. intros. by apply straight_bind. Qed.
Lemma straight_ends {S A} (p : Proc S A) s a s' : straight p → ends p s a s' → run p s = (a, s').
Proof.
  unfold ends. remember (p, s) as x eqn:Hx. remember (Done a, s') as y eqn:Hy.
  intros Hp Hr. revert p s Hx Hp. induction Hr as [x|x [p1 s1] y [c Hc] _ IH]; intros p s -> Hp.
  - by injection Hy as -> ->.
  - specialize (IH Hy p1 s1 eq_refl). destruct p as [b|B m k|k]; cbn in *; [done| |done].
    run_m. specialize (Hp s). destruct (m s) as [b s2]. injection Hc as <- <-. auto.
Qed.

Lemma rg_ends {S A} (I : S → Prop) (R G : relation S) `{!PreOrder R, !PreOrder G}
    (p : Proc S A) Q s a s' :
  I s → rg I R G p Q s → ends p s a s' → I s' ∧ G s s' ∧ Q a s'.
Proof.
  unfold ends. remember (p, s) as x eqn:Hx. remember (Done a, s') as y eqn:Hy.
  intros HI Hp Hr. revert p s Hx HI Hp. induction Hr as [x|x [p1 s1] y [c Hc] _ IH]; intros p s -> HI Hp.
  - injection Hy as -> ->. split_and!; [done|reflexivity|]. by apply Hp.
  - destruct (rg_resume I R G c p Q s p1 s1 HI Hp Hc) as (HI1 & HG & Hp1).
    destruct (IH Hy p1 s1 eq_refl HI1 Hp1) as (? & ? & ?). split_and!; [done| |done]. by etrans.
Qed.
Lemma run_ends {S A} (p : Proc S A) s : ends p s (run p s).1 (run p s).2.
Proof.
  unfold ends. revert s. induction p as [a|B m k IH|k IH]; intros s; [apply rtc_refl| |].
  - cbn. run_m. destruct (m s) as [b s1] eqn:Hm. eapply rtc_l; [|apply IH].
    exists true. cbn. by rewrite Hm.
  - eapply rtc_l; [|apply IH]. by exists true.
Qed.

(** ** Threads in parallel

    Each relies on what the other guarantees and on what all others do. *)
Section parallel.
Context {S : Type} (I : S → Prop).

(** What a thread ends with stays true while another goes on. *)
Lemma rg_closed {A} (R G : relation S) `{!PreOrder R} (p : Proc S A) Q s :
  rg I R G p Q s → rg I R G p (λ a s, ∀ s', I s' → R s s' → Q a s') s.
Proof.
  revert s. induction p as [a|B m k IH|k IH]; intros s Hp; cbn in *; [| |auto].
  - intros s' HI HR u Hu HRu. apply Hp; [done|by etrans].
  - intros s' HI HR. destruct (Hp s' HI HR) as (? & ? & ?). auto.
Qed.
Lemma rg_beside {B} (R R1 R2 G2 G : relation S) `{!PreOrder R1, !PreOrder R2}
    (q : Proc S B) (Q1 : S → Prop) Q2 s :
  (∀ s s', R s s' → R1 s s' ∧ R2 s s') → (∀ s s', G2 s s' → R1 s s' ∧ G s s') →
  (∀ s', I s' → R1 s s' → Q1 s') → rg I R2 G2 q Q2 s →
  rg I R G q (λ b s, ∀ s', I s' → R s s' → Q1 s' ∧ Q2 b s') s.
Proof.
  intros HR HG HQ Hq%rg_closed; [|apply _].
  eapply rg_mono; [|apply (rg_stable I R2 G2 R G (λ s', ∀ u, I u → R1 s' u → Q1 u)); [..|exact Hq]].
  - intros b u Hu [HQ2 HQ1] v Hv Hr. destruct (HR u v Hr). split; auto.
  - intros u u' Hr. destruct (HR u u' Hr) as [? ?]. split; [done|]. intros Hu v Hv Hr'.
    apply Hu; [done|by etrans].
  - intros u u' Hg Hu. destruct (HG u u' Hg) as [? ?]. split; [done|]. intros v Hv Hr'.
    apply Hu; [done|by etrans].
  - done.
Qed.

Lemma rg_both {A B} (R R1 R2 G1 G2 G : relation S) `{!PreOrder R, !PreOrder R1, !PreOrder R2}
    (p : Proc S A) (q : Proc S B) Q1 Q2 s :
  (∀ s s', R s s' → R1 s s' ∧ R2 s s') →
  (∀ s s', G1 s s' → R2 s s' ∧ G s s') → (∀ s s', G2 s s' → R1 s s' ∧ G s s') →
  I s → rg I R1 G1 p Q1 s → rg I R2 G2 q Q2 s →
  rg I R G (p_both p q) (λ ab s, Q1 ab.1 s ∧ Q2 ab.2 s) s.
Proof.
  intros HR HG1 HG2.
  revert q s. induction p as [a|X m k IH|k IH]; intros q s HI Hp Hq; cbn [p_both].
  - apply rg_bind; [apply _|done|]. eapply rg_mono;
      [|exact (rg_beside R R1 R2 G2 G q (Q1 a) Q2 s HR HG2 Hp Hq)].
    intros b s' _ Hb. exact Hb.
  - revert s HI Hp Hq. induction q as [b|Y m' k' IH'|k' IH']; intros s HI Hp Hq.
    + apply rg_bind; [apply _|done|]. eapply rg_mono;
        [|apply (rg_beside R R2 R1 G1 G (Atomic m k) (Q2 b) Q1 s); [|done..]].
      * intros a s' _ Ha u Hu Hr. destruct (Ha u Hu Hr). auto.
      * intros u u' Hr. destruct (HR u u' Hr). auto.
    + intros [|] s1 HI1 Hr1; intros s2 HI2 Hr2; destruct (HR _ _ Hr1), (HR _ _ Hr2).
      * destruct (Hp s2 HI2) as (HI3 & Hg & Hk); [by etrans|]. destruct (HG1 _ _ Hg).
        split_and!; [done..|]. apply IH; [done..|].
        eapply rg_interfere; [apply _| |exact Hq]. transitivity s2; [by transitivity s1|done].
      * destruct (Hq s2 HI2) as (HI3 & Hg & Hk); [by etrans|]. destruct (HG2 _ _ Hg).
        split_and!; [done..|]. apply IH'; [done| |done].
        eapply rg_interfere; [apply _| |exact Hp]. transitivity s2; [by transitivity s1|done].
    + intros c s1 HI1 Hr1. destruct (HR _ _ Hr1). apply IH'; [done| |by apply Hq].
      by eapply rg_interfere.
  - intros c s1 HI1 Hr1. destruct (HR _ _ Hr1). apply IH; [done|by apply Hp|].
    by eapply rg_interfere.
Qed.

(** Many: each relies on what the others guarantee. *)
Definition rely_all {A} (Rs : A → relation S) (l : list A) : relation S :=
  λ s s', ∀ a, a ∈ l → Rs a s s'.
Definition guarantee_some {A} (Gs : A → relation S) (l : list A) : relation S :=
  λ s s', ∃ a, a ∈ l ∧ Gs a s s'.
#[export] Instance rely_all_preorder {A} (Rs : A → relation S) l :
  (∀ a, PreOrder (Rs a)) → PreOrder (rely_all Rs l).
Proof.
  intros HR. split; [intros s a _; reflexivity|].
  intros s1 s2 s3 H12 H23 a Ha. etrans; [by apply H12|by apply H23].
Qed.

Lemma rg_par {A B} (Rs Gs : A → relation S) `{!∀ a, PreOrder (Rs a)}
    (f : A → Proc S B) (Q : A → S → Prop) l s :
  NoDup l → (∀ a b s s', a ∈ l → b ∈ l → a ≠ b → Gs a s s' → Rs b s s') →
  I s → (∀ a, a ∈ l → rg I (Rs a) (Gs a) (f a) (λ _, Q a) s) →
  rg I (rely_all Rs l) (guarantee_some Gs l) (p_par f l) (λ _ s, ∀ a, a ∈ l → Q a s) s.
Proof.
  intros Hnd. revert s. induction Hnd as [|a l Ha Hnd IH]; intros s Hothers HI Hf; cbn [p_par].
  { by intros s' _ _ b ?%not_elem_of_nil. }
  apply rg_bind; [apply _|done|]. eapply rg_mono; [|apply rg_closed; [apply _|];
    apply (rg_both (rely_all Rs (a :: l)) (Rs a) (rely_all Rs l) (Gs a) (guarantee_some Gs l)
      (guarantee_some Gs (a :: l)) (f a) (p_par f l) (λ _, Q a) (λ _ s, ∀ b, b ∈ l → Q b s))].
  - intros [b bs] s1 _ HQ u Hu Hr. destruct (HQ u Hu Hr) as [HQa HQl].
    intros b' [->|Hb]%elem_of_cons; auto.
  - intros u u' Hr. split; [apply Hr; left|]. intros b Hb. apply Hr. by right.
  - intros u u' Hg. split; [|exists a; split; [left|done]].
    intros b Hb. apply (Hothers a); [left|by right|by intros ->|done].
  - intros u u' (b & Hb & Hg). split; [|exists b; split; [by right|done]].
    apply (Hothers b); [by right|left|by intros ->|done].
  - done.
  - apply Hf. left.
  - apply IH; [|done|].
    + intros b c u u' Hb Hc. apply Hothers; by right.
    + intros b Hb. apply Hf. by right.
Qed.
Lemma safely_par {A B} (R G : relation S) `{!PreOrder R} (f : A → Proc S B) l :
  (∀ s s', G s s' → R s s') → (∀ a, safely I R G (f a)) → safely I R G (p_par f l).
Proof.
  intros HGR Hf. induction l as [|a l IH]; cbn [p_par]; [apply safely_done|].
  apply safely_bind; [apply _| |intros bs; apply safely_done]. intros s HI.
  eapply rg_mono; [|apply (rg_both R R R G G G _ _ (λ _ _, True) (λ _ _, True))].
  - done.
  - auto.
  - auto.
  - auto.
  - done.
  - by apply Hf.
  - by apply IH.
Qed.
End parallel.

(** A thread on a component [get] of the state *)
Lemma rg_focus {S T A} (get : T → S) (lift : ∀ B, M S B → M T B) I R G (p : Proc S A) Q t :
  (∀ B (m : M S B) t, (lift B m t).1 = (m (get t)).1 ∧ get (lift B m t).2 = (m (get t)).2) →
  rg I R G p Q (get t) →
  rg (λ t, I (get t)) (λ t t', R (get t) (get t')) (λ t t', G (get t) (get t')) (focus lift p)
     (λ a t, Q a (get t)) t.
Proof.
  intros Hlift. revert t. induction p as [a|B m k IH|k IH]; intros t Hp; cbn; [auto| |auto].
  intros t' HI HR. destruct (Hp _ HI HR) as (HI' & HG & Hk).
  destruct (Hlift B m t') as [H1 H2]. rewrite H2. split_and!; [done..|].
  apply IH. by rewrite H1, H2.
Qed.
Lemma safely_focus {S T A} (get : T → S) (lift : ∀ B, M S B → M T B) I R G (p : Proc S A) :
  (∀ B (m : M S B) t, (lift B m t).1 = (m (get t)).1 ∧ get (lift B m t).2 = (m (get t)).2) →
  safely I R G p →
  safely (λ t, I (get t)) (λ t t', R (get t) (get t')) (λ t t', G (get t) (get t')) (focus lift p).
Proof. intros Hlift Hp t HI. apply (rg_focus get lift I R G p (λ _ _, True)); auto. Qed.

(** ** Threads that take turns

    Each has a label, which says what it was started for. *)
Section pool.
Context {S A L : Type}.
Notation Pool := (list (L * Proc S A)).

Inductive pool_step (i : L) : S * Pool → S * Pool → Prop :=
| pool_resume c s before p after p' s' :
    resume c p s = Some (p', s') →
    pool_step i (s, before ++ (i, p) :: after) (s', before ++ (i, p') :: after).

(** The threads are safe, each with the guarantee of its label, and each ends as its
    label says. *)
Definition safe (I : S → Prop) (R : relation S) (G : L → relation S) (Q : L → S → Prop) (s : S)
    (ip : L * Proc S A) : Prop :=
  rg I R (G ip.1) ip.2 (λ _, Q ip.1) s.

Lemma safe_interfere I R G Q `{!PreOrder R} s s' (ps : Pool) :
  R s s' → Forall (safe I R G Q s) ps → Forall (safe I R G Q s') ps.
Proof. intros HR Hps. eapply Forall_impl; [exact Hps|]. intros ip. by apply rg_interfere. Qed.

Lemma pool_rg I R G Q `{!PreOrder R, !∀ i, Reflexive (G i)} i s ps s' ps' :
  (∀ i s s', G i s s' → R s s') →
  pool_step i (s, ps) (s', ps') → I s → Forall (safe I R G Q s) ps →
  I s' ∧ G i s s' ∧ Forall (safe I R G Q s') ps'.
Proof.
  intros HGR. inversion_clear 1 as [c ? before p after p' ? Hr]. intros HI.
  intros [Hb [Hp Ha]%Forall_cons]%Forall_app.
  destruct (rg_resume I R (G i) c p _ s p' s' HI Hp Hr) as (HI' & HG & Hp').
  pose proof (HGR _ _ _ HG) as HR. split_and!; [done..|].
  apply Forall_app. split; [by eapply safe_interfere|].
  constructor; [done|]. by eapply safe_interfere.
Qed.

(** Each thread keeps to the guarantee of its label. *)
Definition keeps (I : S → Prop) (R : relation S) (G : L → relation S) (s : S)
    (ip : L * Proc S A) : Prop := keeps_to I R (G ip.1) ip.2 s.
Lemma keeps_interfere I R G `{!PreOrder R} s s' (ps : Pool) :
  R s s' → Forall (keeps I R G s) ps → Forall (keeps I R G s') ps.
Proof. intros HR Hps. eapply Forall_impl; [exact Hps|]. intros ip. by apply keeps_to_interfere. Qed.
Lemma pool_keeps I R G `{!PreOrder R, !∀ i, Reflexive (G i)} i s ps s' ps' :
  pool_step i (s, ps) (s', ps') → R s s' → I s → Forall (keeps I R G s) ps →
  G i s s' ∧ Forall (keeps I R G s') ps'.
Proof.
  inversion_clear 1 as [c ? before p after p' ? Hr]. intros HR HI.
  intros [Hb [Hp Ha]%Forall_cons]%Forall_app.
  destruct (keeps_to_resume I R (G i) c p s p' s' HI Hp Hr) as [HG Hp']. split; [done|].
  apply Forall_app. split; [by eapply keeps_interfere|].
  constructor; [done|]. by eapply keeps_interfere.
Qed.

(** A thread that runs alone is a schedule. *)
Lemma pool_runs before i (p : Proc S A) after s :
  rtc (pool_step i) (s, before ++ (i, p) :: after)
      ((run p s).2, before ++ (i, Done (run p s).1) :: after).
Proof.
  revert s. induction p as [a|B m k IH|k IH]; intros s; [apply rtc_refl| |].
  - cbn. run_m. destruct (m s) as [b s1] eqn:Hm. eapply rtc_l; [|apply IH].
    apply (pool_resume i true). cbn. by rewrite Hm.
  - eapply rtc_l; [|apply IH]. by apply (pool_resume i true).
Qed.

(** One part of one thread, in some state *)
Definition next (p p' : Proc S A) : Prop :=
  match p with
  | Done _ => False
  | Atomic m k => ∃ b, p' = k b
  | Choose k => ∃ c, p' = k c
  end.
Definition pool_next (ps ps' : Pool) : Prop :=
  ∃ before i p p' after,
    next p p' ∧ ps = before ++ (i, p) :: after ∧ ps' = before ++ (i, p') :: after.

Lemma resume_next c p s p' s' : resume c p s = Some (p', s') → next p p'.
Proof.
  destruct p as [a|B m k|k]; [done| |intros [= <- <-]; cbn; eauto].
  cbn. destruct (m s). intros [= <- <-]. eauto.
Qed.
Lemma pool_step_next i s ps s' ps' : pool_step i (s, ps) (s', ps') → pool_next ps ps'.
Proof. inversion_clear 1. do 5 eexists. eauto using resume_next. Qed.

Lemma next_sn p : sn next p.
Proof.
  induction p as [a|B m k IH|k IH]; constructor; intros p' Hp; [done|..]; by destruct Hp as [b ->].
Qed.

Lemma pool_next_cons i p ps qs :
  pool_next ((i, p) :: ps) qs →
  (∃ p', next p p' ∧ qs = (i, p') :: ps) ∨ (∃ ps', pool_next ps ps' ∧ qs = (i, p) :: ps').
Proof.
  intros ([|x before] & j & q & q' & after & Hn & Heq & ->); simplify_eq/=; [eauto|].
  right. eexists. split; [|done]. by exists before, j, q, q', after.
Qed.

(** Every interleaving ends, whatever else changes the state in between. *)
Lemma pool_next_sn ps : sn pool_next ps.
Proof.
  induction ps as [|[i p] ps IH]; [constructor; by intros ? ([] & ? & ? & ? & ? & _ & ? & _)|].
  revert ps IH. induction (next_sn p) as [p _ IHp]. intros ps Hps.
  induction Hps as [ps Hacc IHps]. constructor.
  intros qs [(p' & Hp & ->)|(ps' & Hps & ->)]%pool_next_cons; [|by apply IHps].
  apply IHp; [done|]. by constructor.
Qed.

(** A pool that cannot move is finished. *)
Lemma pool_stuck s ps : (∀ i y, ¬ pool_step i (s, ps) y) ↔ Forall (λ ip, finished ip.2) ps.
Proof.
  split.
  - intros Hno. apply Forall_forall. intros [i p] (before & after & ->)%list_elem_of_split.
    destruct p as [a|B m k|k]; [by exists a| |].
    + destruct (m s) as [b s1] eqn:Hm. destruct (Hno i (s1, before ++ (i, k b) :: after)).
      apply (pool_resume i true). cbn. by rewrite Hm.
    + destruct (Hno i (s, before ++ (i, k true) :: after)). by apply (pool_resume i true).
  - intros Hall i [s' ps'] Hs. revert Hall. inversion_clear Hs as [c ? before p after p' ? Hr].
    intros [_ [[a Ha] _]%Forall_cons]%Forall_app. cbn in Ha. by subst.
Qed.
End pool.
