(* ===== verification/Awaits.v ===== *)
(** * Awaits: the program with the points where it yields

    The handlers, tasks and loops of the other files run to their end; here the same code
    is written with its [await]s: a request to a leaf and what is done with its answer, the
    session of a client, each write of an entry, each access to the registry's table and
    to the broker, the patches of the Kubernetes API and each chunk of a notification stream
    are separate parts, between which anything else may run.  [p_f] is [f] with its yields;
    that it is the same code is what the lemmas [run_f] say.

    What stays one part: a group of reads that makes up a reply; the creation of a leaf
    with its insertion and the spawning of its task, since nobody else can see the leaf
    before the insertion, and a task may be late. *)
From S2P Require Import Prelude Text Json Protocol F64 Env Config RateLimit Rbac Session.
From S2P Require Import Notifications LeafClient Scenario Registry Health Aggregator Router.
From S2P Require Import Server DnsDiscovery CrdDiscovery Status Api Reload App Main Threads.
From S2P Require Import Actions.
Open Scope string_scope.
Open Scope list_scope.

(** ** The client of a leaf *)
Section client.
Context `{!Os, !Http, !Serde}.
Notation S := (LeafClient * Env)%type.

(** The request leaves, with the credentials as they were read at [t] and the session of
    now; the answer arrives. *)
Definition post_at (t : Z) (body : Value) : M S (result string HttpResponse) :=
  λ '(c, e), let '(r, e) := send (lc_http c) (post_request t c body) e in (r, (c, e)).

Definition capture_session (response : HttpResponse) : M S unit :=
  λ '(c, e),
    (tt, (if streamable c then
            match header_str "mcp-session-id" (hp_headers response) with
            | Some id => with_session (Some id) c
            | None => c
            end
          else c, e)).

Definition unreachable {A} (err : string) : M S (result FederationError A) :=
  λ '(c, e), (Err (LeafUnreachable (lc_alias c) err), (c, e)).

(** The body, once it is complete *)
Definition read_body (response : HttpResponse) : M S (result FederationError (Z * Value)) :=
  match body_bytes (hp_chunks response) with
  | Err err => unreachable err
  | Ok bytes =>
      mret (Ok (hp_status response,
                body_value (default "" (header_str "content-type" (hp_headers response))) bytes))
  end.

Definition p_send_once (body : Value) : Proc S (result FederationError (Z * Value)) :=
  t ← atom (m_gets (λ s, now s.2));
  r ← atom (post_at t body);
  match r with
  | Err err => atom (unreachable err)
  | Ok response => _ ← atom (capture_session response); atom (read_body response)
  end.

Definition p_initialize : Proc S (result FederationError Value) :=
  c ← atom (m_gets fst);
  _ ← (if streamable c then atom (set_session None) else Done tt);
  id ← atom next_request_id;
  sr ←! p_send_once (rpc_request id "initialize" initialize_params);
  let '(status, response) := sr in
  if is_success status then
    _ ← p_send_once initialized_notification;
    match get "result" response with
    | Some result => Done (Ok result)
    | None => atom (leaf_error "initialize response missing 'result'")
    end
  else atom (leaf_error ("initialize returned HTTP " +:+ status_text status)).

Definition p_reinit_and_retry (body : Value) : Proc S (result FederationError Value) :=
  _ ←! p_initialize;
  sr ←! p_send_once body;
  let '(retry_status, retry_value) := sr in
  if is_success retry_status then Done (Ok retry_value)
  else atom (leaf_error ("leaf returned HTTP " +:+ status_text retry_status +:+
                         " after session re-init")).

Definition p_send_request (body : Value) : Proc S (result FederationError Value) :=
  sr ←! p_send_once body;
  let '(status, value) := sr in
  c ← atom (m_gets fst);
  if streamable c &&
     ((status =? 404)%Z || ((status =? 400)%Z && bool_decide (session_id c = None)))
  then p_reinit_and_retry body
  else if is_success status then Done (Ok value)
  else atom (leaf_error ("leaf returned HTTP " +:+ status_text status)).

Definition p_list_op (meth key : string) : Proc S (result FederationError (list Value)) :=
  id ← atom next_request_id;
  response ←! p_send_request (rpc_request id meth (json_obj []));
  Done (Ok (list_of key response)).

Definition p_call_op (meth missing : string) (params : Value)
  : Proc S (result FederationError Value) :=
  id ← atom next_request_id;
  response ←! p_send_request (rpc_request id meth params);
  match get "error" response with
  | Some error => atom (leaf_error (default "unknown error" (get_str "message" error)))
  | None => match get "result" response with
            | Some result => Done (Ok result)
            | None => atom (leaf_error (missing +:+ " response missing 'result'"))
            end
  end.

Definition p_call_tool (tool_name : string) (arguments : Value) :=
  p_call_op "tools/call" "tool call"
    (json_obj [("name", VString tool_name); ("arguments", arguments)]).
Definition p_get_prompt (name : string) (arguments : Value) :=
  p_call_op "prompts/get" "prompts/get"
    (json_obj [("name", VString name); ("arguments", arguments)]).
Definition p_read_resource (uri : string) :=
  p_call_op "resources/read" "resources/read" (json_obj [("uri", VString uri)]).

End client.

(** ** Leaves *)
Section leaves.
Context `{!Os, !Http, !Serde, !MapOrder, !Kube}.

(** A thread of the client of the leaf at [l] *)
Definition p_at {A} (l : nat) (p : Proc (LeafClient * Env) A) : Proc World A :=
  focus (λ _, on_client l) p.

(** The locks of an entry are taken one after the other. *)
Definition p_mark_healthy (l : nat) : Proc World unit :=
  _ ← atom (update l (λ e, set_status Healthy (last_health_check e) (consecutive_failures e) e));
  _ ← atom (update_now l (λ t e, set_status (le_health e) (Some t) (consecutive_failures e) e));
  atom (update l (λ e, set_status (le_health e) (last_health_check e) 0 e)).

Definition count_failure (e : LeafEntry) : LeafEntry :=
  set_status (le_health e) (last_health_check e) (succ_u32 (consecutive_failures e)) e.

Definition p_mark_unhealthy (l : nat) : Proc World unit :=
  _ ← atom (update l (λ e, set_status Unhealthy (last_health_check e) (consecutive_failures e) e));
  _ ← atom (update_now l (λ t e, set_status (le_health e) (Some t) (consecutive_failures e) e));
  atom (update l count_failure).

Definition p_record_failure (l : nat) : Proc World Z :=
  _ ← atom (update_now l (λ t e, set_status (le_health e) (Some t) (consecutive_failures e) e));
  atom (_ ← update l count_failure; m_gets (λ w, consecutive_failures (entry l w))).

Definition p_list_tools (l : nat) : Proc World (result FederationError (list Value)) :=
  p_at l (p_list_op "tools/list" "tools").

Definition p_store_tools (l : nat) (tools : list Value) : Proc World unit :=
  _ ← atom (update l (set_tools tools));
  atom (update_now l mark_tools_refreshed).

Definition p_refresh_leaf (l : nat) : Proc World (result FederationError nat) :=
  tools ←! p_list_tools l;
  _ ← p_store_tools l tools;
  Done (Ok (length tools)).

Definition p_refresh_tools (alias : string) : Proc World (result string nat) :=
  leaf ← atom (get_leaf alias);
  match leaf with
  | None => Done (Err ("unknown leaf: " +:+ alias))
  | Some l => r ← p_refresh_leaf l; Done (map_err error_text r)
  end.

Definition p_refresh_all_tools : Proc World (list (string * result string nat)) :=
  leaves ← atom all_leaves;
  p_par (λ l, a ← atom (m_gets (λ w, le_alias (entry l w)));
              r ← p_refresh_leaf l;
              Done (a, map_err error_text r)) leaves.

Definition p_note_initialized (l : nat) (keep_info : bool) (init_result : Value)
  : Proc World unit :=
  _ ← p_mark_healthy l;
  match (if keep_info then get "serverInfo" init_result else None) with
  | Some info => atom (update l (set_server_info (Some info)))
  | None => Done tt
  end.

(** A task for each leaf; the start-up waits for all of them. *)
Definition p_initialize_leaf (l : nat) : Proc World unit :=
  r ← p_at l p_initialize;
  match r with
  | Err _ => p_mark_unhealthy l
  | Ok init_result =>
      _ ← p_note_initialized l true init_result;
      _ ← p_refresh_leaf l;
      resources ← p_at l (p_list_op "resources/list" "resources");
      _ ← (match resources with Ok x => atom (update l (set_resources x)) | Err _ => Done tt end);
      prompts ← p_at l (p_list_op "prompts/list" "prompts");
      match prompts with Ok x => atom (update l (set_prompts x)) | Err _ => Done tt end
  end.
Definition p_initialize_all : Proc World unit :=
  leaves ← atom all_leaves;
  _ ← p_par p_initialize_leaf leaves;
  Done tt.

Definition p_init_leaf (l : nat) (keep_info : bool) : Proc World bool :=
  r ← p_at l p_initialize;
  match r with
  | Err _ => _ ← p_mark_unhealthy l; Done false
  | Ok init_result =>
      _ ← p_note_initialized l keep_info init_result;
      _ ← p_refresh_leaf l;
      Done true
  end.

Definition p_report_status (l : nat) (object : string * string) (init_ok : bool)
  : Proc World unit :=
  e ← atom (m_gets (entry l));
  t ← atom (m_gets wnow);
  let status :=
    {| ms_health := Some (if init_ok && is_healthy e then "Healthy" else "Unhealthy");
       ms_tool_count := Some (count_i32 (length (cached_tools e)));
       ms_last_synced := Some (rfc3339_now t) |} in
  _ ← atom (patch {| kp_namespace := object.1; kp_name := object.2; kp_status := true;
                     kp_body := json_obj [("status", status_value status)] |});
  Done tt.

(** *** The notification stream

    The two buffers of the parser are the listener's own; what it shares is the broker. *)
Definition feed_line (line data : string) : list string * string :=
  if is_empty line then (if is_empty data then [] else [data], "")
  else if starts_with ":" line then ([], data)
  else match strip_prefix "data:" line with
       | Some payload => ([], push_data data payload)
       | None => ([], data)
       end.

(** The events that the bytes complete, and the line and the data left open *)
Fixpoint feed (bytes : list ascii) (line data : string) : list string * (string * string) :=
  match bytes with
  | [] => ([], (line, data))
  | b :: bytes =>
      if decide (b = LF) then
        let whole := from_utf8_or_empty (default line (strip_suffix (String CR "") line)) in
        let '(events, data) := feed_line whole data in
        let '(more, rest) := feed bytes "" data in (events ++ more, rest)
      else feed bytes (line +:+ String b "") data
  end.

Definition feed_end (line data : string) : list string :=
  let '(events, data) := if is_empty line then ([], data)
                         else feed_line (from_utf8_or_empty line) data in
  events ++ (if is_empty data then [] else [data]).

Definition p_dispatch_events (leaf : string) (events : list string) : Proc World unit :=
  p_iter (λ payload, atom (in_broker (λ b, (tt, dispatch_event leaf payload b)))) events.

Fixpoint p_stream (leaf : string) (chunks : list (result string string)) (line data : string)
  : Proc World unit :=
  match chunks with
  | [] => p_dispatch_events leaf (feed_end line data)
  | Err _ :: _ => Done tt
  | Ok bytes :: chunks =>
      let '(events, (line, data)) := feed (String.list_ascii_of_string bytes) line data in
      _ ← p_dispatch_events leaf events;
      p_stream leaf chunks line data
  end.

Definition stream_at (t : Z) : M (LeafClient * Env) (result string HttpResponse) :=
  λ '(c, e), let '(r, e) := send (lc_http c) (stream_request t c) e in (r, (c, e)).

Definition p_run_listener (l : nat) : Proc World unit :=
  c ← atom (m_gets (λ w, le_client (entry l w)));
  r ← p_at l (t ← atom (m_gets (λ s, now s.2)); atom (stream_at t));
  match r with
  | Ok response =>
      if is_success (hp_status response) then p_stream (lc_alias c) (hp_chunks response) "" ""
      else Done tt
  | Err _ => Done tt
  end.

Definition p_run_task (t : Task) : Proc World unit :=
  match t with
  | TRefresh l => _ ← p_refresh_leaf l; Done tt
  | TInit l keep_info report =>
      ok ← p_init_leaf l keep_info;
      match report with
      | Some object => p_report_status l object ok
      | None => Done tt
      end
  | TListen l => p_run_listener l
  end.

(** *** The monitor *)
Definition p_monitor_turn (l : nat) : Proc World (option Z) :=
  config ← atom (m_gets (λ w, health_check (le_config (entry l w))));
  r ← p_at l (atom health_check_leaf);
  _ ← match r with
      | Ok _ =>
          was_unhealthy ← atom (m_gets (λ w, negb (is_healthy (entry l w))));
          _ ← p_mark_healthy l;
          if was_unhealthy : bool then _ ← p_refresh_leaf l; Done tt else Done tt
      | Err _ =>
          failures ← p_record_failure l;
          if (threshold config <=? failures)%Z
          then atom (update l (λ e, set_status Unhealthy (last_health_check e)
                                      (consecutive_failures e) e))
          else Done tt
      end;
  atom (m_gets (λ w, next_delay (base_interval config) (multiplier config) (threshold config)
                       (consecutive_failures (entry l w)))).
End leaves.

(** ** The sources of leaves *)
Definition p_spawn_listeners `{!Os, !Http, !MapOrder} : Proc World unit :=
  leaves ← atom all_leaves;
  p_iter (λ l, atom (spawn_listener l)) leaves.

Section sources.
Context `{!Os, !Http, !Serde, !MapOrder, !Kube, !Dig, !Yaml}.

Definition p_remove_all (gone : list string) : Proc World unit :=
  p_iter (λ a, _ ← atom (remove_leaf a); Done tt) gone.

Definition p_dns_reconcile (config : DnsDiscoveryConfig) (records : list SrvRecord)
  : Proc World unit :=
  all ← atom aliases;
  let existing := filter (λ a, dns_owned a = true) all in
  _ ← p_iter (λ ar, atom (add_record config existing ar)) (map_order (desired records));
  p_remove_all (filter (λ a, desired records !! a = None) existing).

Definition p_poll_once (config : DnsDiscoveryConfig) : Proc World (result string unit) :=
  t ← atom (m_gets wnow);
  match query_srv t (srv_name config) with
  | Ok records => _ ← p_dns_reconcile config records; Done (Ok tt)
  | Err e => Done (Err e)
  end.

Definition p_patch_finalizers (obj : MCPServer) (l : list string)
  : Proc World (result ReconcileError unit) := atom (patch_finalizers obj l).

Definition p_crd_reconcile (obj : MCPServer) : Proc World (result ReconcileError Action) :=
  let alias := object_alias obj in
  let ours := bool_decide (FINALIZER ∈ o_finalizers obj) in
  match o_deletion_timestamp obj with
  | Some _ =>
      if ours then
        _ ← atom (remove_leaf alias);
        _ ←! p_patch_finalizers obj (filter (λ f, f ≠ FINALIZER) (o_finalizers obj));
        Done (Ok AwaitChange)
      else Done (Ok AwaitChange)
  | None =>
      if ours then
        transport ←! Done (parse_transport (sp_transport (o_spec obj)));
        _ ← atom (install alias (object_config obj transport)
                    (λ l, TInit l true (Some (object_namespace obj, o_name obj))));
        Done (Ok (Requeue 300))
      else
        _ ←! p_patch_finalizers obj (o_finalizers obj ++ [FINALIZER]);
        Done (Ok (Requeue 1))
  end.

Definition p_reload_server (server : ServerConfig) : Proc World unit :=
  leaf ← atom (get_leaf (Config.alias server));
  keep ← atom (m_gets (λ w, if leaf is Some l then same_server (le_config (entry l w)) server
                            else false));
  if keep : bool then Done tt
  else _ ← atom (install (Config.alias server) server (λ l, TInit l false None)); Done tt.

Definition p_reload_config (cfg : FederationConfig) : Proc World unit :=
  existing ← atom aliases;
  let incoming := Config.alias <$> servers cfg in
  _ ← p_iter p_reload_server (servers cfg);
  p_remove_all (filter (λ a, a ∉ incoming) existing).

Definition p_on_sighup (path : string) : Proc World bool :=
  t ← atom (m_gets wnow);
  match from_file t path with
  | Err _ => Done false
  | Ok cfg => _ ← p_reload_config cfg; Done true
  end.

Definition p_register_server (rq : RegisterRequest) : Proc World (option Reply) :=
  refused ← atom (register_checks rq);
  match refused with
  | Some r => Done (Some r)
  | None => _ ← atom (register_insert rq); atom (register_reply rq)
  end.

Definition p_deregister_server (alias : string) : Proc World Reply :=
  leaf ← atom (remove_leaf alias);
  match leaf with
  | Some l => atom (m_gets (λ w, info_reply 200 (entry l w)))
  | None => Done (not_found alias)
  end.
End sources.

(** ** Requests *)
Section requests.
Context `{!Os, !Http, !Serde, !MapOrder, !Unicode, !Jwt, !HeaderValue, !Axum}.

Definition p_native_refresh (arguments : Value) : Proc World (result FederationError Value) :=
  results ← match get_str "alias" arguments with
            | Some alias => result ← p_refresh_tools alias; Done [(alias, result)]
            | None => p_refresh_all_tools
            end;
  Done (Ok (text_content (join nl (refresh_line <$> results)))).

Definition p_handle_native_tool (tool_name : string) (arguments : Value)
  : Proc World (result FederationError Value) :=
  if decide (tool_name = "refresh") then p_native_refresh arguments
  else atom (handle_native_tool tool_name arguments).

Definition p_route_to_leaf (alias : string)
    (op : Proc (LeafClient * Env) (result FederationError Value))
  : Proc World (result FederationError Value) :=
  leaf ← atom (get_leaf alias);
  match leaf with
  | None => Done (Err (UnknownLeaf alias))
  | Some l =>
      healthy ← atom (m_gets (λ w, is_healthy (entry l w)));
      if healthy : bool then p_at l op else Done (Err (LeafUnhealthy alias))
  end.

Definition p_route_tool_call (namespaced_tool : string) (arguments : Value)
  : Proc World (result FederationError Value) :=
  match parse_namespaced_name namespaced_tool with
  | None => Done (Err (InvalidToolName
      ("tool name must be in format 'alias__tool_name', got: " +:+ namespaced_tool)))
  | Some (alias, tool_name) =>
      if decide (alias = "federation") then p_handle_native_tool tool_name arguments
      else p_route_to_leaf alias (p_call_tool tool_name arguments)
  end.
Definition p_route_resource_read (namespaced_uri : string)
  : Proc World (result FederationError Value) :=
  match parse_namespaced_name namespaced_uri with
  | None => Done (Err (InvalidToolName
      ("resource URI must be prefixed with alias, got: " +:+ namespaced_uri)))
  | Some (alias, uri) => p_route_to_leaf alias (p_read_resource uri)
  end.
Definition p_route_prompt_get (namespaced_name : string) (arguments : Value)
  : Proc World (result FederationError Value) :=
  match parse_namespaced_name namespaced_name with
  | None => Done (Err (InvalidToolName
      ("prompt name must be prefixed with alias, got: " +:+ namespaced_name)))
  | Some (alias, prompt_name) => p_route_to_leaf alias (p_get_prompt prompt_name arguments)
  end.

Definition refresh_if_stale (ttl : Z) (l : nat) : M World unit :=
  stale ← m_gets (λ w, tools_stale (wnow w) ttl (entry l w));
  if stale : bool then spawn (TRefresh l) else mret tt.
Definition p_aggregated_tools (a : Aggregator) : Proc World (list Value) :=
  leaves ← atom healthy_leaves;
  _ ← (if negb (tool_cache_ttl a =? 0)%Z
       then p_iter (λ l, atom (refresh_if_stale (tool_cache_ttl a) l)) leaves else Done tt);
  tools ← atom (m_gets (collect namespace_tool cached_tools leaves));
  Done (native_tools ++ tools).

(** On the state of the server *)
Definition p_in_world {A} (p : Proc World A) : Proc FederationState A := focus (@in_world) p.

Definition p_handle_tools_list (request : JsonRpcRequest) (ctx : RequestContext)
  : Proc FederationState JsonRpcResponse :=
  a ← atom (m_gets st_aggregator);
  tools ← p_in_world (p_aggregated_tools a);
  let tools := match ctx_allowed ctx with
               | Some _ => filter (λ t, visible ctx t = true) tools
               | None => tools
               end in
  Done (success_response request (json_obj [("tools", VArray tools)])).

Definition p_handle_tools_call (request : JsonRpcRequest) (ctx : RequestContext)
  : Proc FederationState JsonRpcResponse :=
  let params := rq_params request in
  let tool_name := str_param "name" params in
  let arguments := index "arguments" params in
  let alias := match parse_namespaced_name tool_name with
               | Some (a, _) => a
               | None => "unknown"
               end in
  if bool_decide (is_Some (parse_namespaced_name tool_name)) && negb (allows_alias ctx alias)
  then Done (error_response request (-32000)
    ("access denied: client is not permitted to use leaf '" +:+ alias +:+ "'"))
  else
    result ← p_in_world (p_route_tool_call tool_name arguments);
    Done (routed request result).
Definition p_handle_resources_read (request : JsonRpcRequest)
  : Proc FederationState JsonRpcResponse :=
  result ← p_in_world (p_route_resource_read (str_param "uri" (rq_params request)));
  Done (routed request result).
Definition p_handle_prompts_get (request : JsonRpcRequest)
  : Proc FederationState JsonRpcResponse :=
  let params := rq_params request in
  result ← p_in_world (p_route_prompt_get (str_param "name" params) (index "arguments" params));
  Done (routed request result).

(** The methods that wait for leaves or write more than once; the others are one part. *)
Definition p_dispatch_method (request : JsonRpcRequest) (session : option string)
    (ctx : RequestContext) : Proc FederationState JsonRpcResponse :=
  let names m := bool_decide (rq_method request = m) in
  if names "tools/list" then p_handle_tools_list request ctx
  else if names "tools/call" then p_handle_tools_call request ctx
  else if names "resources/read" then p_handle_resources_read request
  else if names "prompts/get" then p_handle_prompts_get request
  else atom (dispatch_method request session ctx).
Definition p_dispatch (request : JsonRpcRequest) (session : option string) (ctx : RequestContext)
  : Proc FederationState JsonRpcResponse :=
  _ ← atom (in_env fresh_uuid);
  p_dispatch_method request session ctx.

Definition p_check_origin (headers : Headers) (k : Proc FederationState Reply)
  : Proc FederationState Reply :=
  allowed ← atom (m_gets (λ s, origin_allowed (st_origins s) headers));
  if allowed : bool then k else Done forbidden.

Definition p_admit_session (session : option string) : Proc FederationState bool :=
  match session with
  | None => Done true
  | Some sid =>
      valid ← atom (m_gets (λ s, validate_session (clock s) (clock s) sid (st_sessions s)));
      if valid : bool then
        _ ← atom (λ s, with_sessions_of (λ m, (tt, touch_session (clock s) sid m)) s);
        Done true
      else Done false
  end.

Definition p_open_session (response : JsonRpcResponse) : Proc FederationState string :=
  sub ← atom (in_env fresh_uuid);
  atom (λ s, with_sessions_of
          (create_session (clock s) (clock s) sub (extract_client_info response)) s).

Definition p_handle_mcp (headers : Headers) (ctx : option RequestContext)
    (request : JsonRpcRequest) : Proc FederationState Reply :=
  p_check_origin headers (
    let is_initialize := bool_decide (rq_method request = "initialize") in
    let incoming_session := extract_session_id headers in
    admitted ← (if is_initialize then Done true else p_admit_session incoming_session);
    if negb admitted then Done unknown_session
    else
      let request_ctx := default anonymous ctx in
      limited ← atom (rate_limited request_ctx);
      if limited : bool then
        Done (json_reply 429 (error_response request (-32000) "rate limit exceeded"))
      else
        response ← p_dispatch request incoming_session request_ctx;
        session_header ←
          (if is_initialize && bool_decide (rs_error response = None)
           then sid ← p_open_session response; Done (Some sid)
           else Done None);
        let session_header := sid ← session_header;
                              if valid_header_value sid then Some sid else None in
        Done {| rp_status := 200; rp_session := session_header;
                rp_body := if accepts_sse headers
                           then BEvent (to_string (response_to_value response))
                           else BJson (response_to_value response) |}).

Definition p_get_mcp (headers : Headers) : Proc FederationState Reply :=
  p_check_origin headers
    match extract_session_id headers with
    | None => Done (text_reply 400 "missing Mcp-Session-Id header")
    | Some sid =>
        admitted ← p_admit_session (Some sid);
        if negb admitted then Done unknown_session
        else
          sub_id ← atom (in_env fresh_uuid);
          rx ← atom (in_world (in_broker (subscribe sub_id)));
          Done (reply 200 (BStream rx sub_id))
    end.

Definition p_stdio_line (line : string) : Proc FederationState (list string) :=
  if is_empty (trim line) then Done []
  else match parse_request line with
       | Err e => Done [parse_error_line e]
       | Ok request =>
           response ← p_dispatch request None anonymous;
           Done [to_string (response_to_value response)]
       end.

(** *** The application *)
Definition p_extracted {A} (r : result Reply A) (k : A → Proc FederationState (option Reply))
  : Proc FederationState (option Reply) :=
  match r with Ok a => k a | Err rejection => Done (Some rejection) end.
Definition p_answer (p : Proc FederationState Reply) : Proc FederationState (option Reply) :=
  r ← p; Done (Some r).

Definition p_mcp_route (ctx : option RequestContext) (rq : HttpRequestIn)
  : Proc FederationState (option Reply) :=
  if decide (in_method rq = "POST") then
    p_extracted (json_rpc_body rq) (λ request, p_answer (p_handle_mcp (in_headers rq) ctx request))
  else if is_get (in_method rq) then p_answer (p_get_mcp (in_headers rq))
  else atom (mcp_route ctx rq).
Definition p_servers_route (rq : HttpRequestIn) : Proc FederationState (option Reply) :=
  if decide (in_method rq = "POST") then
    p_extracted (register_body rq) (λ request, p_in_world (p_register_server request))
  else atom (servers_route rq).
Definition p_server_route (segment : string) (rq : HttpRequestIn)
  : Proc FederationState (option Reply) :=
  if is_get (in_method rq) then atom (server_route segment rq)
  else if decide (in_method rq = "DELETE") then
    p_extracted (path_parameter segment) (λ alias, p_answer (p_in_world (p_deregister_server alias)))
  else atom (server_route segment rq).

(** The other routes answer from one group of reads. *)
Definition p_route (ctx : option RequestContext) (rq : HttpRequestIn)
  : Proc FederationState (option Reply) :=
  let path := in_uri_path rq in
  if decide (path = "/mcp") then p_mcp_route ctx rq
  else if decide (path = "/api/v1/servers") then p_servers_route rq
  else match server_segment path with
       | Some segment => p_server_route segment rq
       | None => atom (route ctx rq)
       end.

Definition p_app (auth : AuthState) (rq : HttpRequestIn) : Proc FederationState (option Reply) :=
  if decide (in_method rq = "OPTIONS") then atom (unrouted rq)
  else
    t ← atom (m_gets clock);
    match auth_middleware t auth {| in_path := in_uri_path rq;
                                    in_authorization := header_str "authorization" (in_headers rq) |}
    with
    | Unauthorized => Done (Some (reply 401 BEmpty))
    | Forward ctx => p_route ctx rq
    end.
End requests.

(** ** Actions *)
Section actions.
Context `{!Os, !Http, !Serde, !MapOrder, !Unicode, !Jwt, !HeaderValue, !Axum, !Kube, !Dig, !Yaml}.

(** The thread of an action.  A task is taken from the pending ones when it starts. *)
Definition accept (a : SystemAction) : M FederationState unit :=
  match a with
  | ATask before _ after => in_world (m_modify (set_tasks (before ++ after)))
  | _ => mret tt
  end.
Definition p_act (g : Settings) (a : SystemAction) : Proc FederationState unit :=
  match a with
  | AStart => p_in_world p_spawn_listeners
  | ARequest rq => _ ← p_app (g_auth g) rq; Done tt
  | ALine line => _ ← p_stdio_line line; Done tt
  | ATask _ t _ => p_in_world (p_run_task t)
  | AMonitor l => p_in_world (_ ← p_monitor_turn l; Done tt)
  | APoll => p_in_world (_ ← p_poll_once (g_dns g); Done tt)
  | AReconcile obj => p_in_world (_ ← p_crd_reconcile obj; Done tt)
  | AReload => p_in_world (_ ← p_on_sighup (g_path g); Done tt)
  | AStreamNext _ | AStreamDrop _ _ | APrune | APass _ => atom (act g a)
  end.
End actions.
