(* ===== verification/SameCode.v ===== *)
(** * SameCode: the program with its yields is the program

    [run] of each thread of Awaits.v is the computation of the other files, from every state
    in which the leaves it refers to are there: left alone, the two do the same. *)
From S2P Require Import Prelude Text Json Protocol F64 Env Config RateLimit Rbac Session.
From S2P Require Import Notifications LeafClient Scenario Registry Health Aggregator Router.
From S2P Require Import Server DnsDiscovery CrdDiscovery Status Api Reload App Main Threads.
From S2P Require Import Actions Awaits.
Open Scope string_scope.
Open Scope list_scope.

(** ** The client of a leaf *)
Section same_client.
Context `{!Os, !Http, !Serde}.

Lemma run_send_once body s : run (p_send_once body) s = send_once body s.
Proof.
  destruct s as [c e]. unfold p_send_once, send_once, post_at, read_body, unreachable.
  cbn. run_m. destruct (send _ _ _) as [[response|err] e1]; [|done]. cbn. run_m.
  unfold capture_session. by destruct (body_bytes _), (streamable c), (header_str "mcp-session-id" (hp_headers response)).
Qed.
Hint Resolve run_send_once : same.
Lemma run_initialize s : run p_initialize s = LeafClient.initialize s.
Proof. unfold p_initialize, LeafClient.initialize, m_when. same_code. Qed.
Hint Resolve run_initialize : same.
Lemma run_reinit_and_retry body s : run (p_reinit_and_retry body) s = reinit_and_retry body s.
Proof. unfold p_reinit_and_retry, reinit_and_retry. same_code. Qed.
Hint Resolve run_reinit_and_retry : same.
Lemma run_send_request body s : run (p_send_request body) s = send_request body s.
Proof. unfold p_send_request, send_request. same_code. Qed.
Hint Resolve run_send_request : same.
Lemma run_list_op meth key s : run (p_list_op meth key) s = list_op meth key s.
Proof. unfold p_list_op, list_op. same_code. Qed.
Lemma run_call_op meth missing params s :
  run (p_call_op meth missing params) s = call_op meth missing params s.
Proof. unfold p_call_op, call_op. same_code. Qed.
End same_client.
#[export] Hint Resolve run_initialize run_list_op run_call_op : same.

(** ** Leaves *)
Section same_leaves.
Context `{!Os, !Http, !Serde, !MapOrder, !Kube}.

Lemma on_client_bind {A B} l (m : M (LeafClient * Env) A) (k : A → M (LeafClient * Env) B) w :
  has l w → on_client l (m ≫= k) w = (on_client l m ≫= λ a, on_client l (k a)) w.
Proof.
  intros [e He]. unfold on_client. run_m. destruct (m _) as [a [c e1]].
  unfold entry. cbn. rewrite (lookup_total_correct _ _ (set_client c e))
    by (by rewrite lookup_alter_eq, He).
  cbn. destruct (k a (c, e1)) as [b [c' e2]]. unfold set_heap, set_env. cbn.
  by rewrite alter_alter_eq.
Qed.
Lemma on_client_ret {A} l (a : A) w : on_client l (mret a) w = (a, w).
Proof.
  unfold on_client. run_m. rewrite alter_id; [by destruct w|].
  intros e He. unfold entry. rewrite (lookup_total_correct _ _ e) by done. by destruct e.
Qed.
Lemma on_client_has {A} l l' (m : M (LeafClient * Env) A) w : has l w → has l (on_client l' m w).2.
Proof.
  intros [e He]. unfold on_client. destruct (m _) as [a [c e1]]. unfold has. cbn.
  apply lookup_alter_is_Some. eauto.
Qed.
Lemma run_at {A} l (p : Proc (LeafClient * Env) A) w :
  has l w → run (p_at l p) w = on_client l (run p) w.
Proof.
  unfold p_at. revert w. induction p as [a|B m k IH|k IH]; intros w Hl;
    [symmetry; apply on_client_ret| |by apply IH].
  cbn [focus run]. rewrite on_client_bind by done. pose proof (on_client_has l l m w Hl) as Hl'.
  run_m. destruct (on_client l m w) as [b w1]. by apply IH.
Qed.
Lemma on_client_cong {A} l (m m' : M (LeafClient * Env) A) w :
  (∀ s, m s = m' s) → on_client l m w = on_client l m' w.
Proof. intros Hm. unfold on_client. by rewrite Hm. Qed.
Lemma same_at {A} l (P : World → Prop) (p : Proc (LeafClient * Env) A) m (Q : A → World → Prop) :
  (∀ s, run p s = m s) → (∀ w, P w → has l w ∧ ∀ a, Q a (on_client l m w).2) →
  same P (p_at l p) (on_client l m) Q.
Proof.
  intros Hm HP w Hw. destruct (HP w Hw) as [Hl HQ]. rewrite run_at by done.
  split; [by apply on_client_cong|]. apply HQ.
Qed.
Lemma update_has l l' f w : has l w → has l (update l' f w).2.
Proof. intros Hl. unfold has. cbn. by apply lookup_alter_is_Some. Qed.

Lemma mark_healthy_parts l w : run (p_mark_healthy l) w = update_now l mark_healthy w.
Proof. cbn. run_m. unfold update_now, update, set_heap. cbn. by rewrite !alter_alter_eq. Qed.
Lemma mark_unhealthy_parts l w : run (p_mark_unhealthy l) w = update_now l mark_unhealthy w.
Proof. cbn. run_m. unfold update_now, update, set_heap. cbn. by rewrite !alter_alter_eq. Qed.
Lemma record_failure_parts l w e :
  w_heap w !! l = Some e →
  run (p_record_failure l) w =
  ((record_failure (wnow w) e).1, (update_now l (λ t e, (record_failure t e).2) w).2).
Proof.
  intros He. cbn. run_m. unfold update_now, update, set_heap. cbn. rewrite !alter_alter_eq.
  f_equal. unfold entry. cbn.
  rewrite (lookup_total_correct _ _ (record_failure (wnow w) e).2); [done|].
  by rewrite lookup_alter_eq, He.
Qed.
Lemma check_failed_parts l thr w :
  has l w →
  run (failures ← p_record_failure l;
       if (thr <=? failures)%Z
       then atom (update l (λ e, set_status Unhealthy (last_health_check e)
                                   (consecutive_failures e) e))
       else Done tt) w = update_now l (check_failed thr) w.
Proof.
  intros [e He]. rewrite run_bind. unfold mbind, M_bind. rewrite (record_failure_parts l w e He).
  set (w1 := (update_now _ _ w).2).
  assert (∀ f, alter f l (w_heap w1) = alter (f ∘ (λ e, (record_failure (wnow w) e).2)) l (w_heap w))
    as Hw1 by (intros f; apply alter_alter_eq).
  unfold update_now, update, check_failed, record_failure in *. cbn [fst snd] in *.
  destruct (thr <=? _)%Z eqn:Hthr.
  - rewrite run_atom, Hw1. unfold set_heap. cbn. do 2 f_equal. apply alter_ext.
    intros x Hx. simplify_eq. by rewrite Hthr.
  - cbn. unfold w1, set_heap. cbn. do 2 f_equal. apply alter_ext. intros x Hx. simplify_eq.
    by rewrite Hthr.
Qed.

(** The operations of a leaf, from a state that has it to one that has it *)
Notation same_at_leaf l p m := (same (has l) p m (λ _, has l)).

Lemma same_client {A} l (p : Proc (LeafClient * Env) A) m :
  (∀ s, run p s = m s) → same_at_leaf l (p_at l p) (on_client l m).
Proof. intros Hm. apply same_at; [done|]. intros w Hw. split; [done|]. intros _. by apply on_client_has. Qed.
Lemma same_acts {A} l (C : Change) (p : Proc World A) (m : M World A) :
  (∀ w, has l w → run p w = m w) → acts C m → same_at_leaf l p m.
Proof.
  intros Hp Hm w Hl. split; [by apply Hp|]. destruct Hl as [e He].
  destruct (acts_on_lookup _ _ _ _ _ (Hm w) He) as (e' & He' & _). by exists e'.
Qed.
Lemma same_here {A} l (C : Change) (m : M World A) : acts C m → same_at_leaf l (atom m) m.
Proof. apply same_acts. intros w _. apply run_atom. Qed.
Lemma same_done {A} l (a : A) : same_at_leaf l (Done a) (mret a).
Proof. by apply same_ret. Qed.
Lemma same_next {A B} l (p : Proc World A) (f : A → Proc World B) m g :
  same_at_leaf l p m → (∀ a, same_at_leaf l (f a) (g a)) → same_at_leaf l (p ≫= f) (m ≫= g).
Proof. apply (same_bind (has l) (λ _, has l)). Qed.
Lemma same_nextr {E A B} l (p : Proc World (result E A)) (f : A → Proc World (result E B)) m g :
  same_at_leaf l p m → (∀ a, same_at_leaf l (f a) (g a)) →
  same_at_leaf l (p_bindr f p) (m_bindr g m).
Proof.
  intros Hp. apply (same_bindr (has l) (λ _, has l)). eapply same_mono; [exact Hp|done|].
  by intros [].
Qed.
Hint Resolve same_done same_next same_nextr : same.
Hint Extern 5 (same _ (atom _) _ _) => apply (same_here _ (only (λ _, True))); auto with acts : same.
Hint Extern 5 (same _ (p_at _ _) _ _) => apply same_client; auto with same : same.
Hint Extern 3 (same _ (match ?x with _ => _ end) _ _) => destruct x : same.

Lemma same_mark_healthy l : same_at_leaf l (p_mark_healthy l) (update_now l mark_healthy).
Proof. apply (same_acts l (only (λ _, True))); [intros w _; apply mark_healthy_parts|auto with acts]. Qed.
Lemma same_mark_unhealthy l : same_at_leaf l (p_mark_unhealthy l) (update_now l mark_unhealthy).
Proof. apply (same_acts l (only (λ _, True))); [intros w _; apply mark_unhealthy_parts|auto with acts]. Qed.
Lemma same_check_failed l thr :
  same_at_leaf l
    (failures ← p_record_failure l;
     if (thr <=? failures)%Z
     then atom (update l (λ e, set_status Unhealthy (last_health_check e)
                                 (consecutive_failures e) e))
     else Done tt) (update_now l (check_failed thr)).
Proof.
  apply (same_acts l (only (λ _, True))); [by intros w ?; apply check_failed_parts|].
  apply acts_update_now. intros t e. split; [apply check_failed_evolved|done].
Qed.
Hint Resolve same_mark_healthy same_mark_unhealthy same_check_failed : same.

Lemma same_refresh_leaf l : same_at_leaf l (p_refresh_leaf l) (refresh_leaf l).
Proof. unfold p_refresh_leaf, refresh_leaf, p_store_tools, store_tools, p_list_tools. auto 12 with same. Qed.
Hint Resolve same_refresh_leaf : same.
Lemma same_initialize_leaf l : same_at_leaf l (p_initialize_leaf l) (initialize_leaf l).
Proof.
  unfold p_initialize_leaf, initialize_leaf, p_note_initialized, note_initialized, list_resources,
    list_prompts.
  auto 20 with same.
Qed.

(** A thread for each of several leaves *)
Lemma same_leaves {A} (f : nat → Proc World A) (g : nat → M World A) leaves :
  (∀ l, same_at_leaf l (f l) (g l)) → (∀ l, ∃ C : Change, acts C (g l)) →
  same (λ w, ∀ l, l ∈ leaves → has l w) (p_par f leaves) (m_map g leaves)
    (λ _ w, ∀ l, l ∈ leaves → has l w).
Proof.
  intros Hfg Hg. apply same_par. intros l Hl w Hw. destruct (Hfg l w (Hw l Hl)) as [-> _].
  split; [done|]. intros l' [e He]%Hw. destruct (Hg l) as [C HC].
  destruct (acts_on_lookup _ _ _ _ _ (HC w) He) as (e' & He' & _). by exists e'.
Qed.
Lemma m_map_units {A S} (f : A → M S unit) l s : (_ ← m_map f l; mret tt) s = m_iter f l s.
Proof.
  revert s. induction l as [|a l IH]; intros s; [done|]. cbn [m_map m_iter]. specialize IH.
  run_m. unfold mbind, M_bind in IH. destruct (f a s) as [[] s1]. rewrite <- IH.
  by destruct (m_map f l s1).
Qed.
(** The start-up whose tasks happen to run one after the other *)
Lemma run_initialize_all w : tabled w → run p_initialize_all w = initialize_all w.
Proof.
  intros Hw. unfold p_initialize_all.
  rewrite (run_next _ _ w (map_values (w_leaves w)) w) by (by rewrite run_atom).
  change (initialize_all w) with (m_iter initialize_leaf (map_values (w_leaves w)) w).
  rewrite run_bind, <- m_map_units. apply bind_cong; [|done].
  apply same_leaves.
  - apply same_initialize_leaf.
  - intros l. exists (only (eq l)). apply initialize_leaf_only.
  - intros l [a Ha]%map_values_elem. by eapply Hw.
Qed.
Lemma run_spawn_listeners w : run p_spawn_listeners w = spawn_leaf_notification_listeners w.
Proof. unfold p_spawn_listeners, spawn_leaf_notification_listeners. same_code. Qed.

Lemma same_init_leaf l keep : same_at_leaf l (p_init_leaf l keep) (init_leaf l keep).
Proof. unfold p_init_leaf, init_leaf, p_note_initialized, note_initialized. auto 12 with same. Qed.
Lemma same_monitor_turn l : same_at_leaf l (p_monitor_turn l) (monitor_turn l).
Proof. unfold p_monitor_turn, monitor_turn. auto 12 with same. Qed.

(** *** The stream *)
Lemma feed_line_broker leaf line s :
  handle_sse_line leaf line s =
  {| line_buf := line_buf s; data_buf := (feed_line line (data_buf s)).2;
     sse_broker := dispatch_all leaf (sse_broker s) (feed_line line (data_buf s)).1 |}.
Proof.
  unfold handle_sse_line, feed_line. destruct s as [lb data b]. cbn [line_buf data_buf sse_broker].
  destruct (is_empty line).
  - destruct (is_empty data) eqn:E; [|done]. by apply is_empty_true in E as ->.
  - destruct (starts_with ":" line); [done|]. by destruct (strip_prefix "data:" line).
Qed.
Lemma feed_broker leaf bytes line data b :
  foldl (sse_byte leaf) {| line_buf := line; data_buf := data; sse_broker := b |} bytes =
  let '(events, (line, data)) := feed bytes line data in
  {| line_buf := line; data_buf := data; sse_broker := dispatch_all leaf b events |}.
Proof.
  revert line data b. induction bytes as [|c bytes IH]; intros line data b; [done|].
  cbn [foldl feed]. unfold sse_byte at 2. cbn [line_buf]. destruct (decide (c = LF)); [|apply IH].
  rewrite feed_line_broker. unfold set_line. cbn. destruct (feed_line _ _) as [events data'].
  cbn. rewrite IH. destruct (feed _ _ _) as [more [??]]. unfold dispatch_all. by rewrite foldl_app.
Qed.
Lemma feed_end_broker leaf line data b :
  sse_end leaf {| line_buf := line; data_buf := data; sse_broker := b |} =
  dispatch_all leaf b (feed_end line data).
Proof.
  unfold sse_end, feed_end. cbn. destruct (is_empty line); cbn; [by destruct (is_empty data)|].
  rewrite feed_line_broker. cbn. destruct (feed_line _ _) as [events data'].
  unfold dispatch_all. rewrite foldl_app. cbn. by destruct (is_empty data').
Qed.

Lemma dispatch_events_run leaf events w :
  run (p_dispatch_events leaf events) w =
  (tt, set_broker (dispatch_all leaf (w_broker w) events) w).
Proof.
  unfold p_dispatch_events. rewrite run_iter. revert w. induction events as [|e es IH]; intros w;
    [by destruct w|]. cbn [m_iter]. unfold mbind, M_bind. rewrite run_atom. cbn. by rewrite IH.
Qed.
Lemma stream_run leaf chunks line data w :
  run (p_stream leaf chunks line data) w =
  (tt, set_broker (match sse_chunks leaf chunks {| line_buf := line; data_buf := data;
                                                   sse_broker := w_broker w |} with
                   | (Ok _, s) => sse_end leaf s
                   | (Err _, s) => sse_broker s
                   end) w).
Proof.
  revert line data w. induction chunks as [|[bytes|err] chunks IH]; intros line data w;
    cbn [p_stream sse_chunks].
  - by rewrite dispatch_events_run, feed_end_broker.
  - rewrite feed_broker. destruct (feed _ _ _) as [events [line' data']]. rewrite run_bind.
    unfold mbind, M_bind. by rewrite dispatch_events_run, IH.
  - by destruct w.
Qed.

Lemma run_listener_parts l w : has l w → run (p_run_listener l) w = run_listener l w.
Proof.
  intros Hl. unfold p_run_listener. set (c := le_client (entry l w)).
  rewrite (run_next _ _ w c w) by (rewrite run_atom; reflexivity).
  pose (w1 := set_env (send (lc_http c) (stream_request (wnow w) c) (w_env w)).2
                (set_heap (alter (set_client c) l (w_heap w)) w)).
  erewrite (run_next _ _ _ (send (lc_http c) (stream_request (wnow w) c) (w_env w)).1 w1).
  - unfold run_listener, run_notification_stream. fold c. unfold w1, wnow.
    destruct (send _ _ _) as [[response|err] e1]; cbn [fst snd]; [|done].
    destruct (is_success _); [|done]. rewrite stream_run. unfold sse_stream.
    by destruct (sse_chunks _ _ _) as [[[]|err] s].
  - rewrite run_at by done. unfold w1, on_client. cbn. run_m. unfold stream_at. fold c.
    unfold wnow. by destruct (send _ _ _).
Qed.

Lemma same_run_task t : same (has (task_leaf t)) (p_run_task t) (run_task t) (λ _ _, True).
Proof.
  destruct t as [l|l keep report|l]; cbn [p_run_task run_task task_leaf].
  - apply (same_mono (has l) (has l) _ _ (λ _, has l)); [|done..]. auto with same.
  - apply (same_bind _ (λ _, has l)); [apply same_init_leaf|]. intros ok.
    destruct report as [object|]; [|by apply same_ret]. apply same_code_everywhere; [|done].
    intros w. unfold p_report_status, report_status. revert w. same_code.
  - intros w Hl. split; [by apply run_listener_parts|done].
Qed.
End same_leaves.

Section same_sources.
Context `{!Os, !Http, !Serde, !MapOrder, !Kube, !Dig, !Yaml}.

Lemma run_poll_once config w : run (p_poll_once config) w = poll_once config w.
Proof.
  unfold p_poll_once, poll_once, p_dns_reconcile, DnsDiscovery.reconcile, p_remove_all, remove_all.
  same_code.
Qed.
Lemma run_crd_reconcile obj w : run (p_crd_reconcile obj) w = CrdDiscovery.reconcile obj w.
Proof.
  unfold p_crd_reconcile, CrdDiscovery.reconcile, p_patch_finalizers. cbv zeta.
  destruct (o_deletion_timestamp obj); do 2 (case_bool_decide; try done); same_code.
Qed.
Lemma run_on_sighup path w : run (p_on_sighup path) w = on_sighup path w.
Proof.
  unfold p_on_sighup, on_sighup, p_reload_config, reload_config, p_reload_server, reload_server,
    p_remove_all, remove_all.
  same_code.
Qed.
Lemma run_register_server rq w : run (p_register_server rq) w = register_server rq w.
Proof. unfold p_register_server, register_server. same_code. Qed.
Lemma run_deregister_server alias w : run (p_deregister_server alias) w = deregister_server alias w.
Proof. unfold p_deregister_server, deregister_server. same_code. Qed.
End same_sources.
#[export] Hint Resolve run_register_server run_deregister_server : same.

Section same_requests.
Context `{!Os, !Http, !Serde, !MapOrder, !Unicode, !Jwt, !HeaderValue, !Axum}.
Notation same_tabled p m := (same tabled p m (λ _ _, True)).

Lemma same_refresh_tools alias : same_tabled (p_refresh_tools alias) (refresh_tools alias).
Proof.
  unfold p_refresh_tools, refresh_tools.
  apply (same_bind _ (λ leaf w, ∀ l, leaf = Some l → has l w)).
  { apply same_atom. intros w Hw l. apply Hw. }
  intros [l|]; [|by apply same_ret].
  apply (same_bind _ (λ _ _, True)); [|intros r; by apply same_ret].
  eapply same_mono; [apply same_refresh_leaf| |done]. auto.
Qed.
Lemma all_leaves_has w l : tabled w → l ∈ map_values (w_leaves w) → has l w.
Proof. intros Hw [a Ha]%map_values_elem. by eapply Hw. Qed.
Lemma same_refresh_all_tools : same_tabled p_refresh_all_tools refresh_all_tools.
Proof.
  unfold p_refresh_all_tools, refresh_all_tools.
  apply (same_bind _ (λ leaves w, ∀ l, l ∈ leaves → has l w)).
  { apply same_atom. intros w Hw l. by apply all_leaves_has. }
  intros leaves. eapply same_mono; [apply same_leaves|done..].
  - intros l. apply same_next; [by apply (same_here l (only (λ _, True))); auto with acts|].
    intros a. apply same_next; [apply same_refresh_leaf|]. intros r. apply same_done.
  - intros l. pose proof (refresh_leaf_only l). exists (only (eq l)). auto with acts.
Qed.
Lemma same_native_tool name arguments :
  same_tabled (p_handle_native_tool name arguments) (handle_native_tool name arguments).
Proof.
  unfold p_handle_native_tool. destruct (decide (name = "refresh")) as [->|Hne]; [|by apply same_atom].
  unfold handle_native_tool. rewrite !decide_False by done. rewrite decide_True by done.
  unfold p_native_refresh, native_refresh.
  apply (same_bind _ (λ _ _, True)); [|intros results; by apply same_ret].
  destruct (get_str "alias" arguments) as [alias|]; [|apply same_refresh_all_tools].
  apply (same_bind _ (λ _ _, True)); [apply same_refresh_tools|]. intros r. by apply same_ret.
Qed.
Lemma same_route_to_leaf alias p op :
  (∀ s, run p s = op s) → same_tabled (p_route_to_leaf alias p) (route_to_leaf alias op).
Proof.
  intros Hop. unfold p_route_to_leaf, route_to_leaf, fed_error.
  apply (same_bind _ (λ leaf w, ∀ l, leaf = Some l → has l w)).
  { apply same_atom. intros w Hw l. apply Hw. }
  intros [l|]; [|by apply same_ret].
  apply (same_bind _ (λ _, has l)); [apply same_atom; auto|].
  intros [|]; [|by apply same_ret]. apply same_at; auto.
Qed.
Lemma same_routes name arguments :
  same_tabled (p_route_tool_call name arguments) (route_tool_call name arguments) ∧
  same_tabled (p_route_resource_read name) (route_resource_read name) ∧
  same_tabled (p_route_prompt_get name arguments) (route_prompt_get name arguments).
Proof.
  unfold p_route_tool_call, route_tool_call, p_route_resource_read, route_resource_read,
    p_route_prompt_get, route_prompt_get, fed_error.
  split_and!; (destruct (parse_namespaced_name name) as [[alias item]|]; [|by apply same_ret]).
  - case_decide; [apply same_native_tool|]. apply same_route_to_leaf. apply run_call_op.
  - apply same_route_to_leaf. apply run_call_op.
  - apply same_route_to_leaf. apply run_call_op.
Qed.
Lemma run_aggregated_tools a w : run (p_aggregated_tools a) w = aggregated_tools a w.
Proof. unfold p_aggregated_tools, aggregated_tools, refresh_stale, m_when. same_code. Qed.

(** On the state of the server *)
Definition served (s : FederationState) : Prop := tabled (st_world s).
Notation same_served p m := (same served p m (λ _ _, True)).

Lemma run_in_world {A} (p : Proc World A) s : run (p_in_world p) s = in_world (run p) s.
Proof.
  unfold p_in_world. revert s. induction p as [a|B m k IH|k IH]; intros s;
    [by destruct s| |apply IH].
  cbn [focus run]. unfold mbind, M_bind, in_world, lift_state in *.
  destruct (m (st_world s)) as [b w]. rewrite IH. cbn. destruct (run (k b) w) as [a w'].
  by destruct s.
Qed.
Lemma same_in_world {A} (p : Proc World A) m :
  same_tabled p m → same_served (p_in_world p) (in_world m).
Proof.
  intros Hp s Hs. split; [|done]. rewrite run_in_world. unfold in_world, lift_state.
  by rewrite (proj1 (Hp _ Hs)).
Qed.

Lemma same_routed request p m :
  same_tabled p m →
  same_served (r ← p_in_world p; Done (routed request r))
              (r ← in_world m; mret (routed request r)).
Proof.
  intros Hp. apply (same_bind _ (λ _ _, True)); [by apply same_in_world|].
  intros r. by apply same_ret.
Qed.
Lemma same_tools_call request ctx :
  same_served (p_handle_tools_call request ctx) (handle_tools_call request ctx).
Proof.
  unfold p_handle_tools_call, handle_tools_call. cbv zeta.
  destruct (_ && _); [by apply same_ret|]. apply same_routed, same_routes.
Qed.
Lemma same_tools_list request ctx :
  same_served (p_handle_tools_list request ctx) (handle_tools_list request ctx).
Proof.
  apply (same_bind _ (λ _, served)); [by apply same_atom|].
  intros a. apply (same_bind _ (λ _ _, True)); [|intros tools; by apply same_ret].
  apply same_in_world, same_code_everywhere; [apply run_aggregated_tools|done].
Qed.
Lemma same_dispatch_method request session ctx :
  same_served (p_dispatch_method request session ctx) (dispatch_method request session ctx).
Proof.
  unfold p_dispatch_method. cbv zeta.
  case_bool_decide as H1'; [|case_bool_decide as H2'; [|case_bool_decide as H3';
    [|case_bool_decide as H4'; [|by apply same_atom]]]]; unfold dispatch_method.
  - rewrite H1'. apply same_tools_list.
  - rewrite H2'. apply same_tools_call.
  - rewrite H3'. apply same_routed, (same_routes _ VNull).
  - rewrite H4'. apply same_routed, same_routes.
Qed.

(** The parts before the method leave the registry alone. *)
Lemma served_in_env {A} (m : M Env A) s : served s → served (in_env m s).2.
Proof. intros Hs. unfold in_env, in_world, lift_state. by destruct (m _). Qed.
Lemma served_sessions {A} (m : SessionManager → A * SessionManager) s :
  served s → served (with_sessions_of m s).2.
Proof. intros Hs. unfold with_sessions_of, lift_state. by destruct (m _). Qed.
Lemma served_limiter {A} (m : M RateLimiter A) s :
  served s → served (lift_state st_limiter set_limiter m s).2.
Proof. intros Hs. unfold lift_state. by destruct (m _). Qed.

Lemma same_dispatch request session ctx :
  same_served (p_dispatch request session ctx) (dispatch request session ctx).
Proof.
  apply (same_bind _ (λ _, served)); [apply same_atom; intros; by apply served_in_env|].
  intros _. apply same_dispatch_method.
Qed.
Lemma same_check_origin headers p m :
  same_served p m → same_served (p_check_origin headers p) (check_origin headers m).
Proof.
  intros Hp s Hs. unfold p_check_origin, check_origin.
  rewrite (run_next _ _ s (origin_allowed (st_origins s) headers) s)
    by (rewrite run_atom; reflexivity).
  destruct (origin_allowed _ _); [by apply Hp|done].
Qed.
Lemma same_admit_session session :
  same served (p_admit_session session) (admit_session session) (λ _, served).
Proof.
  destruct session as [sid|]; [|by apply same_ret]. intros s Hs. cbn. run_m.
  destruct (validate_session _ _ _ _); [|done]. cbn. run_m.
  unfold with_sessions_of, lift_state. cbn. done.
Qed.
Lemma run_open_session response s : run (p_open_session response) s = open_session response s.
Proof.
  unfold p_open_session, open_session. rewrite run_bind. apply bind_cong; [apply run_atom|].
  intros sub s'. by rewrite run_atom.
Qed.

Lemma same_handle_mcp headers ctx request :
  same_served (p_handle_mcp headers ctx request) (handle_mcp headers ctx request).
Proof.
  apply same_check_origin. cbv zeta.
  apply (same_bind _ (λ _, served)).
  { destruct (bool_decide _); [by apply same_ret|apply same_admit_session]. }
  intros admitted. destruct (negb admitted); [by apply same_ret|].
  apply (same_bind _ (λ _, served)).
  { apply same_atom. intros s Hs. unfold rate_limited. run_m.
    unfold lift_state. by destruct (check _ _ _ _). }
  intros limited. destruct limited; [by apply same_ret|].
  apply (same_bind _ (λ _ _, True)); [apply same_dispatch|]. intros response.
  apply same_code_everywhere; [|done]. intros s. rewrite run_bind. apply bind_cong; [|done].
  destruct (_ && _); [|done]. rewrite run_bind. apply bind_cong; [apply run_open_session|done].
Qed.
Lemma same_get_mcp headers : same_served (p_get_mcp headers) (get_mcp headers).
Proof.
  apply same_check_origin. destruct (extract_session_id headers) as [sid|]; [|by apply same_ret].
  apply (same_bind _ (λ _, served)); [apply same_admit_session|]. intros admitted.
  destruct (negb admitted); [by apply same_ret|].
  apply same_code_everywhere; [|done]. same_code.
Qed.
Lemma same_stdio_line line : same_served (p_stdio_line line) (stdio_line line).
Proof.
  unfold p_stdio_line, stdio_line. destruct (is_empty _); [by apply same_ret|].
  destruct (parse_request line); [|by apply same_ret].
  apply (same_bind _ (λ _ _, True)); [apply same_dispatch|]. intros r. by apply same_ret.
Qed.

Lemma same_answer p m : same_served p m → same_served (p_answer p) (answer m).
Proof. intros Hp. apply (same_bind _ (λ _ _, True)); [exact Hp|]. intros r. by apply same_ret. Qed.
Lemma same_extracted {A} (r : result Reply A) p m :
  (∀ a, same_served (p a) (m a)) → same_served (p_extracted r p) (extracted r m).
Proof. intros Hp. destruct r; [apply Hp|by apply same_ret]. Qed.
Lemma same_world {A} (p : Proc World A) m :
  (∀ w, run p w = m w) → same_served (p_in_world p) (in_world m).
Proof. intros Hp. by apply same_in_world, same_code_everywhere. Qed.

Lemma same_route ctx rq : same_served (p_route ctx rq) (route ctx rq).
Proof.
  unfold p_route, route. cbv zeta. case_decide; [|case_decide].
  - unfold p_mcp_route. case_decide; [|destruct (is_get _) eqn:Hg; [|by apply same_atom]].
    + unfold mcp_route. rewrite decide_True by done. apply same_extracted. intros request.
      apply same_answer, same_handle_mcp.
    + unfold mcp_route. rewrite decide_False, Hg by done. apply same_answer, same_get_mcp.
  - unfold p_servers_route. case_decide; [|by apply same_atom].
    unfold servers_route. rewrite decide_True by done. apply same_extracted. intros request.
    apply same_world, run_register_server.
  - destruct (server_segment _) as [segment|]; [|by apply same_atom].
    unfold p_server_route. destruct (is_get _) eqn:Hg; [by apply same_atom|].
    case_decide; [|by apply same_atom]. unfold server_route. rewrite Hg, decide_True by done.
    apply same_extracted. intros alias. apply same_answer, same_world, run_deregister_server.
Qed.
Lemma same_app auth rq : same_served (p_app auth rq) (app auth rq).
Proof.
  unfold p_app, app. case_decide; [by apply same_atom|].
  apply (same_bind _ (λ _, served)); [by apply same_atom|]. intros t.
  destruct (auth_middleware _ _ _); [by apply same_ret|apply same_route].
Qed.
End same_requests.

(** ** Actions *)
Section same_actions.
Context `{!Os, !Http, !Serde, !MapOrder, !Unicode, !Jwt, !HeaderValue, !Axum, !Kube, !Dig, !Yaml}.

Lemma has_set_tasks ts l w : has l w → has l (set_tasks ts w).
Proof. done. Qed.

(** An action whose thread is left alone does what the action does. *)
Lemma run_act g monitors a s :
  enabled_in monitors s a → served s → (∀ l, l ∈ monitors → has l (st_world s)) →
  (∀ t, t ∈ w_tasks (st_world s) → has (task_leaf t) (st_world s)) →
  (run (p_act g a) (accept a s).2).2 = (act g a s).2.
Proof.
  intros Hen Hs Hm Ht.
  assert (∀ A (p : Proc World A) (m : M World A), (run p (st_world s)).2 = (m (st_world s)).2 →
    (run (p_in_world p) s).2 = (in_world m s).2) as Hw.
  { intros A p m Hpm. rewrite run_in_world. unfold in_world, lift_state.
    destruct (run p _), (m _). cbn in Hpm. by subst. }
  assert (∀ A (p : Proc World A) (m : M World A), (∀ w, run p w = m w) →
    (run (p_in_world (_ ← p; Done tt)) s).2 = (in_world (_ ← m; mret tt) s).2) as Hw'.
  { intros A p m Hpm. apply Hw. rewrite run_bind. run_m. by rewrite Hpm. }
  destruct a as [|rq|line|before t after|l| |obj| |rx|rx sub_id| |d]; cbn [p_act accept act snd].
  - done.
  - rewrite run_bind. run_m. by rewrite (proj1 (same_app _ _ s Hs)).
  - rewrite run_bind. run_m. by rewrite (proj1 (same_stdio_line _ s Hs)).
  - cbn in Hen. rewrite run_in_world. unfold in_world, lift_state. run_m. cbn.
    rewrite (proj1 (same_run_task t (set_tasks (before ++ after) (st_world s))
      (Ht t ltac:(rewrite Hen; set_solver)))).
    by destruct (run_task t _).
  - apply Hw. rewrite run_bind. run_m.
    by rewrite (proj1 (same_monitor_turn l _ (Hm l Hen))).
  - apply Hw', run_poll_once.
  - apply Hw', run_crd_reconcile.
  - apply Hw', run_on_sighup.
  - by rewrite run_atom.
  - by rewrite run_atom.
  - by rewrite run_atom.
  - by rewrite run_atom.
Qed.
End same_actions.
