(* ===== verification/Guarantee.v ===== *)
(** * Guarantee: what each part of each thread promises the others

    All threads rely on the same things: the invariant [sound] of the world, and that
    entries stay, keep their configuration and the identity of their client ([persists]).
    What a thread guarantees is finer: apart from the aliases it owns it leaves the table
    alone, apart from the leaves it writes it leaves their status (health and failure count)
    alone, and the initialisations it spawns are those of the leaves it has created.
    [well] is this for a computation that is not interrupted, [guarded] for one that is. *)
From S2P Require Import Prelude Text Json Protocol F64 Env Config RateLimit Rbac Session.
From S2P Require Import Notifications LeafClient Scenario Registry Health Aggregator Router.
From S2P Require Import Server DnsDiscovery CrdDiscovery Status Api Reload App Main Threads.
From S2P Require Import Actions Awaits.
Open Scope string_scope.
Open Scope list_scope.

(** The leaves that pending tasks initialise *)
Definition init_leaf_of (t : Task) : option nat :=
  match t with TInit l _ _ => Some l | _ => None end.
Definition inits (ts : list Task) : list nat := omap init_leaf_of ts.
Lemma inits_app ts us : inits (ts ++ us) = inits ts ++ inits us.
Proof. apply omap_app. Qed.
Lemma inits_cons t ts : inits (t :: ts) = option_list (init_leaf_of t) ++ inits ts.
Proof. unfold inits. cbn. by destruct (init_leaf_of t). Qed.

Definition sound (w : World) : Prop := world_wf w ∧ broker_wf (w_broker w).
Definition persists (w w' : World) : Prop :=
  ∀ l e, w_heap w !! l = Some e → ∃ e', w_heap w' !! l = Some e' ∧ evolved e e'.

#[export] Instance persists_preorder : PreOrder persists.
Proof.
  split; [intros w l e He; by exists e|]. intros a b c Hab Hbc l e He.
  destruct (Hab l e He) as (e1 & He1 & Hev). destruct (Hbc l e1 He1) as (e2 & He2 & Hev').
  exists e2. split; [done|by etrans].
Qed.
Lemma persists_has l w w' : persists w w' → has l w → has l w'.
Proof. intros Hp [e He]. destruct (Hp l e He) as (e' & He' & _). by exists e'. Qed.

Record guarantee (owns : string → Prop) (writes : nat → Prop) (w w' : World) : Prop := {
  gu_heap : ∀ l e, w_heap w !! l = Some e →
    ∃ e', w_heap w' !! l = Some e' ∧ evolved e e' ∧ (writes l ∨ status e' = status e);
  gu_table : ∀ a, ¬ owns a → w_leaves w' !! a = w_leaves w !! a;
  gu_tasks : ∃ ts, w_tasks w' = w_tasks w ++ ts ∧ NoDup (inits ts) ∧
    ∀ l, l ∈ inits ts ↔ ¬ has l w ∧ has l w';
}.
Lemma no_inits w w' :
  (∀ l, has l w' → has l w) → NoDup (inits []) ∧ ∀ l, l ∈ inits [] ↔ ¬ has l w ∧ has l w'.
Proof. intros Hh. split; [constructor|]. intros l. rewrite elem_of_nil. naive_solver. Qed.
#[export] Instance guarantee_preorder owns writes : PreOrder (guarantee owns writes).
Proof.
  split.
  - intros w. split; [|done|].
    + intros l e He. exists e. split_and!; [done|done|by right].
    + exists []. rewrite app_nil_r. split; [done|]. by apply no_inits.
  - intros a b c [Hh1 Ht1 (ts & Hts & Hnd & Hf)] [Hh2 Ht2 (us & Hus & Hnd' & Hf')].
    assert (∀ l, has l a → has l b) as Hab.
    { intros l [e He]. destruct (Hh1 l e He) as (e' & He' & _). by exists e'. }
    assert (∀ l, has l b → has l c) as Hbc.
    { intros l [e He]. destruct (Hh2 l e He) as (e' & He' & _). by exists e'. }
    split.
    + intros l e He. destruct (Hh1 l e He) as (e1 & He1 & Hev & Hs1).
      destruct (Hh2 l e1 He1) as (e2 & He2 & Hev' & Hs2).
      exists e2. split_and!; [done|by etrans|]. destruct Hs1; [by left|].
      destruct Hs2; [by left|right; congruence].
    + intros al Ha. by rewrite Ht2, Ht1.
    + exists (ts ++ us). rewrite Hus, Hts, <- app_assoc. split; [done|]. rewrite inits_app. split.
      * apply NoDup_app. split_and!; [done| |done]. intros l [_ Hl]%Hf [Hn _]%Hf'. done.
      * intros l. rewrite elem_of_app, Hf, Hf'. destruct (decide (has l b)); naive_solver.
Qed.
Lemma guarantee_persists owns writes w w' : guarantee owns writes w w' → persists w w'.
Proof. intros [Hh _ _] l e He. destruct (Hh l e He) as (e' & ? & ? & _). eauto. Qed.
Lemma guarantee_mono (owns owns' : string → Prop) (writes writes' : nat → Prop) w w' :
  (∀ a, owns a → owns' a) → (∀ l, writes l → writes' l) →
  guarantee owns writes w w' → guarantee owns' writes' w w'.
Proof.
  intros Ho Hw [Hh Ht Hts]. split; [|auto|done]. intros l e He.
  destruct (Hh l e He) as (e' & ? & ? & [?|?]); exists e'; auto.
Qed.

(** What stays the same but for the entries *)
Lemma same_but_heap owns writes w w' :
  (∀ l e, w_heap w !! l = Some e →
     ∃ e', w_heap w' !! l = Some e' ∧ evolved e e' ∧ (writes l ∨ status e' = status e)) →
  (∀ l, has l w' → has l w) → w_leaves w' = w_leaves w → w_tasks w' = w_tasks w → guarantee owns writes w w'.
Proof.
  intros Hh Hn Hl Ht. split; [done|by rewrite Hl|]. exists []. rewrite Ht, app_nil_r.
  split; [done|]. by apply no_inits.
Qed.
Lemma same_but_rest owns writes w w' :
  w_heap w' = w_heap w → w_leaves w' = w_leaves w → w_tasks w' = w_tasks w →
  guarantee owns writes w w'.
Proof.
  intros Hh. apply same_but_heap; unfold has; rewrite Hh; [|done]. intros l e He. exists e.
  split_and!; [done|done|by right].
Qed.

Definition on_state (R : relation World) (s s' : FederationState) : Prop :=
  R (st_world s) (st_world s').
#[export] Instance on_state_preorder R : PreOrder R → PreOrder (on_state R).
Proof. intros HR. split; [intros s; unfold on_state; reflexivity|intros a b c ??; unfold on_state in *; by etrans]. Qed.

Notation well owns writes m := (obeys sound (guarantee owns writes) m).
Notation well_s owns writes m :=
  (obeys (λ s, sound (st_world s)) (on_state (guarantee owns writes)) m).
Notation guarded owns writes p := (safely sound persists (guarantee owns writes) p).
Notation guarded_s owns writes p :=
  (safely (λ s, sound (st_world s)) (on_state persists) (on_state (guarantee owns writes)) p).

(** Apply a rule; the relations are preorders. *)
Ltac by_rule rule := apply rule; lazymatch goal with |- PreOrder _ => apply _ | |- _ => idtac end.

Create HintDb well discriminated.
#[export] Hint Constants Opaque : well.
#[export] Hint Extern 1 (obeys _ _ (mret _)) => by_rule obeys_ret : well.
#[export] Hint Extern 1 (obeys _ _ (m_gets _)) => by_rule obeys_gets : well.
#[export] Hint Extern 2 (obeys _ _ (_ ≫= _)) => by_rule obeys_bind : well.
#[export] Hint Extern 2 (obeys _ _ (m_bindr _ _)) => by_rule obeys_bindr : well.
#[export] Hint Extern 2 (obeys _ _ (m_iter _ _)) => by_rule obeys_iter : well.
#[export] Hint Extern 2 (obeys _ _ (m_map _ _)) => by_rule obeys_map : well.
#[export] Hint Extern 3 (obeys _ _ (match ?x with _ => _ end)) => destruct x : well.
#[export] Hint Extern 1 (safely _ _ _ (Done _)) => by_rule safely_done : well.
#[export] Hint Extern 1 (safely _ _ _ (atom _)) => by_rule safely_atom : well.
#[export] Hint Extern 2 (safely _ _ _ (_ ≫= _)) => by_rule safely_bind : well.
#[export] Hint Extern 2 (safely _ _ _ (p_bindr _ _)) => by_rule safely_bindr : well.
#[export] Hint Extern 2 (safely _ _ _ (p_iter _ _)) => by_rule safely_iter : well.
#[export] Hint Extern 2 (safely _ _ _ (p_map _ _)) => by_rule safely_map : well.
#[export] Hint Extern 2 (safely _ _ _ (p_par _ _)) =>
  apply safely_par; [apply _|intros ??; first [done|apply guarantee_persists]|] : well.
#[export] Hint Extern 3 (safely _ _ _ (match ?x with _ => _ end)) => destruct x : well.

(** ** Operations *)
Program Definition writing (P : nat → Prop) : Change :=
  {| change := λ l e e', evolved e e' ∧ (P l ∨ status e' = status e) |}.
Next Obligation.
  intros P l. split; [intros e; split; [done|by right]|]. intros a b c [H1 H2] [H3 H4].
  split; [by etrans|]. destruct H2; [by left|]. destruct H4; [by left|right; congruence].
Qed.
#[export] Hint Extern 1 (change (writing _) _ _ _) =>
  split; [done|first [by right|left; done]] : acts.

(** A client keeps its identity, and time does not run back. *)
Definition client_step (s s' : LeafClient * Env) : Prop := same_leaf s.1 s'.1 ∧ env_le s.2 s'.2.
Notation client_thread p := (safely (λ _, True) (λ _ _, True) client_step p).

Section operations.
Context `{!Os, !Http, !Serde, !MapOrder, !Kube} (owns : string → Prop) (writes : nat → Prop).

Lemma acts_well {A} (m : M World A) : acts (writing writes) m → well owns writes m.
Proof.
  intros Hm w [Hwf Hb]. specialize (Hm w). split.
  - split; [eapply acts_on_wf; [|exact Hm|done]; by intros l e e' [? _]|].
    by rewrite (acts_broker _ _ _ Hm).
  - apply same_but_heap; [| |apply Hm..].
    + intros l e He. destruct (acts_on_lookup _ _ _ _ _ Hm He) as (e' & He' & Hev & Hs). eauto.
    + intros l [e' He']. pose proof (acts_heap _ _ _ Hm l) as Hl. rewrite He' in Hl.
      inversion Hl. by eexists.
Qed.
Lemma on_client_well {A} l (m : M (LeafClient * Env) A) :
  client_op m → well owns writes (on_client l m).
Proof. intros Hm. apply acts_well. auto with acts. Qed.
Lemma update_well l f : (∀ e, evolved e (f e) ∧ status (f e) = status e) → well owns writes (update l f).
Proof. intros Hf. apply acts_well, acts_update. intros e. destruct (Hf e). split; auto. Qed.
Lemma update_now_well l f :
  (∀ t e, evolved e (f t e) ∧ status (f t e) = status e) → well owns writes (update_now l f).
Proof. intros Hf. apply acts_well, acts_update_now. intros t e. destruct (Hf t e). split; auto. Qed.
Lemma write_well l f : writes l → (∀ e, evolved e (f e)) → well owns writes (update l f).
Proof. intros Hl Hf. apply acts_well, acts_update. intros e. split; auto. Qed.
Lemma write_now_well l f : writes l → (∀ t e, evolved e (f t e)) → well owns writes (update_now l f).
Proof. intros Hl Hf. apply acts_well, acts_update_now. intros t e. split; auto. Qed.

Lemma install_well alias config task :
  owns alias → Config.alias config = alias → (∀ l, init_leaf_of (task l) = Some l) →
  well owns writes (install alias config task).
Proof.
  intros Ho Ha Ht w [Hwf Hb].
  assert (∀ l, task_leaf (task l) = l) as Htl
    by (intros l; specialize (Ht l); destruct (task l); by simplify_eq/=).
  split; [split; [by apply install_wf|by rewrite install_spec]|].
  pose proof (fresh_heap w) as Hf. rewrite install_spec. set (l := fresh _) in *. cbn. split; cbn.
  - intros l' e He. exists e. split_and!; [|done|by right].
    rewrite lookup_insert_ne; [done|]. intros <-. congruence.
  - intros a Hna. rewrite lookup_insert_ne; [done|]. by intros <-.
  - exists [task l]. split; [done|]. cbn. rewrite Ht. split; [apply NoDup_singleton|].
    intros l'. rewrite list_elem_of_singleton. unfold has. cbn.
    rewrite lookup_insert_is_Some'. rewrite <- eq_None_not_Some.
    split; [intros ->; auto|by intros [? [?|[??]]]; congruence].
Qed.
Lemma remove_leaf_well alias : owns alias → well owns writes (remove_leaf alias).
Proof.
  intros Ho w [Hwf Hb]. split; [split; [by apply remove_wf|done]|]. split; cbn.
  - intros l e He. exists e. split_and!; [done|done|by right].
  - intros a Ha. rewrite lookup_delete_ne; [done|]. by intros <-.
  - exists []. rewrite app_nil_r. split; [done|]. by apply no_inits.
Qed.
Lemma same_well {A} (m : M World A) :
  (∀ w, w_heap (m w).2 = w_heap w ∧ w_leaves (m w).2 = w_leaves w ∧ w_tasks (m w).2 = w_tasks w ∧
        (broker_wf (w_broker w) → broker_wf (w_broker (m w).2))) →
  well owns writes m.
Proof.
  intros Hm w [[Hl Ht] Hb]. destruct (Hm w) as (Hh & Hls & Hts & Hbr).
  split; [|by apply same_but_rest]. split; [|auto]. split.
  - intros a l. rewrite Hls, Hh. apply Hl.
  - intros t. rewrite Hts, Hh. apply Ht.
Qed.
Lemma patch_well p : well owns writes (patch p).
Proof. by apply same_well. Qed.
Lemma env_well {A} (m : M Env A) : well owns writes (lift_state w_env set_env m).
Proof. apply same_well. intros w. unfold lift_state. by destruct (m _). Qed.
Lemma broker_well {A} (m : NotificationBroker → A * NotificationBroker) :
  (∀ b, broker_wf b → broker_wf (m b).2) → well owns writes (in_broker m).
Proof.
  intros Hm. apply same_well. intros w. specialize (Hm (w_broker w)). unfold in_broker, lift_state.
  by destruct (m _).
Qed.
Lemma advance_well d : well owns writes (m_modify (advance d)).
Proof. by apply same_well. Qed.
(** A task that initialises nothing may be spawned of a leaf that is there. *)
Lemma spawn_obeys t w :
  init_leaf_of t = None → sound w → has (task_leaf t) w →
  sound (spawn t w).2 ∧ guarantee owns writes w (spawn t w).2.
Proof.
  intros Hi [[Hl Ht] Hb] Hh. split; [split; [split|]; [done| |done]|split; cbn].
  - intros u [Hin|Hin%list_elem_of_singleton]%elem_of_app; [by apply Ht|]. by subst.
  - intros l' e He. exists e. split_and!; [done|done|by right].
  - done.
  - exists [t]. rewrite inits_cons, Hi. split; [done|]. by apply no_inits.
Qed.
Lemma refresh_if_stale_obeys ttl l w :
  sound w → has l w →
  sound (refresh_if_stale ttl l w).2 ∧ guarantee owns writes w (refresh_if_stale ttl l w).2.
Proof.
  intros Hw Hl. unfold refresh_if_stale. run_m. destruct (tools_stale _ _ _); [|by split].
  by apply spawn_obeys.
Qed.
Lemma spawn_listener_obeys l w :
  sound w → has l w →
  sound (spawn_listener l w).2 ∧ guarantee owns writes w (spawn_listener l w).2.
Proof.
  intros Hw Hl. unfold spawn_listener. run_m. case_decide; [|by split].
  destruct (listen_notifications _); [by apply spawn_obeys|by split].
Qed.

(** On the state of the server *)
Lemma in_world_well {A} (m : M World A) : well owns writes m → well_s owns writes (in_world m).
Proof.
  intros Hm s Hs. specialize (Hm (st_world s) Hs). unfold on_state, in_world, lift_state.
  by destruct (m (st_world s)).
Qed.
Lemma in_env_well {A} (m : M Env A) : well_s owns writes (in_env m).
Proof. apply in_world_well, env_well. Qed.
Lemma elsewhere_well {A} (m : M FederationState A) :
  (∀ s, st_world (m s).2 = st_world s) → well_s owns writes m.
Proof. intros Hm s Hs. unfold on_state. by rewrite (Hm s). Qed.
Lemma with_sessions_well {A} (m : SessionManager → A * SessionManager) :
  well_s owns writes (with_sessions_of m).
Proof. apply elsewhere_well. intros s. unfold with_sessions_of, lift_state. by destruct (m _). Qed.
Lemma limiter_well {A} (m : M RateLimiter A) :
  well_s owns writes (lift_state st_limiter set_limiter m).
Proof. apply elsewhere_well. intros s. unfold lift_state. by destruct (m _). Qed.
Lemma p_in_world_guarded {A} (p : Proc World A) :
  guarded owns writes p → guarded_s owns writes (p_in_world p).
Proof.
  apply (safely_focus st_world (@in_world)). intros B m t. unfold in_world, lift_state.
  by destruct (m _).
Qed.
Lemma p_at_guarded {A} l (p : Proc (LeafClient * Env) A) :
  client_thread p → guarded owns writes (p_at l p).
Proof.
  intros Hp w _. specialize (Hp (le_client (entry l w), w_env w) I).
  unfold p_at. revert Hp. generalize (le_client (entry l w), w_env w) as s. revert w.
  induction p as [a|B m k IH|k IH]; intros w s Hp; [done| |].
  2: { intros c w' _ _. exact (IH c w' s (Hp c s I I)). }
  intros w' Hw' _. cbn.
  assert (well owns writes (on_client l m)) as Hm.
  { apply on_client_well. intros c e. destruct (Hp (c, e) I I) as (_ & Hg & _).
    by destruct (m (c, e)) as [b [c' e']]. }
  destruct (Hm w' Hw') as [Hs Hg]. split_and!; [done..|].
  unfold on_client. destruct (Hp (le_client (entry l w'), w_env w') I I) as (_ & _ & Hk).
  destruct (m _) as [b [c e]]. exact (IH _ _ _ Hk).
Qed.
End operations.

(** ** The client of a leaf *)
#[export] Instance anything_preorder {S} : PreOrder (λ _ _ : S, True).
Proof. by split. Qed.
#[export] Instance client_step_preorder : PreOrder client_step.
Proof.
  split; [intros [c e]; split; reflexivity|].
  intros a b c [Hl1 He1] [Hl2 He2]. split; by etrans.
Qed.

Section client.
Context `{!Os, !Http, !Serde}.
Notation client_part m := (obeys (λ _, True) client_step m).

Lemma client_obeys {A} (m : M (LeafClient * Env) A) :
  (∀ c e, same_leaf c (m (c, e)).2.1 ∧ env_le e (m (c, e)).2.2) → client_part m.
Proof. intros Hm [c e] _. split; [done|apply Hm]. Qed.
Lemma with_session_same o c : same_leaf c (with_session o c).
Proof. by destruct c. Qed.
Lemma post_at_part t body : client_part (post_at t body).
Proof.
  apply client_obeys. intros c e. unfold post_at. pose proof (send_le (lc_http c) (post_request t c body) e).
  destruct (send _ _ _). by split.
Qed.
Lemma stream_at_part t : client_part (stream_at t).
Proof.
  apply client_obeys. intros c e. unfold stream_at. pose proof (send_le (lc_http c) (stream_request t c) e).
  destruct (send _ _ _). by split.
Qed.
Lemma health_part : client_part health_check_leaf.
Proof.
  apply client_obeys. intros c e. pose proof (health_check_client c e) as Hh.
  by destruct (health_check_leaf _) as [? [??]].
Qed.
Lemma capture_part response : client_part (capture_session response).
Proof.
  apply client_obeys. intros c e. cbn. destruct (streamable c); [|done].
  destruct (header_str "mcp-session-id" (hp_headers response)); [|done].
  split; [apply with_session_same|done].
Qed.
Lemma set_session_part o : client_part (set_session o).
Proof. apply client_obeys. intros c e. split; [apply with_session_same|done]. Qed.
Lemma next_id_part : client_part next_request_id.
Proof. apply client_obeys. intros c e. by split; [destruct c|]. Qed.
Lemma unreachable_part {A} err : client_part (unreachable (A := A) err).
Proof. by apply client_obeys. Qed.
Lemma leaf_error_part {A} message : client_part (leaf_error (A := A) message).
Proof. by apply client_obeys. Qed.
Lemma read_body_part response : client_part (read_body response).
Proof. unfold read_body. destruct (body_bytes _); [apply obeys_ret; apply _|apply unreachable_part]. Qed.
Hint Resolve post_at_part stream_at_part health_part capture_part set_session_part next_id_part
  unreachable_part leaf_error_part read_body_part : well.

Lemma send_once_thread body : client_thread (p_send_once body).
Proof. unfold p_send_once. auto 20 with well. Qed.
Hint Resolve send_once_thread : well.
Lemma initialize_thread : client_thread p_initialize.
Proof. unfold p_initialize. auto 20 with well. Qed.
Hint Resolve initialize_thread : well.
Lemma reinit_thread body : client_thread (p_reinit_and_retry body).
Proof. unfold p_reinit_and_retry. auto 20 with well. Qed.
Hint Resolve reinit_thread : well.
Lemma send_request_thread body : client_thread (p_send_request body).
Proof. unfold p_send_request. auto 20 with well. Qed.
Hint Resolve send_request_thread : well.
Lemma list_op_thread meth key : client_thread (p_list_op meth key).
Proof. unfold p_list_op. auto 20 with well. Qed.
Lemma call_op_thread meth missing params : client_thread (p_call_op meth missing params).
Proof. unfold p_call_op. auto 20 with well. Qed.
End client.
#[export] Hint Resolve stream_at_part health_part initialize_thread list_op_thread call_op_thread
  : well.

(** ** Leaves *)
#[export] Hint Extern 2 (obeys _ _ (update _ _)) => first
  [apply write_well; [assumption|by intros ?]|by apply update_well] : well.
#[export] Hint Extern 2 (obeys _ _ (update_now _ _)) => first
  [apply write_now_well; [assumption|by intros ??]|by apply update_now_well] : well.

Section leaves.
Context `{!Os, !Http, !Serde, !MapOrder, !Kube} (owns : string → Prop) (writes : nat → Prop).
Notation guarded p := (guarded owns writes p).

Hint Resolve p_at_guarded : well.
Lemma refresh_leaf_guarded l : guarded (p_refresh_leaf l).
Proof. unfold p_refresh_leaf, p_list_tools, p_store_tools, mark_tools_refreshed. auto 20 with well. Qed.
Lemma mark_healthy_guarded l : writes l → guarded (p_mark_healthy l).
Proof. intros Hl. unfold p_mark_healthy. auto 20 with well. Qed.
Lemma mark_unhealthy_guarded l : writes l → guarded (p_mark_unhealthy l).
Proof. intros Hl. unfold p_mark_unhealthy, count_failure. auto 20 with well. Qed.
Lemma record_failure_guarded l : writes l → guarded (p_record_failure l).
Proof. intros Hl. unfold p_record_failure, count_failure. auto 20 with well. Qed.
Hint Resolve refresh_leaf_guarded mark_healthy_guarded mark_unhealthy_guarded
  record_failure_guarded : well.

Lemma init_leaf_guarded l keep : writes l → guarded (p_init_leaf l keep).
Proof. intros Hl. unfold p_init_leaf, p_note_initialized. auto 20 with well. Qed.
Lemma initialize_leaf_guarded l : writes l → guarded (p_initialize_leaf l).
Proof. intros Hl. unfold p_initialize_leaf, p_note_initialized. auto 30 with well. Qed.
Lemma monitor_turn_guarded l : writes l → guarded (p_monitor_turn l).
Proof. intros Hl. unfold p_monitor_turn. auto 20 with well. Qed.
Lemma report_status_guarded l object ok : guarded (p_report_status l object ok).
Proof. unfold p_report_status. pose proof (patch_well owns writes). auto 20 with well. Qed.

(** *** Streams *)
Lemma dispatch_event_wf leaf payload b : broker_wf b → broker_wf (dispatch_event leaf payload b).
Proof.
  intros Hb. unfold dispatch_event. destruct (from_str payload) as [v|]; [|done].
  by apply (apply_op_wf (OPublish (annotate leaf v))).
Qed.
Lemma dispatch_events_guarded leaf events : guarded (p_dispatch_events leaf events).
Proof.
  unfold p_dispatch_events. apply safely_iter; [apply _|]. intros payload.
  apply safely_atom, broker_well. intros b. apply dispatch_event_wf.
Qed.
Hint Resolve dispatch_events_guarded : well.
Lemma stream_guarded leaf chunks line data : guarded (p_stream leaf chunks line data).
Proof.
  revert line data. induction chunks as [|[bytes|err] chunks IH]; intros line data; cbn [p_stream];
    [auto with well| |auto with well].
  destruct (feed _ _ _) as [events [line' data']]. auto with well.
Qed.
Lemma run_listener_guarded l : guarded (p_run_listener l).
Proof. pose proof stream_guarded. unfold p_run_listener. auto 20 with well. Qed.
End leaves.
#[export] Hint Resolve p_at_guarded refresh_leaf_guarded init_leaf_guarded monitor_turn_guarded
  report_status_guarded run_listener_guarded : well.

(** The leaves that tasks are spawned for were in the table, so they are there for good. *)
Lemma spawning owns writes (f : nat → M World unit) leaves w :
  (∀ l w, sound w → has l w → sound (f l w).2 ∧ guarantee owns writes w (f l w).2) →
  (∀ l, l ∈ leaves → has l w) → sound w →
  rg sound persists (guarantee owns writes) (p_iter (λ l, atom (f l)) leaves) (λ _ _, True) w.
Proof.
  intros Hf. revert w. induction leaves as [|l leaves IH]; intros w Hl Hw; cbn [p_iter]; [done|].
  apply rg_bind; [apply _|done|]. apply rg_atom. intros w' Hw' Hp.
  destruct (Hf l w' Hw') as [Hs Hg].
  { eapply persists_has; [exact Hp|]. apply Hl. left. }
  split_and!; [done..|]. intros u Hu Hpu. apply IH; [|done]. intros l' Hl'.
  do 2 (eapply persists_has; [try exact Hpu; by eapply guarantee_persists|]).
  eapply persists_has; [exact Hp|]. apply Hl. by right.
Qed.
Lemma table_has `{!MapOrder} w l : sound w → l ∈ map_values (w_leaves w) → has l w.
Proof. intros [[Hl _] _] [al Hal]%map_values_elem. destruct (Hl _ _ Hal) as (e & He & _). by exists e. Qed.

(** ** What the threads of a leaf leave alone *)
Definition unmoved {T} (f : World → T) : relation World := λ w w', f w' = f w.
#[export] Instance unmoved_preorder {T} (f : World → T) : PreOrder (unmoved f).
Proof. split; [by intros w|]. intros a b c Hab Hbc. unfold unmoved in *. congruence. Qed.
Notation quiet f p := (safely (λ _, True) (λ _ _, True) (unmoved f) p).

Section quiet.
Context `{!Os, !Http, !Serde, !MapOrder, !Kube} {T : Type} (f : World → T).
Hypothesis f_leaves : ∀ e h w, f (set_env e (set_heap h w)) = f w.

Lemma quiet_part {A} (m : M World A) : (∀ w, f (m w).2 = f w) → quiet f (atom m).
Proof. intros Hm. apply safely_atom. intros w _. split; [done|apply Hm]. Qed.
Lemma quiet_update l g : quiet f (atom (update l g)).
Proof. apply quiet_part. intros w. apply (f_leaves (w_env w)). Qed.
Lemma quiet_update_now l g : quiet f (atom (update_now l g)).
Proof. apply quiet_part. intros w. apply (f_leaves (w_env w)). Qed.
Lemma quiet_gets {A} (g : World → A) : quiet f (atom (m_gets g)).
Proof. by apply quiet_part. Qed.
Lemma quiet_at {A} l (p : Proc (LeafClient * Env) A) : quiet f (p_at l p).
Proof.
  unfold p_at. induction p as [a|B m k IH|k IH]; [apply safely_done| |].
  - intros w _ w' _ _. cbn. split_and!; [done| |by apply IH]. unfold on_client, unmoved.
    destruct (m _) as [b [c e]]. apply f_leaves.
  - intros w _ c w' _ _. by apply IH.
Qed.
Hint Resolve quiet_at : well.
Hint Extern 0 (safely _ _ (unmoved _) (atom (update _ _))) => by apply quiet_update : well.
Hint Extern 0 (safely _ _ (unmoved _) (atom (update_now _ _))) => by apply quiet_update_now : well.
Hint Extern 0 (safely _ _ (unmoved _) (atom (m_gets _))) => by apply quiet_gets : well.

Lemma quiet_refresh_leaf l : quiet f (p_refresh_leaf l).
Proof. unfold p_refresh_leaf, p_list_tools, p_store_tools. auto 20 with well. Qed.
Hint Resolve quiet_refresh_leaf : well.
Lemma quiet_init_leaf l keep : quiet f (p_init_leaf l keep).
Proof.
  unfold p_init_leaf, p_note_initialized, p_mark_healthy, p_mark_unhealthy. auto 20 with well.
Qed.
Lemma quiet_initialize_all : quiet f p_initialize_all.
Proof.
  assert (∀ l, quiet f (p_initialize_leaf l)).
  { intros l. unfold p_initialize_leaf, p_note_initialized, p_mark_healthy, p_mark_unhealthy.
    auto 30 with well. }
  unfold p_initialize_all, all_leaves. auto 20 with well.
Qed.
End quiet.

(** The leaves whose status a task may write *)
Definition task_writes (t : Task) (l : nat) : Prop := init_leaf_of t = Some l.
Lemma run_task_guarded `{!Os, !Http, !Serde, !MapOrder, !Kube} owns t :
  guarded owns (task_writes t) (p_run_task t).
Proof.
  destruct t as [l|l keep report|l]; cbn [p_run_task]; [auto with well| |auto with well].
  assert (task_writes (TInit l keep report) l) as Hl by done. auto 20 with well.
Qed.

(** ** The sources of leaves *)
Definition nothing (a : string) : Prop := False.
Definition nowhere (l : nat) : Prop := False.
Definition dns_aliases (a : string) : Prop := dns_owned a = true.
Definition crd_aliases (a : string) : Prop := starts_with CRD_ALIAS_PREFIX a = true.

Section sources.
Context `{!Os, !Http, !Serde, !MapOrder, !Kube, !Dig, !Yaml} (writes : nat → Prop).

Lemma spawn_listeners_guarded owns : guarded owns writes p_spawn_listeners.
Proof.
  intros w Hw. apply rg_bind; [apply _|done|]. apply rg_atom. intros w' Hw' _.
  split_and!; [done|reflexivity|]. intros u Hu Hp.
  apply spawning; [by intros; apply spawn_listener_obeys| |done].
  intros l Hl. eapply persists_has; [exact Hp|]. by apply table_has.
Qed.
Lemma poll_once_guarded config : guarded dns_aliases writes (p_poll_once config).
Proof.
  unfold p_poll_once. apply safely_bind; [apply _|auto with well|]. intros t.
  destruct (query_srv t _) as [records|e]; [|auto with well].
  apply safely_bind; [apply _| |auto with well]. unfold p_dns_reconcile, aliases.
  apply safely_bind; [apply _|auto with well|]. intros all. cbv zeta.
  apply safely_bind; [apply _| |]; [|intros _; unfold p_remove_all].
  - apply safely_iter_in; [apply _|]. intros [a r] Har%desired_order_elem. apply safely_atom.
    unfold add_record. destruct (bool_decide _); [auto with well|].
    assert (dns_aliases a) by (apply (desired_owned records); eauto).
    apply obeys_bind; [apply _|by apply install_well|auto with well].
  - apply safely_iter_in; [apply _|].
    intros a [_ [Ha _]%list_elem_of_filter]%list_elem_of_filter.
    pose proof (remove_leaf_well dns_aliases writes a Ha). auto with well.
Qed.
Lemma crd_reconcile_guarded obj : guarded crd_aliases writes (p_crd_reconcile obj).
Proof.
  pose proof (object_alias_prefix obj) as Hp.
  assert (well crd_aliases writes (remove_leaf (object_alias obj))) by by apply remove_leaf_well.
  assert (∀ transport, well crd_aliases writes (install (object_alias obj)
    (object_config obj transport) (λ l, TInit l true (Some (object_namespace obj, o_name obj)))))
    by (intros; by apply install_well).
  pose proof (patch_well crd_aliases writes).
  unfold p_crd_reconcile, p_patch_finalizers, patch_finalizers. auto 20 with well.
Qed.
Lemma on_sighup_guarded path : guarded (λ _, True) writes (p_on_sighup path).
Proof.
  assert (∀ a, well (λ _, True) writes (remove_leaf a)) by (intros; by apply remove_leaf_well).
  assert (∀ s, well (λ _, True) writes (install (Config.alias s) s (λ l, TInit l false None)))
    by (intros; by apply install_well).
  unfold p_on_sighup, p_reload_config, p_reload_server, p_remove_all, aliases, get_leaf.
  auto 20 with well.
Qed.
Lemma register_guarded rq : guarded (eq (rg_alias rq)) writes (p_register_server rq).
Proof.
  assert (well (eq (rg_alias rq)) writes (install (rg_alias rq) (request_config rq)
    (λ l, TInit l true None))) by by apply install_well.
  unfold p_register_server, register_checks, register_insert, register_reply, get_leaf.
  auto 20 with well.
Qed.
Lemma deregister_guarded alias : guarded (eq alias) writes (p_deregister_server alias).
Proof.
  assert (well (eq alias) writes (remove_leaf alias)) by by apply remove_leaf_well.
  unfold p_deregister_server. auto 20 with well.
Qed.
End sources.

(** ** Requests *)
Section requests.
Context `{!Os, !Http, !Serde, !MapOrder, !Unicode, !Jwt, !HeaderValue, !Axum, !Kube}.
Context (owns : string → Prop) (writes : nat → Prop).

Lemma native_tool_well name arguments : well owns writes (handle_native_tool name arguments).
Proof.
  assert (∀ l, well owns writes (refresh_leaf l)) as Hr
    by (intros l; apply acts_well, refresh_leaf_acts; auto with acts).
  unfold handle_native_tool, native_list_servers, native_topology, native_server_info,
    native_refresh, native_search_tools, refresh_tools, refresh_all_tools, all_leaves, get_leaf,
    fed_error.
  repeat case_decide; auto 20 with well.
Qed.
Lemma p_native_tool_guarded name arguments :
  guarded owns writes (p_handle_native_tool name arguments).
Proof.
  unfold p_handle_native_tool, p_native_refresh, p_refresh_tools, p_refresh_all_tools, get_leaf,
    all_leaves.
  pose proof native_tool_well. auto 20 with well.
Qed.
Lemma route_to_leaf_guarded alias p :
  client_thread p → guarded owns writes (p_route_to_leaf alias p).
Proof. intros Hp. unfold p_route_to_leaf, get_leaf. auto 20 with well. Qed.
Hint Resolve p_native_tool_guarded route_to_leaf_guarded : well.
Lemma route_tool_call_guarded name arguments :
  guarded owns writes (p_route_tool_call name arguments).
Proof. unfold p_route_tool_call, p_call_tool. auto 20 with well. Qed.
Lemma route_resource_read_guarded name : guarded owns writes (p_route_resource_read name).
Proof. unfold p_route_resource_read, p_read_resource. auto 20 with well. Qed.
Lemma route_prompt_get_guarded name arguments :
  guarded owns writes (p_route_prompt_get name arguments).
Proof. unfold p_route_prompt_get, p_get_prompt. auto 20 with well. Qed.

Lemma aggregated_tools_guarded a : guarded owns writes (p_aggregated_tools a).
Proof.
  intros w Hw. apply rg_bind; [apply _|done|]. apply rg_atom. intros w' Hw' _.
  split_and!; [done|reflexivity|]. intros u Hu Hp. cbn [m_gets healthy_leaves fst snd] in *.
  apply rg_bind; [apply _|done|]. eapply (rg_mono _ _ _ _ (λ _ _, True)).
  - intros _ v Hv _. revert v Hv. change (guarded owns writes (
      tools ← atom (m_gets (collect namespace_tool cached_tools (healthy_leaves w').1));
      Done (native_tools ++ tools))). auto with well.
  - destruct (negb _); [|done]. apply spawning; [by intros; apply refresh_if_stale_obeys| |done].
    intros l [_ Hl]%list_elem_of_filter. eapply persists_has; [exact Hp|]. by apply table_has.
Qed.
End requests.
#[export] Hint Resolve route_tool_call_guarded route_resource_read_guarded
  route_prompt_get_guarded aggregated_tools_guarded : well.

Section endpoint.
Context `{!Os, !Http, !Serde, !MapOrder, !Unicode, !Jwt, !HeaderValue, !Axum, !Kube}.
Context (owns : string → Prop) (writes : nat → Prop).
Notation guarded_s p := (guarded_s owns writes p).
Hint Resolve in_world_well in_env_well with_sessions_well limiter_well p_in_world_guarded : well.

Lemma tools_list_guarded request ctx : guarded_s (p_handle_tools_list request ctx).
Proof. unfold p_handle_tools_list. auto 20 with well. Qed.
Lemma tools_call_guarded request ctx : guarded_s (p_handle_tools_call request ctx).
Proof. unfold p_handle_tools_call. cbv zeta. destruct (_ && _); auto 20 with well. Qed.
Lemma reads_guarded request :
  guarded_s (p_handle_resources_read request) ∧ guarded_s (p_handle_prompts_get request).
Proof. unfold p_handle_resources_read, p_handle_prompts_get. cbv zeta. auto 20 with well. Qed.
Lemma other_methods_well request session ctx :
  rq_method request ≠ "tools/list" → rq_method request ≠ "tools/call" →
  rq_method request ≠ "resources/read" → rq_method request ≠ "prompts/get" →
  well_s owns writes (dispatch_method request session ctx).
Proof.
  intros Hl Hc Hr Hp. unfold dispatch_method. cbv zeta.
  rewrite (bool_decide_eq_false_2 (_ = "tools/list")), (bool_decide_eq_false_2 (_ = "tools/call")),
    (bool_decide_eq_false_2 (_ = "resources/read")), (bool_decide_eq_false_2 (_ = "prompts/get"))
    by done.
  unfold handle_resources_list, handle_prompts_list, handle_logging_set_level,
    aggregated_resources, aggregated_prompts, healthy_leaves.
  auto 20 with well.
Qed.
Lemma dispatch_guarded request session ctx : guarded_s (p_dispatch request session ctx).
Proof.
  unfold p_dispatch. apply safely_bind; [apply _|auto with well|]. intros _.
  unfold p_dispatch_method. cbv zeta. pose proof (reads_guarded request) as [? ?].
  case_bool_decide; [apply tools_list_guarded|]. case_bool_decide; [apply tools_call_guarded|].
  case_bool_decide; [done|]. case_bool_decide; [done|].
  apply safely_atom. by apply other_methods_well.
Qed.
Lemma check_origin_guarded headers p : guarded_s p → guarded_s (p_check_origin headers p).
Proof. intros Hp. unfold p_check_origin. auto 20 with well. Qed.
Lemma touch_well sid :
  well_s owns writes (λ s, with_sessions_of (λ m, (tt, touch_session (clock s) sid m)) s).
Proof. by apply elsewhere_well. Qed.
Lemma create_well sub info :
  well_s owns writes (λ s, with_sessions_of (create_session (clock s) (clock s) sub info) s).
Proof.
  apply elsewhere_well. intros s. unfold with_sessions_of, lift_state.
  by destruct (create_session _ _ _ _ _).
Qed.
Hint Resolve touch_well create_well : well.
Lemma admit_session_guarded session : guarded_s (p_admit_session session).
Proof. unfold p_admit_session. auto 20 with well. Qed.
Lemma open_session_guarded response : guarded_s (p_open_session response).
Proof. unfold p_open_session. auto 20 with well. Qed.
Lemma rate_limited_well ctx : well_s owns writes (rate_limited ctx).
Proof. unfold rate_limited. auto 20 with well. Qed.
Hint Resolve dispatch_guarded check_origin_guarded admit_session_guarded open_session_guarded
  rate_limited_well : well.

Lemma handle_mcp_guarded headers ctx request : guarded_s (p_handle_mcp headers ctx request).
Proof. unfold p_handle_mcp. cbv zeta. apply check_origin_guarded. auto 30 with well. Qed.
Lemma get_mcp_guarded headers : guarded_s (p_get_mcp headers).
Proof.
  assert (∀ id, well owns writes (in_broker (subscribe id)))
    by (intros id; apply broker_well; intros b; apply subscribe_wf).
  unfold p_get_mcp. apply check_origin_guarded. auto 20 with well.
Qed.
Lemma stdio_guarded line : guarded_s (p_stdio_line line).
Proof. unfold p_stdio_line. auto 20 with well. Qed.

Lemma delete_mcp_well headers : well_s owns writes (delete_mcp headers).
Proof.
  apply elsewhere_well. intros s. unfold delete_mcp, check_origin.
  destruct (origin_allowed _ _); [|done]. destruct (extract_session_id headers); [|done].
  run_m. unfold with_sessions_of, lift_state. by destruct (terminate_session _ _).
Qed.
Lemma mcp_route_guarded ctx rq : guarded_s (p_mcp_route ctx rq).
Proof.
  unfold p_mcp_route, p_extracted, p_answer. case_decide; [|destruct (is_get _) eqn:Hg].
  - pose proof handle_mcp_guarded. auto 20 with well.
  - pose proof get_mcp_guarded. auto 20 with well.
  - apply safely_atom. unfold mcp_route, unrouted, answer. rewrite decide_False, Hg by done.
    pose proof delete_mcp_well. case_decide; auto 20 with well.
Qed.
End endpoint.

(** The aliases a request names to the registration endpoints: the one in the body of a
    [POST], the one in the path of a [DELETE] *)
Definition request_aliases `{!Axum} (rq : HttpRequestIn) (a : string) : Prop :=
  (in_method rq = "POST" ∧ in_uri_path rq = "/api/v1/servers" ∧
   ∃ request, register_body rq = Ok request ∧ rg_alias request = a) ∨
  (in_method rq = "DELETE" ∧
   ∃ segment, server_segment (in_uri_path rq) = Some segment ∧ path_parameter segment = Ok a).

Section application.
Context `{!Os, !Http, !Serde, !MapOrder, !Unicode, !Jwt, !HeaderValue, !Axum, !Kube}.
Context (writes : nat → Prop).
Hint Resolve in_world_well p_in_world_guarded : well.

Lemma owner_mono {A} (o o' : string → Prop) (p : Proc World A) :
  (∀ a, o a → o' a) → guarded o writes p → guarded o' writes p.
Proof.
  intros Ho Hp w Hw. eapply rg_weaken; [done| |by apply Hp]. intros s s'. by apply guarantee_mono.
Qed.

Lemma servers_route_guarded rq :
  in_uri_path rq = "/api/v1/servers" →
  guarded_s (request_aliases rq) writes (p_servers_route rq).
Proof.
  intros Hp. unfold p_servers_route, p_extracted. case_decide.
  - destruct (register_body rq) as [request|r] eqn:Hr; [|auto with well].
    apply p_in_world_guarded, (owner_mono (eq (rg_alias request))), register_guarded.
    intros a <-. left. eauto.
  - apply safely_atom. unfold servers_route, list_servers, all_leaves, unrouted, answer.
    rewrite decide_False by done. auto 20 with well.
Qed.
Lemma server_route_guarded segment rq :
  server_segment (in_uri_path rq) = Some segment →
  guarded_s (request_aliases rq) writes (p_server_route segment rq).
Proof.
  intros Hp. unfold p_server_route, p_extracted, p_answer.
  destruct (is_get _) eqn:Hg; [|case_decide].
  - apply safely_atom. unfold server_route, get_server, get_leaf, extracted, answer. rewrite Hg.
    auto 20 with well.
  - destruct (path_parameter segment) as [alias|r] eqn:Hr; [|auto with well].
    apply safely_bind; [apply _| |auto with well].
    apply p_in_world_guarded, (owner_mono (eq alias)), deregister_guarded.
    intros a <-. right. eauto.
  - apply safely_atom. unfold server_route, unrouted. rewrite Hg, decide_False by done.
    auto with well.
Qed.
Lemma app_guarded auth rq : guarded_s (request_aliases rq) writes (p_app auth rq).
Proof.
  unfold p_app, unrouted. case_decide; [auto with well|].
  apply safely_bind; [apply _|auto with well|]. intros t.
  destruct (auth_middleware _ _ _) as [|ctx]; [auto with well|]. unfold p_route. cbv zeta.
  case_decide; [apply mcp_route_guarded|]. case_decide; [by apply servers_route_guarded|].
  destruct (server_segment _) as [segment|] eqn:Hs; [by apply server_route_guarded|].
  apply safely_atom. unfold route, unrouted, answer, status_handler, render_status_html, all_leaves.
  cbv zeta. rewrite !decide_False, Hs by done. auto 20 with well.
Qed.
End application.
