(* ===== verification/Writers.v ===== *)
(** * Writers: a thread that is the only one to write the status of a leaf

    Nothing locks the health and the failure count of a leaf together.  But each leaf has
    one thread at a time that writes them (System.v proves it): its initialisation, or a
    turn of its monitor.  Such a thread may rely on the others to leave the status alone;
    here is what its parts do to it, one after the other. *)
From S2P Require Import Prelude Text Json Protocol F64 Env Config RateLimit Rbac Session.
From S2P Require Import Notifications LeafClient Scenario Registry Health Aggregator Router.
From S2P Require Import Server DnsDiscovery CrdDiscovery Status Api Reload App Main Threads.
From S2P Require Import Actions Awaits Guarantee.
Open Scope string_scope.
Open Scope list_scope.

(** What the writer may rely on *)
Definition writer_rely (l : nat) (w w' : World) : Prop :=
  persists w w' ∧ (has l w → status (entry l w') = status (entry l w)).
#[export] Instance writer_rely_preorder l : PreOrder (writer_rely l).
Proof.
  split; [intros w; by split|]. intros a b c [Hab Hsab] [Hbc Hsbc]. split; [by etrans|].
  intros Ha. rewrite Hsbc by (by eapply persists_has). auto.
Qed.

(** The leaf is there and has this status. *)
Definition in_status (l : nat) (st : LeafHealth * Z) (w : World) : Prop :=
  has l w ∧ status (entry l w) = st.

Lemma in_status_rely l st w w' : writer_rely l w w' → in_status l st w → in_status l st w'.
Proof.
  intros [Hp Hs] [Hl Hst]. split; [by eapply persists_has|]. by rewrite Hs.
Qed.
Lemma in_status_write l st f g w :
  (∀ e, status (f e) = g (status e)) → in_status l st w → in_status l (g st) (update l f w).2.
Proof.
  intros Hf [[e He] Hst]. rewrite (entry_lookup _ _ _ He) in Hst.
  pose proof (update_lookup l f w e He) as He'. split; [by exists (f e)|].
  by rewrite (entry_lookup _ _ _ He'), Hf, Hst.
Qed.

Section writer.
Context `{!Os, !Http, !Serde, !MapOrder, !Kube} (l : nat).
Notation writer p Q w := (rg sound (writer_rely l) (guarantee nothing (eq l)) p Q w).

(** A thread that writes no status *)
Lemma writer_quiet {A} (p : Proc World A) st w :
  guarded nothing nowhere p → sound w → in_status l st w →
  writer p (λ _ w', in_status l st w') w.
Proof.
  intros Hp Hw Hst. eapply rg_mono;
    [|apply (rg_stable sound persists (guarantee nothing nowhere) (writer_rely l)
        (guarantee nothing (eq l)) (in_status l st) p (λ _ _, True)); [| |exact Hst|by apply Hp]].
  - by intros a w' _ [_ ?].
  - intros u u' Hr. split; [apply Hr|by apply in_status_rely].
  - intros u u' Hg Hu. split; [by eapply guarantee_mono; [..|exact Hg]|].
    destruct Hu as [[e He] Hs]. destruct (gu_heap _ _ _ _ Hg l e He) as (e' & He' & _ & [[]|Hse]).
    rewrite (entry_lookup _ _ _ He) in Hs. split; [by exists e'|].
    by rewrite (entry_lookup _ _ _ He'), Hse.
Qed.

(** A part that writes it *)
Lemma writer_part {A} (m : M World A) st (P : A → Prop) st' w :
  well nothing (eq l) m → in_status l st w →
  (∀ w', in_status l st w' → P (m w').1 ∧ in_status l st' (m w').2) →
  writer (atom m) (λ a w', P a ∧ in_status l st' w') w.
Proof.
  intros Hm Hst HP. apply rg_atom. intros w' Hw' Hr. destruct (Hm w' Hw') as [Hs Hg].
  destruct (HP w') as [Ha Hst']; [by eapply in_status_rely|]. split_and!; [done..|].
  intros u _ Hu. split; [done|]. by eapply in_status_rely.
Qed.
Lemma writer_write f g st w :
  (∀ e, evolved e (f e)) → (∀ e, status (f e) = g (status e)) → in_status l st w →
  writer (atom (update l f)) (λ _ w', in_status l (g st) w') w.
Proof.
  intros He Hf Hst. eapply rg_mono; [|apply (writer_part (update l f) st (λ _, True) (g st))]; [by intros ??? [_ ?]| |done|].
  - by apply write_well.
  - intros w' Hw'. split; [done|]. by apply in_status_write.
Qed.
Lemma writer_write_now f g st w :
  (∀ t e, evolved e (f t e)) → (∀ t e, status (f t e) = g (status e)) → in_status l st w →
  writer (atom (update_now l f)) (λ _ w', in_status l (g st) w') w.
Proof.
  intros He Hf Hst. eapply rg_mono; [|apply (writer_part (update_now l f) st (λ _, True) (g st))]; [by intros ??? [_ ?]| |done|].
  - by apply write_now_well.
  - intros w' Hw'. split; [done|]. by apply in_status_write.
Qed.

Lemma writer_mark_healthy st w :
  sound w → in_status l st w → writer (p_mark_healthy l) (λ _ w', in_status l (Healthy, 0%Z) w') w.
Proof.
  intros Hw Hst. unfold p_mark_healthy. destruct st as [h f].
  apply rg_bind; [apply _|done|]. eapply rg_mono; [|by apply (writer_write _ (λ st, (Healthy, st.2)) (h, f))].
  intros [] w1 Hw1 Hst1. apply rg_bind; [apply _|done|].
  eapply rg_mono; [|by apply (writer_write_now _ (λ st, st) (Healthy, f))].
  intros [] w2 Hw2 Hst2. by apply (writer_write _ (λ st, (st.1, 0%Z)) (Healthy, f)).
Qed.
Lemma writer_mark_unhealthy h f w :
  sound w → in_status l (h, f) w →
  writer (p_mark_unhealthy l) (λ _ w', in_status l (Unhealthy, succ_u32 f) w') w.
Proof.
  intros Hw Hst. unfold p_mark_unhealthy. apply rg_bind; [apply _|done|].
  eapply rg_mono; [|by apply (writer_write _ (λ st, (Unhealthy, st.2)) (h, f))].
  intros [] w1 Hw1 Hst1. apply rg_bind; [apply _|done|].
  eapply rg_mono; [|by apply (writer_write_now _ (λ st, st) (Unhealthy, f))].
  intros [] w2 Hw2 Hst2. by apply (writer_write count_failure (λ st, (st.1, succ_u32 st.2)) (Unhealthy, f)).
Qed.
Lemma writer_record_failure h f w :
  sound w → in_status l (h, f) w →
  writer (p_record_failure l) (λ n w', n = succ_u32 f ∧ in_status l (h, succ_u32 f) w') w.
Proof.
  intros Hw Hst. apply rg_bind; [apply _|done|].
  eapply rg_mono; [|by apply (writer_write_now _ (λ st, st) (h, f))].
  intros [] w1 Hw1 Hst1.
  apply (writer_part _ (h, f) (λ n, n = succ_u32 f) (h, succ_u32 f)); [|done|].
  - apply obeys_bind; [apply _|by apply write_well|]. intros _. apply obeys_gets, _.
  - intros w' Hw'. pose proof (in_status_write l (h, f) count_failure (λ st, (st.1, succ_u32 st.2))
      w' (λ e, eq_refl) Hw') as Hc. cbn in Hc. split; [|exact Hc].
    destruct Hc as [_ Hc]. unfold status in Hc. by injection Hc.
Qed.
End writer.
