(* ===== verification/Startup.v ===== *)
(** * Startup: the start-up, however its tasks interleave

    [main] starts one task for each leaf of the file, waits for all of them, starts the
    monitors and discovery, and then the listeners.  Main.v has the start-up in which the
    tasks run one after the other; here they interleave at every [await].  [starts] is the
    server when the monitors and discovery begin to run; the listeners are the first thread
    of System.v.  Each task is the only writer of its leaf's status, so every leaf is
    settled when they all have ended, whatever they found in the meantime. *)
From S2P Require Import Prelude Text Json Protocol F64 Env Config RateLimit Rbac Session.
From S2P Require Import Notifications LeafClient Scenario Registry Health Aggregator Router.
From S2P Require Import Server DnsDiscovery CrdDiscovery Status Api Reload App Main Threads.
From S2P Require Import Actions Awaits SameCode Guarantee Writers.
Open Scope string_scope.
Open Scope list_scope.

Section initialisation.
Context `{!Os, !Http, !Serde, !MapOrder, !Kube}.

Definition settled_at (l : nat) (w : World) : Prop := entry_sat l settled w.

Lemma in_status_settled l h f w :
  in_status l (h, f) w → (h = Healthy ∧ f = 0%Z ∨ h = Unhealthy) → settled_at l w.
Proof.
  intros [[e He] Hst] Hs. rewrite (entry_lookup _ _ _ He) in Hst. exists e. split; [done|].
  unfold settled. injection Hst as -> ->. exact Hs.
Qed.

(** The task of one leaf settles it, whatever the others do to theirs. *)
Lemma initialize_leaf_settles_rg l w :
  sound w → has l w →
  rg sound (writer_rely l) (guarantee nothing (eq l)) (p_initialize_leaf l)
     (λ _, settled_at l) w.
Proof.
  intros Hw [e He]. destruct (status e) as [h f] eqn:Hse.
  assert (in_status l (h, f) w) as Hst by (split; [by exists e|by rewrite (entry_lookup _ _ _ He)]).
  unfold p_initialize_leaf. apply rg_bind; [apply _|done|].
  eapply rg_mono; [|apply (writer_quiet l _ (h, f)); [auto with well|done|done]].
  intros [v|err] w1 Hw1 Hst1.
  - apply rg_bind; [apply _|done|]. unfold p_note_initialized.
    apply (rg_mono _ _ _ _ (λ _, in_status l (Healthy, 0%Z))).
    + intros [] w2 Hw2 Hst2. eapply rg_mono; [|apply (writer_quiet l _ (Healthy, 0%Z))].
      * intros [] w3 _ Hst3. eapply in_status_settled; [exact Hst3|by left].
      * auto 20 with well.
      * done.
      * done.
    + apply rg_bind; [apply _|done|]. eapply rg_mono; [|by apply (writer_mark_healthy l (h, f))].
      intros [] w2 Hw2 Hst2. apply (writer_quiet l _ (Healthy, 0%Z)); [|done|done].
      destruct (get "serverInfo" v); auto with well.
  - eapply rg_mono; [|by apply (writer_mark_unhealthy l h f)].
    intros [] w2 _ Hst2. eapply in_status_settled; [exact Hst2|by right].
Qed.
End initialisation.

(** ** All of them *)
Section all.
Context `{!Os, !Http, !Serde, !MapOrder, !Kube}.

Lemma table_NoDup w : world_wf w → NoDup (map_values (w_leaves w)).
Proof.
  intros [Hl _]. unfold map_values.
  apply NoDup_fmap_2_strong; [|by rewrite map_order_perm; apply NoDup_map_to_list].
  intros [a l] [a' l'] Ha%map_order_elem Ha'%map_order_elem Heq. cbn in *. subst l'.
  destruct (Hl _ _ Ha) as (e & He & <-), (Hl _ _ Ha') as (e' & He' & <-). congruence.
Qed.

Lemma others_write a b w w' :
  a ≠ b → guarantee nothing (eq a) w w' → writer_rely b w w'.
Proof.
  intros Hab Hg. split; [by eapply guarantee_persists|]. intros [e He].
  destruct (gu_heap _ _ _ _ Hg b e He) as (e' & He' & _ & [?|Hs]); [done|].
  by rewrite (entry_lookup _ _ _ He), (entry_lookup _ _ _ He').
Qed.

Lemma initialize_all_settles w u w' :
  sound w → ends p_initialize_all w u w' →
  sound w' ∧ persists w w' ∧ w_leaves w' = w_leaves w ∧ w_tasks w' = w_tasks w ∧
  w_broker w' = w_broker w ∧ (∀ l, has l w' → has l w) ∧ ∀ a l, w_leaves w !! a = Some l → settled_at l w'.
Proof.
  intros Hw Hends.
  assert (rg sound eq (guarantee nothing (λ _, True)) p_initialize_all
    (λ _ w', ∀ l, l ∈ map_values (w_leaves w) → settled_at l w') w) as Hrg.
  { apply rg_bind; [apply _|done|]. apply rg_atom. intros ? _ <-. split_and!; [done|reflexivity|].
    intros ? _ <-. cbn [all_leaves m_gets fst]. apply rg_bind; [apply _|done|].
    eapply rg_mono; [|eapply (rg_weaken sound); [| |apply (rg_par sound writer_rely
      (λ l, guarantee nothing (eq l)) p_initialize_leaf settled_at)]].
    - intros us w1 _ Hs ? _ <-. exact Hs.
    - intros ? ? <-. reflexivity.
    - intros w1 w2 (l & _ & Hg). by eapply guarantee_mono; [..|exact Hg].
    - by apply table_NoDup, Hw.
    - intros l1 l2 w1 w2 _ _. by apply others_write.
    - done.
    - intros l Hl. apply initialize_leaf_settles_rg; [done|]. by apply table_has. }
  destruct (rg_ends sound eq _ _ _ _ _ _ Hw Hrg Hends) as (Hw' & Hg & Hs).
  set (rest := λ w, (w_leaves w, w_tasks w, w_broker w)).
  assert (quiet rest p_initialize_all) as Hq by by apply quiet_initialize_all.
  destruct (rg_ends (λ _, True) (λ _ _, True) (unmoved rest) _ _ _ _ _ I (Hq w I) Hends)
    as (_ & Hrest & _). injection Hrest as Hl Ht Hb.
  split_and!; [done|by eapply guarantee_persists|done..| |].
  - destruct Hg as [_ _ (ts & Hts & _ & Hnew)]. rewrite Ht in Hts.
    assert (ts = []) as -> by (apply (app_inv_head (w_tasks w)); by rewrite app_nil_r).
    intros l Hl'. destruct (decide (has l w)) as [|Hn]; [done|].
    by destruct (not_elem_of_nil l (proj2 (Hnew l) (conj Hn Hl'))).
  - intros a l Ha. apply Hs, map_values_elem. eauto.
Qed.
End all.

(** ** The server that starts *)
Section starts.
Context `{!Os, !Http, !Serde, !MapOrder, !Yaml, !Base64, !Kube}.

Definition starts (cli : Cli) (random : string) (crd_up : bool * bool * bool) (e : Env)
    (r : Running) : Prop :=
  ∃ cfg w, cli_validate cli = false ∧ cli_list_tools cli = false ∧
    from_file (now e) (cli_config cli) = Ok cfg ∧
    ends p_initialize_all (from_configs_with_pool (servers cfg)
      (connection_pool (federation cfg)) e) tt w ∧
    assembled cli random crd_up (federation cfg) w = Some r.

Lemma broker_new_wf : broker_wf broker_new.
Proof. split_and!; [by intros id tx ?|by intros id id' tx ?|apply map_Forall_empty]. Qed.
Lemma configured_sound cfg e :
  config_wf cfg → sound (from_configs_with_pool (servers cfg) (connection_pool (federation cfg)) e).
Proof.
  intros Hcfg. split.
  - apply (from_configs_spec (servers cfg) _ (with_pool_wf (connection_pool (federation cfg)) e)), Hcfg.
  - rewrite from_configs_broker. apply broker_new_wf.
Qed.

Lemma starts_initialized cli random crd_up e r :
  starts cli random crd_up e r →
  ∃ cfg, from_file (now e) (cli_config cli) = Ok cfg ∧ config_wf cfg ∧
    initialized (servers cfg) (st_world (r_state r)) ∧
    assembled cli random crd_up (federation cfg) (st_world (r_state r)) = Some r.
Proof.
  intros (cfg & w & _ & _ & Hf & Hends & Ha). exists cfg.
  pose proof (from_file_wf _ _ _ Hf) as Hcfg.
  assert (st_world (r_state r) = w) as ->.
  { revert Ha. unfold assembled. by destruct (serving_of _ _) as [sv|]; [intros [= <-]|]. }
  split_and!; [done..| |done].
  pose proof (configured_sound cfg e Hcfg) as Hw0. set (w0 := from_configs_with_pool _ _ _) in *.
  destruct (initialize_all_settles w0 tt w Hw0 Hends) as ([Hwf _] & Hp & Hl & Ht & Hb & Hd & Hs).
  by apply (initialized_from (servers cfg) (connection_pool (federation cfg)) e); [apply Hcfg|..].
Qed.

(** [main] is the start-up in which the tasks run one after the other. *)
Lemma assembled_starts cli random crd_up e cfg r :
  cli_validate cli = false → cli_list_tools cli = false → from_file (now e) (cli_config cli) = Ok cfg →
  assembled cli random crd_up (federation cfg)
    (initialize_all (from_configs_with_pool (servers cfg) (connection_pool (federation cfg)) e)).2 =
    Some r →
  starts cli random crd_up e r.
Proof.
  intros Hv Hlt Hf Ha. pose proof (from_file_wf _ _ _ Hf) as Hcfg.
  exists cfg, (initialize_all (from_configs_with_pool (servers cfg)
    (connection_pool (federation cfg)) e)).2.
  split_and!; [done..| |done]. set (w0 := from_configs_with_pool _ _ _).
  assert (tabled w0) as Ht.
  { intros a l Hal. destruct (configured_sound cfg e Hcfg) as [[Hl _] _].
    destruct (Hl _ _ Hal) as (x & Hx & _). by exists x. }
  rewrite <- (run_initialize_all w0 Ht). pose proof (run_ends p_initialize_all w0) as He.
  by destruct (run p_initialize_all w0) as [[] w1].
Qed.
Lemma main_starts_from cli random crd_up e r :
  main cli random crd_up e = Runs r → ∃ r0, starts cli random crd_up e r0 ∧ r = listening r0.
Proof.
  intros (cfg & r0 & Hf & _ & Hv & Hlt & _ & Ha & ->)%main_runs. exists r0. split; [|done].
  by eapply assembled_starts.
Qed.

(** (C36) Whatever the leaves answer and however their initialisations interleave, a server
    that starts is as its configuration file says: it serves at the address and with the
    tokens of the command line where it gives them; its leaves are those of the file, each
    settled, that is, healthy with no failure counted or unhealthy, and each with a health
    monitor exactly when its checks are enabled; no session is open, no client has used its
    rate and no task is left over. *)
Theorem starts_as_configured cli random crd_up e r :
  starts cli random crd_up e r →
  ∃ cfg, from_file (now e) (cli_config cli) = Ok cfg ∧ config_wf cfg ∧
    let s := r_state r in let w := st_world s in
    (∀ a, is_Some (w_leaves w !! a) ↔ a ∈ (Config.alias <$> servers cfg)) ∧
    (∀ c, c ∈ servers cfg → ∃ l, w_leaves w !! Config.alias c = Some l ∧
       le_config (entry l w) = c ∧ settled (entry l w) ∧
       (l ∈ r_monitors r ↔ hc_enabled (health_check c) = true)) ∧
    w_tasks w = [] ∧ sessions (st_sessions s) = ∅ ∧ buckets (st_limiter s) = ∅ ∧
    serving_of cli (federation cfg) = Some (r_serving r).
Proof.
  intros (cfg & Hf & Hcfg & Hin & Ha)%starts_initialized. exists cfg.
  destruct (assembled_spec _ _ _ _ _ _ Ha Hin) as (_ & Hm & _ & Hs & Hb & Hserve).
  destruct Hin as [_ Ht _ _ Hal Hset]. cbv zeta. split_and!; try done.
  intros c Hc. destruct (Hset c Hc) as (l & Hl & x & Hx & [Hcx _] & Hsx). exists l.
  rewrite (entry_lookup _ _ _ Hx). split_and!; try done. by apply Hm.
Qed.
End starts.

(** ** Witness: the deployment of Main.v *)
Module Example.
#[export] Existing Instance Main.Example.os.
#[export] Existing Instance Scenario.http.
#[export] Existing Instance Scenario.serde.
#[export] Existing Instance Scenario.mo.
#[export] Existing Instance Main.Example.yaml.
#[export] Existing Instance Main.Example.base64.
#[export] Existing Instance CrdDiscovery.Example.kube.

Definition server_starts (r : Running) : Prop :=
  starts Main.Example.cli "key" (true, true, true) Scenario.env r.
End Example.
Import Example.

Lemma outcome_starts : ∃ r, server_starts r.
Proof. destruct outcome_runs as [r Hr]. destruct (main_starts_from _ _ _ _ _ Hr) as (r0 & Hs & _). by exists r0. Qed.
Lemma example_file cfg :
  from_file (now Scenario.env) (cli_config Main.Example.cli) = Ok cfg → cfg = config_of_raw Main.Example.raw.
Proof.
  assert (from_file (now Scenario.env) "federation.yaml" = Ok (config_of_raw Main.Example.raw))
    as Hf by reflexivity.
  change (cli_config Main.Example.cli) with "federation.yaml". rewrite Hf. by intros [= <-].
Qed.
(** The leaf [alpha] is there, and has a monitor. *)
Lemma example_alpha r :
  server_starts r → ∃ l, w_leaves (st_world (r_state r)) !! "alpha" = Some l ∧ l ∈ r_monitors r.
Proof.
  intros (cfg & ->%example_file & _ & Hin & Ha)%starts_initialized.
  destruct (assembled_spec _ _ _ _ _ _ Ha Hin) as (_ & Hm & _).
  destruct (in_settled _ _ Hin (server_of_raw (Main.Example.raw_server "alpha")) ltac:(left))
    as (l & Hl & _).
  exists l. split; [done|]. eapply Hm; [|exact Hl|reflexivity]. left.
Qed.

Lemma starts_as_configured_witness :
  ∃ r a l, server_starts r ∧ w_leaves (st_world (r_state r)) !! a = Some l ∧
    l ∈ r_monitors r ∧ settled (entry l (st_world (r_state r))).
Proof.
  destruct outcome_starts as [r Hr].
  destruct (starts_as_configured _ _ _ _ r Hr) as (cfg & Hf & _ & _ & Hl & _).
  rewrite (example_file cfg Hf) in Hl.
  destruct (Hl (server_of_raw (Main.Example.raw_server "alpha")) ltac:(left))
    as (l & Ha & _ & Hs & Hm).
  exists r, "alpha", l. split_and!; [exact Hr|exact Ha|by apply Hm|exact Hs].
Defined.
