(* ===== verification/Serve.v ===== *)
(** * Serve: the HTTP and HTTPS servers come up ([run_http], [run_https] of [src/main.rs])

    The last thing [main] does is to hand the application over to a server.  What can go
    wrong on the way ends the program, each in its own manner: most of it in a panic, the
    binding of the HTTPS server only in a record of the log.  The servers themselves, their
    connections and their shutdown are the libraries'. *)
From S2P Require Import Prelude Text Json Protocol F64 Env Config RateLimit Rbac Session.
From S2P Require Import Notifications LeafClient Scenario Registry Health Aggregator Router.
From S2P Require Import Server DnsDiscovery CrdDiscovery Main SocketAddr Threads Awaits Startup.
Open Scope string_scope.
Open Scope list_scope.

(** The libraries: each step succeeds or says why not. *)
Class Net := {
  install_recorder : result string unit;                 (** of the metrics *)
  tcp_bind : string → result string unit;                (** [TcpListener::bind], which resolves names *)
  from_pem_file : string → string → result string unit;  (** [RustlsConfig], certificate and key *)
  bind_rustls : SocketAddr → result string unit;
}.

(** What becomes of it *)
Inductive Launch : Type :=
| Listens (address : string) (auth : AuthState)
| ListensTls (address : SocketAddr) (auth : AuthState) (shutdown_timeout : Z)
| Panics (message : string)                              (** the exit status is 101 *)
| Logs (message : string).                               (** [main] returns, with status 0 *)

Section serve.
Context `{!Net}.

(** [Result::expect] *)
Definition expect {A} (message : string) (r : result string A) (k : A → Launch) : Launch :=
  match r with Ok a => k a | Err e => Panics (message +:+ ": " +:+ e) end.

Definition run_http (listen : string) (auth : AuthState) : Launch :=
  expect "Failed to install Prometheus recorder" install_recorder (λ _,
  expect "Failed to bind listener" (tcp_bind listen) (λ _,
  Listens listen auth)).

Definition run_https (listen cert_path key_path : string) (auth : AuthState)
    (shutdown_timeout_seconds : Z) : Launch :=
  expect "Failed to install Prometheus recorder" install_recorder (λ _,
  expect "Failed to load TLS cert/key" (from_pem_file cert_path key_path) (λ _,
  expect "Invalid listen address"
    (ok_or "AddrParseError(Socket)" (parse_socket_addr listen)) (λ addr,
  match bind_rustls addr with
  | Ok _ => ListensTls addr auth (from_secs shutdown_timeout_seconds)
  | Err e => Logs ("https server error: " +:+ e)
  end))).

(** How the started program serves; [None] on standard input and output *)
Definition serve (r : Running) : option Launch :=
  match r_serving r with
  | OnHttp listen auth => Some (run_http listen auth)
  | OnHttps listen cert key auth timeout => Some (run_https listen cert key auth timeout)
  | OnStdio => None
  end.

(** *** Outcomes *)
Lemma run_http_listens listen auth l :
  run_http listen auth = Listens l auth ↔
  l = listen ∧ install_recorder = Ok () ∧ tcp_bind listen = Ok ().
Proof.
  unfold run_http, expect. split.
  - destruct install_recorder as [[]|]; [|done]. destruct (tcp_bind listen) as [[]|]; [|done]. by intros [= ->].
  - by intros (-> & -> & ->).
Qed.
Lemma run_https_listens listen cert key auth timeout addr :
  run_https listen cert key auth timeout = ListensTls addr auth (from_secs timeout) ↔
  install_recorder = Ok () ∧ from_pem_file cert key = Ok () ∧ parse_socket_addr listen = Some addr ∧
  bind_rustls addr = Ok ().
Proof.
  unfold run_https, expect. split.
  - destruct install_recorder as [[]|]; [|done]. destruct (from_pem_file _ _) as [[]|]; [|done].
    destruct (parse_socket_addr listen) as [a|]; [|done]. cbn [ok_or].
    destruct (bind_rustls a) as [[]|] eqn:Hb; [|done]. by intros [= ->].
  - intros (-> & -> & -> & Hb). cbn [ok_or]. by rewrite Hb.
Qed.
End serve.

(** ** The started program *)
Section comes_up.
Context `{!Os, !Http, !Serde, !MapOrder, !Yaml, !Base64, !Kube, !Net}.

(** The tokens of the command line, or else of the file *)
Definition auth_of (cli : Cli) (f : FederationSettings) : AuthState :=
  {| as_token := or_else (cli_auth_token cli) (fed_auth_token f);
     as_token_file := or_else (cli_auth_token_file cli) (fed_auth_token_file f);
     as_clients := clients f |}.
Definition listen_of (cli : Cli) (f : FederationSettings) : string :=
  default (Config.listen f) (cli_listen cli).

Lemma starts_serves cli random crd_up e r :
  starts cli random crd_up e r → cli_http cli = true →
  ∃ cfg, from_file (now e) (cli_config cli) = Ok cfg ∧
    let f := federation cfg in
    match cli_tls_cert cli, cli_tls_key cli with
    | Some cert, Some key =>
        serve r = Some (run_https (listen_of cli f) cert key (auth_of cli f) (shutdown_timeout_seconds f))
    | None, None => serve r = Some (run_http (listen_of cli f) (auth_of cli f))
    | _, _ => False
    end.
Proof.
  intros (cfg & Hf & _ & Hin & Ha)%starts_initialized Hh. exists cfg. split; [done|].
  destruct (assembled_spec _ _ _ _ _ _ Ha Hin) as (_ & _ & _ & _ & _ & Hs).
  unfold serving_of in Hs. rewrite Hh in Hs. unfold serve.
  destruct (cli_tls_cert cli), (cli_tls_key cli); [|done|done|]; by injection Hs as <-.
Qed.

End comes_up.

(** ** Witness: the deployment of Main.v with TLS, at the address of its file *)
Module Example.
#[export] Existing Instance Main.Example.os.
#[export] Existing Instance Scenario.http.
#[export] Existing Instance Scenario.serde.
#[export] Existing Instance Scenario.mo.
#[export] Existing Instance Main.Example.yaml.
#[export] Existing Instance Main.Example.base64.
#[export] Existing Instance CrdDiscovery.Example.kube.
#[export] Instance net : Net :=
  {| install_recorder := Ok (); tcp_bind := λ _, Ok (); from_pem_file := λ _ _, Ok ();
     bind_rustls := λ _, Ok () |}.
Definition cli : Cli :=
  {| cli_config := "federation.yaml"; cli_http := true; cli_listen := None;
     cli_auth_token := Some "root"; cli_auth_token_file := None; cli_tls_cert := Some "cert.pem";
     cli_tls_key := Some "key.pem"; cli_list_tools := false; cli_validate := false |}.
Definition cfg : FederationConfig := config_of_raw Main.Example.raw.
Definition w0 : World :=
  (initialize_all (from_configs_with_pool (servers cfg) (connection_pool (federation cfg)) Scenario.env)).2.
Definition is_running (o : option Running) : bool := if o is Some _ then true else false.
End Example.
Import Example.

