(* ===== verification/ListTools.v ===== *)
(** * ListTools: the table of [--list-tools]

    The command line option starts the leaves and prints what they offer.  It waits ten
    seconds at most ([tokio::time::timeout] in [main] of [src/main.rs]): when they are over
    the initialisation is given up, but the tasks of the leaves, which were spawned, go on
    beside the printing until the program ends.  The moment is left open here, so the clock
    and the latencies of the leaves do not matter. *)
From S2P Require Import Prelude Text Json Protocol F64 Env Config RateLimit Rbac Session.
From S2P Require Import Notifications LeafClient Scenario Registry Health Aggregator Router.
From S2P Require Import Server DnsDiscovery CrdDiscovery Status Api Reload App Main Threads.
From S2P Require Import Actions Awaits SameCode Guarantee Writers Startup.
Open Scope string_scope.
Open Scope list_scope.

(** Two threads, of which the scheduler picks one *)
Inductive beside {S A B} : Proc S A * Proc S B * S → Proc S A * Proc S B * S → Prop :=
| beside_left c p p' q s s' : resume c p s = Some (p', s') → beside (p, q, s) (p', q, s')
| beside_right c p q q' s s' : resume c q s = Some (q', s') → beside (p, q, s) (p, q', s').

Section listing.
Context `{!Os, !Http, !Serde, !MapOrder, !Yaml, !Base64, !Kube}.

Definition unreachable_alias (l : nat) (w : World) : option string :=
  if decide (le_health (entry l w) = Unhealthy) then Some (le_alias (entry l w)) else None.
Definition p_print_tools_table (a : Aggregator) : Proc World (list string * option string) :=
  tools ← p_aggregated_tools a;
  leaves ← atom all_leaves;
  unreachable ← p_map (λ l, atom (m_gets (unreachable_alias l))) leaves;
  Done (tools_table tools, omitted (omap id unreachable)).

(** A run of the command: the table, the warning and whether the ten seconds were over *)
Inductive tools_listing (a : Aggregator) (w : World) : list string → option string → bool → Prop :=
| listed_in_time w1 table warning w2 :
    ends p_initialize_all w tt w1 → ends (p_print_tools_table a) w1 (table, warning) w2 →
    tools_listing a w table warning false
| listed_late p w1 table warning p' w2 :
    rtc goes_on (p_initialize_all, w) (p, w1) → ¬ finished p →
    rtc beside (p_print_tools_table a, p, w1) (Done (table, warning), p', w2) →
    tools_listing a w table warning true.
Definition lists (cli : Cli) (e : Env) (table : list string) (warning : option string)
    (late : bool) : Prop :=
  ∃ cfg, cli_validate cli = false ∧ cli_list_tools cli = true ∧
    from_file (now e) (cli_config cli) = Ok cfg ∧
    tools_listing (aggregator_of (federation cfg))
      (from_configs_with_pool (servers cfg) (connection_pool (federation cfg)) e) table warning late.

(** ** When there was time *)
Lemma omap_filter (leaves : list nat) w :
  omap id ((λ l, unreachable_alias l w) <$> leaves) =
  (λ l, le_alias (entry l w)) <$> filter (λ l, le_health (entry l w) = Unhealthy) leaves.
Proof.
  unfold unreachable_alias. induction leaves as [|l ls IH]; [done|].
  rewrite filter_cons, fmap_cons. case_decide; csimpl; by rewrite IH.
Qed.
Lemma run_reads {A B} (f : A → World → B) (l : list A) w :
  run (p_map (λ a, atom (m_gets (f a))) l) w = ((λ a, f a w) <$> l, w).
Proof.
  rewrite run_map. induction l as [|a l IH]; [done|]. unfold m_gets in *. cbn [m_map]. run_m. by rewrite run_atom, IH.
Qed.
Lemma run_print a w : run (p_print_tools_table a) w = print_tools_table a w.
Proof.
  unfold p_print_tools_table, print_tools_table. rewrite run_bind. apply bind_cong;
    [apply run_aggregated_tools|]. intros tools w1. rewrite run_bind. apply bind_cong; [apply run_atom|].
  intros leaves w2. rewrite (run_next _ _ _ _ _ (run_reads _ _ _)). cbn. by rewrite omap_filter.
Qed.
Lemma print_straight a : straight (p_print_tools_table a).
Proof.
  repeat first [done|apply straight_bind; [|intros]|apply straight_iter; intros|apply straight_map; intros].
  destruct (negb _); [|done]. by apply straight_iter.
Qed.

(** What is printed of leaves that are settled *)
Definition complete (cfg : FederationConfig) (table : list string) (warning : option string) : Prop :=
  ∃ w tools unreachable, initialized (servers cfg) w ∧
    table = tools_table tools ∧ warning = omitted unreachable ∧
    ∀ c, c ∈ servers cfg → ∃ l, w_leaves w !! Config.alias c = Some l ∧
      ((is_healthy (entry l w) = true ∧ (Config.alias c ∉ unreachable) ∧
         (∀ t v, t ∈ cached_tools (entry l w) → namespace_tool (Config.alias c) t = Some v → v ∈ tools)) ∨
       is_healthy (entry l w) = false ∧ Config.alias c ∈ unreachable).
Lemma printed_complete cfg a w :
  initialized (servers cfg) w →
  complete cfg (print_tools_table a w).1.1 (print_tools_table a w).1.2.
Proof.
  intros Hin. unfold print_tools_table. run_m. rewrite aggregated_tools_spec.
  set (w1 := if (_ =? 0)%Z then w else _).
  assert (w_leaves w1 = w_leaves w ∧ ∀ l, entry l w1 = entry l w) as [Hl He]
    by (unfold w1; by destruct (_ =? 0)%Z).
  eexists w, _, _. split_and!; [done|reflexivity|reflexivity|].
  intros c Hc. destruct (in_settled _ _ Hin c Hc) as (l & Hlc & _). exists l. split; [done|].
  pose proof (wf_alias _ _ _ (in_wf _ _ Hin) Hlc) as Hal.
  assert (∀ h, le_alias (entry l w) ∈ (λ l, le_alias (entry l w1)) <$>
      filter (λ l, le_health (entry l w1) = h) (all_leaves w1).1 ↔ le_health (entry l w) = h) as Hu.
  { intros h. rewrite list_elem_of_fmap. setoid_rewrite list_elem_of_filter.
    setoid_rewrite map_values_elem. setoid_rewrite He. rewrite Hl. split.
    - intros (l' & Ha & Hh & a' & Ha').
      assert (l' = l) as <-; [|done]. rewrite Hal in Ha.
      pose proof (wf_alias _ _ _ (in_wf _ _ Hin) Ha') as Hal'. congruence.
    - intros Hh. eauto 8. }
  rewrite Hal in Hu. unfold is_healthy. case_bool_decide as Hh; [left|right].
  - split_and!; [done|by rewrite Hu|]. intros t v Ht Hv. apply elem_of_app. right.
    apply listed_elem; [apply (in_wf _ _ Hin)|]. exists (Config.alias c), l, t. split_and!; try done.
    unfold is_healthy. by rewrite bool_decide_eq_true_2.
  - split; [done|]. apply Hu. by destruct (decide (le_health (entry l w) = Unhealthy)).
Qed.

(** ** When the ten seconds were over *)

(** What the tasks leave to the printing *)
Definition steady (w w' : World) : Prop := persists w w' ∧ w_leaves w' = w_leaves w.
#[local] Instance steady_preorder : PreOrder steady.
Proof.
  split; [by intros w|]. intros a b c [Hab Lab] [Hbc Lbc]. split; [by etrans|congruence].
Qed.

(** A tool that a leaf of the table has told, and a leaf that was found unhealthy *)
Definition offered (w : World) (v : Value) : Prop :=
  ∃ alias l w' t, w_leaves w !! alias = Some l ∧ steady w w' ∧ t ∈ cached_tools (entry l w') ∧
    namespace_tool alias t = Some v.
Definition found_unhealthy (w : World) (alias : string) : Prop :=
  ∃ l w', w_leaves w !! alias = Some l ∧ steady w w' ∧ le_health (entry l w') = Unhealthy.
Definition correct (w : World) (table : list string) (warning : option string) : Prop :=
  ∃ tools unreachable, table = tools_table (native_tools ++ tools) ∧ warning = omitted unreachable ∧
    (∀ v, v ∈ tools → offered w v) ∧ ∀ alias, alias ∈ unreachable → found_unhealthy w alias.

Notation printing p Q w := (rg sound steady steady p Q w).

Lemma guarantee_steady writes w w' : guarantee nothing writes w w' → steady w w'.
Proof.
  intros Hg. split; [by eapply guarantee_persists|]. apply map_eq. intros a.
  apply (gu_table _ _ _ _ Hg a). intros [].
Qed.
Lemma steady_then {A B} (p : Proc World A) (f : A → Proc World B) Q w0 w :
  rg sound persists (guarantee nothing nowhere) p (λ _ _, True) w → sound w → steady w0 w →
  (∀ a w', sound w' → steady w0 w' → printing (f a) Q w') → printing (p ≫= f) Q w.
Proof.
  intros Hp Hw Hs Hf. apply rg_bind; [apply _|done|].
  eapply rg_mono; [|apply (rg_stable sound persists (guarantee nothing nowhere) steady steady
    (steady w0) p (λ _ _, True)); [| |exact Hs|exact Hp]].
  - intros a w' Hw' [_ Hs']. by apply Hf.
  - intros u u' Hr. split; [apply Hr|]. intros ?. by etrans.
  - intros u u' Hg%guarantee_steady ?. split; [done|]. by etrans.
Qed.
Lemma steady_read {A} (f : World → A) (P : A → Prop) w0 w :
  (∀ w', sound w' → steady w0 w' → P (f w')) → sound w → steady w0 w →
  printing (atom (m_gets f)) (λ a w', P a ∧ steady w0 w') w.
Proof.
  intros Hf Hw Hs. apply rg_atom. intros w1 Hw1 Hs1. split_and!; [done|reflexivity|].
  intros w2 Hw2 Hs2. split; [apply Hf; [done|by etrans]|]. etrans; [exact Hs|by etrans].
Qed.
Lemma listed_offered leaves w0 w :
  sound w → steady w0 w → (∀ l, l ∈ leaves → ∃ alias, w_leaves w0 !! alias = Some l) →
  ∀ v, v ∈ collect namespace_tool cached_tools leaves w → offered w0 v.
Proof.
  intros [Hw _] Hs Hl v (l & t & Hin & Ht & Hv)%collect_elem. destruct (Hl l Hin) as [alias Ha].
  exists alias, l, w, t. split_and!; [done..|].
  rewrite <- (wf_alias w alias l Hw); [done|]. by rewrite (proj2 Hs).
Qed.
Lemma unhealthy_found l w0 w alias :
  sound w → steady w0 w → (∃ a, w_leaves w0 !! a = Some l) →
  unreachable_alias l w = Some alias → found_unhealthy w0 alias.
Proof.
  intros [Hw _] Hs [a Ha]. unfold unreachable_alias. case_decide as Hh; [|done]. intros [= <-].
  exists l, w. rewrite (wf_alias w a l Hw); [done|]. by rewrite (proj2 Hs).
Qed.

Lemma unreachable_found leaves w0 w :
  sound w → steady w0 w → (∀ l, l ∈ leaves → ∃ a, w_leaves w0 !! a = Some l) →
  printing (p_map (λ l, atom (m_gets (unreachable_alias l))) leaves)
    (λ r _, ∀ alias, alias ∈ omap id r → found_unhealthy w0 alias) w.
Proof.
  revert w. induction leaves as [|l ls IH]; intros w Hw Hs Hl.
  - intros ? _ _ alias Hin. by apply elem_of_nil in Hin.
  - cbn [p_map]. apply rg_bind; [apply _|done|].
    eapply rg_mono; [|apply (steady_read _ (λ a, ∀ alias, a = Some alias → found_unhealthy w0 alias)
      w0); [|done|done]].
    + intros a w1 Hw1 [Ha Hs1]. apply rg_bind; [apply _|done|].
      eapply rg_mono; [|apply (IH w1 Hw1 Hs1); intros; apply Hl; by right].
      intros r w2 _ Hr ? _ _ alias. cbn. destruct a as [x|]; cbn; [|apply Hr].
      intros [->|Hin]%elem_of_cons; auto.
    + intros w1 Hw1 Hs1 alias. apply unhealthy_found; [done..|]. apply Hl. by left.
Qed.

(** The table is correct whatever the tasks do beside it. *)
Lemma print_correct a w :
  sound w → printing (p_print_tools_table a) (λ out _, correct w out.1 out.2) w.
Proof.
  intros Hw. apply rg_bind; [apply _|done|].
  eapply (rg_mono _ _ _ _ (λ tools w', (∃ shown, tools = native_tools ++ shown ∧
    ∀ v, v ∈ shown → offered w v) ∧ steady w w')).
  - intros _ w1 Hw1 [(tools & -> & Ht) Hs1]. apply rg_bind; [apply _|done|].
    eapply rg_mono; [|apply (steady_read (λ w, (all_leaves w).1)
      (λ ls, ∀ l, l ∈ ls → ∃ a, w_leaves w !! a = Some l) w); [|done|done]].
    + intros leaves w2 Hw2 [Hl Hs2]. apply rg_bind; [apply _|done|].
      eapply rg_mono; [|by apply (unreachable_found leaves w w2)].
      intros r w3 _ Hr ? _ _. by exists tools, (omap id r).
    + intros w2 _ [_ Hs2] l (al & Hal)%map_values_elem. rewrite Hs2 in Hal. eauto.
  - apply rg_bind; [apply _|done|].
    eapply rg_mono; [|apply (steady_read (λ w, (healthy_leaves w).1)
      (λ ls, ∀ l, l ∈ ls → ∃ a, w_leaves w !! a = Some l) w); [|done|reflexivity]].
    2: { intros w1 _ [_ Hs1] l [_ (al & Hal)%map_values_elem]%list_elem_of_filter.
         rewrite Hs1 in Hal. eauto. }
    intros leaves w1 Hw1 [Hl Hs1]. apply (steady_then _ _ _ w); [|done|done|].
    { destruct (negb _); [|done]. apply spawning; [by intros; apply refresh_if_stale_obeys| |done].
      intros l Hin. destruct (Hl l Hin) as [alias Ha]. rewrite <- (proj2 Hs1) in Ha.
      destruct (proj1 (proj1 Hw1) _ _ Ha) as (x & Hx & _). by exists x. }
    intros _ w2 Hw2 Hs2. apply rg_bind; [apply _|done|].
    eapply rg_mono; [|apply (steady_read _ (λ ts, ∀ v, v ∈ ts → offered w v) w); [|done|done]].
    + intros tools w3 _ [Ht Hs3] w4 _ Hs4. split; [by exists tools|by etrans].
    + intros w3 Hw3 Hs3. by apply listed_offered.
Qed.

(** ** The command *)
Lemma initialize_all_guarded : guarded nothing (λ _, True) p_initialize_all.
Proof.
  unfold p_initialize_all, all_leaves. pose proof (λ l, initialize_leaf_guarded nothing (λ _, True) l I).
  auto 20 with well.
Qed.
Lemma correct_steady w w' table warning : steady w w' → correct w' table warning → correct w table warning.
Proof.
  intros Hs (tools & un & -> & -> & Ht & Hu). exists tools, un. split_and!; [done..| |].
  - intros v Hv. destruct (Ht v Hv) as (al & l & w1 & t & Hl & Hs1 & ? & ?).
    rewrite (proj2 Hs) in Hl. exists al, l, w1, t. split_and!; [done|by etrans|done..].
  - intros al Hal. destruct (Hu al Hal) as (l & w1 & Hl & Hs1 & ?).
    rewrite (proj2 Hs) in Hl. exists l, w1. split_and!; [done|by etrans|done].
Qed.

Lemma beside_ends {A B} (p p' : Proc World A) (q q' : Proc World B) Q w w' :
  sound w → printing p Q w → rg sound persists (guarantee nothing (λ _, True)) q (λ _ _, True) w →
  rtc beside (p, q, w) (p', q', w') → sound w' ∧ printing p' Q w'.
Proof.
  remember (p, q, w) as x eqn:Hx. remember (p', q', w') as y eqn:Hy. intros Hw Hp Hq Hr.
  revert p q w Hx Hw Hp Hq. induction Hr as [x|x y1 y Hb _ IH]; intros p q w -> Hw Hp Hq.
  { by injection Hy as -> -> ->. }
  inversion Hb as [c ? p1 ? ? w1 Hc|c ? ? q1 ? w1 Hc]; simplify_eq.
  - destruct (rg_resume _ _ _ _ _ _ _ _ _ Hw Hp Hc) as (Hw1 & Hs & Hp1).
    apply (IH eq_refl p1 q w1); [done..|].
    eapply (rg_interfere sound persists); [apply _|apply Hs|exact Hq].
  - destruct (rg_resume _ _ _ _ _ _ _ _ _ Hw Hq Hc) as (Hw1 & Hg & Hq1).
    apply (IH eq_refl p q1 w1); [done|done| |done].
    eapply (rg_interfere sound steady); [apply _|by eapply guarantee_steady|exact Hp].
Qed.
Lemma goes_on_ends {A} (q q' : Proc World A) w w' :
  sound w → rg sound persists (guarantee nothing (λ _, True)) q (λ _ _, True) w →
  rtc goes_on (q, w) (q', w') →
  sound w' ∧ steady w w' ∧ rg sound persists (guarantee nothing (λ _, True)) q' (λ _ _, True) w'.
Proof.
  remember (q, w) as x eqn:Hx. remember (q', w') as y eqn:Hy. intros Hw Hq Hr.
  revert q w Hx Hw Hq. induction Hr as [x|x [q1 w1] y [c Hc] _ IH]; intros q w -> Hw Hq.
  { by injection Hy as -> ->. }
  destruct (rg_resume _ _ _ _ _ _ _ _ _ Hw Hq Hc) as (Hw1 & Hg%guarantee_steady & Hq1).
  destruct (IH Hy q1 w1 eq_refl Hw1 Hq1) as (? & ? & ?). split_and!; [done|by etrans|done].
Qed.

Lemma list_tools_correct a w table warning late :
  sound w → tools_listing a w table warning late → correct w table warning.
Proof.
  intros Hw. pose proof (initialize_all_guarded w Hw) as Hinit.
  destruct 1 as [w1 table warning w2 Hends Hprint|p w1 table warning p' w2 Hgo _ Hprint].
  - destruct (goes_on_ends _ _ _ _ Hw Hinit Hends) as (Hw1 & Hs & _).
    eapply correct_steady; [exact Hs|].
    by destruct (rg_ends sound steady steady _ _ _ _ _ Hw1 (print_correct a w1 Hw1) Hprint) as (_ & _ & ?).
  - destruct (goes_on_ends _ _ _ _ Hw Hinit Hgo) as (Hw1 & Hs & Hp).
    eapply correct_steady; [exact Hs|].
    destruct (beside_ends _ _ _ _ _ _ _ Hw1 (print_correct a w1 Hw1) Hp Hprint) as [Hw2 Hc].
    by apply (Hc w2 Hw2).
Qed.

End listing.

(** ** Witness: the deployment of Main.v *)
#[local] Existing Instances Main.Example.os Scenario.http Scenario.serde Scenario.mo.
#[local] Existing Instances Main.Example.yaml Main.Example.base64 CrdDiscovery.Example.kube.

Module Example.
Definition cli : Cli :=
  {| cli_config := "federation.yaml"; cli_http := false; cli_listen := None;
     cli_auth_token := None; cli_auth_token_file := None; cli_tls_cert := None;
     cli_tls_key := None; cli_list_tools := true; cli_validate := false |}.
Definition cfg : FederationConfig := config_of_raw Main.Example.raw.
Definition w0 : World := from_configs_with_pool (servers cfg) (connection_pool (federation cfg)) Scenario.env.
Definition w1 : World := (run p_initialize_all w0).2.
Definition printed := run (p_print_tools_table (aggregator_of (federation cfg))) w1.

Lemma in_time : lists cli Scenario.env printed.1.1 printed.1.2 false.
Proof.
  exists cfg. split_and!; [done|done|reflexivity|]. apply (listed_in_time _ _ w1 _ _ printed.2).
  - pose proof (run_ends p_initialize_all w0) as Hr. unfold w1.
    by destruct (run p_initialize_all w0) as [[] w].
  - pose proof (run_ends (p_print_tools_table (aggregator_of (federation cfg))) w1) as Hr.
    unfold printed. by destruct (run _ w1) as [[table warning] w].
Qed.
End Example.

