(* ===== verification/System.v ===== *)
(** * System: everything that runs, interleaved at every [await]

    The running program is the state of Server.v, the health monitors that were started,
    and the threads: one for every action that was ever begun, each where it got to.  A
    step begins an action, lets one thread go on to its next yield, or drops a request whose
    client has gone away in the middle of it.  So requests, background tasks, monitors,
    discovery, reloads and streams interleave in every way that the awaits of the source
    allow.  (The tasks a dropped request has started go on in the source; here a request
    and the tasks it waits for are one thread, and may be dropped together or not.)  Each
    thread keeps its guarantee (Guarantee.v) against whatever the others do; the theorems
    are what follows for the whole. *)
From S2P Require Import Prelude Text Json Protocol F64 Env Config RateLimit Rbac Session.
From S2P Require Import Notifications LeafClient Scenario Registry Health Aggregator Router.
From S2P Require Import Server DnsDiscovery CrdDiscovery Status Api Reload App Main Threads.
From S2P Require Import Actions Awaits SameCode Guarantee Startup.
Open Scope string_scope.
Open Scope list_scope.

(** Sums of monads aside, a thread is unfinished or done. *)
Definition is_done {S A} (p : Proc S A) : bool := match p with Done _ => true | _ => false end.
Lemma is_done_finished {S A} (p : Proc S A) : is_done p = true ↔ finished p.
Proof. split; [destruct p as [a| |]; [by exists a|done..]|by intros [a ->]]. Qed.

Section system.
Context `{!Os, !Http, !Serde, !MapOrder, !Unicode, !Jwt, !HeaderValue, !Axum, !Kube, !Dig, !Yaml}.

Notation Thread := (SystemAction * Proc FederationState unit)%type.

Record System := {
  y_state : FederationState;
  y_monitors : list nat;
  y_threads : list Thread;
}.
Definition y_world (y : System) : World := st_world (y_state y).

(** The loops of the program do one turn at a time, and clients are served once the
    start-up has ended. *)
Definition no_more (P : SystemAction → Prop) (ths : list Thread) : Prop :=
  ∀ a p, P a → (a, p) ∈ ths → is_done p = true.
Definition alone (a : SystemAction) (ths : list Thread) : Prop :=
  match a with
  | AMonitor _ | APoll | AReload | APrune => no_more (eq a) ths
  | ALine _ => no_more (λ b, ∃ line, b = ALine line) ths
  | _ => True
  end.
Definition started_up (a : SystemAction) (ths : list Thread) : Prop :=
  match a with
  | ARequest _ | ALine _ | AReload => no_more (eq AStart) ths
  | _ => True
  end.

(** An action begins, threads have gone on. *)
Definition begun (g : Settings) (a : SystemAction) (y : System) : System :=
  {| y_state := (accept a (y_state y)).2; y_monitors := y_monitors y;
     y_threads := y_threads y ++ [(a, p_act g a)] |}.
Definition with_threads (s : FederationState) (ths : list Thread) (y : System) : System :=
  {| y_state := s; y_monitors := y_monitors y; y_threads := ths |}.

(** The label is the action that begins or goes on. *)
Inductive step (g : Settings) (a : SystemAction) : System → System → Prop :=
| step_begin y :
    enabled_in (y_monitors y) (y_state y) a → alone a (y_threads y) → started_up a (y_threads y) →
    step g a y (begun g a y)
| step_resume y s ths :
    pool_step a (y_state y, y_threads y) (s, ths) → step g a y (with_threads s ths y)
| step_drop y rq before p after :
    a = ARequest rq → y_threads y = before ++ (a, p) :: after →
    step g a y (with_threads (y_state y) (before ++ (a, Done tt) :: after) y).
Definition some_step (g : Settings) (y y' : System) : Prop := ∃ a, step g a y y'.

(** ** What each action guarantees *)
Definition action_owns (a : SystemAction) : string → Prop :=
  match a with
  | ARequest rq => request_aliases rq
  | APoll => dns_aliases
  | AReconcile _ => crd_aliases
  | AReload => λ _, True
  | _ => nothing
  end.
Definition action_writes (a : SystemAction) : nat → Prop :=
  match a with
  | AMonitor l => eq l
  | ATask _ t _ => task_writes t
  | _ => nowhere
  end.
Notation sound_s := (λ s, sound (st_world s)).
Notation action_guarantee := (λ a, on_state (guarantee (action_owns a) (action_writes a))).

Lemma act_guarded g a : guarded_s (action_owns a) (action_writes a) (p_act g a).
Proof.
  destruct a as [|rq|line|before t after|l| |obj| |rx|rx sub_id| |d]; cbn [p_act act];
    try apply p_in_world_guarded.
  - apply spawn_listeners_guarded.
  - pose proof (app_guarded nowhere (g_auth g) rq). auto with well.
  - pose proof (stdio_guarded nothing nowhere line). auto with well.
  - apply run_task_guarded.
  - pose proof (monitor_turn_guarded nothing (eq l) l eq_refl). auto with well.
  - pose proof (poll_once_guarded nowhere (g_dns g)). auto with well.
  - pose proof (crd_reconcile_guarded nowhere obj). auto with well.
  - pose proof (on_sighup_guarded nowhere (g_path g)). auto with well.
  - apply safely_atom, in_world_well, broker_well. intros b Hb. cbn. unfold stream_next.
    pose proof (recv_wf rx b Hb). by destruct (recv rx b).
  - apply safely_atom, in_world_well, broker_well. intros b Hb.
    by apply (unsubscribe_wf sub_id), drop_receiver_wf.
  - by apply safely_atom, elsewhere_well.
  - apply safely_atom, in_world_well, advance_well.
Qed.

Lemma accept_sound monitors a s :
  enabled_in monitors s a → sound (st_world s) →
  sound (st_world (accept a s).2) ∧ w_heap (st_world (accept a s).2) = w_heap (st_world s) ∧
  w_leaves (st_world (accept a s).2) = w_leaves (st_world s).
Proof.
  destruct a as [| | |before t after| | | | | | | |]; cbn [accept]; try done.
  intros Hen [[Hl Ht] Hb]. cbn in *. split; [|done]. split; [split|]; [done| |done].
  cbn. intros u Hu. apply Ht. rewrite Hen. set_solver.
Qed.

(** ** The invariant *)

(** The leaf an action works on *)
Definition action_leaf (a : SystemAction) : option nat :=
  match a with
  | AMonitor l => Some l
  | ATask _ t _ => Some (task_leaf t)
  | _ => None
  end.

Definition thread_safe (s : FederationState) : Thread → Prop :=
  safe sound_s (on_state persists) action_guarantee (λ _ _, True) s.

(** No reference dangles, whether the table, a task, a monitor or a thread holds it; the
    table's keys are the aliases of its leaves; the broker's subscribers have their
    channels; and the threads keep their guarantees. *)
Record system_wf (y : System) : Prop := {
  y_sound : sound (y_world y);
  y_monitors_wf : ∀ l, l ∈ y_monitors y → has l (y_world y);
  y_threads_wf : ∀ a p l, (a, p) ∈ y_threads y → action_leaf a = Some l → has l (y_world y);
  y_safe : Forall (thread_safe (y_state y)) (y_threads y);
}.

Lemma pool_labels i (s : FederationState) (ps : list Thread) s' ps' :
  pool_step i (s, ps) (s', ps') → ps'.*1 = ps.*1.
Proof. inversion_clear 1. by rewrite !fmap_app. Qed.

Lemma step_guarantee g a y y' :
  step g a y y' → system_wf y →
  persists (y_world y) (y_world y') ∧
  (∀ al, ¬ action_owns a al → w_leaves (y_world y') !! al = w_leaves (y_world y) !! al) ∧
  (∀ l, ¬ action_writes a l → has l (y_world y) →
     status (entry l (y_world y')) = status (entry l (y_world y))).
Proof.
  intros [y0 Hen Hal Hup|y0 s ths Hst|y0 rq before p after -> Hths] []; unfold y_world in *; cbn in *.
  3: by split; [reflexivity|].
  - destruct (accept_sound _ _ _ Hen y_sound0) as (_ & Hh & Hl). rewrite Hl. split_and!.
    + intros l e He. exists e. by rewrite Hh.
    + done.
    + intros l _ _. unfold entry. by rewrite Hh.
  - destruct (pool_rg sound_s (on_state persists) action_guarantee _ a _ _ _ _
      (λ i s s', guarantee_persists _ _ _ _) Hst y_sound0 y_safe0) as (_ & Hg & _).
    split_and!; [by eapply guarantee_persists|apply Hg|].
    intros l Hw [e He]. destruct Hg as [Hh _ _]. destruct (Hh l e He) as (e' & He' & _ & [?|Hs]); [done|].
    by rewrite (entry_lookup _ _ _ He), (entry_lookup _ _ _ He').
Qed.

Lemma step_wf g a y y' : step g a y y' → system_wf y → system_wf y'.
Proof.
  intros Hst Hy. pose proof (step_guarantee _ _ _ _ Hst Hy) as (Hp & _).
  assert (∀ l, has l (y_world y) → has l (y_world y')) as Hhas by (intros l; by apply persists_has).
  destruct Hst as [y0 Hen Hal Hup|y0 s ths Hst|y0 rq before p after -> Hths]; destruct Hy;
    unfold y_world in *; cbn in *.
  3: { rewrite Hths in *. split; cbn; [done|done| |].
    - intros b q l Hin Hl.
      assert (∃ q', (b, q') ∈ before ++ (ARequest rq, p) :: after) as [q' Hq']; [|eauto].
      apply elem_of_app in Hin as [?|[[= -> _]|?]%elem_of_cons]; [exists q|exists p|exists q]; set_solver.
    - apply Forall_app in y_safe0 as [Hb [_ Ha]%Forall_cons]. apply Forall_app. split; [done|].
      by constructor. }
  - destruct (accept_sound _ _ _ Hen y_sound0) as (Hs & _). split; cbn; [done|auto| |].
    + intros b p l [Hin|[= -> ->]%list_elem_of_singleton]%elem_of_app Hl; [eauto|].
      apply Hhas. destruct a; cbn in *; simplify_eq; [|by apply y_monitors_wf0].
      destruct y_sound0 as [[_ Ht] _]. apply Ht. rewrite Hen. set_solver.
    + apply Forall_app. split; [by apply (safe_interfere _ _ _ _ (y_state y0))|].
      constructor; [|constructor].
      by apply act_guarded.
  - destruct (pool_rg sound_s (on_state persists) action_guarantee _ a _ _ _ _
      (λ i s s', guarantee_persists _ _ _ _) Hst y_sound0 y_safe0) as (Hs & _ & Hsafe).
    split; cbn; [done|auto| |done]. intros b p l Hin Hl. apply Hhas.
    assert (b ∈ (y_threads y0).*1) as ([b' p'] & -> & Hin')%list_elem_of_fmap; [|eauto].
    rewrite <- (pool_labels _ _ _ _ _ Hst). apply list_elem_of_fmap. by exists (b, p).
Qed.

Lemma steps_wf g y y' :
  rtc (some_step g) y y' → system_wf y → system_wf y' ∧ persists (y_world y) (y_world y').
Proof.
  induction 1 as [y|y1 y2 y3 [a Hstep] _ IH]; intros Hy; [split; [done|reflexivity]|].
  destruct (IH (step_wf _ _ _ _ Hstep Hy)) as [Hy3 Hp]. split; [done|].
  etrans; [|exact Hp]. by apply (step_guarantee g a).
Qed.

(** The listeners are still to be started when monitors and discovery run already. *)
Definition started (r : Running) : System :=
  {| y_state := r_state r; y_monitors := r_monitors r;
     y_threads := [(AStart, p_in_world p_spawn_listeners)] |}.

Lemma started_wf `{!Base64} cli random crd_up e r :
  starts cli random crd_up e r → system_wf (started r).
Proof.
  intros (cfg & _ & _ & Hin & Ha)%starts_initialized.
  destruct (assembled_spec _ _ _ _ _ _ Ha Hin) as (_ & _ & Hm & _).
  destruct Hin as [Hwf Ht Hb _ _ _].
  assert (sound (st_world (r_state r))) as Hs.
  { split; [done|]. rewrite Hb. apply broker_new_wf. }
  split; cbn; [done| |by intros a p l [= -> ->]%list_elem_of_singleton|].
  - intros l [a Hal]%Hm%map_values_elem. destruct (proj1 Hwf _ _ Hal) as (x & Hx & _). by exists x.
  - constructor; [|constructor].
    exact (p_in_world_guarded _ _ _ (spawn_listeners_guarded nowhere nothing) _ Hs).
Qed.

(** (C1) From the start-up on, however requests, background tasks, health checks,
    discovery, reloads and streams interleave, at every [await] of each of them, no
    reference to a leaf ever dangles, whether the table, a task, a monitor or a suspended
    thread holds it, and the registry's keys are the aliases of its leaves.  The leaf
    behind a reference is the same for ever: its configuration and its client's identity
    do not change, also once the registry has dropped or replaced it. *)
Theorem program_invariant `{!Base64} cli random crd_up e r g y y' :
  starts cli random crd_up e r →
  rtc (some_step g) (started r) y → rtc (some_step g) y y' →
  system_wf y ∧ persists (y_world y) (y_world y').
Proof.
  intros Hmain%started_wf Hy Hy'. apply steps_wf in Hy as [Hy _]; [|done].
  by apply steps_wf in Hy' as [_ Hh].
Qed.

(** (C12) Nobody touches another's leaves: apart from reloads, only a poll of DNS changes the
    table at an alias with the prefix of DNS, only the Kubernetes controller at one with
    its own prefix, and otherwise only a registration or deregistration that names the
    alias.  Along all other steps, in any order and number, the alias keeps the leaf it
    has, or stays free.  So a leaf of the configuration file or of an admin survives
    whatever is discovered, even in the middle of it. *)
Theorem leaves_have_owners g al y y' :
  system_wf y → rtc (λ y y', ∃ a, ¬ action_owns a al ∧ step g a y y') y y' →
  w_leaves (y_world y') !! al = w_leaves (y_world y) !! al.
Proof.
  intros Hy Hsteps. induction Hsteps as [y|y1 y2 y3 (a & Ha & Hst) _ IH]; [done|].
  rewrite IH by (by eapply step_wf). destruct (step_guarantee g a y1 y2 Hst Hy) as (_ & Ht & _).
  by apply Ht.
Qed.
(** ** A handler that never waits is one of the schedules *)
Lemma pool_steps g a y s ths :
  rtc (pool_step a) (y_state y, y_threads y) (s, ths) →
  rtc (step g a) y {| y_state := s; y_monitors := y_monitors y; y_threads := ths |}.
Proof.
  destruct y as [s0 ms ths0]. cbn. remember (s0, ths0) as x eqn:Hx. remember (s, ths) as x' eqn:Hx'.
  intros Hr. revert s0 ths0 Hx. induction Hr as [x|x [s1 ths1] x' Hst _ IH]; intros s0 ths0 ->.
  - injection Hx' as -> ->. apply rtc_refl.
  - eapply rtc_l; [|by apply IH].
    exact (step_resume g a {| y_state := s0; y_monitors := ms; y_threads := ths0 |} s1 ths1 Hst).
Qed.
(** A schedule by the positions of the threads that go on, each with what it chooses *)
Definition go_on (y : System) (turn : nat * bool) : System :=
  match y_threads y !! turn.1 with
  | Some (a, p) =>
      match resume turn.2 p (y_state y) with
      | Some (p', s') => {| y_state := s'; y_monitors := y_monitors y;
                            y_threads := <[turn.1 := (a, p')]> (y_threads y) |}
      | None => y
      end
  | None => y
  end.
Definition schedule (turns : list (nat * bool)) (y : System) : System := foldl go_on y turns.

Lemma go_on_steps g y turn : rtc (some_step g) y (go_on y turn).
Proof.
  unfold go_on. destruct turn as [i c]. cbn [fst snd].
  destruct (y_threads y !! i) as [[a p]|] eqn:Hi; [|apply rtc_refl].
  destruct (resume c p (y_state y)) as [[p' s']|] eqn:Hr; [|apply rtc_refl].
  apply rtc_once. exists a. apply step_resume.
  rewrite <- (take_drop_middle _ _ _ Hi) at 1.
  rewrite insert_take_drop by (by apply lookup_lt_Some in Hi). by apply (pool_resume a c).
Qed.
Lemma schedule_steps g turns y : rtc (some_step g) y (schedule turns y).
Proof.
  revert y. induction turns as [|turn turns IH]; intros y; [apply rtc_refl|].
  etrans; [apply go_on_steps|apply IH].
Qed.
(** The last thread runs to its end. *)
Lemma finishes g a s ms before p :
  rtc (step g a) {| y_state := s; y_monitors := ms; y_threads := before ++ [(a, p)] |}
    {| y_state := (run p s).2; y_monitors := ms; y_threads := before ++ [(a, Done (run p s).1)] |}.
Proof.
  apply (pool_steps g a {| y_state := s; y_monitors := ms; y_threads := before ++ [(a, p)] |}).
  apply (pool_runs before a p []).
Qed.
Lemma step_some g a y y' : rtc (step g a) y y' → rtc (some_step g) y y'.
Proof. apply rtc_subrel. intros u u' Hu. by exists a. Qed.


(** The listeners are started, and no action has begun. *)
Lemma up_steps g r :
  rtc (some_step g) (started r) (with_threads (r_state (listening r)) [(AStart, Done tt)] (started r)).
Proof.
  etrans; [apply (step_some g AStart), (finishes g AStart (r_state r) (r_monitors r) [])|].
  cbn [app]. rewrite run_in_world. unfold with_threads, listening, in_world, lift_state.
  rewrite run_spawn_listeners. cbn [r_state r_monitors y_monitors started].
  destruct (spawn_leaf_notification_listeners _) as [[] w]. apply rtc_refl.
Qed.

End system.

(** ** Witnesses

    On the deployment of Main.v *)
Module Example.
Export Startup.Example.
#[export] Existing Instance Router.Example.unicode.
#[export] Existing Instance Session.Example.jwt.
#[export] Existing Instance Server.Example.header_value.
#[export] Existing Instance App.Example.axum.
#[export] Instance no_dig : Dig := {| dig := λ _ _, Err "no dig" |}.

Definition g : Settings :=
  {| g_auth := App.Example.auth; g_dns := DnsDiscoveryConfig_default; g_path := "" |}.
Definition registration : SystemAction := ARequest (App.Example.registration "root").

(** The listeners are started, and these actions begin. *)
Definition up (r : Running) : System :=
  with_threads (r_state (listening r)) [(AStart, Done tt)] (started r).
Definition taking (acts : list SystemAction) (r : Running) : System :=
  foldl (λ y a, begun g a y) (up r) acts.
End Example.
Import Example.

Lemma taking_steps acts r :
  NoDup acts → AStart ∉ acts → (∀ line, ALine line ∉ acts) →
  (∀ a, a ∈ acts → ∀ s, enabled_in (r_monitors r) s a) →
  rtc (some_step g) (started r) (taking acts r).
Proof.
  intros Hnd Hstart Hline Hen. etrans; [apply (up_steps g)|].
  assert (y_monitors (taking acts r) = r_monitors r ∧ rtc (some_step g) (up r) (taking acts r) ∧
    ∀ a p, (a, p) ∈ y_threads (taking acts r) → a = AStart ∧ p = Done tt ∨ a ∈ acts) as (_ & ? & _);
    [|done].
  unfold taking. induction acts as [|a acts IH] using rev_ind.
  { split_and!; [done|apply rtc_refl|]. intros a p [= -> ->]%list_elem_of_singleton. by left. }
  apply NoDup_app in Hnd as (Hnd & Hno & _).
  destruct IH as (Hm & Hr & Hth); [done|set_solver|set_solver|set_solver|].
  rewrite foldl_app. cbn [foldl]. set (y := foldl _ _ acts) in *.
  assert (∀ p, (a, p) ∈ y_threads y → is_done p = true) as Hnew.
  { intros p [[-> _]|Hin]%Hth; [set_solver|]. destruct (Hno a Hin). left. }
  split_and!; [done| |].
  - eapply rtc_r; [exact Hr|]. exists a. apply step_begin; [rewrite Hm; apply Hen; set_solver|..].
    + destruct a; try done; try (intros b p <- Hp; by apply Hnew). set_solver.
    + destruct a; try done; intros b p <- [[_ ->]|Hin]%Hth; done || set_solver.
  - intros b p [[[-> ->]|Hin]%Hth|[= -> _]%list_elem_of_singleton]%elem_of_app;
      [by left|right; set_solver..].
Qed.

(** A registration and a reload take turns. *)
Lemma program_invariant_witness :
  ∃ r, server_starts r ∧
    let y := schedule [(1, true); (2, true); (1, true); (2, true); (2, true); (1, true)]%nat
               (taking [registration; AReload] r) in
    let y' := schedule [(2, true); (2, true); (1, true); (2, true)]%nat y in
    system_wf y ∧ persists (y_world y) (y_world y').
Proof.
  destruct outcome_starts as [r Hr]. exists r. split; [exact Hr|]. cbv zeta.
  eapply (program_invariant _ _ _ _ r g _ _ Hr); [|apply schedule_steps].
  etrans; [|apply schedule_steps]. apply taking_steps.
  - apply NoDup_cons; split; [|apply NoDup_singleton]. by intros ?%list_elem_of_singleton.
  - set_solver.
  - set_solver.
  - intros a [->| ->%list_elem_of_singleton]%elem_of_cons; done.
Defined.

(** The Kubernetes controller registers its leaf of the same name, and an hour passes. *)
Lemma leaves_have_owners_witness :
  ∃ r l y, server_starts r ∧
    rtc (some_step g) (started r) y ∧ y_threads y = [(AStart, p_in_world p_spawn_listeners);
      (AReconcile CrdDiscovery.Example.live, Done tt); (APass 3600, Done tt)] ∧
    w_leaves (y_world (started r)) !! "alpha" = Some l ∧ w_leaves (y_world y) !! "alpha" = Some l.
Proof.
  destruct outcome_starts as [r Hr]. destruct (example_alpha r Hr) as (l & Hl & _).
  set (a := AReconcile CrdDiscovery.Example.live).
  set (s1 := (run (p_act g a) (r_state r)).2).
  set (s2 := (run (p_act g (APass 3600)) s1).2).
  set (y := with_threads s2 [(AStart, p_in_world p_spawn_listeners); (a, Done tt);
              (APass 3600, Done tt)] (started r)).
  assert (∀ b y y', ¬ action_owns b "alpha" → rtc (step g b) y y' →
    rtc (λ y y', ∃ a, ¬ action_owns a "alpha" ∧ step g a y y') y y') as Hsub.
  { intros b y1 y2 Hb. apply rtc_subrel. intros u u' Hu. by exists b. }
  assert (rtc (λ y y', ∃ a, ¬ action_owns a "alpha" ∧ step g a y y') (started r) y) as Hy.
  { etrans; [apply (Hsub a); [by cbn|apply rtc_once; by apply step_begin]|].
    etrans; [apply (Hsub a); [by cbn|apply (finishes g a _ _ [_])]|].
    etrans; [apply (Hsub (APass 3600)); [by intros []|apply rtc_once; by apply step_begin]|].
    etrans; [apply (Hsub (APass 3600)); [by intros []|apply (finishes g (APass 3600) _ _ [_; _])]|].
    cbn [app begun y_state accept m_modify in_world]. unfold y, with_threads.
    destruct (run (p_act g a) _).1, (run (p_act g (APass 3600)) _).1. apply rtc_refl. }
  exists r, l, y. split_and!; [done| |done|done|].
  - eapply rtc_subrel; [|exact Hy]. intros u u' (b & _ & Hb). by exists b.
  - rewrite <- Hl. apply (leaves_have_owners g "alpha" (started r) y); [|done].
    by eapply started_wf.
Defined.

