(* ===== verification/Access.v ===== *)
(** * Access: who may do what, however requests interleave

    App.v and Server.v say what the gate and the allow-list do for a request that runs
    alone.  Here its handler yields wherever it waits, and anything else happens in between:
    a request that no token lets in changes nothing at any of its steps, and a restricted
    client's request to list or call tools never writes to a leaf it may not use. *)
From S2P Require Import Prelude Text Json Protocol F64 Env Config RateLimit Rbac Session.
From S2P Require Import Notifications LeafClient Scenario Registry Health Aggregator Router.
From S2P Require Import Server DnsDiscovery CrdDiscovery Status Api Reload App Main Threads.
From S2P Require Import Actions Awaits SameCode Guarantee Startup System.
Open Scope string_scope.
Open Scope list_scope.

(** Nothing is written to the leaves outside [A], nor to the table. *)
Definition spares (A : string → Prop) (w w' : World) : Prop :=
  (∀ l e, w_heap w !! l = Some e → ¬ A (le_alias e) → w_heap w' !! l = Some e) ∧
  w_leaves w' = w_leaves w.
#[export] Instance spares_preorder A : PreOrder (spares A).
Proof. split; [by intros w|]. intros a b c [Hab Lab] [Hbc Lbc]. split; [eauto|congruence]. Qed.
Lemma spares_heap A w w' : w_heap w' = w_heap w → w_leaves w' = w_leaves w → spares A w w'.
Proof. intros Hh Hl. split; [|done]. by rewrite Hh. Qed.

Section access.
Context `{!Os, !Http, !Serde, !MapOrder, !Unicode, !Jwt, !HeaderValue, !Axum, !Kube, !Dig, !Yaml}.
Notation sound_s := (λ s, sound (st_world s)).

(** ** A leaf the caller may use *)
Section allowed.
Context (A : string → Prop).
Notation keeps p w := (keeps_to sound persists (spares A) p w).
Notation keeps_s p s := (keeps_to sound_s (on_state persists) (on_state (spares A)) p s).
Notation everywhere_s p := (everywhere sound_s (on_state persists) (on_state (spares A)) p).

Lemma persists_alias w w' l e :
  persists w w' → w_heap w !! l = Some e → ∃ e', w_heap w' !! l = Some e' ∧ le_alias e' = le_alias e.
Proof.
  intros Hp He. destruct (Hp l e He) as (e' & He' & Hc & _). exists e'. unfold le_alias. by rewrite Hc.
Qed.
Lemma at_keeps {B} l (p : Proc (LeafClient * Env) B) e w :
  w_heap w !! l = Some e → A (le_alias e) → keeps (p_at l p) w.
Proof.
  revert e w. induction p as [b|C m k IH|k IH]; intros e w He Ha; cbn; [done| |].
  - intros w' _ Hp. destruct (persists_alias _ _ _ _ Hp He) as (e' & He' & Ha').
    unfold on_client. destruct (m _) as [b [c env]]. cbn [fst snd]. split.
    + split; [|done]. intros l' x Hx Hn. cbn. rewrite lookup_alter_ne; [done|].
      intros <-. apply Hn. assert (x = e') as -> by congruence. by rewrite Ha'.
    + apply (IH b (set_client c e')); [cbn; by rewrite lookup_alter_eq, He'|].
      change (le_alias (set_client c e')) with (le_alias e'). by rewrite Ha'.
  - intros c w' _ Hp. destruct (persists_alias _ _ _ _ Hp He) as (e' & He' & Ha').
    apply (IH c e'); [done|]. by rewrite Ha'.
Qed.
Lemma route_to_leaf_keeps alias op w : A alias → keeps (p_route_to_leaf alias op) w.
Proof.
  intros Ha w1 Hw1 _. split; [reflexivity|]. cbn [get_leaf m_gets fst snd].
  destruct (w_leaves w1 !! alias) as [l|] eqn:Hl; [|done].
  intros w2 _ Hp. split; [reflexivity|]. cbn [m_gets fst snd]. destruct (is_healthy _); [|done].
  destruct (proj1 (proj1 Hw1) _ _ Hl) as (e & He & Hea).
  destruct (persists_alias _ _ _ _ Hp He) as (e' & He' & Ha').
  apply (at_keeps l op e'); [done|]. by rewrite Ha', Hea.
Qed.

Lemma aside_keeps {B} (m : M FederationState B) :
  (∀ s, w_heap (st_world (m s).2) = w_heap (st_world s) ∧
        w_leaves (st_world (m s).2) = w_leaves (st_world s)) → everywhere_s (atom m).
Proof. intros Hm. apply everywhere_atom. intros s _. by apply spares_heap; apply Hm. Qed.
Lemma in_world_keeps {B} (p : Proc World B) :
  everywhere sound persists (spares A) p → everywhere_s (p_in_world p).
Proof.
  intros Hp s. apply (keeps_to_focus st_world (@in_world)); [|apply Hp].
  intros C m t. unfold in_world, lift_state. by destruct (m _).
Qed.

Lemma tools_list_keeps request ctx : everywhere_s (p_handle_tools_list request ctx).
Proof.
  apply everywhere_bind; [by apply aside_keeps|]. intros agg.
  apply everywhere_bind; [|intros; apply everywhere_done]. apply in_world_keeps.
  repeat (apply everywhere_bind; [|intros]); try by apply everywhere_atom.
  - destruct (negb _); [|apply everywhere_done]. apply everywhere_iter. intros l.
    apply everywhere_atom. intros w _. unfold refresh_if_stale. run_m.
    by destruct (tools_stale _ _ _); apply spares_heap.
  - apply everywhere_done.
Qed.
Lemma tools_call_keeps request ctx :
  (∀ a, allows_alias ctx a = true → A a) →
  (∀ item, parse_namespaced_name (str_param "name" (rq_params request)) ≠ Some ("federation", item)) →
  everywhere_s (p_handle_tools_call request ctx).
Proof.
  intros HA Hf. unfold p_handle_tools_call. cbv zeta. set (name := str_param "name" _).
  destruct (bool_decide _ && _) eqn:Hd; [apply everywhere_done|].
  apply everywhere_bind; [|intros; apply everywhere_done]. apply in_world_keeps.
  unfold p_route_tool_call. destruct (parse_namespaced_name name) as [[alias item]|] eqn:Hp;
    [|apply everywhere_done].
  assert (A alias) as Ha by (apply HA, negb_false_iff, Hd).
  case_decide as Hal; [subst; by destruct (Hf item)|].
  intros w. by apply route_to_leaf_keeps.
Qed.
End allowed.

(** A request for the list of tools, or for a tool that is not the federation's own *)
Definition on_tools (request : JsonRpcRequest) : Prop :=
  rq_method request = "tools/list" ∨
  rq_method request = "tools/call" ∧
  ∀ item, parse_namespaced_name (str_param "name" (rq_params request)) ≠ Some ("federation", item).
Lemma handle_mcp_keeps A headers ctx request :
  on_tools request → (∀ a, allows_alias (default anonymous ctx) a = true → A a) →
  everywhere sound_s (on_state persists) (on_state (spares A)) (p_handle_mcp headers ctx request).
Proof.
  intros Hm HA. apply everywhere_bind; [by apply aside_keeps|].
  intros [|]; [|apply everywhere_done]. cbv zeta.
  rewrite (bool_decide_eq_false_2 (rq_method request = "initialize")) by (by destruct Hm as [-> |[-> _]]).
  apply everywhere_bind.
  { unfold p_admit_session. destruct (extract_session_id headers); [|apply everywhere_done].
    apply everywhere_bind; [by apply aside_keeps|]. intros [|]; [|apply everywhere_done].
    apply everywhere_bind; [by apply aside_keeps|]. intros; apply everywhere_done. }
  intros [|]; [|apply everywhere_done]. cbn [negb andb].
  apply everywhere_bind.
  { apply aside_keeps. intros s. unfold rate_limited, lift_state. run_m. by destruct (check _ _ _ _). }
  intros [|]; [apply everywhere_done|].
  apply everywhere_bind; [|intros; apply everywhere_done].
  apply everywhere_bind; [by apply aside_keeps|]. intros _. unfold p_dispatch_method.
  destruct Hm as [-> |[-> Hf]]; [by apply tools_list_keeps|by apply tools_call_keeps].
Qed.

(** ** Requests *)

(** What the gate sees of a request, and its verdict at [t] *)
Definition presented (rq : HttpRequestIn) : HttpIn :=
  {| in_path := in_uri_path rq;
     in_authorization := header_str "authorization" (in_headers rq) |}.
Definition verdict (g : Settings) (rq : HttpRequestIn) (t : Z) : gate :=
  auth_middleware t (g_auth g) (presented rq).
(** The token files may change: whether a leaf may be used at some time *)
Definition may_use (g : Settings) (rq : HttpRequestIn) (alias : string) : Prop :=
  ∃ t ctx, verdict g rq t = Forward ctx ∧ allows_alias (default anonymous ctx) alias = true.
Definition tools_request (rq : HttpRequestIn) : Prop :=
  in_method rq = "POST" ∧ in_uri_path rq = "/mcp" ∧
  ∃ request, json_rpc_body rq = Ok request ∧ on_tools request.

Definition confined (g : Settings) (a : SystemAction) (s s' : FederationState) : Prop :=
  match a with
  | ARequest rq =>
      ((∀ t, verdict g rq t = Unauthorized) → s' = s) ∧
      (tools_request rq → spares (may_use g rq) (st_world s) (st_world s'))
  | _ => True
  end.
#[local] Instance confined_refl g a : Reflexive (confined g a).
Proof. intros s. by destruct a. Qed.
Notation kept g s := (keeps sound_s (on_state persists) (confined g) s).

Lemma refused_keeps g rq s :
  (∀ t, verdict g rq t = Unauthorized) →
  keeps_to sound_s (on_state persists) (λ s s', s' = s) (p_app (g_auth g) rq) s.
Proof.
  intros Hno. unfold p_app. case_decide; [by apply everywhere_atom|].
  apply everywhere_bind; [by apply everywhere_atom|]. intros t.
  specialize (Hno t). unfold verdict, presented in Hno. by rewrite Hno.
Qed.
Lemma tools_keep g rq s :
  tools_request rq →
  keeps_to sound_s (on_state persists) (on_state (spares (may_use g rq))) (p_app (g_auth g) rq) s.
Proof.
  intros (Hm & Hp & request & Hb & Ht). unfold p_app. rewrite Hm, decide_False by done.
  apply everywhere_bind; [by apply aside_keeps|]. intros t. fold (presented rq).
  destruct (auth_middleware _ _ _) as [|ctx] eqn:Hv; [apply everywhere_done|].
  unfold p_route, p_mcp_route, p_extracted, p_answer. rewrite Hp, Hm, Hb.
  apply everywhere_bind; [|intros; apply everywhere_done].
  apply handle_mcp_keeps; [done|]. intros a Ha. by exists t, ctx.
Qed.
Lemma act_kept g a s : kept g s (a, p_act g a).
Proof.
  unfold keeps. cbn [fst snd]. destruct a as [|rq| | | | | | | | | |].
  2: { cbn [p_act]. apply everywhere_bind.
       - intros u. apply keeps_to_and; apply keeps_to_if.
         + apply refused_keeps.
         + apply tools_keep.
       - intros. apply everywhere_done. }
  all: by apply keeps_to_any.
Qed.

(** ** The whole program *)
Lemma step_kept g a y y' :
  step g a y y' → system_wf y → Forall (kept g (y_state y)) (y_threads y) →
  confined g a (y_state y) (y_state y') ∧ Forall (kept g (y_state y')) (y_threads y').
Proof.
  intros Hst Hy Hk. pose proof (step_guarantee _ _ _ _ Hst Hy) as (Hp & _).
  destruct Hst as [y0 Hen _ _|y0 s ths Hst|y0 rq before p after -> Hths].
  - split; [by destruct a|]. apply Forall_app. split; [eapply keeps_interfere; [apply _|exact Hp|exact Hk]|].
    constructor; [apply act_kept|constructor].
  - by apply (pool_keeps _ _ _ _ _ _ _ _ Hst Hp (y_sound _ Hy) Hk).
  - split; [done|]. rewrite Hths in Hk. apply Forall_app in Hk as [Hb [_ Ha]%Forall_cons].
    apply Forall_app. split; [done|]. by constructor.
Qed.
Lemma steps_kept g y y' :
  rtc (some_step g) y y' → system_wf y → Forall (kept g (y_state y)) (y_threads y) →
  system_wf y' ∧ Forall (kept g (y_state y')) (y_threads y').
Proof.
  induction 1 as [y|y1 y2 y3 [a Hst] _ IH]; [done|]. intros Hwf Hk.
  apply IH; [by eapply step_wf|]. by eapply step_kept.
Qed.

(** (C4) The gate and the allow-list hold at every await.  However requests, tasks, monitors,
    discovery, reloads and streams interleave: a request whose credentials the gate refuses
    does not change the state at any of its steps; and one that lists the tools, or calls one
    that is not the federation's own, writes at any of its steps only to leaves that its
    credentials allow, and never to the table. *)
Theorem requests_confined `{!Base64} cli random crd_up e r g y rq y' :
  starts cli random crd_up e r → rtc (some_step g) (started r) y → step g (ARequest rq) y y' →
  ((∀ t, verdict g rq t = Unauthorized) → y_state y' = y_state y) ∧
  (tools_request rq →
   (∀ l x, w_heap (y_world y) !! l = Some x → ¬ may_use g rq (le_alias x) →
      w_heap (y_world y') !! l = Some x) ∧
   w_leaves (y_world y') = w_leaves (y_world y)).
Proof.
  intros Hstarts Hy Hst. pose proof (started_wf _ _ _ _ _ Hstarts) as Hwf0.
  destruct (steps_kept g (started r) y Hy Hwf0) as [Hwf Hk].
  { constructor; [|constructor]. by apply keeps_to_any. }
  destruct (step_kept g _ y y' Hst Hwf Hk) as [[Hno Ht] _]. by split.
Qed.
End access.

(** ** Witness: a client that may use one of the two leaves calls its tool *)
Module Example.
Export Startup.Example.
#[export] Existing Instance Router.Example.unicode.
#[export] Existing Instance Session.Example.jwt.
#[export] Existing Instance Server.Example.header_value.
#[export] Existing Instance System.Example.no_dig.

Definition call : JsonRpcRequest :=
  Server.Example.request "tools/call" (json_obj [("name", VString "beta__get")]).
#[export] Instance axum : Axum :=
  {| json_rpc_body := λ _, Ok call; register_body := λ _, Err (reply 400 BEmpty);
     path_parameter := λ s, Ok s; framework_reply := λ _, reply 404 BEmpty |}.
Definition g : Settings :=
  {| g_auth := {| as_token := Some "root"; as_token_file := None;
                  as_clients := [{| token := "team"; allowed_servers := ["beta"] |}] |};
     g_dns := DnsDiscoveryConfig_default; g_path := "" |}.
Definition rq : HttpRequestIn :=
  {| in_method := "POST"; in_uri_path := "/mcp"; in_body := "";
     in_headers := [("authorization", Some "Bearer team")] |}.

Lemma team_verdict t :
  verdict g rq t = Forward (Some {| client_id := Some "client-0"; ctx_allowed := Some ["beta"] |}).
Proof. reflexivity. Qed.
Lemma team_may_use : ¬ may_use g rq "alpha".
Proof. intros (t & ctx & Hv & Ha). rewrite team_verdict in Hv. injection Hv as <-. discriminate Ha. Qed.
Lemma calls_beta : tools_request rq.
Proof.
  split_and!; [done..|]. exists call. split; [done|]. right. split; [done|]. intros item.
  vm_compute. discriminate.
Qed.
(** The listeners are started and the call begins. *)
Definition called (r : Running) : System :=
  begun g (ARequest rq) (with_threads (r_state (listening r)) [(AStart, Done tt)] (started r)).
Lemma called_steps r : rtc (some_step g) (started r) (called r).
Proof.
  eapply rtc_r; [exact (up_steps g r)|]. exists (ARequest rq). apply step_begin; [done|done|].
  by intros b p <- [= ->]%list_elem_of_singleton.
Qed.
End Example.
Import Example.

(** Whatever step it takes after some steps of its own, the leaf [alpha] stays as it is. *)
Lemma requests_confined_witness :
  ∃ r, server_starts r ∧
    let y := schedule [(1, true); (1, true); (1, true); (1, true); (1, true)]%nat (called r) in
    ∀ y', step g (ARequest rq) y y' → w_leaves (y_world y') = w_leaves (y_world y) ∧
      ∀ l x, w_heap (y_world y) !! l = Some x → le_alias x = "alpha" →
        w_heap (y_world y') !! l = Some x.
Proof.
  destruct outcome_starts as [r Hr]. exists r. split; [exact Hr|]. intros y y' Hst.
  destruct (requests_confined _ _ _ _ r g y rq y' Hr) as [_ Ht]; [|exact Hst|].
  { etransitivity; [apply called_steps|apply schedule_steps]. }
  destruct (Ht calls_beta) as [Hh Hl]. split; [exact Hl|]. intros l x Hx Ha.
  apply Hh; [exact Hx|]. rewrite Ha. exact team_may_use.
Defined.
