(* ===== verification/Calm.v ===== *)
(** * Calm: the parts of the program that leave the broker, the sessions and the rates alone

    Most parts of most threads touch neither the notification broker nor the session table
    nor the rate limiter;
    and no part runs the clock back or mixes up the names of leaves.  [calm] is that; what is
    left are the parts that History.v tells of. *)
From S2P Require Import Prelude Text Json Protocol F64 Env Config RateLimit Rbac Session.
From S2P Require Import Notifications LeafClient Scenario Registry Health Aggregator Router.
From S2P Require Import Server DnsDiscovery CrdDiscovery Status Api Reload App Main Threads.
From S2P Require Import Actions Awaits Guarantee.
Open Scope string_scope.
Open Scope list_scope.

(** Each client goes by the name of its leaf. *)
Definition named (w : World) : Prop :=
  ∀ l e, w_heap w !! l = Some e → lc_alias (le_client e) = le_alias e.

Definition calm (w w' : World) : Prop :=
  w_broker w' = w_broker w ∧ (wnow w ≤ wnow w')%Z ∧ (named w → named w').
#[export] Instance calm_preorder : PreOrder calm.
Proof.
  split; [by intros w|]. intros a b c (Hb & Ht & Hn) (Hb' & Ht' & Hn').
  split_and!; [congruence|lia|auto].
Qed.
(** The same of the state of the server *)
Definition calm_s (s s' : FederationState) : Prop :=
  calm (st_world s) (st_world s') ∧ st_sessions s' = st_sessions s ∧ st_limiter s' = st_limiter s.
#[export] Instance calm_s_preorder : PreOrder calm_s.
Proof.
  split; [by intros s|]. intros a b c (Hw & Hs & Hl) (Hw' & Hs' & Hl').
  split_and!; [by etrans|congruence..].
Qed.

Notation calm_part m := (obeys (λ _, True) calm m).
Notation calm_thread p := (safely (λ _, True) (λ _ _, True) calm p).
Notation calm_part_s m := (obeys (λ _, True) calm_s m).
Notation calm_thread_s p := (safely (λ _, True) (λ _ _, True) calm_s p).

(** ** Operations *)
Section operations.
Context `{!Os, !Http, !Serde, !MapOrder, !Kube}.

Lemma same_calm {A} (m : M World A) :
  (∀ w, w_broker (m w).2 = w_broker w ∧ w_env (m w).2 = w_env w ∧ w_heap (m w).2 = w_heap w) →
  calm_part m.
Proof.
  intros Hm w _. destruct (Hm w) as (Hb & He & Hh). split; [done|]. split_and!; [done| |].
  - unfold wnow. by rewrite He.
  - unfold named. by rewrite Hh.
Qed.
Lemma acts_calm {A} (C : Change) (m : M World A) :
  (∀ l e e', C l e e' → evolved e e') → acts C m → calm_part m.
Proof.
  intros HC Hm w _. split; [done|]. destruct (Hm w) as [_ _ Hb _ _ (Ht & _) Hh]. split_and!; [done..|].
  intros Hn l e' He'. specialize (Hh l). rewrite He' in Hh. inversion Hh as [e ? Hc Heq|]; subst.
  destruct (HC _ _ _ Hc) as (Hcfg & Hcl & _). rewrite Hcl. unfold le_alias. rewrite Hcfg.
  symmetry in Heq. exact (Hn l e Heq).
Qed.
Lemma update_calm l f : (∀ e, evolved e (f e)) → calm_part (update l f).
Proof.
  intros Hf. apply (acts_calm (writing (λ _, True))); [by intros ? ? ? []|]. apply acts_update. intros e.
  split; [done|by left].
Qed.
Lemma update_now_calm l f : (∀ t e, evolved e (f t e)) → calm_part (update_now l f).
Proof.
  intros Hf. apply (acts_calm (writing (λ _, True))); [by intros ? ? ? []|]. apply acts_update_now.
  intros t e. split; [done|by left].
Qed.
Lemma env_calm {A} (m : M Env A) : (∀ e, now e ≤ now (m e).2)%Z → calm_part (lift_state w_env set_env m).
Proof.
  intros Hm w _. split; [done|]. specialize (Hm (w_env w)). unfold lift_state, calm, wnow, named. by destruct (m _).
Qed.
Lemma install_calm alias config task : calm_part (install alias config task).
Proof.
  intros w _. split; [done|]. rewrite install_spec. split_and!; [done..|].
  intros Hn l e. cbn. rewrite lookup_insert_Some. intros [[_ <-]|[_ He]]; [done|by eapply Hn].
Qed.
Lemma refresh_leaf_calm l : calm_part (refresh_leaf l).
Proof. apply (acts_calm (only (eq l))); [by intros ? ? ? []|apply refresh_leaf_only]. Qed.
Lemma on_client_calm {A} l (m : M (LeafClient * Env) A) :
  obeys (λ _, True) client_step m → calm_part (on_client l m).
Proof.
  intros Hm. apply (acts_calm (writing (λ _, True))); [by intros ? ? ? []|].
  apply acts_on_client; [|intros e c Hc; by repeat split; auto].
  intros c e. destruct (Hm (c, e) I) as [_ Hg]. by destruct (m (c, e)) as [b [c' e']].
Qed.
Lemma at_calm {A} l (p : Proc (LeafClient * Env) A) :
  safely (λ _, True) (λ _ _, True) client_step p → calm_thread (p_at l p).
Proof.
  intros Hp w _. specialize (Hp (le_client (entry l w), w_env w) I).
  unfold p_at. revert Hp. generalize (le_client (entry l w), w_env w) as s. revert w.
  induction p as [a|B m k IH|k IH]; intros w s Hp; [done| |].
  2: { intros c w' _ _. exact (IH c w' s (Hp c s I I)). }
  intros w' _ _. cbn.
  assert (obeys (λ _, True) client_step m) as Hm.
  { intros ce _. destruct (Hp ce I I) as (_ & Hg & _). by split. }
  apply (on_client_calm l) in Hm.
  destruct (Hm w' I) as [_ Hc]. split_and!; [done..|]. unfold on_client.
  destruct (Hp (le_client (entry l w'), w_env w') I I) as (_ & _ & Hk).
  destruct (m _) as [b [c e]]. exact (IH _ _ _ Hk).
Qed.
End operations.

#[export] Hint Resolve at_calm refresh_leaf_calm install_calm : well.
#[export] Hint Extern 4 (obeys _ calm (update _ _)) => by apply update_calm : well.
#[export] Hint Extern 4 (obeys _ calm (update_now _ _)) => by apply update_now_calm : well.
#[export] Hint Extern 4 (obeys _ calm (remove_leaf _)) => by apply same_calm : well.
#[export] Hint Extern 4 (obeys _ calm (spawn _)) => by apply same_calm : well.
#[export] Hint Extern 4 (obeys _ calm (patch _)) => by apply same_calm : well.

(** ** Leaves and their sources *)
Section leaves.
Context `{!Os, !Http, !Serde, !MapOrder, !Unicode, !Kube, !Dig, !Yaml}.

Lemma p_refresh_leaf_calm l : calm_thread (p_refresh_leaf l).
Proof. unfold p_refresh_leaf, p_list_tools, p_store_tools, mark_tools_refreshed. auto 20 with well. Qed.
Hint Resolve p_refresh_leaf_calm : well.
Lemma init_leaf_calm l keep : calm_thread (p_init_leaf l keep).
Proof. unfold p_init_leaf, p_note_initialized, p_mark_healthy, p_mark_unhealthy. auto 20 with well. Qed.
Lemma report_status_calm l object ok : calm_thread (p_report_status l object ok).
Proof. unfold p_report_status. auto 20 with well. Qed.
Lemma monitor_turn_calm l : calm_thread (p_monitor_turn l).
Proof. unfold p_monitor_turn, p_mark_healthy, p_record_failure. auto 20 with well. Qed.
Lemma spawn_listeners_calm : calm_thread p_spawn_listeners.
Proof. unfold p_spawn_listeners, spawn_listener, all_leaves. auto 20 with well. Qed.
Lemma poll_once_calm config : calm_thread (p_poll_once config).
Proof. unfold p_poll_once, p_dns_reconcile, p_remove_all, add_record, aliases. cbv zeta. auto 20 with well. Qed.
Lemma crd_reconcile_calm obj : calm_thread (p_crd_reconcile obj).
Proof. unfold p_crd_reconcile, p_patch_finalizers, patch_finalizers. auto 20 with well. Qed.
Lemma on_sighup_calm path : calm_thread (p_on_sighup path).
Proof.
  unfold p_on_sighup, p_reload_config, p_reload_server, p_remove_all, aliases, get_leaf.
  cbv zeta. auto 20 with well.
Qed.
Lemma register_calm rq : calm_thread (p_register_server rq).
Proof.
  unfold p_register_server, register_checks, register_insert, register_reply, get_leaf. auto 20 with well.
Qed.
Lemma deregister_calm alias : calm_thread (p_deregister_server alias).
Proof. unfold p_deregister_server. auto 20 with well. Qed.

Lemma native_tool_calm name arguments : calm_part (handle_native_tool name arguments).
Proof.
  unfold handle_native_tool, native_list_servers, native_topology, native_server_info,
    native_refresh, native_search_tools, refresh_tools, refresh_all_tools, all_leaves, get_leaf,
    fed_error.
  repeat case_decide; auto 20 with well.
Qed.
Hint Resolve native_tool_calm : well.
Lemma route_to_leaf_calm alias p :
  safely (λ _, True) (λ _ _, True) client_step p → calm_thread (p_route_to_leaf alias p).
Proof. intros Hp. unfold p_route_to_leaf, get_leaf. auto 20 with well. Qed.
Hint Resolve route_to_leaf_calm : well.
Lemma route_tool_call_calm name arguments : calm_thread (p_route_tool_call name arguments).
Proof.
  unfold p_route_tool_call, p_call_tool, p_handle_native_tool, p_native_refresh, p_refresh_tools,
    p_refresh_all_tools, get_leaf, all_leaves. auto 20 with well.
Qed.
Lemma route_resource_read_calm name : calm_thread (p_route_resource_read name).
Proof. unfold p_route_resource_read, p_read_resource. auto 20 with well. Qed.
Lemma route_prompt_get_calm name arguments : calm_thread (p_route_prompt_get name arguments).
Proof. unfold p_route_prompt_get, p_get_prompt. auto 20 with well. Qed.
Lemma aggregated_tools_calm a : calm_thread (p_aggregated_tools a).
Proof. unfold p_aggregated_tools, refresh_if_stale, healthy_leaves. auto 20 with well. Qed.
End leaves.
#[export] Hint Resolve p_refresh_leaf_calm init_leaf_calm report_status_calm monitor_turn_calm
  spawn_listeners_calm poll_once_calm crd_reconcile_calm on_sighup_calm register_calm deregister_calm
  route_tool_call_calm route_resource_read_calm route_prompt_get_calm aggregated_tools_calm : well.

(** ** Requests *)
Section requests.
Context `{!Os, !Http, !Serde, !MapOrder, !Unicode, !Jwt, !HeaderValue, !Axum, !Kube}.

Lemma in_world_calm {A} (m : M World A) : calm_part m → calm_part_s (in_world m).
Proof.
  intros Hm s _. destruct (Hm (st_world s) I) as [_ Hc]. split; [done|].
  unfold in_world, lift_state. destruct (m _). by split.
Qed.
Lemma p_in_world_calm {A} (p : Proc World A) : calm_thread p → calm_thread_s (p_in_world p).
Proof.
  intros Hp s _. specialize (Hp (st_world s) I). unfold p_in_world. revert s Hp.
  induction p as [a|B m k IH|k IH]; intros s Hp; [done| |].
  - intros s' _ _. destruct (Hp (st_world s') I I) as (_ & Hc & Hk). cbn.
    unfold in_world, lift_state. destruct (m _) as [b w]. split_and!; [done|by split|].
    exact (IH b (set_world w s') Hk).
  - intros c s' _ _. apply IH, (Hp c (st_world s')); exact I.
Qed.
Lemma uuid_calm : calm_part_s (in_env fresh_uuid).
Proof. by apply in_world_calm, env_calm. Qed.
Hint Resolve in_world_calm p_in_world_calm uuid_calm : well.

Lemma other_method_calm request session ctx :
  rq_method request ≠ "tools/list" → rq_method request ≠ "tools/call" →
  rq_method request ≠ "resources/read" → rq_method request ≠ "prompts/get" →
  rq_method request ≠ "logging/setLevel" →
  calm_part_s (dispatch_method request session ctx).
Proof.
  intros Hl Hc Hr Hp Hs. unfold dispatch_method. cbv zeta.
  rewrite (bool_decide_eq_false_2 (_ = "tools/list")), (bool_decide_eq_false_2 (_ = "tools/call")),
    (bool_decide_eq_false_2 (_ = "resources/read")), (bool_decide_eq_false_2 (_ = "prompts/get")),
    (bool_decide_eq_false_2 (_ = "logging/setLevel")) by done.
  unfold handle_resources_list, handle_prompts_list, aggregated_resources, aggregated_prompts,
    healthy_leaves.
  auto 20 with well.
Qed.
(** All methods but the one that sets the log level *)
Lemma dispatch_method_calm request session ctx :
  rq_method request ≠ "logging/setLevel" → calm_thread_s (p_dispatch_method request session ctx).
Proof.
  intros Hs. unfold p_dispatch_method. cbv zeta.
  case_bool_decide; [unfold p_handle_tools_list; auto 20 with well|].
  case_bool_decide; [unfold p_handle_tools_call; cbv zeta; destruct (_ && _); auto 20 with well|].
  case_bool_decide; [unfold p_handle_resources_read; auto 20 with well|].
  case_bool_decide; [unfold p_handle_prompts_get; cbv zeta; auto 20 with well|].
  apply safely_atom. by apply other_method_calm.
Qed.

(** All routes but the endpoint's *)
Lemma route_calm ctx rq : in_uri_path rq ≠ "/mcp" → calm_thread_s (p_route ctx rq).
Proof.
  intros Hp. unfold p_route. cbv zeta. rewrite decide_False by done. case_decide.
  - unfold p_servers_route, p_extracted, servers_route, unrouted, answer, list_servers, all_leaves.
    case_decide; auto 20 with well.
  - destruct (server_segment _) as [segment|] eqn:Hs.
    + unfold p_server_route, server_route, p_extracted, p_answer, extracted, answer, unrouted,
        get_server, get_leaf. destruct (is_get _); [auto 20 with well|].
      case_decide; auto 20 with well.
    + apply safely_atom. unfold route, unrouted, answer, status_handler, render_status_html, all_leaves.
      cbv zeta. rewrite !decide_False, Hs by done. auto 20 with well.
Qed.
End requests.
#[export] Hint Resolve in_world_calm p_in_world_calm uuid_calm dispatch_method_calm
  route_calm : well.
