(* ===== verification/History.v ===== *)
(** * History: who does what to the broker, to the sessions and to the rates

    The broker, the session manager and the rate limiter are shared by all threads.  Each thread tells what
    it does to them: [does] reads it off a part, and [told] says what a thread of each action
    may tell, in which order, wherever it has got to; [act_tells] is that it tells no more.
    Chronicle.v puts the threads together. *)
From S2P Require Import Prelude Text Json Protocol F64 Env Config RateLimit Rbac Session.
From S2P Require Import Notifications LeafClient Scenario Registry Health Aggregator Router.
From S2P Require Import Server SessionSpec DnsDiscovery CrdDiscovery Status Api Reload App Main.
From S2P Require Import Threads Actions Awaits SameCode Guarantee Startup System Access Calm.
Open Scope string_scope.
Open Scope list_scope.

(** ** The events of a stream, as the listener finds them one chunk at a time *)
Section reading.
Context `{!Os, !Http, !Serde}.

(** The events of the bytes that are left, with a line and data that are open *)
Definition reading (line data rest : string) : list string :=
  sse_events data (sse_lines (split_char LF (line +:+ rest))).

Lemma feed_line_reading line data ls :
  sse_events data (line :: ls) =
  (let '(events, data) := feed_line (from_utf8_or_empty line) data in events ++ sse_events data ls).
Proof.
  cbn [sse_events]. unfold feed_line. destruct (is_empty (from_utf8_or_empty line)).
  - by destruct (is_empty data).
  - destruct (starts_with ":" _); [done|]. by destruct (strip_prefix "data:" _).
Qed.
Lemma feed_reading bytes line data rest :
  LF ∉ String.list_ascii_of_string line →
  let '(events, (line', data')) := feed (String.list_ascii_of_string bytes) line data in
  (LF ∉ String.list_ascii_of_string line') ∧
  reading line data (bytes +:+ rest) = events ++ reading line' data' rest.
Proof.
  revert line data. induction bytes as [|c bytes IH]; intros line data Hl; [done|].
  cbn [String.list_ascii_of_string feed]. destruct (decide (c = LF)) as [->|Hc].
  - destruct (feed_line _ data) as [events data1] eqn:Hf.
    specialize (IH "" data1 (not_elem_of_nil _)).
    destruct (feed _ "" data1) as [more [line' data']]. destruct IH as [Hl' IH]. split; [done|].
    unfold reading at 1. cbn [String.append].
    rewrite split_char_app, sse_lines_cons, feed_line_reading, Hf by (done || apply split_char_not_nil).
    cbn [fst snd]. rewrite <- (assoc_L (++)). f_equal. exact IH.
  - specialize (IH (line +:+ String c "") data).
    destruct (feed _ (line +:+ String c "") data) as [events [line' data']].
    destruct IH as [Hl' IH].
    { rewrite list_ascii_app, not_elem_of_app. split; [done|]. cbn.
      apply not_elem_of_cons. split; [congruence|apply not_elem_of_nil]. }
    split; [done|]. rewrite <- IH. unfold reading. by rewrite str_app_assoc.
Qed.
Lemma feed_end_reading line data :
  LF ∉ String.list_ascii_of_string line → feed_end line data = reading line data "".
Proof.
  intros Hl. unfold feed_end, reading. rewrite str_app_nil_r, split_char_nil by done.
  cbn [sse_lines]. destruct (is_empty line); [cbn; by case_match|].
  rewrite feed_line_reading. destruct (feed_line _ data) as [events data']. cbn. by case_match.
Qed.

(** The bytes that come in before the first error *)
Fixpoint received (chunks : list (result string string)) : string :=
  match chunks with
  | Ok bytes :: chunks => bytes +:+ received chunks
  | _ => ""
  end.
(** What the leaf has to say: the notifications in the answer to the listener's request *)
Definition notification (leaf payload : string) : list Value :=
  match from_str payload with Ok v => [annotate leaf v] | Err _ => [] end.
Definition notifications (leaf : string) (response : HttpResponse) : list Value :=
  reading "" "" (received (hp_chunks response)) ≫= notification leaf.
End reading.

(** ** Events *)
Inductive Event : Type :=
| EBroker (o : op)
| ESession (t : Z) (c : Call) (a : Answer)
| ELimit (t : Z) (client : string) (ok : bool).
Definition broker_op (e : Event) : option op := match e with EBroker o => Some o | _ => None end.
Definition session_call (e : Event) : option (Z * Call * Answer) :=
  match e with ESession t c a => Some (t, c, a) | _ => None end.

(** Which of a few events it is *)
Ltac among H :=
  repeat (apply elem_of_cons in H as [H|H]); try discriminate; try (by apply not_elem_of_nil in H).

(** What the threads share *)
Record Shared := {
  sh_broker : NotificationBroker;
  sh_sessions : SessionManager;
  sh_limiter : RateLimiter;
}.

Section history.
Context `{!Os, !Http, !Serde, !MapOrder, !Unicode, !Jwt, !HeaderValue, !Axum, !Kube, !Dig, !Yaml}.

Definition shared (s : FederationState) : Shared :=
  {| sh_broker := w_broker (st_world s); sh_sessions := st_sessions s; sh_limiter := st_limiter s |}.

Definition effect (e : Event) (x : Shared) : Shared :=
  match e with
  | EBroker o => {| sh_broker := apply_op o (sh_broker x); sh_sessions := sh_sessions x;
                    sh_limiter := sh_limiter x |}
  | ESession t c _ => {| sh_broker := sh_broker x; sh_sessions := (perform t c (sh_sessions x)).2;
                         sh_limiter := sh_limiter x |}
  | ELimit t client _ => {| sh_broker := sh_broker x; sh_sessions := sh_sessions x;
                            sh_limiter := (check t t client (sh_limiter x)).2 |}
  end.
(** A call is made at its time and gets its answer. *)
Definition truthful (t : Z) (e : Event) (x : Shared) : Prop :=
  match e with
  | EBroker _ => True
  | ESession t' c a => t' = t ∧ a = (perform t c (sh_sessions x)).1
  | ELimit t' client ok => t' = t ∧ ok = (check t t client (sh_limiter x)).1
  end.
Fixpoint recounts (t : Z) (x : Shared) (es : list Event) (x' : Shared) : Prop :=
  match es with
  | [] => x' = x
  | e :: es => truthful t e x ∧ recounts t (effect e x) es x'
  end.
(** What a part does to the broker and to the sessions *)
Definition does (s s' : FederationState) (es : list Event) : Prop :=
  (clock s ≤ clock s')%Z ∧ recounts (clock s) (shared s) es (shared s').

(** ** What a thread may tell *)

(** A request of the endpoint that checks a session *)
Definition checks (rq : HttpRequestIn) (sid : string) : Prop :=
  extract_session_id (in_headers rq) = Some sid ∧
  (is_get (in_method rq) = true ∨
   in_method rq = "POST" ∧
   ∃ request, json_rpc_body rq = Ok request ∧ rq_method request ≠ "initialize").
(** What a POST tells before it gives its name to the rate limiter: nothing when it carries no
    session or opens one, and otherwise that its session is valid and used *)
Inductive checked_in (rq : HttpRequestIn) : list Event → Prop :=
| in_without request :
    json_rpc_body rq = Ok request →
    rq_method request = "initialize" ∨ extract_session_id (in_headers rq) = None →
    checked_in rq []
| in_with t t' sid :
    checks rq sid →
    checked_in rq [ESession t (CCheck sid) (Said true); ESession t' (CTouch sid) Silent].
Inductive endpoint_tells (rq : HttpRequestIn) (client : string) : list Event → Prop :=
| tells_check t sid (b : bool) :
    checks rq sid → endpoint_tells rq client [ESession t (CCheck sid) (Said b)]
| tells_use t t' sid :
    checks rq sid →
    endpoint_tells rq client [ESession t (CCheck sid) (Said true); ESession t' (CTouch sid) Silent]
| tells_rate es t (ok : bool) :
    in_method rq = "POST" → checked_in rq es → endpoint_tells rq client (es ++ [ELimit t client ok])
| tells_opening request t t' sub info id :
    in_method rq = "POST" → json_rpc_body rq = Ok request → rq_method request = "initialize" →
    endpoint_tells rq client [ELimit t client true; ESession t' (COpen sub info) (Opened id)]
| tells_level request t t' t1 t'' sid lv (found : bool) :
    checks rq sid → in_method rq = "POST" → json_rpc_body rq = Ok request →
    rq_method request = "logging/setLevel" → get_str "level" (rq_params request) = Some lv →
    endpoint_tells rq client
      [ESession t (CCheck sid) (Said true); ESession t' (CTouch sid) Silent; ELimit t1 client true;
       ESession t'' (CSetLevel sid lv) (Said found)]
| tells_subscription t t' sid id :
    checks rq sid → is_get (in_method rq) = true →
    endpoint_tells rq client
      [ESession t (CCheck sid) (Said true); ESession t' (CTouch sid) Silent; EBroker (OSubscribe id)]
| tells_end t sid (found : bool) :
    in_method rq = "DELETE" → extract_session_id (in_headers rq) = Some sid →
    endpoint_tells rq client [ESession t (CTerminate sid) (Said found)].
(** The client is named after the credentials that the gate accepted. *)
Definition request_tells (g : Settings) (rq : HttpRequestIn) (es : list Event) : Prop :=
  es = [] ∨
  ∃ t ctx, verdict g rq t = Forward ctx ∧ in_uri_path rq = "/mcp" ∧
    endpoint_tells rq (client_label (default anonymous ctx)) es.

(** The listener of a leaf publishes the notifications of one answer in their order, each
    once, with the name of its leaf; it may not have come to the end. *)
Definition listener_tells (l : nat) (es : list Event) (w : World) : Prop :=
  es = [] ∨
  ∃ e c t env response,
    w_heap w !! l = Some e ∧ same_leaf c (le_client e) ∧
    (send (lc_http c) (stream_request t c) env).1 = Ok response ∧
    is_success (hp_status response) = true ∧
    es `prefix_of` (EBroker ∘ OPublish) <$> notifications (lc_alias (le_client e)) response.

Definition told (g : Settings) (a : SystemAction) (es : list Event) (s : FederationState) : Prop :=
  match a with
  | ARequest rq => request_tells g rq es
  | ATask _ (TListen l) _ => listener_tells l es (st_world s)
  | AStreamNext rx => es = [] ∨ es = [EBroker (ORecv rx)]
  | AStreamDrop rx sub_id => es = [] ∨ es = [EBroker (ODrop rx); EBroker (OUnsubscribe sub_id)]
  | APrune => es = [] ∨ ∃ t, es = [ESession t CPrune Silent]
  | _ => es = []
  end.
Lemma told_nothing g a s : told g a [] s.
Proof. destruct a as [| | |before [] after| | | | | | | |]; cbn; first [done|by left]. Qed.
Lemma told_lasting g a : lasting (λ s, sound (st_world s)) (on_state persists) (told g a).
Proof.
  intros es s s' Ht _ _ Hp. destruct a as [| | |before [l|l keep report|l] after| | | | | | | |];
    try exact Ht.
  destruct Ht as [->|(e & c & t & env & response & He & Hc & Hrest)]; [by left|right].
  destruct (Hp l e He) as (e' & He' & _ & Hcl & _). exists e', c, t, env, response.
  split; [done|]. split; [by etrans|]. rewrite Hcl. exact Hrest.
Qed.

(** What only a request to the endpoint tells *)
Definition of_request (e : Event) : bool :=
  match e with
  | EBroker (OSubscribe _) | ELimit _ _ _ => true
  | ESession _ c _ => if c is CPrune then false else true
  | _ => false
  end.
Lemma told_request g a es s e :
  told g a es s → e ∈ es → of_request e = true →
  ∃ rq t ctx, a = ARequest rq ∧ verdict g rq t = Forward ctx ∧ in_uri_path rq = "/mcp" ∧
    endpoint_tells rq (client_label (default anonymous ctx)) es.
Proof.
  intros Ht Hin He. assert (∀ es', Forall (λ e, of_request e = false) es' → e ∈ es' → False) as Hno.
  { intros es' Hf Hin'. rewrite Forall_forall in Hf. by rewrite (Hf e Hin') in He. }
  destruct a as [|rq| |before [l|l keep report|l] after| | | | |rx|rx sub_id| |]; cbn in Ht;
    try (by subst; apply not_elem_of_nil in Hin).
  - destruct Ht as [->|(t & ctx & Ht)]; [by apply not_elem_of_nil in Hin|]. by exists rq, t, ctx.
  - exfalso. destruct Ht as [->|(x & c & t' & env & response & _ & _ & _ & _ & rest & Hr)];
      [by apply not_elem_of_nil in Hin|].
    eapply Hno; [|apply elem_of_app; left; exact Hin]. rewrite <- Hr.
    apply Forall_fmap, Forall_forall. by intros v _.
  - exfalso. destruct Ht as [-> | ->]; (eapply Hno; [|exact Hin]); by repeat constructor.
  - exfalso. destruct Ht as [-> | ->]; (eapply Hno; [|exact Hin]); by repeat constructor.
  - exfalso. destruct Ht as [->|[t' ->]]; (eapply Hno; [|exact Hin]); by repeat constructor.
Qed.

(** ** The threads tell no more *)
Definition deed (s s' : FederationState) (es : list Event) : Prop :=
  does s s' es ∧ (named (st_world s) → named (st_world s')).
Lemma calm_deed s s' : calm_s s s' → deed s s' [].
Proof.
  intros ((Hb & Ht & Hn) & Hs & Hl). split; [|done]. split; [done|]. unfold shared. cbn.
  by rewrite Hb, Hs, Hl.
Qed.
Notation sound_s := (λ s, sound (st_world s)).
Notation tells p Q s := (narrates sound_s (on_state persists) deed p Q s).
Notation silent p := (everywhere sound_s (on_state persists) (λ s s', deed s s' []) p).

Lemma calm_silent {A} (p : Proc FederationState A) : calm_thread_s p → silent p.
Proof.
  intros Hp. apply (everywhere_mono (λ _, True) _ (λ _ _, True) _ calm_s); [done..| |].
  - intros s s' _. apply calm_deed.
  - by apply safely_everywhere.
Qed.
(** A part that tells something *)
Lemma tells_part {A B} (m : M FederationState B) (k : B → Proc FederationState A) Q :
  (∀ s, Q [] s) →
  (∀ s, ∃ es, deed s (m s).2 es ∧ ∀ s', tells (k (m s).1) (λ more, Q (es ++ more)) s') →
  ∀ s, tells (Atomic m k) Q s.
Proof.
  intros HQ Hm s. split; [done|]. intros s' _ _. destruct (Hm s') as (es & Hd & Hk). eauto.
Qed.

(** *** Sessions *)
Lemma session_deed {A} (m : SessionManager → A * SessionManager) c s :
  (perform (clock s) c (st_sessions s)).2 = (m (st_sessions s)).2 →
  deed s (with_sessions_of m s).2 [ESession (clock s) c (perform (clock s) c (st_sessions s)).1].
Proof.
  intros Hm. unfold with_sessions_of, lift_state. destruct (m (st_sessions s)) as [a m'].
  split; [|done]. split; [done|]. split; [by split|].
  change (shared (set_sessions m' s) =
    {| sh_broker := w_broker (st_world s); sh_sessions := (perform (clock s) c (st_sessions s)).2;
       sh_limiter := st_limiter s |}). by rewrite Hm.
Qed.

Section requests.
Context (W : list Event → Prop) (W_nil : W []).
Notation says p := (∀ es, W es → ∀ s, tells p (λ more _, W (es ++ more)) s).
Notation wit es := (λ more (_ : FederationState), W (es ++ more)).

Lemma admit_tells {B} sid (k : bool → Proc FederationState B) :
  (∀ t b, W [ESession t (CCheck sid) (Said b)]) →
  (∀ t t', W [ESession t (CCheck sid) (Said true); ESession t' (CTouch sid) Silent]) →
  (∀ t s, tells (k false) (wit [ESession t (CCheck sid) (Said false)]) s) →
  (∀ t t' s, tells (k true)
     (wit [ESession t (CCheck sid) (Said true); ESession t' (CTouch sid) Silent]) s) →
  ∀ s, tells (p_admit_session (Some sid) ≫= k) (λ es _, W es) s.
Proof.
  intros Hc Hu Hf Ht. unfold p_admit_session. apply tells_part; [done|]. intros s1.
  exists [ESession (clock s1) (CCheck sid) (Said (validate_session (clock s1) (clock s1) sid (st_sessions s1)))].
  split; [by repeat split|]. cbn [fst m_gets]. destruct (validate_session _ _ _ _); [|apply Hf].
  apply tells_part; [intros; apply Hc|]. intros s2.
  exists [ESession (clock s2) (CTouch sid) Silent]. split; [by repeat split|]. cbn [fst]. apply Ht.
Qed.

Lemma says_more {A} (p : Proc FederationState A) es es' s :
  tells p (wit (es ++ es')) s → tells p (λ more s, wit es (es' ++ more) s) s.
Proof. apply narrates_mono. intros more _. by rewrite (assoc_L (++)). Qed.
Lemma silent_tells {A B} es (p : Proc FederationState A) (k : A → Proc FederationState B) :
  W es → calm_thread_s p → (∀ a s, tells (k a) (wit es) s) → ∀ s, tells (p ≫= k) (wit es) s.
Proof.
  intros He Hp Hk. apply narrates_then; [by rewrite app_nil_r|by apply calm_silent|done].
Qed.

Lemma set_level_tells {B} es request session (k : JsonRpcResponse → Proc FederationState B) :
  W es →
  (∀ sid lv, session = Some sid → get_str "level" (rq_params request) = Some lv →
     ∀ t found r s, tells (k r) (wit (es ++ [ESession t (CSetLevel sid lv) (Said found)])) s) →
  (∀ r s, tells (k r) (wit es) s) →
  ∀ s, tells (Atomic (handle_logging_set_level request session) k) (wit es) s.
Proof.
  intros He Hset Hk. apply tells_part; [by rewrite app_nil_r|]. intros s.
  assert (∀ r, ∃ es', deed s s es' ∧ ∀ s', tells (k r) (λ more s, wit es (es' ++ more) s) s') as Hno.
  { intros r. exists []. split; [by apply calm_deed|]. intros s'. apply Hk. }
  unfold handle_logging_set_level. destruct (get_str "level" _) as [lv|] eqn:Hlv; [|apply Hno].
  destruct (bool_decide _); [|apply Hno]. destruct session as [sid|]; [|apply Hno].
  run_m. pose proof (session_deed (set_log_level sid lv) (CSetLevel sid lv) s) as Hd. cbn [perform] in Hd.
  exists [ESession (clock s) (CSetLevel sid lv) (Said (set_log_level sid lv (st_sessions s)).1)].
  unfold with_sessions_of, lift_state in *. destruct (set_log_level _ _ _) as [found m]. cbn [fst snd] in *.
  split; [by apply Hd|]. intros s'. by apply says_more, Hset.
Qed.
Lemma dispatch_tells {B} es request session ctx (k : JsonRpcResponse → Proc FederationState B) :
  W es →
  (∀ sid lv, session = Some sid → rq_method request = "logging/setLevel" →
     get_str "level" (rq_params request) = Some lv →
     ∀ t found r s, tells (k r) (wit (es ++ [ESession t (CSetLevel sid lv) (Said found)])) s) →
  (∀ r s, tells (k r) (wit es) s) →
  ∀ s, tells (p_dispatch request session ctx ≫= k) (wit es) s.
Proof.
  intros He Hset Hk s.
  change (tells (atom (in_env fresh_uuid) ≫= λ _, p_dispatch_method request session ctx ≫= k)
            (wit es) s).
  revert s. apply silent_tells; [done|auto with well|]. intros _.
  destruct (decide (rq_method request = "logging/setLevel")) as [Hm|Hm];
    [|apply silent_tells; auto with well].
  unfold p_dispatch_method, dispatch_method. cbv zeta. rewrite Hm. by apply set_level_tells; eauto.
Qed.
End requests.

(** *** The endpoint *)
Section endpoint.
Context (rq : HttpRequestIn) (client : string).
Definition V (es : list Event) : Prop := es = [] ∨ endpoint_tells rq client es.
Notation wit es := (λ more (_ : FederationState), V (es ++ more)).
Hint Constructors endpoint_tells checked_in : core.
Hint Unfold V : core.

Ltac ends := intros; split; [rewrite ?app_nil_r; solve [eauto]|done].

Lemma V_nil : V [].
Proof. by left. Qed.
Lemma done_tells {A} es (a : A) : V es → ∀ s, tells (Done a) (wit es) s.
Proof. intros He s. split; [by rewrite app_nil_r|done]. Qed.
Hint Resolve V_nil done_tells : core.

Lemma origin_tells headers (p : Proc FederationState Reply) :
  (∀ s, tells p (wit []) s) → ∀ s, tells (p_check_origin headers p) (wit []) s.
Proof.
  intros Hp. unfold p_check_origin. apply silent_tells; [done|auto with well|].
  intros [|]; [done|]. by apply done_tells.
Qed.
Lemma limit_tells {B} es ctx (k : bool → Proc FederationState B) :
  client_label ctx = client → in_method rq = "POST" → checked_in rq es → V es →
  (∀ t s, tells (k true) (wit (es ++ [ELimit t client false])) s) →
  (∀ t s, tells (k false) (wit (es ++ [ELimit t client true])) s) →
  ∀ s, tells (atom (rate_limited ctx) ≫= k) (wit es) s.
Proof.
  intros Hc Hm Hin He Hf Ht s. change (tells (Atomic (rate_limited ctx) k) (wit es) s). revert s.
  apply tells_part; [by rewrite app_nil_r|]. intros s.
  exists [ELimit (clock s) client (check (clock s) (clock s) client (st_limiter s)).1].
  unfold rate_limited, lift_state. rewrite Hc. run_m.
  destruct (check (clock s) (clock s) client (st_limiter s)) as [ok lim] eqn:Hck. cbn [fst snd]. split.
  - split; [|done]. split; [done|]. cbn [recounts effect truthful shared sh_limiter]. rewrite Hck. by repeat split.
  - intros s'. destruct ok; cbn [negb]; by apply says_more.
Qed.
Lemma open_tells {B} request response t (k : string → Proc FederationState B) :
  in_method rq = "POST" → json_rpc_body rq = Ok request → rq_method request = "initialize" →
  (∀ es id s, V es → tells (k id) (wit es) s) →
  ∀ s, tells (p_open_session response ≫= k) (wit [ELimit t client true]) s.
Proof.
  intros Hm Hb Hi Hk s.
  assert (V [ELimit t client true]) as HV.
  { right. apply (tells_rate rq client []); [done|]. by apply in_without with request; [|left]. }
  change (tells (atom (in_env fresh_uuid) ≫= λ sub, Atomic (λ s, with_sessions_of
    (create_session (clock s) (clock s) sub (extract_client_info response)) s) k)
    (wit [ELimit t client true]) s).
  revert s. apply silent_tells; [done|auto with well|]. intros sub. apply tells_part; [by rewrite app_nil_r|].
  intros s. eexists. split.
  - apply (session_deed _ (COpen sub (extract_client_info response))). cbn [perform].
    by destruct (create_session _ _ _ _ _).
  - intros s'. apply says_more. apply Hk. right. cbn [perform app]. destruct (create_session _ _ _ _ _).
    by apply tells_opening with request.
Qed.

Lemma post_tells ctx request :
  client_label (default anonymous ctx) = client →
  in_method rq = "POST" → json_rpc_body rq = Ok request →
  ∀ s, tells (p_handle_mcp (in_headers rq) ctx request) (wit []) s.
Proof.
  intros Hl Hm Hb. apply origin_tells. cbv zeta. case_bool_decide as Hi.
  - assert (checked_in rq []) as Hin by (by apply in_without with request; [|left]).
    apply limit_tells; [done..|by left| |]; [ends|]. intros t. cbn [app].
    apply (dispatch_tells V); [right; by apply (tells_rate rq client [])|by rewrite Hi|].
    intros r. case_bool_decide; cbn [andb].
    + intros s. by apply open_tells with request; auto.
    + intros s. split; [|done]. right. by apply (tells_rate rq client []).
  - destruct (extract_session_id (in_headers rq)) as [sid|] eqn:Hsid.
    + assert (checks rq sid) as Hc by (split; [done|]; right; eauto).
      apply (admit_tells V); [by left|auto..|].
      * ends.
      * intros t t'. assert (checked_in rq [ESession t (CCheck sid) (Said true);
          ESession t' (CTouch sid) Silent]) as Hin by auto.
        apply limit_tells; [done..|right; auto| |].
        { intros t1 s. split; [|done]. right. rewrite app_nil_r. by apply tells_rate. }
        intros t1. apply (dispatch_tells V); [right; by apply tells_rate| |].
        -- intros ? lv [= <-] Hlevel Hlv t'' found r s. apply done_tells. right.
           by apply tells_level with request.
        -- intros r s. apply done_tells. right. by apply tells_rate.
    + assert (checked_in rq []) as Hin by (by apply in_without with request; [|right]).
      apply limit_tells; [done..|by left| |].
      { intros t s. split; [|done]. right. by apply (tells_rate rq client []). }
      intros t. apply (dispatch_tells V); [right; by apply (tells_rate rq client [])|done|].
      intros r s. apply done_tells. right. by apply (tells_rate rq client []).
Qed.
Lemma get_tells :
  is_get (in_method rq) = true → ∀ s, tells (p_get_mcp (in_headers rq)) (wit []) s.
Proof.
  intros Hm. apply origin_tells.
  destruct (extract_session_id (in_headers rq)) as [sid|] eqn:Hsid; [|ends].
  assert (checks rq sid) as Hc by (split; auto).
  apply (admit_tells V); [by left|auto..|].
  - ends.
  - intros t t'. apply silent_tells; [auto|auto with well|]. intros id.
    apply tells_part; [intros s; rewrite app_nil_r; auto|].
    intros s. exists [EBroker (OSubscribe id)]. split.
    + by repeat split.
    + intros s'. split; [right; by apply tells_subscription|done].
Qed.
Lemma route_tells ctx :
  client_label (default anonymous ctx) = client → in_uri_path rq = "/mcp" → ∀ s, tells (p_route ctx rq) (wit []) s.
Proof.
  intros Hl Hp. unfold p_route. cbv zeta. rewrite decide_True by done.
  unfold p_mcp_route, p_extracted, p_answer. case_decide as Hm; [|destruct (is_get _) eqn:Hg].
  - destruct (json_rpc_body rq) as [request|r] eqn:Hb; [|ends].
    intros s. by apply narrates_map, post_tells.
  - intros s. by apply narrates_map, get_tells.
  - apply tells_part; [done|]. intros s. unfold mcp_route. rewrite decide_False, Hg by done.
    unfold answer, delete_mcp, check_origin, unrouted.
    assert (∀ r : option Reply, ∃ es, deed s s es ∧ ∀ s', tells (Done r) (wit es) s') as Hno.
    { intros r. exists []. split; [by apply calm_deed|]. by apply done_tells. }
    case_decide as Hd; [|apply Hno]. run_m. destruct (origin_allowed _ _); [|apply Hno].
    destruct (extract_session_id _) as [sid|] eqn:Hsid; [|apply Hno].
    pose proof (session_deed (terminate_session sid) (CTerminate sid) s eq_refl) as Hdeed.
    eexists. split; [exact Hdeed|]. intros s'. apply done_tells. right. cbn. eauto.
Qed.
End endpoint.

(** *** Listeners *)
Definition deed_w (w w' : World) (es : list Event) : Prop :=
  (wnow w ≤ wnow w')%Z ∧ (named w → named w') ∧
  ∃ os, es = EBroker <$> os ∧ w_broker w' = foldl (λ b o, apply_op o b) (w_broker w) os.
Lemma recounts_ops t os b m lim :
  recounts t {| sh_broker := b; sh_sessions := m; sh_limiter := lim |} (EBroker <$> os)
    {| sh_broker := foldl (λ b o, apply_op o b) b os; sh_sessions := m; sh_limiter := lim |}.
Proof. revert b. induction os as [|o os IH]; intros b; [done|]. split; [done|]. apply IH. Qed.
Lemma deed_in_world {A} (m : M World A) s es :
  deed_w (st_world s) (m (st_world s)).2 es → deed s (in_world m s).2 es.
Proof.
  unfold in_world, lift_state. destruct (m (st_world s)) as [a w]. intros (Ht & Hn & os & -> & Hb).
  split; [|done]. split; [done|]. unfold shared. cbn. cbn in Hb. rewrite Hb. apply recounts_ops.
Qed.
Lemma calm_deed_w w w' : calm w w' → deed_w w w' [].
Proof. intros (Hb & Ht & Hn). split_and!; [done..|]. by exists []. Qed.

Section listener.
Context (l : nat).
Notation tells_w p Q w := (narrates sound persists deed_w p Q w).

(** The client of the leaf, but for its session *)
Definition client_of (c : LeafClient) (w : World) : Prop :=
  ∃ e, w_heap w !! l = Some e ∧ same_leaf c (le_client e).
Lemma client_of_lasts c w w' : client_of c w → persists w w' → client_of c w'.
Proof.
  intros (e & He & Hc) Hp. destruct (Hp l e He) as (e' & He' & _ & Hcl & _).
  exists e'. split; [done|by etrans].
Qed.

(** The events of a list of notifications *)
Definition publications (vs : list Value) : list Event := (EBroker ∘ OPublish) <$> vs.
Lemma dispatch_deed leaf payload w :
  deed_w w (in_broker (λ b, (tt, dispatch_event leaf payload b)) w).2
    (publications (notification leaf payload)).
Proof.
  split_and!; [done..|]. exists (OPublish <$> notification leaf payload).
  unfold publications. rewrite list_fmap_compose. split; [done|].
  unfold in_broker, lift_state, dispatch_event, notification. cbn. by destruct (from_str payload).
Qed.

Lemma publishing_tells leaf whole c {B} (k : Proc World B) events before :
  (∀ w, client_of c w →
     tells_w k (λ es w, client_of c w ∧
       before ++ publications (events ≫= notification leaf) ++ es `prefix_of` whole) w) →
  before ++ publications (events ≫= notification leaf) `prefix_of` whole →
  ∀ w, client_of c w →
    tells_w (p_dispatch_events leaf events ≫= λ _, k)
      (λ es w, client_of c w ∧ before ++ es `prefix_of` whole) w.
Proof.
  revert before. induction events as [|payload events IH]; intros before Hk Hw; [exact Hk|].
  rewrite bind_cons in Hk, Hw. unfold publications in Hk, Hw. rewrite fmap_app in Hk, Hw.
  fold (publications (notification leaf payload)) in Hk, Hw.
  fold (publications (events ≫= notification leaf)) in Hk, Hw.
  apply (narrates_part _ _ _ (client_of c)).
  - intros w w' Hc _. by apply client_of_lasts.
  - intros w Hc. split; [done|]. rewrite app_nil_r. by eapply prefix_app_l.
  - intros w _ Hc. eexists. split; [apply dispatch_deed|].
    eapply narrates_mono; [|apply (IH (before ++ publications (notification leaf payload)))].
    + intros es w'. by rewrite (assoc_L (++)).
    + intros w' Hc'. eapply narrates_mono; [|by apply Hk].
      intros es w2. cbn beta. by rewrite <- !(assoc_L (++)).
    + by rewrite <- (assoc_L (++)).
    + done.
Qed.
Lemma stream_tells leaf whole c chunks line data before :
  LF ∉ String.list_ascii_of_string line →
  before ++ publications (reading line data (received chunks) ≫= notification leaf) `prefix_of` whole →
  ∀ w, client_of c w →
    tells_w (p_stream leaf chunks line data) (λ es w, client_of c w ∧ before ++ es `prefix_of` whole) w.
Proof.
  revert line data before. induction chunks as [|[bytes|err] chunks IH]; intros line data before Hl Hw.
  - cbn [p_stream received] in *. rewrite <- feed_end_reading in Hw by done. intros w Hc.
    apply (narrates_map _ _ _ _ (λ _, tt)).
    apply (publishing_tells leaf whole c (Done tt)); [|done..].
    intros w' Hc'. split; [|done]. by rewrite app_nil_r.
  - cbn [p_stream received] in *. pose proof (feed_reading bytes line data (received chunks) Hl) as Hf.
    destruct (feed _ line data) as [events [line' data']]. destruct Hf as [Hl' Hf].
    rewrite Hf, bind_app in Hw. unfold publications in Hw. rewrite fmap_app in Hw.
    fold (publications (events ≫= notification leaf)) in Hw.
    apply publishing_tells; [|rewrite (assoc_L (++)) in Hw; by eapply prefix_app_l].
    intros w Hc. eapply narrates_mono; [|apply (IH line' data' (before ++ publications (events ≫= notification leaf)))].
    + intros es w'. cbn beta. by rewrite <- (assoc_L (++)).
    + done.
    + by rewrite <- (assoc_L (++)).
    + done.
  - intros w Hc. split; [|done]. split; [done|]. rewrite app_nil_r. by eapply prefix_app_l.
Qed.

Lemma client_of_on {A} (m : M (LeafClient * Env) A) c w :
  obeys (λ _, True) client_step m → client_of c w → client_of c (on_client l m w).2.
Proof.
  intros Hm (e & He & Hc). destruct (Hm (le_client (entry l w), w_env w) I) as [_ [Hs _]].
  rewrite (entry_lookup _ _ _ He) in Hs. unfold on_client. rewrite (entry_lookup _ _ _ He).
  destruct (m _) as [a [c' env]]. exists (set_client c' e). cbn. rewrite lookup_alter_eq, He.
  split; [done|]. by etrans.
Qed.
Lemma same_leaf_alias c c' : same_leaf c c' → lc_alias c' = lc_alias c.
Proof. intros ->. by destruct c. Qed.

Lemma answer_tells c t w :
  client_of c w →
  let '(r, w') := on_client l (stream_at t) w in
  tells_w (match r with
           | Ok response =>
               if is_success (hp_status response)
               then p_stream (lc_alias c) (hp_chunks response) "" "" else Done tt
           | Err _ => Done tt
           end) (listener_tells l) w'.
Proof.
  intros (e & He & Hc). unfold on_client, stream_at. rewrite (entry_lookup _ _ _ He).
  set (c' := le_client e). destruct (send (lc_http c') (stream_request t c') (w_env w)) as [r env] eqn:Hs.
  destruct r as [response|err]; [|by split; [left|]].
  destruct (is_success _) eqn:Hok; [|by split; [left|]].
  eapply narrates_mono;
    [|apply (stream_tells (lc_alias c) (publications (notifications (lc_alias c) response)) c' _ _ _ [])].
  - intros es w' [(e' & He' & Hc') Hes]. right. exists e', c', t, (w_env w), response. rewrite Hs.
    assert (lc_alias (le_client e') = lc_alias c) as ->; [|done].
    rewrite (same_leaf_alias _ _ Hc'). exact (same_leaf_alias _ _ Hc).
  - apply not_elem_of_nil.
  - done.
  - exists (set_client c' e). cbn. by rewrite lookup_alter_eq, He.
Qed.
Lemma listener_thread_tells w :
  has l w → tells_w (p_run_listener l) (listener_tells l) w.
Proof.
  intros [e0 He0]. split; [by left|]. intros w1 _ Hp. exists []. split; [by apply calm_deed_w|].
  destruct (Hp l e0 He0) as (e1 & He1 & _). cbn [m_gets fst snd].
  rewrite (entry_lookup _ _ _ He1). set (c := le_client e1).
  assert (∀ w w', client_of c w → sound w' → persists w w' → client_of c w') as Hlast
    by (intros ? ? ? _; by apply client_of_lasts).
  apply (narrates_part _ _ _ (client_of c)); [done|by left| |by exists e1].
  intros w2 _ Hc. exists [].
  assert (obeys (λ _, True) client_step (m_gets (λ s : LeafClient * Env, now s.2))) as Hnow
    by (apply obeys_gets, _).
  split; [by apply calm_deed_w, (on_client_calm l)|].
  apply (narrates_part _ _ _ (client_of c)); [done|by left| |by apply client_of_on].
  intros w3 _ Hc3. exists []. pose proof (stream_at_part (on_client l (m_gets (λ s, now s.2)) w2).1) as Hst.
  split; [by apply calm_deed_w, (on_client_calm l)|].
  pose proof (answer_tells c (on_client l (m_gets (λ s, now s.2)) w2).1 w3 Hc3) as Ha.
  by destruct (on_client l (stream_at _) w3) as [r w4].
Qed.
End listener.

(** *** Every action *)
Section actions.
Context (g : Settings).

Lemma request_thread_tells rq s : tells (p_app (g_auth g) rq) (λ es _, request_tells g rq es) s.
Proof.
  unfold p_app. case_decide.
  { apply narrates_silent; [by left|]. apply calm_silent. unfold unrouted. auto with well. }
  revert s. apply narrates_then; [by left|apply calm_silent; auto with well|]. intros t s.
  fold (presented rq). destruct (auth_middleware t (g_auth g) (presented rq)) as [|ctx] eqn:Hv;
    [by split; [left|]|].
  destruct (decide (in_uri_path rq = "/mcp")) as [Hp|Hp].
  - eapply narrates_mono; [|by apply (route_tells rq (client_label (default anonymous ctx)))].
    intros es _ [He|He]; cbn in He; [by left|right]. by exists t, ctx.
  - apply narrates_silent; [by left|]. apply calm_silent. auto with well.
Qed.
Lemma line_thread_tells line s : tells (p_stdio_line line) (λ es _, es = []) s.
Proof.
  unfold p_stdio_line. destruct (is_empty _); [done|]. destruct (parse_request line) as [request|e]; [|done].
  apply (dispatch_tells (λ es, es = []) []); [done|done|]. intros r s'. done.
Qed.

(** The leaf an action works on is there, and time does not run back. *)
Definition sensible (a : SystemAction) (s : FederationState) : Prop :=
  (∀ l, action_leaf a = Some l → has l (st_world s)) ∧ (∀ d, a = APass d → 0 ≤ d)%Z.
Lemma act_tells a s : sensible a s → tells (p_act g a) (told g a) s.
Proof.
  intros [Hl Hd]. destruct a as [|rq|line|before t after|l| |obj| |rx|rx sub_id| |d]; cbn [p_act].
  - apply narrates_silent; [done|]. apply calm_silent. auto with well.
  - apply narrates_map, request_thread_tells.
  - apply narrates_map, line_thread_tells.
  - destruct t as [l|l keep report|l]; cbn [p_run_task].
    1, 2: apply narrates_silent; [done|]; apply calm_silent.
    + auto 10 with well.
    + apply p_in_world_calm. apply safely_bind; [apply _|auto with well|]. intros ok.
      destruct report; auto with well.
    + apply (narrates_focus st_world (@in_world) sound persists deed_w).
      * intros B m t. split_and!; [..|intros es; apply deed_in_world];
          unfold in_world, lift_state; by destruct (m _).
      * apply listener_thread_tells. by apply Hl.
  - apply narrates_silent; [done|]. apply calm_silent. auto 10 with well.
  - apply narrates_silent; [done|]. apply calm_silent. auto 10 with well.
  - apply narrates_silent; [done|]. apply calm_silent. auto 10 with well.
  - apply narrates_silent; [done|]. apply calm_silent. auto 10 with well.
  - clear Hl Hd. revert s. apply tells_part; [by left|]. intros s. exists [EBroker (ORecv rx)].
    split; [|by split; [right|]]. apply deed_in_world. split_and!; [done..|]. exists [ORecv rx].
    split; [done|]. cbn. unfold in_broker, stream_next, lift_state. by destruct (recv rx _).
  - clear Hl Hd. revert s. apply tells_part; [by left|]. intros s.
    exists [EBroker (ODrop rx); EBroker (OUnsubscribe sub_id)]. split; [by repeat split|by split; [right|]].
  - clear Hl Hd. revert s. apply tells_part; [by left|]. intros s.
    exists [ESession (clock s) CPrune Silent].
    split; [by apply (session_deed (λ m, (tt, (prune_expired (clock s) m).2)) CPrune)|].
    split; [right; eauto|done].
  - apply narrates_silent; [done|]. apply calm_silent, safely_atom. intros s' _. split; [done|].
    specialize (Hd d eq_refl). split; [|done]. split_and!; [done| |done]. unfold wnow. cbn. lia.
Qed.
End actions.
End history.
