(* ===== verification/Chronicle.v ===== *)
(** * Chronicle: the history of a run, each event with the thread it comes from

    What the threads of a run do to the broker, to the sessions and to the rate limiter, in
    the order in which it happens, is its chronicle.  Every reachable state has one ([has_chronicle]): the shared
    state is what the events made of it, one after the other while time goes by, and each
    thread's own events are those that History.v allows it. *)
From S2P Require Import Prelude Text Json Protocol F64 Env Config RateLimit Rbac Session.
From S2P Require Import Notifications LeafClient Scenario Registry Health Aggregator Router.
From S2P Require Import Server SessionSpec DnsDiscovery CrdDiscovery Status Api Reload App Main.
From S2P Require Import Threads Actions Awaits SameCode Guarantee Startup System Access Calm.
From S2P Require Import History.
Open Scope string_scope.
Open Scope list_scope.

Section chronicle.
Context `{!Os, !Http, !Serde, !MapOrder, !Unicode, !Jwt, !HeaderValue, !Axum, !Kube, !Dig, !Yaml}.
Notation sound_s := (λ s, sound (st_world s)).
Notation tells p Q s := (narrates sound_s (on_state persists) deed p Q s).

(** Each event with the thread it comes from, from [t] and [x] to [t'] and [x'] *)
Inductive unfolds : Z → Shared → list (nat * Event) → Z → Shared → Prop :=
| unfolds_nil t t' x : (t ≤ t')%Z → unfolds t x [] t' x
| unfolds_cons t t1 x i e h t' x' :
    (t ≤ t1)%Z → truthful t1 e x → unfolds t1 (effect e x) h t' x' →
    unfolds t x ((i, e) :: h) t' x'.
(** What the thread at position [i] did *)
Definition of_thread (i : nat) (h : list (nat * Event)) : list Event := (filter (λ ie, ie.1 = i) h).*2.

Record chronicle (g : Settings) (y0 y : System) (h : list (nat * Event)) : Prop := {
  ch_unfolds : unfolds (clock (y_state y0)) (shared (y_state y0)) h (clock (y_state y)) (shared (y_state y));
  ch_told : ∀ i a p, y_threads y !! i = Some (a, p) → told g a (of_thread i h) (y_state y);
  ch_threads : ∀ i e, (i, e) ∈ h → (i < length (y_threads y))%nat;
  ch_named : named (y_world y);
}.

Lemma unfolds_later t x h t' x' t'' : unfolds t x h t' x' → (t' ≤ t'')%Z → unfolds t x h t'' x'.
Proof. induction 1 as [t t' x|]; intros Ht; econstructor; eauto; lia. Qed.
Lemma unfolds_app t x h1 t1 x1 h2 t2 x2 :
  unfolds t x h1 t1 x1 → unfolds t1 x1 h2 t2 x2 → unfolds t x (h1 ++ h2) t2 x2.
Proof.
  induction 1 as [t t1 x Ht|]; cbn; [|econstructor; eauto].
  destruct 1 as [t1 t2 x|t1 t2 x i e h t3 x3]; [constructor; lia|].
  econstructor; [|done|done]. lia.
Qed.
Lemma recounts_unfolds i t x es x' t' :
  recounts t x es x' → (t ≤ t')%Z → unfolds t x ((i,.) <$> es) t' x'.
Proof.
  revert x. induction es as [|e es IH]; intros x; cbn; [by intros -> ?; constructor|].
  intros [He Hr] Ht. apply (unfolds_cons t t); [done|done|by apply IH].
Qed.
Lemma of_thread_app i h h' : of_thread i (h ++ h') = of_thread i h ++ of_thread i h'.
Proof. unfold of_thread. by rewrite filter_app, fmap_app. Qed.
Lemma of_thread_own i es : of_thread i ((i,.) <$> es) = es.
Proof. unfold of_thread. induction es as [|e es IH]; [done|].
  rewrite fmap_cons, filter_cons_True by done. rewrite fmap_cons. by f_equal.
Qed.
Lemma of_thread_other i j es : i ≠ j → of_thread i ((j,.) <$> es) = [].
Proof. intros Hne. unfold of_thread. induction es as [|e es IH]; [done|].
  rewrite fmap_cons, filter_cons_False by (cbn; congruence). done.
Qed.
Lemma of_thread_none i h : (∀ e, (i, e) ∉ h) → of_thread i h = [].
Proof.
  intros Hno. unfold of_thread. induction h as [|[j e] h IH]; [done|].
  rewrite filter_cons_False.
  - apply IH. intros e' Hin. apply (Hno e'). by right.
  - intros Hj. cbn in Hj. subst. apply (Hno e). left.
Qed.

(** The history so far, and what each thread may still do *)
Record telling (g : Settings) (y0 y : System) (h : list (nat * Event)) : Prop := {
  te_unfolds : unfolds (clock (y_state y0)) (shared (y_state y0)) h (clock (y_state y)) (shared (y_state y));
  te_tells : ∀ i a p, y_threads y !! i = Some (a, p) →
    tells p (λ more, told g a (of_thread i h ++ more)) (y_state y);
  te_threads : ∀ i e, (i, e) ∈ h → (i < length (y_threads y))%nat;
  te_named : named (y_world y);
}.
Lemma told_lasting_from g a es :
  lasting sound_s (on_state persists) (λ more, told g a (es ++ more)).
Proof. apply lasting_app, told_lasting. Qed.

Lemma begin_telling g y0 a y h :
  telling g y0 y h → system_wf y → system_wf (begun g a y) →
  enabled_in (y_monitors y) (y_state y) a → telling g y0 (begun g a y) h.
Proof.
  intros [Hu Ht Hi Hn] Hy Hy' Hen.
  assert (shared (accept a (y_state y)).2 = shared (y_state y) ∧
    clock (accept a (y_state y)).2 = clock (y_state y) ∧
    w_heap (st_world (accept a (y_state y)).2) = w_heap (st_world (y_state y))) as (Hs & Hc & Hh)
    by by destruct a.
  assert (on_state persists (y_state y) (accept a (y_state y)).2) as Hp.
  { intros l e He. exists e. rewrite Hh. split; [done|reflexivity]. }
  split; cbn [begun y_state y_threads].
  - by rewrite Hs, Hc.
  - intros i b p [Hb|[Hlen Hb]]%lookup_app_Some.
    + eapply narrates_interfere; [apply _|apply told_lasting_from|apply Hy|apply Hy'|exact Hp|by apply Ht].
    + apply list_lookup_singleton_Some in Hb as [Hi0 [= <- <-]].
      rewrite of_thread_none by (intros e He%Hi; lia). cbn [app]. apply act_tells. split.
      * intros l Hl. eapply (y_threads_wf _ Hy'); [|exact Hl]. cbn. apply elem_of_app. right. by left.
      * intros d ->. exact Hen.
  - intros i e He%Hi. rewrite length_app. lia.
  - unfold named, y_world. cbn. by rewrite Hh.
Qed.
Lemma resume_telling g y0 a y s ths h :
  telling g y0 y h → system_wf y → system_wf (with_threads s ths y) →
  on_state persists (y_state y) s →
  pool_step a (y_state y, y_threads y) (s, ths) →
  ∃ i es, telling g y0 (with_threads s ths y) (h ++ ((i,.) <$> es)).
Proof.
  intros [Hu Ht Hi Hn] Hy Hy' Hp Hst.
  assert (∃ c before p after p', y_threads y = before ++ (a, p) :: after ∧
    ths = before ++ (a, p') :: after ∧ resume c p (y_state y) = Some (p', s))
    as (c & before & p & after & p' & Hths & -> & Hr) by (inversion Hst; eauto 10).
  assert (y_threads y !! length before = Some (a, p)) as Hat by (rewrite Hths; by apply list_lookup_middle).
  destruct (narrates_resume sound_s (on_state persists) deed c p _ (y_state y) p' s
    (λ s, calm_deed s s (reflexivity s)) (y_sound _ Hy) (Ht _ _ _ Hat) Hr) as (es & [[Hc Hd] Hnm] & Hp').
  exists (length before), es. split; cbn [with_threads y_state y_threads].
  - eapply unfolds_app; [exact Hu|]. by apply recounts_unfolds.
  - intros i b q Hb. rewrite of_thread_app.
    destruct (decide (i = length before)) as [->|Hne].
    + rewrite list_lookup_middle in Hb by done. injection Hb as <- <-. rewrite of_thread_own.
      eapply narrates_mono; [|exact Hp']. intros more u. cbn beta. by rewrite <- (assoc_L (++)).
    + rewrite of_thread_other, app_nil_r by done.
      eapply narrates_interfere; [apply _|apply told_lasting_from|apply Hy|apply Hy'|exact Hp|].
      apply Ht. rewrite Hths. revert Hb. rewrite !lookup_app.
      destruct (before !! i) eqn:Hbi; [done|]. apply lookup_ge_None in Hbi.
      destruct (i - length before)%nat eqn:Hd'; [lia|]. done.
  - intros i e [He%Hi|He]%elem_of_app.
    + rewrite Hths in He. rewrite !length_app in *. done.
    + apply list_elem_of_fmap in He as (e' & [= -> ->] & _). rewrite length_app. cbn. lia.
  - auto.
Qed.
Lemma drop_telling g y0 y h a before p after :
  telling g y0 y h → y_threads y = before ++ (a, p) :: after →
  telling g y0 (with_threads (y_state y) (before ++ (a, Done tt) :: after) y) h.
Proof.
  intros [Hu Ht Hi Hn] Hths. rewrite Hths in Ht, Hi. split; cbn [with_threads y_state y_threads]; [done| | |done].
  - intros i b q Hb. destruct (decide (i = length before)) as [->|Hne].
    + rewrite list_lookup_middle in Hb by done. injection Hb as <- <-.
      split; [|done]. apply (narrates_now sound_s (on_state persists) deed p
        (λ more, told g a (of_thread (length before) h ++ more))), Ht. by apply list_lookup_middle.
    + apply Ht. revert Hb. rewrite !lookup_app. destruct (before !! i) eqn:Hbi; [done|].
      apply lookup_ge_None in Hbi. destruct (i - length before)%nat eqn:Hd'; [lia|]. done.
  - intros i e He%Hi. revert He. by rewrite !length_app.
Qed.
Lemma step_telling g y0 a y y' h :
  step g a y y' → system_wf y → telling g y0 y h → ∃ h', telling g y0 y' (h ++ h').
Proof.
  intros Hst Hy Ht. pose proof (step_wf _ _ _ _ Hst Hy) as Hy'.
  destruct (step_guarantee _ _ _ _ Hst Hy) as (Hp & _).
  destruct Hst as [y Hen _ _|y s ths Hst|y rq before p after -> Hths].
  - exists []. rewrite app_nil_r. by apply begin_telling.
  - destruct (resume_telling g y0 a y s ths h) as (i & es & He); eauto.
  - exists []. rewrite app_nil_r. by eapply drop_telling.
Qed.
Lemma steps_telling g y0 y y' h :
  rtc (some_step g) y y' → system_wf y → telling g y0 y h → ∃ h', telling g y0 y' (h ++ h').
Proof.
  intros Hr. revert h. induction Hr as [y|y1 y2 y3 [a Hst] _ IH]; intros h Hy Ht.
  - exists []. by rewrite app_nil_r.
  - destruct (step_telling _ _ _ _ _ _ Hst Hy Ht) as [h1 Hh1].
    destruct (IH (h ++ h1)) as [h2 Hh2]; [by eapply step_wf|done|]. exists (h1 ++ h2).
    by rewrite (assoc_L (++)).
Qed.
Lemma telling_chronicle g y0 y h : telling g y0 y h → chronicle g y0 y h.
Proof.
  intros [Hu Ht Hi Hnm]. split; [done| |done|done]. intros i a p Hp.
  pose proof (narrates_now sound_s (on_state persists) deed p
    (λ more, told g a (of_thread i h ++ more)) _ (Ht i a p Hp)) as Hn. cbn beta in Hn.
  by rewrite app_nil_r in Hn.
Qed.

(** From the start-up *)
Lemma started_named `{!Base64} cli random crd_up e r :
  starts cli random crd_up e r → named (y_world (started r)).
Proof.
  intros (cfg & _ & _ & [_ _ _ Hl Ha Hs] & _)%starts_initialized l x Hx.
  destruct (Hl l) as [a Hal]; [by exists x|].
  assert (a ∈ (Config.alias <$> servers cfg)) as (c & -> & Hc)%list_elem_of_fmap by (apply Ha; eauto).
  destruct (Hs c Hc) as (l' & Hl' & y & Hy & (Hcfg & _ & Hn) & _).
  assert (l' = l) as -> by congruence. unfold y_world in Hx. cbn in Hx.
  assert (y = x) as -> by congruence. unfold le_alias. by rewrite Hcfg.
Qed.
Lemma has_telling `{!Base64} cli random crd_up e r g y :
  starts cli random crd_up e r → rtc (some_step g) (started r) y → ∃ h, telling g (started r) y h.
Proof.
  intros Hs Hr. pose proof (started_wf _ _ _ _ _ Hs) as Hwf.
  apply (steps_telling g (started r) (started r) y []); [done|done|]. split.
  - by constructor.
  - intros i a p [Hi [= <- <-]]%list_lookup_singleton_Some. cbn [of_thread filter fmap].
    apply (act_tells g AStart). by split.
  - by intros i ev ?%not_elem_of_nil.
  - by eapply started_named.
Qed.
Lemma has_chronicle `{!Base64} cli random crd_up e r g y :
  starts cli random crd_up e r → rtc (some_step g) (started r) y → ∃ h, chronicle g (started r) y h.
Proof. intros Hs Hr. destruct (has_telling _ _ _ _ _ g y Hs Hr) as [h Ht]. exists h. by apply telling_chronicle. Qed.
End chronicle.

(** ** Runs that follow a script

    Requests that arrive when nothing is under way, the first pending task, a read
    of a stream, and so many turns of a thread. *)
Section script.
Context `{!Os, !Http, !Serde, !MapOrder, !Unicode, !Jwt, !HeaderValue, !Axum, !Kube, !Dig, !Yaml}.
Inductive Move : Type :=
| Arrives (f : FederationState → HttpRequestIn)
| Task
| Reads (rx : nat)
| Goes (i n : nat).
Definition move (g : Settings) (m : Move) (y : System) : option System :=
  match m with
  | Arrives f =>
      if forallb (λ ap, is_done ap.2) (y_threads y)
      then Some (begun g (ARequest (f (y_state y))) y) else None
  | Task => match w_tasks (y_world y) with
            | t :: ts => Some (begun g (ATask [] t ts) y)
            | [] => None
            end
  | Reads rx => Some (begun g (AStreamNext rx) y)
  | Goes i n => Some (schedule (replicate n (i, true)) y)
  end.
Fixpoint play (g : Settings) (ms : list Move) (y : System) : option System :=
  match ms with
  | [] => Some y
  | m :: ms => y ← move g m y; play g ms y
  end.
Lemma play_steps g ms y y' : play g ms y = Some y' → rtc (some_step g) y y'.
Proof.
  revert y. induction ms as [|m ms IH]; intros y; cbn; [intros [= ->]; apply rtc_refl|].
  destruct (move g m y) as [y1|] eqn:Hm; [|done]. cbn. intros Hp%IH. etrans; [|exact Hp].
  destruct m as [f| |rx|i n]; cbn in Hm.
  - destruct (forallb _ _) eqn:Hd; [|done]. injection Hm as <-. apply rtc_once.
    exists (ARequest (f (y_state y))). apply step_begin; [done..|]. intros a p _ Hin.
    exact (proj1 (forallb_forall _ _) Hd (a, p) (proj1 (list_elem_of_In _ _) Hin)).
  - destruct (w_tasks _) as [|t ts] eqn:Ht; [done|]. injection Hm as <-. apply rtc_once.
    exists (ATask [] t ts). by apply step_begin.
  - injection Hm as <-. apply rtc_once. exists (AStreamNext rx). by apply step_begin.
  - injection Hm as <-. apply schedule_steps.
Qed.
End script.

