(* ===== verification/Delivery.v ===== *)
(** * Delivery: notifications from the leaves to the clients, end to end

    A leaf's listener reads events off the answer to its request and publishes them; a
    client's stream takes what is in its channel.  In between anything else happens.  What
    the broker promises of its operations (Notifications.v) and what the threads tell
    (History.v) together say what a client receives. *)
From S2P Require Import Prelude Text Json Protocol F64 Env Config RateLimit Rbac Session.
From S2P Require Import Notifications LeafClient Scenario Registry Health Aggregator Router.
From S2P Require Import Server SessionSpec DnsDiscovery CrdDiscovery Status Api Reload App Main.
From S2P Require Import Threads Actions Awaits SameCode Guarantee Startup System Access Calm.
From S2P Require Import History Chronicle.
Open Scope string_scope.
Open Scope list_scope.

Section delivery.
Context `{!Os, !Http, !Serde, !MapOrder, !Unicode, !Jwt, !HeaderValue, !Axum, !Kube, !Dig, !Yaml}.

Definition broker_ops (h : list (nat * Event)) : list op := omap broker_op h.*2.
(** What was published, by all threads and by one *)
Definition all_published (h : list (nat * Event)) : list Value := broker_ops h ≫= published.
Definition published_by (i : nat) (h : list (nat * Event)) : list Value :=
  omap broker_op (of_thread i h) ≫= published.
(** What the reader of the channel [rx] has got *)
Definition received_from (rx : nat) (h : list (nat * Event)) : list Value :=
  (Notifications.run rx (broker_ops h) broker_new).1.

(** An answer to a request of the leaf's listener *)
Definition answers_listener (e : LeafEntry) (response : HttpResponse) : Prop :=
  is_success (hp_status response) = true ∧
  ∃ c t env, same_leaf c (le_client e) ∧
    (send (lc_http c) (stream_request t c) env).1 = Ok response.

(** *** Helpers *)
Lemma unfolds_broker t x h t' x' :
  unfolds t x h t' x' →
  sh_broker x' = foldl (λ b o, apply_op o b) (sh_broker x) (broker_ops h).
Proof. induction 1 as [|t t1 x i [o|tc c a|tl k ok] h t' x' _ _ _ IH]; [done|exact IH..]. Qed.
Lemma publications_published vs es :
  es `prefix_of` publications vs → omap broker_op es ≫= published `prefix_of` vs.
Proof.
  intros [rest Hr]. exists (omap broker_op rest ≫= published).
  rewrite <- bind_app, <- omap_app, <- Hr. clear. unfold publications.
  induction vs as [|v vs IH]; [done|]. cbn. by f_equal.
Qed.
Lemma quiet_stories g a es s :
  told g a es s → (∀ before l after, a ≠ ATask before (TListen l) after) →
  omap broker_op es ≫= published = [].
Proof.
  intros Ht Hno. destruct a as [|rq| |before [l|l keep report|l] after| | | | |rx|rx sub_id| |];
    cbn in Ht; try (by subst).
  - destruct Ht as [->|(t & ctx & _ & _ & He)]; [done|]. destruct He as [| |es' t' ok _ []| | | |]; done.
  - by destruct (Hno before l after).
  - by destruct Ht as [-> | ->].
  - by destruct Ht as [-> | ->].
  - by destruct Ht as [->|[t ->]].
Qed.

Lemma told_recv g a es s rx : told g a es s → EBroker (ORecv rx) ∈ es → a = AStreamNext rx.
Proof.
  intros Ht Hin.
  destruct a as [|rq| |before [l|l keep report|l] after| | | | |rx'|rx' sub_id| |]; cbn in Ht;
    try (by subst; apply not_elem_of_nil in Hin).
  - destruct Ht as [->|(t & ctx & _ & _ & He)]; [by apply not_elem_of_nil in Hin|].
    destruct He as [| |es' t' ok _ []| | | |]; among Hin.
  - destruct Ht as [->|(e & c & t & env & response & _ & _ & _ & _ & rest & Hr)];
      [by apply not_elem_of_nil in Hin|].
    assert (EBroker (ORecv rx) ∈ es ++ rest) as Hp by (apply elem_of_app; by left).
    rewrite <- Hr in Hp. by apply list_elem_of_fmap in Hp as (v & [=] & _).
  - destruct Ht as [-> | ->]; set_solver.
  - destruct Ht as [-> | ->]; set_solver.
  - destruct Ht as [->|[t ->]]; set_solver.
Qed.
Lemma told_listener g a es s :
  told g a es s → omap broker_op es ≫= published ≠ [] →
  ∃ before l after, a = ATask before (TListen l) after ∧ listener_tells l es (st_world s).
Proof.
  intros Ht Hne. destruct a as [| | |before [l|l keep report|l] after| | | | | | | |];
    try (destruct Hne; by eapply quiet_stories). by exists before, l, after.
Qed.

Lemma chronicle_delivers `{!Base64} cli random crd_up e r g y h :
  starts cli random crd_up e r → chronicle g (started r) y h →
  (∀ rx, received_from rx h ++ queue_of rx (w_broker (y_world y)) `sublist_of` all_published h) ∧
  (∀ i rx, (i, EBroker (ORecv rx)) ∈ h → ∃ p, y_threads y !! i = Some (AStreamNext rx, p)) ∧
  (∀ i a p, y_threads y !! i = Some (a, p) → published_by i h ≠ [] →
     ∃ before l after x response, a = ATask before (TListen l) after ∧
       w_heap (y_world y) !! l = Some x ∧ answers_listener x response ∧
       published_by i h `prefix_of` notifications (le_alias x) response).
Proof.
  intros Hs [Hu Ht Hi Hn]. split_and!.
  - intros rx. unfold received_from. apply starts_initialized in Hs as (cfg & _ & _ & [_ _ Hb _ _ _] & _).
    destruct (run_fifo (broker_ops h) broker_new rx broker_new_wf) as [_ Hfifo].
    rewrite run_state in Hfifo. apply unfolds_broker in Hu.
    assert (w_broker (y_world y) = foldl (λ b o, apply_op o b) broker_new (broker_ops h)) as Hy.
    { cbn in Hu. unfold y_world. rewrite Hu. unfold started. cbn. by rewrite Hb. }
    by rewrite <- Hy in Hfifo.
  - intros i rx Hin. destruct (lookup_lt_is_Some_2 _ _ (Hi _ _ Hin)) as [[a p] Hp].
    specialize (Ht i a p Hp).
    assert (EBroker (ORecv rx) ∈ of_thread i h) as Hev.
    { apply list_elem_of_fmap. exists (i, EBroker (ORecv rx)). split; [done|].
      by apply list_elem_of_filter. }
    exists p. by rewrite Hp, (told_recv _ _ _ _ _ Ht Hev).
  - intros i a p Hp Hne.
    destruct (told_listener _ _ _ _ (Ht i a p Hp) Hne) as (before & l & after & -> & Htell).
    destruct Htell as [He|(x & c & t & env & response & Hx & Hc & Hsend & Hok & Hpre)];
      [by destruct Hne; unfold published_by; rewrite He|].
    exists before, l, after, x, response. split; [done|]. split; [done|]. split.
    + split; [done|]. by exists c, t, env.
    + rewrite <- (Hn l x Hx). by apply publications_published.
Qed.
(** (C5) Notifications reach the clients in order, each at most once and under the name of
    the leaf it comes from, however everything interleaves.  In every reachable state there
    is a history of the run in which: what the reader of a channel has got, followed by what
    still waits in the channel, is a subsequence of what was published, in that order, of
    which only its own stream took; and only the listeners of leaves have published, each in
    order and once a prefix of the notifications in an answer of its leaf, with the leaf's
    alias written into each. *)
Theorem notifications_delivered `{!Base64} cli random crd_up e r g y :
  starts cli random crd_up e r → rtc (some_step g) (started r) y →
  ∃ h, chronicle g (started r) y h ∧
    (∀ rx, received_from rx h ++ queue_of rx (w_broker (y_world y)) `sublist_of` all_published h) ∧
    (∀ i rx, (i, EBroker (ORecv rx)) ∈ h → ∃ p, y_threads y !! i = Some (AStreamNext rx, p)) ∧
    (∀ i a p, y_threads y !! i = Some (a, p) → published_by i h ≠ [] →
       ∃ before l after x response, a = ATask before (TListen l) after ∧
         w_heap (y_world y) !! l = Some x ∧ answers_listener x response ∧
         published_by i h `prefix_of` notifications (le_alias x) response).
Proof.
  intros Hs Hr. destruct (has_chronicle _ _ _ _ _ g y Hs Hr) as [h Hh]. exists h. split; [done|].
  by eapply chronicle_delivers.
Qed.
End delivery.

(** ** Witness *)
Module Example.
#[export] Existing Instance Main.Example.os.
#[export] Existing Instance Scenario.serde.
#[export] Existing Instance Scenario.mo.
#[export] Existing Instance Main.Example.yaml.
#[export] Existing Instance Main.Example.base64.
#[export] Existing Instance CrdDiscovery.Example.kube.
#[export] Existing Instance Router.Example.unicode.
#[export] Existing Instance Session.Example.jwt.
#[export] Existing Instance Server.Example.header_value.
#[export] Existing Instance System.Example.no_dig.

(** The leaves as before, but [alpha] has a stream with one notification. *)
Definition note : Value := json_obj [("method", VString "notifications/tools/list_changed")].
Definition http_with (v : Value) : Http :=
  {| Env.http := λ _ _ rq,
       (NANOS, if bool_decide (hq_url rq = "http://alpha/mcp") && bool_decide (hq_body rq = None)
               then Ok {| hp_status := 200; hp_headers := [("content-type", Some "text/event-stream")];
                          hp_chunks := [Ok (frame v)] |}
               else http_alpha rq);
     status_text := λ s, fmt_N (Z.to_N s); status_error := λ s, fmt_N (Z.to_N s);
     certificate := λ _, Err "no certificate" |}.
#[export] Instance http : Http := http_with note.
Definition hello : JsonRpcRequest := Server.Example.request "initialize" VNull.
#[export] Instance axum : Axum :=
  {| json_rpc_body := λ _, Ok hello; register_body := λ _, Err (reply 400 BEmpty);
     path_parameter := λ s, Ok s; framework_reply := λ _, reply 404 BEmpty |}.
Definition g : Settings :=
  {| g_auth := App.Example.auth; g_dns := DnsDiscoveryConfig_default; g_path := "" |}.

Definition request (meth : string) (headers : Headers) : HttpRequestIn :=
  {| in_method := meth; in_uri_path := "/mcp"; in_body := "";
     in_headers := ("authorization", Some "Bearer root") :: headers |}.
(** A client opens a session, and then a stream in it. *)
Definition opens (_ : FederationState) : HttpRequestIn := request "POST" [].
Definition listens (s : FederationState) : HttpRequestIn :=
  request "GET" [("mcp-session-id", head (map_to_list (sessions (st_sessions s))).*1)].
Definition script : list Move :=
  [Goes 0 5; Arrives opens; Goes 1 20; Arrives listens; Goes 2 20; Task; Goes 3 20].

Definition crd : bool * bool * bool := (true, true, true).
Definition cfg : FederationConfig := config_of_raw Main.Example.raw.
Definition w0 : World :=
  (initialize_all (from_configs_with_pool (servers cfg) (connection_pool (federation cfg)) Scenario.env)).2.
(** The notification waits in the channel of the client. *)
Definition waits (y : System) : Prop :=
  queue <$> channels (w_broker (y_world y)) !! 0%nat = Some [annotate "alpha" (canon note)].
Definition ends_well (o : option Running) : bool :=
  match (r ← o; play g script (started r)) with Some y => bool_decide (waits y) | None => false end.
End Example.
Import Example.

(** What waits for the client was published by a listener. *)
Lemma notifications_delivered_witness :
  ∃ r y h, starts Main.Example.cli "key" crd Scenario.env r ∧ rtc (some_step g) (started r) y ∧
    chronicle g (started r) y h ∧ annotate "alpha" (canon note) ∈ all_published h.
Proof.
  assert (ends_well (assembled Main.Example.cli "key" crd (federation cfg) w0) = true) as Hw
    by (vm_compute; reflexivity).
  destruct (assembled _ _ _ _ _) as [r|] eqn:Ha; [|discriminate Hw].
  unfold ends_well in Hw. cbn [mbind option_bind] in Hw.
  destruct (play g script (started r)) as [y|] eqn:Hp; [|discriminate Hw].
  apply bool_decide_eq_true, fmap_Some in Hw as (c & Hc & Hq).
  assert (starts Main.Example.cli "key" crd Scenario.env r) as Hs.
  { apply (assembled_starts _ _ _ _ cfg); [reflexivity|reflexivity|reflexivity|exact Ha]. }
  pose proof (play_steps g script _ _ Hp) as Hy.
  destruct (notifications_delivered _ _ _ _ r g y Hs Hy) as (h & Hh & Hr & _).
  exists r, y, h. split_and!; [exact Hs|exact Hy|exact Hh|].
  specialize (Hr 0%nat). unfold queue_of in Hr. rewrite Hc in Hr.
  cbn [fmap option_fmap option_map from_option id] in Hr. rewrite <- Hq in Hr. eapply elem_of_sublist; [|exact Hr].
  apply elem_of_app. right. by left.
Defined.
