(* ===== verification/Allowance.v ===== *)
(** * Allowance: the rate limits in every interleaving

    Each POST to the endpoint gives its client's name to the limiter, once, after its session
    was checked and before it does anything else.  What the limiter promises of its calls
    (Quota.v) and what the threads tell (History.v) together say which requests of a run are
    let through. *)
From S2P Require Import Prelude Text Json Protocol F64 Env Config RateLimit Quota Rbac Session.
From S2P Require Import Notifications LeafClient Scenario Registry Health Aggregator Router.
From S2P Require Import Server SessionSpec DnsDiscovery CrdDiscovery Status Api Reload App Main.
From S2P Require Import Threads Actions Awaits SameCode Guarantee Startup System Access Calm.
From S2P Require Import History Chronicle Delivery.
Open Scope string_scope.
Open Scope list_scope.
Open Scope Z_scope.

Section allowance.
Context `{!Os, !Http, !Serde, !MapOrder, !Unicode, !Jwt, !HeaderValue, !Axum, !Kube, !Dig, !Yaml}.

Definition limit_call (e : Event) : option (Ask * bool) :=
  match e with
  | ELimit t k ok => Some ({| a_now := t; a_created := t; a_key := k |}, ok)
  | _ => None
  end.
Definition limit_calls (h : list (nat * Event)) : list (Ask * bool) := omap limit_call h.*2.

Lemma unfolds_checks t x h t' x' :
  unfolds t x h t' x' → limit_calls h = Quota.checks (limit_calls h).*1 (sh_limiter x).
Proof.
  induction 1 as [t t' x Ht|t t1 x i [o|tc c a|tl k ok] h t' x' Ht He _ IH]; [done|exact IH|exact IH|].
  destruct He as [-> ->].
  change (limit_calls ((i, ELimit t1 k (check t1 t1 k (sh_limiter x)).1) :: h)) with
    (({| a_now := t1; a_created := t1; a_key := k |}, (check t1 t1 k (sh_limiter x)).1) :: limit_calls h).
  rewrite fmap_cons. cbn [fst Quota.checks a_now a_created a_key]. f_equal. exact IH.
Qed.
Lemma unfolds_times t x h t' x' :
  unfolds t x h t' x' → t ≤ t' ∧ Forall (λ a, t ≤ a_now a ≤ t' ∧ a_created a = a_now a) (limit_calls h).*1.
Proof.
  assert (∀ t t1 t' l, t ≤ t1 → Forall (λ a, t1 ≤ a_now a ≤ t' ∧ a_created a = a_now a) l →
    Forall (λ a, t ≤ a_now a ≤ t' ∧ a_created a = a_now a) l) as Hearlier.
  { intros ????? Hl. eapply Forall_impl; [exact Hl|]. intros a [? ->]. lia. }
  induction 1 as [t t' x Ht|t t1 x i [o|tc c a|tl k ok] h t' x' Ht He _ [Hle IH]]; [by repeat split|..].
  1, 2: by split; [lia|apply (Hearlier t t1)].
  destruct He as [-> _]. split; [lia|].
  change (limit_calls ((i, ELimit t1 k ok) :: h)) with
    (({| a_now := t1; a_created := t1; a_key := k |}, ok) :: limit_calls h).
  rewrite fmap_cons. constructor; [cbn; lia|]. by apply (Hearlier t t1).
Qed.

(** A request names its client to the limiter at most once. *)
Definition names (g : Settings) (a : SystemAction) (k : string) : Prop :=
  ∃ rq t ctx, a = ARequest rq ∧ verdict g rq t = Forward ctx ∧
    k = client_label (default anonymous ctx) ∧ in_method rq = "POST" ∧ in_uri_path rq = "/mcp".
Lemma endpoint_names rq client es t k ok :
  endpoint_tells rq client es → ELimit t k ok ∈ es →
  k = client ∧ in_method rq = "POST" ∧ omap limit_call es =
    [({| a_now := t; a_created := t; a_key := k |}, ok)].
Proof.
  intros He Hin. destruct He as [| |es' t' ok' Hm []| | | |]; cbn [app] in *;
    among Hin; injection Hin as -> -> ->; by split_and!.
Qed.
Lemma told_naming g a es s t k ok :
  told g a es s → ELimit t k ok ∈ es → names g a k ∧
    omap limit_call es = [({| a_now := t; a_created := t; a_key := k |}, ok)].
Proof.
  intros Ht Hin. destruct (told_request _ _ _ _ _ Ht Hin eq_refl) as (rq & t0 & ctx & -> & Hv & Hp & He).
  destruct (endpoint_names _ _ _ _ _ _ He Hin) as (-> & Hm & Hone). split; [|done].
  by exists rq, t0, ctx.
Qed.
(** Nothing is opened before the client was let through. *)
Lemma told_opened g a es s t sub info id :
  told g a es s → ESession t (COpen sub info) (Opened id) ∈ es →
  ∃ t0 k, ELimit t0 k true ∈ es ∧ names g a k.
Proof.
  intros Ht Hin. assert (∃ t0 k, ELimit t0 k true ∈ es) as (t0 & k & Hl).
  - destruct (told_request _ _ _ _ _ Ht Hin eq_refl) as (rq & t1 & ctx & -> & _ & _ & He).
    destruct He as [| |es' t2 ok _ []| | | |]; among Hin. eexists _, _. by left.
  - exists t0, k. split; [done|]. by eapply told_naming.
Qed.

Lemma limit_calls_elem h a ok :
  (a, ok) ∈ limit_calls h ↔ a_created a = a_now a ∧ ∃ i, (i, ELimit (a_now a) (a_key a) ok) ∈ h.
Proof.
  unfold limit_calls. rewrite list_elem_of_omap. split.
  - intros (ev & ([i ev'] & -> & Hin)%list_elem_of_fmap & He).
    destruct ev' as [| |t k ok']; [done..|]. injection He as <- <-. split; [done|]. by exists i.
  - intros [Hc [i Hin]]. exists (ELimit (a_now a) (a_key a) ok). split.
    + apply list_elem_of_fmap. by exists (i, ELimit (a_now a) (a_key a) ok).
    + destruct a as [t t' k]. cbn in *. by subst.
Qed.
Lemma chronicle_thread g y0 y h i e :
  chronicle g y0 y h → (i, e) ∈ h →
  ∃ a p, y_threads y !! i = Some (a, p) ∧ told g a (of_thread i h) (y_state y) ∧ e ∈ of_thread i h.
Proof.
  intros Hh Hin. destruct (lookup_lt_is_Some_2 _ _ (ch_threads _ _ _ _ Hh _ _ Hin)) as [[a p] Hp].
  exists a, p. split; [done|]. split; [by apply (ch_told _ _ _ _ Hh) in Hp|].
  apply list_elem_of_fmap. exists (i, e). split; [done|]. by apply list_elem_of_filter.
Qed.

End allowance.

(** ** Witness: the deployment of Delivery.v with a burst of one request

    Two requests of one client at the same time; the first opens a session. *)
Module Example.
Definition raw : RawConfig :=
  {| raw_federation :=
       {| raw_listen := None; raw_endpoint := None; raw_fed_token := None;
          raw_fed_token_file := None; raw_pool := None; raw_tool_ttl := None;
          raw_session_ttl := None; raw_origins := None; raw_clients := None;
          raw_rate_limit := Some {| raw_rl_enabled := Some true; raw_rps := Some 1; raw_burst := Some 1 |};
          raw_dns := None; raw_crd := None; raw_secret := None; raw_shutdown := None |};
     raw_servers := [Main.Example.raw_server "alpha"] |}.
#[export] Instance yaml : Yaml := {| yaml_parse := λ _, Ok raw |}.
Definition cfg : FederationConfig := config_of_raw raw.
End Example.
Import Delivery.Example.
#[local] Existing Instance Example.yaml.

Definition twice : list Move :=
  [Goes 0 5; Arrives opens; Goes 1 20; Arrives opens; Goes 2 20].
Definition assembled_limited : option Running :=
  assembled Main.Example.cli "key" crd (federation Example.cfg)
    (initialize_all (from_configs_with_pool (servers Example.cfg)
       (connection_pool (federation Example.cfg)) Scenario.env)).2.
Definition in_time (r : Running) (y : System) : bool :=
  (0 <=? clock (r_state r)) && (clock (y_state y) <? 2 ^ 64 * NANOS).
(** One of the two was let through. *)
Definition ends_limited (o : option Running) : bool :=
  match o with
  | Some r => match play g twice (started r) with
              | Some y => in_time r y && bool_decide (size (sessions (st_sessions (y_state y))) = 1%nat) &&
                          bool_decide (buckets (st_limiter (y_state y)) ≠ ∅)
              | None => false
              end
  | None => false
  end.
Lemma unfolds_limiter `{!Os, !Jwt, !MapOrder} t x h t' x' :
  unfolds t x h t' x' → limit_calls h = [] → sh_limiter x' = sh_limiter x.
Proof.
  induction 1 as [t t' x Ht|t t1 x i [o|tc c a|tl k ok] h t' x' Ht He _ IH]; [done|exact IH|exact IH|done].
Qed.

