(* ===== verification/Relay.v ===== *)
(** * Relay: notifications through two federations

    A federation that is a leaf of another streams its notifications to it like to any
    client, and the outer one publishes them again.  Both run with everything else that they
    do; Delivery.v says of each what its streams carry, and here the two are put behind each
    other.  Between them lie the framework, which frames each event, and the network, which
    may end the stream after any of them. *)
From S2P Require Import Prelude Text Json Protocol F64 Env Config RateLimit Rbac Session.
From S2P Require Import Notifications LeafClient Scenario Registry Health Aggregator Router.
From S2P Require Import Server SessionSpec DnsDiscovery CrdDiscovery Status Api Reload App Main.
From S2P Require Import Threads Actions Awaits SameCode Guarantee Startup System Access Calm.
From S2P Require Import History Chronicle Delivery.
Open Scope string_scope.
Open Scope list_scope.

(** A run of a federation from its start to [y], with a history of it *)
Section run.
Context `{!Os, !Http, !Serde, !MapOrder, !Unicode, !Jwt, !HeaderValue, !Axum, !Kube, !Dig, !Yaml, !Base64}.
Definition has_run (g : Settings) (y : System) (h : list (nat * Event)) : Prop :=
  ∃ cli random crd_up e r, starts cli random crd_up e r ∧ rtc (some_step g) (started r) y ∧
    chronicle g (started r) y h.

(** What the reader of the channel [rx] has got and finds in it *)
Definition carried (rx : nat) (y : System) (h : list (nat * Event)) : list Value :=
  received_from rx h ++ queue_of rx (w_broker (y_world y)).
Lemma carried_published g y h rx : has_run g y h → carried rx y h `sublist_of` all_published h.
Proof.
  intros (cli & random & crd_up & e & r & Hs & _ & Hh).
  by apply (chronicle_delivers _ _ _ _ _ g y h Hs Hh).
Qed.
End run.

Section relay.
Context `{!Serde, !SerdeLaws, !MapOrder, !Unicode, !Jwt, !HeaderValue, !Axum, !Kube, !Dig, !Yaml, !Base64}.
(** The surroundings of the outer and of the inner federation *)
Context (oo oi : Os) (ho hi : Http).

(** The answer to a listener is the stream of these values, each in a frame of its own. *)
Definition streams (vs : list Value) (response : HttpResponse) : Prop :=
  received (hp_chunks response) = join "" (frame <$> vs).

Lemma streamed_notifications a vs response :
  streams vs response → notifications a response = (λ v, annotate a (canon v)) <$> vs.
Proof.
  intros Hs. unfold notifications, reading. rewrite Hs. cbn [String.append].
  rewrite frames_events. clear Hs. induction vs as [|v vs IH]; [done|].
  rewrite !fmap_cons, bind_cons, IH. unfold notification. by rewrite from_str_to_string.
Qed.

Lemma prefix_sublist {A} (l k : list A) : l `prefix_of` k → l `sublist_of` k.
Proof. intros [k' ->]. by apply sublist_inserts_r. Qed.
Lemma fmap_sublist {A B} (f : A → B) l k : l `sublist_of` k → f <$> l `sublist_of` f <$> k.
Proof. induction 1; cbn; by constructor. Qed.

(** (C6) Notifications pass through two federations.  Where the listener of a leaf of the
    outer one is answered with the stream of a channel of the inner one, cut off anywhere
    between two events, all that it publishes was published on the inner one, in the same
    order and each at most as often.  Of the two names that it was given the outer one
    stays: a client of the outer federation finds the alias of the inner one in its
    parameters, whatever leaf it came from. *)
Theorem notifications_relayed go gi y y' h h' i before l after p :
  has_run (H := oo) (H0 := ho) go y h → has_run (H := oi) (H0 := hi) gi y' h' →
  y_threads y !! i = Some (ATask before (TListen l) after, p) → published_by i h ≠ [] →
  ∃ x response, w_heap (y_world y) !! l = Some x ∧
    answers_listener (H := oo) (H0 := ho) x response ∧
    ∀ rx vs, vs `prefix_of` carried rx y' h' → streams vs response →
      published_by i h `sublist_of` ((λ v, annotate (le_alias x) (canon v)) <$> all_published h') ∧
      ∀ v, v ∈ published_by i h → is_object v = true →
        (get "params" v ≫= get_str "_leaf") = Some (le_alias x).
Proof.
  intros (cli & random & crd_up & e & r & Hs & _ & Hh) Hin Hi Hne.
  destruct (chronicle_delivers _ _ _ _ _ go y h Hs Hh) as (_ & _ & Hpub).
  destruct (Hpub _ _ _ Hi Hne) as (before' & l' & after' & x & response & [= <- <- <-] & Hx & Hans & Hpre).
  exists x, response. split_and!; [done..|]. intros rx vs Hvs Hstr.
  rewrite (streamed_notifications _ _ _ Hstr) in Hpre. split.
  - etrans; [by apply prefix_sublist|]. apply fmap_sublist.
    etrans; [by apply prefix_sublist|]. by eapply carried_published.
  - intros v Hv Hob. eapply elem_of_prefix in Hv; [|exact Hpre].
    apply list_elem_of_fmap in Hv as (v' & -> & _).
    pose proof (annotate_names_leaf (le_alias x) (canon v')) as Hn.
    destruct (canon v'); try (by rewrite Hn in Hob). apply Hn.
Qed.
End relay.

(** ** Witness: the deployment of Delivery.v, twice

    The leaf [alpha] of the inner federation has a notification; the leaf [alpha] of the
    outer one is the inner federation, which streams it on. *)
Module Example.
Import Delivery.Example.
Definition relayed : Value := annotate "alpha" (canon note).

Section deployment.
Context (v : Value).
#[local] Instance source : Http := http_with v.
Definition deployed : option System :=
  r ← assembled Main.Example.cli "key" crd (federation cfg)
        (initialize_all (from_configs_with_pool (servers cfg) (connection_pool (federation cfg)) Scenario.env)).2;
  play g script (started r).
Lemma deployed_run y : deployed = Some y → ∃ h, has_run g y h.
Proof.
  unfold deployed. destruct (assembled _ _ _ _ _) as [r|] eqn:Ha; [|done]. cbn [mbind option_bind].
  intros Hp%play_steps.
  assert (starts Main.Example.cli "key" crd Scenario.env r) as Hs.
  { apply (assembled_starts _ _ _ _ cfg); [reflexivity|reflexivity|reflexivity|exact Ha]. }
  destruct (has_chronicle _ _ _ _ _ g y Hs Hp) as [h Hh]. exists h.
  by exists Main.Example.cli, "key", crd, Scenario.env, r.
Qed.

(** The leaves go by their endpoints, and no stream is read. *)
Definition plain (y : System) : bool :=
  forallb (λ kv, bool_decide (lc_url (le_client kv.2) ∈ ["http://alpha/mcp"; "http://beta/mcp"]))
    (map_to_list (w_heap (y_world y))) &&
  forallb (λ ap, if ap.1 is AStreamNext _ then false else true) (y_threads y).
Definition left_waiting (y : System) : list Value := queue_of 0 (w_broker (y_world y)).

Lemma answer_streams y l x response :
  plain y = true → w_heap (y_world y) !! l = Some x → answers_listener x response → streams [v] response.
Proof.
  intros [Hurl _]%andb_true_iff Hx (Hok & c & t & env & Hc & Hsend).
  pose proof (proj1 (forallb_forall _ _) Hurl (l, x)) as Hu.
  specialize (Hu (proj1 (list_elem_of_In _ _) (proj2 (elem_of_map_to_list _ _ _) Hx))).
  apply bool_decide_eq_true in Hu. cbn [snd] in Hu.
  assert (lc_url c = lc_url (le_client x)) as Hcu by (by rewrite Hc).
  change ((if bool_decide (lc_url c = "http://alpha/mcp") && true
    then Ok {| hp_status := 200; hp_headers := [("content-type", Some "text/event-stream")];
               hp_chunks := [Ok (frame v)] |}
    else http_alpha (stream_request t c)) = Ok response) in Hsend.
  unfold http_alpha in Hsend. change (hq_url (stream_request t c)) with (lc_url c) in Hsend.
  rewrite Hcu in Hsend.
  rewrite !elem_of_cons in Hu. destruct Hu as [Hu|[Hu|Hu]]; [..|by apply not_elem_of_nil in Hu];
    rewrite Hu in Hsend.
  - rewrite bool_decide_eq_true_2 in Hsend by done. cbn [andb] in Hsend. injection Hsend as <-.
    unfold streams. cbn [hp_chunks received]. by rewrite str_app_nil_r.
  - rewrite bool_decide_eq_false_2 in Hsend by discriminate.
    cbn [andb] in Hsend. by change (starts_with "http://alpha" "http://beta/mcp") with false in Hsend.
Qed.
End deployment.

Lemma unread_run rx os b : (∀ o, o ∈ os → o ≠ ORecv rx) → (Notifications.run rx os b).1 = [].
Proof.
  revert b. induction os as [|o os IH]; intros b Hno; [done|]. cbn [Notifications.run].
  specialize (IH (apply_op o b)). destruct (Notifications.run rx os (apply_op o b)) as [out b'].
  cbn [fst] in *. rewrite IH by (intros o' Ho'; apply Hno; by right). rewrite app_nil_r.
  assert (o ≠ ORecv rx) as Hne by (apply Hno; left). unfold taken. destruct o; try done.
  case_decide; [by subst|done].
Qed.
Lemma plain_carried v y h :
  has_run (H0 := http_with v) g y h → plain y = true → carried 0 y h = left_waiting y.
Proof.
  intros (cli & random & crd_up & e & r & Hs & _ & Hh) [_ Hth]%andb_true_iff. unfold carried.
  destruct (chronicle_delivers _ _ _ _ _ g y h Hs Hh) as (_ & Hrecv & _).
  unfold received_from. rewrite unread_run; [done|].
  intros o Ho ->. unfold broker_ops in Ho.
  apply list_elem_of_omap in Ho as (ev & ([i ev'] & -> & Hin)%list_elem_of_fmap & Hev).
  destruct ev' as [o| |]; [|done..]. injection Hev as ->. destruct (Hrecv i 0%nat Hin) as [p Hp].
  apply list_elem_of_lookup_2 in Hp.
  by pose proof (proj1 (forallb_forall _ _) Hth _ (proj1 (list_elem_of_In _ _) Hp)).
Qed.

(** Whatever waits was published by a listener. *)
Lemma published_by_listener v y h :
  has_run (H0 := http_with v) g y h → left_waiting y ≠ [] →
  ∃ i before l after p, y_threads y !! i = Some (ATask before (TListen l) after, p) ∧
    published_by i h ≠ [].
Proof.
  intros (cli & random & crd_up & e & r & Hs & _ & Hh) Hne.
  destruct (chronicle_delivers _ _ _ _ _ g y h Hs Hh) as (Hfifo & _ & Hpub).
  specialize (Hfifo 0%nat). fold (left_waiting y) in Hfifo.
  destruct (left_waiting y) as [|w ws] eqn:Hw; [done|].
  assert (w ∈ all_published h) as Hin.
  { eapply elem_of_sublist; [|exact Hfifo]. apply elem_of_app. right. by left. }
  unfold all_published, broker_ops in Hin.
  apply list_elem_of_bind in Hin as (o & Hv & Ho).
  apply list_elem_of_omap in Ho as (ev & Hev & Hop). apply list_elem_of_fmap in Hev as ([i ev'] & -> & Hih).
  assert (published_by i h ≠ []) as Hpi.
  { intros Hnil. assert (w ∈ published_by i h) as Hwi; [|by rewrite Hnil in Hwi; apply not_elem_of_nil in Hwi].
    unfold published_by. apply list_elem_of_bind. exists o. split; [done|].
    apply list_elem_of_omap. exists ev'. split; [|done]. apply list_elem_of_fmap.
    exists (i, ev'). split; [done|]. by apply list_elem_of_filter. }
  destruct (lookup_lt_is_Some_2 _ _ (ch_threads _ _ _ _ Hh _ _ Hih)) as [[a p] Hp].
  destruct (Hpub _ _ _ Hp Hpi) as (before & l & after & x & response & -> & _).
  by exists i, before, l, after, p.
Qed.
End Example.
Import Example.

#[local] Existing Instances Scenario.serde Scenario.mo Main.Example.yaml Main.Example.base64
  CrdDiscovery.Example.kube Router.Example.unicode Session.Example.jwt Server.Example.header_value
  System.Example.no_dig Main.Example.os Delivery.Example.axum Json.Example.serde_laws.

Definition inner_waits (o : option System) : bool :=
  if o is Some y then plain y && bool_decide (left_waiting y = [relayed]) else false.
Definition outer_waits (o : option System) : bool :=
  if o is Some y then plain y && bool_decide (left_waiting y ≠ []) else false.

Lemma notifications_relayed_witness :
  ∃ y y' h h' i x, has_run (H0 := Delivery.Example.http_with relayed) Delivery.Example.g y h ∧
    has_run (H0 := Delivery.Example.http_with Delivery.Example.note) Delivery.Example.g y' h' ∧
    published_by i h ≠ [] ∧
    published_by i h `sublist_of` ((λ v, annotate (le_alias x) (canon v)) <$> all_published h').
Proof.
  assert (outer_waits (deployed relayed) = true) as Ho by (vm_compute; reflexivity).
  assert (inner_waits (deployed Delivery.Example.note) = true) as Hi by (vm_compute; reflexivity).
  destruct (deployed relayed) as [y|] eqn:Hy; [|discriminate Ho].
  destruct (deployed Delivery.Example.note) as [y'|] eqn:Hy'; [|discriminate Hi].
  destruct (deployed_run _ _ Hy) as [h Hh]. destruct (deployed_run _ _ Hy') as [h' Hh'].
  apply andb_true_iff in Ho as [Hpo Hqo], Hi as [Hpi Hqi].
  apply bool_decide_eq_true in Hqo, Hqi.
  destruct (published_by_listener _ _ _ Hh Hqo) as (i & before & l & after & p & Hp & Hne).
  destruct (notifications_relayed Main.Example.os Main.Example.os (Delivery.Example.http_with relayed)
    (Delivery.Example.http_with Delivery.Example.note) _ _ y y' h h' i before l after p Hh Hh' Hp Hne)
    as (x & response & Hx & Hans & Hrelay).
  exists y, y', h, h', i, x. split; [exact Hh|]. split; [exact Hh'|]. split; [exact Hne|].
  apply (Hrelay 0%nat [relayed]).
  - rewrite (plain_carried _ _ _ Hh' Hpi), Hqi. reflexivity.
  - exact (answer_streams relayed y l x response Hpo Hx Hans).
Defined.
