(* ===== verification/Admission.v ===== *)
(** * Admission: sessions in every interleaving

    The handlers check a session, mark it as used, change its log level, open and end it,
    each under the lock but one after the other; the pruning task runs beside them.  What
    the manager promises of its calls (SessionSpec.v) and what the threads tell (History.v)
    together say which requests get past the session check. *)
From S2P Require Import Prelude Text Json Protocol F64 Env Config RateLimit Rbac Session.
From S2P Require Import Notifications LeafClient Scenario Registry Health Aggregator Router.
From S2P Require Import Server SessionSpec DnsDiscovery CrdDiscovery Status Api Reload App Main.
From S2P Require Import Threads Actions Awaits SameCode Guarantee Startup System Access Calm.
From S2P Require Import History Chronicle Delivery.
Open Scope string_scope.
Open Scope list_scope.
Open Scope Z_scope.

Section admission.
Context `{!Os, !Http, !Serde, !MapOrder, !Unicode, !Jwt, !HeaderValue, !Axum, !Kube, !Dig, !Yaml}.

Definition session_calls (h : list (nat * Event)) : list (Z * Call * Answer) := omap session_call h.*2.

Lemma unfolds_performed t x h t' x' :
  unfolds t x h t' x' → performed t (sh_sessions x) (session_calls h) t' (sh_sessions x').
Proof.
  induction 1 as [t t' x Ht|t t1 x i [o|tc c a|tl k ok] h t' x' Ht He _ IH]; [by constructor|..].
  - change (session_calls ((i, EBroker o) :: h)) with (session_calls h).
    by apply (performed_earlier t t1).
  - destruct He as [-> ->]. by constructor.
  - change (session_calls ((i, ELimit tl k ok) :: h)) with (session_calls h).
    by apply (performed_earlier t t1).
Qed.
Lemma session_calls_app h1 h2 : session_calls (h1 ++ h2) = session_calls h1 ++ session_calls h2.
Proof. unfold session_calls. by rewrite fmap_app, omap_app. Qed.
Lemma session_calls_elem h x :
  x ∈ session_calls h → ∃ i t c a, x = (t, c, a) ∧ (i, ESession t c a) ∈ h.
Proof.
  intros (ev & ([i ev'] & -> & Hin)%list_elem_of_fmap & He)%list_elem_of_omap. cbn in He.
  destruct ev' as [o|t c a|]; [done| |done]. injection He as <-. by exists i, t, c, a.
Qed.

(** A session is opened by a request that initialises, with credentials the gate accepts. *)
Definition opener (g : Settings) (a : SystemAction) : Prop :=
  ∃ rq request, a = ARequest rq ∧ (∃ t ctx, verdict g rq t = Forward ctx) ∧
    in_method rq = "POST" ∧ in_uri_path rq = "/mcp" ∧
    json_rpc_body rq = Ok request ∧ rq_method request = "initialize".
Lemma told_opening g a es s t sub info id :
  told g a es s → ESession t (COpen sub info) (Opened id) ∈ es → opener g a.
Proof.
  intros Ht Hin. destruct (told_request _ _ _ _ _ Ht Hin eq_refl) as (rq & t1 & ctx & -> & Hv & Hp & He).
  destruct He as [| |es' t' ok _ []| | | |]; among Hin. exists rq, request. eauto 10.
Qed.

(** (C7) The sessions are what the specification says, in every interleaving of all requests
    with the pruning task and everything else.  In every reachable state there is a history
    of the run in which every answer of the session manager is one the specification allows:
    an id is accepted exactly when it was opened and not terminated, was used less than the
    configured limit ago and its token, which no use prolongs, has not expired; pruning is
    not seen.  In this state, too, exactly the live sessions are valid, each with the log
    level it chose last.  And no session is forged: an id is only accepted after a request
    to initialise, which the gate let in, has opened it, not longer ago than the limit. *)
Theorem sessions_as_specified `{!Base64, !JwtLaws} cli random crd_up e r g y :
  starts cli random crd_up e r → rtc (some_step g) (started r) y →
  ∃ cfg h lives, from_file (now e) (cli_config cli) = Ok cfg ∧ chronicle g (started r) y h ∧
    let limit := from_secs (session_ttl_seconds (federation cfg)) in
    let m := st_sessions (y_state y) in let t := clock (y_state y) in
    specified limit ∅ (session_calls h) lives ∧
    (∀ id, (validate_session t t id m = true ↔ ∃ x, lives !! id = Some x ∧ live limit t x) ∧
       (∀ x, lives !! id = Some x → live limit t x → get_log_level id m = level x)) ∧
    (∀ h1 i t id h2, h = h1 ++ (i, ESession t (CCheck id) (Said true)) :: h2 →
       ∃ j t0 sub info a p, (j, ESession t0 (COpen sub info) (Opened id)) ∈ h1 ∧
         y_threads y !! j = Some (a, p) ∧ opener g a ∧ unix_now t - 5 ≤ expiry limit t0).
Proof.
  intros Hs Hr. destruct (has_chronicle _ _ _ _ _ g y Hs Hr) as [h Hh].
  destruct (starts_initialized _ _ _ _ _ Hs) as (cfg & Hf & _ & _ & Ha).
  assert (st_sessions (r_state r) = SessionManager_new (session_ttl_seconds (federation cfg))
    (session_secret (federation cfg)) random) as Hnew.
  { revert Ha. unfold assembled. by destruct (serving_of _ _) as [sv|]; [intros [= <-]|]. }
  set (limit := from_secs (session_ttl_seconds (federation cfg))).
  destruct (performed_specified limit (hmac_key (st_sessions (r_state r))) _ _ _ _ _ ∅
    (unfolds_performed _ _ _ _ _ (ch_unfolds _ _ _ _ Hh))) as (lives & Hl & Hrep).
  { cbn. rewrite Hnew. by split; [done..| | |]; intros id x Hx. }
  exists cfg, h, lives. split; [done|]. split; [done|]. cbv zeta. split; [done|]. split.
  - intros id. by eapply represents_seen.
  - intros h1 i t id h2 ->.
    rewrite session_calls_app in Hl. apply accepted_opened in Hl as (t0 & sub & info & Hin & He).
    apply session_calls_elem in Hin as (j & ? & ? & ? & [= <- <- <-] & Hin).
    assert ((j, ESession t0 (COpen sub info) (Opened id)) ∈
      h1 ++ (i, ESession t (CCheck id) (Said true)) :: h2) as Hin' by (apply elem_of_app; by left).
    destruct (lookup_lt_is_Some_2 _ _ (ch_threads _ _ _ _ Hh _ _ Hin')) as [[a p] Hp].
    exists j, t0, sub, info, a, p. split_and!; [done..| |done].
    eapply told_opening; [by eapply ch_told|]. apply list_elem_of_fmap.
    eexists (j, _). split; [done|]. by apply list_elem_of_filter.
Qed.
End admission.

(** ** Witness: the session of Delivery.v *)
#[local] Existing Instance Session.Example.jwt_laws.
Import Delivery.Example.

(** An id that is valid at the end *)
Definition valid_at (y : System) (id : string) : bool :=
  let t := clock (y_state y) in validate_session t t id (st_sessions (y_state y)).
Definition session_of (y : System) : string :=
  default "" (head (map_to_list (sessions (st_sessions (y_state y)))).*1).
Definition ends_admitted (o : option Running) : bool :=
  match (r ← o; play g script (started r)) with Some y => valid_at y (session_of y) | None => false end.

Lemma sessions_as_specified_witness :
  ∃ r y h lives x limit, starts Main.Example.cli "key" crd Scenario.env r ∧
    rtc (some_step g) (started r) y ∧ chronicle g (started r) y h ∧
    specified limit ∅ (session_calls h) lives ∧
    lives !! session_of y = Some x ∧ live limit (clock (y_state y)) x.
Proof.
  assert (ends_admitted (assembled Main.Example.cli "key" crd (federation cfg) w0) = true) as Hw
    by (vm_compute; reflexivity).
  destruct (assembled _ _ _ _ _) as [r|] eqn:Ha; [|discriminate Hw].
  unfold ends_admitted in Hw. cbn [mbind option_bind] in Hw.
  destruct (play g script (started r)) as [y|] eqn:Hp; [|discriminate Hw].
  assert (starts Main.Example.cli "key" crd Scenario.env r) as Hs.
  { apply (assembled_starts _ _ _ _ cfg); [reflexivity|reflexivity|reflexivity|exact Ha]. }
  pose proof (play_steps g script _ _ Hp) as Hy.
  destruct (sessions_as_specified _ _ _ _ r g y Hs Hy) as (c & h & lives & _ & Hh & Hl & Hv & _).
  apply Hv in Hw as (x & Hx & Hlive). exists r, y, h, lives, x, (from_secs (session_ttl_seconds (federation c))).
  split_and!; [exact Hs|exact Hy|exact Hh|exact Hl|exact Hx|exact Hlive].
Defined.
