(* ===== verification/Work.v ===== *)
(** * Work: the program comes to rest

    Threads and pending tasks are finitely many, no thread runs for ever and no task spawns
    another.  So the measure is lexicographic: what the requests and loops that are under
    way have left, then the number of pending tasks, then what the running tasks have left. *)
From S2P Require Import Prelude Text Json Protocol F64 Env Config RateLimit Rbac Session.
From S2P Require Import Notifications LeafClient Scenario Registry Health Aggregator Router.
From S2P Require Import Server DnsDiscovery CrdDiscovery Status Api Reload App Main Threads.
From S2P Require Import Actions Awaits SameCode Guarantee Startup System.
Open Scope string_scope.
Open Scope list_scope.

Section work.
Context `{!Os, !Http, !Serde, !MapOrder, !Unicode, !Jwt, !HeaderValue, !Axum, !Kube, !Dig, !Yaml}.
Notation Thread := (SystemAction * Proc FederationState unit)%type.


(** Nothing is taken on from outside: a pending task begins, or a thread goes on. *)
Inductive working (g : Settings) (y : System) : System → Prop :=
| work_begins before t after :
    w_tasks (y_world y) = before ++ t :: after → working g y (begun g (ATask before t after) y)
| work_goes_on a s ths :
    pool_step a (y_state y, y_threads y) (s, ths) → working g y (with_threads s ths y).

(** A task never spawns another. *)
Definition same_tasks : relation World := unmoved w_tasks.

Lemma quiet_task t : quiet w_tasks (p_run_task t).
Proof.
  assert (∀ A l (p : Proc (LeafClient * Env) A), quiet w_tasks (p_at l p)) by (intros; by apply quiet_at).
  assert (∀ l, quiet w_tasks (p_refresh_leaf l)) by (intros; by apply quiet_refresh_leaf).
  assert (∀ l keep, quiet w_tasks (p_init_leaf l keep)) by (intros; by apply quiet_init_leaf).
  assert (∀ leaf events, quiet w_tasks (p_dispatch_events leaf events)).
  { intros. apply safely_iter; [apply _|]. intros e. by apply quiet_part. }
  assert (∀ leaf chunks line data, quiet w_tasks (p_stream leaf chunks line data)).
  { intros leaf chunks. induction chunks as [|[bytes|err] chunks IH]; intros line data; cbn [p_stream];
      [auto with well| |auto with well].
    destruct (feed _ _ _) as [events [line' data']]. auto with well. }
  destruct t as [l|l keep report|l]; cbn [p_run_task].
  - auto 8 with well.
  - apply safely_bind; [apply _|done|]. intros ok. destruct report as [object|]; [|auto with well].
    unfold p_report_status.
    repeat (apply safely_bind; [apply _|by apply quiet_part|intros ?]). auto with well.
  - unfold p_run_listener.
    apply safely_bind; [apply _|by apply quiet_part|]. intros c. auto 20 with well.
Qed.
Lemma quiet_action g a :
  is_task a = true →
  safely (λ _, True) (λ _ _, True) (on_state same_tasks) (p_act g a).
Proof.
  destruct a as [| | |before t after| | | | | | | |]; try done. intros _. cbn [p_act].
  refine (safely_focus st_world (@in_world) (λ _, True) (λ _ _, True) same_tasks _ _ (quiet_task t)).
  intros B m s. unfold in_world, lift_state. by destruct (m _).
Qed.

Definition quiet_threads (ths : list Thread) : Prop :=
  Forall (λ ap, is_task ap.1 = true →
    safely (λ _, True) (λ _ _, True) (on_state same_tasks) ap.2) ths.

(** The tasks stay quiet; one that goes on leaves the pending tasks alone. *)
Lemma quiet_begun g a y : quiet_threads (y_threads y) → quiet_threads (y_threads (begun g a y)).
Proof.
  intros Hq. apply Forall_app. split; [done|]. constructor; [|constructor]. apply quiet_action.
Qed.
Lemma quiet_goes_on a s ths s' ths' :
  pool_step a (s, ths) (s', ths') → quiet_threads ths →
  quiet_threads ths' ∧ (is_task a = true → on_state same_tasks s s').
Proof.
  unfold quiet_threads. inversion_clear 1 as [c ? before p after p' ? Hr].
  intros [Hb [Hp Ha]%Forall_cons]%Forall_app.
  assert (is_task a = true → on_state same_tasks s s' ∧
    safely (λ _, True) (λ _ _, True) (on_state same_tasks) p') as Hp'.
  { intros Ht. destruct (rg_resume (λ _, True) (λ _ _, True) (on_state same_tasks) c p _
      s p' s' I (Hp Ht s I) Hr) as (_ & Hs & Hp').
    split; [done|]. intros u _. by eapply rg_interfere; [..|exact Hp']. }
  split; [|intros Ht; by apply Hp'].
  apply Forall_app. split; [done|]. constructor; [|done]. intros Ht. by apply Hp'.
Qed.
Lemma quiet_step g a y y' :
  step g a y y' → quiet_threads (y_threads y) → quiet_threads (y_threads y').
Proof.
  intros [y0 _ _ _|y0 s ths Hst|y0 rq before p after -> Hths].
  - apply quiet_begun.
  - by eapply quiet_goes_on.
  - rewrite Hths. intros [Hb [_ Ha]%Forall_cons]%Forall_app. apply Forall_app. split; [done|].
    by constructor.
Qed.

Definition requests (ths : list Thread) : list Thread := filter (λ ap, is_task ap.1 = false) ths.
Definition running_tasks (ths : list Thread) : list Thread := filter (λ ap, is_task ap.1 = true) ths.

Lemma pool_step_filter b (i : SystemAction) (s s' : FederationState) (ps ps' : list Thread) :
  pool_step i (s, ps) (s', ps') →
  let keep := filter (λ ap : Thread, is_task ap.1 = b) in
  if bool_decide (is_task i = b) then pool_next (keep ps) (keep ps') else keep ps' = keep ps.
Proof.
  inversion_clear 1 as [? before p after p' ? Hr]. cbv zeta. rewrite !filter_app, !filter_cons.
  cbn. case_bool_decide.
  - rewrite !decide_True by done. do 5 eexists. eauto using resume_next.
  - by rewrite !decide_False by done.
Qed.

Lemma working_sn g y : quiet_threads (y_threads y) → sn (working g) y.
Proof.
  remember (requests (y_threads y)) as rs eqn:Hrs. revert y Hrs.
  induction (pool_next_sn rs) as [rs _ IHr]. intros y.
  remember (length (w_tasks (y_world y))) as n eqn:Hn. revert y Hn.
  induction (lt_wf n) as [n _ IHn]. intros y.
  remember (running_tasks (y_threads y)) as ts eqn:Hts. revert y Hts.
  induction (pool_next_sn ts) as [ts _ IHt]. intros y -> -> -> Hq.
  constructor. intros y' [before t after Htasks|a s ths Hst].
  - eapply IHn; [|reflexivity| |by apply quiet_begun].
    + unfold y_world. cbn. unfold y_world in Htasks. rewrite Htasks, !length_app. cbn. lia.
    + cbn. unfold requests. rewrite filter_app. cbn. by rewrite app_nil_r.
  - destruct (quiet_goes_on _ _ _ _ _ Hst Hq) as [Hq' Hsame].
    pose proof (pool_step_filter true _ _ _ _ _ Hst) as Htrue.
    pose proof (pool_step_filter false _ _ _ _ _ Hst) as Hfalse. cbv zeta in Htrue, Hfalse.
    destruct (is_task a) eqn:Ht; cbn in Htrue, Hfalse.
    + eapply IHt; [exact Htrue|reflexivity| | |exact Hq'].
      * apply (f_equal length). symmetry. by apply Hsame.
      * symmetry. exact Hfalse.
    + by eapply IHr; [exact Hfalse|reflexivity|].
Qed.

Lemma reachable_sn r g y : rtc (some_step g) (started r) y → sn (working g) y.
Proof.
  intros Hy. apply working_sn.
  assert (quiet_threads (y_threads (started r))) as H0' by by repeat constructor.
  revert H0'. induction Hy as [y|y1 y2 y3 [a Hst] _ IH]; [done|].
  intros Hq. by apply IH, (quiet_step g a y1 y2).
Qed.

(** At rest *)
Definition resting (g : Settings) (y : System) : Prop := ∀ y', ¬ working g y y'.
Lemma resting_done g y :
  resting g y →
  Forall (λ ap, is_done ap.2 = true) (y_threads y) ∧ w_tasks (y_world y) = [].
Proof.
  intros Hno. split.
  - assert (Forall (λ ap, finished ap.2) (y_threads y)) as Hf.
    { apply (pool_stuck (y_state y)). intros i [s ths] Hst. by eapply Hno, work_goes_on. }
    eapply Forall_impl; [exact Hf|]. intros ap. by apply is_done_finished.
  - destruct (w_tasks (y_world y)) as [|t ts] eqn:Ht; [done|].
    by edestruct Hno; apply (work_begins g y [] t ts).
Qed.
Lemma working_steps g y y' : rtc (working g) y y' → rtc (some_step g) y y'.
Proof.
  apply rtc_subrel. intros u u' [before t after Ht|a s ths Hst].
  - exists (ATask before t after). by apply step_begin.
  - exists a. by apply step_resume.
Qed.

(** (C15) The program never gets stuck in its own work, and always comes to rest: from any
    reachable state, if nothing arrives from outside, every schedule of the threads that
    are under way and of the pending tasks ends after finitely many steps, whatever the
    leaves answer; and it only ends when every request, monitor turn, poll,
    reconciliation and reload has finished and no task is pending. *)
Theorem work_ends r g y :
  rtc (some_step g) (started r) y →
  sn (working g) y ∧
  ∀ y', rtc (working g) y y' → resting g y' →
    Forall (λ ap, is_done ap.2 = true) (y_threads y') ∧ w_tasks (y_world y') = [].
Proof.
  intros Hy. split; [by eapply reachable_sn|]. intros y' _. apply resting_done.
Qed.

End work.

(** ** Witness *)
Import System.Example.

(** In the middle of both *)
Lemma work_ends_witness :
  ∃ r, sn (working g) (schedule [(1, true); (2, true); (1, true)]%nat
                         (taking [registration; AReload] r)).
Proof.
  destruct outcome_starts as [r Hr]. exists r.
  apply (work_ends r g). etrans; [|apply schedule_steps]. apply taking_steps.
  - apply NoDup_cons; split; [|apply NoDup_singleton]. by intros ?%list_elem_of_singleton.
  - set_solver.
  - set_solver.
  - intros a [->| ->%list_elem_of_singleton]%elem_of_cons; done.
Defined.
