(* ===== verification/Stdio.v ===== *)
(** * Stdio: the stdio transport and its end

    Without [--http] the program serves the lines of its input, one after the other, until
    the input ends or a signal asks it to stop ([run_stdio_with_shutdown] of
    [src/main.rs], [run_stdio] of [src/server.rs]).  The two race in one task: while it reads
    a line the loop does not yield, so a signal that has arrived is noticed only when a
    request waits for something.  Here the other tasks may change the state in any way
    between two turns of the loop. *)
From S2P Require Import Prelude Text Json Protocol F64 Env Config RateLimit Rbac Session.
From S2P Require Import Notifications LeafClient Scenario Registry Health Aggregator Router.
From S2P Require Import Server DnsDiscovery CrdDiscovery Status Api Reload App Main Threads.
From S2P Require Import Actions Awaits.
Open Scope string_scope.
Open Scope list_scope.

Inductive Phase : Type :=
| Reading
| Serving (p : Proc FederationState (list string))
| Closed
| Interrupted.

Record Console := {
  c_input : list (result string string);   (** what is still to be read *)
  c_printed : list string;
  c_phase : Phase;
  c_signalled : bool;                      (** SIGTERM or SIGINT has arrived *)
}.
Definition console (input : list (result string string)) : Console :=
  {| c_input := input; c_printed := []; c_phase := Reading; c_signalled := false |}.
Definition in_phase (ph : Phase) (c : Console) : Console :=
  {| c_input := c_input c; c_printed := c_printed c; c_phase := ph; c_signalled := c_signalled c |}.

Section stdio.
Context `{!Os, !Http, !Serde, !MapOrder, !Unicode, !Jwt, !HeaderValue}.

(** One turn, at the state [s].  The [select!] looks at the signal when the loop yields, and
    that is in the middle of a request. *)
Inductive stdio_turn (s : FederationState) (c : Console) : Console → FederationState → Prop :=
| turn_line line input :
    c_phase c = Reading → c_input c = Ok line :: input →
    stdio_turn s c {| c_input := input; c_printed := c_printed c;
                      c_phase := Serving (p_stdio_line line); c_signalled := c_signalled c |} s
| turn_end :
    c_phase c = Reading → (∀ line input, c_input c ≠ Ok line :: input) →
    stdio_turn s c (in_phase Closed c) s
| turn_serve b p p' s' :
    c_phase c = Serving p → resume b p s = Some (p', s') →
    stdio_turn s c (in_phase (Serving p') c) s'
| turn_print out :
    c_phase c = Serving (Done out) →
    stdio_turn s c {| c_input := c_input c; c_printed := c_printed c ++ out;
                      c_phase := Reading; c_signalled := c_signalled c |} s
| turn_signal :
    c_signalled c = false → c_phase c ≠ Closed → c_phase c ≠ Interrupted →
    stdio_turn s c {| c_input := c_input c; c_printed := c_printed c;
                      c_phase := c_phase c; c_signalled := true |} s
| turn_interrupt p :
    c_phase c = Serving p → ¬ finished p → c_signalled c = true →
    stdio_turn s c (in_phase Interrupted c) s.

(** A turn, whatever the others have made of the state *)
Definition moves (c c' : Console) : Prop := ∃ s s', stdio_turn s c c' s'.

(** ** Answers *)
Lemma dispatch_always request session ctx :
  always (replies_to request) (p_dispatch request session ctx).
Proof.
  apply always_then. intros _. unfold p_dispatch_method.
  repeat case_match; try (intros s; apply dispatch_method_replies);
    unfold p_handle_tools_list, p_handle_tools_call, p_handle_resources_read, p_handle_prompts_get;
    repeat case_match; repeat (apply always_then; intros); cbn; auto using routed_replies with fed.
Qed.
(** What a line is answered by, however the others change the state *)
Lemma line_always line : always (answers_lines [line]) (p_stdio_line line).
Proof.
  unfold p_stdio_line, answers_lines. rewrite filter_cons, filter_nil. unfold nonblank.
  destruct (is_empty (trim line)) eqn:Hb.
  - rewrite decide_False by done. constructor.
  - rewrite decide_True by done. destruct (parse_request line) as [request|e] eqn:Hp.
    + eapply always_bind; [apply dispatch_always|]. intros r Hr.
      constructor; [|constructor]. unfold line_answer. rewrite Hp. by exists r.
    + constructor; [|constructor]. unfold line_answer. by rewrite Hp.
Qed.
(** Only a request waits. *)
Definition is_request (line : string) : Prop :=
  nonblank line = true ∧ ∃ request, parse_request line = Ok request.
Lemma line_waits line : finished (p_stdio_line line) ∨ is_request line.
Proof.
  unfold p_stdio_line, is_request, nonblank. destruct (is_empty (trim line)); [left; by eexists|].
  destruct (parse_request line) as [request|e]; [right; eauto|left; by eexists].
Qed.

Lemma answers_app lines printed line out :
  answers_lines lines printed → answers_lines [line] out →
  answers_lines (lines ++ [line]) (printed ++ out).
Proof. unfold answers_lines. rewrite filter_app. apply Forall2_app. Qed.
Lemma readable_app lines input : readable ((Ok <$> lines) ++ input) = lines ++ readable input.
Proof. induction lines as [|line lines IH]; [done|]. cbn. by rewrite IH. Qed.
Lemma readable_lines lines input :
  (∀ line rest, input ≠ Ok line :: rest) → readable ((Ok <$> lines) ++ input) = lines.
Proof.
  intros Hi. rewrite readable_app. destruct input as [|[line|e] input]; [|by destruct (Hi line input)|];
    apply app_nil_r.
Qed.

(** ** The account of a run *)

(** The lines that were read before the current phase are answered, one by one and in order;
    the line under way will be. *)
Definition accounts (input : list (result string string)) (c : Console) (lines : list string) : Prop :=
  answers_lines lines (c_printed c) ∧
  match c_phase c with
  | Reading => input = (Ok <$> lines) ++ c_input c
  | Serving p => ∃ line, input = (Ok <$> (lines ++ [line])) ++ c_input c ∧
      always (answers_lines [line]) p ∧ (finished p ∨ is_request line)
  | Closed => lines = readable input
  | Interrupted => c_signalled c = true ∧
      ∃ line, input = (Ok <$> (lines ++ [line])) ++ c_input c ∧ is_request line
  end.

Lemma moves_account input c c' lines :
  moves c c' → accounts input c lines → ∃ lines', accounts input c' lines'.
Proof.
  intros (s & s' & Ht) [Ha Hc]. unfold accounts.
  destruct Ht as [line rest Hph Hin|Hph Hin|b p p' s' Hph Hr|out Hph|Hs Hph1 Hph2|p Hph Hf Hs];
    cbn [in_phase c_phase c_input c_printed c_signalled] in *; rewrite ?Hph in Hc.
  - exists lines. split; [done|]. exists line. rewrite Hc, Hin, fmap_app, <- app_assoc.
    split_and!; [done|apply line_always|apply line_waits].
  - exists lines. split; [done|]. rewrite Hc. symmetry. by apply readable_lines.
  - destruct Hc as (line & Hi & Hp & [[a ->]|Hl]); [done|]. exists lines. split; [done|].
    exists line. split_and!; [done|by eapply always_resume|by right].
  - destruct Hc as (line & Hi & Hp & _). exists (lines ++ [line]). split; [|done].
    by apply answers_app.
  - exists lines. split; [done|]. by destruct (c_phase c).
  - destruct Hc as (line & Hi & _ & [?|Hl]); [done|]. exists lines. split; [done|]. split; [done|].
    by exists line.
Qed.

(** ** Every run ends *)
Notation at_phase input printed phase signalled :=
  {| c_input := input; c_printed := printed; c_phase := phase; c_signalled := signalled |}.
Ltac turn_cases :=
  intros ? (? & ? & []); cbn [c_phase c_input c_printed c_signalled in_phase] in *;
  repeat match goal with
         | H : _ = _ |- _ => discriminate H || (injection H as H; subst)
         end.

Lemma over_sn c : c_phase c = Closed ∨ c_phase c = Interrupted → sn moves c.
Proof. intros [Hc|Hc]; constructor; intros ? (? & ? & []); by rewrite Hc in *. Qed.

Lemma serving_sn input sg :
  (∀ printed sg, sn moves (at_phase input printed Reading sg)) →
  (sg = false → ∀ p printed, sn moves (at_phase input printed (Serving p) true)) →
  ∀ p printed, sn moves (at_phase input printed (Serving p) sg).
Proof.
  intros Hread Hsig p printed. induction (next_sn p) as [p _ IH]. constructor. turn_cases.
  - eapply IH, resume_next. eauto.
  - auto.
  - auto.
  - apply over_sn. by right.
Qed.
Lemma reading_sn input printed sg : sn moves (at_phase input printed Reading sg).
Proof.
  revert printed sg. induction input as [|x input IH]; intros printed sg.
  - assert (∀ printed, sn moves (at_phase [] printed Reading true)) as Hsig;
      [|destruct sg; [done|]]; intros; constructor; turn_cases; auto; apply over_sn; by left.
  - assert (∀ sg p printed, sn moves (at_phase input printed (Serving p) sg)) as Hserve.
    { assert (∀ p printed, sn moves (at_phase input printed (Serving p) true))
        by (by apply serving_sn).
      intros []; by apply serving_sn. }
    assert (∀ printed, sn moves (at_phase (x :: input) printed Reading true)) as Hsig;
      [|destruct sg; [done|]]; intros; constructor; turn_cases; auto; apply over_sn; by left.
Qed.
Lemma moves_sn input : sn moves (console input).
Proof. apply reading_sn. Qed.

(** A run that is not over can go on. *)
Lemma turn_possible s c :
  c_phase c = Closed ∨ c_phase c = Interrupted ∨ ∃ c' s', stdio_turn s c c' s'.
Proof.
  destruct (c_phase c) as [|p| |] eqn:Hph; [right; right|right; right|by left|by right; left].
  - destruct (c_input c) as [|[line|e] input] eqn:Hin; do 2 eexists.
    + apply turn_end; [done|by rewrite Hin].
    + by eapply turn_line.
    + apply turn_end; [done|by rewrite Hin].
  - destruct (resume true p s) as [[p' s']|] eqn:Hr; [do 2 eexists; by eapply turn_serve|].
    destruct p as [out|B m k|k]; [do 2 eexists; by apply turn_print|cbn in Hr; by destruct (m s)|done].
Qed.

Lemma run_accounts input c : rtc moves (console input) c → ∃ lines, accounts input c lines.
Proof.
  revert c. apply rtc_ind_r; [exists []; by repeat constructor|].
  intros c c' _ Hm [lines Hl]. by eapply moves_account.
Qed.
Lemma run_sn c c' : sn moves c → rtc moves c c' → sn moves c'.
Proof. intros Hsn Hr. induction Hr as [|c c1 c2 Hm _ IH]; [done|]. apply IH. by inversion Hsn; auto. Qed.

End stdio.

(** ** Witness *)
Module Example.
#[local] Existing Instances Scenario.os Scenario.http Scenario.serde Scenario.mo.
#[local] Existing Instances Router.Example.unicode Session.Example.jwt Server.Example.header_value.

(** A blank line, something that is no request, and a request that a signal cuts off *)
Definition request : string :=
  to_string (json_obj [("jsonrpc", VString "2.0"); ("id", vint 7); ("method", VString "tools/list")]).
Definition input : list (result string string) := [Ok "  "; Ok "x"; Ok request; Ok request].
Definition cut : Console :=
  {| c_input := [Ok request]; c_printed := [parse_error_line (match parse_request "x" with
                                              Err e => e | Ok _ => "" end)];
     c_phase := Interrupted; c_signalled := true |}.
Lemma cut_off : rtc moves (console input) cut.
Proof.
  eapply rtc_l; [exists Server.Example.st, Server.Example.st; by eapply turn_line|].
  eapply rtc_l; [exists Server.Example.st, Server.Example.st; by eapply (turn_print _ _ [])|].
  eapply rtc_l; [exists Server.Example.st, Server.Example.st; by eapply turn_line|].
  eapply rtc_l; [exists Server.Example.st, Server.Example.st; by eapply turn_print|].
  eapply rtc_l; [exists Server.Example.st, Server.Example.st; by eapply turn_line|].
  eapply rtc_l; [exists Server.Example.st, Server.Example.st; by eapply turn_signal|].
  eapply rtc_l; [eexists Server.Example.st, _; eapply (turn_serve _ _ true); reflexivity|].
  eapply rtc_l; [exists Server.Example.st, Server.Example.st; eapply turn_interrupt;
    [reflexivity|by intros [? ?]|reflexivity]|].
  apply rtc_refl.
Qed.
End Example.

#[local] Existing Instances Scenario.os Scenario.http Scenario.serde Scenario.mo.
#[local] Existing Instances Router.Example.unicode Session.Example.jwt Server.Example.header_value.

