(* ===== verification/OneWriter.v ===== *)
(** * OneWriter: each status has one writer at a time

    The health and the failure count of a leaf are written by the initialisation of a leaf
    that is added at run time, or by the monitor of a leaf of the start-up, one turn at a
    time.  Those never meet: a leaf that is added is new, and no monitor is started then. *)
From S2P Require Import Prelude Text Json Protocol F64 Env Config RateLimit Rbac Session.
From S2P Require Import Notifications LeafClient Scenario Registry Health Aggregator Router.
From S2P Require Import Server DnsDiscovery CrdDiscovery Status Api Reload App Main Threads.
From S2P Require Import Actions Awaits SameCode Guarantee Startup System.
Open Scope string_scope.
Open Scope list_scope.

Section one_writer.
Context `{!Os, !Http, !Serde, !MapOrder, !Unicode, !Jwt, !HeaderValue, !Axum, !Kube, !Dig, !Yaml}.
Notation Thread := (SystemAction * Proc FederationState unit)%type.
Notation sound_s := (λ s, sound (st_world s)).
Notation action_guarantee := (λ a, on_state (guarantee (action_owns a) (action_writes a))).

(** The leaf that an unfinished thread initialises, or that it monitors *)
Definition initialising (ap : Thread) : option nat :=
  if is_done ap.2 then None
  else match ap.1 with ATask _ t _ => init_leaf_of t | _ => None end.
Definition monitoring (ap : Thread) : option nat :=
  if is_done ap.2 then None else match ap.1 with AMonitor l => Some l | _ => None end.

Definition being_initialised (y : System) : list nat :=
  inits (w_tasks (y_world y)) ++ omap initialising (y_threads y).
Definition being_monitored (y : System) : list nat := omap monitoring (y_threads y).

(** A leaf that waits for its initialisation or is in the middle of it is nobody else's,
    and a monitor does one turn at a time. *)
Record single_writers (y : System) : Prop := {
  sw_inits : NoDup (being_initialised y);
  sw_new : ∀ l, l ∈ being_initialised y → has l (y_world y) ∧ l ∉ y_monitors y;
  sw_turns : NoDup (being_monitored y);
  sw_monitors : ∀ l, l ∈ being_monitored y → l ∈ y_monitors y;
}.

Lemma resume_sublist (f : Thread → option nat) i (s s' : FederationState) ps ps' :
  (∀ i p p', is_done p = false → f (i, p') = f (i, p) ∨ f (i, p') = None) →
  pool_step i (s, ps) (s', ps') → omap f ps' `sublist_of` omap f ps.
Proof.
  intros Hf. inversion_clear 1 as [c ? before p after p' ? Hr]. rewrite !omap_app. cbn.
  apply sublist_app; [done|]. assert (is_done p = false) as Hp by by destruct p.
  destruct (Hf i p p' Hp) as [-> | ->]; [done|]. destruct (f (i, p)); [by apply sublist_cons|done].
Qed.
Lemma initialising_resumed i (p p' : Proc FederationState unit) :
  is_done p = false → initialising (i, p') = initialising (i, p) ∨ initialising (i, p') = None.
Proof. intros Hp. unfold initialising. cbn. rewrite Hp. destruct (is_done p'); auto. Qed.
Lemma monitoring_resumed i (p p' : Proc FederationState unit) :
  is_done p = false → monitoring (i, p') = monitoring (i, p) ∨ monitoring (i, p') = None.
Proof. intros Hp. unfold monitoring. cbn. rewrite Hp. destruct (is_done p'); auto. Qed.

Lemma omap_snoc (f : Thread → option nat) ths ap :
  omap f (ths ++ [ap]) = omap f ths ++ option_list (f ap).
Proof. rewrite omap_app. cbn. by destruct (f ap). Qed.

(** Beginning a task moves its leaf from the pending tasks to the threads. *)
Lemma begin_initialised g a y :
  enabled_in (y_monitors y) (y_state y) a →
  being_initialised (begun g a y) ⊆+ being_initialised y.
Proof.
  intros Hen. unfold being_initialised, y_world. cbn [begun y_state y_threads]. rewrite omap_snoc.
  assert (∀ ap, is_task ap.1 = false → initialising ap = None) as Hother
    by (intros [b p] Hb; unfold initialising; cbn in *; by destruct (is_done p), b).
  destruct (is_task a) eqn:Ht; [|rewrite (Hother (a, _)) by done; destruct a; try discriminate Ht;
    by rewrite app_nil_r].
  destruct a as [| | |before t after| | | | | | | |]; try discriminate Ht. cbn in Hen.
  unfold in_world, lift_state. cbn. rewrite Hen, !inits_app, inits_cons.
  unfold initialising at 2. cbn. destruct (is_done _); cbn; [|solve_submseteq].
  rewrite app_nil_r. destruct (init_leaf_of t); cbn; solve_submseteq.
Qed.

Lemma submseteq_NoDup {A} (l k : list A) : l ⊆+ k → NoDup k → NoDup l.
Proof.
  intros Hl. revert k Hl. induction l as [|x l IH]; intros k Hl Hk; [constructor|].
  apply submseteq_cons_l in Hl as (k' & Hp & Hl'). rewrite Hp in Hk.
  apply NoDup_cons in Hk as [Hx Hk]. constructor; [|by eapply IH].
  intros Hin. apply Hx. by eapply elem_of_submseteq.
Qed.

Lemma begin_single g a y :
  enabled_in (y_monitors y) (y_state y) a → alone a (y_threads y) → system_wf y →
  single_writers y → single_writers (begun g a y).
Proof.
  intros Hen Hal Hy []. pose proof (begin_initialised g a y Hen) as Hsub.
  destruct (accept_sound _ _ _ Hen (y_sound _ Hy)) as (_ & Hh & _). split.
  - by eapply submseteq_NoDup.
  - intros l Hl. destruct (sw_new0 l) as [Hl' Hm]; [by eapply elem_of_submseteq|].
    split; [|done]. unfold has, y_world. cbn. by rewrite Hh.
  - unfold being_monitored. cbn. rewrite omap_snoc. apply NoDup_app. split_and!; [done| |].
    + intros l Hl Hl'. unfold monitoring in Hl' at 1. cbn in Hl'.
      destruct (is_done (p_act g a)); [by apply not_elem_of_nil in Hl'|].
      destruct a; cbn in Hl'; try by apply not_elem_of_nil in Hl'.
      apply list_elem_of_singleton in Hl' as ->.
      apply list_elem_of_omap in Hl as ([b p] & Hin & Hb). unfold monitoring in Hb. cbn in Hb.
      destruct (is_done p) eqn:Hp; [done|]. destruct b; simplify_eq. by rewrite (Hal _ p eq_refl) in Hp.
    + destruct (monitoring _); [apply NoDup_singleton|constructor].
  - unfold being_monitored. cbn. intros l. rewrite omap_snoc, elem_of_app. intros [Hl|Hl]; [auto|].
    unfold monitoring in Hl. cbn in Hl.
    destruct (is_done (p_act g a)); [by apply not_elem_of_nil in Hl|].
    destruct a; cbn in Hl; try by apply not_elem_of_nil in Hl.
    by apply list_elem_of_singleton in Hl as ->.
Qed.

Lemma resume_single a y s ths :
  pool_step a (y_state y, y_threads y) (s, ths) → system_wf y → single_writers y →
  single_writers (with_threads s ths y).
Proof.
  intros Hst Hy []. destruct (pool_rg sound_s (on_state persists) action_guarantee _ a _ _ _ _
    (λ i s s', guarantee_persists _ _ _ _) Hst (y_sound _ Hy) (y_safe _ Hy)) as (_ & Hg & _).
  pose proof (guarantee_persists _ _ _ _ Hg) as Hp. destruct Hg as [_ _ (ts & Hts & Hnd & Hf)].
  pose proof (resume_sublist _ _ _ _ _ _ initialising_resumed Hst) as Hi.
  pose proof (resume_sublist _ _ _ _ _ _ monitoring_resumed Hst) as Hm.
  unfold being_initialised, being_monitored, y_world in *.
  assert (inits (w_tasks (st_world s)) ++ omap initialising ths ⊆+
    inits ts ++ (inits (w_tasks (st_world (y_state y))) ++ omap initialising (y_threads y))) as Hsub.
  { rewrite Hts, inits_app. etrans; [by apply submseteq_app, sublist_submseteq, Hi|].
    solve_submseteq. }
  split; cbn.
  - eapply submseteq_NoDup; [exact Hsub|]. apply NoDup_app. split_and!; [done| |done].
    by intros l [Hn _]%Hf [? _]%sw_new0.
  - intros l Hl. apply (elem_of_submseteq _ _ _ Hl) in Hsub. apply elem_of_app in Hsub as [Hl'|Hl'].
    + apply Hf in Hl' as [Hn Hhas]. split; [done|]. by intros ?%(y_monitors_wf _ Hy).
    + destruct (sw_new0 l Hl'). split; [by eapply persists_has|done].
  - by apply (sublist_NoDup _ (omap monitoring (y_threads y))).
  - intros l Hl. apply sw_monitors0. eapply elem_of_submseteq; [exact Hl|]. by apply sublist_submseteq.
Qed.

Lemma step_single g a y y' : step g a y y' → system_wf y → single_writers y → single_writers y'.
Proof.
  intros [y0 Hen Hal _|y0 s ths Hst|y0 rq before p after -> Hths].
  - by apply begin_single.
  - by apply (resume_single a).
  - intros _ []. unfold being_initialised, being_monitored, y_world in *.
    assert (∀ f : Thread → option nat, f (ARequest rq, p) = None → f (ARequest rq, Done tt) = None →
      omap f (before ++ (ARequest rq, Done tt) :: after) = omap f (y_threads y0)) as Hf.
    { intros f Hp Hd. rewrite Hths, !omap_app. cbn. by rewrite Hp, Hd. }
    assert (∀ q : Proc FederationState unit, initialising (ARequest rq, q) = None ∧
      monitoring (ARequest rq, q) = None) as Hnone
      by (intros q; unfold initialising, monitoring; cbn; by destruct (is_done q)).
    pose proof (Hf initialising ltac:(apply Hnone) ltac:(apply Hnone)) as Hi.
    pose proof (Hf monitoring ltac:(apply Hnone) ltac:(apply Hnone)) as Hm.
    split; unfold being_initialised, being_monitored, y_world; cbn [with_threads y_state y_threads];
      by rewrite ?Hi, ?Hm.
Qed.

Lemma reachable_wf `{!Base64} cli random crd_up e r g y :
  starts cli random crd_up e r → rtc (some_step g) (started r) y →
  system_wf y ∧ single_writers y.
Proof.
  intros Hstarts Hr. pose proof (started_wf _ _ _ _ _ Hstarts) as Hwf.
  assert (single_writers (started r)) as Hs.
  { apply starts_initialized in Hstarts as (cfg & _ & _ & [_ Ht _ _ _ _] & _).
    split; unfold being_initialised, y_world; cbn; rewrite ?Ht;
      [constructor|by intros l ?%not_elem_of_nil|constructor|by intros l ?%not_elem_of_nil]. }
  revert Hwf Hs. induction Hr as [y|y1 y2 y3 [a Hst] _ IH]; [done|]. intros Hwf Hs.
  apply IH; [by eapply step_wf|by eapply step_single].
Qed.

Lemma writes_decided a l : Decision (action_writes a l).
Proof. destruct a; cbn; try (right; tauto); unfold task_writes; apply _. Qed.
Lemma resume_thread a (s s' : FederationState) (ps ps' : list Thread) :
  pool_step a (s, ps) (s', ps') → ∃ p, (a, p) ∈ ps ∧ is_done p = false.
Proof.
  inversion_clear 1 as [c ? before p after p' ? Hr]. exists p. split; [set_solver|].
  by destruct p.
Qed.

(** The status of a monitored leaf is its monitor's. *)
Lemma status_kept g a y y' l :
  step g a y y' → system_wf y → single_writers y → l ∈ y_monitors y → a ≠ AMonitor l →
  status (entry l (y_world y')) = status (entry l (y_world y)).
Proof.
  intros Hst Hwf [] Hm Hne. destruct (step_guarantee g a y y' Hst Hwf) as (_ & _ & Hs).
  destruct (writes_decided a l) as [Hw|Hw]; [|by apply Hs; [|apply y_monitors_wf]].
  destruct Hst as [y Hen Hal|y s ths Hst|y rq before p after _ _]; [| |done].
  - destruct (accept_sound _ _ _ Hen (y_sound _ Hwf)) as (_ & Hh & _).
    unfold y_world, entry. cbn. by rewrite Hh.
  - destruct a as [| | |before t after|l'| | | | | | |]; cbn in Hw; try done; [|congruence].
    destruct (sw_new0 l) as [_ Hn]; [|done]. apply elem_of_app. right.
    apply resume_thread in Hst as (p & Hin & Hp). apply list_elem_of_omap.
    exists (ATask before t after, p). split; [done|]. unfold initialising. cbn. by rewrite Hp.
Qed.

(** (C17) The status of a leaf, its health and its count of failures, has one writer at a
    time, although nothing locks the two together: a leaf that is added at run time is
    written by its own initialisation only, which is pending or under way once; any other
    is written by its monitor only, which takes one turn at a time.  So while a monitor is
    in the middle of a turn, whatever step any other thread takes leaves the status as the
    monitor saw it, and no failure is lost or counted twice. *)
Theorem status_has_one_writer `{!Base64} cli random crd_up e r g y :
  starts cli random crd_up e r → rtc (some_step g) (started r) y →
  NoDup (being_initialised y ++ being_monitored y) ∧
  ∀ l a y', l ∈ being_monitored y → step g a y y' → a ≠ AMonitor l →
    status (entry l (y_world y')) = status (entry l (y_world y)).
Proof.
  intros Hmain Hr. destruct (reachable_wf _ _ _ _ _ _ _ Hmain Hr) as [Hwf []]. split.
  - apply NoDup_app. split_and!; [done| |done]. intros l [_ Hn]%sw_new0 Hl. by apply Hn, sw_monitors0.
  - intros l a y' Hl Hst Hne. eapply status_kept; eauto. by split.
Qed.
End one_writer.

(** ** Witness *)
Import System.Example.

(** A reload goes on in the middle of a check of [alpha]. *)
Lemma status_has_one_writer_witness :
  ∃ r l s ths, server_starts r ∧
    let y := taking [AMonitor l; AReload] r in
    l ∈ being_monitored y ∧ step g AReload y (with_threads s ths y) ∧
    status (entry l (st_world s)) = status (entry l (y_world y)).
Proof.
  destruct outcome_starts as [r Hr]. destruct (example_alpha r Hr) as (l & _ & Hl).
  set (y := taking [AMonitor l; AReload] r).
  destruct (resume true (p_act g AReload) (y_state y)) as [[p s]|] eqn:Hres; [|discriminate Hres].
  set (ths := [(AStart, Done tt); (AMonitor l, p_act g (AMonitor l)); (AReload, p)]).
  exists r, l, s, ths. split; [exact Hr|]. cbv zeta.
  assert (l ∈ being_monitored y) as Hm by (unfold being_monitored; cbn; left).
  assert (step g AReload y (with_threads s ths y)) as Hst.
  { apply step_resume. exact (pool_resume AReload true _ [_; _] _ [] _ _ Hres). }
  split_and!; [exact Hm|exact Hst|].
  assert (rtc (some_step g) (started r) y) as Hy.
  { apply taking_steps.
    - apply NoDup_cons; split; [|apply NoDup_singleton]. by intros ?%list_elem_of_singleton.
    - set_solver.
    - set_solver.
    - intros a [->| ->%list_elem_of_singleton]%elem_of_cons; done. }
  destruct (status_has_one_writer _ _ _ _ r g y Hr Hy) as [_ Hs].
  by apply (Hs l AReload _ Hm Hst).
Defined.
