(* ===== verification/Settling.v ===== *)
(** * Settling: every leaf is decided

    A leaf is added with the health unknown.  Its initialisation decides it: healthy or
    unhealthy, whatever the leaf answers; and nobody makes a leaf unknown again.  So a leaf
    that is not decided waits for its initialisation or is in the middle of it, and once the
    program has come to rest there is none. *)
From S2P Require Import Prelude Text Json Protocol F64 Env Config RateLimit Rbac Session.
From S2P Require Import Notifications LeafClient Scenario Registry Health Aggregator Router.
From S2P Require Import Server DnsDiscovery CrdDiscovery Status Api Reload App Main Threads.
From S2P Require Import Actions Awaits SameCode Guarantee Startup System Work OneWriter.
Open Scope string_scope.
Open Scope list_scope.

Definition decided (l : nat) (w : World) : Prop := has l w ∧ le_health (entry l w) ≠ Unknown.

Lemma decided_persists l w w' : persists w w' → decided l w → decided l w'.
Proof.
  intros Hp [[e He] Hd]. rewrite (entry_lookup _ _ _ He) in Hd.
  destruct (Hp l e He) as (e' & He' & _ & _ & Hev). split; [by eexists|].
  rewrite (entry_lookup _ _ _ He'). auto.
Qed.

(** ** The initialisation of a leaf *)
Section initialisation.
Context `{!Os, !Http, !Serde, !MapOrder, !Kube} (owns : string → Prop) (writes : nat → Prop).
Notation ends_in Q p w := (rg sound persists (guarantee owns writes) p Q w).

(** Once it is decided, a thread may do what it likes. *)
Lemma stays_decided {A} l (p : Proc World A) w :
  guarded owns writes p → sound w → decided l w → ends_in (λ _, decided l) p w.
Proof.
  intros Hp Hw Hd. eapply rg_mono; [|apply (rg_stable sound persists (guarantee owns writes) persists
    (guarantee owns writes) (decided l) p (λ _ _, True)); [| |exact Hd|by apply Hp]].
  - by intros a w' _ [_ ?].
  - intros u u' Hr. split; [done|by apply decided_persists].
  - intros u u' Hg Hu. split; [done|]. eapply decided_persists; [|exact Hu].
    by eapply guarantee_persists.
Qed.
(** The first write decides it. *)
Lemma write_decides {A} l f (p : Proc World A) w :
  writes l → (∀ e, evolved e (f e)) → (∀ e, le_health (f e) ≠ Unknown) → guarded owns writes p →
  sound w → has l w → ends_in (λ _, decided l) (_ ← atom (update l f); p) w.
Proof.
  intros Hl Hev Hf Hp Hw Hh. apply rg_bind; [apply _|done|]. apply rg_atom. intros w1 Hw1 Hr1.
  destruct (write_well owns writes l f Hl Hev w1 Hw1) as [Hs Hg]. split_and!; [done..|].
  intros u Hu Hru. apply stays_decided; [done..|]. eapply decided_persists; [exact Hru|].
  destruct (persists_has l w w1 Hr1 Hh) as [e He]. pose proof (update_lookup l f w1 e He) as He'.
  split; [by eexists|]. by rewrite (entry_lookup _ _ _ He').
Qed.
Lemma then_stays {A B} l (p : Proc World A) (f : A → Proc World B) w :
  sound w → ends_in (λ _, decided l) p w → (∀ a, guarded owns writes (f a)) →
  ends_in (λ _, decided l) (p ≫= f) w.
Proof.
  intros Hw Hp Hf. apply rg_bind; [apply _|done|]. eapply rg_mono; [|exact Hp].
  intros a u Hu Hd. by apply stays_decided.
Qed.
(** The leaf is still there after a thread. *)
Lemma has_then {A B} l (p : Proc World A) (f : A → Proc World B) Q w :
  guarded owns writes p → sound w → has l w →
  (∀ a u, sound u → has l u → ends_in Q (f a) u) → ends_in Q (p ≫= f) w.
Proof.
  intros Hp Hw Hh Hf. apply rg_bind; [apply _|done|].
  eapply rg_mono; [|apply (rg_stable sound persists (guarantee owns writes) persists
    (guarantee owns writes) (has l) p (λ _ _, True)); [| |exact Hh|by apply Hp]].
  - intros a u Hu [_ Hhu]. by apply Hf.
  - intros u u' Hr. split; [done|by apply persists_has].
  - intros u u' Hg Hu. split; [done|]. by eapply persists_has, Hu; eapply guarantee_persists.
Qed.
Lemma init_leaf_decides l keep w :
  writes l → sound w → has l w → ends_in (λ _, decided l) (p_init_leaf l keep) w.
Proof.
  intros Hl Hw Hh. apply (has_then l); [auto with well|done..|]. intros [v|err] u Hu Hhu.
  - unfold p_note_initialized. do 2 (apply then_stays; [done| |intros; auto 20 with well]).
    apply write_decides; try done; auto 20 with well.
  - apply then_stays; [done| |auto with well]. apply write_decides; try done; auto 20 with well.
Qed.
End initialisation.

(** ** The whole program *)
Section system.
Context `{!Os, !Http, !Serde, !MapOrder, !Unicode, !Jwt, !HeaderValue, !Axum, !Kube, !Dig, !Yaml}.
Notation Thread := (SystemAction * Proc FederationState unit)%type.
Notation sound_s := (λ s, sound (st_world s)).
Notation action_guarantee := (λ a, on_state (guarantee (action_owns a) (action_writes a))).

(** The leaf that an action initialises; how the action ends *)
Definition initialises (a : SystemAction) : option nat :=
  match a with ATask _ t _ => init_leaf_of t | _ => None end.
Definition action_ends (a : SystemAction) (s : FederationState) : Prop :=
  ∀ l, initialises a = Some l → decided l (st_world s).
Notation ends_well s := (safe sound_s (on_state persists) action_guarantee action_ends s).

Lemma act_ends_well g monitors a s :
  enabled_in monitors s a → sound (st_world s) → ends_well s (a, p_act g a).
Proof.
  intros Hen Hs. unfold safe. cbn [fst snd].
  destruct (initialises a) as [l|] eqn:Ha.
  2: { eapply rg_mono; [|by apply act_guarded]. intros u s' _ _ l Hl. congruence. }
  destruct a as [| | |before [|l' keep report|] after| | | | | | | |]; try discriminate Ha.
  injection Ha as ->. cbn [p_act].
  assert (has l (st_world s)) as Hh.
  { destruct Hs as [[_ Ht] _]. apply (Ht (TInit l keep report)). cbn in Hen. rewrite Hen. set_solver. }
  apply (rg_mono _ _ _ _ (λ _ s', decided l (st_world s'))).
  { intros u s' _ Hd l' [= <-]. exact Hd. }
  apply (rg_focus st_world (@in_world) sound persists _ _ (λ _, decided l)).
  { intros B m t. unfold in_world, lift_state. by destruct (m _). }
  cbn [p_run_task]. apply then_stays; [done| |].
  - by apply init_leaf_decides.
  - intros ok. destruct report; auto 20 with well.
Qed.

(** An undecided leaf is initialised by a pending task or by a thread. *)
Record settling (y : System) : Prop := {
  se_threads : Forall (ends_well (y_state y)) (y_threads y);
  se_undecided : ∀ l, has l (y_world y) → le_health (entry l (y_world y)) ≠ Unknown ∨
    l ∈ inits (w_tasks (y_world y)) ∨ ∃ a p, (a, p) ∈ y_threads y ∧ initialises a = Some l;
}.

Lemma settling_begins g a y :
  enabled_in (y_monitors y) (y_state y) a → system_wf y → settling y → settling (begun g a y).
Proof.
  intros Hen Hwf [Hth Hu]. pose proof (y_sound _ Hwf) as Hs.
  destruct (accept_sound _ _ _ Hen Hs) as (Hs' & Hh & _).
  assert (on_state persists (y_state y) (accept a (y_state y)).2) as Hp
    by (intros l e He; exists e; by rewrite Hh).
  split; cbn [begun y_state y_threads].
  - apply Forall_app. split; [by apply (safe_interfere _ _ _ _ (y_state y))|]. constructor; [|constructor].
    eapply rg_interfere; [apply _|exact Hp|]. by eapply act_ends_well.
  - unfold y_world, has, entry in *. cbn [begun y_state] in *. rewrite Hh. intros l Hl.
    destruct (Hu l Hl) as [?|[Hin|(b & p & Hin & Hb)]]; [by left|right..].
    + destruct a as [| | |before t after| | | | | | | |]; try (by left). cbn in Hen |- *.
      unfold in_world, lift_state. cbn. rewrite Hen, inits_app, inits_cons in Hin.
      rewrite inits_app. destruct (init_leaf_of t) as [l'|] eqn:Ht; [|left; set_solver].
      destruct (decide (l = l')) as [->|]; [|left; set_solver].
      right. eexists _, _. split; [apply elem_of_app; right; left|done].
    + right. exists b, p. split; [set_solver|done].
Qed.
Lemma settling_goes_on a y s ths :
  pool_step a (y_state y, y_threads y) (s, ths) → system_wf y → settling y →
  settling (with_threads s ths y).
Proof.
  intros Hst Hwf [Hth Hu]. destruct (pool_rg sound_s (on_state persists) action_guarantee _ a _ _ _ _
    (λ i s s', guarantee_persists _ _ _ _) Hst (y_sound _ Hwf) Hth) as (_ & Hg & Hth').
  pose proof (guarantee_persists _ _ _ _ Hg) as Hp. destruct Hg as [_ _ (ts & Hts & _ & Hnew)].
  split; [done|]. unfold y_world in *. cbn [with_threads y_state y_threads]. intros l Hl.
  rewrite Hts, inits_app. destruct (decide (has l (st_world (y_state y)))) as [Hold|Hn].
  - destruct (Hu l Hold) as [Hd|[Hin|(b & p & Hin & Hb)]].
    + left. by apply (decided_persists l (st_world (y_state y))).
    + right; left. set_solver.
    + right; right. assert (b ∈ ths.*1) as ([b' p'] & -> & Hin')%list_elem_of_fmap; [|eauto].
      rewrite (pool_labels _ _ _ _ _ Hst). apply list_elem_of_fmap. by exists (b, p).
  - right; left. apply elem_of_app. right. by apply Hnew.
Qed.
Lemma settling_step g a y y' : step g a y y' → system_wf y → settling y → settling y'.
Proof.
  intros [y0 Hen _ _|y0 s ths Hst|y0 rq before p after -> Hths].
  - by apply settling_begins.
  - by apply (settling_goes_on a).
  - intros _ [Hth Hu]. split; unfold y_world in *; cbn [with_threads y_state y_threads].
    + rewrite Hths in Hth. apply Forall_app in Hth as [Hb [_ Ha]%Forall_cons].
      apply Forall_app. split; [done|]. by constructor.
    + intros l Hl. destruct (Hu l Hl) as [?|[?|(b & q & Hin & Hb)]]; [auto..|].
      right; right. exists b, q. split; [|done]. rewrite Hths in Hin.
      apply elem_of_app in Hin as [?|[[= -> ->]|?]%elem_of_cons]; [set_solver|done|set_solver].
Qed.
Lemma settling_steps g y y' :
  rtc (some_step g) y y' → system_wf y → settling y → settling y'.
Proof.
  induction 1 as [y|y1 y2 y3 [a Hst] _ IH]; [done|]. intros Hwf Hs.
  apply IH; [by eapply step_wf|by eapply settling_step].
Qed.

Lemma started_settling `{!Base64} cli random crd_up e r :
  starts cli random crd_up e r → settling (started r).
Proof.
  intros (cfg & _ & _ & Hin & _)%starts_initialized. split; cbn.
  - constructor; [|constructor]. eapply rg_mono; [|
      apply (p_in_world_guarded _ _ _ (spawn_listeners_guarded nowhere nothing))].
    + by intros u s' _ _ l Hl.
    + split; [apply Hin|]. rewrite (in_broker_new _ _ Hin). apply broker_new_wf.
  - intros l Hl. left. destruct (in_listed _ _ Hin l Hl) as [a Ha].
    assert (a ∈ (Config.alias <$> servers cfg)) as (c & -> & Hc)%list_elem_of_fmap
      by (apply (in_aliases _ _ Hin); eauto).
    destruct (in_settled _ _ Hin c Hc) as (l' & Hl' & x & Hx & _ & Hs).
    assert (l' = l) as -> by congruence. unfold y_world. cbn. rewrite (entry_lookup _ _ _ Hx).
    by destruct Hs as [[-> _]| ->].
Qed.

Lemma settling_undecided y l :
  settling y → system_wf y → has l (y_world y) →
  le_health (entry l (y_world y)) = Unknown → l ∈ being_initialised y.
Proof.
  intros [Hth Hu] Hwf Hl Hd. unfold being_initialised. rewrite elem_of_app.
  destruct (Hu l Hl) as [?|[?|(b & p & Hin & Hb)]]; [done|by left|]. right.
  apply list_elem_of_omap. exists (b, p). split; [done|]. unfold initialising. cbn [fst snd].
  destruct p as [u| |]; cbn [is_done]; [exfalso|by destruct b..].
  pose proof (proj1 (Forall_forall _ _) Hth _ Hin (y_state y) (y_sound _ Hwf) ltac:(reflexivity) l Hb)
    as [_ ?]. done.
Qed.

(** (C16) Every leaf gets decided.  Whenever a leaf is added, by whatever source, and
    whatever it answers: until its health is known, the task that initialises it is pending
    or under way; and if nothing more arrives from outside, every schedule comes to rest
    after finitely many steps, and then each leaf of the table is healthy or unhealthy. *)
Theorem leaves_get_decided `{!Base64} cli random crd_up e r g y :
  starts cli random crd_up e r → rtc (some_step g) (started r) y →
  (∀ l, has l (y_world y) → le_health (entry l (y_world y)) = Unknown → l ∈ being_initialised y) ∧
  sn (working g) y ∧
  ∀ y' alias l, rtc (working g) y y' → resting g y' → w_leaves (y_world y') !! alias = Some l →
    le_health (entry l (y_world y')) ≠ Unknown.
Proof.
  intros Hstarts Hy. pose proof (started_wf _ _ _ _ _ Hstarts) as Hwf0.
  assert (∀ y, rtc (some_step g) (started r) y → settling y ∧ system_wf y) as Hreach.
  { intros u Hu. split; [|by apply (steps_wf g (started r))].
    by apply (settling_steps g (started r)); [..|eapply started_settling]. }
  destruct (Hreach y Hy) as [Hs Hwf]. split_and!.
  - intros l. by apply settling_undecided.
  - by eapply reachable_sn.
  - intros y' alias l Hw Hrest Ha Hd. destruct (resting_done _ _ Hrest) as [Hdone Htasks].
    destruct (Hreach y') as [Hs' Hwf']; [by etrans; [|apply working_steps]|].
    assert (has l (y_world y')) as Hl.
    { destruct (y_sound _ Hwf') as [[Ht _] _]. destruct (Ht _ _ Ha) as (x & Hx & _). by exists x. }
    pose proof (settling_undecided y' l Hs' Hwf' Hl Hd) as Hin. unfold being_initialised in Hin.
    rewrite Htasks in Hin. cbn in Hin. apply list_elem_of_omap in Hin as ([b p] & Hin & Hi).
    apply (proj1 (Forall_forall _ _) Hdone) in Hin. unfold initialising in Hi. cbn in *.
    by rewrite Hin in Hi.
Qed.
End system.

(** ** Witness *)
Import System.Example.

(** A leaf is registered while a reload goes on; when both are over it is decided. *)
Lemma leaves_get_decided_witness :
  ∃ r, server_starts r ∧
    let y := schedule [(1, true); (2, true); (1, true)]%nat (taking [registration; AReload] r) in
    sn (working g) y ∧
    ∀ y' alias l, rtc (working g) y y' → resting g y' → w_leaves (y_world y') !! alias = Some l →
      le_health (entry l (y_world y')) ≠ Unknown.
Proof.
  destruct outcome_starts as [r Hr]. exists r. split; [exact Hr|].
  apply (leaves_get_decided _ _ _ _ r g _ Hr). etrans; [|apply schedule_steps]. apply taking_steps.
  - apply NoDup_cons; split; [|apply NoDup_singleton]. by intros ?%list_elem_of_singleton.
  - set_solver.
  - set_solver.
  - intros a [->| ->%list_elem_of_singleton]%elem_of_cons; done.
Defined.
