(* ===== verification/Breaker.v ===== *)
(** * Breaker: the circuit breaker under interleaving

    A monitor reads and writes the health and the failure count of its leaf in separate
    parts, each behind its own lock, with requests in between.  A turn is verified here
    against what System.v shows of the others: they leave the status of a monitored leaf
    alone.  So a turn counts its check exactly once, whatever runs in the middle of it, and
    the status of a leaf is always that of the breaker of Health.v on some sequence of
    outcomes. *)
From S2P Require Import Prelude Text Json Protocol F64 Env Config RateLimit Rbac Session.
From S2P Require Import Notifications LeafClient Scenario Registry Health Aggregator Router.
From S2P Require Import Server DnsDiscovery CrdDiscovery Status Api Reload App Main Threads.
From S2P Require Import Actions Awaits SameCode Guarantee Writers Startup System OneWriter.
Open Scope string_scope.
Open Scope list_scope.

(** The status after a check *)
Definition checked (thr : Z) (ok : bool) (st : LeafHealth * Z) : LeafHealth * Z :=
  if ok then (Healthy, 0%Z)
  else (if (thr <=? succ_u32 st.2)%Z then Unhealthy else st.1, succ_u32 st.2).

Lemma run_checks_snoc thr outcomes t ok e :
  status (run_checks thr (outcomes ++ [(t, ok)]) e) =
  checked thr ok (status (run_checks thr outcomes e)).
Proof.
  unfold run_checks. rewrite foldl_app. cbn. destruct ok; [done|].
  unfold check_failed, record_failure, checked, status. cbn. by destruct (_ <=? _)%Z.
Qed.

(** ** One turn *)
Section turn.
Context `{!Os, !Http, !Serde, !MapOrder, !Kube} (l : nat).
Notation turn p Q w := (rg sound (writer_rely l) (guarantee nothing (eq l)) p Q w).

(** A turn counts its check once. *)
Lemma turn_counts w :
  sound w → has l w →
  turn (p_monitor_turn l) (λ _ w', ∃ ok, in_status l
    (checked (threshold (health_check (le_config (entry l w)))) ok (status (entry l w))) w') w.
Proof.
  intros Hw [e He]. rewrite (entry_lookup _ _ _ He). set (thr := threshold _).
  assert (in_status l (status e) w) as Hst by (split; [by exists e|by rewrite (entry_lookup _ _ _ He)]).
  destruct (status e) as [h f] eqn:Hse. clear Hse.
  unfold p_monitor_turn. apply rg_bind; [apply _|done|]. apply rg_atom.
  intros w1 Hw1 Hr1. split_and!; [done|reflexivity|]. intros w2 Hw2 Hr2. cbn [m_gets fst].
  assert (health_check (le_config (entry l w1)) = health_check (le_config e)) as ->.
  { destruct Hr1 as [Hp _]. destruct (Hp l e He) as (e1 & He1 & [Hc _]).
    by rewrite (entry_lookup _ _ _ He1), Hc. }
  fold thr. assert (in_status l (h, f) w2) as Hst2
    by (eapply in_status_rely; [|exact Hst]; by etrans).
  apply rg_bind; [apply _|done|].
  eapply rg_mono; [|apply (writer_quiet l _ (h, f)); [auto 10 with well|done|done]].
  intros r w3 Hw3 Hst3. apply rg_bind; [apply _|done|].
  apply (rg_mono _ _ _ _ (λ _ w', ∃ ok, in_status l (checked thr ok (h, f)) w')).
  { intros [] w4 Hw4 [ok Hst4]. eapply rg_mono;
      [|by apply (writer_quiet l _ (checked thr ok (h, f))); [auto 10 with well|..]].
    intros n w5 _ Hst5. by exists ok. }
  destruct r as [u|err].
  - apply rg_bind; [apply _|done|].
    eapply rg_mono; [|apply (writer_quiet l _ (h, f)); [auto 10 with well|done|done]].
    intros was w4 Hw4 Hst4. apply rg_bind; [apply _|done|].
    eapply rg_mono; [|by apply (writer_mark_healthy l (h, f))]. intros [] w5 Hw5 Hst5.
    eapply rg_mono; [|apply (writer_quiet l _ (Healthy, 0%Z)); [auto 10 with well|done|done]].
    intros [] w6 _ Hst6. by exists true.
  - apply rg_bind; [apply _|done|].
    eapply rg_mono; [|by apply (writer_record_failure l h f)]. intros n w4 Hw4 [-> Hst4].
    destruct (thr <=? succ_u32 f)%Z eqn:Hthr.
    + eapply rg_mono; [|by apply (writer_write l _ (λ st, (Unhealthy, st.2)) (h, succ_u32 f))].
      intros n w5 _ Hst5. exists false. cbn. by rewrite Hthr.
    + eapply rg_mono; [|by apply (writer_quiet l (Done tt) (h, succ_u32 f)); [auto with well|..]].
      intros n w5 _ Hst5. exists false. cbn. by rewrite Hthr.
Qed.
End turn.

(** ** The whole program *)
Section breaker.
Context `{!Os, !Http, !Serde, !MapOrder, !Unicode, !Jwt, !HeaderValue, !Axum, !Kube, !Dig, !Yaml}.
Notation Thread := (SystemAction * Proc FederationState unit)%type.

(** The turns that the monitor of [l] has begun *)
Definition is_turn (l : nat) (a : SystemAction) : bool :=
  match a with AMonitor l' => bool_decide (l' = l) | _ => false end.
Definition turns (l : nat) (ths : list Thread) : nat :=
  length (filter (λ ap : Thread, is_turn l ap.1 = true) ths).

Lemma is_turn_true l a : is_turn l a = true ↔ a = AMonitor l.
Proof.
  split; [|by intros ->; cbn; rewrite bool_decide_eq_true_2].
  destruct a; cbn; try done. by intros ->%bool_decide_eq_true_1.
Qed.
Lemma turns_snoc l ths a p :
  turns l (ths ++ [(a, p)]) = (turns l ths + if is_turn l a then 1 else 0)%nat.
Proof.
  unfold turns. rewrite filter_app, length_app, filter_cons, filter_nil. cbn.
  by destruct (is_turn l a).
Qed.
Lemma turns_labels l (ths ths' : list Thread) : ths'.*1 = ths.*1 → turns l ths' = turns l ths.
Proof.
  unfold turns. revert ths'. induction ths as [|[a p] ths IH]; intros [|[a' p'] ths']; try done.
  intros [= -> Hl]. rewrite !filter_cons. cbn. specialize (IH ths' Hl).
  case_decide; cbn; congruence.
Qed.
Lemma monitored_iff l y :
  l ∈ being_monitored y ↔ ∃ p, (AMonitor l, p) ∈ y_threads y ∧ is_done p = false.
Proof.
  unfold being_monitored. rewrite list_elem_of_omap. split.
  - intros ([a p] & Hin & Hm). unfold monitoring in Hm. cbn in Hm.
    destruct (is_done p) eqn:Hp; [done|]. destruct a; simplify_eq. eauto.
  - intros (p & Hin & Hp). exists (AMonitor l, p). split; [done|]. unfold monitoring. cbn.
    by rewrite Hp.
Qed.

(** A thread in the middle of a turn that finds the leaf in a status *)
Definition in_turn (l : nat) (thr : Z) (st : LeafHealth * Z) (p : Proc FederationState unit)
    (s : FederationState) : Prop :=
  rg (λ s, sound (st_world s)) (on_state (writer_rely l)) (on_state (guarantee nothing (eq l))) p
     (λ _ s, ∃ ok, in_status l (checked thr ok st) (st_world s)) s.

Lemma begin_turn g l s thr :
  sound (st_world s) → has l (st_world s) →
  threshold (health_check (le_config (entry l (st_world s)))) = thr →
  in_turn l thr (status (entry l (st_world s))) (p_act g (AMonitor l)) s.
Proof.
  intros Hs Hl <-. unfold in_turn. cbn [p_act]. unfold p_in_world.
  apply (rg_focus st_world (@in_world) sound (writer_rely l) (guarantee nothing (eq l))
    (_ ← p_monitor_turn l; Done tt) (λ _ w', ∃ ok, in_status l (checked _ ok _) w')).
  { intros B m t. unfold in_world, lift_state. by destruct (m _). }
  apply rg_bind; [apply _|done|]. eapply rg_mono; [|by apply turn_counts].
  intros d w' Hw' [ok Hst] w2 _ Hr. exists ok. by eapply in_status_rely.
Qed.

(** After [outcomes]: every check but the one under way *)
Record breaker_at (l : nat) (thr : Z) (e0 : LeafEntry) (outcomes : list (Z * bool)) (y : System)
  : Prop := {
  br_turns : turns l (y_threads y) =
    (length outcomes + if bool_decide (l ∈ being_monitored y) then 1 else 0)%nat;
  br_rest : l ∉ being_monitored y → status (entry l (y_world y)) = status (run_checks thr outcomes e0);
  br_turn : ∀ p, (AMonitor l, p) ∈ y_threads y → is_done p = false →
    in_turn l thr (status (run_checks thr outcomes e0)) p (y_state y);
}.

Section steps.
Context (g : Settings) (l : nat) (thr : Z) (e0 : LeafEntry).

(** A step of anybody else *)
Lemma breaker_others a y y' outcomes :
  step g a y y' → a ≠ AMonitor l → system_wf y → single_writers y → l ∈ y_monitors y →
  breaker_at l thr e0 outcomes y → breaker_at l thr e0 outcomes y'.
Proof.
  intros Hst Ha Hwf Hsw Hl [Hn Hq Ht].
  pose proof (status_kept _ _ _ _ _ Hst Hwf Hsw Hl Ha) as Hs.
  destruct (step_guarantee _ _ _ _ Hst Hwf) as (Hp & _).
  assert (writer_rely l (y_world y) (y_world y')) as Hr by by split.
  assert (∀ p, (AMonitor l, p) ∈ y_threads y' ↔ (AMonitor l, p) ∈ y_threads y) as Hth.
  { intros p. destruct Hst as [y Hen Hal|[s0 ms ths0] s ths Hst|y rq before q after -> Hths]; cbn.
    - set_solver.
    - cbn in Hst. inversion_clear Hst. set_solver.
    - rewrite Hths. set_solver. }
  assert (turns l (y_threads y') = turns l (y_threads y)) as Ht'.
  { destruct Hst as [y Hen Hal|y s ths Hst|y rq before q after -> Hths].
    - cbn [begun y_threads]. rewrite turns_snoc.
      destruct (is_turn l a) eqn:Hi; [by apply is_turn_true in Hi|lia].
    - by eapply turns_labels, pool_labels.
    - apply turns_labels. cbn [with_threads y_threads]. by rewrite Hths, !fmap_app. }
  assert (l ∈ being_monitored y' ↔ l ∈ being_monitored y) as Hm.
  { rewrite !monitored_iff. by setoid_rewrite Hth. }
  split.
  - rewrite Ht', Hn. by rewrite (bool_decide_ext _ _ Hm).
  - intros Hno. rewrite Hs. apply Hq. by rewrite <- Hm.
  - intros p Hin Hd. eapply rg_interfere; [apply _|exact Hr|]. apply Ht; [by apply Hth|done].
Qed.

(** The monitor begins a turn, *)
Lemma breaker_begins y outcomes :
  alone (AMonitor l) (y_threads y) → system_wf y → has l (y_world y) →
  threshold (health_check (le_config (entry l (y_world y)))) = thr →
  breaker_at l thr e0 outcomes y →
  breaker_at l thr e0 outcomes (begun g (AMonitor l) y).
Proof.
  intros Hal Hwf Hl Hthr [Hn Hq Ht]. set (y' := begun g (AMonitor l) y).
  assert (l ∉ being_monitored y) as Hno by (intros (p & Hin%(Hal _ _ eq_refl) & Hp)%monitored_iff; congruence).
  assert (l ∈ being_monitored y') as Hm.
  { apply monitored_iff. exists (p_act g (AMonitor l)). split; [|done]. unfold y'.
    cbn [begun y_threads]. set_solver. }
  split.
  - rewrite bool_decide_eq_true_2 by done. rewrite bool_decide_eq_false_2 in Hn by done.
    unfold y'. cbn [begun y_threads]. rewrite turns_snoc, Hn.
    rewrite (proj2 (is_turn_true l (AMonitor l)) eq_refl). lia.
  - done.
  - unfold y'. cbn [begun accept snd mret M_ret y_threads y_state].
    intros p [Hin%(Hal _ _ eq_refl)|Heq%list_elem_of_singleton]%elem_of_app Hp;
      [congruence|]. apply (f_equal snd) in Heq. cbn [snd] in Heq. subst p.
    rewrite <- Hq by done. by apply begin_turn; [apply Hwf|..].
Qed.

(** and goes on with it. *)
Lemma one_turn (before after : list Thread) p q :
  NoDup (omap monitoring (before ++ (AMonitor l, p) :: after)) → is_done p = false →
  (AMonitor l, q) ∈ before ++ after → is_done q = true.
Proof.
  intros Hnd Hp Hin. destruct (is_done q) eqn:Hd; [done|]. exfalso.
  assert (l ∈ omap monitoring (before ++ after)) as Hl.
  { apply list_elem_of_omap. exists (AMonitor l, q). split; [done|]. unfold monitoring. cbn.
    by rewrite Hd. }
  rewrite omap_app in Hnd, Hl. cbn in Hnd. unfold monitoring in Hnd at 2. cbn in Hnd.
  rewrite Hp in Hnd. apply NoDup_app in Hnd as (_ & Hb & [Ha _]%NoDup_cons).
  apply elem_of_app in Hl as [Hl|Hl]; [|done]. apply (Hb l Hl). left.
Qed.
Lemma breaker_goes_on y s ths outcomes :
  pool_step (AMonitor l) (y_state y, y_threads y) (s, ths) →
  system_wf y → NoDup (being_monitored y) → breaker_at l thr e0 outcomes y →
  ∃ more, breaker_at l thr e0 (outcomes ++ more) (with_threads s ths y).
Proof.
  destruct y as [s0 ms ths0]. intros Hst Hwf Hnd [Hn Hq Ht].
  pose proof (turns_labels l _ _ (pool_labels _ _ _ _ _ Hst)) as Hlab.
  change (NoDup (omap monitoring ths0)) in Hnd. unfold with_threads.
  cbn [y_state y_threads y_monitors] in *. revert Hlab Hnd Hn Hq Ht.
  inversion_clear Hst as [c ? before p after p' ? Hres]. intros Hlab Hnd Hn Hq Ht.
  assert (is_done p = false) as Hp by by destruct p.
  assert (∀ q p', (AMonitor l, q) ∈ before ++ (AMonitor l, p') :: after →
    is_done q = false → q = p') as Hothers.
  { intros q p0 [Hin|[[= ->]|Hin]%elem_of_cons]%elem_of_app Hd; [|done|];
      rewrite (one_turn before after p q) in Hd by (done || set_solver); done. }
  assert (in_turn l thr (status (run_checks thr outcomes e0)) p s0) as Hrg
    by (apply Ht; [set_solver|done]).
  destruct (rg_resume _ _ _ c p _ s0 p' s (y_sound _ Hwf) Hrg Hres) as (Hs & _ & Hrg').
  rewrite bool_decide_eq_true_2 in Hn by (apply monitored_iff; exists p; cbn [y_threads]; set_solver).
  destruct (is_done p') eqn:Hp'.
  - destruct p' as [u| |]; [|done..]. destruct (Hrg' s Hs ltac:(reflexivity)) as (ok & _ & Hst').
    exists [(0%Z, ok)].
    match goal with |- breaker_at _ _ _ _ ?y => assert (l ∉ being_monitored y) as Hno end.
    { intros (q & Hin & Hd)%monitored_iff. by rewrite (Hothers q (Done u) Hin Hd) in Hd. }
    split; [|intros _|].
    + rewrite bool_decide_eq_false_2 by done. cbn [y_threads]. rewrite Hlab, Hn, length_app. cbn. lia.
    + unfold y_world. cbn [y_state]. by rewrite Hst', run_checks_snoc.
    + intros q Hin Hd. by rewrite (Hothers q (Done u) Hin Hd) in Hd.
  - exists []. rewrite app_nil_r.
    match goal with |- breaker_at _ _ _ _ ?y => assert (l ∈ being_monitored y) as Hm end.
    { apply monitored_iff. exists p'. cbn [y_threads]. set_solver. }
    split; [|done|].
    + rewrite bool_decide_eq_true_2 by done. cbn [y_threads]. by rewrite Hlab, Hn.
    + intros q Hin Hd. by rewrite (Hothers q p' Hin Hd).
Qed.

Lemma breaker_steps y y' outcomes :
  rtc (some_step g) y y' → system_wf y → single_writers y → l ∈ y_monitors y →
  threshold (health_check (le_config (entry l (y_world y)))) = thr →
  breaker_at l thr e0 outcomes y → ∃ outcomes', breaker_at l thr e0 outcomes' y'.
Proof.
  intros Hr. revert outcomes. induction Hr as [y|y1 y2 y3 [a Hst] _ IH]; [eauto|].
  intros outcomes Hwf Hsw Hl Hthr Hb.
  pose proof (step_wf _ _ _ _ Hst Hwf) as Hwf2. pose proof (step_single _ _ _ _ Hst Hwf Hsw) as Hsw2.
  assert (l ∈ y_monitors y2) as Hl2 by by destruct Hst.
  pose proof (y_monitors_wf _ Hwf l Hl) as Hh.
  assert (threshold (health_check (le_config (entry l (y_world y2)))) = thr) as Hthr2.
  { destruct (step_guarantee _ _ _ _ Hst Hwf) as (Hp & _). destruct Hh as [e He].
    destruct (Hp l e He) as (e' & He' & [Hc _]).
    by rewrite (entry_lookup _ _ _ He'), Hc, <- (entry_lookup _ _ _ He). }
  destruct (is_turn l a) eqn:Ha; [apply is_turn_true in Ha as ->|].
  - destruct Hst as [y Hen Hal|y s ths Hst|y rq before p after Heq _]; [| |discriminate Heq].
    + eapply IH; [done..|]. by apply breaker_begins.
    + destruct (breaker_goes_on _ _ _ _ Hst Hwf (sw_turns _ Hsw) Hb) as [more Hb']. by eapply IH.
  - eapply IH; [done..|]. eapply breaker_others; [exact Hst| |done..].
    intros ->. by rewrite (proj2 (is_turn_true l _) eq_refl) in Ha.
Qed.
End steps.

(** (C14) The circuit breaker counts under interleaving as it does alone: whatever runs in
    the middle of its turns, a monitor's leaf has, whenever no check of it is under way,
    exactly the status that as many successive checks as turns were taken give, one after
    the other and each with one outcome, starting from the status at start-up. *)
Theorem breaker_is_sequential `{!Base64} cli random crd_up e r g y l :
  starts cli random crd_up e r → rtc (some_step g) (started r) y →
  l ∈ r_monitors r → l ∉ being_monitored y →
  let e0 := entry l (st_world (r_state r)) in
  ∃ outcomes, length outcomes = turns l (y_threads y) ∧
    status (entry l (y_world y)) =
    status (run_checks (threshold (health_check (le_config e0))) outcomes e0).
Proof.
  intros Hmain Hr Hl Hno e0. destruct (reachable_wf _ _ _ _ _ g _ Hmain (rtc_refl _ _)) as [Hwf Hsw].
  destruct (breaker_steps g l (threshold (health_check (le_config e0))) e0 _ _ [] Hr Hwf Hsw Hl)
    as [outcomes [Hn Hq _]]; [done| |].
  { split; [|done|by intros p ?%list_elem_of_singleton]. rewrite bool_decide_eq_false_2; [done|].
    by intros (p & ?%list_elem_of_singleton & _)%monitored_iff. }
  exists outcomes. split; [|by apply Hq]. rewrite Hn, bool_decide_eq_false_2 by done. lia.
Qed.
End breaker.

(** ** Witness: one turn of the monitor of [alpha] *)
Import System.Example.

Lemma breaker_is_sequential_witness :
  ∃ r l y outcome, server_starts r ∧
    y_threads y = [(AStart, Done tt); (AMonitor l, Done tt)] ∧
    y_state y = (run (p_act g (AMonitor l)) (r_state (listening r))).2 ∧
    status (entry l (y_world y)) = (let e0 := entry l (st_world (r_state r)) in
     status (run_checks (threshold (health_check (le_config e0))) [outcome] e0)).
Proof.
  destruct outcome_starts as [r Hr]. destruct (example_alpha r Hr) as (l & Ha & Hl).
  set (a := AMonitor l).
  set (y := with_threads (run (p_act g a) (r_state (listening r))).2
              [(AStart, Done tt); (a, Done tt)] (up r)).
  assert (rtc (some_step g) (started r) y) as Hy.
  { etrans; [apply up_steps|]. eapply rtc_l; [exists a; apply step_begin; [exact Hl| |exact I]|].
    { by intros b p <- ?%list_elem_of_singleton. }
    etrans; [apply (step_some g a), (finishes g a _ _ [_])|].
    unfold y, with_threads. cbn [app]. destruct (run (p_act g a) _).1. apply rtc_refl. }
  assert (l ∉ being_monitored y) as Hno by (unfold being_monitored; cbn; apply not_elem_of_nil).
  destruct (breaker_is_sequential _ _ _ _ r g y l Hr Hy Hl Hno) as ([|o [|]] & Hn & Hs);
    unfold turns in Hn; cbn [y_threads y with_threads] in Hn;
    rewrite filter_cons_False, filter_cons_True in Hn
      by (done || by apply is_turn_true); try discriminate Hn.
  by exists r, l, y, o.
Defined.
